(* ===== verification/_CoqProject ===== *)
-Q . S2P
Prelude.v
Text.v
Core.v
Host.v
MemoryHost.v
PathTool.v
FilePages.v
TextEdit.v
WriteTool.v
EditTool.v
ReadTool.v
PatchParser.v
PatchGrammar.v
PatchUpdate.v
PatchApply.v
ProcessCore.v
ProcessLaunch.v
Journal.v
JournalGrowth.v
ProcessStream.v
Resolver.v
NativeMemory.v
SupervisorFs.v
Supervisor.v
PatchOnSupervisor.v
EditOnSupervisor.v
ProcessManager.v
ManagerTable.v
ManagerClients.v
ManagerStreams.v
ManagerSamples.v
OutputBuffers.v
ExecOutput.v
ExecInvocation.v
UnifiedExec.v
ExecSessions.v
ExecOnManager.v
BashTool.v
ShellOnManager.v
ShellSamples.v
ExecSamples.v
Wire.v
WireCodec.v
RemoteRuntime.v
RemoteLaws.v
SupervisorServer.v
HostConnections.v
GatewayHosts.v
WireSamples.v
