(* ===== verification/Prelude.v ===== *)
(** A verification development for agent-pane: the contracts and the core of its
    execution runtime, and the file and patch tools built over them.

    * The program

    agent-pane lets a language model work on an execution host.  The workspace
    [src/execution] defines what a host offers: [execution-core] holds the
    request and result types, their validation and the runtime traits;
    [execution-supervisor-core] implements them on a real machine.  The
    workspace [src/platform] holds the tools the model calls:
    [tools/filesystem] maps the path a model writes to a root of the host, and
    [tools/apply-patch] parses a freeform patch, verifies it against the host
    and applies it in checkpointed steps that can be replayed.  A host may be far
    away: [execution-wire] carries the calls of the runtime traits as data, a
    supervisor answers them on a socket, [execution-gateway] passes them on to the
    hosts that are connected to it or to sandboxes, and [execution-client] makes
    them look like a local runtime again.

    * The files

    - [Prelude]: results with errors and panics, 64-bit arithmetic, slices,
      stable sorting, the tactics and hint databases.
    - [Text]: Rust strings as lists of scalar values, UTF-8, lines, trimming.
    - [Core], [Host], [ProcessCore]: [execution-core].  [Host] also holds the
      effect monad and, as type classes, the runtime traits and the promises
      the tools rely on ([RuntimeSafe], [ReadsWithin], [ReplaySafe]).
    - [MemoryHost]: an in-memory host that keeps those promises; the witnesses
      run on it.
    - [PathTool]: [tools/filesystem].
    - [FilePages], [TextEdit], [WriteTool], [EditTool], [ReadTool]: the tools
      [tools/write], [tools/edit] and [tools/read]; [FilePages] is the promise of a
      host on the pages of a file that the last two read, [TextEdit] the matching
      and replacement of text ([edit/src/matching.rs]).
    - [PatchParser], [PatchGrammar], [PatchUpdate], [PatchApply]:
      [tools/apply-patch].
    - [Journal]: [execution-supervisor-core/src/process/journal.rs];
      [JournalGrowth] shows that its operations succeed and extend its log while
      its events can be encoded and appended.
    - [ProcessStream]: what a client of a process runtime relies on, the classes
      [ReadsStream] (an execution that ends with its state) and [ReadsPages] (one
      whose output is closed by an event), and the pages of a journal that provide
      both.
    - [Resolver]: [execution-supervisor-core/src/path_resolver.rs], over the
      operating system's filesystem as the class [NativeFs]; [NativeMemory] is an
      in-memory POSIX filesystem with symbolic links that satisfies its laws.
    - [SupervisorFs], [Supervisor]: [execution-supervisor-core/src/filesystem.rs],
      [config.rs] and [runtime.rs], and the proof that the supervisor implements
      the interface of [Host].
    - [PatchOnSupervisor], [EditOnSupervisor]: the patch tool and the edit tool
      running on the supervisor.
    - [ProcessLaunch]: [execution-supervisor-core/src/process/shell.rs] and what
      [process/manager.rs] makes of a request before the process exists: the shell
      and its arguments, the environment, the terminal helpers of Windows.
    - [ProcessManager]: the rest of [process/manager.rs] and the signals of
      [platform.rs]; [ManagerTable] and [ManagerClients] hold its invariant and its
      theorems, [ManagerStreams] the proof that it keeps the promises of
      [ReadsStream] and [ReadsPages], [ManagerSamples] a run of it.
    - [OutputBuffers]: the bounded output buffers of the shell tools,
      [tools/unified-exec/src/buffer.rs] and [tools/bash-minimal/src/output.rs].
    - [BashTool]: the shell tool [tools/bash-minimal], proved against
      [ReadsStream]; [ShellOnManager] composes it with the process manager, and
      [ShellSamples] runs the two.
    - [ExecOutput], [ExecInvocation], [UnifiedExec]: the session tools
      [tools/unified-exec], in the files [output.rs], [patch.rs] and [lib.rs];
      [ExecSessions] proves them against [ReadsPages], [ExecOnManager] composes them
      with the process manager, and [ExecSamples] runs the two.
    - [Wire], [WireCodec]: [execution-wire], in the files [protocol.rs] and
      [dispatch.rs], and [codec.rs].
    - [RemoteRuntime]: [execution-client]; [RemoteLaws] proves that the runtime it
      makes does what the runtime behind a [FaithfulGateway] does.
    - [SupervisorServer]: a connection of [execution-supervisor/src/server.rs] and the
      call of its [client.rs].
    - [HostConnections]: [execution-gateway/src/host_connections.rs] as a transition
      system.  [GatewayHosts]: the handler of operations and the sessions of hosts in
      the gateway's [http.rs], its errors, and the messages of
      [execution-host-daemon/src/connection.rs].
    - [WireSamples] runs all of these.

    * How the code is rendered

    A [Result] is a [result], whose third case is a panic (an index or slice out
    of range, an underflow, [unreachable!]), so that "never panics" is a
    theorem.  A [u64] is an [N] with its checked and saturating operations
    written out; a [usize] that counts list elements is a [nat].  An
    [async fn] over the runtime traits is a computation of [Host.M]: the world
    is threaded through, errors keep the effects already made.  A [&mut] value
    is an argument and a result.  A loop that is not a traversal has fuel:
    [PatchApply.read_loop] gets one more than the bytes of the file, since each
    iteration but the last adds a byte; [PatchApply.apply_loop] gets
    [steps_left], which every step lowers by one; [Journal.drain] gets one more
    than the units of the stream; [Resolver.existing_ancestor] and
    [Resolver.creation_walk] get the length of the path, which every iteration
    shortens, and [Resolver.resolve_for_creation] the forty links the code itself
    allows; [EditTool.read_pages] and [ReadTool.read_loop] one more than the bytes of
    the file, [TextEdit.match_indices] one more than the characters of the text,
    [ReadTool.read_on] one more than its lines; [BashTool.wait] polls without a bound of its own, and as many polls as
    the journal has units, plus one, are proved enough once the process has
    ended; so do [UnifiedExec.wait_exec_command] and [UnifiedExec.wait_write_stdin],
    with the same bound, and [steps_left] for a patch; [ExecOutput.fit_output] gets
    the model's tokens, of which every iteration takes some.
    [WireCodec.read_frame] gets one more than the bytes of the stream,
    [SupervisorServer.handle_connection] one more than its requests, and
    [GatewayHosts.await_resumed] the 201 polls that fit its twenty seconds.
    Running out is a panic in the model and is proved not to happen.

    The process manager shares its sessions ([Arc]) between its table and its
    background tasks: sessions live in an arena, the table holds places in it.
    A task is a state of its session and a step it may take; the world carries a
    schedule that says which tasks run at each await, so that a theorem over all
    worlds is one over all interleavings of a call with the tasks.  Calls of
    other clients fall between the calls ([ManagerClients.mstep]).  The gateway's
    registry shares its connections in the same way; there every section of code
    under a lock is an event of its own, so the runs of [HostConnections.step] are the
    interleavings of its tasks.

    * What is shown

    [PatchGrammar] gives the patch language a grammar and a meaning and proves
    that the parser computes it.  [PatchUpdate] proves that both update modes
    compute a reference splice of disjoint replacements, that context lines
    keep the source's own spelling and endings, and that no input makes the
    index arithmetic panic.  [PatchApply] proves that verification only reads,
    that the checkpoints of an application satisfy a progress invariant, that
    applying terminates, and that a step may be replayed against a host that
    keeps receipts.  [PathTool] proves that a resolved path stays inside an
    advertised root and is the most specific one.  [Journal] proves the life
    cycle of the event journal and that paging through it by sequence number
    loses and repeats nothing, and records what a partial write does to it.
    [Resolver] proves that a resolved path is used by the host without leaving its
    root, in a tree that does not change meanwhile, whatever links it holds; of a
    directory to be created, that its path leads to a place below the root
    ([Resolver.leads]).
    [SupervisorFs] proves that a read is a window of the file however it is
    chunked, and that an operation identifier on record never acts again, through
    crashes of its call and interference; [Supervisor] that the supervisor keeps
    the promises [Host] states, that listings page without loss, and where a
    listing panics.  [PatchOnSupervisor] composes them: a patch step repeated from
    its checkpoint acts at most once.  [ManagerTable] and [ManagerClients] prove,
    over every history of calls and tasks, that an execution id starts at most one
    process, that the count of active processes is exact and within its limit,
    and that starts, inputs and control operations act at most once however often
    they are retried, and answer only the same request, for inputs and control
    operations unless encodings or digests coincide ([ManagerClients.unambiguous],
    [ManagerClients.collision_free]).  [TextEdit] proves that a
    replacement is the splitting of the text at its occurrences, [ReadTool] that the
    byte-by-byte reader returns a reference window of lines, that following its
    offsets reads the whole text, and that reading in pages makes no difference;
    [EditOnSupervisor] that an edit replaces the very text that was observed, as the
    last thing it does to the disk, or fails with the disk as it was or while
    replacing.
    [OutputBuffers] proves that what the bounded buffers keep
    is the window of the output they promise, however it is chunked.
    [ShellOnManager] proves that what the shell tool shows of a command is the
    window of everything the supervisor recorded of it, through every interleaving of polls,
    other clients and tasks, and that waiting for an ended command ends.
    [ExecOnManager] proves of the session tools that the results of successive
    calls tell consecutive parts of the output, that the last of them completes it,
    and that waiting ends; [ExecSessions] that an intercepted patch is applied as the
    patch tool applies it; [ExecOutput] that a result cut for the model keeps both
    its ends and its budgets.
    [WireCodec] proves that framing does not depend on how the stream is cut and that
    messages survive it; [SupervisorServer] that requests are answered in order and
    that a call over the socket is a call of the runtime; [RemoteLaws] that a call is
    answered only by the answer to it, that a remote call is at most one call of the
    runtime behind the gateway, with its result, and so that a remote runtime keeps
    the promises the tools were proved against.  [HostConnections] proves, over all
    interleavings, that answers are not mixed up, that no host is flooded, and that
    the calls of a lost connection fail at once; [GatewayHosts] that operations run on
    hosts that are ready, on the sandbox and account stored for them, that the wait for one ends, and that the caller is told the
    outcome, and records two races of the sessions.

    * Parameters

    Code outside the repository is a parameter: the JSON encoding of journal
    events ([Journal.JournalCodec], with the law that decoding undoes encoding),
    the [Debug] rendering of a path ([PatchApply.DebugPath]) and of a string
    ([Resolver.DebugStr]), the cancellation token and clock ([Host.World]), SHA-256
    and the JSON of requests ([SupervisorFs.Digest], [SupervisorFs.RequestCodec]),
    and the operating system's filesystem ([Resolver.NativeFs]) with the laws of
    POSIX path resolution ([Resolver.NativeLaws]); the operating system's processes,
    pipes, terminals and clock ([ProcessManager.ProcessHost]), the search for a shell
    ([ProcessLaunch.ShellHost]) and the JSON of process requests
    ([ProcessManager.ProcessCodec]); the JSON of a string ([WriteTool.JsonString]); fresh cancellation tokens and the JSON of an
    error ([BashTool.Tokens], [BashTool.ErrorJson]); tree-sitter's parse of a script
    ([ExecInvocation.BashGrammar]); the clock in milliseconds, the pause and the random
    digits of the session tools ([UnifiedExec.ExecClock]).  Of the remote side: buffered readers and writers and the JSON of
    envelopes ([WireCodec.BufRead], [WireCodec.Writer], [WireCodec.Json], with laws),
    HTTP, request ids and the race with cancellation ([RemoteRuntime.HttpGateway]),
    URLs and UUIDs ([RemoteRuntime.Urls]), a shutdown ([SupervisorServer.Shutdown]),
    and the database, credentials, clock and provider of the gateway
    ([GatewayHosts.GatewayServices]).  A gateway is faithful
    ([RemoteLaws.FaithfulGateway]) if a request it was sent is dispatched at most once
    before the exchange ends, and answered by the result of that; a request that is
    still under way when its caller gives up counts as dispatched or lost then.
    Input and output fail freely;
    only the theorems about complete output suppose that every event can be
    encoded and no append to a journal fails ([JournalGrowth.encodes],
    [ManagerTable.appends_succeed]), and the one about waiting that the host
    answers ([ManagerStreams.QuietHost]).  A revision is a digest, so a theorem that
    identifies a content by its revision supposes that the digest does not collide
    there ([FilePages.tells_apart]).

    * What is not modelled

    Serde formats, identifier generation, memory exhaustion, and the timed
    waits of the journal, of which only the states before and after are kept.
    Native paths are POSIX paths with Unicode names; Windows hosts are left out.
    Resolution and use of a path are two steps, and another program may change
    the tree between them: containment is stated for a tree that does not.  In
    the process manager a [select!] is resolved by what the host observed, and
    poisoned locks and failed joins, which need a panic elsewhere, are left out;
    so are the writes two clients have in flight at once, as calls of clients are
    not interleaved with each other.  Of the execution gateway its storage, the
    management of hosts, accounts and snapshots and the reconciler, which are SQL and
    calls of an outside service, of the supervisor's program its directories, locks
    and accept loop, of the daemon its socket and credentials are left out; so are
    the sandbox backend, the language-model gateway and the platform's servers,
    workers and drivers. *)
From Stdlib Require Import ZifyBool Sorted.
From stdpp Require Import prelude gmap strings pretty list.

(** * Results

    Rust's [Result], with the third outcome a Rust function has: a panic
    (an out-of-range index or slice, an arithmetic underflow, [expect],
    [unreachable!]).  Modelling it as a value lets "this code cannot panic"
    be a theorem. *)
Inductive result (E A : Type) : Type :=
  | Ok (a : A)
  | Err (e : E)
  | Panic.
Arguments Ok {E A} a.
Arguments Err {E A} e.
Arguments Panic {E A}.

#[export] Instance result_ret {E} : MRet (result E) := λ A a, Ok a.
#[export] Instance result_bind {E} : MBind (result E) := λ A B f r,
  match r with
  | Ok a => f a
  | Err e => Err e
  | Panic => Panic
  end.
#[export] Instance result_fmap {E} : FMap (result E) := λ A B f r,
  match r with
  | Ok a => Ok (f a)
  | Err e => Err e
  | Panic => Panic
  end.

(** [Result::map_err]. *)
Definition map_err {E F A} (f : E → F) (r : result E A) : result F A :=
  match r with
  | Ok a => Ok a
  | Err e => Err (f e)
  | Panic => Panic
  end.

(** [Option::ok_or]. *)
Definition ok_or {E A} (e : E) (o : option A) : result E A :=
  match o with Some a => Ok a | None => Err e end.

(** [Option::expect] and the index operators. *)
Definition or_panic {E A} (o : option A) : result E A :=
  match o with Some a => Ok a | None => Panic end.

Definition is_ok {E A} (r : result E A) : bool :=
  match r with Ok _ => true | _ => false end.
Definition is_panic {E A} (r : result E A) : bool :=
  match r with Panic => true | _ => false end.

Section result_lemmas.
Context {E A B : Type}.
Implicit Types (r : result E A) (f : A → result E B).

Lemma bind_ok_inv r f b :
  r ≫= f = Ok b → ∃ a, r = Ok a ∧ f a = Ok b.
Proof. destruct r; simpl; naive_solver. Qed.
Lemma bind_err_inv r f e :
  r ≫= f = Err e → r = Err e ∨ ∃ a, r = Ok a ∧ f a = Err e.
Proof. destruct r; simpl; naive_solver. Qed.
Lemma bind_no_panic r f :
  r ≠ Panic → (∀ a, r = Ok a → f a ≠ Panic) → r ≫= f ≠ Panic.
Proof. destruct r; simpl; naive_solver. Qed.
Lemma map_err_ok_inv {F} (g : E → F) r a : map_err g r = Ok a → r = Ok a.
Proof. destruct r; simpl; naive_solver. Qed.
Lemma map_err_no_panic {F} (g : E → F) r : r ≠ Panic → map_err g r ≠ Panic.
Proof. destruct r; simpl; naive_solver. Qed.
End result_lemmas.

(** * Machine integers

    A [u64] (and a [usize] that counts something other than the elements of a
    list held in memory) is an [N]; the operations that can leave the range are
    written out. *)
Definition u64_max : N := 18446744073709551615.
Definition u32_max : N := 4294967295.

Definition u64_sat_add (a b : N) : N := N.min (a + b) u64_max.
Definition u64_sat_mul (a b : N) : N := N.min (a * b) u64_max.
Definition u64_checked_add (a b : N) : option N :=
  if (a + b <=? u64_max)%N then Some (a + b)%N else None.
Definition u64_checked_mul (a b : N) : option N :=
  if (a * b <=? u64_max)%N then Some (a * b)%N else None.
Definition u64_checked_sub (a b : N) : option N :=
  if (b <=? a)%N then Some (a - b)%N else None.
(** [saturating_sub]: [N]'s subtraction is already truncated at zero. *)
Definition u64_sat_sub (a b : N) : N := (a - b)%N.

Definition in_u64 (n : N) : Prop := (n ≤ u64_max)%N.

Lemma u64_sat_add_small a b : in_u64 (a + b) → u64_sat_add a b = (a + b)%N.
Proof. unfold in_u64, u64_sat_add. lia. Qed.
Lemma u64_sat_add_bound a b : in_u64 (u64_sat_add a b).
Proof. unfold in_u64, u64_sat_add. lia. Qed.
Lemma u64_sat_add_ge_l a b : in_u64 a → (a ≤ u64_sat_add a b)%N.
Proof. unfold in_u64, u64_sat_add. lia. Qed.
Lemma u64_checked_add_Some a b c :
  u64_checked_add a b = Some c → c = (a + b)%N ∧ in_u64 c.
Proof. unfold u64_checked_add, in_u64. destruct (N.leb_spec (a + b) u64_max); naive_solver. Qed.

(** [usize] arithmetic on list positions: subtraction panics below zero. *)
Definition usize_sub {E} (a b : nat) : result E nat :=
  if decide (b ≤ a) then Ok (a - b) else Panic.

(** [&l[a..b]]: panics unless [a <= b <= l.len()]. *)
Definition slice {E A} (l : list A) (a b : nat) : result E (list A) :=
  if decide (a ≤ b ∧ b ≤ length l) then Ok (take (b - a) (drop a l)) else Panic.
(** [&l[a..]]. *)
Definition slice_from {E A} (l : list A) (a : nat) : result E (list A) :=
  slice l a (length l).
(** [l[i]]. *)
Definition index {E A} (l : list A) (i : nat) : result E A := or_panic (l !! i).
(** [l.insert(i, x)]: panics when [i > l.len()]. *)
Definition vec_insert {E A} (l : list A) (i : nat) (x : A) : result E (list A) :=
  if decide (i ≤ length l) then Ok (take i l ++ x :: drop i l) else Panic.
(** [l.remove(i)]: panics when [i >= l.len()]. *)
Definition vec_remove {E A} (l : list A) (i : nat) : result E (list A) :=
  if decide (i < length l) then Ok (take i l ++ drop (S i) l) else Panic.

Section slices.
Context {E A : Type}.
Implicit Types l : list A.

Lemma slice_ok l a b :
  a ≤ b → b ≤ length l → slice (E:=E) l a b = Ok (take (b - a) (drop a l)).
Proof. intros. unfold slice. by rewrite decide_True. Qed.
Lemma slice_from_ok l a :
  a ≤ length l → slice_from (E:=E) l a = Ok (drop a l).
Proof.
  intros. unfold slice_from. rewrite slice_ok by lia.
  by rewrite take_ge by (rewrite length_drop; lia).
Qed.
Lemma vec_insert_ok l i x :
  i ≤ length l → vec_insert (E:=E) l i x = Ok (take i l ++ x :: drop i l).
Proof. intros. unfold vec_insert. by rewrite decide_True. Qed.
Lemma vec_remove_ok l i :
  i < length l → vec_remove (E:=E) l i = Ok (take i l ++ drop (S i) l).
Proof. intros. unfold vec_remove. by rewrite decide_True. Qed.
Lemma usize_sub_ok a b : b ≤ a → usize_sub (E:=E) a b = Ok (a - b).
Proof. intros. unfold usize_sub. by rewrite decide_True. Qed.
End slices.

(** Loops that may stop early: [for x in l { acc = f(acc, x)?; }]. *)
Fixpoint fold_result {E A B} (f : B → A → result E B) (acc : B) (l : list A) : result E B :=
  match l with
  | [] => Ok acc
  | x :: l' => acc' ← f acc x; fold_result f acc' l'
  end.

Lemma fold_result_app {E A B} (f : B → A → result E B) acc l1 l2 :
  fold_result f acc (l1 ++ l2) = fold_result f acc l1 ≫= λ acc', fold_result f acc' l2.
Proof.
  revert acc. induction l1 as [|x l1 IH]; intros acc; simpl; [done|].
  destruct (f acc x); simpl; [apply IH|done|done].
Qed.

Lemma fold_result_inv {E A B} (P : B → Prop) (f : B → A → result E B) acc l acc' :
  P acc → (∀ b x b', P b → x ∈ l → f b x = Ok b' → P b') →
  fold_result f acc l = Ok acc' → P acc'.
Proof.
  revert acc. induction l as [|x l IH]; intros acc HP Hstep Hf; simplify_eq/=; [done|].
  apply bind_ok_inv in Hf as (acc1 & H1 & H2).
  eapply (IH acc1); [|by intros; eapply Hstep; eauto; right|done].
  eapply Hstep; [done|left|done].
Qed.

Lemma fold_result_no_panic {E A B} (P : B → Prop) (f : B → A → result E B) acc l :
  P acc → (∀ b x, P b → f b x ≠ Panic) → (∀ b x b', P b → f b x = Ok b' → P b') →
  fold_result f acc l ≠ Panic.
Proof.
  intros Hacc Hnp Hpres. revert acc Hacc.
  induction l as [|x l IH]; intros acc Hacc; cbn [fold_result]; [done|].
  apply bind_no_panic; [by apply Hnp|]. intros b Hb. apply IH. by eapply Hpres.
Qed.

(** [iter().find_map(f)] and [position]: the first element of an ascending index
    range that satisfies a test. *)
Fixpoint find_index_from (P : nat → bool) (start count : nat) : option nat :=
  match count with
  | 0 => None
  | S count' => if P start then Some start else find_index_from P (S start) count'
  end.

Lemma find_index_from_Some P start count i :
  find_index_from P start count = Some i →
  start ≤ i < start + count ∧ P i = true ∧ ∀ j, start ≤ j < i → P j = false.
Proof.
  revert start. induction count as [|count IH]; intros start Hf; simplify_eq/=.
  destruct (P start) eqn:HP; simplify_eq.
  - split_and!; [lia|lia|done|lia].
  - apply IH in Hf as (? & ? & Hmin). split_and!; [lia|lia|done|].
    intros j Hj. destruct (decide (j = start)) as [->|]; [done|apply Hmin; lia].
Qed.
Lemma find_index_from_None P start count :
  find_index_from P start count = None ↔ ∀ j, start ≤ j < start + count → P j = false.
Proof.
  revert start. induction count as [|count IH]; intros start; simpl.
  - split; [lia|done].
  - destruct (P start) eqn:HP.
    + split; [done|]. intros H. specialize (H start). rewrite HP in H. naive_solver lia.
    + rewrite IH. split; intros H j Hj; [|apply H; lia].
      destruct (decide (j = start)) as [->|]; [done|apply H; lia].
Qed.

(** [slice::sort_by_key]: a stable sort, as insertion from the right. *)
Section stable_sort.
Context {A : Type} (leb : A → A → bool).

Fixpoint insert_by (x : A) (l : list A) : list A :=
  match l with
  | [] => [x]
  | y :: l' => if leb x y then x :: l else y :: insert_by x l'
  end.
Definition sort_by (l : list A) : list A := foldr insert_by [] l.

Lemma insert_by_Permutation x l : insert_by x l ≡ₚ x :: l.
Proof.
  induction l as [|y l IH]; simpl; [done|]. destruct (leb x y); [done|].
  rewrite IH. apply Permutation_swap.
Qed.
Lemma sort_by_Permutation l : sort_by l ≡ₚ l.
Proof. induction l as [|x l IH]; simpl; [done|]. by rewrite insert_by_Permutation, IH. Qed.

Context (leb_total : ∀ x y, leb x y = false → leb y x = true)
        (leb_trans : ∀ x y z, leb x y = true → leb y z = true → leb x z = true).
Let le x y := leb x y = true.

Lemma insert_by_sorted x l : StronglySorted le l → StronglySorted le (insert_by x l).
Proof.
  induction 1 as [|y l Hl IH Hy]; simpl; [repeat constructor|].
  destruct (leb x y) eqn:Hxy.
  - constructor; [by constructor|]. constructor; [done|].
    eapply Forall_impl; [done|]. intros z Hz. by eapply leb_trans.
  - constructor; [done|]. rewrite insert_by_Permutation. constructor; [|done].
    by apply leb_total.
Qed.
Lemma sort_by_sorted l : StronglySorted le (sort_by l).
Proof. induction l; simpl; [constructor|by apply insert_by_sorted]. Qed.

(** A sorted list is left alone, so equal keys keep their order. *)
Lemma sort_by_id l : StronglySorted le l → sort_by l = l.
Proof.
  induction 1 as [|x l Hl IH Hx]; simpl; [done|]. rewrite IH.
  destruct Hx as [|y l Hxy _]; simpl; [done|]. by rewrite Hxy.
Qed.
End stable_sort.

(** A sorted list stays sorted when something above all of it is put at its end. *)
Lemma StronglySorted_snoc {A} (R : A → A → Prop) l x :
  StronglySorted R l → Forall (λ y, R y x) l → StronglySorted R (l ++ [x]).
Proof.
  induction 1 as [|y l Hl IH Hy]; simpl; intros Hx; [repeat constructor|].
  apply Forall_cons in Hx as [Hyx Hx]. constructor; [by apply IH|].
  apply Forall_app. by split; [|constructor].
Qed.

(** Case analysis on the innermost [if]/[match] of the goal or a hypothesis,
    with the contradictory branches closed. *)
Ltac crush_match :=
  repeat (case_match; simplify_eq/=; try done).
(** Opens a hypothesis [m ≫= f = Ok x] into its steps. *)
Ltac inv_ok H :=
  let a := fresh "a" in let Ha := fresh "H" in
  apply bind_ok_inv in H as (a & Ha & H).

(** Computes through the binds, conditionals and projections of a pure
    computation without unfolding anything else. *)
Tactic Notation "step_result" :=
  cbn [mbind result_bind mret result_ret ok_or or_panic map_err orb andb negb fst snd].

Tactic Notation "step_result" "in" hyp(H) :=
  cbn [mbind result_bind mret result_ret ok_or or_panic map_err orb andb negb fst snd] in H.

Create HintDb rust.
Create Rewrite HintDb rust.
#[export] Hint Resolve u64_sat_add_bound u64_sat_add_ge_l : rust.
#[export] Hint Rewrite @slice_ok @slice_from_ok @vec_insert_ok @vec_remove_ok
  @usize_sub_ok using (try done; lia) : rust.
