(* ===== verification/Text.v ===== *)
(** Rust's [str] and [Vec<u8>]: the string operations of the standard library
    that the program uses, with the lemmas the components share.

    A [str] is the list of its Unicode scalar values ([Vec<char>] as [N]);
    [utf8_encode] gives its bytes and [utf8_len] is [str::len].  A byte is an [N]
    below 256. *)
From Stdlib Require Import ZifyBool.
From stdpp Require Import prelude gmap strings pretty list.
From S2P Require Import Prelude.

Abbreviation char := N (only parsing).
Abbreviation str := (list N) (only parsing).
Abbreviation bytes := (list N) (only parsing).

(** A literal of the source, and the pieces of a [format!]. *)
Definition lit (s : string) : str := Ascii.N_of_ascii <$> String.list_ascii_of_string s.
Notation "str! s" := (lit s%string) (at level 1, s at level 0, format "str! s").
Definition format (pieces : list str) : str := concat pieces.
Notation "format! l" := (format l) (at level 1, l at level 0, only parsing).
(** [{n}] for an unsigned integer. *)
Definition show_N (n : N) : str := lit (pretty n).
(** An [i32] in decimal. *)
Definition show_i32 (z : Z) : str :=
  if (z <? 0)%Z then str! "-" ++ show_N (Z.to_N (- z)) else show_N (Z.to_N z).
Definition show_nat (n : nat) : str := show_N (N.of_nat n).

Definition NL : char := 10.
Definition CR : char := 13.
Definition SLASH : char := 47.
Definition BACKSLASH : char := 92.
Definition COLON : char := 58.
Definition DOT : char := 46.
Definition SPACE : char := 32.
Definition NUL : char := 0.

(** ** Characters *)

(** [char::is_whitespace]: Unicode's White_Space. *)
Definition is_whitespace (c : char) : bool :=
  ((9 <=? c) && (c <=? 13) || (c =? 32) || (c =? 133) || (c =? 160) || (c =? 5760)
   || (8192 <=? c) && (c <=? 8202) || (c =? 8232) || (c =? 8233) || (c =? 8239)
   || (c =? 8287) || (c =? 12288))%N.

Definition is_ascii_alphabetic (c : char) : bool :=
  ((65 <=? c) && (c <=? 90) || (97 <=? c) && (c <=? 122))%N.
Definition to_ascii_lowercase (c : char) : char :=
  if ((65 <=? c) && (c <=? 90))%N then (c + 32)%N else c.
Definition eq_ignore_ascii_case (a b : str) : bool :=
  bool_decide (to_ascii_lowercase <$> a = to_ascii_lowercase <$> b).

(** A Unicode scalar value: what a [char] can hold. *)
Definition is_scalar (c : N) : bool :=
  ((c <? 55296) || (57344 <=? c) && (c <=? 1114111))%N.
Definition valid_str (s : str) : Prop := Forall (λ c, is_scalar c = true) s.

(** ** UTF-8 *)
Definition char_utf8 (c : char) : bytes :=
  (if c <? 128 then [c]
   else if c <? 2048 then [192 + c / 64; 128 + c mod 64]
   else if c <? 65536 then [224 + c / 4096; 128 + (c / 64) mod 64; 128 + c mod 64]
   else [240 + c / 262144; 128 + (c / 4096) mod 64; 128 + (c / 64) mod 64; 128 + c mod 64])%N.

Definition utf8_encode (s : str) : bytes := s ≫= char_utf8.
(** [char::len_utf8] and [str::len]. *)
Definition len_utf8 (c : char) : nat := length (char_utf8 c).
Definition utf8_len (s : str) : nat := length (utf8_encode s).

Definition is_continuation (b : N) : bool := ((128 <=? b) && (b <? 192))%N.

(** [String::from_utf8]: strict decoding, refusing overlong forms, surrogates
    and values above U+10FFFF.  The fuel is the number of bytes. *)
Fixpoint utf8_decode_fuel (fuel : nat) (bs : bytes) : option str :=
  match fuel, bs with
  | _, [] => Some []
  | 0, _ => None
  | S fuel, b0 :: bs =>
    if (b0 <? 128)%N then cons b0 <$> utf8_decode_fuel fuel bs
    else if ((194 <=? b0) && (b0 <? 224))%N then
      match bs with
      | b1 :: bs =>
        if is_continuation b1
        then cons ((b0 - 192) * 64 + (b1 - 128))%N <$> utf8_decode_fuel fuel bs
        else None
      | _ => None
      end
    else if ((224 <=? b0) && (b0 <? 240))%N then
      match bs with
      | b1 :: b2 :: bs =>
        let c := ((b0 - 224) * 4096 + (b1 - 128) * 64 + (b2 - 128))%N in
        if is_continuation b1 && is_continuation b2 && (2048 <=? c)%N && is_scalar c
        then cons c <$> utf8_decode_fuel fuel bs
        else None
      | _ => None
      end
    else if ((240 <=? b0) && (b0 <? 245))%N then
      match bs with
      | b1 :: b2 :: b3 :: bs =>
        let c := ((b0 - 240) * 262144 + (b1 - 128) * 4096 + (b2 - 128) * 64 + (b3 - 128))%N in
        if is_continuation b1 && is_continuation b2 && is_continuation b3
           && (65536 <=? c)%N && is_scalar c
        then cons c <$> utf8_decode_fuel fuel bs
        else None
      | _ => None
      end
    else None
  end.
Definition utf8_decode (bs : bytes) : option str := utf8_decode_fuel (length bs) bs.

(** ** Searching and splitting *)

Definition str_is_empty (s : str) : bool := bool_decide (s = []).
Definition str_eqb (a b : str) : bool := bool_decide (a = b).

Fixpoint strip_prefix (p s : str) : option str :=
  match p, s with
  | [], _ => Some s
  | a :: p, b :: s => if (a =? b)%N then strip_prefix p s else None
  | _ :: _, [] => None
  end.
Definition starts_with (p s : str) : bool := bool_decide (is_Some (strip_prefix p s)).
Definition strip_suffix (p s : str) : option str :=
  reverse <$> strip_prefix (reverse p) (reverse s).
Definition ends_with (p s : str) : bool := bool_decide (is_Some (strip_suffix p s)).
Definition contains_char (c : char) (s : str) : bool := existsb (N.eqb c) s.

(** [str::split(c)]: always at least one piece. *)
Fixpoint split_char (c : char) (s : str) : list str :=
  match s with
  | [] => [[]]
  | x :: s =>
    if (x =? c)%N then [] :: split_char c s
    else match split_char c s with
         | [] => [[x]]
         | p :: ps => (x :: p) :: ps
         end
  end.

(** [slice::join(sep)]. *)
Fixpoint join (sep : str) (l : list str) : str :=
  match l with
  | [] => []
  | [x] => x
  | x :: l => x ++ sep ++ join sep l
  end.

(** [str::split_inclusive('\n')]. *)
Fixpoint split_inclusive (s : str) : list str :=
  match s with
  | [] => []
  | x :: s =>
    if (x =? NL)%N then [x] :: split_inclusive s
    else match split_inclusive s with
         | [] => [[x]]
         | p :: ps => (x :: p) :: ps
         end
  end.

(** [str::lines]: each piece of [split_inclusive] without its [\n] or [\r\n]. *)
Definition strip_line_ending (line : str) : str :=
  match strip_suffix [NL] line with
  | None => line
  | Some line => match strip_suffix [CR] line with None => line | Some line => line end
  end.
Definition lines (s : str) : list str := strip_line_ending <$> split_inclusive s.

(** [str::replace(char, &str)]. *)
Definition replace_char (c : char) (by_ : str) (s : str) : str :=
  s ≫= λ x, if (x =? c)%N then by_ else [x].

(** ** Trimming *)
Fixpoint trim_start (s : str) : str :=
  match s with
  | c :: s' => if is_whitespace c then trim_start s' else s
  | [] => []
  end.
Definition trim_end (s : str) : str := reverse (trim_start (reverse s)).
Definition trim (s : str) : str := trim_end (trim_start s).

(** ** Lemmas *)

Lemma char_utf8_nonempty c : char_utf8 c ≠ [].
Proof. unfold char_utf8. crush_match. Qed.

Lemma utf8_encode_app a b : utf8_encode (a ++ b) = utf8_encode a ++ utf8_encode b.
Proof. apply bind_app. Qed.
Lemma utf8_encode_cons c s : utf8_encode (c :: s) = char_utf8 c ++ utf8_encode s.
Proof. done. Qed.
Lemma utf8_len_app a b : utf8_len (a ++ b) = utf8_len a + utf8_len b.
Proof. unfold utf8_len. by rewrite utf8_encode_app, length_app. Qed.

(** Decoding one character off the front of an encoded string. *)
Ltac decide_ltbs :=
  repeat match goal with
  | |- context [(?a <? ?b)%N] =>
    first [rewrite (proj2 (N.ltb_lt a b)) by lia | rewrite (proj2 (N.ltb_ge a b)) by lia]
  | |- context [(?a <=? ?b)%N] =>
    first [rewrite (proj2 (N.leb_le a b)) by lia | rewrite (proj2 (N.leb_gt a b)) by lia]
  end; cbn [andb orb].

Section decode_char.
Local Open Scope N_scope.
Context (fuel : nat) (bs : bytes).

Lemma decode_2 q t :
  2 ≤ q → q < 32 → t < 64 →
  utf8_decode_fuel (S fuel) (192 + q :: 128 + t :: bs)
  = cons (q * 64 + t) <$> utf8_decode_fuel fuel bs.
Proof.
  intros. cbn [utf8_decode_fuel]. unfold is_continuation. decide_ltbs.
  by replace ((192 + q - 192) * 64 + (128 + t - 128)) with (q * 64 + t) by lia.
Qed.
Lemma decode_3 q r t :
  q < 16 → r < 64 → t < 64 → 2048 ≤ q * 4096 + r * 64 + t →
  is_scalar (q * 4096 + r * 64 + t) = true →
  utf8_decode_fuel (S fuel) (224 + q :: 128 + r :: 128 + t :: bs)
  = cons (q * 4096 + r * 64 + t) <$> utf8_decode_fuel fuel bs.
Proof.
  intros ???? Hs. cbn [utf8_decode_fuel]. unfold is_continuation.
  replace ((224 + q - 224) * 4096 + (128 + r - 128) * 64 + (128 + t - 128))
    with (q * 4096 + r * 64 + t) by lia.
  rewrite Hs. by decide_ltbs.
Qed.
Lemma decode_4 p q r t :
  p < 5 → q < 64 → r < 64 → t < 64 →
  65536 ≤ p * 262144 + q * 4096 + r * 64 + t →
  is_scalar (p * 262144 + q * 4096 + r * 64 + t) = true →
  utf8_decode_fuel (S fuel) (240 + p :: 128 + q :: 128 + r :: 128 + t :: bs)
  = cons (p * 262144 + q * 4096 + r * 64 + t) <$> utf8_decode_fuel fuel bs.
Proof.
  intros ????? Hs. cbn [utf8_decode_fuel]. unfold is_continuation.
  replace ((240 + p - 240) * 262144 + (128 + q - 128) * 4096 + (128 + r - 128) * 64
           + (128 + t - 128)) with (p * 262144 + q * 4096 + r * 64 + t) by lia.
  rewrite Hs. by decide_ltbs.
Qed.

Lemma base64_digits c : ∃ q r, c = q * 64 + r ∧ r < 64 ∧ c / 64 = q ∧ c mod 64 = r.
Proof.
  exists (c / 64), (c mod 64). pose proof (N.div_mod c 64). pose proof (N.mod_lt c 64). lia.
Qed.

Lemma decode_char c :
  is_scalar c = true →
  utf8_decode_fuel (S fuel) (char_utf8 c ++ bs) = cons c <$> utf8_decode_fuel fuel bs.
Proof.
  intros Hc. assert (c ≤ 1114111) by (unfold is_scalar in Hc; lia).
  unfold char_utf8.
  replace (c / 262144) with (c / 64 / 64 / 64) by (by rewrite !N.Div0.div_div).
  replace (c / 4096) with (c / 64 / 64) by (by rewrite !N.Div0.div_div).
  destruct (base64_digits c) as (d1 & r0 & Hc1 & ? & -> & ->).
  destruct (base64_digits d1) as (d2 & r1 & Hc2 & ? & -> & ->).
  destruct (base64_digits d2) as (d3 & r2 & Hc3 & ? & -> & ->).
  destruct (N.ltb_spec c 128); [|destruct (N.ltb_spec c 2048); [|destruct (N.ltb_spec c 65536)]];
    cbn [app].
  - cbn [utf8_decode_fuel]. by decide_ltbs.
  - rewrite decode_2 by lia. by rewrite <-Hc1.
  - assert (Hd : d2 * 4096 + r1 * 64 + r0 = c) by lia.
    rewrite decode_3 by (rewrite ?Hd; done || lia). by rewrite Hd.
  - assert (Hd : d3 * 262144 + r2 * 4096 + r1 * 64 + r0 = c) by lia.
    rewrite decode_4 by (rewrite ?Hd; done || lia). by rewrite Hd.
Qed.
End decode_char.

Lemma utf8_decode_fuel_encode fuel s :
  valid_str s → utf8_len s ≤ fuel → utf8_decode_fuel fuel (utf8_encode s) = Some s.
Proof.
  intros Hs. revert fuel. induction Hs as [|c s Hc Hs IH]; intros fuel Hf; [by destruct fuel|].
  assert (0 < len_utf8 c).
  { unfold len_utf8. destruct (char_utf8 c) eqn:E; [by apply char_utf8_nonempty in E|simpl; lia]. }
  unfold utf8_len in *. rewrite utf8_encode_cons, length_app in *. unfold len_utf8 in *.
  destruct fuel as [|fuel]; [lia|]. rewrite decode_char by done.
  rewrite IH by lia. done.
Qed.

(** [String::from_utf8(s.into_bytes()) == Ok(s)]. *)
Lemma utf8_decode_encode s : valid_str s → utf8_decode (utf8_encode s) = Some s.
Proof. intros. by apply utf8_decode_fuel_encode. Qed.

(** ** Prefixes and suffixes *)
Lemma strip_prefix_Some p s t : strip_prefix p s = Some t ↔ s = p ++ t.
Proof.
  revert s. induction p as [|a p IH]; intros s; simpl; [naive_solver|].
  destruct s as [|b s]; [naive_solver|].
  destruct (N.eqb_spec a b) as [->|Hne]; [rewrite IH|]; naive_solver.
Qed.
Lemma strip_prefix_app p s : strip_prefix p (p ++ s) = Some s.
Proof. by apply strip_prefix_Some. Qed.
Lemma strip_prefix_None p s : strip_prefix p s = None ↔ ∀ t, s ≠ p ++ t.
Proof.
  destruct (strip_prefix p s) as [t|] eqn:E.
  - apply strip_prefix_Some in E. naive_solver.
  - split; [|done]. intros _ t Ht. apply strip_prefix_Some in Ht. congruence.
Qed.
Lemma strip_suffix_Some p s t : strip_suffix p s = Some t ↔ s = t ++ p.
Proof.
  unfold strip_suffix. rewrite fmap_Some. split.
  - intros (x & Hx & ->). apply strip_prefix_Some in Hx.
    by rewrite <-(reverse_involutive s), Hx, reverse_app, reverse_involutive.
  - intros ->. exists (reverse t). rewrite reverse_involutive. split; [|done].
    by rewrite strip_prefix_Some, reverse_app.
Qed.
Lemma starts_with_spec p s : starts_with p s = true ↔ ∃ t, s = p ++ t.
Proof.
  unfold starts_with. rewrite bool_decide_eq_true. unfold is_Some.
  by setoid_rewrite strip_prefix_Some.
Qed.
Lemma strip_suffix_snoc s c : strip_suffix [c] (s ++ [c]) = Some s.
Proof. by apply strip_suffix_Some. Qed.
Lemma strip_suffix_snoc_ne s c d : c ≠ d → strip_suffix [c] (s ++ [d]) = None.
Proof.
  intros Hne. destruct (strip_suffix [c] (s ++ [d])) eqn:E; [|done].
  apply strip_suffix_Some, app_inj_tail in E. naive_solver.
Qed.
Lemma strip_suffix_char_None s c : last s ≠ Some c → strip_suffix [c] s = None.
Proof.
  intros Hl. destruct (strip_suffix [c] s) as [t|] eqn:E; [|done].
  apply strip_suffix_Some in E. subst. by rewrite last_snoc in Hl.
Qed.

Lemma contains_char_spec c s : contains_char c s = true ↔ c ∈ s.
Proof.
  unfold contains_char. rewrite existsb_exists. split.
  - intros (x & Hx%list_elem_of_In & ->%N.eqb_eq). done.
  - intros Hc. exists c. split; [by apply list_elem_of_In|apply N.eqb_refl].
Qed.
Lemma contains_char_false c s : contains_char c s = false ↔ c ∉ s.
Proof. rewrite <-not_true_iff_false. by rewrite contains_char_spec. Qed.

(** ** [split] and [join] *)
Lemma split_char_nonempty c s : split_char c s ≠ [].
Proof. destruct s; simpl; repeat case_match; done. Qed.
#[export] Hint Resolve split_char_nonempty : rust.

Lemma join_cons sep x l : l ≠ [] → join sep (x :: l) = x ++ sep ++ join sep l.
Proof. by destruct l. Qed.

Lemma join_split_char c s : join [c] (split_char c s) = s.
Proof.
  induction s as [|x s IH]; [done|]. simpl.
  destruct (N.eqb_spec x c) as [->|Hne].
  - rewrite join_cons by apply split_char_nonempty. by rewrite IH.
  - destruct (split_char c s) as [|p ps] eqn:E; [by apply split_char_nonempty in E|].
    destruct ps as [|q ps]; simpl in *; by rewrite IH.
Qed.
Lemma split_char_no_sep c s : c ∉ s → split_char c s = [s].
Proof.
  induction s as [|x s IH]; [done|]. intros [Hx Hs]%not_elem_of_cons. simpl.
  rewrite (proj2 (N.eqb_neq x c)) by done. by rewrite IH.
Qed.
Lemma split_char_app c a b :
  c ∉ a → split_char c (a ++ c :: b) = a :: split_char c b.
Proof.
  induction a as [|x a IH]; simpl; intros Ha.
  - by rewrite N.eqb_refl.
  - apply not_elem_of_cons in Ha as [Hx Ha].
    rewrite (proj2 (N.eqb_neq x c)) by done. by rewrite IH.
Qed.
Lemma split_char_join c l :
  l ≠ [] → Forall (λ x, c ∉ x) l → split_char c (join [c] l) = l.
Proof.
  induction l as [|x l IH]; [done|]. intros _ [Hx Hl]%Forall_cons.
  destruct l as [|y l]; simpl; [by apply split_char_no_sep|].
  rewrite split_char_app by done. f_equal. by apply IH.
Qed.
Lemma split_char_pieces c s : Forall (λ x, c ∉ x) (split_char c s).
Proof.
  induction s as [|x s IH]; simpl; [repeat constructor; by apply not_elem_of_nil|].
  destruct (N.eqb_spec x c) as [->|Hne]; [constructor; [apply not_elem_of_nil|done]|].
  destruct (split_char c s); simpl in *.
  - repeat constructor. by apply not_elem_of_cons; split; [congruence|apply not_elem_of_nil].
  - apply Forall_cons in IH as [??]. constructor; [|done].
    apply not_elem_of_cons. by split; [congruence|].
Qed.

(** ** [lines] *)
Lemma split_inclusive_app a b :
  NL ∉ a → split_inclusive (a ++ NL :: b) = (a ++ [NL]) :: split_inclusive b.
Proof.
  induction a as [|x a IH]; simpl; intros Ha; [done|].
  apply not_elem_of_cons in Ha as [Hx Ha].
  rewrite (proj2 (N.eqb_neq x NL)) by done. by rewrite IH.
Qed.
Lemma split_inclusive_no_nl a : a ≠ [] → NL ∉ a → split_inclusive a = [a].
Proof.
  intros Hne Ha. induction a as [|x a IH]; [done|]. simpl.
  apply not_elem_of_cons in Ha as [Hx Ha].
  rewrite (proj2 (N.eqb_neq x NL)) by done.
  destruct a as [|y a]; [done|]. by rewrite IH.
Qed.

(** A line that [lines] gives back unchanged. *)
Definition plain_line (l : str) : Prop := NL ∉ l ∧ last l ≠ Some CR.

Lemma strip_line_ending_nl l : plain_line l → strip_line_ending (l ++ [NL]) = l.
Proof.
  intros [_ Hcr]. unfold strip_line_ending. rewrite strip_suffix_snoc.
  by rewrite strip_suffix_char_None.
Qed.
Lemma strip_line_ending_no_nl l : NL ∉ l → strip_line_ending l = l.
Proof.
  intros Hl. unfold strip_line_ending. rewrite strip_suffix_char_None; [done|].
  intros Hlast. apply last_Some_elem_of in Hlast. done.
Qed.

Lemma lines_cons a b : plain_line a → lines (a ++ NL :: b) = a :: lines b.
Proof.
  intros Ha. unfold lines. rewrite split_inclusive_app by apply Ha. simpl.
  by rewrite strip_line_ending_nl.
Qed.
Lemma lines_last a : a ≠ [] → NL ∉ a → lines a = [a].
Proof.
  intros. unfold lines. rewrite split_inclusive_no_nl by done. simpl.
  by rewrite strip_line_ending_no_nl.
Qed.
Lemma lines_join l x :
  Forall plain_line l → x ≠ [] → NL ∉ x → lines (join [NL] (l ++ [x])) = l ++ [x].
Proof.
  intros Hl Hx Hnl. induction Hl as [|y l Hy Hl IH]; simpl; [by apply lines_last|].
  destruct (l ++ [x]) eqn:E; [by destruct l|]. rewrite <-E in *.
  simpl. rewrite lines_cons by done. by rewrite IH.
Qed.

(** ** Trimming *)
Lemma trim_start_id c s : is_whitespace c = false → trim_start (c :: s) = c :: s.
Proof. intros H. simpl. by rewrite H. Qed.
Lemma trim_end_id s c : is_whitespace c = false → trim_end (s ++ [c]) = s ++ [c].
Proof.
  intros H. unfold trim_end. rewrite reverse_snoc, trim_start_id by done.
  by rewrite <-reverse_snoc, reverse_involutive.
Qed.
Lemma trim_start_suffix s : ∃ w, s = w ++ trim_start s ∧ Forall (λ c, is_whitespace c = true) w.
Proof.
  induction s as [|c s (w & Hs & Hw)]; simpl; [by exists []|].
  destruct (is_whitespace c) eqn:E; [|by exists []].
  exists (c :: w). simpl. split; [by f_equal|by constructor].
Qed.
Lemma trim_end_prefix s : ∃ w, s = trim_end s ++ w ∧ Forall (λ c, is_whitespace c = true) w.
Proof.
  destruct (trim_start_suffix (reverse s)) as (w & Hs & Hw).
  exists (reverse w). unfold trim_end. rewrite <-reverse_app, <-Hs, reverse_involutive.
  split; [done|]. by apply Forall_reverse.
Qed.
Lemma trim_start_head s : ∀ c t, trim_start s = c :: t → is_whitespace c = false.
Proof.
  induction s as [|x s IH]; simpl; [done|]. destruct (is_whitespace x) eqn:E; naive_solver.
Qed.
Lemma trim_end_last s c : last (trim_end s) = Some c → is_whitespace c = false.
Proof.
  unfold trim_end. rewrite last_reverse. intros H.
  destruct (trim_start (reverse s)) as [|x t] eqn:E; simplify_eq/=.
  by eapply trim_start_head.
Qed.
Lemma trim_end_idemp s : trim_end (trim_end s) = trim_end s.
Proof.
  unfold trim_end. rewrite reverse_involutive. f_equal.
  destruct (trim_start (reverse s)) as [|c t] eqn:E; [done|].
  apply trim_start_id. by eapply trim_start_head.
Qed.
(** Text whose first and last characters are not white space is its own [trim]. *)
Lemma trim_id c s d :
  is_whitespace c = false → is_whitespace d = false → trim (c :: s ++ [d]) = c :: s ++ [d].
Proof.
  intros. unfold trim. rewrite trim_start_id by done.
  by apply (trim_end_id (c :: s)).
Qed.
Lemma trim_end_app_nonws a s d :
  is_whitespace d = false → trim_end (a ++ s ++ [d]) = a ++ s ++ [d].
Proof. intros. rewrite (assoc_L (++)). by apply trim_end_id. Qed.

(** ** Byte positions

    [s[..n]] and [s[n..]] cut a [str] at byte [n], which must be a character
    boundary; [s.as_bytes().get(i)] reads one byte. *)
Fixpoint split_at_byte (s : str) (n : nat) : option (str * str) :=
  match n with
  | 0 => Some ([], s)
  | _ => match s with
         | [] => None
         | c :: s' => if len_utf8 c <=? n
                      then (λ '(a, b), (c :: a, b)) <$> split_at_byte s' (n - len_utf8 c)
                      else None
         end
  end.
Definition byte_at (s : str) (i : nat) : option N := utf8_encode s !! i.
Definition str_slice_to {E} (s : str) (n : nat) : result E str :=
  or_panic (fst <$> split_at_byte s n).
Definition str_slice_from {E} (s : str) (n : nat) : result E str :=
  or_panic (snd <$> split_at_byte s n).

Definition is_ascii (c : char) : Prop := (c < 128)%N.

Lemma len_utf8_ascii c : is_ascii c → len_utf8 c = 1.
Proof. unfold is_ascii, len_utf8, char_utf8. intros. by rewrite (proj2 (N.ltb_lt c 128)). Qed.
Lemma len_utf8_pos c : 0 < len_utf8 c.
Proof.
  unfold len_utf8. pose proof (char_utf8_nonempty c). destruct (char_utf8 c); simpl; [done|lia].
Qed.
Lemma split_at_byte_ascii a b :
  Forall is_ascii a → split_at_byte (a ++ b) (length a) = Some (a, b).
Proof.
  induction 1 as [|c a Hc Ha IH]; [by destruct b|]. simpl.
  rewrite len_utf8_ascii by done. simpl. by rewrite Nat.sub_0_r, IH.
Qed.
Lemma char_utf8_head_ascii c b bs :
  char_utf8 c = b :: bs → is_ascii b → c = b ∧ bs = [].
Proof.
  unfold char_utf8, is_ascii. intros H Hb.
  destruct (N.ltb_spec c 128); [naive_solver|].
  pose proof (N.le_0_l (c / 64)). pose proof (N.le_0_l (c / 4096)).
  pose proof (N.le_0_l (c / 262144)).
  destruct (c <? 2048)%N; [simplify_eq; lia|]. destruct (c <? 65536)%N; simplify_eq; lia.
Qed.
Lemma byte_at_0_ascii s b :
  byte_at s 0 = Some b → is_ascii b → ∃ s', s = b :: s'.
Proof.
  unfold byte_at. destruct s as [|c s]; [done|]. rewrite utf8_encode_cons. intros H Hb.
  destruct (char_utf8 c) as [|b' bs] eqn:E; [by apply char_utf8_nonempty in E|].
  simplify_eq/=. apply char_utf8_head_ascii in E as [-> _]; [|done]. by exists s.
Qed.
Lemma byte_at_cons_ascii c s i : is_ascii c → byte_at (c :: s) (S i) = byte_at s i.
Proof.
  intros Hc. unfold byte_at. rewrite utf8_encode_cons. unfold char_utf8.
  by rewrite (proj2 (N.ltb_lt c 128)).
Qed.
(** Bytes of a multi-byte character are never ASCII. *)
Lemma char_utf8_not_ascii c b : ¬ is_ascii c → b ∈ char_utf8 c → ¬ is_ascii b.
Proof.
  unfold is_ascii, char_utf8. intros Hc.
  rewrite (proj2 (N.ltb_ge c 128)) by lia.
  destruct (c <? 2048)%N; [|destruct (c <? 65536)%N];
    generalize (c / 64)%N (c / 4096)%N (c / 262144)%N (c mod 64)%N ((c / 64) mod 64)%N
      ((c / 4096) mod 64)%N; intros; set_unfold; lia.
Qed.
(** An ASCII byte in second place: the first character is one byte long. *)
Lemma byte_at_1_ascii s b :
  byte_at s 1 = Some b → is_ascii b → ∃ c s', s = c :: b :: s' ∧ is_ascii c.
Proof.
  intros H Hb. destruct s as [|c s]; [done|].
  destruct (decide (c < 128)%N) as [Hc|Hc].
  - rewrite byte_at_cons_ascii in H by done.
    apply byte_at_0_ascii in H as [s' ->]; [|done]. by exists c, s'.
  - exfalso. unfold byte_at in H. rewrite utf8_encode_cons in H.
    assert (1 < length (char_utf8 c)).
    { unfold char_utf8. rewrite (proj2 (N.ltb_ge c 128)) by lia.
      destruct (c <? 2048)%N; [|destruct (c <? 65536)%N]; simpl; lia. }
    rewrite lookup_app_l in H by done. apply list_elem_of_lookup_2 in H.
    by apply char_utf8_not_ascii in H.
Qed.

(** ** Lossy decoding

    [String::from_utf8_lossy]: each maximal prefix of an ill-formed sequence
    becomes one replacement character. *)
Definition REPLACEMENT : char := 65533.
Definition second_of_three (b0 b1 : N) : bool :=
  ((if b0 =? 224 then 160 else 128) <=? b1)%N && (b1 <? (if b0 =? 237 then 160 else 192))%N.
Definition second_of_four (b0 b1 : N) : bool :=
  ((if b0 =? 240 then 144 else 128) <=? b1)%N && (b1 <? (if b0 =? 244 then 144 else 192))%N.
Fixpoint utf8_lossy_fuel (fuel : nat) (bs : bytes) : str :=
  match fuel, bs with
  | 0, _ | _, [] => []
  | S fuel, b0 :: bs =>
    if (b0 <? 128)%N then b0 :: utf8_lossy_fuel fuel bs
    else if ((194 <=? b0) && (b0 <? 224))%N then
      match bs with
      | b1 :: bs' =>
        if is_continuation b1
        then ((b0 - 192) * 64 + (b1 - 128))%N :: utf8_lossy_fuel fuel bs'
        else REPLACEMENT :: utf8_lossy_fuel fuel bs
      | [] => [REPLACEMENT]
      end
    else if ((224 <=? b0) && (b0 <? 240))%N then
      match bs with
      | b1 :: bs' =>
        if second_of_three b0 b1 then
          match bs' with
          | b2 :: bs'' =>
            if is_continuation b2
            then ((b0 - 224) * 4096 + (b1 - 128) * 64 + (b2 - 128))%N :: utf8_lossy_fuel fuel bs''
            else REPLACEMENT :: utf8_lossy_fuel fuel bs'
          | [] => [REPLACEMENT]
          end
        else REPLACEMENT :: utf8_lossy_fuel fuel bs
      | [] => [REPLACEMENT]
      end
    else if ((240 <=? b0) && (b0 <? 245))%N then
      match bs with
      | b1 :: bs' =>
        if second_of_four b0 b1 then
          match bs' with
          | b2 :: bs'' =>
            if is_continuation b2 then
              match bs'' with
              | b3 :: bs''' =>
                if is_continuation b3
                then ((b0 - 240) * 262144 + (b1 - 128) * 4096 + (b2 - 128) * 64 + (b3 - 128))%N
                       :: utf8_lossy_fuel fuel bs'''
                else REPLACEMENT :: utf8_lossy_fuel fuel bs''
              | [] => [REPLACEMENT]
              end
            else REPLACEMENT :: utf8_lossy_fuel fuel bs'
          | [] => [REPLACEMENT]
          end
        else REPLACEMENT :: utf8_lossy_fuel fuel bs
      | [] => [REPLACEMENT]
      end
    else REPLACEMENT :: utf8_lossy_fuel fuel bs
  end.
Definition from_utf8_lossy (bs : bytes) : str := utf8_lossy_fuel (length bs) bs.

Section lossy_char.
Local Open Scope N_scope.
Lemma lossy_char fuel bs c :
  is_scalar c = true → utf8_lossy_fuel (S fuel) (char_utf8 c ++ bs) = c :: utf8_lossy_fuel fuel bs.
Proof.
  intros Hc. assert (c ≤ 1114111 ∧ (c < 55296 ∨ 57344 ≤ c)) by (unfold is_scalar in Hc; lia).
  unfold char_utf8.
  replace (c / 262144) with (c / 64 / 64 / 64) by (by rewrite !N.Div0.div_div).
  replace (c / 4096) with (c / 64 / 64) by (by rewrite !N.Div0.div_div).
  destruct (base64_digits c) as (d1 & r0 & Hc1 & ? & -> & ->).
  destruct (base64_digits d1) as (d2 & r1 & Hc2 & ? & -> & ->).
  destruct (base64_digits d2) as (d3 & r2 & Hc3 & ? & -> & ->). clear Hc.
  destruct (N.ltb_spec c 128); [|destruct (N.ltb_spec c 2048); [|destruct (N.ltb_spec c 65536)]];
    cbn [app utf8_lossy_fuel]; unfold is_continuation, second_of_three, second_of_four;
    repeat match goal with |- context [if ?b then _ else _] => destruct b eqn:? end;
    repeat match goal with H : context [if ?b then _ else _] |- _ => destruct b eqn:? end;
    first [by exfalso; lia | f_equal; lia].
Qed.
End lossy_char.
Lemma from_utf8_lossy_encode s : valid_str s → from_utf8_lossy (utf8_encode s) = s.
Proof.
  unfold from_utf8_lossy. fold (utf8_len s). intros Hs.
  assert (H : ∀ fuel, utf8_len s ≤ fuel → utf8_lossy_fuel fuel (utf8_encode s) = s).
  { induction Hs as [|c s Hc Hs IH]; intros fuel Hf; [by destruct fuel|].
    pose proof (len_utf8_pos c).
    unfold utf8_len in *. rewrite utf8_encode_cons, length_app in *. unfold len_utf8 in *.
    destruct fuel as [|fuel]; [lia|]. rewrite lossy_char by done. rewrite IH by lia. done. }
  by apply H.
Qed.

Section encode_char.
Local Open Scope N_scope.

Lemma base64_split q t : t < 64 → (q * 64 + t) / 64 = q ∧ (q * 64 + t) mod 64 = t.
Proof.
  intros. rewrite N.add_comm. rewrite N.div_add, N.Div0.mod_add, N.div_small, N.mod_small by lia. lia.
Qed.
Lemma encode_2 q t : 2 ≤ q → q < 32 → t < 64 → char_utf8 (q * 64 + t) = [192 + q; 128 + t].
Proof.
  intros. unfold char_utf8. destruct (base64_split q t) as [-> ->]; [done|]. by decide_ltbs.
Qed.
Lemma encode_3 q r t :
  q < 16 → r < 64 → t < 64 → 2048 ≤ q * 4096 + r * 64 + t →
  char_utf8 (q * 4096 + r * 64 + t) = [224 + q; 128 + r; 128 + t].
Proof.
  intros. replace (q * 4096 + r * 64 + t) with ((q * 64 + r) * 64 + t) in * by lia. unfold char_utf8.
  replace (((q * 64 + r) * 64 + t) / 4096) with (((q * 64 + r) * 64 + t) / 64 / 64) by (by rewrite N.Div0.div_div).
  destruct (base64_split (q * 64 + r) t) as [-> ->]; [done|].
  destruct (base64_split q r) as [-> ->]; [done|]. by decide_ltbs.
Qed.
Lemma encode_4 p q r t :
  p < 5 → q < 64 → r < 64 → t < 64 → 65536 ≤ p * 262144 + q * 4096 + r * 64 + t →
  char_utf8 (p * 262144 + q * 4096 + r * 64 + t) = [240 + p; 128 + q; 128 + r; 128 + t].
Proof.
  intros. replace (p * 262144 + q * 4096 + r * 64 + t) with (((p * 64 + q) * 64 + r) * 64 + t) in * by lia.
  unfold char_utf8. set (c := ((p * 64 + q) * 64 + r) * 64 + t) in *.
  replace (c / 262144) with (c / 64 / 64 / 64) by (by rewrite !N.Div0.div_div).
  replace (c / 4096) with (c / 64 / 64) by (by rewrite !N.Div0.div_div).
  destruct (base64_split ((p * 64 + q) * 64 + r) t) as [E1 E2]; [done|]. fold c in E1, E2. rewrite E1, E2.
  destruct (base64_split (p * 64 + q) r) as [-> ->]; [done|].
  destruct (base64_split p q) as [-> ->]; [done|]. by decide_ltbs.
Qed.
End encode_char.

(** What decodes is the encoding of a valid string. *)
Lemma utf8_decode_fuel_Some fuel bs s :
  utf8_decode_fuel fuel bs = Some s → utf8_encode s = bs ∧ valid_str s.
Proof.
  revert bs s. induction fuel as [|fuel IH]; intros [|b0 bs] s; cbn [utf8_decode_fuel]; try done.
  1-2: intros [= <-]; split; [done|constructor].
  assert (Hcons : ∀ c rest tail, is_scalar c = true → char_utf8 c ++ tail = b0 :: bs →
    cons c <$> utf8_decode_fuel fuel rest = Some s → rest = tail → utf8_encode s = b0 :: bs ∧ valid_str s).
  { intros c rest tail Hs Hc (s' & H & ->)%fmap_Some <-. apply IH in H as [<- Hv].
    split; [by rewrite utf8_encode_cons|by constructor]. }
  unfold is_continuation. destruct (N.ltb_spec b0 128).
  { intros H'. eapply (Hcons b0 bs bs); [unfold is_scalar; lia| |done|done].
    unfold char_utf8. destruct (N.ltb_spec b0 128); [done|lia]. }
  destruct (N.leb_spec 194 b0), (N.ltb_spec b0 224); cbn [andb].
  all: try (destruct (N.leb_spec 224 b0), (N.ltb_spec b0 240); cbn [andb]; try lia).
  all: try (destruct (N.leb_spec 240 b0), (N.ltb_spec b0 245); cbn [andb]; try lia; try done).
  - destruct bs as [|b1 bs]; [done|]. destruct (_ && _) eqn:E; [|done]. intros H'.
    apply andb_true_iff in E as [?%N.leb_le ?%N.ltb_lt].
    eapply (Hcons _ bs bs); [| |exact H'|done]; [unfold is_scalar; lia|].
    rewrite encode_2 by lia. cbn [app]. repeat f_equal; lia.
  - destruct bs as [|b1 [|b2 bs]]; [done..|]. destruct (_ && _) eqn:E; [|done]. intros H'.
    repeat (apply andb_true_iff in E as [E ?]).
    eapply (Hcons _ bs bs); [| |exact H'|done]; [done|]. rewrite encode_3 by lia. cbn [app]. repeat f_equal; lia.
  - destruct bs as [|b1 [|b2 [|b3 bs]]]; [done..|]. destruct (_ && _) eqn:E; [|done]. intros H'.
    repeat (apply andb_true_iff in E as [E ?]).
    eapply (Hcons _ bs bs); [| |exact H'|done]; [done|]. rewrite encode_4 by lia. cbn [app]. repeat f_equal; lia.
Qed.
Lemma utf8_decode_Some bs s : utf8_decode bs = Some s → utf8_encode s = bs ∧ valid_str s.
Proof. apply utf8_decode_fuel_Some. Qed.
