(* ===== verification/Core.v ===== *)
(** [execution-core]: the provider-neutral contracts every runtime and tool
    shares — identifiers, errors, semantic validation, portable paths, requests,
    host descriptors and the cancellation context. *)
From Stdlib Require Import ZifyBool.
From stdpp Require Import prelude gmap strings pretty list.
From S2P Require Import Prelude.
From S2P Require Import Text.

(** ** Validation ([validation.rs]) *)

Record ValidationIssue := { vi_path : str; vi_message : str }.
Record ValidationError := { issues : list ValidationIssue }.

(** [ValidationError::single] and [ValidationError::from_issues]. *)
Definition validation_single (path message : str) : ValidationError :=
  {| issues := [{| vi_path := path; vi_message := message |}] |}.
Definition from_issues (is_ : list ValidationIssue) : option ValidationError :=
  match is_ with [] => None | _ => Some {| issues := is_ |} end.

(** [Result<(), ValidationError>] and the trait [Validate]. *)
Definition validation : Type := unit + ValidationError.
Class Validate (A : Type) := validate : A → validation.

Definition issue (is_ : list ValidationIssue) (path message : str) : list ValidationIssue :=
  is_ ++ [{| vi_path := path; vi_message := message |}].

Definition require_non_empty (is_ : list ValidationIssue) (path value : str)
  : list ValidationIssue :=
  if str_is_empty (trim value) then issue is_ path (str! "must not be empty") else is_.

Definition append_nested (is_ : list ValidationIssue) (parent : str) (r : validation)
  : list ValidationIssue :=
  match r with
  | inl _ => is_
  | inr e =>
    foldl (λ is_ nested,
             issue is_ (format! [parent; str! "."; vi_path nested]) (vi_message nested))
          is_ (issues e)
  end.

Definition finish (is_ : list ValidationIssue) : validation :=
  match from_issues is_ with None => inl tt | Some e => inr e end.

Definition valid {A} `{Validate A} (a : A) : Prop := validate a = inl tt.

(** ** Errors ([error.rs]) *)

Inductive ExecutionErrorCode :=
  | InvalidRequest | InvalidPath | PathOutsideRoot | RootNotFound | ReadOnlyRoot
  | Unsupported | PermissionDenied | NotFound | AlreadyExists | NotDirectory
  | IsDirectory | RevisionConflict | OperationConflict | ResourceExhausted
  | DeadlineExceeded | Cancelled | Unavailable | ExecutionNotFound | ExecutionLost
  | StdinClosed | Io | Internal.
#[export] Instance ExecutionErrorCode_eq_dec : EqDecision ExecutionErrorCode.
Proof. solve_decision. Defined.

(** [serde_json::Value], as far as error details use it. *)
#[warnings="-register-all"]
Inductive Value :=
  | VNull
  | VNumber (n : N)
  | VString (s : str)
  | VArray (l : list Value)
  | VObject (fields : list (str * Value)).

Record ExecutionError := {
  code : ExecutionErrorCode;
  message : str;
  retryable : bool;
  details : gmap str Value;
}.

Definition ExecutionError_new (c : ExecutionErrorCode) (m : str) : ExecutionError :=
  {| code := c; message := m; retryable := false; details := ∅ |}.
Definition with_detail (key : str) (v : Value) (e : ExecutionError) : ExecutionError :=
  {| code := code e; message := message e; retryable := retryable e;
     details := <[key := v]> (details e) |}.
Definition error_cancelled : ExecutionError :=
  ExecutionError_new Cancelled (str! "operation was cancelled").
Definition error_deadline_exceeded : ExecutionError :=
  ExecutionError_new DeadlineExceeded (str! "operation deadline was exceeded").

(** [impl From<ValidationError> for ExecutionError]. *)
Definition issue_value (i : ValidationIssue) : Value :=
  VObject [(str! "path", VString (vi_path i)); (str! "message", VString (vi_message i))].
Definition from_validation_error (e : ValidationError) : ExecutionError :=
  with_detail (str! "issues") (VArray (issue_value <$> issues e))
    (ExecutionError_new InvalidRequest (str! "execution request failed validation")).

Abbreviation ExecutionResult := (result ExecutionError).

(** The [?] operator on a validation, in a function returning [ExecutionResult]. *)
Definition validated (v : validation) : ExecutionResult unit :=
  match v with inl _ => Ok tt | inr e => Err (from_validation_error e) end.

(** ** Identifiers ([ids.rs])

    [string_id!] declares eight distinct newtypes over [String]; here one type
    indexed by the newtype's name. *)
Inductive id_kind :=
  | KExecutionHostId | KSupervisorGenerationId | KExecutionId | KOperationId
  | KWriteId | KRootId | KFileRevision | KDirectoryCursor.

Definition id_name (k : id_kind) : str :=
  match k with
  | KExecutionHostId => str! "ExecutionHostId"
  | KSupervisorGenerationId => str! "SupervisorGenerationId"
  | KExecutionId => str! "ExecutionId"
  | KOperationId => str! "OperationId"
  | KWriteId => str! "WriteId"
  | KRootId => str! "RootId"
  | KFileRevision => str! "FileRevision"
  | KDirectoryCursor => str! "DirectoryCursor"
  end.

Record string_id (k : id_kind) := StringId { as_str : str }.
Arguments StringId {k} _.
Arguments as_str {k} _.
Abbreviation ExecutionHostId := (string_id KExecutionHostId).
Abbreviation SupervisorGenerationId := (string_id KSupervisorGenerationId).
Abbreviation ExecutionId := (string_id KExecutionId).
Abbreviation OperationId := (string_id KOperationId).
Abbreviation WriteId := (string_id KWriteId).
Abbreviation RootId := (string_id KRootId).
Abbreviation FileRevision := (string_id KFileRevision).
Abbreviation DirectoryCursor := (string_id KDirectoryCursor).

#[export] Instance string_id_eq_dec k : EqDecision (string_id k).
Proof. solve_decision. Defined.
#[export] Instance string_id_countable k : Countable (string_id k).
Proof. by apply (inj_countable' as_str StringId); intros []. Defined.

(** [$name::new]. *)
Definition string_id_new (k : id_kind) (value : str) : string_id k + ValidationError :=
  if str_is_empty (trim value)
  then inr (validation_single (id_name k) (str! "must not be empty"))
  else if contains_char NUL value
  then inr (validation_single (id_name k) (str! "must not contain a null byte"))
  else inl (StringId value).

(** ** Portable paths ([filesystem.rs]) *)

Record ExecutionPath := { root_id : RootId; path : str }.
#[export] Instance ExecutionPath_eq_dec : EqDecision ExecutionPath.
Proof. solve_decision. Defined.
#[export] Instance ExecutionPath_countable : Countable ExecutionPath.
Proof.
  by apply (inj_countable' (λ p, (root_id p, path p)) (λ '(r, s), {| root_id := r; path := s |}));
    intros [].
Defined.

(** The test of one segment in [ExecutionPath::validate]. *)
Definition validate_segment (is_ : list ValidationIssue) (segment : str)
  : list ValidationIssue :=
  if str_is_empty segment
  then issue is_ (str! "path") (str! "must not contain empty segments")
  else if str_eqb segment (str! ".")
  then issue is_ (str! "path") (str! "must not contain dot segments")
  else if str_eqb segment (str! "..")
  then issue is_ (str! "path") (str! "must not traverse above its root")
  else is_.

#[export] Instance ExecutionPath_validate : Validate ExecutionPath := λ p,
  let is_ := require_non_empty [] (str! "path") (path p) in
  let is_ := if contains_char NUL (path p)
             then issue is_ (str! "path") (str! "must not contain a null byte") else is_ in
  let is_ := if starts_with [SLASH] (path p) || starts_with [BACKSLASH] (path p)
             then issue is_ (str! "path") (str! "must be relative to its root") else is_ in
  let is_ := if contains_char BACKSLASH (path p)
             then issue is_ (str! "path") (str! "must use forward slashes") else is_ in
  let is_ := if (2 <=? utf8_len (path p))
                && bool_decide (utf8_encode (path p) !! 1 = Some COLON)
             then issue is_ (str! "path") (str! "must not contain a drive prefix") else is_ in
  let is_ :=
    if negb (str_eqb (path p) (str! "."))
    then let is_ := if ends_with [SLASH] (path p)
                    then issue is_ (str! "path") (str! "must not end with a slash") else is_ in
         foldl validate_segment is_ (split_char SLASH (path p))
    else is_ in
  finish is_.

(** [ExecutionPath::new] and [ExecutionPath::root]. *)
Definition ExecutionPath_new (r : RootId) (p : str) : ExecutionPath + ValidationError :=
  let value := {| root_id := r; path := p |} in
  match validate value with inl _ => inl value | inr e => inr e end.
Definition ExecutionPath_root (r : RootId) : ExecutionPath :=
  {| root_id := r; path := str! "." |}.
(** [ExecutionPath::new(..)?] in a function returning [ExecutionResult]. *)
Definition execution_path_new (r : RootId) (p : str) : ExecutionResult ExecutionPath :=
  match ExecutionPath_new r p with
  | inl v => Ok v
  | inr e => Err (from_validation_error e)
  end.
Definition operation_id_new (v : str) : ExecutionResult OperationId :=
  match string_id_new KOperationId v with
  | inl v => Ok v
  | inr e => Err (from_validation_error e)
  end.

(** ** Filesystem requests and results ([filesystem.rs]) *)

Inductive FileKind := File | Directory | Symlink | Other.
#[export] Instance FileKind_eq_dec : EqDecision FileKind.
Proof. solve_decision. Defined.

Record FileMetadata := {
  fm_path : ExecutionPath;
  kind : FileKind;
  size : N;
  modified_at : option N;
  revision : option FileRevision;
}.

Record StatRequest := { st_path : ExecutionPath; st_follow_symlinks : bool }.

Record ReadFileRequest := {
  rd_path : ExecutionPath;
  rd_offset : N;
  rd_max_bytes : N;
  rd_follow_symlinks : bool;
}.
Record ReadFileResult := {
  rr_metadata : FileMetadata;
  rr_data : bytes;
  rr_offset : N;
  rr_eof : bool;
}.

Inductive WriteCondition :=
  | CondAny
  | MustNotExist
  | MatchRevision (revision : FileRevision).
Inductive WriteStrategy := AtomicReplace | InPlace.
#[export] Instance WriteCondition_eq_dec : EqDecision WriteCondition.
Proof. solve_decision. Defined.
#[export] Instance WriteStrategy_eq_dec : EqDecision WriteStrategy.
Proof. solve_decision. Defined.

Record WriteFileRequest := {
  wr_expected_generation : option SupervisorGenerationId;
  wr_strategy : WriteStrategy;
  wr_operation_id : OperationId;
  wr_path : ExecutionPath;
  wr_data : bytes;
  wr_condition : WriteCondition;
  wr_create_parents : bool;
  wr_follow_symlinks : bool;
}.
#[export] Instance WriteFileRequest_eq_dec : EqDecision WriteFileRequest.
Proof. solve_decision. Defined.

Record WriteFileResult := {
  wres_path : ExecutionPath;
  existed : bool;
  wres_revision : FileRevision;
  bytes_written : N;
}.

Record CreateDirectoryRequest := {
  cd_operation_id : OperationId;
  cd_path : ExecutionPath;
  cd_recursive : bool;
}.
#[export] Instance CreateDirectoryRequest_eq_dec : EqDecision CreateDirectoryRequest.
Proof. solve_decision. Defined.

Inductive RemoveTargetKind := TargetAny | TargetFile.
#[export] Instance RemoveTargetKind_eq_dec : EqDecision RemoveTargetKind.
Proof. solve_decision. Defined.

Record RemovePathRequest := {
  rm_target_kind : RemoveTargetKind;
  rm_expected_generation : option SupervisorGenerationId;
  rm_operation_id : OperationId;
  rm_path : ExecutionPath;
  rm_recursive : bool;
  rm_ignore_missing : bool;
  rm_expected_revision : option FileRevision;
}.
#[export] Instance RemovePathRequest_eq_dec : EqDecision RemovePathRequest.
Proof. solve_decision. Defined.
Record RemovePathResult := { removed : bool }.

Record DirectoryEntry := { de_name : str; de_metadata : FileMetadata }.
Record ListDirectoryRequest := {
  ls_path : ExecutionPath;
  ls_follow_symlinks : bool;
  ls_max_entries : N;
  ls_cursor : option DirectoryCursor;
}.
Record ListDirectoryResult := {
  entries : list DirectoryEntry;
  next_cursor : option DirectoryCursor;
}.

#[export] Instance StatRequest_validate : Validate StatRequest := λ r, validate (st_path r).

#[export] Instance ReadFileRequest_validate : Validate ReadFileRequest := λ r,
  let is_ := append_nested [] (str! "path") (validate (rd_path r)) in
  let is_ := if (rd_max_bytes r =? 0)%N
             then issue is_ (str! "max_bytes") (str! "must be greater than zero") else is_ in
  finish is_.

#[export] Instance WriteFileRequest_validate : Validate WriteFileRequest := λ r,
  let is_ := if bool_decide (wr_strategy r = InPlace)
                && bool_decide (wr_expected_generation r = None)
             then issue [] (str! "expected_generation")
                    (str! "in-place writes require a supervisor generation") else [] in
  let is_ := if bool_decide (wr_strategy r = InPlace) && negb (wr_follow_symlinks r)
             then issue is_ (str! "follow_symlinks")
                    (str! "in-place writes require following symbolic links") else is_ in
  let is_ := append_nested is_ (str! "path") (validate (wr_path r)) in
  finish is_.

#[export] Instance CreateDirectoryRequest_validate : Validate CreateDirectoryRequest := λ r,
  validate (cd_path r).

#[export] Instance RemovePathRequest_validate : Validate RemovePathRequest := λ r,
  let is_ := append_nested [] (str! "path") (validate (rm_path r)) in
  let is_ := if bool_decide (rm_target_kind r = TargetFile) && rm_recursive r
             then issue is_ (str! "recursive") (str! "file-only removal cannot be recursive")
             else is_ in
  finish is_.

#[export] Instance ListDirectoryRequest_validate : Validate ListDirectoryRequest := λ r,
  let is_ := append_nested [] (str! "path") (validate (ls_path r)) in
  let is_ := if (ls_max_entries r =? 0)%N
             then issue is_ (str! "max_entries") (str! "must be greater than zero") else is_ in
  finish is_.
