(* ===== verification/Host.v ===== *)
(** [execution-core], continued: host descriptors ([descriptor.rs]), the
    cancellation and deadline context ([context.rs]), and the filesystem half of
    the runtime traits ([filesystem.rs], [runtime.rs]) as type classes over an
    effect monad. *)
From Stdlib Require Import ZifyBool.
From stdpp Require Import prelude gmap strings pretty list.
From S2P Require Import Prelude.
From S2P Require Import Text.
From S2P Require Import Core.

(** ** Host descriptors *)

Inductive OperatingSystem := Linux | Macos | Windows | OtherOS (name : str).
Inductive PathConvention := ConvUnix | ConvWindows.
#[export] Instance OperatingSystem_eq_dec : EqDecision OperatingSystem.
Proof. solve_decision. Defined.
#[export] Instance PathConvention_eq_dec : EqDecision PathConvention.
Proof. solve_decision. Defined.

Record ExecutionRoot := {
  er_id : RootId;
  er_name : str;
  native_path : str;
  read_only : bool;
}.

#[export] Instance ExecutionRoot_validate : Validate ExecutionRoot := λ r,
  let is_ := require_non_empty [] (str! "name") (er_name r) in
  let is_ := require_non_empty is_ (str! "native_path") (native_path r) in
  finish is_.

Record ExecutionFeatures := { pty : bool; process_signals : bool; file_revisions : bool }.

Record ExecutionLimits := {
  max_read_bytes : option N;
  max_write_bytes : option N;
  max_process_read_bytes : option N;
  max_process_input_bytes : option N;
  max_concurrent_processes : option N;
}.

Definition check_limit (is_ : list ValidationIssue) (field : str) (limit : option N)
  : list ValidationIssue :=
  if bool_decide (limit = Some 0%N)
  then issue is_ field (str! "must be greater than zero") else is_.

#[export] Instance ExecutionLimits_validate : Validate ExecutionLimits := λ l,
  let is_ := check_limit [] (str! "max_read_bytes") (max_read_bytes l) in
  let is_ := check_limit is_ (str! "max_write_bytes") (max_write_bytes l) in
  let is_ := check_limit is_ (str! "max_process_read_bytes") (max_process_read_bytes l) in
  let is_ := check_limit is_ (str! "max_process_input_bytes") (max_process_input_bytes l) in
  let is_ := check_limit is_ (str! "max_concurrent_processes") (max_concurrent_processes l) in
  finish is_.

Record ExecutionHostDescriptor := {
  host_id : ExecutionHostId;
  supervisor_generation_id : SupervisorGenerationId;
  operating_system : OperatingSystem;
  architecture : str;
  path_convention : PathConvention;
  roots : list ExecutionRoot;
  features : ExecutionFeatures;
  limits : ExecutionLimits;
}.

(** The loop over [roots.iter().enumerate()]: the issues so far and the set of
    root identifiers seen. *)
Definition validate_roots (is_ : list ValidationIssue) (rs : list ExecutionRoot)
  : list ValidationIssue :=
  (foldl (λ '(is_, root_ids) '(index, root),
      let is_ := append_nested is_ (format! [str! "roots["; show_nat index; str! "]"])
                   (validate root) in
      if decide (er_id root ∈ root_ids)
      then (issue is_ (format! [str! "roots["; show_nat index; str! "].id"])
              (str! "must be unique within the descriptor"), root_ids)
      else (is_, {[er_id root]} ∪ root_ids))
    (is_, (∅ : gset RootId)) (zip (seq 0 (length rs)) rs)).1.

#[export] Instance ExecutionHostDescriptor_validate : Validate ExecutionHostDescriptor := λ d,
  let is_ := require_non_empty [] (str! "architecture") (architecture d) in
  let is_ := match operating_system d with
             | OtherOS name => require_non_empty is_ (str! "operating_system.name") name
             | _ => is_
             end in
  let is_ := match roots d with
             | [] => issue is_ (str! "roots") (str! "must contain at least one root")
             | _ => is_
             end in
  let is_ := validate_roots is_ (roots d) in
  let is_ := append_nested is_ (str! "limits") (validate (limits d)) in
  let is_ := if negb (file_revisions (features d))
             then issue is_ (str! "features.file_revisions")
                    (str! "must be enabled for the execution-core filesystem contract")
             else is_ in
  finish is_.

(** ** Cancellation and deadlines

    The cancellation token is tokio's; the model keeps its identity and lets the
    world say whether it is cancelled.  An [Instant] is a number of
    nanoseconds on the monotonic clock. *)
Record OperationContext := { cancellation : N; deadline : option N }.

(** [OperationContext::child] keeps the deadline; the child token is fresh. *)
Definition child (c : OperationContext) (token : N) : OperationContext :=
  {| cancellation := token; deadline := deadline c |}.
Definition with_timeout (token now timeout : N) : OperationContext :=
  {| cancellation := token; deadline := Some (now + timeout)%N |}.

(** [checkpoint], from what it observes: [is_cancelled()] and [Instant::now()]. *)
Definition checkpoint (c : OperationContext) (is_cancelled : bool) (now : N)
  : ExecutionResult unit :=
  if is_cancelled then Err error_cancelled
  else if match deadline c with Some d => (d <=? now)%N | None => false end
  then Err error_deadline_exceeded
  else Ok tt.

(** ** The effect monad

    [M W A] is an [async] function over a world [W] that fails with an
    [ExecutionError].  The world threads through every call, an error included:
    effects already performed are kept. *)
Definition M (W A : Type) : Type := W → ExecutionResult A * W.

#[export] Instance M_ret {W} : MRet (M W) := λ A a w, (Ok a, w).
#[export] Instance M_bind {W} : MBind (M W) := λ A B f m w,
  match m w with
  | (Ok a, w') => f a w'
  | (Err e, w') => (Err e, w')
  | (Panic, w') => (Panic, w')
  end.
(** A pure fallible computation inside the monad. *)
Definition lift {W A} (r : ExecutionResult A) : M W A := λ w, (r, w).
Definition throw {W A} (e : ExecutionError) : M W A := lift (Err e).
(** [.await.map_err(f)]. *)
Definition M_map_err {W A} (f : ExecutionError → ExecutionError) (m : M W A) : M W A :=
  λ w, let '(r, w') := m w in (map_err f r, w').

(** [match m.await]: the outcome, an error included, as a value. *)
Definition attempt {W A} (m : M W A) : M W (ExecutionError + A) := λ w,
  match m w with
  | (Ok a, w) => (Ok (inr a), w)
  | (Err e, w) => (Ok (inl e), w)
  | (Panic, w) => (Panic, w)
  end.

(** A computation over a local state and the world, for a [&mut] value that an error
    leaves changed: one that leaves the state alone, its value, an assignment. *)
Definition outer {S W A} (m : M W A) : M (S * W) A := λ '(r, w), let '(x, w') := m w in (x, (r, w')).
Definition running_now {S W} : M (S * W) S := λ '(r, w), (Ok r, (r, w)).
Definition assign {S W} (r' : S) : M (S * W) unit := λ '(_, w), (Ok tt, (r', w)).

Section M_lemmas.
Context {W A B : Type}.
Lemma M_bind_ok_inv (m : M W A) (f : A → M W B) w b w'' :
  (m ≫= f) w = (Ok b, w'') → ∃ a w', m w = (Ok a, w') ∧ f a w' = (Ok b, w'').
Proof. unfold mbind, M_bind. destruct (m w) as [[] ?]; naive_solver. Qed.
Lemma M_bind_ok (m : M W A) (f : A → M W B) w a w' :
  m w = (Ok a, w') → (m ≫= f) w = f a w'.
Proof. unfold mbind, M_bind. by intros ->. Qed.
Lemma M_bind_err (m : M W A) (f : A → M W B) w e w' :
  m w = (Err e, w') → (m ≫= f) w = (Err e, w').
Proof. unfold mbind, M_bind. by intros ->. Qed.
Lemma lift_bind (a : A) (f : A → M W B) w : (lift (Ok a) ≫= f) w = f a w.
Proof. done. Qed.
End M_lemmas.

(** A computation never panics; it moves the world along a relation, whatever
    its outcome; it satisfies a postcondition when it succeeds. *)
Definition m_safe {W A} (m : M W A) : Prop := ∀ w, (m w).1 ≠ Panic.
Definition m_within {W A} (R : W → W → Prop) (m : M W A) : Prop := ∀ w, R w (m w).2.
Definition m_post {W A} (m : M W A) (Q : A → Prop) : Prop := ∀ w a w', m w = (Ok a, w') → Q a.

Section M_logic.
Context {W : Type}.

Lemma m_safe_bind {A B} (m : M W A) (f : A → M W B) (Q : A → Prop) :
  m_safe m → m_post m Q → (∀ a, Q a → m_safe (f a)) → m_safe (m ≫= f).
Proof.
  intros Hm Hq Hf w. unfold mbind, M_bind. specialize (Hm w).
  destruct (m w) as [[a|e|] w'] eqn:E; [|done|done]. by eapply Hf, Hq.
Qed.
Lemma m_safe_bind' {A B} (m : M W A) (f : A → M W B) :
  m_safe m → (∀ a, m_safe (f a)) → m_safe (m ≫= f).
Proof. intros Hm Hf. eapply (m_safe_bind _ _ (λ _, True)); [done|done|auto]. Qed.
Lemma m_safe_ret {A} (a : A) : m_safe (mret a : M W A).
Proof. done. Qed.
Lemma m_safe_throw {A} e : m_safe (throw e : M W A).
Proof. done. Qed.
Lemma m_safe_lift {A} (r : ExecutionResult A) : r ≠ Panic → m_safe (lift r : M W A).
Proof. by intros ??. Qed.
Lemma m_safe_map_err {A} f (m : M W A) : m_safe m → m_safe (M_map_err f m).
Proof. intros Hm w. unfold M_map_err. specialize (Hm w). by destruct (m w) as [[]]. Qed.

Context (R : W → W → Prop) `{!PreOrder R}.
Lemma m_within_bind {A B} (m : M W A) (f : A → M W B) :
  m_within R m → (∀ a, m_within R (f a)) → m_within R (m ≫= f).
Proof.
  intros Hm Hf w. unfold mbind, M_bind. specialize (Hm w).
  destruct (m w) as [[a|e|] w'] eqn:E; [|done|done]. etrans; [done|]. apply Hf.
Qed.
Lemma m_within_lift {A} (r : ExecutionResult A) : m_within R (lift r : M W A).
Proof. by intros w. Qed.
Lemma m_within_ret {A} (a : A) : m_within R (mret a : M W A).
Proof. by intros w. Qed.
Lemma m_within_throw {A} e : m_within R (throw e : M W A).
Proof. by intros w. Qed.
End M_logic.
Create HintDb effects.
#[export] Hint Resolve m_safe_ret m_safe_throw : effects.

(** What a running operation can observe of the world around it.  An observation
    returns the next world, so time may pass and a token may be cancelled
    between any two of them. *)
Class World (W : Type) := {
  observe : N → W → (bool * N) * W;
}.
Definition checkpointM {W} `{World W} (c : OperationContext) : M W unit := λ w,
  let '((is_cancelled, now), w') := observe (cancellation c) w in
  (checkpoint c is_cancelled now, w').

Lemma m_safe_checkpoint {W} `{World W} c : m_safe (checkpointM c).
Proof.
  intros w. unfold checkpointM. destruct (observe _ _) as [[b n] w']. simpl.
  unfold checkpoint. by repeat case_match.
Qed.
#[export] Hint Resolve m_safe_checkpoint : effects.

(** A computation whose only effect is to observe: its outcome is the value of a pure
    computation, unless a checkpoint stops it. *)
Definition stopped (e : ExecutionError) : Prop := e = error_cancelled ∨ e = error_deadline_exceeded.
Definition yields {W A} (m : M W A) (r : ExecutionResult A) : Prop :=
  ∀ w, (m w).1 = r ∨ ∃ e, (m w).1 = Err e ∧ stopped e.

Section yields.
Context {W : Type} `{!World W}.

Lemma yields_checkpoint c : yields (checkpointM (W:=W) c) (Ok tt).
Proof.
  intros w. unfold checkpointM. destruct (observe _ _) as [[b n] w']. cbn. unfold checkpoint.
  destruct b; [right; exists error_cancelled; split; [done|by left]|].
  destruct (match deadline c with Some d => (d <=? n)%N | None => false end); [|by left].
  right. exists error_deadline_exceeded. split; [done|by right].
Qed.
Lemma yields_lift {A} (r : ExecutionResult A) : yields (lift r : M W A) r.
Proof. by left. Qed.
Lemma yields_ret {A} (a : A) : yields (mret a : M W A) (Ok a).
Proof. by left. Qed.
Lemma yields_bind {A B} (m : M W A) (f : A → M W B) a r :
  yields m (Ok a) → yields (f a) r → yields (m ≫= f) r.
Proof.
  intros Hm Hf w. unfold mbind, M_bind. destruct (Hm w) as [H|(e & H & He)];
    destruct (m w) as [out w']; simpl in H; subst out; [apply Hf|]. right. by exists e.
Qed.
Lemma yields_bind_err {A B} (m : M W A) (f : A → M W B) e :
  yields m (Err e) → yields (m ≫= f) (Err e).
Proof.
  intros Hm w. unfold mbind, M_bind. destruct (Hm w) as [H|(e' & H & He)];
    destruct (m w) as [out w']; simpl in H; subst out; [by left|]. right. by exists e'.
Qed.
(** The same, with the pure computation on the right in the same shape. *)
Lemma yields_bind_lift {A B} (r : ExecutionResult A) (f : A → M W B) (g : A → ExecutionResult B) :
  (∀ a, r = Ok a → yields (f a) (g a)) → yields (lift r ≫= f) (r ≫= g).
Proof.
  intros H w. unfold mbind, M_bind, result_bind, lift. destruct r as [a|e|]; [by apply H|by left..].
Qed.
End yields.

(** ** The runtime traits *)
Class FileSystem (W : Type) := {
  fs_stat : OperationContext → StatRequest → M W FileMetadata;
  fs_read : OperationContext → ReadFileRequest → M W ReadFileResult;
  fs_write : OperationContext → WriteFileRequest → M W WriteFileResult;
  fs_create_directory : OperationContext → CreateDirectoryRequest → M W unit;
  fs_remove : OperationContext → RemovePathRequest → M W RemovePathResult;
  fs_list : OperationContext → ListDirectoryRequest → M W ListDirectoryResult;
}.

Class ExecutionRuntime (W : Type) := {
  rt_descriptor : ExecutionHostDescriptor;
  #[global] rt_filesystem :: FileSystem W;
}.

(** ** What clients rely on

    The promises of a runtime that the tools' theorems are proved against. *)

(** The runtime's calls return: a result or an error. *)
Class RuntimeSafe (W : Type) `{!ExecutionRuntime W} : Prop := {
  stat_safe : ∀ c r, m_safe (fs_stat c r);
  read_safe : ∀ c r, m_safe (fs_read c r);
  write_safe : ∀ c r, m_safe (fs_write c r);
  remove_safe : ∀ c r, m_safe (fs_remove c r);
}.
#[export] Hint Resolve stat_safe read_safe write_safe remove_safe : effects.

(** Every call that only observes moves the world along [R]. *)
Class ReadsWithin {W} `{!World W, !ExecutionRuntime W} (R : W → W → Prop) : Prop := {
  reads_preorder : PreOrder R;
  observe_within : ∀ c, m_within R (checkpointM c);
  stat_within : ∀ c r, m_within R (fs_stat c r);
  read_within : ∀ c r, m_within R (fs_read c r);
}.
#[export] Existing Instance reads_preorder.

(** What a client may rely on when it repeats a mutation whose reply it lost: the
    host keeps a receipt per operation id, so the same fenced request, sent again
    to the same store, changes nothing and repeats the reply or fails. *)
Class ReplaySafe {W S : Type} `{!World W, !ExecutionRuntime W} (store : W → S) : Prop := {
  observe_store : ∀ c w, store (checkpointM c w).2 = store w;
  write_replay : ∀ c c' req w1 w2 r w3,
    is_Some (wr_expected_generation req) → fs_write c req w1 = (Ok r, w2) → store w3 = store w2 →
    store (fs_write c' req w3).2 = store w2 ∧ ∀ r', (fs_write c' req w3).1 = Ok r' → r' = r;
  remove_replay : ∀ c c' req w1 w2 r w3,
    is_Some (rm_expected_generation req) → fs_remove c req w1 = (Ok r, w2) → store w3 = store w2 →
    store (fs_remove c' req w3).2 = store w2 ∧ ∀ r', (fs_remove c' req w3).1 = Ok r' → r' = r;
}.

(** ** Validation lemmas *)

Lemma issue_not_nil is_ p m : issue is_ p m ≠ [].
Proof. unfold issue. by destruct is_. Qed.
Lemma issue_if_nil (b : bool) is_ p m :
  (if b then issue is_ p m else is_) = [] ↔ b = false ∧ is_ = [].
Proof. destruct b; [|naive_solver]. pose proof (issue_not_nil is_ p m). naive_solver. Qed.
Lemma require_non_empty_nil is_ p v :
  require_non_empty is_ p v = [] ↔ is_ = [] ∧ trim v ≠ [].
Proof.
  unfold require_non_empty, str_is_empty. pose proof (issue_not_nil is_ p (str! "must not be empty")).
  case_bool_decide; naive_solver.
Qed.
Lemma append_nested_nil is_ p r : append_nested is_ p r = [] ↔ is_ = [] ∧ (r = inl tt ∨ r = inr {| issues := [] |}).
Proof.
  unfold append_nested. destruct r as [[]|[l]]; simpl; [naive_solver|].
  split; [|intros [-> [?|?]]; by simplify_eq].
  revert is_. induction l as [|i l IH]; intros is_; simpl; [naive_solver|].
  intros [Hi _]%IH. by apply issue_not_nil in Hi.
Qed.
Lemma finish_ok is_ : finish is_ = inl tt ↔ is_ = [].
Proof. unfold finish. destruct is_; naive_solver. Qed.
Lemma finish_nonempty is_ : finish is_ ≠ inr {| issues := [] |}.
Proof. by destruct is_. Qed.

(** ** What a valid portable path is *)

(** A path segment that names a child and nothing else. *)
Definition safe_segment (s : str) : Prop :=
  s ≠ [] ∧ s ≠ str! "." ∧ s ≠ str! ".." ∧ SLASH ∉ s ∧ BACKSLASH ∉ s ∧ NUL ∉ s.

(** The specification of [ExecutionPath::validate]: the root itself, or safe
    segments joined by slashes, with no Windows drive prefix. *)
Definition portable_path (p : str) : Prop :=
  p = str! "." ∨
  ∃ segments, segments ≠ [] ∧ p = join [SLASH] segments ∧ Forall safe_segment segments ∧
              byte_at p 1 ≠ Some COLON ∧ trim p ≠ [].

Lemma validate_segment_nil is_ seg :
  validate_segment is_ seg = [] ↔ is_ = [] ∧ seg ≠ [] ∧ seg ≠ str! "." ∧ seg ≠ str! "..".
Proof.
  unfold validate_segment, str_is_empty, str_eqb.
  repeat case_bool_decide; subst; split;
    first [by intros ?%issue_not_nil | naive_solver].
Qed.
Lemma validate_segments_nil is_ segs :
  foldl validate_segment is_ segs = [] ↔
  is_ = [] ∧ Forall (λ s, s ≠ [] ∧ s ≠ str! "." ∧ s ≠ str! "..") segs.
Proof.
  revert is_. induction segs as [|s segs IH]; intros is_; simpl.
  - split; [intros ->; split; [done|constructor]|naive_solver].
  - rewrite IH, validate_segment_nil, Forall_cons. naive_solver.
Qed.

Lemma elem_of_join c sep l :
  c ∈ join sep l → c ∈ sep ∨ ∃ x, x ∈ l ∧ c ∈ x.
Proof.
  induction l as [|x l IH]; [by intros ?%elem_of_nil|].
  destruct l as [|y l]; [simpl; intros; right; exists x; set_solver|].
  rewrite join_cons by done. set_unfold. naive_solver.
Qed.
Lemma elem_of_join_segment c l x :
  x ∈ l → c ∈ x → c ∈ join [SLASH] l.
Proof.
  induction l as [|y l IH]; [by intros ?%elem_of_nil|]. intros Hx Hc.
  destruct l as [|z l]; [simpl; set_solver|]. rewrite join_cons by done.
  set_solver.
Qed.

Lemma starts_with_char c s : starts_with [c] s = true → c ∈ s.
Proof. intros [t ->]%starts_with_spec. set_solver. Qed.
Lemma join_head_char l s : s = join [SLASH] l → starts_with [SLASH] s = true →
  Forall safe_segment l → False.
Proof.
  intros -> [t Ht]%starts_with_spec Hl. destruct l as [|x l]; [done|].
  apply Forall_cons in Hl as [(? & _ & _ & Hsl & _) _].
  destruct x as [|a x]; [done|].
  destruct l; simpl in Ht; simplify_eq; set_solver.
Qed.
Lemma join_last_char l : Forall safe_segment l → last (join [SLASH] l) ≠ Some SLASH.
Proof.
  induction 1 as [|x l (? & _ & _ & Hsl & _) Hl IH]; [done|].
  destruct l as [|y l]; simpl; [intros ?%last_Some_elem_of; done|].
  change (last (x ++ [SLASH] ++ join [SLASH] (y :: l)) ≠ Some SLASH).
  rewrite (assoc_L (++)), last_app.
  destruct (last (join [SLASH] (y :: l))) as [c|] eqn:E; [done|].
  apply last_None in E. apply Forall_cons in Hl as [(? & _) _].
  destruct y; [done|]. by destruct l.
Qed.

Lemma ends_with_char c s : ends_with [c] s = true ↔ last s = Some c.
Proof.
  unfold ends_with. rewrite bool_decide_eq_true. split.
  - intros [t Ht]. apply strip_suffix_Some in Ht as ->. by rewrite last_snoc.
  - intros [t ->]%last_Some. exists t. by apply strip_suffix_Some.
Qed.

Lemma execution_path_valid_portable p : valid p ↔ portable_path (path p).
Proof.
  unfold valid, validate, ExecutionPath_validate. rewrite finish_ok.
  destruct (decide (path p = str! ".")) as [Hdot|Hdot].
  { rewrite Hdot. vm_compute. naive_solver. }
  unfold str_eqb at 1. rewrite bool_decide_false by done. cbn [negb].
  rewrite validate_segments_nil, !issue_if_nil, require_non_empty_nil.
  rewrite !contains_char_false, orb_false_iff, andb_false_iff.
  split.
  - intros [(_ & Hdrive & Hbs & _ & Hnul & _ & Htrim) Hsegs].
    right. exists (split_char SLASH (path p)).
    split_and!; [apply split_char_nonempty|by rewrite join_split_char| | |done].
    + assert (Hsub : ∀ c s, s ∈ split_char SLASH (path p) → c ∈ s → c ∈ path p).
      { intros c s Hs Hc. rewrite <-(join_split_char SLASH (path p)).
        by eapply elem_of_join_segment. }
      pose proof (split_char_pieces SLASH (path p)) as Hp.
      rewrite !Forall_forall in *. intros s Hin. specialize (Hsegs s Hin) as (?&?&?).
      unfold safe_segment. split_and!; eauto.
    + destruct Hdrive as [Hl|Hd]; [|by apply bool_decide_eq_false in Hd].
      unfold byte_at. rewrite lookup_ge_None_2; [done|].
      unfold utf8_len in Hl. apply Nat.leb_gt in Hl. lia.
  - intros [|(segs & Hne & Hp & Hsafe & Hdrive & Htrim)]; [done|].
    assert (Hchar : ∀ c, c ≠ SLASH → Forall (λ s : str, c ∉ s) segs → c ∉ path p).
    { intros c Hc Hall Hin. rewrite Hp in Hin. apply elem_of_join in Hin as [Hin|(x&?&?)].
      - by apply list_elem_of_singleton in Hin.
      - rewrite Forall_forall in Hall. by eapply Hall. }
    assert (Hbs : BACKSLASH ∉ path p).
    { apply Hchar; [done|]. eapply Forall_impl; [done|]. unfold safe_segment. naive_solver. }
    split; [split_and!|].
    + apply not_true_iff_false. rewrite ends_with_char, Hp. by apply join_last_char.
    + right. by apply bool_decide_eq_false.
    + done.
    + apply not_true_iff_false. intros Hs. by eapply join_head_char.
    + apply not_true_iff_false. by intros ?%starts_with_char.
    + apply Hchar; [done|]. eapply Forall_impl; [done|]. unfold safe_segment. naive_solver.
    + done.
    + done.
    + rewrite Hp, split_char_join; [|done|].
      * eapply Forall_impl; [done|]. unfold safe_segment. naive_solver.
      * eapply Forall_impl; [done|]. unfold safe_segment. naive_solver.
Qed.

(** [ExecutionPath::validate] accepts exactly the portable paths: [.], or a
    non-blank slash-separated list of segments none of which is empty, [.],
    [..], or holds a slash, backslash or NUL, with no drive prefix.  In
    particular no accepted path can climb above its root. *)
Theorem execution_path_valid_iff (p : ExecutionPath) :
  valid p ↔ portable_path (path p).
Proof. apply execution_path_valid_portable. Qed.
