(* ===== verification/MemoryHost.v ===== *)
(** A small in-memory host: an instance of the runtime traits that keeps the
    promises the tools rely on.  The theorems are proved for every runtime; this
    one is what their witnesses run on.  Its instances are local: a file that runs
    it makes them available itself. *)
From Stdlib Require Import ZifyBool.
From stdpp Require Import prelude gmap strings pretty list.
From S2P Require Import Prelude.
From S2P Require Import Text.
From S2P Require Import Core.
From S2P Require Import Host.

Record MemoryWorld := {
  mw_files : gmap ExecutionPath bytes;
  mw_writes : gmap OperationId (WriteFileRequest * WriteFileResult);
  mw_removes : gmap OperationId RemovePathRequest;
}.

#[local] Instance memory_world : World MemoryWorld := {
  observe := λ _ w, ((false, 0%N), w);
}.

Definition memory_root : RootId := StringId (str! "root").
Definition memory_descriptor : ExecutionHostDescriptor :=
  {| host_id := StringId (str! "host"); supervisor_generation_id := StringId (str! "g1");
     operating_system := Linux; architecture := str! "x86_64"; path_convention := ConvUnix;
     roots := [{| er_id := memory_root; er_name := str! "work"; native_path := str! "/work";
                  read_only := false |}];
     features := {| pty := false; process_signals := false; file_revisions := true |};
     limits := {| max_read_bytes := Some 4%N; max_write_bytes := None;
                  max_process_read_bytes := None; max_process_input_bytes := None;
                  max_concurrent_processes := None |} |}.

(** The revision of a file is its contents. *)
Definition memory_metadata (p : ExecutionPath) (data : bytes) : FileMetadata :=
  {| fm_path := p; kind := File; size := N.of_nat (length data); modified_at := None;
     revision := Some (StringId data) |}.
Definition memory_not_found : ExecutionError := ExecutionError_new NotFound (str! "not found").
Definition memory_conflict : ExecutionError := ExecutionError_new OperationConflict (str! "conflict").

Definition memory_write (req : WriteFileRequest) : M MemoryWorld WriteFileResult := λ w,
  match mw_writes w !! wr_operation_id req with
  | Some (req', reply) =>
    (if bool_decide (req' = req) then Ok reply else Err memory_conflict, w)
  | None =>
    let reply := {| wres_path := wr_path req;
                    existed := bool_decide (is_Some (mw_files w !! wr_path req));
                    wres_revision := StringId (wr_data req);
                    bytes_written := N.of_nat (length (wr_data req)) |} in
    (Ok reply,
     {| mw_files := <[wr_path req := wr_data req]> (mw_files w);
        mw_writes := <[wr_operation_id req := (req, reply)]> (mw_writes w);
        mw_removes := mw_removes w |})
  end.
Definition memory_remove (req : RemovePathRequest) : M MemoryWorld RemovePathResult := λ w,
  match mw_removes w !! rm_operation_id req with
  | Some req' =>
    (if bool_decide (req' = req) then Ok {| removed := true |} else Err memory_conflict, w)
  | None =>
    match mw_files w !! rm_path req with
    | Some _ =>
      (Ok {| removed := true |},
       {| mw_files := delete (rm_path req) (mw_files w); mw_writes := mw_writes w;
          mw_removes := <[rm_operation_id req := req]> (mw_removes w) |})
    | None => (Err memory_not_found, w)
    end
  end.
Definition memory_read (req : ReadFileRequest) : M MemoryWorld ReadFileResult := λ w,
  match mw_files w !! rd_path req with
  | Some data =>
    let off := N.to_nat (rd_offset req) in
    let chunk := take (N.to_nat (rd_max_bytes req)) (drop off data) in
    (Ok {| rr_metadata := memory_metadata (rd_path req) data; rr_data := chunk;
           rr_offset := rd_offset req; rr_eof := length data <=? off + length chunk |}, w)
  | None => (Err memory_not_found, w)
  end.

#[local] Instance memory_filesystem : FileSystem MemoryWorld := {
  fs_stat := λ _ req w,
    match mw_files w !! st_path req with
    | Some data => (Ok (memory_metadata (st_path req) data), w)
    | None => (Err memory_not_found, w)
    end;
  fs_read := λ _, memory_read;
  fs_write := λ _, memory_write;
  fs_create_directory := λ _ _, mret tt;
  fs_remove := λ _, memory_remove;
  fs_list := λ _ _, mret {| entries := []; next_cursor := None |};
}.
#[local] Instance memory_runtime : ExecutionRuntime MemoryWorld := {
  rt_descriptor := memory_descriptor;
  rt_filesystem := memory_filesystem;
}.

#[local] Instance memory_safe : RuntimeSafe MemoryWorld.
Proof.
  split; intros c r w; cbn;
    [|unfold memory_read|unfold memory_write|unfold memory_remove]; by repeat case_match.
Qed.
#[local] Instance memory_reads : ReadsWithin (@eq MemoryWorld).
Proof.
  split; [exact _|done|..]; intros c r w; cbn; [|unfold memory_read]; by case_match.
Qed.
#[local] Instance memory_replay : ReplaySafe (@id MemoryWorld).
Proof.
  split; [done|..]; intros c c' req w1 w2 r w3 _; cbn; unfold memory_write, memory_remove;
    intros H Hw; simpl in Hw; subst w3.
  - destruct (mw_writes w1 !! _) as [[req' reply]|] eqn:E.
    + case_bool_decide; [|done]. injection H as <- <-. subst req'.
      rewrite E, bool_decide_true by done. split; [done|]. by intros ? [= ->].
    + injection H as <- <-. cbn. rewrite lookup_insert_eq, bool_decide_true by done.
      split; [done|]. by intros ? [= ->].
  - destruct (mw_removes w1 !! _) as [req'|] eqn:E.
    + case_bool_decide; [|done]. injection H as <- <-. subst req'.
      rewrite E, bool_decide_true by done. split; [done|]. by intros ? [= ->].
    + destruct (mw_files w1 !! _); [|done]. injection H as <- <-. cbn.
      rewrite lookup_insert_eq, bool_decide_true by done. split; [done|]. by intros ? [= ->].
Qed.
