(* ===== verification/PathTool.v ===== *)
(** [tool-filesystem]: resolving the paths a model names against a remote host,
    without consulting the worker's own operating system
    ([tools/filesystem/src/lib.rs] and [normalized.rs]). *)
From Stdlib Require Import ZifyBool Sorted.
From stdpp Require Import prelude gmap strings pretty list.
From S2P Require Import Prelude.
From S2P Require Import Text.
From S2P Require Import Core.
From S2P Require Import Host.
From S2P Require Import MemoryHost.

Definition error (c : ExecutionErrorCode) (m : str) : ExecutionError :=
  with_detail (str! "source") (VString (str! "tool-filesystem")) (ExecutionError_new c m).

Inductive ParentSegments := Reject | Preserve.
#[export] Instance ParentSegments_eq_dec : EqDecision ParentSegments.
Proof. solve_decision. Defined.

(** The Windows verbatim forms: only drives and UNC shares are accepted. *)
Definition strip_verbatim (value : str) : ExecutionResult str :=
  match strip_prefix (str! "//?/") value with
  | None => Ok value
  | Some tail =>
    if match split_at_byte tail 4 with
       | Some (prefix, _) => eq_ignore_ascii_case prefix (str! "UNC/")
       | None => false
       end
    then rest ← str_slice_from tail 4; Ok (format! [str! "//"; rest])
    else if match byte_at tail 0 with Some b => is_ascii_alphabetic b | None => false end
            && bool_decide (byte_at tail 1 = Some COLON)
            && bool_decide (byte_at tail 2 = Some SLASH)
    then Ok tail
    else Err (error InvalidPath (str! "unsupported Windows device path"))
  end.

(** [splitn(3, '/')]: server, share and the rest. *)
Definition splitn3 (s : str) : str * str * str :=
  match split_char SLASH s with
  | [] => ([], [], [])
  | [a] => (a, [], [])
  | [a; b] => (a, b, [])
  | a :: b :: rest => (a, b, join [SLASH] rest)
  end.

Definition bad_unc_name (s : str) : bool :=
  str_eqb s (str! ".") || str_eqb s (str! "..") || str_eqb s (str! "?") || contains_char COLON s.

(** The absolute prefix of a path (["/"], ["C:"] or ["//server/share"], empty for
    a relative path) and what follows it. *)
Definition split_path_prefix (value : str) (windows : bool) : ExecutionResult (str * str) :=
  if windows && starts_with (str! "//") value then
    tail ← str_slice_from value 2;
    let '(server, share, rest) := splitn3 tail in
    if str_is_empty server || str_is_empty share || bad_unc_name server || bad_unc_name share
    then Err (error InvalidPath (str! "invalid UNC path or unsupported Windows device path"))
    else Ok (format! [str! "//"; server; str! "/"; share], rest)
  else if windows && bool_decide (byte_at value 1 = Some COLON) then
    b0 ← or_panic (byte_at value 0);
    if negb (is_ascii_alphabetic b0) || negb (bool_decide (byte_at value 2 = Some SLASH))
    then Err (error InvalidPath (str! "use a fully qualified Windows drive path"))
    else prefix ← str_slice_to value 2; tail ← str_slice_from value 3; Ok (prefix, tail)
  else match strip_prefix [SLASH] value with
       | Some tail =>
         if windows
         then Err (error InvalidPath
                     (str! "Windows absolute paths must include a drive or UNC share"))
         else Ok (str! "/", tail)
       | None => Ok ([], value)
       end.

(** One iteration of the loop over [tail.split('/')]. *)
Definition push_part (windows : bool) (parents : ParentSegments)
    (result : list str) (part : str) : ExecutionResult (list str) :=
  if str_eqb part (str! "..") && bool_decide (parents = Reject)
  then Err (error InvalidPath (str! "parent (..) segments are unsupported; use an absolute path inside a registered root"))
  else if str_is_empty part || str_eqb part (str! ".") then Ok result
  else if windows && negb (str_eqb part (str! ".."))
          && (contains_char COLON part || ends_with [DOT] part || ends_with [SPACE] part)
  then Err (error InvalidPath (str! "unsupported Windows path component"))
  else Ok (result ++ [part]).

Definition split_parts (value : str) (windows : bool) (parents : ParentSegments)
  : ExecutionResult (str * list str) :=
  if str_is_empty value || contains_char NUL value
  then Err (error InvalidPath (str! "file_path must be nonempty and contain no NUL bytes"))
  else
    let value := if windows then replace_char BACKSLASH (str! "/") value else value in
    value ← (if windows then strip_verbatim value else Ok value);
    '(prefix, tail) ← split_path_prefix value windows;
    result ← fold_result (push_part windows parents) [] (split_char SLASH tail);
    Ok (prefix, result).

Definition parts (value : str) (windows : bool) : ExecutionResult (str * list str) :=
  split_parts value windows Reject.

(** A working directory that is valid and whose root the host advertises. *)
Definition validate_cwd (host : ExecutionHostDescriptor) (cwd : ExecutionPath)
  : ExecutionResult unit :=
  _ ← validated (validate cwd);
  if existsb (λ root, bool_decide (er_id root = root_id cwd)) (roots host)
  then Ok tt
  else Err (error RootNotFound (str! "working directory root is not advertised by the host")).

Definition is_windows (host : ExecutionHostDescriptor) : bool :=
  bool_decide (path_convention host = ConvWindows).

(** [components.starts_with(&root_parts)]. *)
Fixpoint list_starts_with (l p : list str) {struct p} : bool :=
  match p, l with
  | [], _ => true
  | x :: p, y :: l => str_eqb x y && list_starts_with l p
  | _ :: _, [] => false
  end.

(** The loop that collects the registered roots above an absolute path. *)
Definition push_candidate (windows : bool) (prefix : str) (components : list str)
    (candidates : list (ExecutionRoot * nat)) (root : ExecutionRoot)
  : ExecutionResult (list (ExecutionRoot * nat)) :=
  '(root_prefix, root_parts) ← parts (native_path root) windows;
  let same_prefix := if windows then eq_ignore_ascii_case prefix root_prefix
                     else str_eqb prefix root_prefix in
  if same_prefix && list_starts_with components root_parts
  then Ok (candidates ++ [(root, length root_parts)])
  else Ok candidates.

(** [sort_by_key(|(_, len)| Reverse( *len))]. *)
Definition longest_first (a b : ExecutionRoot * nat) : bool := b.2 <=? a.2.

(** [candidates.get(1).is_some_and(|(_, other_len)| other_len == len)]. *)
Definition next_has_length (others : list (ExecutionRoot * nat)) (len : nat) : bool :=
  match others with (_, other_len) :: _ => other_len =? len | [] => false end.

Definition dot_if_empty (s : str) : str := if str_is_empty s then str! "." else s.

Definition join_or_dot (base : list str) : str :=
  match base with [] => str! "." | _ => join [SLASH] base end.

Definition resolve_path (host : ExecutionHostDescriptor) (cwd : ExecutionPath) (value : str)
  : ExecutionResult ExecutionPath :=
  _ ← validate_cwd host cwd;
  let windows := is_windows host in
  '(prefix, components) ← parts value windows;
  if str_is_empty prefix then
    let base := if str_eqb (path cwd) (str! ".") then [] else split_char SLASH (path cwd) in
    let base := base ++ components in
    execution_path_new (root_id cwd)
      (join_or_dot base)
  else
    candidates ← fold_result (push_candidate windows prefix components) [] (roots host);
    let candidates := sort_by longest_first candidates in
    match candidates with
    | [] => Err (error PathOutsideRoot
        (str! "absolute path is outside the host's registered roots (use the advertised root spelling)"))
    | (root, len) :: others =>
      if next_has_length others len
      then Err (error InvalidPath
        (str! "absolute path matches multiple registered roots; use a relative path in the selected root"))
      else
        rest ← slice_from components len;
        let relative := join [SLASH] rest in
        execution_path_new (er_id root) (dot_if_empty relative)
    end.

(** ** [resolve_path_normalized]

    Lexical joining of native paths followed by root mapping. *)

(** The text handed to [split_parts] once the Windows drive-relative and
    root-relative forms are qualified. *)
Definition qualify (windows : bool) (base_prefix value : str) : ExecutionResult str :=
  if windows && starts_with [SLASH] value && negb (starts_with (str! "//") value) then
    Ok (format! [base_prefix; value])
  else if windows && bool_decide (byte_at value 1 = Some COLON)
          && negb (bool_decide (byte_at value 2 = Some SLASH)) then
    drive ← str_slice_to value 2;
    if negb (eq_ignore_ascii_case drive base_prefix)
    then Err (error InvalidPath (str! "relative path belongs to another Windows drive"))
    else if utf8_len value =? 2 then Ok (str! ".") else str_slice_from value 2
  else Ok value.

(** [resolved.pop()] or [resolved.push(component)]. *)
Definition push_component (resolved : list str) (component : str) : list str :=
  if str_eqb component (str! "..") then take (pred (length resolved)) resolved
  else resolved ++ [component].

Definition resolve_path_normalized (host : ExecutionHostDescriptor) (cwd : ExecutionPath)
    (value : str) : ExecutionResult ExecutionPath :=
  _ ← validate_cwd host cwd;
  let windows := is_windows host in
  root ← ok_or (error RootNotFound (str! "working directory root is unavailable"))
           (List.find (λ root, bool_decide (er_id root = root_id cwd)) (roots host));
  '(base_prefix, base) ← split_parts (native_path root) windows Preserve;
  let base := if negb (str_eqb (path cwd) (str! ".")) then base ++ split_char SLASH (path cwd)
              else base in
  let value := if windows then replace_char BACKSLASH (str! "/") value else value in
  let value := if str_is_empty value then str! "." else value in
  value ← qualify windows base_prefix value;
  '(prefix, components) ← split_parts value windows Preserve;
  let '(prefix, resolved) := if str_is_empty prefix then (base_prefix, base) else (prefix, []) in
  let resolved := foldl push_component resolved components in
  let absolute := if str_eqb prefix (str! "/") then format! [str! "/"; join [SLASH] resolved]
                  else format! [prefix; str! "/"; join [SLASH] resolved] in
  resolve_path host cwd absolute.

(** ** POSIX paths: [split_parts] without its loop *)

Definition significant (s : str) : Prop := s ≠ [] ∧ s ≠ str! ".".
#[export] Instance significant_dec s : Decision (significant s).
Proof. unfold significant. apply _. Defined.

(** The components a POSIX path contributes: empty and [.] pieces are dropped. *)
Definition components (value : str) : list str :=
  filter significant (split_char SLASH value).

Lemma str_eqb_spec a b : str_eqb a b = true ↔ a = b.
Proof. apply bool_decide_eq_true. Qed.
Lemma str_eqb_refl a : str_eqb a a = true.
Proof. by apply str_eqb_spec. Qed.

Lemma fold_push_part_unix P acc l :
  (P = Reject → str! ".." ∉ l) →
  fold_result (push_part false P) acc l = Ok (acc ++ filter significant l).
Proof.
  revert acc. induction l as [|x l IH]; intros acc Hl; cbn [fold_result].
  { by rewrite app_nil_r. }
  assert (push_part false P acc x = Ok (acc ++ filter significant [x])) as ->.
  { unfold push_part. cbn [andb].
    destruct (str_eqb x (str! "..") && bool_decide (P = Reject)) eqn:E.
    { apply andb_true_iff in E as [->%str_eqb_spec ->%bool_decide_eq_true].
      exfalso. apply Hl; [done|left]. }
    destruct (str_is_empty x || str_eqb x (str! ".")) eqn:E'.
    - rewrite filter_cons_False, filter_nil, app_nil_r; [done|].
      unfold significant. apply orb_true_iff in E' as [->%bool_decide_eq_true| ->%str_eqb_spec];
        naive_solver.
    - rewrite filter_cons_True, filter_nil; [done|].
      apply orb_false_iff in E' as [?%bool_decide_eq_false ?%bool_decide_eq_false]. done. }
  cbn [mbind result_bind]. rewrite IH by (intros HP Hin; apply Hl; [done|by right]).
  by rewrite <-(assoc_L (++)), <-filter_app.
Qed.
Lemma fold_push_part_reject w acc l :
  str! ".." ∈ l → is_ok (fold_result (push_part w Reject) acc l) = false.
Proof.
  revert acc. induction l as [|y l IH]; intros acc; [by intros ?%elem_of_nil|].
  cbn [fold_result]. intros [<-|Hin]%elem_of_cons; [done|].
  destruct (push_part w Reject acc y); [by apply IH|done|done].
Qed.

(** A leading slash only adds an empty piece. *)
Lemma components_slash tail : components (SLASH :: tail) = components tail.
Proof. unfold components. simpl. by rewrite filter_cons_False by (unfold significant; naive_solver). Qed.
Lemma parent_slash tail : str! ".." ∈ split_char SLASH (SLASH :: tail) ↔ str! ".." ∈ split_char SLASH tail.
Proof. simpl. rewrite elem_of_cons. naive_solver. Qed.

Definition absolute_prefix (value : str) : str :=
  if starts_with [SLASH] value then str! "/" else [].

Lemma split_path_prefix_unix value :
  ∃ tail, split_path_prefix value false = Ok (absolute_prefix value, tail) ∧
          components tail = components value ∧
          (str! ".." ∈ split_char SLASH tail ↔ str! ".." ∈ split_char SLASH value).
Proof.
  unfold split_path_prefix, absolute_prefix. cbn [andb].
  destruct (strip_prefix [SLASH] value) as [tail|] eqn:E.
  - apply strip_prefix_Some in E as ->. exists tail.
    rewrite (proj2 (starts_with_spec _ _)) by eauto. cbn [app].
    split_and!; [done|by rewrite components_slash|by rewrite parent_slash].
  - exists value. unfold starts_with. rewrite E. done.
Qed.

Lemma split_parts_unix P value :
  value ≠ [] → NUL ∉ value → (P = Reject → str! ".." ∉ split_char SLASH value) →
  split_parts value false P = Ok (absolute_prefix value, components value).
Proof.
  intros Hne Hnul Hdd. unfold split_parts, str_is_empty.
  rewrite bool_decide_false by done. rewrite (proj2 (contains_char_false _ _)) by done.
  step_result. destruct (split_path_prefix_unix value) as (tail & -> & Hc & Hp). step_result.
  rewrite fold_push_part_unix by naive_solver. step_result. by rewrite <-Hc.
Qed.
Lemma split_parts_unix_reject value :
  str! ".." ∈ split_char SLASH value → is_ok (parts value false) = false.
Proof.
  intros Hin. unfold parts, split_parts. case_match; [done|]. step_result.
  destruct (split_path_prefix_unix value) as (tail & -> & _ & Hp). step_result.
  destruct (fold_result _ _ _) eqn:E; try done.
  pose proof (fold_push_part_reject false [] (split_char SLASH tail)) as Hr.
  rewrite E in Hr. by discriminate Hr; apply Hp.
Qed.
Lemma parts_unix_inv value prefix cs :
  parts value false = Ok (prefix, cs) →
  value ≠ [] ∧ NUL ∉ value ∧ str! ".." ∉ split_char SLASH value ∧
  prefix = absolute_prefix value ∧ cs = components value.
Proof.
  intros H. assert (Hdd : str! ".." ∉ split_char SLASH value).
  { intros Hin%split_parts_unix_reject. by rewrite H in Hin. }
  assert (Hne : value ≠ []) by (by intros ->).
  assert (Hnul : NUL ∉ value).
  { intros Hin%contains_char_spec. unfold parts, split_parts in H.
    rewrite Hin, orb_true_r in H. done. }
  unfold parts in H. rewrite split_parts_unix in H by done. naive_solver.
Qed.

(** Components are fit to be path segments. *)
Definition component_ok (s : str) : Prop := significant s ∧ SLASH ∉ s ∧ NUL ∉ s.

Lemma elem_of_split_char c sep s x : x ∈ split_char sep s → c ∈ x → c ∈ s.
Proof.
  revert x. induction s as [|y s IH]; intros x; simpl.
  { intros ->%list_elem_of_singleton. done. }
  destruct (N.eqb_spec y sep) as [->|].
  - intros [->|Hx]%elem_of_cons; [set_solver|]. right. eauto.
  - destruct (split_char sep s) as [|p ps] eqn:E; [by apply split_char_nonempty in E|].
    intros [->|Hx]%elem_of_cons Hc.
    + apply elem_of_cons in Hc as [->|Hc]; [left|right]. eapply IH; [left|done].
    + right. eapply IH; [by right|done].
Qed.
Lemma components_ok value : NUL ∉ value → Forall component_ok (components value).
Proof.
  intros Hnul. unfold components. apply Forall_forall. intros s [Hs Hin]%list_elem_of_filter.
  pose proof (split_char_pieces SLASH value) as Hp. rewrite Forall_forall in Hp.
  split_and!; [done|by apply Hp|]. intros Hc. by eapply elem_of_split_char in Hc.
Qed.
Lemma components_join ps :
  Forall component_ok ps → components (join [SLASH] ps) = ps.
Proof.
  intros Hps. destruct ps as [|p ps]; [done|]. unfold components.
  rewrite split_char_join; [|done|].
  - induction Hps as [|x l [Hx _] _ IH]; [done|].
    by rewrite filter_cons_True, IH.
  - eapply Forall_impl; [done|]. by intros s (_ & ? & _).
Qed.

(** Printing components under the POSIX root and splitting them again. *)
Lemma parts_absolute ps :
  Forall component_ok ps → str! ".." ∉ ps →
  parts (SLASH :: join [SLASH] ps) false = Ok (str! "/", ps).
Proof.
  intros Hps Hdd. unfold parts. rewrite split_parts_unix.
  - by rewrite components_slash, components_join.
  - done.
  - intros [?|Hin]%elem_of_cons; [done|]. apply elem_of_join in Hin as [?|(x & Hx & ?)].
    + by set_solver.
    + rewrite Forall_forall in Hps. by apply Hps in Hx as (_ & _ & ?).
  - intros _. rewrite parent_slash. destruct ps as [|p ps]; [set_solver|].
    rewrite split_char_join; [done|done|].
    eapply Forall_impl; [done|]. by intros s (_ & ? & _).
Qed.

(** ** What [resolve_path] returns *)

Lemma execution_path_new_ok r s p :
  execution_path_new r s = Ok p ↔ p = {| root_id := r; path := s |} ∧ valid p.
Proof.
  unfold execution_path_new, ExecutionPath_new, valid.
  destruct (validate {| root_id := r; path := s |}) as [[]|] eqn:E; split.
  - by intros [= <-].
  - by intros [-> _].
  - done.
  - intros [-> Hv]. congruence.
Qed.
Lemma execution_path_new_no_panic r s : execution_path_new r s ≠ Panic.
Proof. unfold execution_path_new. by destruct (ExecutionPath_new r s). Qed.

Lemma validate_cwd_ok host cwd :
  validate_cwd host cwd = Ok tt ↔ valid cwd ∧ root_id cwd ∈ er_id <$> roots host.
Proof.
  unfold validate_cwd, validated, valid. destruct (validate cwd) as [[]|]; step_result; [|naive_solver].
  assert (existsb (λ root, bool_decide (er_id root = root_id cwd)) (roots host) = true
          ↔ root_id cwd ∈ er_id <$> roots host) as Hex.
  { rewrite existsb_exists, list_elem_of_fmap. setoid_rewrite <-list_elem_of_In.
    setoid_rewrite bool_decide_eq_true. naive_solver. }
  destruct (existsb _ _); naive_solver.
Qed.
Lemma validate_cwd_no_panic host cwd : validate_cwd host cwd ≠ Panic.
Proof. unfold validate_cwd, validated. destruct (validate cwd); simpl; [by case_match|done]. Qed.

Lemma list_starts_with_spec l p : list_starts_with l p = true ↔ p `prefix_of` l.
Proof.
  revert l. induction p as [|x p IH]; intros l; simpl.
  { split; [intros _; apply prefix_nil|done]. }
  destruct l as [|y l]; [split; [done|intros []%prefix_nil_not]|].
  rewrite andb_true_iff, str_eqb_spec, IH. split.
  - intros [-> ?]. by apply prefix_cons.
  - intros H. split; [by eapply prefix_cons_inv_1|by eapply prefix_cons_inv_2].
Qed.

(** The registered roots lexically above [prefix]/[cs]. *)
Definition covers (windows : bool) (prefix : str) (cs : list str)
    (root : ExecutionRoot) (n : nat) : Prop :=
  ∃ root_prefix rps, parts (native_path root) windows = Ok (root_prefix, rps) ∧
    (if windows then eq_ignore_ascii_case prefix root_prefix
     else str_eqb prefix root_prefix) = true ∧ rps `prefix_of` cs ∧ n = length rps.

Lemma push_candidate_ok w prefix cs acc root acc' :
  push_candidate w prefix cs acc root = Ok acc' →
  ∃ extra, acc' = acc ++ extra ∧ (∀ r n, (r, n) ∈ extra ↔ r = root ∧ covers w prefix cs root n).
Proof.
  unfold push_candidate, covers. intros H. inv_ok H. destruct a as [rp rps]. rewrite H0.
  destruct (_ && _) eqn:E; simplify_eq.
  - apply andb_true_iff in E as [Hs Hp%list_starts_with_spec].
    eexists; split; [done|]. intros r n. set_solver.
  - exists []. split; [by rewrite app_nil_r|]. intros r n. rewrite elem_of_nil.
    split; [done|]. intros (-> & rp' & rps' & ? & Hs & Hp%list_starts_with_spec & ->).
    simplify_eq. by rewrite Hs, Hp in E.
Qed.
Lemma candidates_spec w prefix cs acc rs cands :
  fold_result (push_candidate w prefix cs) acc rs = Ok cands →
  ∀ r n, (r, n) ∈ cands ↔ (r, n) ∈ acc ∨ r ∈ rs ∧ covers w prefix cs r n.
Proof.
  revert acc. induction rs as [|root rs IH]; intros acc H; cbn [fold_result] in H.
  { simplify_eq. set_solver. }
  inv_ok H. apply push_candidate_ok in H0 as (extra & -> & Hx).
  intros r n. rewrite (IH _ H), elem_of_app, Hx. set_solver.
Qed.

Lemma longest_first_head cands c others :
  sort_by longest_first cands = c :: others → ∀ d, d ∈ cands → d = c ∨ d ∈ others ∧ d.2 <= c.2.
Proof.
  intros Hs d Hd. rewrite <-(sort_by_Permutation longest_first) in Hd. rewrite Hs in Hd.
  apply elem_of_cons in Hd as [->|Hd]; [by left|right; split; [done|]].
  assert (StronglySorted (λ a b, longest_first a b = true) (c :: others)) as Hsort.
  { rewrite <-Hs. apply sort_by_sorted; unfold longest_first; intros; lia. }
  apply StronglySorted_inv in Hsort as [_ Hf]. rewrite Forall_forall in Hf.
  specialize (Hf _ Hd). unfold longest_first in Hf. lia.
Qed.
Lemma longest_first_second cands c d others :
  sort_by longest_first cands = c :: d :: others → ∀ e, e ∈ d :: others → e.2 <= d.2.
Proof.
  intros Hs e He.
  assert (StronglySorted (λ a b, longest_first a b = true) (c :: d :: others)) as Hsort.
  { rewrite <-Hs. apply sort_by_sorted; unfold longest_first; intros; lia. }
  apply StronglySorted_inv in Hsort as [Hsort _].
  apply StronglySorted_inv in Hsort as [_ Hf]. rewrite Forall_forall in Hf.
  apply elem_of_cons in He as [->|He]; [done|].
  specialize (Hf _ He). unfold longest_first in Hf. lia.
Qed.

(** The absolute branch of [resolve_path] in one step. *)
Definition map_absolute (host : ExecutionHostDescriptor) (prefix : str) (cs : list str)
  : ExecutionResult ExecutionPath :=
  candidates ← fold_result (push_candidate (is_windows host) prefix cs) [] (roots host);
  match sort_by longest_first candidates with
  | [] => Err (error PathOutsideRoot
      (str! "absolute path is outside the host's registered roots (use the advertised root spelling)"))
  | (root, len) :: others =>
    if next_has_length others len
    then Err (error InvalidPath
      (str! "absolute path matches multiple registered roots; use a relative path in the selected root"))
    else rest ← slice_from cs len; execution_path_new (er_id root) (dot_if_empty (join [SLASH] rest))
  end.

Lemma resolve_path_absolute host cwd value prefix cs :
  validate_cwd host cwd = Ok tt → parts value (is_windows host) = Ok (prefix, cs) →
  prefix ≠ [] → resolve_path host cwd value = map_absolute host prefix cs.
Proof.
  intros Hcwd Hparts Hp. unfold resolve_path. rewrite Hcwd. step_result. rewrite Hparts.
  step_result. unfold str_is_empty. by rewrite bool_decide_false.
Qed.

Lemma map_absolute_ok host prefix cs p :
  map_absolute host prefix cs = Ok p →
  ∃ root rps rel, root ∈ roots host ∧ covers (is_windows host) prefix cs root (length rps) ∧
    cs = rps ++ rel ∧ p = {| root_id := er_id root; path := dot_if_empty (join [SLASH] rel) |} ∧
    valid p ∧
    ∀ root' n, root' ∈ roots host → covers (is_windows host) prefix cs root' n →
      root' = root ∨ n < length rps.
Proof.
  unfold map_absolute. intros H. inv_ok H. pose proof (candidates_spec _ _ _ _ _ _ H0) as Hc.
  destruct (sort_by longest_first a) as [|[root len] others] eqn:Hs; [done|].
  destruct (next_has_length others len) eqn:Hamb; [done|].
  assert (Hin : (root, len) ∈ a).
  { rewrite <-(sort_by_Permutation longest_first), Hs. left. }
  apply Hc in Hin as [?%elem_of_nil|[Hroot Hcov]]; [done|].
  pose proof Hcov as (rp & rps & Hparts & Hpre & [rel ->] & ->).
  rewrite slice_from_ok in H by (rewrite length_app; lia). step_result in H.
  rewrite drop_app_length in H. apply execution_path_new_ok in H as [-> Hv].
  exists root, rps, rel. split_and!; try done.
  intros root' n Hr' Hcov'. destruct (longest_first_head _ _ _ Hs (root', n)) as [?|[Ho Hle]].
  - apply Hc. by right.
  - left. by simplify_eq.
  - right. destruct others as [|[r2 n2] others]; [by apply elem_of_nil in Ho|].
    apply Nat.eqb_neq in Hamb.
    destruct (longest_first_head _ _ _ Hs (r2, n2)) as [?|[_ ?]]; simpl in *.
    + rewrite <-(sort_by_Permutation longest_first), Hs. set_solver.
    + simplify_eq.
    + pose proof (longest_first_second _ _ _ _ Hs _ Ho). simpl in *. lia.
Qed.

Lemma parts_prefix_cases host cwd value p :
  resolve_path host cwd value = Ok p →
  validate_cwd host cwd = Ok tt ∧
  ∃ prefix cs, parts value (is_windows host) = Ok (prefix, cs) ∧
    if str_is_empty prefix then
      root_id p = root_id cwd ∧ valid p ∧
      path p = join_or_dot
        ((if str_eqb (path cwd) (str! ".") then [] else split_char SLASH (path cwd)) ++ cs)
    else map_absolute host prefix cs = Ok p.
Proof.
  unfold resolve_path. intros H. inv_ok H. destruct a. inv_ok H. destruct a as [prefix cs].
  split; [done|]. exists prefix, cs. split; [done|].
  destruct (str_is_empty prefix); [|done].
  apply execution_path_new_ok in H as [-> ?]. done.
Qed.

(** Whatever a model writes, a path that resolves is a portable path inside a
    root the host advertises. *)
Theorem resolve_path_sound (host : ExecutionHostDescriptor) (cwd : ExecutionPath)
    (value : str) (p : ExecutionPath) :
  resolve_path host cwd value = Ok p →
  portable_path (path p) ∧ root_id p ∈ er_id <$> roots host.
Proof.
  intros (Hcwd & prefix & cs & Hparts & H)%parts_prefix_cases.
  rewrite <-execution_path_valid_portable. destruct (str_is_empty prefix).
  - destruct H as (-> & ? & _). split; [done|]. by apply validate_cwd_ok in Hcwd as [??].
  - apply map_absolute_ok in H as (root & rps & rel & ? & _ & _ & -> & ? & _).
    split; [done|]. apply list_elem_of_fmap. by exists root.
Qed.



(** ** No panic

    Every slice the resolver takes is in range and on a character boundary. *)
Lemma push_part_no_panic w P acc part : push_part w P acc part ≠ Panic.
Proof. unfold push_part. by repeat case_match. Qed.

Lemma str_slice_from_ascii {E} a b :
  Forall is_ascii a → str_slice_from (E:=E) (a ++ b) (length a) = Ok b.
Proof. intros. unfold str_slice_from. by rewrite split_at_byte_ascii. Qed.
Lemma str_slice_to_ascii {E} a b :
  Forall is_ascii a → str_slice_to (E:=E) (a ++ b) (length a) = Ok a.
Proof. intros. unfold str_slice_to. by rewrite split_at_byte_ascii. Qed.

Lemma strip_verbatim_no_panic value : strip_verbatim value ≠ Panic.
Proof.
  unfold strip_verbatim. destruct (strip_prefix _ _) as [tail|]; [|done].
  unfold str_slice_from. destruct (split_at_byte tail 4) as [[pre rest]|]; simpl;
    by repeat case_match.
Qed.

Lemma split_path_prefix_no_panic value w : split_path_prefix value w ≠ Panic.
Proof.
  unfold split_path_prefix.
  destruct (w && starts_with (str! "//") value) eqn:Hunc.
  - apply andb_true_iff in Hunc as [_ [t ->]%starts_with_spec].
    rewrite (str_slice_from_ascii (str! "//") t) by (repeat constructor).
    step_result. destruct (splitn3 t) as [[??]?]. by case_match.
  - destruct (w && bool_decide (byte_at value 1 = Some COLON)) eqn:Hdrive.
    + apply andb_true_iff in Hdrive as [_ Hb%bool_decide_eq_true].
      apply byte_at_1_ascii in Hb as (c & s & -> & Hc); [|done].
      assert (byte_at (c :: COLON :: s) 0 = Some c) as ->.
      { unfold byte_at. rewrite utf8_encode_cons. unfold char_utf8.
        by rewrite (proj2 (N.ltb_lt c 128)). }
      step_result. destruct (negb _ || negb _) eqn:E; [done|].
      apply orb_false_iff in E as [_ E%negb_false_iff%bool_decide_eq_true].
      rewrite !byte_at_cons_ascii in E by done.
      apply byte_at_0_ascii in E as [t ->]; [|done].
      rewrite (str_slice_to_ascii [c; COLON] (SLASH :: t)) by (repeat constructor; done).
      step_result. by rewrite (str_slice_from_ascii [c; COLON; SLASH] t) by (repeat constructor; done).
    + destruct (strip_prefix [SLASH] value); [|done]. by case_match.
Qed.

Lemma split_parts_no_panic value w P : split_parts value w P ≠ Panic.
Proof.
  unfold split_parts. case_match; [done|].
  apply bind_no_panic; [case_match; [apply strip_verbatim_no_panic|done]|]. intros v _.
  apply bind_no_panic; [apply split_path_prefix_no_panic|]. intros [prefix tail] _.
  apply bind_no_panic; [|done].
  apply (fold_result_no_panic (λ _, True)); auto using push_part_no_panic.
Qed.

Lemma map_absolute_no_panic host prefix cs : map_absolute host prefix cs ≠ Panic.
Proof.
  unfold map_absolute. apply bind_no_panic.
  - apply (fold_result_no_panic (λ _, True)); [done| |done]. intros acc root _.
    unfold push_candidate. apply bind_no_panic; [apply split_parts_no_panic|].
    intros [??] _. by case_match.
  - intros cands Hc. pose proof (candidates_spec _ _ _ _ _ _ Hc) as Hspec.
    destruct (sort_by longest_first cands) as [|[root len] others] eqn:Hs; [done|].
    case_match; [done|].
    assert (Hin : (root, len) ∈ cands).
    { rewrite <-(sort_by_Permutation longest_first), Hs. left. }
    apply Hspec in Hin as [?%elem_of_nil|[_ (?&rps&_&_&[rel ->]&->)]]; [done|].
    rewrite slice_from_ok by (rewrite length_app; lia). apply execution_path_new_no_panic.
Qed.

Lemma resolve_path_no_panic host cwd value : resolve_path host cwd value ≠ Panic.
Proof.
  unfold resolve_path. apply bind_no_panic; [apply validate_cwd_no_panic|]. intros [] Hcwd.
  apply bind_no_panic; [apply split_parts_no_panic|]. intros [prefix cs] Hp.
  destruct (str_is_empty prefix); [apply execution_path_new_no_panic|].
  apply (map_absolute_no_panic host prefix cs).
Qed.

Lemma qualify_no_panic w base value : qualify w base value ≠ Panic.
Proof.
  unfold qualify. case_match; [done|].
  destruct (w && bool_decide (byte_at value 1 = Some COLON) && _) eqn:E; [|done].
  apply andb_true_iff in E as [[_ Hb%bool_decide_eq_true]%andb_true_iff _].
  apply byte_at_1_ascii in Hb as (c & s & -> & Hc); [|done].
  rewrite (str_slice_to_ascii [c; COLON] s) by (repeat constructor; done). step_result.
  case_match; [done|]. case_match; [done|].
  by rewrite (str_slice_from_ascii [c; COLON] s) by (repeat constructor; done).
Qed.

Lemma resolve_path_normalized_no_panic host cwd value : resolve_path_normalized host cwd value ≠ Panic.
Proof.
  unfold resolve_path_normalized.
  apply bind_no_panic; [apply validate_cwd_no_panic|]. intros [] _.
  apply bind_no_panic; [by destruct (List.find _ _)|]. intros root _.
  apply bind_no_panic; [apply split_parts_no_panic|]. intros [bp base] _.
  apply bind_no_panic; [apply qualify_no_panic|]. intros v _.
  apply bind_no_panic; [apply split_parts_no_panic|]. intros [prefix cs] _.
  destruct (str_is_empty prefix); apply resolve_path_no_panic.
Qed.

(** Neither resolver can panic, on any input: each byte slice they take lies on
    a character boundary and each component slice is in range. *)
Theorem resolve_never_panics (host : ExecutionHostDescriptor) (cwd : ExecutionPath) (value : str) :
  resolve_path host cwd value ≠ Panic ∧ resolve_path_normalized host cwd value ≠ Panic.
Proof.
  split; [apply resolve_path_no_panic|apply resolve_path_normalized_no_panic].
Qed.

(** Strict resolution refuses every POSIX path with a [..] segment, instead of
    collapsing it lexically through a possible symbolic link. *)
Theorem resolve_path_rejects_parent (host : ExecutionHostDescriptor) (cwd : ExecutionPath)
    (value : str) :
  path_convention host = ConvUnix →
  str! ".." ∈ split_char SLASH value →
  ∃ e, resolve_path host cwd value = Err e.
Proof.
  intros Hu Hdd%split_parts_unix_reject.
  destruct (resolve_path host cwd value) as [p|e|] eqn:H; [|by eauto|].
  - apply parts_prefix_cases in H as (_ & prefix & cs & Hp & _).
    unfold is_windows in Hp. rewrite bool_decide_false in Hp by (by rewrite Hu).
    by rewrite Hp in Hdd.
  - by apply resolve_path_no_panic in H.
Qed.

(** An absolute path resolves in the most specific registered root: the chosen
    root's components are a prefix of the path's, the rest is the portable path,
    and every other registered root above the path is strictly shorter. *)
Theorem resolve_path_most_specific (host : ExecutionHostDescriptor) (cwd : ExecutionPath)
    (value prefix : str) (cs : list str) (p : ExecutionPath) :
  parts value (is_windows host) = Ok (prefix, cs) → prefix ≠ [] →
  resolve_path host cwd value = Ok p →
  ∃ root rps rel, root ∈ roots host ∧ er_id root = root_id p ∧
    covers (is_windows host) prefix cs root (length rps) ∧ cs = rps ++ rel ∧
    path p = dot_if_empty (join [SLASH] rel) ∧
    ∀ root' n, root' ∈ roots host → covers (is_windows host) prefix cs root' n →
      root' = root ∨ n < length rps.
Proof.
  intros Hparts Hne (Hcwd & prefix' & cs' & Hparts' & H)%parts_prefix_cases.
  rewrite Hparts in Hparts'. simplify_eq.
  unfold str_is_empty in H. rewrite bool_decide_false in H by done.
  apply map_absolute_ok in H as (root & rps & rel & ? & ? & ? & -> & ? & ?).
  exists root, rps, rel. by split_and!.
Qed.

(** ** Normalized resolution on a POSIX host *)

Definition lexical_ok (s : str) : Prop := component_ok s ∧ s ≠ str! "..".

Lemma push_component_ok resolved c :
  Forall lexical_ok resolved → component_ok c → Forall lexical_ok (push_component resolved c).
Proof.
  intros Hr Hc. unfold push_component. destruct (str_eqb c (str! "..")) eqn:E.
  - by apply Forall_take.
  - apply Forall_app. split; [done|]. repeat constructor; try apply Hc.
    intros ->. by rewrite str_eqb_refl in E.
Qed.
Lemma foldl_push_component_ok resolved cs :
  Forall lexical_ok resolved → Forall component_ok cs →
  Forall lexical_ok (foldl push_component resolved cs).
Proof.
  intros Hr Hcs. revert resolved Hr.
  induction Hcs as [|c cs Hc _ IH]; intros resolved Hr; simpl; [done|].
  by apply IH, push_component_ok.
Qed.

(** The segments of a working directory. *)
Definition cwd_segments (cwd : ExecutionPath) : list str :=
  if str_eqb (path cwd) (str! ".") then [] else split_char SLASH (path cwd).

Lemma cwd_segments_ok cwd : valid cwd → Forall lexical_ok (cwd_segments cwd).
Proof.
  unfold cwd_segments. intros Hv%execution_path_valid_portable.
  destruct (str_eqb _ _) eqn:E; [constructor|].
  destruct Hv as [Hd|(segs & Hne & Hp & Hs & _)].
  - rewrite Hd, str_eqb_refl in E. done.
  - rewrite Hp, split_char_join; [|done|].
    + eapply Forall_impl; [done|].
      unfold safe_segment, lexical_ok, component_ok, significant. naive_solver.
    + eapply Forall_impl; [done|]. unfold safe_segment. naive_solver.
Qed.

Lemma map_absolute_single host root rps cs :
  path_convention host = ConvUnix → roots host = [root] →
  parts (native_path root) false = Ok (str! "/", rps) →
  map_absolute host (str! "/") cs =
    if list_starts_with cs rps
    then execution_path_new (er_id root) (dot_if_empty (join [SLASH] (drop (length rps) cs)))
    else Err (error PathOutsideRoot
      (str! "absolute path is outside the host's registered roots (use the advertised root spelling)")).
Proof.
  intros Hu Hroots Hroot. unfold map_absolute, is_windows. rewrite Hu, Hroots.
  rewrite bool_decide_false by done. cbn [fold_result]. unfold push_candidate.
  rewrite Hroot. step_result. rewrite str_eqb_refl. step_result.
  destruct (list_starts_with cs rps) eqn:E; step_result; [|done].
  apply list_starts_with_spec in E as [rel ->].
  cbn [app sort_by foldr insert_by next_has_length]. by rewrite slice_from_ok by (rewrite length_app; lia).
Qed.

(** On a POSIX host with one root, normalized resolution is lexical
    normalisation followed by containment: [..] pops a component (never above the
    native root [/]), and the result resolves exactly when the normalised native
    path lies inside the registered root. *)
Theorem resolve_path_normalized_unix (host : ExecutionHostDescriptor) (cwd : ExecutionPath)
    (root : ExecutionRoot) (rps : list str) (value : str) :
  path_convention host = ConvUnix → roots host = [root] → er_id root = root_id cwd →
  valid cwd → parts (native_path root) false = Ok (str! "/", rps) → NUL ∉ value →
  let target := foldl push_component
    (if starts_with [SLASH] value then [] else rps ++ cwd_segments cwd) (components value) in
  resolve_path_normalized host cwd value =
    if list_starts_with target rps
    then execution_path_new (er_id root) (dot_if_empty (join [SLASH] (drop (length rps) target)))
    else Err (error PathOutsideRoot
      (str! "absolute path is outside the host's registered roots (use the advertised root spelling)")).
Proof.
  intros Hu Hroots Hid Hv Hroot Hnul target.
  assert (Hcwd : validate_cwd host cwd = Ok tt).
  { apply validate_cwd_ok. split; [done|]. rewrite Hroots. simpl. rewrite Hid. left. }
  pose proof (parts_unix_inv _ _ _ Hroot) as (Hn0 & Hn1 & Hn2 & Habs & Hrps).
  assert (Htarget : Forall lexical_ok target).
  { apply foldl_push_component_ok; [|by apply components_ok].
    case_match; [constructor|]. apply Forall_app. split; [|by apply cwd_segments_ok].
    rewrite Hrps. pose proof (components_ok _ Hn1) as Hok. rewrite !Forall_forall in *.
    intros s Hs. split; [by apply Hok|]. intros ->. apply Hn2.
    unfold components in Hs. by apply list_elem_of_filter in Hs as [_ ?]. }
  unfold resolve_path_normalized. rewrite Hcwd. step_result.
  unfold is_windows. rewrite Hu, bool_decide_false by done.
  rewrite Hroots. cbn [List.find]. rewrite bool_decide_true by done. step_result.
  rewrite split_parts_unix by done. rewrite <-Habs, <-Hrps. step_result.
  set (v := if str_is_empty value then str! "." else value).
  assert (v ≠ [] ∧ NUL ∉ v ∧ absolute_prefix v = absolute_prefix value
          ∧ components v = components value) as (Hv0 & Hv1 & Hv2 & Hv3).
  { unfold v, str_is_empty. case_bool_decide as E; [|done]. rewrite E.
    split_and!; try done. by rewrite <-contains_char_false. }
  change (qualify false (str! "/") v) with (Ok (E:=ExecutionError) v). step_result.
  rewrite split_parts_unix by done. rewrite Hv2, Hv3. step_result.
  assert ((if str_is_empty (absolute_prefix value)
      then (str! "/", if negb (str_eqb (path cwd) (str! "."))
                      then rps ++ split_char SLASH (path cwd) else rps)
      else (absolute_prefix value, [])) =
      (str! "/", if starts_with [SLASH] value then [] else rps ++ cwd_segments cwd)) as ->.
  { unfold absolute_prefix, cwd_segments. destruct (starts_with _ _); [done|].
    simpl. destruct (str_eqb _ _); simpl; [by rewrite app_nil_r|done]. }
  rewrite str_eqb_refl. fold target.
  change (format! [str! "/"; join [SLASH] target]) with (SLASH :: (join [SLASH] target ++ [])).
  rewrite app_nil_r.
  rewrite (resolve_path_absolute _ _ _ (str! "/") target).
  - by apply map_absolute_single.
  - done.
  - unfold is_windows. rewrite Hu, bool_decide_false by done. apply parts_absolute.
    + eapply Forall_impl; [done|]. by intros s [??].
    + rewrite Forall_forall in Htarget. by intros [_ ?]%Htarget.
  - done.
Qed.

(** ** Witnesses *)

Definition sample_cwd : ExecutionPath := {| root_id := memory_root; path := str! "src" |}.
Lemma resolve_path_sound_witness :
  portable_path (str! "a/b") ∧ memory_root ∈ er_id <$> roots memory_descriptor.
Proof.
  exact (resolve_path_sound memory_descriptor sample_cwd (str! "/work/a//b")
    {| root_id := memory_root; path := str! "a/b" |} ltac:(vm_compute; reflexivity)).
Defined.
Lemma resolve_path_rejects_parent_witness :
  ∃ e, resolve_path memory_descriptor sample_cwd (str! "a/../b") = Err e.
Proof.
  apply resolve_path_rejects_parent; [reflexivity|]. vm_compute. right. left.
Defined.
Lemma resolve_path_most_specific_witness :
  ∃ root, root ∈ roots memory_descriptor ∧ er_id root = memory_root.
Proof.
  destruct (resolve_path_most_specific memory_descriptor sample_cwd (str! "/work/a") (str! "/")
    [str! "work"; str! "a"] {| root_id := memory_root; path := str! "a" |}
    ltac:(vm_compute; reflexivity) ltac:(discriminate) ltac:(vm_compute; reflexivity))
    as (root & rps & rel & Hin & Hid & _).
  by exists root.
Defined.
Lemma resolve_path_normalized_unix_witness :
  resolve_path_normalized memory_descriptor sample_cwd (str! "../x")
  = execution_path_new memory_root (str! "x").
Proof.
  rewrite (resolve_path_normalized_unix memory_descriptor sample_cwd
    {| er_id := memory_root; er_name := str! "work"; native_path := str! "/work"; read_only := false |}
    [str! "work"] (str! "../x")); try (vm_compute; reflexivity).
  vm_compute. set_solver.
Defined.
