(* ===== verification/FilePages.v ===== *)
(** Reading a file in pages: what a reader may rely on, and how consistent pages
    make up one content.  The edit and read tools read this way. *)
From Stdlib Require Import ZifyBool.
From stdpp Require Import prelude gmap strings pretty list.
From S2P Require Import Prelude.
From S2P Require Import Text.
From S2P Require Import Core.
From S2P Require Import Host.

(** A page that names a revision is a window of a content of that revision, and
    tells its size.  [contents] relates revisions to contents; on a real host it is
    the digest, so that two contents may share a revision. *)
Class ReadsSnapshots {W : Type} `{!ExecutionRuntime W} (contents : FileRevision → bytes → Prop) : Prop :=
  read_snapshot : ∀ c req w rep w' rev,
    fs_read c req w = (Ok rep, w') → revision (rr_metadata rep) = Some rev →
    ∃ data, contents rev data ∧ size (rr_metadata rep) = N.of_nat (length data) ∧
      rr_data rep = take (N.to_nat (rd_max_bytes req)) (drop (N.to_nat (rd_offset req)) data).

(** No two contents of a revision. *)
Definition tells_apart (contents : FileRevision → bytes → Prop) (rev : FileRevision) : Prop :=
  ∀ d d', contents rev d → contents rev d' → d = d'.

Section pages.
Context (contents : FileRevision → bytes → Prop) (rev : FileRevision) (Hrev : tells_apart contents rev).

(** What has been read so far of the content. *)
Definition read_part (acc : bytes) : Prop := acc = [] ∨ ∃ data, contents rev data ∧ acc = take (length acc) data.

Lemma read_part_page acc data max (page : bytes) :
  contents rev data → read_part acc → page = take max (drop (length acc) data) →
  acc ++ page = take (length (acc ++ page)) data.
Proof.
  intros Hd Hp ->. assert (Hacc : acc = take (length acc) data).
  { destruct Hp as [->|(d & Hd' & H)]; [done|]. by rewrite (Hrev _ _ Hd Hd'). }
  rewrite length_app, <-take_take_drop, <-Hacc. f_equal. rewrite length_take.
  destruct (Nat.le_ge_cases max (length (drop (length acc) data))).
  - by rewrite Nat.min_l.
  - by rewrite Nat.min_r, !take_ge.
Qed.
Lemma read_part_whole (acc data : bytes) :
  acc = take (length acc) data → length acc = length data → acc = data.
Proof. intros -> Hl. apply take_ge. rewrite length_take in Hl. lia. Qed.
End pages.
