(* ===== verification/TextEdit.v ===== *)
(** Exact text replacement, [platform/packages/tools/edit/src/matching.rs]: the
    string searches of the standard library it uses, the replacement with its
    checkpoints and size arithmetic, and its equivalence with a reference that
    splits the source at the matches and joins the pieces.

    Positions are scalar values of the source: a match of a [str] in a [str] starts
    and ends at character boundaries.  Sizes are UTF-8 bytes. *)
From Stdlib Require Import ZifyBool.
From stdpp Require Import prelude gmap strings pretty list.
From S2P Require Import Prelude.
From S2P Require Import Text.
From S2P Require Import Core.
From S2P Require Import Host.
From S2P Require Import MemoryHost.

(** ** Searching *)

(** [str::find(&str)] and [str::contains(&str)]. *)
Fixpoint find (pat s : str) : option nat :=
  if starts_with pat s then Some 0
  else match s with [] => None | _ :: s => S <$> find pat s end.
Definition contains (pat s : str) : bool := bool_decide (is_Some (find pat s)).
(** The positions of [str::match_indices]: from the left, not overlapping.  An empty
    pattern matches at every boundary.  Each match moves past at least one
    character, so the fuel is one more than the length. *)
Fixpoint match_indices_from (fuel : nat) (pat : str) (at_ : nat) (s : str) : list nat :=
  match fuel with
  | 0 => []
  | S fuel =>
    match find pat s with
    | None => []
    | Some i =>
      let next := i + Nat.max 1 (length pat) in
      (at_ + i) :: (if next <=? length s then match_indices_from fuel pat (at_ + next) (drop next s) else [])
    end
  end.
Definition match_indices (s pat : str) : list nat := match_indices_from (S (length s)) pat 0 s.

(** ** Replacing *)

Definition edit_error (c : ExecutionErrorCode) (m : str) : ExecutionError :=
  with_detail (str! "source") (VString (str! "tool-edit")) (ExecutionError_new c m).
Definition size_overflow : ExecutionError := edit_error ResourceExhausted (str! "edit size overflow").
Definition not_found_error : ExecutionError :=
  edit_error InvalidRequest
    (str! "old_string was not found; it must match exactly, including whitespace and line endings").
Definition ambiguous_error : ExecutionError :=
  edit_error InvalidRequest
    (str! "old_string has multiple matches; provide more context or set replace_all to true").
Definition too_large_error : ExecutionError :=
  edit_error ResourceExhausted (str! "edited file exceeds the configured or host write size limit").

Section replace.
Context {W : Type} `{!World W}.

Fixpoint count_matches (context : OperationContext) (all : bool) (ms : list nat) (count : N) : M W N :=
  match ms with
  | [] => mret count
  | _ :: ms =>
    _ ← checkpointM context;
    if all then count_matches context all ms (count + 1) else mret (count + 1)%N
  end.
Fixpoint splice_matches (context : OperationContext) (source old new : str) (all : bool)
    (ms : list nat) (cursor : nat) (output : str) : M W (nat * str) :=
  match ms with
  | [] => mret (cursor, output)
  | index :: ms =>
    _ ← checkpointM context;
    between ← lift (slice source cursor index);
    let output := output ++ between ++ new in
    let cursor := index + length old in
    if all then splice_matches context source old new all ms cursor output else mret (cursor, output)
  end.

(** The size of the result, before it is made; [usize] has the width of [u64], and
    the memory reservation is taken to succeed. *)
Definition edited_size (source old new : str) (count max_bytes : N) : ExecutionResult N :=
  removed ← ok_or size_overflow (u64_checked_mul count (N.of_nat (utf8_len old)));
  size ← ok_or size_overflow
    (n ← u64_checked_sub (N.of_nat (utf8_len source)) removed;
     added ← u64_checked_mul count (N.of_nat (utf8_len new));
     u64_checked_add n added);
  if (max_bytes <? size)%N then Err too_large_error else Ok size.

Definition replace (context : OperationContext) (source old new : str) (all : bool) (max_bytes : N)
  : M W (str * N) :=
  _ ← checkpointM context;
  first ← lift (ok_or not_found_error (find old source));
  _ ← (if all then mret tt
       else
         rest ← lift (slice_from source first);
         _ ← lift (or_panic (head rest));
         rest ← lift (slice_from source (S first));
         if contains old rest then throw ambiguous_error else mret tt);
  count ← count_matches context all (match_indices source old) 0;
  _ ← lift (edited_size source old new count max_bytes);
  '(cursor, output) ← splice_matches context source old new all (match_indices source old) 0 [];
  rest ← lift (slice_from source cursor);
  _ ← checkpointM context;
  mret (output ++ rest, count).
End replace.

(** ** The reference

    The pieces of the source around the matches ([str::split]), the positions where
    the text occurs, overlapping ones included, and the replacement they define. *)
Fixpoint split_fuel (fuel : nat) (pat s : str) : list str :=
  match fuel with
  | 0 => [s]
  | S fuel =>
    match find pat s with
    | None => [s]
    | Some i => take i s :: split_fuel fuel pat (drop (i + length pat) s)
    end
  end.
Definition split_str (pat s : str) : list str := split_fuel (S (length s)) pat s.
Definition occurrences (pat s : str) : list nat :=
  filter (λ i, starts_with pat (drop i s) = true) (seq 0 (length s)).
Definition replace_reference (source old new : str) (all : bool) (max_bytes : N) : ExecutionResult (str * N) :=
  match occurrences old source with
  | [] => Err not_found_error
  | here =>
    if negb all && (1 <? length here) then Err ambiguous_error
    else
      let pieces := split_str old source in
      let output := join new pieces in
      let size := N.of_nat (utf8_len output) in
      if (u64_max <? size)%N then Err size_overflow
      else if (max_bytes <? size)%N then Err too_large_error
      else Ok (output, N.of_nat (length pieces - 1))
  end.

Example replace_reference_all :
  replace_reference (str! "aXbXX") (str! "X") (str! "--") true 100 = Ok (str! "a--b----", 3%N).
Proof. reflexivity. Qed.
Example replace_reference_overlap :
  replace_reference (str! "aaa") (str! "aa") (str! "b") false 100 = Err ambiguous_error ∧
  replace_reference (str! "aaa") (str! "aa") (str! "b") true 100 = Ok (str! "ba", 1%N).
Proof. split; reflexivity. Qed.

(** ** Searches *)

Lemma starts_with_length pat s : starts_with pat s = true → length pat ≤ length s.
Proof. intros (t & ->)%starts_with_spec. rewrite length_app. lia. Qed.
Lemma find_Some pat s i :
  find pat s = Some i ↔
  i ≤ length s ∧ starts_with pat (drop i s) = true ∧ ∀ j, j < i → starts_with pat (drop j s) = false.
Proof.
  revert i. induction s as [|c s IH]; intros i; cbn [find].
  - destruct (starts_with pat []) eqn:E; split.
    + intros [= <-]. split_and!; [done|done|lia].
    + intros (Hi & _ & _). simpl in Hi. by replace i with 0 by lia.
    + done.
    + intros (Hi & H & _). rewrite drop_nil in H. congruence.
  - destruct (starts_with pat (c :: s)) eqn:E; split.
    + intros [= <-]. split_and!; [simpl; lia|done|lia].
    + intros (_ & _ & Hmin). destruct i; [done|]. specialize (Hmin 0 ltac:(lia)). simpl in Hmin. congruence.
    + intros (j & Hj & ->)%fmap_Some. apply IH in Hj as (? & ? & Hmin). split_and!; [simpl; lia|done|].
      intros [|k] Hk; [done|]. simpl. apply Hmin. lia.
    + intros (Hi & H & Hmin). destruct i as [|i]; [simpl in H; congruence|]. simpl in *.
      apply fmap_Some. exists i. split; [|done]. apply IH. split_and!; [lia|done|].
      intros j Hj. apply (Hmin (S j)). lia.
Qed.
Lemma find_None pat s : find pat s = None ↔ ∀ j, j ≤ length s → starts_with pat (drop j s) = false.
Proof.
  destruct (find pat s) as [i|] eqn:E.
  - apply find_Some in E as (Hi & H & _). split; [done|]. intros Hn. rewrite (Hn i Hi) in H. done.
  - split; [|done]. intros _. revert E. induction s as [|c s IH]; intros E j Hj; cbn [find] in E.
    + destruct (starts_with pat []) eqn:H; [done|]. by rewrite drop_nil.
    + destruct (starts_with pat (c :: s)) eqn:H; [done|]. destruct j as [|j]; [done|].
      destruct (find pat s); [done|]. apply (IH eq_refl). simpl in *; lia.
Qed.

Lemma filter_fmap {A B} (P : B → Prop) `{!∀ b, Decision (P b)} (f : A → B) (l : list A) :
  filter P (f <$> l) = f <$> filter (λ a, P (f a)) l.
Proof. induction l as [|a l IH]; [done|]. cbn [fmap list_fmap]. rewrite !filter_cons, IH. by case_decide. Qed.

Section pattern.
Context (pat : str) (Hpat : pat ≠ []).

Lemma starts_with_nil : starts_with pat [] = false.
Proof. by destruct pat. Qed.
Lemma occurrences_cons c s :
  occurrences pat (c :: s) = (if starts_with pat (c :: s) then [0] else []) ++ (S <$> occurrences pat s).
Proof.
  unfold occurrences. cbn [length seq]. rewrite filter_cons.
  replace (filter (λ i, starts_with pat (drop i (c :: s)) = true) (seq 1 (length s)))
    with (S <$> filter (λ i, starts_with pat (drop i s) = true) (seq 0 (length s))).
  - cbn [drop]. by case_decide; destruct (starts_with pat (c :: s)).
  - by rewrite <-fmap_S_seq, filter_fmap.
Qed.
Lemma find_occurrences s : find pat s = head (occurrences pat s).
Proof.
  induction s as [|c s IH]; cbn [find]; [by rewrite starts_with_nil|]. rewrite occurrences_cons.
  destruct (starts_with pat (c :: s)); [done|]. rewrite IH. by destruct (occurrences pat s).
Qed.
Lemma occurrences_after s i :
  find pat s = Some i → occurrences pat s = i :: ((λ j, S i + j) <$> occurrences pat (drop (S i) s)).
Proof.
  revert i. induction s as [|c s IH]; intros i; cbn [find]; [by rewrite starts_with_nil|].
  rewrite occurrences_cons. destruct (starts_with pat (c :: s)); [by intros [= <-]|].
  intros (j & Hj & ->)%fmap_Some. rewrite (IH j Hj). cbn [app fmap list_fmap drop]. f_equal.
  rewrite <-list_fmap_compose. by apply list_fmap_ext.
Qed.
Lemma occurrences_drop s k : length (occurrences pat (drop k s)) ≤ length (occurrences pat s).
Proof.
  revert k. induction s as [|c s IH]; intros [|k]; cbn [drop]; try done.
  rewrite occurrences_cons, length_app, length_fmap. specialize (IH k). lia.
Qed.

(** Where a match is found. *)
Lemma find_split s i :
  find pat s = Some i → s = take i s ++ pat ++ drop (i + length pat) s ∧ i + length pat ≤ length s ∧ 0 < length pat.
Proof.
  intros (Hi & (t & Ht)%starts_with_spec & _)%find_Some.
  assert (Hl : length (drop i s) = length pat + length t) by (by rewrite Ht, length_app).
  rewrite length_drop in Hl. split_and!; [|lia|destruct pat; [done|simpl; lia]].
  rewrite <-(take_drop i s) at 1. f_equal. by rewrite <-drop_drop, Ht, drop_app_length.
Qed.
Lemma match_indices_step fuel at_ s i :
  find pat s = Some i →
  match_indices_from (S fuel) pat at_ s
  = (at_ + i) :: match_indices_from fuel pat (at_ + (i + length pat)) (drop (i + length pat) s).
Proof.
  intros Hi. cbn [match_indices_from]. rewrite Hi. destruct (find_split s i Hi) as (_ & Hl & Hp).
  rewrite Nat.max_r by lia. f_equal. destruct (Nat.leb_spec (i + length pat) (length s)); [done|lia].
Qed.
Lemma match_indices_count fuel at_ s : length (match_indices_from fuel pat at_ s) ≤ length (occurrences pat s).
Proof.
  revert at_ s. induction fuel as [|fuel IH]; intros at_ s; [simpl; lia|].
  destruct (find pat s) as [i|] eqn:Hi; [|cbn [match_indices_from]; rewrite Hi; simpl; lia].
  rewrite (match_indices_step _ _ _ _ Hi), (occurrences_after _ _ Hi). simpl. rewrite length_fmap.
  destruct (find_split s i Hi) as (_ & _ & Hp).
  specialize (IH (at_ + (i + length pat)) (drop (i + length pat) s)).
  pose proof (occurrences_drop (drop (S i) s) (length pat - 1)) as Hd. rewrite drop_drop in Hd.
  replace (S i + (length pat - 1)) with (i + length pat) in Hd by lia. simpl in *. lia.
Qed.
(** There is a piece before each match and one after the last. *)
Lemma split_matches fuel at_ s :
  length (split_fuel fuel pat s) = S (length (match_indices_from fuel pat at_ s)).
Proof.
  revert at_ s. induction fuel as [|fuel IH]; intros at_ s; [done|].
  destruct (find pat s) as [i|] eqn:Hi; [|cbn; by rewrite Hi].
  rewrite (match_indices_step _ _ _ _ Hi). cbn [split_fuel]. rewrite Hi. simpl. f_equal. apply IH.
Qed.
Lemma split_join fuel s : join pat (split_fuel fuel pat s) = s.
Proof.
  revert s. induction fuel as [|fuel IH]; intros s; [done|]. cbn [split_fuel].
  destruct (find pat s) as [i|] eqn:Hi; [|done]. destruct (find_split s i Hi) as (Hs & _ & _).
  rewrite join_cons by by destruct fuel; cbn [split_fuel]; [|case_match]. rewrite IH. by rewrite <-Hs.
Qed.
End pattern.

(** ** Sizes *)

Lemma utf8_len_join sep ps :
  ps ≠ [] → utf8_len (join sep ps) = sum_list (utf8_len <$> ps) + (length ps - 1) * utf8_len sep.
Proof.
  induction ps as [|p ps IH]; intros Hne; [done|]. destruct (decide (ps = [])) as [->|Hp]; [simpl; lia|].
  rewrite join_cons, !utf8_len_app, IH by done. destruct ps as [|q ps]; [done|].
  cbn [fmap list_fmap length sum_list_with]. unfold id. rewrite !Nat.sub_succ, !Nat.sub_0_r. cbn [Nat.mul]. lia.
Qed.

Section refinement.
Context {W : Type} `{!World W}.
Context (context : OperationContext) (source old new : str) (Hold : old ≠ []).

Lemma count_yields ms n : yields (W:=W) (count_matches context true ms n) (Ok (n + N.of_nat (length ms))%N).
Proof.
  revert n. induction ms as [|m ms IH]; intros n; cbn [count_matches length].
  - rewrite N.add_0_r. apply yields_ret.
  - eapply yields_bind; [apply yields_checkpoint|].
    replace (n + N.of_nat (S (length ms)))%N with (n + 1 + N.of_nat (length ms))%N by lia. apply IH.
Qed.
(** What is already in the output and the source from the cursor on, when the
    remaining matches have been replaced. *)
Lemma splice_yields fuel at_ out :
  at_ ≤ length source →
  ∃ cursor out', cursor ≤ length source ∧
    yields (W:=W) (splice_matches context source old new true
                     (match_indices_from fuel old at_ (drop at_ source)) at_ out) (Ok (cursor, out')) ∧
    out' ++ drop cursor source = out ++ join new (split_fuel fuel old (drop at_ source)).
Proof.
  revert at_ out. induction fuel as [|fuel IH]; intros at_ out Hat.
  { exists at_, out. split; [done|]. split; [apply yields_ret|done]. }
  destruct (find old (drop at_ source)) as [i|] eqn:Hi.
  - destruct (find_split old Hold _ i Hi) as (Hs & Hl & _). rewrite length_drop in Hl.
    rewrite (match_indices_step old Hold _ _ _ _ Hi). cbn [split_fuel splice_matches]. rewrite Hi.
    rewrite drop_drop in *. rewrite !Nat.add_assoc in *.
    destruct (IH (at_ + i + length old) (out ++ take i (drop at_ source) ++ new)) as (cursor & out' & Hc & Hy & Ho); [lia|].
    exists cursor, out'. split; [done|]. split.
    + eapply yields_bind; [apply yields_checkpoint|].
      rewrite slice_ok by lia. replace (at_ + i - at_) with i by lia.
      eapply yields_bind; [apply yields_lift|]. exact Hy.
    + rewrite Ho, <-!(assoc_L (++)). f_equal. rewrite join_cons; [done|].
      by destruct fuel; cbn [split_fuel]; [|case_match].
  - cbn [match_indices_from split_fuel splice_matches]. rewrite Hi. exists at_, out.
    split; [done|]. split; [apply yields_ret|done].
Qed.
(** Stopping at the first of one match is not stopping early. *)
Lemma first_of_one {A} all (ms : list A) : (all = true ∨ length ms ≤ 1) → all = true ∨ ms = [] ∨ ∃ m, ms = [m].
Proof. intros [|H]; [by left|right]. destruct ms as [|m [|? ?]]; [by left|right; by exists m|simpl in H; lia]. Qed.
Lemma count_all all ms n :
  (all = true ∨ length ms ≤ 1) → count_matches (W:=W) context all ms n = count_matches context true ms n.
Proof. intros [->|[->|[m ->]]]%first_of_one; [done..|]. by destruct all. Qed.
Lemma splice_all all ms cursor out :
  (all = true ∨ length ms ≤ 1) →
  splice_matches (W:=W) context source old new all ms cursor out
  = splice_matches context source old new true ms cursor out.
Proof. intros [->|[->|[m ->]]]%first_of_one; [done..|]. by destruct all. Qed.

Lemma edited_size_reference pieces max_bytes :
  join old pieces = source → pieces ≠ [] → in_u64 (N.of_nat (utf8_len source)) →
  let size := N.of_nat (utf8_len (join new pieces)) in
  edited_size source old new (N.of_nat (length pieces - 1)) max_bytes
  = if (u64_max <? size)%N then Err size_overflow
    else if (max_bytes <? size)%N then Err too_large_error else Ok size.
Proof.
  intros Hj Hne Hu size. unfold in_u64 in Hu.
  assert (Hs : utf8_len source = sum_list (utf8_len <$> pieces) + (length pieces - 1) * utf8_len old)
    by (by rewrite <-Hj, utf8_len_join).
  assert (Ho : utf8_len (join new pieces) = sum_list (utf8_len <$> pieces) + (length pieces - 1) * utf8_len new)
    by (by rewrite utf8_len_join).
  unfold edited_size, u64_checked_mul, u64_checked_sub, u64_checked_add. rewrite <-!Nat2N.inj_mul.
  destruct (N.leb_spec (N.of_nat ((length pieces - 1) * utf8_len old)) u64_max); [|lia]. cbn.
  destruct (N.leb_spec (N.of_nat ((length pieces - 1) * utf8_len old)) (N.of_nat (utf8_len source))); [|lia]. cbn.
  rewrite Hs. replace (N.of_nat (sum_list (utf8_len <$> pieces) + (length pieces - 1) * utf8_len old)
    - N.of_nat ((length pieces - 1) * utf8_len old))%N with (N.of_nat (sum_list (utf8_len <$> pieces))) by lia.
  subst size. destruct (N.leb_spec (N.of_nat ((length pieces - 1) * utf8_len new)) u64_max) as [Hm|Hm]; cbn.
  - rewrite <-Nat2N.inj_add, <-Ho.
    destruct (N.leb_spec (N.of_nat (utf8_len (join new pieces))) u64_max), (N.ltb_spec u64_max (N.of_nat (utf8_len (join new pieces)))); try lia; done.
  - destruct (N.ltb_spec u64_max (N.of_nat (utf8_len (join new pieces)))); [done|lia].
Qed.
Lemma contains_after first :
  find old source = Some first → contains old (drop (S first) source) = (1 <? length (occurrences old source)).
Proof.
  intros Hf. rewrite (occurrences_after old Hold _ _ Hf). unfold contains. rewrite (find_occurrences old Hold).
  destruct (occurrences old (drop (S first) source)); done.
Qed.

Lemma replace_yields (all : bool) (max_bytes : N) :
  in_u64 (N.of_nat (utf8_len source)) →
  yields (W:=W) (replace context source old new all max_bytes) (replace_reference source old new all max_bytes).
Proof.
  intros Hu. unfold replace. eapply yields_bind; [apply yields_checkpoint|].
  unfold replace_reference. rewrite (find_occurrences old Hold).
  destruct (occurrences old source) as [|first more] eqn:Hocc; [by apply yields_bind_err, yields_lift|].
  assert (Hf : find old source = Some first) by (by rewrite (find_occurrences old Hold), Hocc).
  eapply yields_bind; [apply yields_lift|]. rewrite <-Hocc.
  destruct (find_split old Hold _ _ Hf) as (Hs & Hl & Hp).
  assert (Hcheck : yields (W:=W)
    (if all then mret tt
     else rest ← lift (slice_from source first); _ ← lift (or_panic (head rest));
          rest ← lift (slice_from source (S first));
          if contains old rest then throw ambiguous_error else mret tt)
    (if negb all && (1 <? length (occurrences old source)) then Err ambiguous_error else Ok tt)).
  { destruct all; [apply yields_ret|]. rewrite (slice_from_ok source first) by lia.
    eapply yields_bind; [apply yields_lift|].
    assert (Hd : drop first source ≠ []) by (intros H; apply (f_equal length) in H; rewrite length_drop in H; simpl in H; lia).
    destruct (drop first source) as [|c rest] eqn:Hdrop; [done|]. eapply yields_bind; [apply yields_lift|].
    rewrite (slice_from_ok source (S first)) by lia. eapply yields_bind; [apply yields_lift|].
    rewrite (contains_after _ Hf). cbn [negb andb]. by destruct (1 <? _); left. }
  destruct (negb all && (1 <? length (occurrences old source))) eqn:Hamb; [by apply yields_bind_err|].
  eapply yields_bind; [exact Hcheck|].
  assert (Hone : all = true ∨ length (match_indices source old) ≤ 1).
  { apply andb_false_iff in Hamb as [Ha|Ha]; [left; by destruct all|right]. apply Nat.ltb_ge in Ha.
    etrans; [apply (match_indices_count old Hold)|done]. }
  rewrite count_all by done. eapply yields_bind; [apply count_yields|].
  pose proof (split_matches old Hold (S (length source)) 0 source) as Hlen.
  fold (match_indices source old) in Hlen. fold (split_str old source) in Hlen.
  replace (0 + N.of_nat (length (match_indices source old)))%N with (N.of_nat (length (split_str old source) - 1)) by lia.
  assert (Hne : split_str old source ≠ []) by (by intros H; rewrite H in Hlen).
  rewrite (edited_size_reference (split_str old source)) by (done || apply split_join; done). cbv zeta.
  destruct (u64_max <? _)%N; [by apply yields_bind_err, yields_lift|].
  destruct (max_bytes <? _)%N; [by apply yields_bind_err, yields_lift|].
  eapply yields_bind; [apply yields_lift|]. rewrite splice_all by done.
  destruct (splice_yields (S (length source)) 0 []) as (cursor & out' & Hc & Hy & Ho); [lia|].
  rewrite drop_0 in Hy, Ho. eapply yields_bind; [exact Hy|]. cbn beta iota.
  rewrite slice_from_ok by done. eapply yields_bind; [apply yields_lift|].
  eapply yields_bind; [apply yields_checkpoint|]. rewrite Ho. apply yields_ret.
Qed.
(** C31. Replacing exact text.  Unless a checkpoint stops it, the replacement computes
    the reference: the text that does not occur is refused, and so is one that
    occurs twice, overlapping occurrences included, when a single replacement is
    asked for; otherwise the source is split at its matches from the left and the
    pieces are joined with the new text, the matches are counted, and a result
    above the limit is refused.  No slice is out of range and no size overflows
    unnoticed. *)
Theorem replace_meets_reference (all : bool) (max_bytes : N) :
  in_u64 (N.of_nat (utf8_len source)) →
  yields (W:=W) (replace context source old new all max_bytes) (replace_reference source old new all max_bytes).
Proof. apply replace_yields. Qed.
End refinement.

#[local] Existing Instances memory_world.
(** One of two overlapping occurrences of [aa] in [aaab] is replaced. *)
Lemma replace_meets_reference_witness :
  yields (W:=MemoryWorld)
    (replace {| cancellation := 0; deadline := None |}
       (str! "aaab") (str! "aa") (str! "c") true 100)
    (Ok (str! "cab", 1%N)).
Proof.
  exact (replace_meets_reference (W:=MemoryWorld) _ (str! "aaab") (str! "aa") (str! "c") ltac:(done) true 100
           ltac:(vm_compute; done)).
Defined.
