(* ===== verification/WriteTool.v ===== *)
(** The write tool, [platform/packages/tools/write/src/lib.rs]: whole-file writes
    under the caller's operation identity and the revision it has seen. *)
From Stdlib Require Import ZifyBool.
From stdpp Require Import prelude gmap strings pretty list.
From S2P Require Import Prelude.
From S2P Require Import Text.
From S2P Require Import Core.
From S2P Require Import Host.
From S2P Require Import PathTool.

(** [serde_json::to_string] of a string. *)
Class JsonString := json_string : str → str.

(** ** Data *)

Record WriteInput := { wi_file_path : str; wi_content : str }.
Record ObservedFile := {
  of_host_id : ExecutionHostId;
  of_path : ExecutionPath;
  of_revision : FileRevision;
}.
Record WriteState := { ws_operation_id : OperationId; ws_observed : option ObservedFile }.
Record WriteConfig := { max_content_bytes : N }.
Definition WriteConfig_default : WriteConfig := {| max_content_bytes := 16 * 1024 * 1024 |}.
Record WriteOutput := {
  wo_host_id : ExecutionHostId;
  wo_path : ExecutionPath;
  wo_created : bool;
  wo_bytes_written : N;
  wo_revision : FileRevision;
}.
Definition wo_to_text {json : JsonString} (o : WriteOutput) : str :=
  format! [str! "Wrote "; show_N (wo_bytes_written o); str! " bytes to ";
    json_string (path (wo_path o)); str! " (root "; json_string (as_str (root_id (wo_path o))); str! ")."].
Definition wo_observation (o : WriteOutput) : ObservedFile :=
  {| of_host_id := wo_host_id o; of_path := wo_path o; of_revision := wo_revision o |}.

Definition write_error (c : ExecutionErrorCode) (m : str) : ExecutionError :=
  with_detail (str! "source") (VString (str! "tool-write")) (ExecutionError_new c m).
Definition with_message (m : str) (e : ExecutionError) : ExecutionError :=
  {| code := code e; message := m; retryable := retryable e; details := details e |}.

Record WriteTool := { wt_cwd : ExecutionPath; wt_config : WriteConfig }.

(** ** The tool *)

Section tool.
Context {W : Type} `{!World W, !ExecutionRuntime W}.
Abbreviation host := (rt_descriptor (W:=W)).

(** [WriteTool::new]. *)
Definition new_write_tool (cwd : ExecutionPath) (config : WriteConfig) : ExecutionResult WriteTool :=
  _ ← validate_cwd host cwd;
  if (max_content_bytes config =? 0)%N
  then Err (write_error InvalidRequest (str! "max_content_bytes must be positive"))
  else Ok {| wt_cwd := cwd; wt_config := config |}.

Context (self : WriteTool).
Definition write_resolve_path (file_path : str) : ExecutionResult ExecutionPath :=
  resolve_path host (wt_cwd self) file_path.

(** The root of a path is advertised as read-only. *)
Definition in_read_only_root (p : ExecutionPath) : bool :=
  existsb (λ root, bool_decide (er_id root = root_id p) && read_only root) (roots host).
Definition write_limit : N :=
  N.min (max_content_bytes (wt_config self)) (default u64_max (max_write_bytes (limits host))).
(** The condition a write is sent under. *)
Definition write_condition (p : ExecutionPath) (observed : option ObservedFile) : ExecutionResult WriteCondition :=
  match observed with
  | Some observation =>
    if negb (bool_decide (of_host_id observation = host_id host)) || negb (bool_decide (of_path observation = p))
    then Err (write_error InvalidRequest
                (str! "observed revision belongs to another host or path; read this file first"))
    else Ok (MatchRevision (of_revision observation))
  | None => Ok MustNotExist
  end.
Definition explain_failure (observed : bool) (failure : ExecutionError) : ExecutionError :=
  if negb observed && bool_decide (code failure = AlreadyExists) then
    with_message (format! [str! "File already exists; read it before overwriting. "; message failure]) failure
  else if bool_decide (code failure = RevisionConflict) then
    with_message (format! [str! "File changed since it was last observed; read it again before overwriting. ";
                           message failure]) failure
  else failure.

(** [WriteTool::execute]. *)
Definition execute (context : OperationContext) (input : WriteInput) (state : WriteState) : M W WriteOutput :=
  _ ← checkpointM context;
  p ← lift (write_resolve_path (wi_file_path input));
  let bytes := N.of_nat (utf8_len (wi_content input)) in
  if (write_limit <? bytes)%N then
    throw (write_error ResourceExhausted
      (format! [str! "content contains "; show_N bytes; str! " UTF-8 bytes; write limit is "; show_N write_limit]))
  else if str_eqb (path p) (str! ".") then
    throw (write_error IsDirectory (str! "cannot replace an execution root with a file"))
  else if in_read_only_root p then
    throw (write_error ReadOnlyRoot (str! "the selected execution root is read-only"))
  else
    let observed := bool_decide (is_Some (ws_observed state)) in
    condition ← lift (write_condition p (ws_observed state));
    result ← M_map_err (explain_failure observed)
      (fs_write context
         {| wr_expected_generation := None; wr_strategy := AtomicReplace;
            wr_operation_id := ws_operation_id state; wr_path := p;
            wr_data := utf8_encode (wi_content input); wr_condition := condition;
            wr_create_parents := true; wr_follow_symlinks := true |});
    if negb (bool_decide (wres_path result = p)) || negb (bytes_written result =? bytes)%N
       || negb (Bool.eqb (existed result) observed)
    then throw (write_error Internal
           (str! "host returned an inconsistent write result; the write may have completed"))
    else mret {| wo_host_id := host_id host; wo_path := p; wo_created := negb (existed result);
                 wo_bytes_written := bytes_written result; wo_revision := wres_revision result |}.
End tool.
