(* ===== verification/EditTool.v ===== *)
(** The edit tool, [platform/packages/tools/edit/src/{lib,content}.rs]: an edit is
    prepared from the observed revision of a file, read in checked pages, and
    applied by a conditional write that can be replayed. *)
From Stdlib Require Import ZifyBool.
From stdpp Require Import prelude gmap strings pretty list.
From S2P Require Import Prelude.
From S2P Require Import Text.
From S2P Require Import Core.
From S2P Require Import Host.
From S2P Require Import PathTool.
From S2P Require Import FilePages.
From S2P Require Import TextEdit.
From S2P Require Import WriteTool.

(** ** Data *)

Record EditInput := {
  ei_file_path : str;
  ei_old_string : str;
  ei_new_string : str;
  ei_replace_all : bool;
}.
Record EditConfig := { ec_max_file_bytes : N; ec_chunk_bytes : N }.
Definition EditConfig_default : EditConfig :=
  {| ec_max_file_bytes := 16 * 1024 * 1024; ec_chunk_bytes := 1024 * 1024 |}.
Record EditState := { es_operation_id : OperationId; es_observed : ObservedFile }.
Record PreparedEdit := { pe_state : EditState; pe_content : str; pe_replacements : N }.
Record EditOutput := {
  eo_host_id : ExecutionHostId;
  eo_path : ExecutionPath;
  eo_replacements : N;
  eo_bytes_written : N;
  eo_revision : FileRevision;
}.
Definition eo_observation (o : EditOutput) : ObservedFile :=
  {| of_host_id := eo_host_id o; of_path := eo_path o; of_revision := eo_revision o |}.
Definition eo_to_text {json : JsonString} (o : EditOutput) : str :=
  format! [str! "Replaced "; show_N (eo_replacements o); str! " occurrence";
    if (eo_replacements o =? 1)%N then [] else str! "s"; str! " in "; json_string (path (eo_path o));
    str! " (root "; json_string (as_str (root_id (eo_path o))); str! ")."].

Record EditTool := { et_cwd : ExecutionPath; et_config : EditConfig }.

Section tool.
Context {W : Type} `{!World W, !ExecutionRuntime W}.
Abbreviation host := (rt_descriptor (W:=W)).

(** [EditTool::new]. *)
Definition new_edit_tool (cwd : ExecutionPath) (config : EditConfig) : ExecutionResult EditTool :=
  _ ← validate_cwd host cwd;
  if (ec_max_file_bytes config =? 0)%N || (ec_chunk_bytes config =? 0)%N
  then Err (edit_error InvalidRequest (str! "edit size and chunk limits must be positive"))
  else Ok {| et_cwd := cwd; et_config := config |}.

(** ** Reading the observed file ([content.rs]) *)

(** The tests on the metadata of the file. *)
Definition check_metadata (observed : ObservedFile) (config : EditConfig) (metadata : FileMetadata)
  : ExecutionResult unit :=
  if negb (bool_decide (fm_path metadata = of_path observed)) then
    Err (edit_error Internal (str! "host returned metadata for a different path"))
  else if negb (bool_decide (kind metadata = File)) then
    Err (edit_error (if bool_decide (kind metadata = Directory) then IsDirectory else Unsupported)
           (str! "edit requires a regular UTF-8 text file"))
  else if negb (bool_decide (revision metadata = Some (of_revision observed))) then
    Err (edit_error RevisionConflict (str! "file changed since it was observed; read it again before editing"))
  else if (ec_max_file_bytes config <? size metadata)%N then
    Err (edit_error ResourceExhausted (str! "file exceeds the configured edit size limit"))
  else Ok tt.
(** The tests on one page: whether it is the last. *)
Definition check_page (observed : ObservedFile) (metadata : FileMetadata) (offset max_bytes : N)
    (reply : ReadFileResult) : ExecutionResult bool :=
  let data := rr_data reply in
  let len := N.of_nat (length data) in
  if negb (bool_decide (revision (rr_metadata reply) = Some (of_revision observed)))
     || negb (size (rr_metadata reply) =? size metadata)%N
  then Err (edit_error RevisionConflict (str! "file changed while preparing the edit; read it again"))
  else if negb (rr_offset reply =? offset)%N
     || negb (bool_decide (fm_path (rr_metadata reply) = of_path observed))
     || negb (bool_decide (kind (rr_metadata reply) = File))
     || (max_bytes <? len)%N
     || (bool_decide (data = []) && negb (rr_eof reply))
  then Err (edit_error Internal (str! "host returned an invalid file-read response"))
  else
    end_ ← ok_or (edit_error Internal (str! "file offset overflow")) (u64_checked_add offset len);
    if (size metadata <? end_)%N || negb (Bool.eqb (rr_eof reply) (end_ =? size metadata)%N)
    then Err (edit_error Internal (str! "host returned an inconsistent file-read EOF"))
    else if contains_char NUL data then
      Err (edit_error Unsupported (str! "file contains binary data (NUL); edit supports UTF-8 text only"))
    else Ok (rr_eof reply).
(** The loop of pages.  A page that is not the last adds a byte, so one more
    iteration than the size of the file is enough fuel. *)
Fixpoint read_pages (fuel : nat) (context : OperationContext) (observed : ObservedFile)
    (metadata : FileMetadata) (chunk : N) (acc : bytes) : M W bytes :=
  match fuel with
  | 0 => lift Panic
  | S fuel =>
    _ ← checkpointM context;
    let offset := N.of_nat (length acc) in
    let max_bytes := N.min chunk (N.max (u64_sat_sub (size metadata) offset) 1) in
    reply ← fs_read context {| rd_path := of_path observed; rd_offset := offset; rd_max_bytes := max_bytes;
                               rd_follow_symlinks := true |};
    _ ← checkpointM context;
    eof ← lift (check_page observed metadata offset max_bytes reply);
    if (eof : bool) then mret (acc ++ rr_data reply)
    else read_pages fuel context observed metadata chunk (acc ++ rr_data reply)
  end.
(** [content::read]. *)
Definition read_observed (context : OperationContext) (observed : ObservedFile) (config : EditConfig) : M W str :=
  metadata ← fs_stat context {| st_path := of_path observed; st_follow_symlinks := true |};
  _ ← checkpointM context;
  _ ← lift (check_metadata observed config metadata);
  let chunk := N.min (ec_chunk_bytes config) (default u64_max (max_read_bytes (limits host))) in
  if (chunk =? 0)%N then throw (edit_error Unsupported (str! "host advertised a zero read limit"))
  else
    data ← read_pages (S (N.to_nat (size metadata))) context observed metadata chunk [];
    lift (ok_or (edit_error Unsupported (str! "file is not valid UTF-8 text")) (utf8_decode data)).

(** ** Preparing and applying *)

Context (self : EditTool).
Definition edit_resolve_path (file_path : str) : ExecutionResult ExecutionPath :=
  resolve_path host (et_cwd self) file_path.
Definition validate_observation (observed : ObservedFile) : ExecutionResult unit :=
  if negb (bool_decide (of_host_id observed = host_id host)) then
    Err (edit_error InvalidRequest (str! "observed revision belongs to another host; read this file first"))
  else
    _ ← validate_cwd host (of_path observed);
    if str_eqb (path (of_path observed)) (str! ".") then
      Err (edit_error IsDirectory (str! "cannot edit an execution root"))
    else if in_read_only_root (W:=W) (of_path observed) then
      Err (edit_error ReadOnlyRoot (str! "the selected execution root is read-only"))
    else Ok tt.
(** The tests on the texts. *)
Definition check_texts (input : EditInput) : ExecutionResult unit :=
  if str_is_empty (ei_old_string input) then
    Err (edit_error InvalidRequest (str! "old_string must not be empty; use write to create or replace a file"))
  else if str_eqb (ei_old_string input) (ei_new_string input) then
    Err (edit_error InvalidRequest (str! "old_string and new_string are identical; no change to apply"))
  else if (ec_max_file_bytes (et_config self) <? N.of_nat (utf8_len (ei_old_string input)))%N
          || (ec_max_file_bytes (et_config self) <? N.of_nat (utf8_len (ei_new_string input)))%N then
    Err (edit_error ResourceExhausted (str! "edit text exceeds the configured file size limit"))
  else Ok tt.
Definition edit_limit : N :=
  N.min (ec_max_file_bytes (et_config self)) (default u64_max (max_write_bytes (limits host))).

(** [EditTool::prepare]. *)
Definition prepare (context : OperationContext) (input : EditInput) (state : EditState) : M W PreparedEdit :=
  _ ← checkpointM context;
  _ ← lift (check_texts input);
  p ← lift (edit_resolve_path (ei_file_path input));
  _ ← lift (validate_observation (es_observed state));
  if negb (bool_decide (p = of_path (es_observed state))) then
    throw (edit_error InvalidRequest (str! "observed revision belongs to another path; read this file first"))
  else
    source ← read_observed context (es_observed state) (et_config self);
    '(content, replacements) ←
      replace context source (ei_old_string input) (ei_new_string input) (ei_replace_all input) edit_limit;
    _ ← checkpointM context;
    mret {| pe_state := state; pe_content := content; pe_replacements := replacements |}.

(** [EditTool::apply]. *)
Definition apply (context : OperationContext) (prepared : PreparedEdit) : M W EditOutput :=
  _ ← checkpointM context;
  _ ← lift (validate_observation (es_observed (pe_state prepared)));
  if (pe_replacements prepared =? 0)%N then
    throw (edit_error InvalidRequest (str! "prepared edit must contain at least one replacement"))
  else
    let target := of_path (es_observed (pe_state prepared)) in
    writer ← lift (new_write_tool (W:=W) (ExecutionPath_root (root_id target))
                     {| max_content_bytes := ec_max_file_bytes (et_config self) |});
    result ← execute writer context {| wi_file_path := path target; wi_content := pe_content prepared |}
      {| ws_operation_id := es_operation_id (pe_state prepared);
         ws_observed := Some (es_observed (pe_state prepared)) |};
    mret {| eo_host_id := wo_host_id result; eo_path := wo_path result;
            eo_replacements := pe_replacements prepared; eo_bytes_written := wo_bytes_written result;
            eo_revision := wo_revision result |}.
End tool.

(** ** What is prepared *)

Lemma checked_metadata observed config metadata :
  check_metadata observed config metadata = Ok tt →
  fm_path metadata = of_path observed ∧ kind metadata = File ∧
  revision metadata = Some (of_revision observed) ∧ (size metadata ≤ ec_max_file_bytes config)%N.
Proof.
  unfold check_metadata. destruct (decide (fm_path metadata = of_path observed)) as [Hp|];
    [rewrite bool_decide_true by done|by rewrite bool_decide_false]. cbn [negb].
  destruct (decide (kind metadata = File)) as [Hk|];
    [rewrite bool_decide_true by done|by rewrite bool_decide_false]. cbn [negb].
  case_bool_decide; [|done]. cbn [negb]. destruct (N.ltb_spec (ec_max_file_bytes config) (size metadata)); done.
Qed.
Lemma checked_page observed metadata offset max reply eof :
  check_page observed metadata offset max reply = Ok eof →
  revision (rr_metadata reply) = Some (of_revision observed) ∧ size (rr_metadata reply) = size metadata ∧
  (eof = true → (offset + N.of_nat (length (rr_data reply)) = size metadata)%N) ∧
  (eof = false → rr_data reply ≠ [] ∧ (offset + N.of_nat (length (rr_data reply)) < size metadata)%N).
Proof.
  unfold check_page. cbv zeta. intros H. destruct (_ || _) eqn:E1 in H; [done|].
  destruct (_ || _ || _ || _ || _) eqn:E2 in H; [done|].
  apply bind_ok_inv in H as (e & Ha & H). unfold ok_or in Ha.
  destruct (u64_checked_add _ _) eqn:Ea; [|done]. injection Ha as ->.
  apply u64_checked_add_Some in Ea as [-> _].
  destruct (_ || _) eqn:E3 in H; [done|]. destruct (contains_char NUL _); [done|]. injection H as <-.
  rewrite !orb_false_iff, !negb_false_iff, ?bool_decide_eq_true, ?N.eqb_eq in *. destruct E1, E3 as [E3 E4].
  apply eqb_prop in E4. split_and!; [done..| |].
  - intros He. rewrite He in E4. symmetry in E4. by apply N.eqb_eq.
  - intros He. rewrite He in E2, E4. symmetry in E4. apply N.eqb_neq in E4. cbn [negb] in E2.
    rewrite andb_true_r in E2. destruct E2 as [_ Hne]. apply bool_decide_eq_false in Hne.
    split; [done|]. apply N.ltb_ge in E3. lia.
Qed.
Lemma check_page_no_panic observed metadata offset max reply : check_page observed metadata offset max reply ≠ Panic.
Proof.
  unfold check_page. cbv zeta. case_match; [done|]. case_match; [done|].
  apply bind_no_panic; [by destruct (u64_checked_add _ _)|]. intros. by repeat case_match.
Qed.

Section prepared.
Context {W : Type} `{!World W, !ExecutionRuntime W}.

(** The pages end: the fuel is never used up. *)
Lemma read_pages_safe `{!RuntimeSafe W} fuel context observed md chunk acc :
  N.to_nat (size md) - length acc < fuel → m_safe (read_pages (W:=W) fuel context observed md chunk acc).
Proof.
  revert acc. induction fuel as [|fuel IH]; intros acc Hf; [lia|]. cbn [read_pages]. cbv zeta.
  apply m_safe_bind'; [apply m_safe_checkpoint|]. intros _.
  apply m_safe_bind'; [apply read_safe|]. intros reply.
  apply m_safe_bind'; [apply m_safe_checkpoint|]. intros _.
  eapply (m_safe_bind _ _ (λ eof, check_page observed md (N.of_nat (length acc))
    (N.min chunk (N.max (u64_sat_sub (size md) (N.of_nat (length acc))) 1)) reply = Ok eof));
    [apply m_safe_lift, check_page_no_panic|by intros w a w' [= -> _]|].
  intros [] Heof%checked_page; [apply m_safe_ret|]. destruct Heof as (_ & _ & _ & Hmore).
  destruct (Hmore eq_refl) as [Hne Hlt]. apply IH. rewrite length_app.
  destruct (rr_data reply); [done|]. simpl in *. lia.
Qed.
Lemma read_observed_safe `{!RuntimeSafe W} context observed config :
  m_safe (read_observed (W:=W) context observed config).
Proof.
  unfold read_observed. apply m_safe_bind'; [apply stat_safe|]. intros md.
  apply m_safe_bind'; [apply m_safe_checkpoint|]. intros _.
  apply m_safe_bind'; [apply m_safe_lift; unfold check_metadata; by repeat case_match|]. intros _. cbv zeta.
  case_match; [apply m_safe_throw|].
  apply m_safe_bind'; [apply read_pages_safe; simpl; lia|]. intros data.
  apply m_safe_lift. by destruct (utf8_decode data).
Qed.

Context (contents : FileRevision → bytes → Prop) `{!ReadsSnapshots contents}.

(** However a file is cut into pages, what is read is its content of the observed
    revision. *)
Lemma read_pages_content fuel context observed md chunk acc w d w' :
  tells_apart contents (of_revision observed) → read_part contents (of_revision observed) acc →
  read_pages (W:=W) fuel context observed md chunk acc w = (Ok d, w') →
  contents (of_revision observed) d ∧ size md = N.of_nat (length d).
Proof.
  intros Hu. revert acc w. induction fuel as [|fuel IH]; intros acc w Hacc H; [done|].
  cbn [read_pages] in H. cbv zeta in H. apply M_bind_ok_inv in H as (? & w1 & _ & H).
  apply M_bind_ok_inv in H as (reply & w2 & Hr & H). apply M_bind_ok_inv in H as (? & w3 & _ & H).
  apply M_bind_ok_inv in H as (eof & w4 & He & H). injection He as He _.
  apply checked_page in He as (Hrev & Hsz & Hlast & _).
  destruct (read_snapshot _ _ _ _ _ _ Hr Hrev) as (data & Hd & Hsize & Hpage). cbn in Hpage.
  rewrite Nat2N.id in Hpage. pose proof (read_part_page _ _ Hu _ _ _ _ Hd Hacc Hpage) as Hacc'.
  destruct eof.
  - injection H as <- _. specialize (Hlast eq_refl).
    rewrite (read_part_whole (acc ++ rr_data reply) data Hacc'); [split; [done|congruence]|].
    rewrite length_app. lia.
  - eapply IH; [|exact H]. right. by exists data.
Qed.
Lemma read_observed_content context observed config w source w' :
  tells_apart contents (of_revision observed) →
  read_observed (W:=W) context observed config w = (Ok source, w') →
  ∃ data, contents (of_revision observed) data ∧ utf8_decode data = Some source ∧
    (N.of_nat (utf8_len source) ≤ ec_max_file_bytes config)%N.
Proof.
  intros Hu H. unfold read_observed in H. apply M_bind_ok_inv in H as (md & w1 & _ & H).
  apply M_bind_ok_inv in H as (? & w2 & _ & H). apply M_bind_ok_inv in H as ([] & w3 & Hmd & H).
  injection Hmd as Hmd _. apply checked_metadata in Hmd as (_ & _ & _ & Hmax). cbv zeta in H.
  destruct (_ =? 0)%N; [done|]. apply M_bind_ok_inv in H as (data & w4 & Hd & H).
  injection H as H _. unfold ok_or in H. destruct (utf8_decode data) as [s|] eqn:Hs; [|done]. injection H as ->.
  apply read_pages_content in Hd as [Hd Hsz]; [|done|by left]. exists data. split; [done|]. split; [done|].
  apply utf8_decode_Some in Hs as [<- _]. unfold utf8_len. lia.
Qed.

Lemma yields_ok {A} (m : M W A) r w a w' : yields m r → m w = (Ok a, w') → r = Ok a.
Proof. intros Hm H. specialize (Hm w). rewrite H in Hm. cbn in Hm. naive_solver. Qed.
Lemma checked_texts self input :
  check_texts self input = Ok tt → ei_old_string input ≠ [] ∧ ei_old_string input ≠ ei_new_string input.
Proof.
  unfold check_texts, str_is_empty, str_eqb. case_bool_decide; [done|]. case_bool_decide; [done|]. done.
Qed.
(** A prepared edit is the reference replacement in the content of the observed
    revision of the file. *)
Lemma prepared_from_observed self context input state w prepared w' :
  in_u64 (ec_max_file_bytes (et_config self)) → tells_apart contents (of_revision (es_observed state)) →
  prepare (W:=W) self context input state w = (Ok prepared, w') →
  pe_state prepared = state ∧
  edit_resolve_path (W:=W) self (ei_file_path input) = Ok (of_path (es_observed state)) ∧
  ∃ data source, contents (of_revision (es_observed state)) data ∧ utf8_decode data = Some source ∧
    replace_reference source (ei_old_string input) (ei_new_string input) (ei_replace_all input) (edit_limit (W:=W) self)
      = Ok (pe_content prepared, pe_replacements prepared).
Proof.
  intros Hmax Hu H. unfold prepare in H. apply M_bind_ok_inv in H as (? & w1 & _ & H).
  apply M_bind_ok_inv in H as ([] & w2 & Ht & H). injection Ht as Ht _. apply checked_texts in Ht as [Hold _].
  apply M_bind_ok_inv in H as (p & w3 & Hp & H). injection Hp as Hp _.
  apply M_bind_ok_inv in H as (? & w4 & _ & H).
  destruct (decide (p = of_path (es_observed state))) as [->|]; [|by rewrite bool_decide_false in H].
  rewrite bool_decide_true in H by done. cbn [negb] in H.
  apply M_bind_ok_inv in H as (source & w5 & Hs & H). apply M_bind_ok_inv in H as ([content n] & w6 & Hr & H).
  apply M_bind_ok_inv in H as (? & w7 & _ & H). injection H as <- _. split; [done|]. split; [done|].
  apply read_observed_content in Hs as (data & Hd & Hdec & Hlen); [|done]. exists data, source.
  split; [done|]. split; [done|]. eapply yields_ok; [|exact Hr]. apply replace_yields; [done|].
  unfold in_u64 in *. lia.
Qed.
End prepared.
