(* ===== verification/ReadTool.v ===== *)
(** The read tool, [platform/packages/tools/read/src/{lib,text,reader}.rs]: a window of
    the lines of a UTF-8 file, cut off at a line limit or at a byte budget, found by
    feeding bytes to a line reader, from a string or from the pages of a file. *)
From Stdlib Require Import ZifyBool.
From stdpp Require Import prelude gmap strings pretty list.
From S2P Require Import Prelude.
From S2P Require Import Text.
From S2P Require Import Core.
From S2P Require Import Host.
From S2P Require Import PathTool.
From S2P Require Import FilePages.
From S2P Require Import MemoryHost.

(** ** Data *)

Definition FOOTER_RESERVE : nat := 256.
Record ReadInput := { ri_file_path : str; ri_offset : option N; ri_limit : option N }.
Record ReadConfig := {
  rc_max_lines : N;
  rc_max_output_bytes : nat;
  rc_max_scan_bytes : N;
  rc_chunk_bytes : N;
}.
Definition ReadConfig_default : ReadConfig :=
  {| rc_max_lines := 2000; rc_max_output_bytes := N.to_nat (50 * 1024);
     rc_max_scan_bytes := 64 * 1024 * 1024; rc_chunk_bytes := 64 * 1024 |}.
Inductive Truncation := LineLimit | ByteLimit.
Record TextReadOutput := {
  to_content : str;
  to_start_line : N;
  to_end_line : option N;
  to_eof : bool;
  to_truncation : option Truncation;
  to_next_offset : option N;
}.
Record ReadOutput := {
  ro_path : ExecutionPath;
  ro_revision : FileRevision;
  ro_window : TextReadOutput;
}.

Definition read_error (c : ExecutionErrorCode) (m : str) : ExecutionError :=
  with_detail (str! "source") (VString (str! "tool-read")) (ExecutionError_new c m).

(** [{:>6}]: right-aligned in six columns. *)
Definition pad_left (width : nat) (s : str) : str := replicate (width - length s) SPACE ++ s.
Fixpoint number_lines (number : N) (ls : list str) : str :=
  match ls with
  | [] => []
  | line :: ls => format! [pad_left 6 (show_N number); [9%N]; line] ++ number_lines (number + 1) ls
  end.
(** [ReadOutput::to_text]. *)
Definition read_to_text (o : TextReadOutput) : str :=
  let text := number_lines (to_start_line o) (split_inclusive (to_content o)) in
  let text := if negb (str_is_empty text) && negb (ends_with [NL] text) then text ++ [NL] else text in
  match to_end_line o with
  | Some end_ =>
    match to_next_offset o with
    | Some next =>
      let reason := match to_truncation o with
                    | Some ByteLimit => str! "output byte limit"
                    | _ => str! "line limit"
                    end in
      text ++ format! [str! "[Showing lines "; show_N (to_start_line o); str! "-"; show_N end_; str! "; ";
        reason; str! " reached. Use offset="; show_N next; str! " to continue.]"; [NL]]
    | None => text ++ format! [str! "[End of file at line "; show_N end_; str! ".]"; [NL]]
    end
  | None => text ++ str! "[File is empty.]" ++ [NL]
  end.

(** ** The line reader ([text.rs]) *)

Record LineReader := {
  lr_output : TextReadOutput;
  lr_limit : N;
  lr_budget : nat;
  lr_number : N;
  lr_line : bytes;
  lr_rendered : nat;
}.
Definition set_output (f : TextReadOutput → TextReadOutput) (r : LineReader) : LineReader :=
  {| lr_output := f (lr_output r); lr_limit := lr_limit r; lr_budget := lr_budget r;
     lr_number := lr_number r; lr_line := lr_line r; lr_rendered := lr_rendered r |}.
Definition truncate (t : Truncation) (r : LineReader) : LineReader :=
  set_output (λ o, {| to_content := to_content o; to_start_line := to_start_line o;
                      to_end_line := to_end_line o; to_eof := to_eof o;
                      to_truncation := Some t; to_next_offset := Some (lr_number r) |}) r.
Definition set_line (line : bytes) (r : LineReader) : LineReader :=
  {| lr_output := lr_output r; lr_limit := lr_limit r; lr_budget := lr_budget r;
     lr_number := lr_number r; lr_line := line; lr_rendered := lr_rendered r |}.
Definition set_number (number : N) (r : LineReader) : LineReader :=
  {| lr_output := lr_output r; lr_limit := lr_limit r; lr_budget := lr_budget r;
     lr_number := number; lr_line := lr_line r; lr_rendered := lr_rendered r |}.

(** [LineReader::new]. *)
Definition new_reader (start limit : N) (config : ReadConfig) : ExecutionResult LineReader :=
  if (start =? 0)%N || (limit =? 0)%N || (rc_max_lines config =? 0)%N
     || (rc_max_output_bytes config <=? FOOTER_RESERVE)
  then Err (read_error InvalidRequest (str! "offset, limit and read budgets must be positive"))
  else
    Ok {| lr_output := {| to_content := []; to_start_line := start; to_end_line := None; to_eof := false;
                          to_truncation := None; to_next_offset := None |};
          lr_limit := N.min limit (rc_max_lines config);
          lr_budget := rc_max_output_bytes config - FOOTER_RESERVE;
          lr_number := 1; lr_line := []; lr_rendered := 0 |}.

(** The columns of a line number and its tab. *)
Definition number_width (number : N) : nat := Nat.max (length (show_N number)) 6 + 1.
Definition ends_line (line : bytes) : bool := bool_decide (last line = Some NL).
Definition append (r : LineReader) : ExecutionResult LineReader :=
  text ← ok_or (read_error Unsupported (str! "requested content is not valid UTF-8 text"))
           (utf8_decode (lr_line r));
  let o := lr_output r in
  Ok {| lr_output := {| to_content := to_content o ++ text; to_start_line := to_start_line o;
                        to_end_line := Some (lr_number r); to_eof := to_eof o;
                        to_truncation := to_truncation o; to_next_offset := to_next_offset o |};
        lr_limit := lr_limit r; lr_budget := lr_budget r; lr_number := lr_number r; lr_line := [];
        lr_rendered := lr_rendered r + (number_width (lr_number r) + length (lr_line r)
                                        + (if ends_line (lr_line r) then 0 else 1)) |}.
(** The lines taken have reached the limit. *)
Definition limit_reached (r : LineReader) : bool :=
  match to_end_line (lr_output r) with
  | Some last => (lr_limit r <=? last - to_start_line (lr_output r) + 1)%N
  | None => false
  end.
Definition next_line (byte : N) (r : LineReader) : ExecutionResult (LineReader * bool) :=
  if (byte =? NL)%N then
    number ← ok_or (read_error ResourceExhausted (str! "line number overflow")) (u64_checked_add (lr_number r) 1);
    Ok (set_number number r, false)
  else Ok (r, false).
Definition feed (r : LineReader) (byte : N) : ExecutionResult (LineReader * bool) :=
  if limit_reached r then Ok (truncate LineLimit r, true)
  else if (byte =? 0)%N then
    Err (read_error Unsupported (str! "file contains binary data (NUL); read supports UTF-8 text only"))
  else if (to_start_line (lr_output r) <=? lr_number r)%N then
    let r := set_line (lr_line r ++ [byte]) r in
    if lr_budget r <? lr_rendered r + number_width (lr_number r) + length (lr_line r)
                      + (if (byte =? NL)%N then 0 else 1) then
      match to_end_line (lr_output r) with
      | None => Err (read_error ResourceExhausted
                       (format! [str! "line "; show_N (lr_number r); str! " exceeds the output limit"]))
      | Some _ => Ok (truncate ByteLimit r, true)
      end
    else
      r ← (if (byte =? NL)%N then append r else Ok r);
      next_line byte r
  else next_line byte r.
Definition finish (r : LineReader) (empty : bool) : ExecutionResult TextReadOutput :=
  r ← (if bool_decide (lr_line r = []) then Ok r else append r);
  let o := lr_output r in
  if bool_decide (to_end_line o = None) && negb (empty && (to_start_line o =? 1)%N)
  then Err (read_error InvalidRequest
         (format! [str! "offset "; show_N (to_start_line o); str! " is beyond the end of the file"]))
  else Ok {| to_content := to_content o; to_start_line := to_start_line o; to_end_line := to_end_line o;
             to_eof := true; to_truncation := to_truncation o; to_next_offset := to_next_offset o |}.

(** [read_text]. *)
Fixpoint read_bytes (config : ReadConfig) (index : N) (r : LineReader) (source : bytes) (empty : bool)
  : ExecutionResult TextReadOutput :=
  match source with
  | [] => finish r empty
  | byte :: source =>
    if (rc_max_scan_bytes config <=? index)%N
    then Err (read_error ResourceExhausted (str! "read scan limit reached"))
    else
      '(r, stop) ← feed r byte;
      match stop with
      | true => Ok (lr_output r)
      | false => read_bytes config (index + 1) r source empty
      end
  end.
Definition read_text (source : str) (offset limit : option N) (config : ReadConfig)
  : ExecutionResult TextReadOutput :=
  r ← new_reader (default 1%N offset) (default (rc_max_lines config) limit) config;
  read_bytes config 0 r (utf8_encode source) (str_is_empty source).

(** ** Reading a file ([reader.rs], [lib.rs]) *)

Record ReadTool := { rt_cwd : ExecutionPath; rt_config : ReadConfig }.

Section tool.
Context {W : Type} `{!World W, !ExecutionRuntime W}.
Abbreviation host := (rt_descriptor (W:=W)).

(** The tests on the metadata: the revision that the pages must have. *)
Definition check_metadata (p : ExecutionPath) (metadata : FileMetadata) : ExecutionResult FileRevision :=
  if negb (bool_decide (fm_path metadata = p)) then
    Err (read_error Internal (str! "host returned metadata for a different path"))
  else if negb (bool_decide (kind metadata = File)) then
    Err (read_error (if bool_decide (kind metadata = Directory) then IsDirectory else Unsupported)
           (str! "read requires a regular text file; use bash to list directories"))
  else ok_or (read_error Unsupported (str! "host did not provide a file revision for a consistent read"))
         (revision metadata).
(** The tests on a page: the position after it. *)
Definition check_page (p : ExecutionPath) (rev : FileRevision) (metadata : FileMetadata)
    (position max_bytes : N) (reply : ReadFileResult) : ExecutionResult N :=
  let data := rr_data reply in
  let len := N.of_nat (length data) in
  if negb (bool_decide (revision (rr_metadata reply) = Some rev))
     || negb (size (rr_metadata reply) =? size metadata)%N
  then Err (read_error RevisionConflict (str! "file changed while reading; retry the read"))
  else if negb (rr_offset reply =? position)%N
     || negb (bool_decide (fm_path (rr_metadata reply) = p))
     || (max_bytes <? len)%N
     || negb (bool_decide (kind (rr_metadata reply) = File))
     || (bool_decide (data = []) && negb (rr_eof reply))
  then Err (read_error Internal (str! "host returned an invalid file-read response"))
  else
    end_ ← ok_or (read_error Internal (str! "file offset overflow")) (u64_checked_add position len);
    if (size metadata <? end_)%N || (rr_eof reply && negb (end_ =? size metadata)%N)
    then Err (read_error RevisionConflict (str! "file size changed or host returned an inconsistent EOF"))
    else Ok end_.
(** The bytes of a page, with a checkpoint every 4096. *)
Fixpoint feed_page (context : OperationContext) (index : nat) (r : LineReader) (data : bytes)
  : M W (LineReader * bool) :=
  match data with
  | [] => mret (r, false)
  | byte :: data =>
    _ ← (if index mod 4096 =? 0 then checkpointM context else mret tt);
    '(r, stop) ← lift (feed r byte);
    match stop with
    | true => mret (r, true)
    | false => feed_page context (S index) r data
    end
  end.
(** The loop of pages.  A page that is not the last holds a byte, so one more
    iteration than the size of the file is enough fuel. *)
Fixpoint read_loop (fuel : nat) (config : ReadConfig) (context : OperationContext) (p : ExecutionPath)
    (rev : FileRevision) (metadata : FileMetadata) (chunk : N) (r : LineReader) (position : N)
  : M W TextReadOutput :=
  match fuel with
  | 0 => lift Panic
  | S fuel =>
    _ ← checkpointM context;
    let remaining := u64_sat_sub (rc_max_scan_bytes config) position in
    if (remaining =? 0)%N then
      throw (read_error ResourceExhausted
        (str! "read scan limit reached; narrow the file with bash or increase the harness scan limit"))
    else
      let max_bytes := N.min chunk remaining in
      reply ← fs_read context {| rd_path := p; rd_offset := position; rd_max_bytes := max_bytes;
                                 rd_follow_symlinks := true |};
      _ ← checkpointM context;
      end_ ← lift (check_page p rev metadata position max_bytes reply);
      '(r, stop) ← feed_page context 0 r (rr_data reply);
      match stop with
      | true => mret (lr_output r)
      | false =>
        if rr_eof reply then lift (finish r (size metadata =? 0)%N)
        else read_loop fuel config context p rev metadata chunk r end_
      end
  end.
(** [reader::read]. *)
Definition read_file (config : ReadConfig) (context : OperationContext) (p : ExecutionPath) (start limit : N)
  : M W ReadOutput :=
  metadata ← fs_stat context {| st_path := p; st_follow_symlinks := true |};
  _ ← checkpointM context;
  rev ← lift (check_metadata p metadata);
  r ← lift (new_reader start limit config);
  let chunk := N.min (rc_chunk_bytes config) (default u64_max (max_read_bytes (limits host))) in
  if (chunk =? 0)%N then throw (read_error Unsupported (str! "host advertised a zero read limit"))
  else
    window ← read_loop (S (N.to_nat (size metadata))) config context p rev metadata chunk r 0;
    mret {| ro_path := p; ro_revision := rev; ro_window := window |}.

(** [ReadTool::new] and [ReadTool::execute]. *)
Definition new_read_tool (cwd : ExecutionPath) (config : ReadConfig) : ExecutionResult ReadTool :=
  _ ← validate_cwd host cwd;
  if (rc_max_lines config =? 0)%N || (rc_max_output_bytes config <=? FOOTER_RESERVE)
     || (rc_max_scan_bytes config =? 0)%N || (rc_chunk_bytes config =? 0)%N
  then Err (read_error InvalidRequest (str! "read limits must be positive and max_output_bytes must exceed 256"))
  else Ok {| rt_cwd := cwd; rt_config := config |}.
Definition execute (self : ReadTool) (context : OperationContext) (input : ReadInput) : M W ReadOutput :=
  _ ← checkpointM context;
  let offset := default 1%N (ri_offset input) in
  let limit := default (rc_max_lines (rt_config self)) (ri_limit input) in
  if (offset =? 0)%N || (limit =? 0)%N then
    throw (read_error InvalidRequest (str! "offset and limit must be positive integers"))
  else
    p ← lift (resolve_path host (rt_cwd self) (ri_file_path input));
    read_file (rt_config self) context p offset (N.min limit (rc_max_lines (rt_config self))).
End tool.

(** ** The reference: a window of lines *)

(** What a line costs of the budget. *)
Definition line_cost (number : N) (line : str) : nat :=
  number_width number + utf8_len line + (if bool_decide (last line = Some NL) then 0 else 1).
(** How many of the lines from [number] on fit. *)
Fixpoint fitting (number : N) (limit budget : nat) (ls : list str) {struct ls} : nat :=
  match ls, limit with
  | line :: ls, S limit =>
    if line_cost number line <=? budget
    then S (fitting (number + 1) limit (budget - line_cost number line) ls) else 0
  | _, _ => 0
  end.
Definition too_long_error (number : N) : ExecutionError :=
  read_error ResourceExhausted (format! [str! "line "; show_N number; str! " exceeds the output limit"]).
Definition beyond_error (start : N) : ExecutionError :=
  read_error InvalidRequest (format! [str! "offset "; show_N start; str! " is beyond the end of the file"]).
(** The window that takes [k] of the lines [ls] from [start]. *)
Definition window_of (start : N) (limit k : nat) (ls : list str) : TextReadOutput :=
  let whole := k =? length ls in
  {| to_content := concat (take k ls); to_start_line := start; to_end_line := Some (start + N.of_nat k - 1)%N;
     to_eof := whole;
     to_truncation := if whole then None else Some (if k =? limit then LineLimit else ByteLimit);
     to_next_offset := if whole then None else Some (start + N.of_nat k)%N |}.
Definition empty_window : TextReadOutput :=
  {| to_content := []; to_start_line := 1; to_end_line := None; to_eof := true; to_truncation := None;
     to_next_offset := None |}.
Definition window_reference (source : str) (start limit : N) (config : ReadConfig) : ExecutionResult TextReadOutput :=
  let limit := N.to_nat (N.min limit (rc_max_lines config)) in
  let budget := rc_max_output_bytes config - FOOTER_RESERVE in
  match drop (N.to_nat (start - 1)) (split_inclusive source) with
  | [] => if bool_decide (source = []) && (start =? 1)%N then Ok empty_window else Err (beyond_error start)
  | ls =>
    match fitting start limit budget ls with
    | 0 => Err (too_long_error start)
    | k => Ok (window_of start limit k ls)
    end
  end.

Example window_reference_sample :
  let config := {| rc_max_lines := 10; rc_max_output_bytes := 256 + 22; rc_max_scan_bytes := 100; rc_chunk_bytes := 4 |} in
  let source := str! "aa" ++ [NL] ++ str! "bb" ++ [NL] ++ str! "cc" in
  to_content <$> window_reference source 1 10 config = Ok (str! "aa" ++ [NL] ++ str! "bb" ++ [NL]) ∧
  window_reference source 1 10 config = read_text source None None config ∧
  window_reference source 3 1 config = read_text source (Some 3%N) (Some 1%N) config ∧
  window_reference source 4 1 config = read_text source (Some 4%N) (Some 1%N) config.
Proof. vm_compute. split_and!; reflexivity. Qed.

(** ** Feeding *)

Fixpoint feed_all (r : LineReader) (bs : bytes) : ExecutionResult (LineReader * bool) :=
  match bs with
  | [] => Ok (r, false)
  | byte :: bs =>
    '(r, stop) ← feed r byte;
    match stop with true => Ok (r, true) | false => feed_all r bs end
  end.
(** Feeding everything and finishing. *)
Definition scan (r : LineReader) (bs : bytes) (empty : bool) : ExecutionResult TextReadOutput :=
  '(r, stop) ← feed_all r bs;
  match stop with true => Ok (lr_output r) | false => finish r empty end.

Lemma feed_all_app r a b :
  feed_all r (a ++ b) = '(r, stop) ← feed_all r a; match stop with true => Ok (r, true) | false => feed_all r b end.
Proof.
  revert r. induction a as [|x a IH]; intros r; [done|]. cbn [app feed_all].
  destruct (feed r x) as [[r' []]| |]; cbn; [done|apply IH|done|done].
Qed.
Lemma read_bytes_app config index r a b empty :
  (index + N.of_nat (length a) ≤ rc_max_scan_bytes config)%N →
  read_bytes config index r (a ++ b) empty =
    '(r, stop) ← feed_all r a;
    match stop with true => Ok (lr_output r) | false => read_bytes config (index + N.of_nat (length a)) r b empty end.
Proof.
  revert index r. induction a as [|x a IH]; intros index r Hle; [cbn; by rewrite N.add_0_r|].
  cbn [app read_bytes feed_all]. simpl in Hle. destruct (N.leb_spec (rc_max_scan_bytes config) index); [lia|].
  destruct (feed r x) as [[r' []]| |]; cbn; [done| |done|done]. rewrite IH by lia.
  by replace (index + 1 + N.of_nat (length a))%N with (index + N.pos (Pos.of_succ_nat (length a)))%N by lia.
Qed.
Lemma read_bytes_scan config index r bs empty :
  (index + N.of_nat (length bs) ≤ rc_max_scan_bytes config)%N → read_bytes config index r bs empty = scan r bs empty.
Proof. intros H. rewrite <-(app_nil_r bs) at 1. by rewrite read_bytes_app. Qed.
Lemma scan_app r a b empty :
  scan r (a ++ b) empty =
    '(r, stop) ← feed_all r a; match stop with true => Ok (lr_output r) | false => scan r b empty end.
Proof. unfold scan. rewrite feed_all_app. destruct (feed_all r a) as [[r' []]| |]; done. Qed.

(** A byte of a line's body. *)
Definition plain_byte (b : N) : Prop := b ≠ 0%N ∧ b ≠ NL.
Lemma plain_bytes s : NL ∉ s → NUL ∉ s → Forall plain_byte (utf8_encode s).
Proof.
  intros Hnl Hnul. apply Forall_forall. intros b Hb. unfold utf8_encode in Hb.
  apply list_elem_of_bind in Hb as (c & Hb & Hc).
  destruct (decide (is_ascii c)) as [Ha|Ha].
  - unfold char_utf8 in Hb. unfold is_ascii in Ha. destruct (N.ltb_spec c 128); [|lia].
    apply list_elem_of_singleton in Hb as ->. split; intros ->; [by apply Hnul|by apply Hnl].
  - pose proof (char_utf8_not_ascii c b Ha Hb) as H. unfold is_ascii in H. unfold plain_byte, NL. lia.
Qed.
Lemma last_utf8 s : NL ∉ s → s ≠ [] → last (utf8_encode s) ≠ Some NL.
Proof.
  intros Hnl Hne Hl. apply last_Some_elem_of in Hl.
  assert (Hn : Forall (λ b, b ≠ NL) (utf8_encode s)).
  { apply Forall_forall. intros b Hb ->. unfold utf8_encode in Hb.
    apply list_elem_of_bind in Hb as (c & Hb & Hc). destruct (decide (is_ascii c)) as [Ha|Ha].
    - unfold char_utf8 in Hb. unfold is_ascii in Ha. destruct (N.ltb_spec c 128); [|lia].
      apply list_elem_of_singleton in Hb. by subst.
    - by apply (char_utf8_not_ascii c NL Ha) in Hb. }
  rewrite Forall_forall in Hn. by eapply Hn.
Qed.

Section feeding.
Context (r : LineReader) (Hroom : limit_reached r = false).

(** The bytes of a line before the window. *)
Lemma feed_skipped bs :
  (lr_number r < to_start_line (lr_output r))%N → Forall plain_byte bs → feed_all r bs = Ok (r, false).
Proof.
  intros Hn. induction 1 as [|b bs [H0 Hnl] _ IH]; [done|]. cbn [feed_all]. unfold feed, next_line.
  rewrite Hroom. destruct (N.eqb_spec b 0); [done|]. destruct (N.leb_spec (to_start_line (lr_output r)) (lr_number r)); [lia|].
  destruct (N.eqb_spec b NL); [done|]. exact IH.
Qed.
Lemma feed_skipped_end :
  (lr_number r < to_start_line (lr_output r))%N → (lr_number r < u64_max)%N →
  feed r NL = Ok (set_number (lr_number r + 1) r, false).
Proof.
  intros Hn Hu. unfold feed, next_line. rewrite Hroom. cbn.
  destruct (N.leb_spec (to_start_line (lr_output r)) (lr_number r)); [lia|].
  unfold u64_checked_add. destruct (N.leb_spec (lr_number r + 1) u64_max); [done|lia].
Qed.

Context (Hin : (to_start_line (lr_output r) ≤ lr_number r)%N).
Definition used (bs : bytes) : nat := lr_rendered r + number_width (lr_number r) + length bs + 1.

Lemma feed_body_byte l b :
  plain_byte b →
  feed (set_line l r) b =
    if lr_budget r <? used (l ++ [b]) then
      match to_end_line (lr_output r) with
      | None => Err (too_long_error (lr_number r))
      | Some _ => Ok (truncate ByteLimit (set_line (l ++ [b]) r), true)
      end
    else Ok (set_line (l ++ [b]) r, false).
Proof.
  intros [H0 Hnl]. unfold feed. change (limit_reached (set_line l r)) with (limit_reached r). rewrite Hroom.
  destruct (N.eqb_spec b 0); [done|]. cbn [set_line lr_output lr_number lr_line lr_budget lr_rendered].
  destruct (N.leb_spec (to_start_line (lr_output r)) (lr_number r)); [|lia]. unfold next_line.
  destruct (N.eqb_spec b NL); [done|]. fold (used (l ++ [b])). destruct (_ <? _); [|done].
  by destruct (to_end_line (lr_output r)).
Qed.
Lemma feed_body l bs :
  Forall plain_byte bs → used (l ++ bs) ≤ lr_budget r →
  feed_all (set_line l r) bs = Ok (set_line (l ++ bs) r, false).
Proof.
  intros Hbs. revert l. induction Hbs as [|b bs Hb _ IH]; intros l Hu; [by rewrite app_nil_r|].
  cbn [feed_all]. rewrite feed_body_byte by done.
  assert (Hu' : used (l ++ [b]) ≤ lr_budget r).
  { unfold used in *. rewrite length_app in *. simpl in *. lia. }
  destruct (Nat.ltb_spec (lr_budget r) (used (l ++ [b]))); [lia|]. cbn.
  rewrite IH; rewrite <-(assoc_L (++)); done.
Qed.
(** A body over the budget stops the reader. *)
Lemma feed_body_over l bs :
  Forall plain_byte bs → bs ≠ [] → lr_budget r < used (l ++ bs) →
  match to_end_line (lr_output r) with
  | None => feed_all (set_line l r) bs = Err (too_long_error (lr_number r))
  | Some _ => ∃ l', feed_all (set_line l r) bs = Ok (truncate ByteLimit (set_line l' r), true)
  end.
Proof.
  intros Hbs. revert l. induction Hbs as [|b bs Hb _ IH]; intros l Hne Hu; [done|].
  cbn [feed_all]. rewrite feed_body_byte by done.
  destruct (Nat.ltb_spec (lr_budget r) (used (l ++ [b]))) as [Ho|Ho].
  - destruct (to_end_line (lr_output r)); [by eexists|done].
  - cbn. apply IH; [intros ->; lia|]. by rewrite <-(assoc_L (++)).
Qed.
(** The reader past a line of the window. *)
Definition past_line (text : str) (cost : nat) : LineReader :=
  {| lr_output := {| to_content := to_content (lr_output r) ++ text; to_start_line := to_start_line (lr_output r);
                     to_end_line := Some (lr_number r); to_eof := to_eof (lr_output r);
                     to_truncation := to_truncation (lr_output r); to_next_offset := to_next_offset (lr_output r) |};
     lr_limit := lr_limit r; lr_budget := lr_budget r; lr_number := lr_number r + 1; lr_line := [];
     lr_rendered := lr_rendered r + cost |}.
Lemma feed_line_end l text :
  utf8_decode (l ++ [NL]) = Some text → (lr_number r < u64_max)%N → used l ≤ lr_budget r →
  feed (set_line l r) NL = Ok (past_line text (number_width (lr_number r) + S (length l)), false).
Proof.
  intros Hd Hu Hb. unfold feed. change (limit_reached (set_line l r)) with (limit_reached r). rewrite Hroom.
  cbn [set_line lr_output lr_number lr_line lr_budget lr_rendered].
  change (NL =? 0)%N with false. change (NL =? NL)%N with true. cbn iota zeta beta.
  destruct (N.leb_spec (to_start_line (lr_output r)) (lr_number r)); [|lia].
  unfold used in Hb. destruct (Nat.ltb_spec (lr_budget r) (lr_rendered r + number_width (lr_number r) + length (l ++ [NL]) + 0));
    [pose proof (length_app l [NL]) as Hl; cbn [length] in Hl; lia|].
  unfold append. cbn [set_line lr_line]. rewrite Hd. cbn. unfold next_line, u64_checked_add. cbn.
  destruct (N.leb_spec (lr_number r + 1) u64_max); [|lia]. cbn. unfold set_number, past_line. cbn. do 3 f_equal.
  unfold ends_line. rewrite last_snoc, bool_decide_true by done.
  pose proof (length_app l [NL]) as Hl. cbn [length] in Hl. lia.
Qed.
Lemma feed_line_end_over l :
  lr_budget r < used l →
  feed (set_line l r) NL =
    match to_end_line (lr_output r) with
    | None => Err (too_long_error (lr_number r))
    | Some _ => Ok (truncate ByteLimit (set_line (l ++ [NL]) r), true)
    end.
Proof.
  intros Hb. unfold feed. change (limit_reached (set_line l r)) with (limit_reached r). rewrite Hroom.
  cbn [set_line lr_output lr_number lr_line lr_budget lr_rendered].
  change (NL =? 0)%N with false. change (NL =? NL)%N with true. cbn iota zeta beta.
  destruct (N.leb_spec (to_start_line (lr_output r)) (lr_number r)); [|lia].
  unfold used in Hb.
  destruct (Nat.ltb_spec (lr_budget r) (lr_rendered r + number_width (lr_number r) + length (l ++ [NL]) + 0));
    [|pose proof (length_app l [NL]) as Hl; cbn [length] in Hl; lia].
  by destruct (to_end_line (lr_output r)).
Qed.
Lemma feed_line_over bs :
  Forall plain_byte bs → lr_budget r < used bs →
  match to_end_line (lr_output r) with
  | None => feed_all (set_line [] r) (bs ++ [NL]) = Err (too_long_error (lr_number r))
  | Some _ => ∃ l', feed_all (set_line [] r) (bs ++ [NL]) = Ok (truncate ByteLimit (set_line l' r), true)
  end.
Proof.
  intros Hbs Hu. destruct (decide (bs = [])) as [->|Hne].
  - cbn [app feed_all]. rewrite feed_line_end_over by done. destruct (to_end_line (lr_output r)); [by eexists|done].
  - pose proof (feed_body_over [] bs Hbs Hne Hu) as H. rewrite feed_all_app.
    destruct (to_end_line (lr_output r)); [|by rewrite H]. destruct H as [l' ->]. by exists l'.
Qed.
End feeding.

(** ** Lines *)

(** Lines that end with their line feed, but for the last. *)
Inductive inclusive : list str → Prop :=
  | inclusive_nil : inclusive []
  | inclusive_last l : l ≠ [] → NL ∉ l → inclusive [l]
  | inclusive_cons l ls : NL ∉ l → inclusive ls → inclusive ((l ++ [NL]) :: ls).
Lemma split_inclusive_lines s : inclusive (split_inclusive s) ∧ concat (split_inclusive s) = s.
Proof.
  induction s as [|c s [IH Hc]]; [by split; [constructor|]|]. cbn [split_inclusive].
  destruct (N.eqb_spec c NL) as [->|Hne]; [split; [apply (inclusive_cons []); set_solver|by cbn; rewrite Hc]|].
  destruct (split_inclusive s) as [|p ps].
  - cbn in Hc. subst s. split; [apply inclusive_last; set_solver|done].
  - split; [|cbn in *; by rewrite Hc]. inversion IH; subst.
    + apply inclusive_last; set_solver.
    + apply (inclusive_cons (c :: l)); set_solver.
Qed.
Lemma inclusive_drop n ls : inclusive ls → inclusive (drop n ls).
Proof. intros H. revert n. induction H; intros [|n]; cbn [drop]; rewrite ?drop_nil; by try constructor. Qed.
Lemma line_cost_last number l : NL ∉ l → line_cost number l = number_width number + length (utf8_encode l) + 1.
Proof.
  intros Hl. unfold line_cost, utf8_len. rewrite bool_decide_false; [lia|]. intros H. by apply last_Some_elem_of in H.
Qed.
Lemma line_cost_end number l : line_cost number (l ++ [NL]) = number_width number + length (utf8_encode l) + 1.
Proof.
  unfold line_cost. rewrite last_snoc, bool_decide_true by done. rewrite utf8_len_app. unfold utf8_len. cbn. lia.
Qed.
Lemma encode_line l rest : utf8_encode ((l ++ [NL]) ++ rest) = utf8_encode l ++ NL :: utf8_encode rest.
Proof. rewrite <-(assoc_L (++)), utf8_encode_app. done. Qed.

(** ** The window *)

#[local] Arguments lit : simpl never.
#[local] Arguments format : simpl never.
#[local] Arguments read_error : simpl never.
#[local] Arguments too_long_error : simpl never.
#[local] Arguments N.of_nat : simpl never.

Section window.
Context (start : N) (limit : nat) (budget : nat) (empty : bool).
Context (Hstart : (0 < start)%N) (Hlimit : 0 < limit).

(** The reader between two lines, of which [taken] are in the window. *)
Definition boundary (number : N) (taken : nat) (content : str) (rendered : nat) : LineReader :=
  {| lr_output := {| to_content := content; to_start_line := start;
                     to_end_line := if taken =? 0 then None else Some (number - 1)%N; to_eof := false;
                     to_truncation := None; to_next_offset := None |};
     lr_limit := N.of_nat limit; lr_budget := budget; lr_number := number; lr_line := [];
     lr_rendered := rendered |}.
(** What comes of taking [k] more of the lines [ls]. *)
Definition taken_window (taken k : nat) (content : str) (ls : list str) : TextReadOutput :=
  let whole := k =? length ls in
  {| to_content := content ++ concat (take k ls); to_start_line := start;
     to_end_line := Some (start + N.of_nat (taken + k) - 1)%N; to_eof := whole;
     to_truncation := if whole then None else Some (if taken + k =? limit then LineLimit else ByteLimit);
     to_next_offset := if whole then None else Some (start + N.of_nat (taken + k))%N |}.

Lemma boundary_room number taken content rendered :
  number = (start + N.of_nat taken)%N → limit_reached (boundary number taken content rendered) = (limit <=? taken).
Proof.
  intros ->. unfold limit_reached, boundary. cbn. destruct taken as [|taken]; cbn [Nat.eqb].
  - symmetry. apply Nat.leb_gt. lia.
  - destruct (N.leb_spec (N.of_nat limit) (start + N.of_nat (S taken) - 1 - start + 1)),
      (Nat.leb_spec limit (S taken)); done || lia.
Qed.
Lemma past_boundary number taken content rendered text cost :
  past_line (boundary number taken content rendered) text cost
  = boundary (number + 1) (S taken) (content ++ text) (rendered + cost).
Proof. unfold past_line, boundary. cbn. by replace (number + 1 - 1)%N with number by lia. Qed.

(** What a reader stopped at the front of the lines [ls] shows. *)
Lemma truncate_window t l number taken content rendered ls :
  number = (start + N.of_nat taken)%N → 0 < taken → ls ≠ [] →
  t = (if taken =? limit then LineLimit else ByteLimit) →
  lr_output (truncate t (set_line l (boundary number taken content rendered))) = taken_window taken 0 content ls.
Proof.
  intros -> Ht Hne ->. unfold truncate, taken_window, boundary. cbn.
  destruct (Nat.eqb_spec taken 0); [lia|]. destruct ls as [|x ls]; [done|]. cbn.
  by rewrite app_nil_r, Nat.add_0_r.
Qed.
(** What one more line makes of the window. *)
Lemma taken_window_cons taken k content l ls :
  taken_window (S taken) k (content ++ l) ls = taken_window taken (S k) content (l :: ls).
Proof.
  unfold taken_window. cbn. rewrite <-(assoc_L (++)). by replace (taken + S k) with (S (taken + k)) by lia.
Qed.

(** The lines of the window and what stops it. *)
Lemma scan_stop_limit number taken content rendered bs ls :
  number = (start + N.of_nat taken)%N → limit = taken → bs ≠ [] → ls ≠ [] →
  scan (boundary number taken content rendered) bs empty = Ok (taken_window taken 0 content ls).
Proof.
  intros Hnum Hl Hbs Hls. destruct bs as [|b bs]; [done|]. unfold scan. cbn [feed_all]. unfold feed.
  rewrite boundary_room by done. destruct (Nat.leb_spec limit taken); [|lia]. cbn [mbind result_bind].
  f_equal. apply (truncate_window LineLimit []); [done|lia|done|]. destruct (Nat.eqb_spec taken limit); [done|lia].
Qed.
Lemma scan_window ls number taken content rendered :
  inclusive ls → Forall (λ l, NUL ∉ l ∧ valid_str l) ls → number = (start + N.of_nat taken)%N →
  (number + N.of_nat (length ls) ≤ u64_max)%N → (0 < taken ∨ ls ≠ []) → taken ≤ limit →
  let k := fitting number (limit - taken) (budget - rendered) ls in
  scan (boundary number taken content rendered) (utf8_encode (concat ls)) empty =
    if taken + k =? 0 then Err (too_long_error number) else Ok (taken_window taken k content ls).
Proof.
  intros Hls. revert number taken content rendered.
  induction Hls as [|l Hne Hnl|l ls Hnl Hls IH]; intros number taken content rendered Hok Hnum Hu Hsome Htl.
  - destruct Hsome as [Ht|]; [|done]. cbn [fitting]. unfold scan, finish. cbn.
    destruct taken as [|taken]; [lia|]. cbn. unfold taken_window. cbn. rewrite app_nil_r, Nat.add_0_r.
    do 3 f_equal. lia.
  - apply Forall_cons in Hok as [[Hnul Hval] _]. pose proof (plain_bytes l Hnl Hnul) as Hplain.
    assert (Hne' : utf8_encode l ≠ []).
    { destruct l as [|c l]; [done|]. rewrite utf8_encode_cons. pose proof (char_utf8_nonempty c). by destruct (char_utf8 c). }
    cbn [concat]. rewrite app_nil_r.
    pose proof (boundary_room number taken content rendered Hnum) as Hroom. destruct (Nat.leb_spec limit taken) as [Hfull|Hfree].
    + replace (limit - taken) with 0 by lia. cbn [fitting]. rewrite Nat.add_0_r.
      destruct (Nat.eqb_spec taken 0); [lia|]. apply scan_stop_limit; [done|lia|done|done].
    + replace (limit - taken) with (S (limit - taken - 1)) by lia. cbn [fitting].
      rewrite line_cost_last by done.
      assert (Hin : (to_start_line (lr_output (boundary number taken content rendered)) ≤
        lr_number (boundary number taken content rendered))%N) by (cbn; lia).
      unfold scan. change (boundary number taken content rendered) with (set_line [] (boundary number taken content rendered)).
      destruct (Nat.leb_spec (number_width number + length (utf8_encode l) + 1) (budget - rendered)) as [Hfit|Hover].
      * rewrite feed_body by (try done; unfold used; cbn; lia). cbn [mbind result_bind app]. unfold finish. cbn [set_line lr_line].
        rewrite bool_decide_false by done. unfold append. cbn [set_line lr_line]. rewrite utf8_decode_encode by done.
        cbn. rewrite Nat.add_1_r. cbn. unfold taken_window. cbn. rewrite app_nil_r. do 3 f_equal. lia.
      * pose proof (feed_body_over _ Hroom Hin [] (utf8_encode l) Hplain Hne') as H. cbn [app] in H.
        unfold used in H. cbn [boundary lr_output to_end_line lr_number lr_rendered lr_budget] in H. rewrite Nat.add_0_r.
        destruct (Nat.eqb_spec taken 0) as [->|Ht]; [by rewrite H by lia|].
        destruct H as [l' ->]; [lia|]. cbn [mbind result_bind]. f_equal. apply truncate_window; [done|lia|done|].
        destruct (Nat.eqb_spec taken limit); [lia|done].
  - apply Forall_cons in Hok as [[Hnul Hval] Hok]. assert (Hnul' : NUL ∉ l) by set_solver.
    pose proof (plain_bytes l Hnl Hnul') as Hplain. cbn [concat]. rewrite encode_line.
    pose proof (boundary_room number taken content rendered Hnum) as Hroom. destruct (Nat.leb_spec limit taken) as [Hfull|Hfree].
    + replace (limit - taken) with 0 by lia. cbn [fitting]. rewrite Nat.add_0_r.
      destruct (Nat.eqb_spec taken 0); [lia|]. apply scan_stop_limit; [done|lia|by destruct (utf8_encode l)|done].
    + replace (limit - taken) with (S (limit - S taken)) by lia. cbn [fitting].
      rewrite line_cost_end.
      assert (Hin : (to_start_line (lr_output (boundary number taken content rendered)) ≤
        lr_number (boundary number taken content rendered))%N) by (cbn; lia).
      change (boundary number taken content rendered) with (set_line [] (boundary number taken content rendered)).
      cbn [length] in Hu.
      destruct (Nat.leb_spec (number_width number + length (utf8_encode l) + 1) (budget - rendered)) as [Hfit|Hover].
      * rewrite scan_app, feed_body by (try done; unfold used; cbn; lia). cbn [mbind result_bind app].
        change (NL :: ?x) with ([NL] ++ x). rewrite scan_app. cbn [feed_all].
        rewrite (feed_line_end _ Hroom Hin _ (l ++ [NL])); [| |cbn; lia|unfold used; cbn; lia].
        2: { change [NL] with (utf8_encode [NL]). rewrite <-utf8_encode_app. by apply utf8_decode_encode. }
        cbn [mbind result_bind]. rewrite past_boundary. cbn [boundary lr_number].
        rewrite IH; [|done|lia|lia|by left; lia|lia].
        replace (budget - (rendered + (number_width number + S (length (utf8_encode l)))))
          with (budget - rendered - (number_width number + length (utf8_encode l) + 1)) by lia.
        by rewrite taken_window_cons, (Nat.add_succ_r taken).
      * change (NL :: ?x) with ([NL] ++ x). rewrite (assoc_L (++)), scan_app, Nat.add_0_r.
        pose proof (feed_line_over _ Hroom Hin _ Hplain) as H. unfold used in H.
        cbn [boundary lr_output to_end_line lr_number lr_rendered lr_budget] in H.
        destruct (Nat.eqb_spec taken 0) as [->|Ht]; [by rewrite H by lia|].
        destruct H as [l' ->]; [lia|]. cbn [mbind result_bind]. f_equal. apply truncate_window; [done|lia|done|].
        destruct (Nat.eqb_spec taken limit); [lia|done].
Qed.

(** The lines before the window. *)
Definition nothing_taken : ExecutionResult TextReadOutput :=
  if empty && (start =? 1)%N then Ok empty_window else Err (beyond_error start).
Lemma finish_nothing number : finish (boundary number 0 [] 0) empty = nothing_taken.
Proof.
  unfold finish, nothing_taken. cbn. destruct empty, (N.eqb_spec start 1) as [->|]; done.
Qed.
Lemma scan_skip ls number :
  inclusive ls → Forall (λ l, NUL ∉ l ∧ valid_str l) ls → (0 < number ≤ start)%N →
  (number + N.of_nat (length ls) ≤ u64_max)%N →
  scan (boundary number 0 [] 0) (utf8_encode (concat ls)) empty =
    match drop (N.to_nat (start - number)) ls with
    | [] => nothing_taken
    | rest => scan (boundary start 0 [] 0) (utf8_encode (concat rest)) empty
    end.
Proof.
  intros Hls. revert number. induction Hls as [|l Hne Hnl|l ls Hnl Hls IH]; intros number Hok Hnum Hu.
  - rewrite drop_nil. unfold scan. cbn [concat utf8_encode mbind list_bind feed_all result_bind]. apply finish_nothing.
  - destruct (decide (number = start)) as [->|Hn]; [by rewrite N.sub_diag|].
    apply Forall_cons in Hok as [[Hnul _] _]. rewrite drop_ge by (cbn; lia). cbn [concat]. rewrite app_nil_r.
    unfold scan. rewrite feed_skipped; [apply finish_nothing|done|cbn; lia|by apply plain_bytes].
  - destruct (decide (number = start)) as [->|Hn]; [by rewrite N.sub_diag|].
    apply Forall_cons in Hok as [[Hnul _] Hok]. cbn [concat length] in *. rewrite encode_line, scan_app.
    rewrite feed_skipped; [|done|cbn; lia|apply plain_bytes; [done|set_solver]]. cbn [mbind result_bind].
    change (NL :: ?x) with ([NL] ++ x). rewrite scan_app. cbn [feed_all].
    rewrite feed_skipped_end; [|done|cbn; lia|cbn; lia]. cbn [mbind result_bind].
    change (set_number _ _) with (boundary (number + 1) 0 [] 0).
    rewrite IH by (done || lia).
    by replace (N.to_nat (start - number)) with (S (N.to_nat (start - (number + 1)))) by lia.
Qed.
End window.

Lemma split_inclusive_length s : length (split_inclusive s) ≤ utf8_len s.
Proof.
  induction s as [|c s IH]; [done|]. unfold utf8_len in *. rewrite utf8_encode_cons, length_app.
  pose proof (len_utf8_pos c) as Hc. unfold len_utf8 in Hc. cbn [split_inclusive].
  destruct (c =? NL)%N; [simpl; lia|]. destruct (split_inclusive s); simpl in *; lia.
Qed.
Lemma concat_Forall (P : N → Prop) (ls : list str) : Forall P (concat ls) → Forall (Forall P) ls.
Proof. induction ls as [|l ls IH]; [by constructor|]. cbn. intros [? ?]%Forall_app. constructor; auto. Qed.

(** Feeding the whole of a source finds the reference window. *)
Lemma read_text_finds_window (source : str) (offset limit : option N) (config : ReadConfig) (start lines : N) :
  valid_str source → NUL ∉ source →
  (N.of_nat (utf8_len source) < u64_max)%N → (N.of_nat (utf8_len source) ≤ rc_max_scan_bytes config)%N →
  start = default 1%N offset → lines = default (rc_max_lines config) limit →
  (0 < start)%N → (0 < lines)%N → (0 < rc_max_lines config)%N → FOOTER_RESERVE < rc_max_output_bytes config →
  read_text source offset limit config = window_reference source start lines config.
Proof.
  intros Hval Hnul Hu Hscan -> -> Hs Hl Hm Hb. unfold read_text, new_reader.
  set (start := default 1%N offset) in *. set (lines := default (rc_max_lines config) limit) in *.
  destruct (N.eqb_spec start 0); [lia|]. destruct (N.eqb_spec lines 0); [lia|].
  destruct (N.eqb_spec (rc_max_lines config) 0); [lia|].
  destruct (Nat.leb_spec (rc_max_output_bytes config) FOOTER_RESERVE); [lia|]. cbn [orb mbind result_bind].
  unfold window_reference. set (limit' := N.to_nat (N.min lines (rc_max_lines config))).
  set (budget := rc_max_output_bytes config - FOOTER_RESERVE).
  rewrite read_bytes_scan by (unfold utf8_len in *; lia).
  replace (N.min lines (rc_max_lines config)) with (N.of_nat limit') by (subst limit'; lia).
  change {| lr_output := _; lr_limit := _; lr_budget := _; lr_number := _; lr_line := _; lr_rendered := _ |}
    with (boundary start limit' budget 1 0 [] 0).
  destruct (split_inclusive_lines source) as [Hinc Hcat]. pose proof (split_inclusive_length source) as Hlen.
  assert (Hok : Forall (λ l, NUL ∉ l ∧ valid_str l) (split_inclusive source)).
  { apply Forall_and. split.
    - apply Forall_forall. intros l Hl' Hn. apply Hnul. rewrite <-Hcat. apply list_elem_of_In, in_concat.
      exists l. rewrite <-!list_elem_of_In. done.
    - apply concat_Forall. by rewrite Hcat. }
  rewrite <-Hcat at 1. rewrite scan_skip by (done || lia).
  destruct (drop (N.to_nat (start - 1)) (split_inclusive source)) as [|l ls] eqn:Hd; [done|].
  assert (Hincd : inclusive (l :: ls)) by (rewrite <-Hd; by apply inclusive_drop).
  assert (Hokd : Forall (λ l, NUL ∉ l ∧ valid_str l) (l :: ls)) by (rewrite <-Hd; by apply Forall_drop).
  assert (Hld : N.to_nat (start - 1) + length (l :: ls) ≤ utf8_len source).
  { rewrite <-Hd, length_drop. apply (f_equal length) in Hd. rewrite length_drop in Hd. simpl in Hd. lia. }
  rewrite scan_window; [|lia|lia|done|done|lia|lia|by right|lia].
  rewrite !Nat.sub_0_r. cbn [Nat.add]. destruct (fitting start limit' budget (l :: ls)) as [|k] eqn:Hk; [done|].
  cbn [Nat.eqb]. f_equal.
Qed.

(** C30. Reading a window of lines.  For a text without NUL within the scan limit, the
    byte-by-byte reader returns the reference window: the lines from the
    requested one that fit the line limit and, rendered with their numbers, the
    byte budget, the reason it stopped and the line to go on from, or that the
    end was reached; and an error exactly when the first line asked for is past
    the end or does not fit alone. *)
Theorem read_text_window (source : str) (offset limit : option N) (config : ReadConfig) (start lines : N) :
  valid_str source → NUL ∉ source →
  (N.of_nat (utf8_len source) < u64_max)%N → (N.of_nat (utf8_len source) ≤ rc_max_scan_bytes config)%N →
  start = default 1%N offset → lines = default (rc_max_lines config) limit →
  (0 < start)%N → (0 < lines)%N → (0 < rc_max_lines config)%N → FOOTER_RESERVE < rc_max_output_bytes config →
  read_text source offset limit config = window_reference source start lines config.
Proof. apply read_text_finds_window. Qed.

(** ** Paging *)

(** Reading on from the offset each page gives. *)
Fixpoint read_on (fuel : nat) (source : str) (config : ReadConfig) (start : N) : ExecutionResult str :=
  match fuel with
  | 0 => Panic
  | S fuel =>
    page ← read_text source (Some start) None config;
    match to_next_offset page with
    | None => Ok (to_content page)
    | Some next => rest ← read_on fuel source config next; Ok (to_content page ++ rest)
    end
  end.

Lemma fitting_le number limit budget ls : fitting number limit budget ls ≤ length ls.
Proof.
  revert number limit budget. induction ls as [|l ls IH]; intros number [|limit] budget; cbn [fitting length]; try lia.
  destruct (_ <=? _); [|lia]. specialize (IH (number + 1)%N limit (budget - line_cost number l)). lia.
Qed.
Section paging.
Context (source : str) (config : ReadConfig).
Context (Hval : valid_str source) (Hnul : NUL ∉ source).
Context (Hsize : (N.of_nat (utf8_len source) < u64_max)%N)
  (Hscan : (N.of_nat (utf8_len source) ≤ rc_max_scan_bytes config)%N).
Context (Hlines : (0 < rc_max_lines config)%N) (Hbytes : FOOTER_RESERVE < rc_max_output_bytes config).
(** Every line fits by itself. *)
Context (Hfits : ∀ i l, split_inclusive source !! i = Some l →
  line_cost (N.of_nat i + 1) l ≤ rc_max_output_bytes config - FOOTER_RESERVE).

Lemma read_page start l ls :
  (0 < start)%N → drop (N.to_nat (start - 1)) (split_inclusive source) = l :: ls →
  ∃ limit k, 0 < k ≤ length (l :: ls) ∧ read_text source (Some start) None config = Ok (window_of start limit k (l :: ls)).
Proof.
  intros Hs Hd. rewrite (read_text_finds_window source (Some start) None config start (rc_max_lines config)) by done.
  unfold window_reference. rewrite Hd, N.min_id. exists (N.to_nat (rc_max_lines config)).
  assert (Hfirst : line_cost start l ≤ rc_max_output_bytes config - FOOTER_RESERVE).
  { replace start with (N.of_nat (N.to_nat (start - 1)) + 1)%N by lia. apply Hfits.
    rewrite <-(Nat.add_0_r (N.to_nat (start - 1))), <-lookup_drop, Hd. done. }
  pose proof (fitting_le start (N.to_nat (rc_max_lines config)) (rc_max_output_bytes config - FOOTER_RESERVE) (l :: ls)) as Hle.
  revert Hle. cbn [fitting]. destruct (N.to_nat (rc_max_lines config)) as [|n] eqn:Hn; [lia|].
  destruct (Nat.leb_spec (line_cost start l) (rc_max_output_bytes config - FOOTER_RESERVE)); [|lia].
  intros Hle. eexists. split; [|reflexivity]. lia.
Qed.
Lemma read_on_rest fuel start :
  (0 < start)%N → drop (N.to_nat (start - 1)) (split_inclusive source) ≠ [] →
  length (drop (N.to_nat (start - 1)) (split_inclusive source)) ≤ fuel →
  read_on fuel source config start = Ok (concat (drop (N.to_nat (start - 1)) (split_inclusive source))).
Proof.
  revert start. induction fuel as [|fuel IH]; intros start Hs Hne Hf;
    destruct (drop (N.to_nat (start - 1)) (split_inclusive source)) as [|l ls] eqn:Hd; try done; [simpl in Hf; lia|].
  destruct (read_page start l ls Hs Hd) as (limit & k & Hk & Hpage). cbn [read_on]. rewrite Hpage.
  cbn [mbind result_bind]. unfold window_of. cbn [to_next_offset to_content].
  destruct (Nat.eqb_spec k (length (l :: ls))) as [->|Hmore]; [by rewrite firstn_all|].
  assert (Hrest : drop (N.to_nat (start + N.of_nat k - 1)) (split_inclusive source) = drop k (l :: ls)).
  { rewrite <-Hd, drop_drop. f_equal. lia. }
  rewrite IH; rewrite ?Hrest; [|lia| |].
  - cbn [mbind result_bind]. by rewrite <-concat_app, take_drop.
  - intros Hnil. apply (f_equal length) in Hnil. rewrite length_drop in Hnil. simpl in *. lia.
  - rewrite length_drop. simpl in *. lia.
Qed.

(** C28. Following the offsets reads the whole file.  When every line fits the budget
    by itself, reading from the first line and then from each continuation
    offset ends after at most as many pages as there are lines, and the pages put
    together are the text, with no line lost, cut or repeated. *)
Theorem read_on_whole :
  read_on (S (length (split_inclusive source))) source config 1 = Ok source.
Proof.
  destruct (split_inclusive_lines source) as [_ Hcat].
  destruct (decide (source = [])) as [->|Hne].
  - cbn [split_inclusive length read_on].
    by rewrite (read_text_finds_window [] (Some 1%N) None config 1 (rc_max_lines config)).
  - rewrite read_on_rest; change (N.to_nat (1 - 1)) with 0; rewrite ?drop_0, ?Hcat; [done|lia| |lia].
    intros Hnil. rewrite Hnil in Hcat. by cbn in Hcat.
Qed.
End paging.

(** ** Streaming *)

Section streaming.
Context {W : Type} `{!World W, !ExecutionRuntime W}.

Lemma file_page_checked p rev md position max reply end_ :
  check_page p rev md position max reply = Ok end_ →
  revision (rr_metadata reply) = Some rev ∧ size (rr_metadata reply) = size md ∧
  (N.of_nat (length (rr_data reply)) ≤ max)%N ∧
  end_ = (position + N.of_nat (length (rr_data reply)))%N ∧ (end_ ≤ size md)%N ∧
  (rr_eof reply = true → end_ = size md) ∧ (rr_eof reply = false → rr_data reply ≠ []).
Proof.
  unfold check_page. cbv zeta. intros H. destruct (_ || _) eqn:E1 in H; [done|].
  destruct (_ || _ || _ || _ || _) eqn:E2 in H; [done|].
  apply bind_ok_inv in H as (e & Ha & H). unfold ok_or in Ha.
  destruct (u64_checked_add _ _) eqn:Ea; [|done]. injection Ha as ->.
  apply u64_checked_add_Some in Ea as [-> _].
  destruct (_ || _) eqn:E3 in H; [done|]. injection H as <-.
  rewrite !orb_false_iff, !negb_false_iff, ?bool_decide_eq_true, ?N.eqb_eq, ?N.ltb_ge in *.
  destruct E1 as [Er Es], E2 as [[[[Ho Hp] Hm] Hk] Hd], E3 as [E3 E4].
  split_and!; [done..| |].
  - intros He. rewrite He in E4. by apply negb_false_iff, N.eqb_eq in E4.
  - intros He. rewrite He, andb_true_r in Hd. by apply bool_decide_eq_false in Hd.
Qed.
Lemma file_page_no_panic p rev md position max reply : check_page p rev md position max reply ≠ Panic.
Proof.
  unfold check_page. cbv zeta. case_match; [done|]. case_match; [done|].
  apply bind_no_panic; [by destruct (u64_checked_add _ _)|]. intros. by case_match.
Qed.
Lemma feed_page_yields context index r data : yields (W:=W) (feed_page context index r data) (feed_all r data).
Proof.
  revert index r. induction data as [|b data IH]; intros index r; [apply yields_ret|]. cbn [feed_page feed_all].
  eapply yields_bind.
  - destruct (index mod 4096 =? 0); [apply yields_checkpoint|apply yields_ret].
  - apply yields_bind_lift. intros [r' [|]] _; [apply yields_ret|apply IH].
Qed.
Lemma yields_value {A} (m : M W A) r w a w' : yields m r → m w = (Ok a, w') → r = Ok a.
Proof. intros Hm H. specialize (Hm w). rewrite H in Hm. cbn in Hm. naive_solver. Qed.

(** The pages end: the fuel is never used up. *)
Lemma feed_no_panic r b : feed r b ≠ Panic.
Proof.
  unfold feed, next_line, append, ok_or, u64_checked_add. repeat case_match; simplify_eq/=; try done.
  all: repeat case_match; simplify_eq/=; done.
Qed.
Lemma feed_all_no_panic r bs : feed_all r bs ≠ Panic.
Proof.
  revert r. induction bs as [|b bs IH]; intros r; [done|]. cbn [feed_all].
  apply bind_no_panic; [apply feed_no_panic|]. intros [r' []] _; [done|apply IH].
Qed.
Lemma finish_no_panic r e : finish r e ≠ Panic.
Proof.
  unfold finish. apply bind_no_panic.
  - case_bool_decide; [done|]. unfold append. apply bind_no_panic; [by destruct (utf8_decode _)|done].
  - intros r' _. by case_match.
Qed.
Lemma file_loop_safe `{!RuntimeSafe W} fuel config context p rev md chunk r position :
  N.to_nat (size md - position) < fuel → (position ≤ size md)%N →
  m_safe (read_loop (W:=W) fuel config context p rev md chunk r position).
Proof.
  revert r position. induction fuel as [|fuel IH]; intros r position Hf Hp; [lia|]. cbn [read_loop]. cbv zeta.
  apply m_safe_bind'; [apply m_safe_checkpoint|]. intros _. case_match; [apply m_safe_throw|].
  apply m_safe_bind'; [apply read_safe|]. intros reply.
  apply m_safe_bind'; [apply m_safe_checkpoint|]. intros _.
  eapply (m_safe_bind _ _ (λ end_, check_page p rev md position _ reply = Ok end_));
    [apply m_safe_lift, file_page_no_panic|by intros w a w' [= -> _]|].
  intros end_ (_ & _ & _ & -> & Hle & _ & Hmore)%file_page_checked.
  apply m_safe_bind'.
  { intros w Hpanic. destruct (feed_page_yields context 0 r (rr_data reply) w) as [H'|(e & H' & _)].
    - rewrite Hpanic in H'. symmetry in H'. by apply feed_all_no_panic in H'.
    - congruence. }
  intros [r' []]; [apply m_safe_ret|]. destruct (rr_eof reply).
  - apply m_safe_lift, finish_no_panic.
  - apply IH; [|done]. specialize (Hmore eq_refl). destruct (rr_data reply); [done|]. simpl in *. lia.
Qed.

Context (contents : FileRevision → bytes → Prop) `{!ReadsSnapshots contents}.

Lemma read_loop_content fuel config context p rev md chunk r0 r acc w out w' :
  tells_apart contents rev → read_part contents rev acc → feed_all r0 acc = Ok (r, false) →
  (N.of_nat (length acc) ≤ rc_max_scan_bytes config)%N →
  read_loop (W:=W) fuel config context p rev md chunk r (N.of_nat (length acc)) w = (Ok out, w') →
  ∃ data, contents rev data ∧ read_bytes config 0 r0 data (bool_decide (data = [])) = Ok out.
Proof.
  intros Hu. revert r acc w. induction fuel as [|fuel IH]; intros r acc w Hacc Hfeed Hscan H; [done|].
  cbn [read_loop] in H. cbv zeta in H. apply M_bind_ok_inv in H as (? & w1 & _ & H).
  destruct (N.eqb_spec (u64_sat_sub (rc_max_scan_bytes config) (N.of_nat (length acc))) 0) as [|Hrem]; [done|].
  apply M_bind_ok_inv in H as (reply & w2 & Hr & H). apply M_bind_ok_inv in H as (? & w3 & _ & H).
  apply M_bind_ok_inv in H as (end_ & w4 & He & H). injection He as He _.
  apply file_page_checked in He as (Hrev & Hsz & Hmax & -> & Hle & Hlast & _).
  destruct (read_snapshot _ _ _ _ _ _ Hr Hrev) as (data & Hd & Hsize & Hpage). cbn in Hpage.
  rewrite Nat2N.id in Hpage. pose proof (read_part_page _ _ Hu _ _ _ _ Hd Hacc Hpage) as Hacc'.
  apply M_bind_ok_inv in H as ([r' stop] & w5 & Hf & H).
  apply (yields_value _ _ _ _ _ (feed_page_yields _ _ _ _)) in Hf.
  assert (Hall : feed_all r0 (acc ++ rr_data reply) = Ok (r', stop)) by (by rewrite feed_all_app, Hfeed).
  assert (Hscan' : (0 + N.of_nat (length (acc ++ rr_data reply)) ≤ rc_max_scan_bytes config)%N).
  { rewrite length_app. unfold u64_sat_sub in *. lia. }
  destruct stop; [|destruct (rr_eof reply) eqn:Heof].
  - injection H as <- _. exists data. split; [done|].
    rewrite <-(take_drop (length (acc ++ rr_data reply)) data), <-Hacc' at 1. rewrite read_bytes_app by done.
    by rewrite Hall.
  - injection H as H _. specialize (Hlast eq_refl).
    assert (Hwhole : acc ++ rr_data reply = data).
    { apply read_part_whole; [done|]. rewrite length_app. lia. }
    exists data. split; [done|]. rewrite <-Hwhole at 1. rewrite <-(app_nil_r (acc ++ _)) at 1.
    rewrite read_bytes_app by done. rewrite Hall. cbn [mbind result_bind read_bytes]. rewrite <-H. f_equal.
    rewrite <-Hsz, Hsize. destruct data; [done|]. rewrite bool_decide_false by done. symmetry. apply N.eqb_neq. simpl. lia.
  - rewrite <-Nat2N.inj_add, <-length_app in H. eapply IH; [|exact Hall| |exact H]; [|lia]. right. by exists data.
Qed.
Lemma new_reader_min start limit config :
  new_reader start (N.min limit (rc_max_lines config)) config = new_reader start limit config.
Proof.
  unfold new_reader. rewrite <-N.min_assoc, N.min_id.
  destruct (N.eqb_spec start 0), (N.eqb_spec limit 0), (N.eqb_spec (N.min limit (rc_max_lines config)) 0),
    (N.eqb_spec (rc_max_lines config) 0); try done; lia.
Qed.

(** C29. Reading a file in pages is reading its text.  Whatever the chunk size, the
    host's limit and the cuts of the pages, a successful read of a file returns
    exactly what [read_text] returns on the whole content of the revision it
    reports, provided that revision has one content: no page of another version
    is mixed in. *)
Theorem read_file_is_read_text (self : ReadTool) (context : OperationContext) (input : ReadInput)
    (w w' : W) (out : ReadOutput) :
  execute self context input w = (Ok out, w') → tells_apart contents (ro_revision out) →
  ∃ data, contents (ro_revision out) data ∧
    ∀ source, utf8_encode source = data →
      read_text source (ri_offset input) (ri_limit input) (rt_config self) = Ok (ro_window out).
Proof.
  intros H Hu. unfold execute in H. apply M_bind_ok_inv in H as (? & w1 & _ & H). cbv zeta in H.
  destruct (_ || _); [done|]. apply M_bind_ok_inv in H as (p & w2 & _ & H).
  unfold read_file in H. apply M_bind_ok_inv in H as (md & w3 & _ & H). apply M_bind_ok_inv in H as (? & w4 & _ & H).
  apply M_bind_ok_inv in H as (rev & w5 & _ & H). apply M_bind_ok_inv in H as (r0 & w6 & Hr & H). cbv zeta in H.
  injection Hr as Hr _. rewrite new_reader_min in Hr.
  destruct (_ =? 0)%N; [done|]. apply M_bind_ok_inv in H as (window & w7 & Hl & H). injection H as <- _.
  cbn [ro_revision ro_window] in *.
  apply (read_loop_content _ _ _ _ _ _ _ r0 r0 []) in Hl as (data & Hd & Hb); [|done|by left|done|simpl; lia].
  exists data. split; [done|]. intros source <-. unfold read_text. rewrite Hr. cbn [mbind result_bind].
  rewrite <-Hb. f_equal. unfold str_is_empty. apply bool_decide_ext. split; [by intros ->|].
  destruct source as [|c s]; [done|]. rewrite utf8_encode_cons. pose proof (char_utf8_nonempty c). by destruct (char_utf8 c).
Qed.
End streaming.

(** ** A run *)

#[local] Existing Instances memory_world memory_filesystem memory_runtime.
#[local] Instance memory_snapshots : ReadsSnapshots (λ rev (data : bytes), rev = StringId data).
Proof.
  intros c req w rep w' rev. cbn. unfold memory_read. destruct (mw_files w !! _) as [data|]; [|done].
  intros [= <- _] [= <-]. by exists data.
Qed.

Definition read_source : str := str! "one" ++ [NL] ++ str! "two" ++ [NL] ++ str! "three".
Definition small_config : ReadConfig :=
  {| rc_max_lines := 2; rc_max_output_bytes := 281; rc_max_scan_bytes := 100; rc_chunk_bytes := 64 |}.
Definition read_world : MemoryWorld :=
  {| mw_files := {[ {| root_id := memory_root; path := str! "a" |} := utf8_encode read_source ]};
     mw_writes := ∅; mw_removes := ∅ |}.
Definition read_sample_tool : ReadTool :=
  {| rt_cwd := ExecutionPath_root memory_root; rt_config := small_config |}.
Definition read_sample_context : OperationContext := {| cancellation := 0; deadline := None |}.
Definition read_sample_input : ReadInput :=
  {| ri_file_path := str! "a"; ri_offset := Some 2%N; ri_limit := Some 1%N |}.

Lemma read_source_valid : valid_str read_source.
Proof. apply (bool_decide_unpack _). vm_compute. exact I. Qed.
Lemma read_source_no_nul : NUL ∉ read_source.
Proof. apply (bool_decide_unpack _). vm_compute. exact I. Qed.
Lemma read_source_fits i l :
  split_inclusive read_source !! i = Some l →
  line_cost (N.of_nat i + 1) l ≤ rc_max_output_bytes small_config - FOOTER_RESERVE.
Proof. intros Hi. do 3 (destruct i as [|i]; [injection Hi as <-; vm_compute; lia|]). done. Qed.

Lemma read_text_window_witness :
  read_text read_source (Some 2%N) (Some 1%N) small_config
  = Ok {| to_content := str! "two" ++ [NL]; to_start_line := 2; to_end_line := Some 2%N; to_eof := false;
          to_truncation := Some LineLimit; to_next_offset := Some 3%N |}.
Proof.
  rewrite (read_text_window read_source (Some 2%N) (Some 1%N) small_config 2 1 read_source_valid read_source_no_nul);
    vm_compute; first reflexivity; try done; lia.
Defined.
Lemma read_on_whole_witness : read_on 4 read_source small_config 1 = Ok read_source.
Proof.
  apply (read_on_whole read_source small_config read_source_valid read_source_no_nul); try (vm_compute; done).
  - vm_compute; lia.
  - exact read_source_fits.
Defined.
Lemma read_file_is_read_text_witness :
  ∃ out, (execute read_sample_tool read_sample_context read_sample_input read_world).1 = Ok out ∧
    read_text read_source (Some 2%N) (Some 1%N) small_config = Ok (ro_window out).
Proof.
  destruct (execute read_sample_tool read_sample_context read_sample_input read_world) as [r w'] eqn:H.
  pose proof (f_equal fst H) as Hr. vm_compute in Hr. cbn [fst]. subst r.
  eexists; split; [reflexivity|].
  destruct (read_file_is_read_text (λ rev (data : bytes), rev = StringId data) _ _ _ _ _ _ H
              ltac:(intros d d' -> [=]; done)) as (data & Hd & Hread).
  apply (Hread read_source). cbn [ro_revision] in Hd. injection Hd as <-. vm_compute. reflexivity.
Defined.
