(* ===== verification/PatchParser.v ===== *)
(** [tool-apply-patch], part 1: the freeform patch syntax
    ([apply-patch/src/parser.rs]).  A line-driven state machine: [Parser] is the
    record the source threads mutably, [process_line] its transition. *)
From Stdlib Require Import ZifyBool Sorted.
From stdpp Require Import prelude gmap strings pretty list.
From S2P Require Import Prelude.
From S2P Require Import Text.

Definition BEGIN_PATCH_MARKER : str := str! "*** Begin Patch".
Definition END_PATCH_MARKER : str := str! "*** End Patch".
Definition ADD_FILE_MARKER : str := str! "*** Add File: ".
Definition DELETE_FILE_MARKER : str := str! "*** Delete File: ".
Definition UPDATE_FILE_MARKER : str := str! "*** Update File: ".
Definition MOVE_TO_MARKER : str := str! "*** Move to: ".
Definition EOF_MARKER : str := str! "*** End of File".
Definition CHANGE_CONTEXT_MARKER : str := str! "@@ ".
Definition EMPTY_CHANGE_CONTEXT_MARKER : str := str! "@@".
Definition ENVIRONMENT_ID_MARKER : str := str! "*** Environment ID:".

Record UpdateFileChunk := {
  change_context : option str;
  old_lines : list str;
  new_lines : list str;
  context_line_indices : list (nat * nat);
  is_end_of_file : bool;
}.

Inductive Hunk :=
  | AddFile (path : str) (contents : str)
  | DeleteFile (path : str)
  | UpdateFile (path : str) (move_path : option str) (chunks : list UpdateFileChunk).

#[export] Instance UpdateFileChunk_eq_dec : EqDecision UpdateFileChunk.
Proof. solve_decision. Defined.
#[export] Instance Hunk_eq_dec : EqDecision Hunk.
Proof. solve_decision. Defined.

Definition source_path (h : Hunk) : str :=
  match h with AddFile p _ | DeleteFile p | UpdateFile p _ _ => p end.
Definition affected_path (h : Hunk) : str :=
  match h with UpdateFile _ (Some p) _ => p | _ => source_path h end.

Definition default_chunk : UpdateFileChunk :=
  {| change_context := None; old_lines := []; new_lines := [];
     context_line_indices := []; is_end_of_file := false |}.

(** [UpdateFileChunk::push_context_line], and the pushes on one side. *)
Definition push_context_line (line : str) (c : UpdateFileChunk) : UpdateFileChunk :=
  {| change_context := change_context c;
     old_lines := old_lines c ++ [line];
     new_lines := new_lines c ++ [line];
     context_line_indices :=
       context_line_indices c ++ [(length (old_lines c), length (new_lines c))];
     is_end_of_file := is_end_of_file c |}.
Definition push_new_line (line : str) (c : UpdateFileChunk) : UpdateFileChunk :=
  {| change_context := change_context c; old_lines := old_lines c;
     new_lines := new_lines c ++ [line];
     context_line_indices := context_line_indices c; is_end_of_file := is_end_of_file c |}.
Definition push_old_line (line : str) (c : UpdateFileChunk) : UpdateFileChunk :=
  {| change_context := change_context c; old_lines := old_lines c ++ [line];
     new_lines := new_lines c;
     context_line_indices := context_line_indices c; is_end_of_file := is_end_of_file c |}.
Definition set_end_of_file (c : UpdateFileChunk) : UpdateFileChunk :=
  {| change_context := change_context c; old_lines := old_lines c; new_lines := new_lines c;
     context_line_indices := context_line_indices c; is_end_of_file := true |}.

Inductive ParseError :=
  | InvalidPatch (message : str)
  | InvalidHunk (message : str) (line_number : nat).

(** [impl Display for ParseError]. *)
Definition show_ParseError (e : ParseError) : str :=
  match e with
  | InvalidPatch m => format! [str! "invalid patch: "; m]
  | InvalidHunk m n => format! [str! "invalid hunk at line "; show_nat n; str! ", "; m]
  end.

Record ParsedPatch := {
  patch : str;
  pp_hunks : list Hunk;
  pp_environment_id : option str;
}.

Inductive Mode :=
  | NotStarted
  | StartedPatch
  | ModeAddFile
  | ModeDeleteFile
  | ModeUpdateFile (hunk_line_number : nat)
  | EndedPatch.
#[export] Instance Mode_eq_dec : EqDecision Mode.
Proof. solve_decision. Defined.

Record Parser := {
  mode : Mode;
  line_number : nat;
  hunks : list Hunk;
  environment_id : option str;
}.
Definition default_parser : Parser :=
  {| mode := NotStarted; line_number := 0; hunks := []; environment_id := None |}.
Definition set_mode (m : Mode) (p : Parser) : Parser :=
  {| mode := m; line_number := line_number p; hunks := hunks p;
     environment_id := environment_id p |}.
Definition set_hunks (hs : list Hunk) (p : Parser) : Parser :=
  {| mode := mode p; line_number := line_number p; hunks := hs;
     environment_id := environment_id p |}.
Definition set_environment_id (e : str) (p : Parser) : Parser :=
  {| mode := mode p; line_number := line_number p; hunks := hunks p;
     environment_id := Some e |}.
Definition next_line (p : Parser) : Parser :=
  {| mode := mode p; line_number := S (line_number p); hunks := hunks p;
     environment_id := environment_id p |}.
(** [hunks.push(h)], and [*hunks.last_mut() = h]. *)
Definition push_hunk (h : Hunk) (p : Parser) : Parser := set_hunks (hunks p ++ [h]) p.
Definition set_last {A} (l : list A) (x : A) : list A := take (pred (length l)) l ++ [x].
Definition set_last_hunk (h : Hunk) (p : Parser) : Parser := set_hunks (set_last (hunks p) h) p.

Definition begin_error : ParseError :=
  InvalidPatch (str! "The first line of the patch must be '*** Begin Patch'").
Definition end_error : ParseError :=
  InvalidPatch (str! "The last line of the patch must be '*** End Patch'").
Definition invalid_update_line (line : str) : str :=
  format! [str! "Unexpected line found in update hunk: '"; line; str! "'. Every line should start with ' ' (context line), '+' (added line), or '-' (removed line)"].
Definition expected_context_marker (line : str) : str :=
  format! [str! "Expected update hunk to start with a @@ context marker, got: '"; line; str! "'"].
Definition no_lines_message : str := str! "Update hunk does not contain any lines".
Definition invalid_header (p : Parser) (line : str) : ParseError :=
  InvalidHunk
    (format! [str! "'"; line; str! "' is not a valid hunk header. Valid hunk headers: '*** Add File: {path}', '*** Delete File: {path}', '*** Update File: {path}'"])
    (line_number p).

Definition first_is_begin (ls : list str) : bool :=
  match head ls with Some l => str_eqb (trim l) BEGIN_PATCH_MARKER | None => false end.
Definition last_is_end (ls : list str) : bool :=
  match last ls with Some l => str_eqb (trim l) END_PATCH_MARKER | None => false end.
Definition boundaries_valid (ls : list str) : bool := first_is_begin ls && last_is_end ls.
Definition check_boundaries (ls : list str) : result ParseError unit :=
  if negb (first_is_begin ls) then Err begin_error
  else if negb (last_is_end ls) then Err end_error
  else Ok tt.

(** The heredoc openers accepted for shell-shaped calls. *)
Definition QUOTE : char := 34.
Definition is_heredoc_open (l : str) : bool :=
  str_eqb l (str! "<<EOF") || str_eqb l (str! "<<'EOF'")
  || str_eqb l (str! "<<" ++ [QUOTE] ++ str! "EOF" ++ [QUOTE]).

Definition patch_lines (ls : list str) : result ParseError (list str) :=
  if boundaries_valid ls then Ok ls
  else
    let heredoc :=
      match ls with
      | first :: _ :: _ =>
        is_heredoc_open first
        && match last ls with Some l => ends_with (str! "EOF") l | None => false end
        && (4 <=? length ls)
      | _ => false
      end in
    if heredoc then
      inner ← slice ls 1 (length ls - 1);
      _ ← check_boundaries inner;
      Ok inner
    else
      _ ← check_boundaries ls;
      Panic (* unreachable!: boundary validation either returns or errors *).

Definition chunk_is_empty (c : UpdateFileChunk) : bool :=
  bool_decide (old_lines c = []) && bool_decide (new_lines c = []).
Definition last_chunk_is_empty (chunks : list UpdateFileChunk) : bool :=
  match last chunks with Some c => chunk_is_empty c | None => false end.

Definition ensure_update_not_empty (p : Parser) (line : str) : result ParseError unit :=
  match last (hunks p) with
  | Some (UpdateFile path _ chunks) =>
    match chunks, mode p with
    | [], ModeUpdateFile hunk_line_number =>
      Err (InvalidHunk (format! [str! "Update file hunk for path '"; path; str! "' is empty"])
             hunk_line_number)
    | _, _ =>
      if last_chunk_is_empty chunks then
        Err (InvalidHunk
               (if str_eqb line END_PATCH_MARKER then no_lines_message
                else invalid_update_line line)
               (line_number p))
      else Ok tt
    end
  | _ => Ok tt
  end.

(** [handle_header]: whether the line was a header, and the parser after it. *)
Definition handle_header (p : Parser) (line : str) : result ParseError (bool * Parser) :=
  match (if bool_decide (mode p = StartedPatch) then strip_prefix ENVIRONMENT_ID_MARKER line
         else None) with
  | Some environment_id_ =>
    match environment_id p with
    | Some _ =>
      Err (InvalidPatch (str! "apply_patch environment_id cannot be specified more than once"))
    | None =>
      let environment_id_ := trim environment_id_ in
      if str_is_empty environment_id_
      then Err (InvalidPatch (str! "apply_patch environment_id cannot be empty"))
      else Ok (true, set_environment_id environment_id_ p)
    end
  | None =>
    if str_eqb line END_PATCH_MARKER then
      _ ← ensure_update_not_empty p line; Ok (true, set_mode EndedPatch p)
    else match strip_prefix ADD_FILE_MARKER line with
    | Some path =>
      _ ← ensure_update_not_empty p line;
      Ok (true, set_mode ModeAddFile (push_hunk (AddFile path []) p))
    | None =>
    match strip_prefix DELETE_FILE_MARKER line with
    | Some path =>
      _ ← ensure_update_not_empty p line;
      Ok (true, set_mode ModeDeleteFile (push_hunk (DeleteFile path) p))
    | None =>
    match strip_prefix UPDATE_FILE_MARKER line with
    | Some path =>
      _ ← ensure_update_not_empty p line;
      Ok (true, set_mode (ModeUpdateFile (line_number p)) (push_hunk (UpdateFile path None []) p))
    | None => Ok (false, p)
    end end end
  end.

(** [LastChunk::get_or_insert_default], followed by a change of that chunk. *)
Definition alter_last_chunk (f : UpdateFileChunk → UpdateFileChunk)
    (chunks : list UpdateFileChunk) : list UpdateFileChunk :=
  match last chunks with
  | Some c => set_last chunks (f c)
  | None => [f default_chunk]
  end.

Definition is_context_marker (update_line : str) : bool :=
  str_eqb update_line EMPTY_CHANGE_CONTEXT_MARKER || starts_with CHANGE_CONTEXT_MARKER update_line.

(** A line of an update hunk that is not a header: the arm [Mode::UpdateFile] of
    [process_line] after [handle_header]. *)
Definition process_update_line (p : Parser) (hunk_line_number : nat) (line update_line : str)
    (path : str) (move_path : option str) (chunks : list UpdateFileChunk)
  : result ParseError Parser :=
  let put (m : option str) (cs : list UpdateFileChunk) := set_last_hunk (UpdateFile path m cs) p in
  let after_eof := match last chunks with Some c => is_end_of_file c | None => false end in
  if after_eof && str_is_empty update_line then Ok p
  else if after_eof && negb (is_context_marker update_line) then
    Err (InvalidHunk (expected_context_marker line) (line_number p))
  else
  match (if bool_decide (chunks = []) && bool_decide (move_path = None)
         then strip_prefix MOVE_TO_MARKER update_line else None) with
  | Some destination =>
    Ok (set_mode (ModeUpdateFile hunk_line_number) (put (Some destination) chunks))
  | None =>
  if is_context_marker update_line && last_chunk_is_empty chunks then
    Err (InvalidHunk (invalid_update_line line) (line_number p))
  else if str_eqb update_line EMPTY_CHANGE_CONTEXT_MARKER then
    Ok (put move_path (chunks ++ [default_chunk]))
  else
  match strip_prefix CHANGE_CONTEXT_MARKER update_line with
  | Some context =>
    Ok (put move_path (chunks ++ [{| change_context := Some context; old_lines := [];
      new_lines := []; context_line_indices := []; is_end_of_file := false |}]))
  | None =>
  if str_eqb update_line EOF_MARKER then
    if last_chunk_is_empty chunks then Err (InvalidHunk no_lines_message (line_number p))
    else match last chunks with
         | Some c => Ok (put move_path (set_last chunks (set_end_of_file c)))
         | None => Ok p
         end
  else if str_is_empty line then
    Ok (put move_path (alter_last_chunk (push_context_line []) chunks))
  else
  match strip_prefix [SPACE] line with
  | Some context => Ok (put move_path (alter_last_chunk (push_context_line context) chunks))
  | None =>
  match strip_prefix (str! "+") line with
  | Some added => Ok (put move_path (alter_last_chunk (push_new_line added) chunks))
  | None =>
  match strip_prefix (str! "-") line with
  | Some removed => Ok (put move_path (alter_last_chunk (push_old_line removed) chunks))
  | None =>
    let has_lines := match last chunks with Some c => negb (chunk_is_empty c) | None => false end in
    Err (InvalidHunk (if has_lines then expected_context_marker line else invalid_update_line line)
           (line_number p))
  end end end end end.

Definition process_line (p : Parser) (line : str) : result ParseError Parser :=
  let trimmed := trim line in
  match mode p with
  | NotStarted =>
    if str_eqb trimmed BEGIN_PATCH_MARKER then Ok (set_mode StartedPatch p) else Err begin_error
  | StartedPatch | ModeDeleteFile =>
    '(handled, p') ← handle_header p trimmed;
    if (handled : bool) then Ok p' else Err (invalid_header p' trimmed)
  | ModeAddFile =>
    '(handled, p') ← handle_header p trimmed;
    if (handled : bool) then Ok p'
    else match strip_prefix (str! "+") line, last (hunks p') with
         | Some content, Some (AddFile path contents) =>
           Ok (set_last_hunk (AddFile path (contents ++ content ++ [NL])) p')
         | _, _ => Err (invalid_header p' trimmed)
         end
  | ModeUpdateFile hunk_line_number =>
    let update_line := trim_end line in
    '(handled, p') ← handle_header p update_line;
    if (handled : bool) then Ok p'
    else match last (hunks p') with
         | Some (UpdateFile path move_path chunks) =>
           process_update_line p' hunk_line_number line update_line path move_path chunks
         | _ => Panic (* unreachable!: update mode has an update hunk *)
         end
  | EndedPatch =>
    if str_is_empty trimmed then Ok p else Err end_error
  end.

(** One iteration of [parse_patch]'s loop over [lines.iter().enumerate()]. *)
Definition parse_step (n : nat) (p : Parser) (il : nat * str) : result ParseError Parser :=
  let '(index, line) := il in
  let p := next_line p in
  if (S index =? n) && str_eqb (trim line) END_PATCH_MARKER then
    _ ← ensure_update_not_empty p END_PATCH_MARKER; Ok (set_mode EndedPatch p)
  else
    process_line p (match strip_suffix [CR] line with Some l => l | None => line end).

Definition enumerate {A} (l : list A) : list (nat * A) := zip (seq 0 (length l)) l.

Definition parse_patch (input : str) : result ParseError ParsedPatch :=
  let original_lines := lines (trim input) in
  ls ← patch_lines original_lines;
  let patch := join [NL] ls in
  p ← fold_result (parse_step (length ls)) default_parser (enumerate ls);
  if negb (bool_decide (mode p = EndedPatch)) then Err end_error
  else Ok {| patch := patch; pp_hunks := hunks p; pp_environment_id := environment_id p |}.

(** ** Well-formed output *)

(** The context lines of a chunk: strictly increasing positions in both sides, at
    which the two sides hold the same line. *)
Definition before (a b : nat * nat) : Prop := a.1 < b.1 ∧ a.2 < b.2.
Definition same_line (old new : list str) (i : nat * nat) : Prop :=
  ∃ l, old !! i.1 = Some l ∧ new !! i.2 = Some l.
Definition indices_ok (old new : list str) (idx : list (nat * nat)) : Prop :=
  StronglySorted before idx ∧ Forall (same_line old new) idx.
Definition chunk_ok (c : UpdateFileChunk) : Prop :=
  indices_ok (old_lines c) (new_lines c) (context_line_indices c).

(** A finished hunk: contents are whole lines, and an update has at least one
    chunk, each with lines. *)
Definition whole_lines (contents : str) : Prop := contents = [] ∨ last contents = Some NL.
Definition hunk_ok (h : Hunk) : Prop :=
  match h with
  | AddFile _ contents => whole_lines contents
  | DeleteFile _ => True
  | UpdateFile _ _ chunks =>
    chunks ≠ [] ∧ Forall (λ c, chunk_ok c ∧ chunk_is_empty c = false) chunks
  end.

(** The hunk under construction: only its last chunk may still be empty. *)
Definition hunk_pending (h : Hunk) : Prop :=
  match h with
  | UpdateFile _ _ chunks =>
    Forall chunk_ok chunks ∧
    ∀ cs c, chunks = cs ++ [c] → Forall (λ c, chunk_is_empty c = false) cs
  | _ => hunk_ok h
  end.

Definition mode_matches (m : Mode) (h : Hunk) : Prop :=
  match m, h with
  | ModeAddFile, AddFile _ _ => True
  | ModeDeleteFile, DeleteFile _ => True
  | ModeUpdateFile _, UpdateFile _ _ _ => True
  | EndedPatch, _ => hunk_ok h
  | _, _ => False
  end.
Definition mode_without_hunks (m : Mode) : Prop :=
  match m with NotStarted | StartedPatch | EndedPatch => True | _ => False end.

Definition parser_inv (p : Parser) : Prop :=
  (hunks p = [] ∧ mode_without_hunks (mode p)) ∨
  ∃ hs h, hunks p = hs ++ [h] ∧ Forall hunk_ok hs ∧ hunk_pending h ∧ mode_matches (mode p) h.


Lemma same_line_app old new old' new' i :
  same_line old new i → same_line (old ++ old') (new ++ new') i.
Proof. intros (l & ? & ?). exists l. by rewrite !lookup_app_l by (by eapply lookup_lt_Some). Qed.
Lemma indices_ok_app old new old' new' idx :
  indices_ok old new idx → indices_ok (old ++ old') (new ++ new') idx.
Proof. intros [? ?]. split; [done|]. eapply Forall_impl; [done|]. intros. by apply same_line_app. Qed.

Lemma push_context_line_ok line c : chunk_ok c → chunk_ok (push_context_line line c).
Proof.
  intros Hc. unfold chunk_ok, push_context_line. simpl.
  pose proof (indices_ok_app _ _ [line] [line] _ Hc) as [Hs Hf]. split.
  - apply StronglySorted_snoc; [done|]. destruct Hc as [_ Hl].
    apply (Forall_impl _ _ _ Hl). intros i (l & Ho%lookup_lt_Some & Hn%lookup_lt_Some). unfold before; simpl. lia.
  - apply Forall_app. split; [done|]. repeat constructor. exists line. simpl.
    by rewrite !list_lookup_middle.
Qed.
Lemma push_old_line_ok line c : chunk_ok c → chunk_ok (push_old_line line c).
Proof. intros Hc. unfold chunk_ok. simpl. rewrite <-(app_nil_r (new_lines c)). by apply indices_ok_app. Qed.
Lemma push_new_line_ok line c : chunk_ok c → chunk_ok (push_new_line line c).
Proof. intros Hc. unfold chunk_ok. simpl. rewrite <-(app_nil_r (old_lines c)). by apply indices_ok_app. Qed.
Lemma fresh_chunk_ok ctx b :
  chunk_ok {| change_context := ctx; old_lines := []; new_lines := [];
              context_line_indices := []; is_end_of_file := b |}.
Proof. repeat constructor. Qed.
Create HintDb patch.
#[export] Hint Resolve push_context_line_ok push_old_line_ok push_new_line_ok fresh_chunk_ok : patch.

Lemma set_last_snoc {A} (l : list A) x y : set_last (l ++ [x]) y = l ++ [y].
Proof.
  unfold set_last. rewrite length_app. simpl. replace (pred (length l + 1)) with (length l) by lia.
  by rewrite take_app_length.
Qed.

(** Changing the last chunk, or opening a first one, keeps an update pending. *)
Lemma pending_alter f path mv mv' chunks :
  (∀ c, chunk_ok c → chunk_ok (f c)) →
  hunk_pending (UpdateFile path mv chunks) →
  hunk_pending (UpdateFile path mv' (alter_last_chunk f chunks)).
Proof.
  intros Hf [Hok Hne]. unfold alter_last_chunk.
  destruct chunks as [|c cs _] using rev_ind; simpl.
  - split; [repeat constructor; apply Hf, fresh_chunk_ok|].
    intros [|? []] ?; [constructor|done|done].
  - rewrite last_snoc, set_last_snoc. apply Forall_app in Hok as [Hcs Hc].
    split; [apply Forall_app_2; [done|]; rewrite Forall_singleton in *; auto|].
    intros cs' c' [-> _]%app_inj_tail. by eapply Hne.
Qed.
Lemma pending_push path mv mv' chunks c :
  chunk_ok c → last_chunk_is_empty chunks = false →
  hunk_pending (UpdateFile path mv chunks) →
  hunk_pending (UpdateFile path mv' (chunks ++ [c])).
Proof.
  intros Hc Hlast [Hok Hne]. split; [by apply Forall_app_2; [|apply Forall_singleton]|].
  intros cs c' [<- _]%app_inj_tail. clear c'.
  destruct chunks as [|x cs _] using rev_ind; [constructor|].
  unfold last_chunk_is_empty in Hlast. rewrite last_snoc in Hlast.
  apply Forall_app_2; [by eapply Hne|by apply Forall_singleton].
Qed.
Lemma pending_done path mv chunks :
  hunk_pending (UpdateFile path mv chunks) → chunks ≠ [] → last_chunk_is_empty chunks = false →
  hunk_ok (UpdateFile path mv chunks).
Proof.
  intros [Hok Hne] Hnil Hlast. split; [done|].
  destruct chunks as [|x cs _] using rev_ind; [done|].
  unfold last_chunk_is_empty in Hlast. rewrite last_snoc in Hlast.
  specialize (Hne _ _ eq_refl). apply Forall_app in Hok as [Hcs Hx]. rewrite Forall_singleton in Hx.
  apply Forall_app_2; [by apply Forall_and|]. constructor; [by split|constructor].
Qed.

(** ** The parser's invariant *)

(** What a successful [ensure_update_not_empty] establishes: the hunk being built
    is finished. *)
Lemma ensure_finished p line :
  parser_inv p → ensure_update_not_empty p line = Ok tt → Forall hunk_ok (hunks p).
Proof.
  intros [[-> _]|(hs & h & Hh & Hs & Hp & Hm)] He; [constructor|].
  rewrite Hh. apply Forall_app_2; [done|]. constructor; [|constructor].
  destruct (decide (mode p = EndedPatch)) as [Hend|Hend]; [by rewrite Hend in Hm|].
  destruct h as [| |path mv chunks]; [done|done|].
  apply (pending_done _ _ _ Hp); unfold ensure_update_not_empty in He;
    rewrite Hh, last_snoc in He.
  - intros ->. by destruct (mode p).
  - destruct (last_chunk_is_empty chunks) eqn:E; [|done]. by repeat case_match.
Qed.

Lemma ensure_no_panic p line : ensure_update_not_empty p line ≠ Panic.
Proof. unfold ensure_update_not_empty. by repeat case_match. Qed.

Lemma inv_push p h m :
  Forall hunk_ok (hunks p) → hunk_pending h → mode_matches m h →
  parser_inv (set_mode m (push_hunk h p)).
Proof. intros. right. exists (hunks p), h. by split_and!. Qed.

Lemma hunk_ok_pending h : hunk_ok h → hunk_pending h.
Proof.
  destruct h as [| |path mv chunks]; simpl; [done|done|]. intros [_ Hf].
  apply Forall_and in Hf as [? Hne]. split; [done|].
  intros cs c ->. by apply Forall_app in Hne as [? _].
Qed.
Lemma inv_ended p : Forall hunk_ok (hunks p) → parser_inv (set_mode EndedPatch p).
Proof.
  intros H. unfold parser_inv. simpl. destruct (hunks p) as [|h hs _] using rev_ind; [by left|].
  right. apply Forall_app in H as [Hs Hh]. rewrite Forall_singleton in Hh.
  exists hs, h. split_and!; [done|done|by apply hunk_ok_pending|done].
Qed.

(** Header lines. *)
Lemma handle_header_inv p line b p' :
  parser_inv p → handle_header p line = Ok (b, p') → parser_inv p' ∧ (b = false → p' = p).
Proof.
  intros Hinv H. unfold handle_header in H.
  destruct (if bool_decide _ then _ else _) as [env|].
  { destruct (environment_id p); [done|]. case_match; [done|]. simplify_eq. done. }
  destruct (str_eqb line END_PATCH_MARKER).
  { inv_ok H. simplify_eq. destruct a. split; [|done]. by eapply inv_ended, ensure_finished. }
  destruct (strip_prefix ADD_FILE_MARKER line).
  { inv_ok H. simplify_eq. destruct a. split; [|done].
    apply inv_push; [by eapply ensure_finished|by left|done]. }
  destruct (strip_prefix DELETE_FILE_MARKER line).
  { inv_ok H. simplify_eq. destruct a. split; [|done].
    apply inv_push; [by eapply ensure_finished|done|done]. }
  destruct (strip_prefix UPDATE_FILE_MARKER line); simplify_eq; [|done].
  inv_ok H. simplify_eq. destruct a. split; [|done].
  apply inv_push; [by eapply ensure_finished| |done].
  split; [constructor|]. by intros [].
Qed.
Lemma handle_header_no_panic p line : handle_header p line ≠ Panic.
Proof.
  unfold handle_header. pose proof (ensure_no_panic p line) as Hp.
  destruct (if bool_decide _ then _ else _); [by repeat case_match|].
  destruct (ensure_update_not_empty p line); [|by repeat case_match|done].
  by repeat case_match.
Qed.

(** Lines inside an update. *)
Lemma inv_set_update p hs path mv cs n h0 :
  hunks p = hs ++ [h0] → Forall hunk_ok hs → mode p = ModeUpdateFile n →
  hunk_pending (UpdateFile path mv cs) → parser_inv (set_last_hunk (UpdateFile path mv cs) p).
Proof.
  intros Hh Hs Hm Hp. right. exists hs, (UpdateFile path mv cs).
  cbn [hunks mode set_last_hunk set_hunks]. rewrite Hh, set_last_snoc, Hm. by split_and!.
Qed.

Lemma process_update_line_inv p n line ul hs path mv chunks p' :
  hunks p = hs ++ [UpdateFile path mv chunks] → Forall hunk_ok hs → mode p = ModeUpdateFile n →
  hunk_pending (UpdateFile path mv chunks) →
  process_update_line p n line ul path mv chunks = Ok p' → parser_inv p'.
Proof.
  intros Hh Hs Hm Hp H.
  assert (Hinv : parser_inv p).
  { right. exists hs, (UpdateFile path mv chunks). rewrite Hm. by split_and!. }
  pose proof (λ f mv', pending_alter f path mv mv' chunks) as Halter.
  unfold process_update_line in H.
  destruct (_ && str_is_empty ul); [by simplify_eq|].
  destruct (_ && negb (is_context_marker ul)); [done|].
  destruct (if bool_decide (chunks = []) && bool_decide (mv = None) then _ else _) as [dest|] eqn:Hmv.
  { simplify_eq. right. exists hs, (UpdateFile path (Some dest) chunks).
    cbn [hunks mode set_last_hunk set_hunks set_mode]. rewrite Hh, set_last_snoc. by split_and!. }
  destruct (is_context_marker ul && last_chunk_is_empty chunks) eqn:Hctx; [done|].
  destruct (str_eqb ul EMPTY_CHANGE_CONTEXT_MARKER) eqn:Hem.
  { simplify_eq. eapply inv_set_update; [done..|]. eapply pending_push; [apply fresh_chunk_ok| |done].
    unfold is_context_marker in Hctx. by rewrite Hem in Hctx. }
  destruct (strip_prefix CHANGE_CONTEXT_MARKER ul) as [ctx|] eqn:Hcm.
  { simplify_eq. eapply inv_set_update; [done..|]. eapply pending_push; [apply fresh_chunk_ok| |done].
    unfold is_context_marker, starts_with in Hctx. by rewrite Hcm, orb_true_r in Hctx. }
  destruct (str_eqb ul EOF_MARKER).
  { destruct (last_chunk_is_empty chunks); [done|].
    destruct chunks as [|c cs _] using rev_ind; [by simplify_eq/=|].
    rewrite last_snoc, set_last_snoc in H. simplify_eq.
    eapply inv_set_update; [done..|].
    specialize (Halter set_end_of_file mv). unfold alter_last_chunk in Halter.
    rewrite last_snoc, set_last_snoc in Halter. apply Halter; [done|done]. }
  destruct (str_is_empty line); [simplify_eq; eapply inv_set_update; eauto with patch|].
  destruct (strip_prefix [SPACE] line); [simplify_eq; eapply inv_set_update; eauto with patch|].
  destruct (strip_prefix (str! "+") line); [simplify_eq; eapply inv_set_update; eauto with patch|].
  destruct (strip_prefix (str! "-") line); [simplify_eq; eapply inv_set_update; eauto with patch|].
  done.
Qed.

Lemma process_update_line_no_panic p n line ul path mv chunks :
  process_update_line p n line ul path mv chunks ≠ Panic.
Proof. unfold process_update_line. by repeat case_match. Qed.

Lemma process_line_inv p line p' :
  parser_inv p → process_line p line = Ok p' → parser_inv p'.
Proof.
  intros Hinv H. unfold process_line in H. destruct (mode p) as [| | | |n|] eqn:Hm.
  - case_match; simplify_eq. left. destruct Hinv as [[? _]|(?&?&_&_&_&Hmm)]; [done|].
    by rewrite Hm in Hmm.
  - inv_ok H. destruct a as [b q]. apply handle_header_inv in H0 as [? _]; [|done].
    case_match; by simplify_eq.
  - inv_ok H. destruct a as [b q]. apply handle_header_inv in H0 as [? Hq]; [|done].
    destruct b; [by simplify_eq|]. rewrite Hq in * by done. clear Hq.
    destruct (strip_prefix (str! "+") line) as [content|]; [|done].
    destruct Hinv as [[Hnil _]|(hs&h&Hh&Hs&Hp&Hmm)]; [by rewrite Hnil in H|].
    rewrite Hh, last_snoc in H. destruct h as [path contents| |]; simplify_eq.
    right. exists hs. eexists. cbn [hunks mode set_last_hunk set_hunks].
    rewrite Hh, set_last_snoc, Hm.
    split_and!; [done|done| |done]. right. by rewrite (assoc_L (++)), last_snoc.
  - inv_ok H. destruct a as [b q]. apply handle_header_inv in H0 as [? _]; [|done].
    case_match; by simplify_eq.
  - inv_ok H. destruct a as [b q]. apply handle_header_inv in H0 as [? Hq]; [|done].
    destruct b; [by simplify_eq|]. rewrite Hq in * by done. clear Hq.
    destruct Hinv as [[Hn Hw]|(hs&h&Hh&Hs&Hp&Hmm)]; [by rewrite Hn in H|].
    rewrite Hh, last_snoc in H. destruct h as [| |path mv chunks]; [done..|].
    by eapply process_update_line_inv.
  - case_match; by simplify_eq.
Qed.
Lemma process_line_no_panic p line : parser_inv p → process_line p line ≠ Panic.
Proof.
  intros Hinv. unfold process_line.
  destruct (mode p) as [| | | |n|] eqn:Hm; [by case_match| | | | |by case_match];
    (apply bind_no_panic; [apply handle_header_no_panic|]; intros [[] q] Hq; [done|]);
    [done|by repeat case_match|done|].
  apply handle_header_inv in Hq as [_ ->]; [|done..].
  destruct Hinv as [[Hn Hw]|(hs&h&Hh&Hs&Hp&Hmm)]; [by rewrite Hm in Hw|].
  rewrite Hh, last_snoc. rewrite Hm in Hmm. destruct h; try done.
  apply process_update_line_no_panic.
Qed.

Lemma parse_step_inv n p il p' :
  parser_inv p → parse_step n p il = Ok p' → parser_inv p'.
Proof.
  destruct il as [i line]. intros Hinv H. unfold parse_step in H.
  assert (Hinv' : parser_inv (next_line p)) by done.
  destruct ((S i =? n) && _) eqn:E; [|by eapply process_line_inv].
  inv_ok H. destruct a. simplify_eq. by eapply inv_ended, ensure_finished.
Qed.
Lemma parse_step_no_panic n p il : parser_inv p → parse_step n p il ≠ Panic.
Proof.
  destruct il as [i line]. intros Hinv. unfold parse_step.
  destruct ((S i =? n) && _); [|by apply process_line_no_panic].
  apply bind_no_panic; [apply ensure_no_panic|done].
Qed.

Lemma default_parser_inv : parser_inv default_parser.
Proof. by left. Qed.

Lemma parse_loop_inv n p l p' :
  parser_inv p → fold_result (parse_step n) p l = Ok p' → parser_inv p'.
Proof.
  intros Hp. apply (fold_result_inv parser_inv); [done|]. intros. by eapply parse_step_inv.
Qed.

Lemma check_boundaries_exhaustive ls :
  boundaries_valid ls = false →
  (check_boundaries ls ≫= λ _, (Panic : result ParseError (list str))) ≠ Panic.
Proof.
  unfold boundaries_valid, check_boundaries.
  by destruct (first_is_begin ls), (last_is_end ls).
Qed.
Lemma patch_lines_no_panic ls : patch_lines ls ≠ Panic.
Proof.
  unfold patch_lines. destruct (boundaries_valid ls) eqn:Hb; [done|].
  destruct ls as [|first [|second rest]]; [by apply check_boundaries_exhaustive..|].
  cbv zeta. case_match; [|by apply check_boundaries_exhaustive].
  rewrite slice_ok by (simpl; lia). step_result.
  unfold check_boundaries. by repeat case_match.
Qed.

Lemma parse_patch_hunks input pp : parse_patch input = Ok pp → Forall hunk_ok (pp_hunks pp).
Proof.
  unfold parse_patch. intros H. inv_ok H. inv_ok H. case_match; [done|]. simplify_eq. simpl.
  apply parse_loop_inv in H1; [|apply default_parser_inv].
  match goal with Hm : negb _ = false |- _ =>
    apply negb_false_iff, bool_decide_eq_true in Hm; rename Hm into Hmode end.
  destruct H1 as [[-> _]|(hs&h&->&Hs&_&Hm)]; [constructor|].
  rewrite Hmode in Hm. by apply Forall_app_2; [|constructor].
Qed.
Lemma parse_patch_no_panic input : parse_patch input ≠ Panic.
Proof.
  unfold parse_patch. apply bind_no_panic; [apply patch_lines_no_panic|]. intros ls _.
  apply bind_no_panic; [|intros p _; by case_match].
  apply (fold_result_no_panic parser_inv); eauto using default_parser_inv,
    parse_step_no_panic, parse_step_inv.
Qed.

(** C38. Every hunk of an accepted patch is finished: file contents are whole lines,
    every update has at least one chunk, every chunk has lines, and the recorded
    context positions are strictly increasing and name equal lines of both sides. *)
Theorem parse_patch_hunks_ok (input : str) (pp : ParsedPatch) :
  parse_patch input = Ok pp → Forall hunk_ok (pp_hunks pp).
Proof. apply parse_patch_hunks. Qed.

(** Parsing never panics: both [unreachable!] arms (a patch whose boundaries
    neither hold nor fail, update mode without an update hunk) are unreachable,
    and the heredoc slice is in range, for every input. *)
Theorem parse_patch_never_panics (input : str) : parse_patch input ≠ Panic.
Proof. apply parse_patch_no_panic. Qed.

(** ** Witnesses *)

Lemma parse_patch_hunks_ok_witness :
  let input := join [NL] [str! "*** Begin Patch"; str! "*** Update File: a"; str! "@@ f"; str! " x";
                          str! "-y"; str! "+z"; str! "*** End Patch"] in
  match parse_patch input with
  | Ok pp => pp_hunks pp ≠ [] ∧ Forall hunk_ok (pp_hunks pp)
  | _ => False
  end.
Proof.
  cbv zeta. destruct (parse_patch _) as [pp|e|] eqn:E.
  - split; [|by eapply parse_patch_hunks_ok].
    intros Hnil. apply (f_equal (λ r, match r with Ok p => length (pp_hunks p) | _ => 0 end)) in E.
    rewrite Hnil in E. vm_compute in E. discriminate.
  - vm_compute in E. discriminate.
  - vm_compute in E. discriminate.
Defined.
