(* ===== verification/PatchGrammar.v ===== *)
(** The patch grammar as a specification: abstract documents, the text they are
    written as, the hunks they denote, and the theorem that [parse_patch] maps
    the first to the second. *)
From Stdlib Require Import ZifyBool.
From stdpp Require Import prelude gmap strings pretty list.
From S2P Require Import Prelude.
From S2P Require Import Text.
From S2P Require Import PatchParser.

(** Decides a closed proposition by evaluation. *)
Ltac vm_decide := apply (bool_decide_unpack _); vm_compute; exact I.

(** ** Documents *)
Inductive diff_line := LContext (l : str) | LAdd (l : str) | LRemove (l : str).

(** [cd_header]: no [@@] line (only a hunk's first chunk), [@@], or [@@ context]. *)
Record chunk_doc := {
  cd_header : option (option str);
  cd_lines : list diff_line;
  cd_eof : bool;
}.
Inductive hunk_doc :=
  | DAdd (path : str) (content : list str)
  | DDelete (path : str)
  | DUpdate (path : str) (move_to : option str) (chunks : list chunk_doc).

(** Text that survives trimming at the end, and arguments of header lines. *)
Definition header_text (s : str) : Prop :=
  NL ∉ s ∧ ∃ t c, s = t ++ [c] ∧ is_whitespace c = false.

Definition diff_text (d : diff_line) : str :=
  match d with LContext l | LAdd l | LRemove l => l end.
Definition chunk_doc_ok (c : chunk_doc) : Prop :=
  cd_lines c ≠ [] ∧ Forall (λ d, plain_line (diff_text d)) (cd_lines c) ∧
  match cd_header c with Some (Some ctx) => header_text ctx | _ => True end.
Definition hunk_doc_ok (h : hunk_doc) : Prop :=
  match h with
  | DAdd p content => header_text p ∧ Forall plain_line content
  | DDelete p => header_text p
  | DUpdate p mv chunks =>
    header_text p ∧ match mv with Some m => header_text m | None => True end ∧
    Forall chunk_doc_ok chunks ∧
    match chunks with
    | [] => False
    | _ :: cs => Forall (λ c, cd_header c ≠ None) cs
    end
  end.

(** ** Printing *)
Definition render_diff (d : diff_line) : str :=
  match d with
  | LContext l => SPACE :: l
  | LAdd l => str! "+" ++ l
  | LRemove l => str! "-" ++ l
  end.
Definition render_chunk_header (h : option (option str)) : list str :=
  match h with
  | None => []
  | Some None => [EMPTY_CHANGE_CONTEXT_MARKER]
  | Some (Some ctx) => [CHANGE_CONTEXT_MARKER ++ ctx]
  end.
Definition render_chunk (c : chunk_doc) : list str :=
  render_chunk_header (cd_header c) ++ (render_diff <$> cd_lines c)
  ++ (if cd_eof c then [EOF_MARKER] else []).
Definition render_hunk (h : hunk_doc) : list str :=
  match h with
  | DAdd p content => (ADD_FILE_MARKER ++ p) :: ((λ l, str! "+" ++ l) <$> content)
  | DDelete p => [DELETE_FILE_MARKER ++ p]
  | DUpdate p mv chunks =>
    (UPDATE_FILE_MARKER ++ p)
      :: (match mv with Some m => [MOVE_TO_MARKER ++ m] | None => [] end)
      ++ (chunks ≫= render_chunk)
  end.
(** The lines of a patch before its end marker, and the whole text. *)
Definition render_body (hs : list hunk_doc) : list str :=
  BEGIN_PATCH_MARKER :: (hs ≫= render_hunk).
Definition render_patch (hs : list hunk_doc) : str :=
  join [NL] (render_body hs ++ [END_PATCH_MARKER]).

(** ** Meaning *)
Definition denote_diff (c : UpdateFileChunk) (d : diff_line) : UpdateFileChunk :=
  match d with
  | LContext l => push_context_line l c
  | LAdd l => push_new_line l c
  | LRemove l => push_old_line l c
  end.
Definition open_chunk (h : option (option str)) : UpdateFileChunk :=
  {| change_context := match h with Some ctx => ctx | None => None end;
     old_lines := []; new_lines := []; context_line_indices := []; is_end_of_file := false |}.
Definition denote_chunk (c : chunk_doc) : UpdateFileChunk :=
  let filled := foldl denote_diff (open_chunk (cd_header c)) (cd_lines c) in
  if cd_eof c then set_end_of_file filled else filled.
Definition denote_hunk (h : hunk_doc) : Hunk :=
  match h with
  | DAdd p content => AddFile p (content ≫= λ l, l ++ [NL])
  | DDelete p => DeleteFile p
  | DUpdate p mv chunks => UpdateFile p mv (denote_chunk <$> chunks)
  end.

(** ** The lines of a document *)

Lemma nonws_markers m c t :
  m ∈ [ADD_FILE_MARKER; DELETE_FILE_MARKER; UPDATE_FILE_MARKER; MOVE_TO_MARKER;
       CHANGE_CONTEXT_MARKER] →
  is_whitespace c = false →
  trim (m ++ t ++ [c]) = m ++ t ++ [c] ∧ trim_end (m ++ t ++ [c]) = m ++ t ++ [c].
Proof.
  intros Hm Hc. split; [|by apply trim_end_app_nonws].
  unfold trim. assert (trim_start (m ++ t ++ [c]) = m ++ t ++ [c]) as ->.
  { set_unfold in Hm. naive_solver. }
  by apply trim_end_app_nonws.
Qed.

Lemma plain_cons a l : a ≠ NL → a ≠ CR → plain_line l → plain_line (a :: l).
Proof.
  intros ?? [Hl Hlast]. split; [by apply not_elem_of_cons|].
  destruct l; simpl in *; congruence.
Qed.
Lemma header_plain m s : NL ∉ m → header_text s → plain_line (m ++ s).
Proof.
  intros Hm (Hs & t & c & -> & Hc). split; [set_solver|].
  rewrite (assoc_L (++)), last_snoc. by intros [= ->].
Qed.
Lemma plain_strip_cr l : plain_line l → strip_suffix [CR] l = None.
Proof. intros [_ ?]. by apply strip_suffix_char_None. Qed.

(** ** Header recognition *)

Definition STAR : char := 42.
Lemma handle_header_no_star p c l : c ≠ STAR → handle_header p (c :: l) = Ok (false, p).
Proof.
  intros Hc. assert (H : ∀ m, strip_prefix (STAR :: m) (c :: l) = None).
  { intros m. cbn [strip_prefix]. by rewrite (proj2 (N.eqb_neq STAR c)). }
  unfold handle_header.
  assert ((if bool_decide (mode p = StartedPatch) then strip_prefix ENVIRONMENT_ID_MARKER (c :: l)
           else None) = None) as -> by (case_bool_decide; [apply H|done]).
  assert (str_eqb (c :: l) END_PATCH_MARKER = false) as ->.
  { apply bool_decide_eq_false. intros Heq. by injection Heq. }
  change ADD_FILE_MARKER with (STAR :: str! "** Add File: ").
  change DELETE_FILE_MARKER with (STAR :: str! "** Delete File: ").
  change UPDATE_FILE_MARKER with (STAR :: str! "** Update File: ").
  by rewrite !H.
Qed.
Lemma handle_header_nil p : handle_header p [] = Ok (false, p).
Proof. unfold handle_header. by case_bool_decide. Qed.
Lemma trim_end_cons_nonws c l : is_whitespace c = false → ∃ t, trim_end (c :: l) = c :: t.
Proof.
  intros Hc. destruct (trim_end_prefix (c :: l)) as (w & Heq & Hw).
  destruct (trim_end (c :: l)) as [|d t]; simplify_eq/=; [|by eexists].
  apply Forall_cons in Hw as [? _]. congruence.
Qed.
Lemma trim_end_space l : trim_end (SPACE :: l) = [] ∨ ∃ t, trim_end (SPACE :: l) = SPACE :: t.
Proof.
  destruct (trim_end_prefix (SPACE :: l)) as (w & Heq & Hw).
  destruct (trim_end (SPACE :: l)) as [|d t]; simplify_eq/=; [by left|right; by eexists].
Qed.

(** ** Simulation of the grammar by the state machine *)

Definition ready_hunk (h : Hunk) : Prop :=
  match h with
  | UpdateFile _ _ chunks => chunks ≠ [] ∧ last_chunk_is_empty chunks = false
  | _ => True
  end.
Definition header_mode (m : Mode) : Prop :=
  match m with NotStarted | EndedPatch => False | _ => True end.
(** A state in which any header line may follow. *)
Definition ready (p : Parser) : Prop :=
  header_mode (mode p) ∧ match last (hunks p) with Some h => ready_hunk h | None => True end.

Lemma ready_ensure p l :
  match last (hunks p) with Some h => ready_hunk h | None => True end →
  ensure_update_not_empty p l = Ok tt.
Proof.
  unfold ensure_update_not_empty. destruct (last (hunks p)) as [[| |path mv chunks]|]; try done.
  intros [Hne Hl]. rewrite Hl. by destruct chunks.
Qed.
Lemma process_header p line p' :
  header_mode (mode p) → trim line = line → trim_end line = line →
  handle_header p line = Ok (true, p') → process_line p line = Ok p'.
Proof.
  intros Hm Ht Hte Hh. unfold process_line. rewrite Ht, Hte.
  destruct (mode p); try done; by rewrite Hh.
Qed.

Section header_lines.
Context (p : Parser) (path : str).
Context (Hready : ready p) (Hpath : header_text path).

Local Lemma header_line m h md :
  m ∈ [ADD_FILE_MARKER; DELETE_FILE_MARKER; UPDATE_FILE_MARKER] →
  handle_header p (m ++ path) =
    (_ ← ensure_update_not_empty p (m ++ path); Ok (true, set_mode md (push_hunk h p))) →
  process_line p (m ++ path) = Ok (set_mode md (push_hunk h p)).
Proof using Hready Hpath.
  destruct Hready as [Hm Hl]. destruct Hpath as (_ & t & c & -> & Hc). intros Hin Hh.
  destruct (nonws_markers m c t) as [Ht Hte]; [set_solver|done|].
  apply process_header; [done..|]. rewrite Hh. by rewrite ready_ensure.
Qed.

Lemma process_add_header :
  process_line p (ADD_FILE_MARKER ++ path)
  = Ok (set_mode ModeAddFile (push_hunk (AddFile path []) p)).
Proof using Hready Hpath.
  apply header_line; [set_solver|]. unfold handle_header. by case_bool_decide.
Qed.
Lemma process_delete_header :
  process_line p (DELETE_FILE_MARKER ++ path)
  = Ok (set_mode ModeDeleteFile (push_hunk (DeleteFile path) p)).
Proof using Hready Hpath.
  apply header_line; [set_solver|]. unfold handle_header. by case_bool_decide.
Qed.
Lemma process_update_header :
  process_line p (UPDATE_FILE_MARKER ++ path)
  = Ok (set_mode (ModeUpdateFile (line_number p)) (push_hunk (UpdateFile path None []) p)).
Proof using Hready Hpath.
  apply header_line; [set_solver|]. unfold handle_header. by case_bool_decide.
Qed.
End header_lines.

Lemma process_add_line p path contents hs l :
  mode p = ModeAddFile → hunks p = hs ++ [AddFile path contents] →
  process_line p (str! "+" ++ l) = Ok (set_last_hunk (AddFile path (contents ++ l ++ [NL])) p).
Proof.
  intros Hm Hh. unfold process_line. rewrite Hm. unfold trim.
  change (str! "+" ++ l) with (43%N :: l). rewrite trim_start_id by done.
  destruct (trim_end_cons_nonws 43 l) as [t ->]; [done|].
  rewrite handle_header_no_star by done. step_result. rewrite Hh, last_snoc. done.
Qed.

(** ** Update hunks *)

(** The parser is inside the update hunk [UpdateFile path mv cs]. *)
Definition in_update (hs : list Hunk) (path : str) (mv : option str)
    (cs : list UpdateFileChunk) (p : Parser) : Prop :=
  (∃ n, mode p = ModeUpdateFile n) ∧ hunks p = hs ++ [UpdateFile path mv cs]
  ∧ environment_id p = None.

(** The lines [ls] take the parser from [p] to a state of [Q]. *)
Definition run (ls : list str) (p : Parser) : result ParseError Parser :=
  fold_result (λ p l, process_line (next_line p) l) p ls.
Definition reaches (ls : list str) (p : Parser) (Q : Parser → Prop) : Prop :=
  ∃ p', run ls p = Ok p' ∧ Q p'.

Lemma reaches_nil p (Q : Parser → Prop) : Q p → reaches [] p Q.
Proof. intros ?. by exists p. Qed.
Lemma reaches_app l1 l2 p (Q R : Parser → Prop) :
  reaches l1 p Q → (∀ p', Q p' → reaches l2 p' R) → reaches (l1 ++ l2) p R.
Proof.
  intros (p1 & H1 & HQ) H2. destruct (H2 p1 HQ) as (p2 & H3 & HR).
  exists p2. split; [|done]. unfold run in *. by rewrite fold_result_app, H1.
Qed.
Lemma reaches_cons l ls p (Q R : Parser → Prop) :
  reaches [l] p Q → (∀ p', Q p' → reaches ls p' R) → reaches (l :: ls) p R.
Proof. apply (reaches_app [l] ls). Qed.
Lemma reaches_one l p p' (Q : Parser → Prop) :
  process_line (next_line p) l = Ok p' → Q p' → reaches [l] p Q.
Proof. intros H ?. exists p'. split; [|done]. unfold run. cbn [fold_result]. by rewrite H. Qed.

Lemma process_update p n hs path mv cs line :
  mode p = ModeUpdateFile n → hunks p = hs ++ [UpdateFile path mv cs] →
  handle_header p (trim_end line) = Ok (false, p) →
  process_line p line = process_update_line p n line (trim_end line) path mv cs.
Proof.
  intros Hm Hh Hhh. unfold process_line. rewrite Hm, Hhh. step_result. by rewrite Hh, last_snoc.
Qed.

Lemma in_update_step p hs path mv cs mv' cs' line :
  in_update hs path mv cs p →
  (∀ q, mode q = mode p → hunks q = hunks p → handle_header q (trim_end line) = Ok (false, q)) →
  (∀ q n, mode q = ModeUpdateFile n →
    process_update_line q n line (trim_end line) path mv cs =
      Ok (set_last_hunk (UpdateFile path mv' cs') q)) →
  reaches [line] p (in_update hs path mv' cs').
Proof.
  intros ((n & Hm) & Hh & He) Hhh Hstep. eapply reaches_one.
  - erewrite process_update; [by apply Hstep|by simpl..|by apply Hhh].
  - split_and!; [by exists n| |done]. cbn [hunks set_last_hunk set_hunks next_line].
    by rewrite Hh, set_last_snoc.
Qed.

Definition no_eof (cs : list UpdateFileChunk) : Prop :=
  match last cs with Some c => is_end_of_file c = false | None => True end.

Lemma diff_line_step p hs path mv cs d :
  in_update hs path mv cs p → no_eof cs →
  reaches [render_diff d] p (in_update hs path mv (alter_last_chunk (λ c, denote_diff c d) cs)).
Proof.
  intros Hin Hno. eapply in_update_step; [done| |].
  - intros q _ _. destruct d as [l|l|l]; cbn [render_diff].
    + destruct (trim_end_space l) as [->|[t ->]]; [apply handle_header_nil|by apply handle_header_no_star].
    + destruct (trim_end_cons_nonws 43 l) as [t Ht]; [done|].
      change (str! "+" ++ l) with (43%N :: l). rewrite Ht. by apply handle_header_no_star.
    + destruct (trim_end_cons_nonws 45 l) as [t Ht]; [done|].
      change (str! "-" ++ l) with (45%N :: l). rewrite Ht. by apply handle_header_no_star.
  - intros q n _. unfold process_update_line.
    assert (match last cs with Some c => is_end_of_file c | None => false end = false) as ->
      by (unfold no_eof in Hno; by destruct (last cs)).
    destruct d as [l|l|l]; cbn [render_diff].
    + destruct (trim_end_space l) as [->|[t ->]]; by destruct (_ && bool_decide (mv = None)).
    + destruct (trim_end_cons_nonws 43 l) as [t Ht]; [done|].
      change (str! "+" ++ l) with (43%N :: l). rewrite Ht. by destruct (_ && bool_decide (mv = None)).
    + destruct (trim_end_cons_nonws 45 l) as [t Ht]; [done|].
      change (str! "-" ++ l) with (45%N :: l). rewrite Ht. by destruct (_ && bool_decide (mv = None)).
Qed.

Lemma if_same {A} (b : bool) (x : A) : (if b then x else x) = x.
Proof. by destruct b. Qed.

Lemma context_marker_step p hs path mv cs h :
  in_update hs path mv cs p → last_chunk_is_empty cs = false →
  match h with Some ctx => header_text ctx | None => True end →
  reaches (render_chunk_header (Some h)) p (in_update hs path mv (cs ++ [open_chunk (Some h)])).
Proof.
  intros Hin Hne Hh.
  assert (Hte : ∀ l, l ∈ render_chunk_header (Some h) → trim_end l = l ∧ is_context_marker l = true
                     ∧ ∃ t, l = 64%N :: t).
  { intros l Hl. destruct h as [ctx|]; cbn [render_chunk_header] in Hl;
      apply list_elem_of_singleton in Hl as ->; [|by split_and!; [done..|eexists]].
    destruct Hh as (_ & t & c & -> & Hc). split_and!; [|done|by eexists].
    by apply (nonws_markers CHANGE_CONTEXT_MARKER c t); [set_solver|]. }
  assert (∃ l, render_chunk_header (Some h) = [l]) as [l Hl] by (destruct h; by eexists).
  destruct (Hte l) as (Htl & Hmk & t & Ht); [rewrite Hl; by left|]. rewrite Hl.
  eapply in_update_step; [done| |].
  - intros q _ _. rewrite Htl, Ht. by apply handle_header_no_star.
  - intros q n _. unfold process_update_line. rewrite Htl, Hmk, Hne.
    assert (str_is_empty l = false) as -> by by rewrite Ht.
    assert (strip_prefix MOVE_TO_MARKER l = None) as -> by by rewrite Ht.
    rewrite !andb_false_r. step_result.
    rewrite if_same. destruct h as [ctx|]; cbn [render_chunk_header] in Hl;
      (apply (f_equal head) in Hl; apply Some_inj in Hl; rewrite <-Hl); [|done].
    assert (str_eqb (CHANGE_CONTEXT_MARKER ++ ctx) EMPTY_CHANGE_CONTEXT_MARKER = false) as ->
      by by apply bool_decide_eq_false.
    done.
Qed.

Lemma eof_step p hs path mv cs c :
  in_update hs path mv (cs ++ [c]) p → chunk_is_empty c = false → is_end_of_file c = false →
  reaches [EOF_MARKER] p (in_update hs path mv (cs ++ [set_end_of_file c])).
Proof.
  intros Hin Hne Hno. eapply in_update_step; [done| |].
  - intros q Hm _. unfold handle_header. destruct Hin as ((n & Hn) & _). by rewrite Hm, Hn.
  - intros q n _. unfold process_update_line, last_chunk_is_empty. rewrite last_snoc, Hno, Hne.
    change (trim_end EOF_MARKER) with EOF_MARKER. step_result.
    rewrite (bool_decide_eq_false_2 (cs ++ [c] = [])) by (by destruct cs).
    rewrite andb_false_l. simpl. by rewrite set_last_snoc.
Qed.

Lemma move_step p hs path m :
  in_update hs path None [] p → header_text m →
  reaches [MOVE_TO_MARKER ++ m] p (in_update hs path (Some m) []).
Proof.
  intros Hin (_ & t & c & -> & Hc).
  assert (trim_end (MOVE_TO_MARKER ++ t ++ [c]) = MOVE_TO_MARKER ++ t ++ [c]) as Hte
    by (by apply nonws_markers; [set_solver|]).
  eapply in_update_step; [done| |].
  - intros q Hm _. rewrite Hte. unfold handle_header.
    destruct Hin as ((n & Hn) & _). by rewrite Hm, Hn.
  - intros q n Hq. unfold process_update_line. rewrite Hte. simpl.
    by rewrite <-Hq; destruct q.
Qed.

(** ** Chunks and hunks *)

Lemma alter_last_snoc f cs c : alter_last_chunk f (cs ++ [c]) = cs ++ [f c].
Proof. unfold alter_last_chunk. by rewrite last_snoc, set_last_snoc. Qed.
Lemma denote_diff_eof c d : is_end_of_file (denote_diff c d) = is_end_of_file c.
Proof. by destruct d. Qed.
Lemma denote_diff_nonempty c d : chunk_is_empty (denote_diff c d) = false.
Proof.
  unfold chunk_is_empty. destruct d; cbn;
    [rewrite (bool_decide_eq_false_2 (_ ++ _ = [])) by (by destruct (old_lines c))
    |rewrite (bool_decide_eq_false_2 (new_lines c ++ _ = [])) by (by destruct (new_lines c))
    |rewrite (bool_decide_eq_false_2 (_ ++ _ = [])) by (by destruct (old_lines c))];
    by rewrite ?andb_false_r.
Qed.
Lemma foldl_diff_eof c ds : is_end_of_file (foldl denote_diff c ds) = is_end_of_file c.
Proof. revert c. induction ds as [|d ds IH]; intros c; [done|]. simpl. by rewrite IH, denote_diff_eof. Qed.
Lemma foldl_diff_nonempty c ds :
  ds ≠ [] → chunk_is_empty (foldl denote_diff c ds) = false.
Proof.
  destruct ds as [|d ds _] using rev_ind; [done|]. intros _.
  rewrite foldl_snoc. apply denote_diff_nonempty.
Qed.
Lemma denote_chunk_nonempty c : cd_lines c ≠ [] → chunk_is_empty (denote_chunk c) = false.
Proof.
  intros Hne. apply (foldl_diff_nonempty (open_chunk (cd_header c))) in Hne.
  unfold denote_chunk. by destruct (cd_eof c).
Qed.

Lemma diff_lines_reach hs path mv cs c ds p :
  in_update hs path mv (cs ++ [c]) p → is_end_of_file c = false →
  reaches (render_diff <$> ds) p (in_update hs path mv (cs ++ [foldl denote_diff c ds])).
Proof.
  revert c p. induction ds as [|d ds IH]; intros c p Hin Hno; [by apply reaches_nil|].
  apply (reaches_cons _ _ _ (in_update hs path mv (cs ++ [denote_diff c d]))).
  - eapply diff_line_step in Hin; [|unfold no_eof; by rewrite last_snoc].
    by rewrite alter_last_snoc in Hin.
  - intros q Hq. apply IH; [done|]. by rewrite denote_diff_eof.
Qed.
Lemma first_diff_lines_reach hs path mv ds p :
  in_update hs path mv [] p → ds ≠ [] →
  reaches (render_diff <$> ds) p (in_update hs path mv [foldl denote_diff (open_chunk None) ds]).
Proof.
  intros Hin Hne. destruct ds as [|d ds]; [done|].
  apply (reaches_cons _ _ _ (in_update hs path mv ([] ++ [denote_diff (open_chunk None) d]))).
  - by apply (diff_line_step _ _ _ _ _ d) in Hin.
  - intros q Hq. apply (diff_lines_reach _ _ _ [] (denote_diff (open_chunk None) d)); [done|]. by rewrite denote_diff_eof.
Qed.

Lemma chunk_reaches hs path mv cs c p :
  in_update hs path mv cs p → last_chunk_is_empty cs = false → chunk_doc_ok c →
  (cd_header c = None → cs = []) →
  reaches (render_chunk c) p (in_update hs path mv (cs ++ [denote_chunk c])).
Proof.
  intros Hin Hne (Hlines & _ & Hh) Hhd. unfold render_chunk.
  rewrite (assoc_L (++)). eapply (reaches_app _ _ _
    (in_update hs path mv (cs ++ [foldl denote_diff (open_chunk (cd_header c)) (cd_lines c)]))).
  - destruct (cd_header c) as [h|] eqn:Eh.
    + eapply reaches_app; [by apply context_marker_step|].
      intros q Hq. by apply diff_lines_reach.
    + rewrite Hhd in * by done. by apply first_diff_lines_reach.
  - intros q Hq. unfold denote_chunk. destruct (cd_eof c); [|by apply reaches_nil].
    eapply eof_step; [done|by apply foldl_diff_nonempty|by rewrite foldl_diff_eof].
Qed.

Lemma last_chunk_snoc_nonempty cs c :
  chunk_is_empty c = false → last_chunk_is_empty (cs ++ [c]) = false.
Proof. intros. unfold last_chunk_is_empty. by rewrite last_snoc. Qed.

Lemma last_chunks_nonempty ds :
  Forall chunk_doc_ok ds → last_chunk_is_empty (denote_chunk <$> ds) = false.
Proof.
  intros Hds. destruct ds as [|d ds _] using rev_ind; [done|].
  apply Forall_app in Hds as [_ Hd]. rewrite Forall_singleton in Hd. destruct Hd as [Hd _].
  rewrite fmap_app. by apply last_chunk_snoc_nonempty, denote_chunk_nonempty.
Qed.

Lemma chunks_reach hs path mv cs ds p :
  in_update hs path mv cs p → last_chunk_is_empty cs = false → Forall chunk_doc_ok ds →
  match ds with
  | [] => True
  | d :: ds' => (cd_header d = None → cs = []) ∧ Forall (λ c, cd_header c ≠ None) ds'
  end →
  reaches (ds ≫= render_chunk) p (in_update hs path mv (cs ++ (denote_chunk <$> ds))).
Proof.
  intros Hin Hne Hok Hhd. revert cs p Hin Hne Hhd.
  induction Hok as [|d ds Hd _ IH]; intros cs p Hin Hne Hhd.
  { apply reaches_nil. cbn. by rewrite app_nil_r. }
  destruct Hhd as [Hd0 Hds]. cbn [mbind list_bind fmap list_fmap].
  eapply reaches_app; [by apply chunk_reaches|]. intros q Hq.
  rewrite (cons_middle (denote_chunk d)), (assoc_L (++)).
  apply IH; [done|apply last_chunk_snoc_nonempty, denote_chunk_nonempty, Hd|].
  destruct Hds; [done|]. split; [|done]. by intros.
Qed.

Definition ready_at (hs : list Hunk) (p : Parser) : Prop :=
  ready p ∧ hunks p = hs ∧ environment_id p = None.

Lemma hunk_reaches hs h p :
  ready_at hs p → hunk_doc_ok h → reaches (render_hunk h) p (ready_at (hs ++ [denote_hunk h])).
Proof.
  intros (Hr & Hh & He) Hok.
  assert (Hr' : ready (next_line p)) by done.
  destruct h as [path content|path|path mv chunks]; cbn [render_hunk denote_hunk].
  - destruct Hok as [Hpath _].
    set (Q cs q := mode q = ModeAddFile ∧ hunks q = hs ++ [AddFile path cs] ∧ environment_id q = None).
    assert (Hadd : ∀ ls cs q, Q cs q →
      reaches ((λ l, str! "+" ++ l) <$> ls) q (Q (cs ++ (ls ≫= λ l, l ++ [NL])))).
    { induction ls as [|l ls IH]; intros cs q Hq.
      - apply reaches_nil. cbn. by rewrite app_nil_r.
      - eapply (reaches_cons _ _ _ (Q (cs ++ l ++ [NL]))).
        + destruct Hq as (Hm & Hhq & Heq). eapply reaches_one; [by eapply process_add_line|].
          split_and!; [done| |done]. cbn [hunks set_last_hunk set_hunks next_line].
          by rewrite Hhq, set_last_snoc.
        + intros q' Hq'. apply IH in Hq'. cbn [mbind list_bind]. rewrite (assoc_L (++)).
          exact Hq'. }
    eapply (reaches_cons _ _ _ (Q [])).
    + eapply reaches_one; [by apply process_add_header|]. split_and!; [done| |done].
      cbn [hunks set_mode push_hunk set_hunks next_line]. by rewrite Hh.
    + intros q Hq. apply (Hadd content) in Hq as (q' & Hrun & Hm & Hhq & Heq).
      exists q'. split; [done|]. split_and!; [split|done..].
      * by rewrite Hm.
      * by rewrite Hhq, last_snoc.
  - eapply reaches_one; [by apply process_delete_header|].
    split_and!; [split|cbn; by rewrite Hh|done]; [done|].
    cbn [hunks set_mode push_hunk set_hunks next_line]. by rewrite last_snoc.
  - destruct Hok as (Hpath & Hmv & Hchunks & Hhd).
    eapply (reaches_cons _ _ _ (in_update hs path None [])).
    { eapply reaches_one; [by apply process_update_header|].
      split_and!; [by eexists| |done]. cbn. by rewrite Hh. }
    intros q Hq. eapply (reaches_app _ _ _ (in_update hs path mv [])).
    { destruct mv as [m|]; [by apply move_step|by apply reaches_nil]. }
    intros q2 Hq2. destruct chunks as [|c chunks]; [done|].
    pose proof (last_chunks_nonempty _ Hchunks) as Hlast.
    eapply (chunks_reach _ _ _ []) in Hchunks as (q3 & Hrun & (n & Hm) & Hhq & Heq); [|done..].
    exists q3. split; [done|]. split_and!; [split; [by rewrite Hm|]|done..].
    by rewrite Hhq, last_snoc.
Qed.

(** ** Whole patches *)

Lemma hunks_reach hs ds p :
  ready_at hs p → Forall hunk_doc_ok ds →
  reaches (ds ≫= render_hunk) p (ready_at (hs ++ (denote_hunk <$> ds))).
Proof.
  intros Hp Hok. revert hs p Hp. induction Hok as [|d ds Hd _ IH]; intros hs p Hp.
  { apply reaches_nil. cbn. by rewrite app_nil_r. }
  cbn [mbind list_bind]. eapply reaches_app; [by apply hunk_reaches|].
  intros q Hq. apply IH in Hq. by rewrite <-(assoc_L (++)) in Hq.
Qed.

Lemma body_reaches ds :
  Forall hunk_doc_ok ds →
  reaches (render_body ds) default_parser (ready_at (denote_hunk <$> ds)).
Proof.
  intros Hok. apply (reaches_cons _ _ _ (ready_at [])).
  - by eapply reaches_one.
  - intros q Hq. by apply (hunks_reach []).
Qed.

Lemma parse_step_plain n p i l :
  plain_line l → S i < n → parse_step n p (i, l) = process_line (next_line p) l.
Proof.
  intros Hl Hi. unfold parse_step. rewrite plain_strip_cr by done.
  by rewrite (proj2 (Nat.eqb_neq (S i) n)) by lia.
Qed.

(** [parse_patch]'s loop on lines that are not the last one is [run]. *)
Lemma loop_run n i ls p :
  Forall plain_line ls → i + length ls < n →
  fold_result (parse_step n) p (zip (seq i (length ls)) ls) = run ls p.
Proof.
  unfold run. intros Hp. revert i p. induction Hp as [|l ls Hl Hp IH]; intros i p Hi; [done|].
  cbn [length seq zip zip_with fold_result] in *. rewrite parse_step_plain by (done || lia).
  destruct (process_line (next_line p) l); [|done..]. step_result. apply IH. lia.
Qed.

Lemma header_marker_plain m :
  m ∈ [ADD_FILE_MARKER; DELETE_FILE_MARKER; UPDATE_FILE_MARKER; MOVE_TO_MARKER;
       CHANGE_CONTEXT_MARKER] → NL ∉ m.
Proof. intros Hm. set_unfold in Hm. destruct_or!; subst m; vm_decide. Qed.

Lemma render_chunk_plain c : chunk_doc_ok c → Forall plain_line (render_chunk c).
Proof.
  intros (_ & Hl & Hh). unfold render_chunk. rewrite !Forall_app. split_and!.
  - destruct (cd_header c) as [[ctx|]|]; [|constructor; [split; [vm_decide|done]|done]|done].
    constructor; [|done]. apply header_plain; [|done]. apply header_marker_plain. set_solver.
  - apply Forall_fmap. eapply Forall_impl; [exact Hl|]. intros d Hd. by destruct d; apply plain_cons.
  - destruct (cd_eof c); [constructor; [split; [vm_decide|done]|done]|done].
Qed.
Lemma render_hunk_plain h : hunk_doc_ok h → Forall plain_line (render_hunk h).
Proof.
  destruct h as [path content|path|path mv chunks]; cbn [render_hunk].
  - intros [Hp Hc]. constructor; [apply header_plain; [|done]; apply header_marker_plain; set_solver|].
    apply Forall_fmap. eapply Forall_impl; [exact Hc|]. intros l Hl. by apply plain_cons.
  - intros Hp. constructor; [|done].
    apply header_plain; [apply header_marker_plain; set_solver|done].
  - intros (Hp & Hm & Hc & _).
    constructor; [apply header_plain; [apply header_marker_plain; set_solver|done]|].
    rewrite Forall_app. split.
    + destruct mv; [|done]. constructor; [|done].
      apply header_plain; [apply header_marker_plain; set_solver|done].
    + apply Forall_bind. eapply Forall_impl; [exact Hc|]. apply render_chunk_plain.
Qed.
Lemma render_body_plain ds : Forall hunk_doc_ok ds → Forall plain_line (render_body ds).
Proof.
  intros H. constructor; [split; [vm_decide|done]|].
  apply Forall_bind. eapply Forall_impl; [exact H|]. apply render_hunk_plain.
Qed.

Lemma join_ends x l y : ∃ s, join [NL] (x :: l ++ [y]) = x ++ NL :: s ++ y.
Proof.
  revert x. induction l as [|z l IH]; intros x; [by exists []|].
  destruct (IH z) as [s Hs]. exists (z ++ NL :: s). cbn [app join].
  cbn [app join] in Hs. rewrite Hs. by rewrite <-(assoc_L (++) z).
Qed.

Lemma render_patch_lines ds :
  Forall hunk_doc_ok ds →
  lines (trim (render_patch ds)) = render_body ds ++ [END_PATCH_MARKER].
Proof.
  intros Hok.
  assert (trim (render_patch ds) = render_patch ds) as ->.
  { unfold render_patch, render_body.
    destruct (join_ends BEGIN_PATCH_MARKER (ds ≫= render_hunk) END_PATCH_MARKER) as [s Hs].
    cbn [app] in Hs |- *. rewrite Hs.
    assert (BEGIN_PATCH_MARKER ++ NL :: s ++ END_PATCH_MARKER
            = STAR :: (str! "** Begin Patch" ++ NL :: s ++ str! "*** End Patc") ++ [104%N]) as ->.
    { rewrite <-(assoc_L (++)). cbn [app]. by rewrite <-(assoc_L (++) s). }
    by apply trim_id. }
  apply lines_join; [by apply render_body_plain|done|vm_decide].
Qed.

(** C1. The parser implements the grammar: a well-formed document, written out,
    parses to exactly the hunks it denotes, whatever their number and contents. *)
Theorem parse_render (ds : list hunk_doc) :
  Forall hunk_doc_ok ds →
  parse_patch (render_patch ds) =
    Ok {| patch := render_patch ds; pp_hunks := denote_hunk <$> ds; pp_environment_id := None |}.
Proof.
  intros Hok. unfold parse_patch. rewrite render_patch_lines by done.
  assert (patch_lines (render_body ds ++ [END_PATCH_MARKER])
          = Ok (render_body ds ++ [END_PATCH_MARKER])) as ->.
  { unfold patch_lines, boundaries_valid, last_is_end. by rewrite last_snoc. }
  step_result. unfold enumerate. rewrite length_app, seq_app, zip_with_app, fold_result_app
    by (by rewrite length_seq).
  rewrite loop_run; [|by apply render_body_plain|simpl; lia].
  destruct (body_reaches ds Hok) as (p & Hrun & [Hm Hl] & Hh & He). rewrite Hrun. step_result.
  cbn [length seq zip zip_with fold_result]. unfold parse_step.
  rewrite (proj2 (Nat.eqb_eq _ _)) by (simpl; lia). rewrite ready_ensure by done.
  destruct p as [m n hs e]. cbn in Hh, He. by subst hs e.
Qed.

(** ** Witness *)

Definition sample_doc : list hunk_doc :=
  [DAdd (str! "new file") [str! "one"; []];
   DUpdate (str! "a/b.rs") (Some (str! "c.rs"))
     [{| cd_header := None; cd_lines := [LContext (str! "x"); LRemove (str! "y")]; cd_eof := false |};
      {| cd_header := Some (Some (str! "fn f")); cd_lines := [LAdd (str! "  ")]; cd_eof := true |}];
   DDelete (str! "old")].
Lemma parse_render_witness :
  parse_patch (render_patch sample_doc) =
    Ok {| patch := render_patch sample_doc; pp_hunks := denote_hunk <$> sample_doc;
          pp_environment_id := None |}.
Proof.
  apply parse_render.
  assert (Hh : ∀ s, bool_decide (NL ∉ s) = true → match last s with Some c => is_whitespace c = false | None => False end → header_text s).
  { intros s Hs Hl. split; [by apply bool_decide_eq_true in Hs|].
    destruct s as [|c t _] using rev_ind; [done|]. rewrite last_snoc in Hl. by exists t, c. }
  assert (Hp : ∀ l, bool_decide (plain_line l) = true → plain_line l) by (intros l; apply bool_decide_eq_true_1).
  repeat constructor; try (by apply Hh; vm_compute); try (by apply Hp; vm_compute); done.
Defined.
