(* ===== verification/PatchUpdate.v ===== *)
(** [tool-apply-patch], part 2: applying the chunks of an update hunk to a text
    ([apply-patch/src/update.rs]).  Both update modes are modelled: the legacy one
    that splices a vector of lines in place, from the last replacement to the
    first, and the one that streams the source once and keeps its line endings. *)
From Stdlib Require Import ZifyBool Sorted.
From stdpp Require Import prelude gmap strings pretty list.
From S2P Require Import Prelude.
From S2P Require Import Text.
From S2P Require Import Core.
From S2P Require Import PatchParser.

(** [lib.rs]: the crate's error constructor and update modes. *)
Definition patch_error (c : ExecutionErrorCode) (m : str) : ExecutionError :=
  with_detail (str! "source") (VString (str! "tool-apply-patch")) (ExecutionError_new c m).

Inductive ApplyPatchFileUpdateMode := NormalizeToLf | PreserveLineEndings.
#[export] Instance ApplyPatchFileUpdateMode_eq_dec : EqDecision ApplyPatchFileUpdateMode.
Proof. solve_decision. Defined.

(** [(usize, usize, Vec<String>)]: at this line, drop so many, insert these. *)
Record Replacement := { r_start : nat; r_len : nat; r_lines : list str }.

(** ** Finding a chunk in the file *)

Definition normalize_unicode_char (c : char) : char :=
  if bool_decide (c ∈ [0x2010; 0x2011; 0x2012; 0x2013; 0x2014; 0x2015; 0x2212]%N) then 45%N
  else if bool_decide (c ∈ [0x2018; 0x2019; 0x201A; 0x201B]%N) then 39%N
  else if bool_decide (c ∈ [0x201C; 0x201D; 0x201E; 0x201F]%N) then 34%N
  else if bool_decide (c ∈ [0x00A0; 0x2002; 0x2003; 0x2004; 0x2005; 0x2006; 0x2007; 0x2008;
                            0x2009; 0x200A; 0x202F; 0x205F; 0x3000]%N) then SPACE
  else c.
Definition normalize_unicode (value : str) : str := normalize_unicode_char <$> trim value.

(** [matchers], and the final Unicode pass after them. *)
Definition matchers : list (str → str) := [id; trim_end; trim; normalize_unicode].

(** [lines[index..index + pattern.len()].iter().zip(pattern).all(..)]. *)
Definition window_matches (normalize : str → str) (lines pattern : list str) (index : nat) : bool :=
  forallb (λ '(actual, expected), str_eqb (normalize actual) (normalize expected))
    (zip (take (length pattern) (drop index lines)) pattern).

(** The nested loops: matcher by matcher, the first index of
    [search_start..=end_] at which it accepts. *)
Fixpoint seek_matchers (ms : list (str → str)) (lines pattern : list str)
    (search_start end_ : nat) : option nat :=
  match ms with
  | [] => None
  | normalize :: ms =>
    match find_index_from (window_matches normalize lines pattern) search_start
            (S end_ - search_start) with
    | Some index => Some index
    | None => seek_matchers ms lines pattern search_start end_
    end
  end.

Definition seek_sequence (lines pattern : list str) (start : nat) (eof : bool)
    (mode : ApplyPatchFileUpdateMode) : option nat :=
  match pattern with
  | [] => Some start
  | _ =>
    if length lines <? length pattern then None
    else
      let end_ := length lines - length pattern in
      let search_start :=
        if eof then match mode with
                    | NormalizeToLf => end_
                    | PreserveLineEndings => end_ `max` start
                    end
        else start in
      if end_ <? search_start then None
      else seek_matchers matchers lines pattern search_start end_
  end.

(** ** Computing the replacements *)

Definition last_is_empty (l : list str) : bool :=
  match last l with Some s => str_is_empty s | None => false end.

(** The loop over [chunk.context_line_indices]: the segments between context
    lines, and where the last one starts.  [break] ends the recursion. *)
Fixpoint context_segments (start : nat) (pattern replacement : list str)
    (old_start new_start : nat) (idx : list (nat * nat))
  : ExecutionResult (list Replacement * (nat * nat)) :=
  match idx with
  | [] => Ok ([], (old_start, new_start))
  | (old_context, new_context) :: idx =>
    if (length pattern <=? old_context) || (length replacement <=? new_context)
    then Ok ([], (old_start, new_start))
    else
      here ← (if negb (old_start =? old_context) || negb (new_start =? new_context) then
                len ← usize_sub old_context old_start;
                segment ← slice replacement new_start new_context;
                Ok [{| r_start := start + old_start; r_len := len; r_lines := segment |}]
              else Ok []);
      '(rest, ends) ← context_segments start pattern replacement (S old_context) (S new_context) idx;
      Ok (here ++ rest, ends)
  end.

(** What one located chunk contributes, by mode. *)
Definition located_replacements (mode : ApplyPatchFileUpdateMode) (start : nat)
    (pattern replacement : list str) (idx : list (nat * nat)) : ExecutionResult (list Replacement) :=
  match mode with
  | NormalizeToLf =>
    Ok [{| r_start := start; r_len := length pattern; r_lines := replacement |}]
  | PreserveLineEndings =>
    '(segments, (old_start, new_start)) ← context_segments start pattern replacement 0 0 idx;
    if negb (old_start =? length pattern) || negb (new_start =? length replacement) then
      len ← usize_sub (length pattern) old_start;
      segment ← slice_from replacement new_start;
      Ok (segments ++ [{| r_start := start + old_start; r_len := len; r_lines := segment |}])
    else Ok segments
  end.

(** The pattern actually searched for, its replacement, and where it was found:
    a trailing empty line of the pattern is dropped when it prevents a match. *)
Definition locate_chunk (original_lines : list str) (chunk : UpdateFileChunk) (line_index : nat)
    (mode : ApplyPatchFileUpdateMode) : option nat * (list str * list str) :=
  let pattern := old_lines chunk in
  let replacement := new_lines chunk in
  match seek_sequence original_lines pattern line_index (is_end_of_file chunk) mode with
  | Some start => (Some start, (pattern, replacement))
  | None =>
    if last_is_empty pattern then
      let pattern := take (length pattern - 1) pattern in
      let replacement := if last_is_empty replacement
                         then take (length replacement - 1) replacement else replacement in
      (seek_sequence original_lines pattern line_index (is_end_of_file chunk) mode,
       (pattern, replacement))
    else (None, (pattern, replacement))
  end.

Definition insertion_point (original_lines : list str) (mode : ApplyPatchFileUpdateMode) : nat :=
  match mode with
  | NormalizeToLf =>
    if last_is_empty original_lines then length original_lines - 1 else length original_lines
  | PreserveLineEndings => length original_lines
  end.

(** [line_index] after the chunk's [@@ context] line. *)
Definition seek_context (original_lines : list str) (path : str) (chunk : UpdateFileChunk)
    (line_index : nat) (mode : ApplyPatchFileUpdateMode) : ExecutionResult nat :=
  match change_context chunk with
  | None => Ok line_index
  | Some context =>
    match seek_sequence original_lines [context] line_index false mode with
    | Some index => Ok (S index)
    | None => Err (patch_error InvalidRequest
                     (format! [str! "Failed to find context '"; context; str! "' in "; path]))
    end
  end.

(** One iteration of the loop over [chunks]. *)
Definition compute_step (original_lines : list str) (path : str) (mode : ApplyPatchFileUpdateMode)
    (st : list Replacement * nat) (chunk : UpdateFileChunk)
  : ExecutionResult (list Replacement * nat) :=
  let '(replacements, line_index) := st in
  line_index ← seek_context original_lines path chunk line_index mode;
  match old_lines chunk with
  | [] =>
    Ok (replacements ++ [{| r_start := insertion_point original_lines mode; r_len := 0;
                            r_lines := new_lines chunk |}], line_index)
  | _ =>
    match locate_chunk original_lines chunk line_index mode with
    | (Some start, (pattern, replacement)) =>
      new ← located_replacements mode start pattern replacement (context_line_indices chunk);
      Ok (replacements ++ new, start + length pattern)
    | (None, _) =>
      Err (patch_error InvalidRequest
             (format! [str! "Failed to find expected lines in "; path; str! ":"; [NL];
                       join [NL] (old_lines chunk)]))
    end
  end.

Definition start_leb (a b : Replacement) : bool := r_start a <=? r_start b.

Definition compute_replacements (original_lines : list str) (path : str)
    (chunks : list UpdateFileChunk) (mode : ApplyPatchFileUpdateMode)
  : ExecutionResult (list Replacement) :=
  '(replacements, _) ← fold_result (compute_step original_lines path mode) ([], 0) chunks;
  Ok (sort_by start_leb replacements).

(** ** Legacy mode: in-place splicing *)

(** [for _ in 0..old_len { if start < lines.len() { lines.remove(start); } }]. *)
Fixpoint remove_lines (lines : list str) (start old_len : nat) : ExecutionResult (list str) :=
  match old_len with
  | 0 => Ok lines
  | S old_len =>
    lines ← (if start <? length lines then vec_remove lines start else Ok lines);
    remove_lines lines start old_len
  end.
(** [for (offset, line) in new_lines.iter().enumerate() { lines.insert(start + offset, ..) }]. *)
Fixpoint insert_lines (lines : list str) (at_ : nat) (new : list str) : ExecutionResult (list str) :=
  match new with
  | [] => Ok lines
  | line :: new => lines ← vec_insert lines at_ line; insert_lines lines (S at_) new
  end.
Definition apply_replacement (lines : list str) (r : Replacement) : ExecutionResult (list str) :=
  lines ← remove_lines lines (r_start r) (r_len r);
  insert_lines lines (r_start r) (r_lines r).
Definition apply_replacements (lines : list str) (replacements : list Replacement)
  : ExecutionResult (list str) :=
  fold_result apply_replacement lines (reverse replacements).

(** ** Preserving mode: a source with its line endings *)

Inductive LineEnding := Lf | CrLf | Cr.
#[export] Instance LineEnding_eq_dec : EqDecision LineEnding.
Proof. solve_decision. Defined.
Definition ending_str (e : LineEnding) : str :=
  match e with Lf => [NL] | CrLf => [CR; NL] | Cr => [CR] end.

Record SourceLine := { sl_text : str; sl_ending : option LineEnding }.
Record SourceFile := { sf_lines : list SourceLine; preferred_ending : LineEnding }.

(** [SourceFile::parse]'s scan: [text] is [contents[line_start..cursor]], the
    argument what follows [cursor]. *)
Fixpoint parse_lines (text : str) (rest : str) : list SourceLine :=
  match rest with
  | [] => match text with [] => [] | _ => [{| sl_text := text; sl_ending := None |}] end
  | c :: rest =>
    if (c =? CR)%N then
      match rest with
      | d :: rest' =>
        if (d =? NL)%N
        then {| sl_text := text; sl_ending := Some CrLf |} :: parse_lines [] rest'
        else {| sl_text := text; sl_ending := Some Cr |} :: parse_lines [] rest
      | [] => {| sl_text := text; sl_ending := Some Cr |} :: parse_lines [] rest
      end
    else if (c =? NL)%N then {| sl_text := text; sl_ending := Some Lf |} :: parse_lines [] rest
    else parse_lines (text ++ [c]) rest
  end.
(** [preferred]: the first ending met. *)
Definition first_ending (ls : list SourceLine) : LineEnding :=
  match ls with
  | {| sl_ending := Some e |} :: _ => e
  | _ => Lf
  end.
Definition parse_source (contents : str) : SourceFile :=
  let ls := parse_lines [] contents in
  {| sf_lines := ls; preferred_ending := first_ending ls |}.

Definition line_texts (s : SourceFile) : list str := sl_text <$> sf_lines s.

(** [line.ending.get_or_insert(preferred)]. *)
Definition or_ending (e : LineEnding) (l : SourceLine) : SourceLine :=
  {| sl_text := sl_text l; sl_ending := Some (default e (sl_ending l)) |}.

(** The streaming loop of [SourceFile::apply_replacements]: [source_lines] is the
    iterator over the source, [new_lines_] the output. *)
Definition stream_step (preferred : LineEnding)
    (st : list SourceLine * list SourceLine * nat) (r : Replacement)
  : ExecutionResult (list SourceLine * list SourceLine * nat) :=
  let '(source_lines, new_lines_, source_index) := st in
  keep ← usize_sub (r_start r) source_index;
  let new_lines_ := new_lines_ ++ take keep source_lines in
  let source_lines := drop (r_len r) (drop keep source_lines) in
  let new_lines_ :=
    new_lines_ ++ ((λ t, {| sl_text := t; sl_ending := Some preferred |}) <$> r_lines r) in
  Ok (source_lines, new_lines_, r_start r + r_len r).
Definition source_apply_replacements (s : SourceFile) (replacements : list Replacement)
  : ExecutionResult SourceFile :=
  '(source_lines, new_lines_, _) ←
    fold_result (stream_step (preferred_ending s)) (sf_lines s, [], 0) replacements;
  Ok {| sf_lines := or_ending (preferred_ending s) <$> (new_lines_ ++ source_lines);
        preferred_ending := preferred_ending s |}.

Definition line_contents (l : SourceLine) : str :=
  sl_text l ++ match sl_ending l with Some e => ending_str e | None => [] end.
Definition into_contents (s : SourceFile) : str := sf_lines s ≫= line_contents.

(** ** The whole update *)

(** [Vec::pop] of a final empty line. *)
Definition pop_empty (l : list str) : list str :=
  if last_is_empty l then take (length l - 1) l else l.

Definition derive_new_contents (path original : str) (chunks : list UpdateFileChunk)
    (mode : ApplyPatchFileUpdateMode) : ExecutionResult str :=
  match mode with
  | NormalizeToLf =>
    let original_lines := pop_empty (split_char NL original) in
    replacements ← compute_replacements original_lines path chunks mode;
    new_lines ← apply_replacements original_lines replacements;
    let new_lines := if last_is_empty new_lines then new_lines else new_lines ++ [[]] in
    Ok (join [NL] new_lines)
  | PreserveLineEndings =>
    let source := parse_source original in
    replacements ← compute_replacements (line_texts source) path chunks mode;
    source ← source_apply_replacements source replacements;
    Ok (into_contents source)
  end.

(** ** Searching *)

(** [i] is the first index of [lo..=hi] accepted by the most exact matcher that
    accepts any index of the range. *)
Definition best_match (lines pattern : list str) (lo hi i : nat) : Prop :=
  lo ≤ i ≤ hi ∧
  ∃ exact normalize coarser, matchers = exact ++ normalize :: coarser ∧
    window_matches normalize lines pattern i = true ∧
    (∀ j, lo ≤ j < i → window_matches normalize lines pattern j = false) ∧
    Forall (λ m, ∀ j, lo ≤ j ≤ hi → window_matches m lines pattern j = false) exact.

Lemma seek_matchers_spec ms pre lines pattern lo hi :
  lo ≤ hi → matchers = pre ++ ms →
  Forall (λ m, ∀ j, lo ≤ j ≤ hi → window_matches m lines pattern j = false) pre →
  match seek_matchers ms lines pattern lo hi with
  | Some i => best_match lines pattern lo hi i
  | None => Forall (λ m, ∀ j, lo ≤ j ≤ hi → window_matches m lines pattern j = false) matchers
  end.
Proof.
  intros Hle. revert pre. induction ms as [|m ms IH]; intros pre Hm Hpre; cbn [seek_matchers].
  { by rewrite Hm, app_nil_r. }
  destruct (find_index_from _ lo (S hi - lo)) as [i|] eqn:E.
  - apply find_index_from_Some in E as (Hi & Hmatch & Hmin).
    split; [lia|]. exists pre, m, ms. split_and!; [done|done|done|done].
  - apply (IH (pre ++ [m])); [by rewrite <-(assoc_L (++))|].
    apply Forall_app_2; [done|]. constructor; [|done]. intros j Hj.
    by apply (proj1 (find_index_from_None _ _ _) E); lia.
Qed.

(** Where a search may look: [Some (lo, hi)], or nowhere. *)
Definition search_range (lines pattern : list str) (start : nat) (eof : bool)
    (mode : ApplyPatchFileUpdateMode) : nat * nat :=
  let hi := length lines - length pattern in
  (if eof then match mode with NormalizeToLf => hi | PreserveLineEndings => hi `max` start end
   else start, hi).

(** The bounds of a search result that the replacements rest on. *)
Lemma seek_sequence_bounds lines pattern start eof mode i :
  start ≤ length lines → seek_sequence lines pattern start eof mode = Some i →
  i + length pattern ≤ length lines ∧ (mode = PreserveLineEndings → start ≤ i).
Proof.
  intros Hs. unfold seek_sequence. destruct pattern as [|x pattern]; [intros [= ->]; simpl; lia|].
  set (p := x :: pattern). destruct (Nat.ltb_spec (length lines) (length p)); [done|].
  cbv zeta. case_match; [done|]. intros Hi.
  match goal with E : (_ <? ?b) = false |- _ => apply Nat.ltb_ge in E; rename E into Hle end.
  pose proof (seek_matchers_spec matchers [] lines p _ _ Hle eq_refl (Forall_nil_2 _)) as Hspec.
  rewrite Hi in Hspec. destruct Hspec as [[Hlo Hhi] _].
  split; [lia|]. intros ->. destruct eof; lia.
Qed.

(** ** Replacements *)

Definition r_end (r : Replacement) : nat := r_start r + r_len r.
(** One replacement ends before the other starts. *)
Definition r_before (a b : Replacement) : Prop := r_end a ≤ r_start b.
(** The replacements of a text of [n] lines, in order and disjoint. *)
Definition disjoint_in (n : nat) (rs : list Replacement) : Prop :=
  StronglySorted r_before rs ∧ Forall (λ r, r_end r ≤ n) rs.

(** The reference semantics of a replacement list: [rest] is the text from line
    [pos] on, [f] turns a replacement line into a line of the text. *)
Fixpoint splice {A} (f : str → A) (pos : nat) (rest : list A) (rs : list Replacement) : list A :=
  match rs with
  | [] => rest
  | r :: rs =>
    take (r_start r - pos) rest ++ (f <$> r_lines r)
    ++ splice f (r_end r) (drop (r_end r - pos) rest) rs
  end.

(** *** Sorting *)

(** Two replacements that the stable sort leaves in a disjoint order. *)
Definition r_compatible (a b : Replacement) : Prop :=
  r_before a b ∨ (r_start b < r_start a ∧ r_before b a).

Lemma insert_by_before x l :
  Forall (r_compatible x) l → StronglySorted r_before l →
  StronglySorted r_before (insert_by start_leb x l).
Proof.
  intros Hc Hl. induction Hl as [|y l Hl IH Hy]; cbn [insert_by]; [by repeat constructor|].
  apply Forall_cons in Hc as [Hxy Hc]. unfold start_leb at 1.
  destruct (Nat.leb_spec (r_start x) (r_start y)) as [Hle|Hlt].
  - assert (Hb : r_before x y) by (destruct Hxy as [?|[? _]]; [done|lia]).
    constructor; [by constructor|]. constructor; [done|].
    rewrite Forall_forall in Hc, Hy |- *. intros z Hz.
    specialize (Hc z Hz). specialize (Hy z Hz). unfold r_compatible, r_before, r_end in *. lia.
  - constructor; [by apply IH|]. rewrite insert_by_Permutation. constructor; [|done].
    unfold r_compatible, r_before, r_end in *. lia.
Qed.
Lemma sort_by_before l :
  ForallOrdPairs r_compatible l → StronglySorted r_before (sort_by start_leb l).
Proof.
  induction 1 as [|x l Hx Hl IH]; [constructor|].
  change (sort_by start_leb (x :: l)) with (insert_by start_leb x (sort_by start_leb l)).
  apply insert_by_before; [|done]. by rewrite sort_by_Permutation.
Qed.
Lemma ForallOrdPairs_app {A} (R : A → A → Prop) l1 l2 :
  ForallOrdPairs R l1 → ForallOrdPairs R l2 →
  (∀ x y, x ∈ l1 → y ∈ l2 → R x y) → ForallOrdPairs R (l1 ++ l2).
Proof.
  induction 1 as [|x l1 Hx Hl IH]; intros H2 Hc; [done|]. constructor.
  - apply Forall_app_2; [done|]. apply Forall_forall. intros y Hy. apply Hc; [left|done].
  - apply IH; [done|]. intros. apply Hc; [by right|done].
Qed.
Lemma before_compatible l : StronglySorted r_before l → ForallOrdPairs r_compatible l.
Proof.
  induction 1 as [|x l Hl IH Hx]; constructor; [|done].
  eapply Forall_impl; [exact Hx|]. by left.
Qed.

(** *** The segments of one chunk *)

Lemma context_segments_ok start pattern replacement os ns idx :
  StronglySorted before idx → Forall (λ i, os ≤ i.1 ∧ ns ≤ i.2) idx →
  os ≤ length pattern → ns ≤ length replacement →
  ∃ segs os' ns', context_segments start pattern replacement os ns idx = Ok (segs, (os', ns'))
    ∧ os ≤ os' ≤ length pattern ∧ ns ≤ ns' ≤ length replacement
    ∧ StronglySorted r_before segs
    ∧ Forall (λ r, start + os ≤ r_start r ∧ r_end r ≤ start + os') segs.
Proof.
  intros Hs. revert os ns. induction Hs as [|[oc nc] idx Hs IH Hb]; intros os ns Hge Hos Hns.
  { exists [], os, ns. cbn. split_and!; eauto; lia || constructor. }
  cbn [context_segments]. apply Forall_cons in Hge as [[Ho Hn] Hge]. simpl in Ho, Hn.
  destruct (Nat.leb_spec (length pattern) oc);
    [exists [], os, ns; split_and!; eauto; lia || constructor|].
  destruct (Nat.leb_spec (length replacement) nc);
    [exists [], os, ns; split_and!; eauto; lia || constructor|]. cbn [orb].
  rewrite usize_sub_ok, slice_ok by lia. step_result.
  destruct (IH (S oc) (S nc)) as (segs & os' & ns' & Hrec & Hos' & Hns' & Hsorted & Hin); [|lia..|].
  { rewrite Forall_forall in Hb |- *. intros i Hi. specialize (Hb i Hi).
    unfold before in Hb. simpl in Hb. lia. }
  case_match; step_result; rewrite Hrec; step_result.
  - eexists _, os', ns'. split_and!; [done|lia..| |].
    + constructor; [done|]. eapply Forall_impl; [exact Hin|].
      unfold r_before, r_end. simpl. intros; lia.
    + constructor; [unfold r_end; simpl; lia|]. eapply Forall_impl; [exact Hin|].
      simpl. intros; lia.
  - exists segs, os', ns'. split_and!; [done|lia..|done|].
    eapply Forall_impl; [exact Hin|]. simpl. intros; lia.
Qed.


Lemma located_replacements_ok mode start pattern replacement idx :
  StronglySorted before idx →
  ∃ rs, located_replacements mode start pattern replacement idx = Ok rs
    ∧ StronglySorted r_before rs
    ∧ Forall (λ r, start ≤ r_start r ∧ r_end r ≤ start + length pattern) rs.
Proof.
  intros Hs. destruct mode; cbn [located_replacements].
  - eexists. split_and!; [done|by repeat constructor|]. constructor; [unfold r_end; simpl; lia|done].
  - destruct (context_segments_ok start pattern replacement 0 0 idx)
      as (segs & os & ns & -> & Hos & Hns & Hsorted & Hin); [done| |lia..|].
    { apply Forall_forall. lia. }
    step_result. assert (Hin' : Forall (λ r, start ≤ r_start r ∧ r_end r ≤ start + length pattern) segs).
    { eapply Forall_impl; [exact Hin|]. simpl. intros; lia. }
    case_match; [|by eexists].
    rewrite usize_sub_ok, slice_from_ok by lia. step_result. eexists. split_and!; [done| |].
    + apply StronglySorted_snoc; [done|]. eapply Forall_impl; [exact Hin|].
      unfold r_before. simpl. intros; lia.
    + apply Forall_app_2; [done|]. repeat constructor; unfold r_end; simpl; lia.
Qed.

(** *** The loop over the chunks *)

Lemma take_last_empty (l : list str) : last_is_empty l = true → length (take (length l - 1) l) < length l.
Proof. destruct l; [done|]. rewrite length_take. simpl. lia. Qed.

Lemma locate_chunk_bounds lines chunk line_index mode start pattern replacement :
  line_index ≤ length lines →
  locate_chunk lines chunk line_index mode = (Some start, (pattern, replacement)) →
  start + length pattern ≤ length lines ∧ (mode = PreserveLineEndings → line_index ≤ start).
Proof.
  intros Hl. unfold locate_chunk.
  destruct (seek_sequence lines (old_lines chunk) _ _ _) as [s|] eqn:E; intros H.
  - simplify_eq. by eapply seek_sequence_bounds.
  - case_match; simplify_eq. by eapply seek_sequence_bounds.
Qed.

Lemma seek_context_bounds lines path chunk line_index mode i :
  line_index ≤ length lines → seek_context lines path chunk line_index mode = Ok i →
  line_index ≤ i ≤ length lines.
Proof.
  unfold seek_context. intros Hl H. destruct (change_context chunk) as [ctx|]; [|simplify_eq; lia].
  unfold seek_sequence in H. destruct (Nat.ltb_spec (length lines) (length [ctx])); [done|].
  cbv zeta in H. destruct (Nat.ltb_spec (length lines - length [ctx]) line_index); [done|].
  pose proof (seek_matchers_spec matchers [] lines [ctx] line_index (length lines - length [ctx])
    ltac:(done) eq_refl (Forall_nil_2 _)) as Hspec.
  destruct (seek_matchers _ _ _ _ _) as [j|]; simplify_eq. destruct Hspec as [? _]. simpl in *. lia.
Qed.
Lemma seek_context_no_panic lines path chunk line_index mode :
  seek_context lines path chunk line_index mode ≠ Panic.
Proof. unfold seek_context. by repeat case_match. Qed.

Lemma insertion_point_le lines mode : insertion_point lines mode ≤ length lines.
Proof. unfold insertion_point. repeat case_match; lia. Qed.

(** The loop invariant for a text of [n] lines.  Only the preserving mode keeps
    the replacements from overlapping. *)
Definition compute_inv (mode : ApplyPatchFileUpdateMode) (n : nat) (st : list Replacement * nat) : Prop :=
  st.2 ≤ n ∧ Forall (λ r, r_end r ≤ n) st.1 ∧
  (mode = PreserveLineEndings →
     ForallOrdPairs r_compatible st.1 ∧
     Forall (λ r, r_end r ≤ st.2 ∨ (r_start r = n ∧ r_len r = 0)) st.1).

Lemma compute_step_inv lines path mode st chunk :
  compute_inv mode (length lines) st → chunk_ok chunk →
  match compute_step lines path mode st chunk with
  | Ok st' => compute_inv mode (length lines) st'
  | Err _ => True
  | Panic => False
  end.
Proof.
  destruct st as [rs li]. intros (Hli & Hrs & Hp) [Hidx _]. cbn [compute_step fst snd] in *.
  destruct (seek_context lines path chunk li mode) as [li'|e|] eqn:Ec; step_result;
    [|done|by apply seek_context_no_panic in Ec].
  apply seek_context_bounds in Ec; [|done].
  destruct (old_lines chunk) as [|l0 ls0] eqn:Eold.
  - pose proof (insertion_point_le lines mode).
    split_and!; cbn [fst snd]; [lia| |].
    + apply Forall_app_2; [done|]. repeat constructor. unfold r_end. simpl. lia.
    + intros ->. specialize (Hp eq_refl) as [Hpairs Hends]. cbn [insertion_point]. split.
      * apply ForallOrdPairs_app; [done|by repeat constructor|].
        intros x y Hx ->%list_elem_of_singleton. left. rewrite Forall_forall in Hrs.
        specialize (Hrs x Hx). unfold r_before. simpl. lia.
      * apply Forall_app_2; [|constructor; [by right|done]].
        eapply Forall_impl; [exact Hends|]. simpl. intros; lia.
  - destruct (locate_chunk lines chunk li' mode) as [[start|] [pattern replacement]] eqn:El; [|done].
    apply locate_chunk_bounds in El as [Hend Hstart]; [|lia].
    destruct (located_replacements_ok mode start pattern replacement (context_line_indices chunk))
      as (new & -> & Hsorted & Hnew); [done|]. step_result.
    split_and!; cbn [fst snd]; [lia| |].
    + apply Forall_app_2; [done|]. eapply Forall_impl; [exact Hnew|]. simpl. intros; lia.
    + intros Hm. specialize (Hp Hm) as [Hpairs Hends]. specialize (Hstart Hm). split.
      * apply ForallOrdPairs_app; [done|by apply before_compatible|].
        intros x y Hx Hy. rewrite Forall_forall in Hends, Hnew.
        specialize (Hends x Hx). specialize (Hnew y Hy). simpl in Hnew.
        unfold r_compatible, r_before, r_end in *. lia.
      * apply Forall_app_2.
        -- eapply Forall_impl; [exact Hends|]. simpl. intros; lia.
        -- eapply Forall_impl; [exact Hnew|]. simpl. intros; lia.
Qed.

Lemma compute_loop_inv lines path mode chunks st :
  compute_inv mode (length lines) st → Forall chunk_ok chunks →
  match fold_result (compute_step lines path mode) st chunks with
  | Ok st' => compute_inv mode (length lines) st'
  | Err _ => True
  | Panic => False
  end.
Proof.
  intros Hst Hok. revert st Hst. induction Hok as [|c chunks Hc Hok IH]; intros st Hst; [done|].
  cbn [fold_result]. pose proof (compute_step_inv lines path mode st c Hst Hc) as Hstep.
  destruct (compute_step lines path mode st c) as [st'|e|]; step_result; [by apply IH|done..].
Qed.
Lemma compute_init_inv mode n : compute_inv mode n ([], 0).
Proof. split_and!; cbn; [lia|constructor|]. intros _. split; constructor. Qed.

(** What the computed replacements satisfy, by mode. *)
Definition replacements_ok (mode : ApplyPatchFileUpdateMode) (n : nat) (rs : list Replacement) : Prop :=
  match mode with
  | NormalizeToLf => StronglySorted (λ a b, start_leb a b = true) rs ∧ Forall (λ r, r_start r ≤ n) rs
  | PreserveLineEndings => disjoint_in n rs
  end.
Lemma compute_replacements_inv lines path mode chunks :
  Forall chunk_ok chunks →
  match compute_replacements lines path chunks mode with
  | Ok rs => replacements_ok mode (length lines) rs
  | Err _ => True
  | Panic => False
  end.
Proof.
  intros Hok. unfold compute_replacements.
  pose proof (compute_loop_inv lines path mode chunks _ (compute_init_inv mode _) Hok) as Hinv.
  destruct (fold_result _ _ _) as [[rs li]|e|]; step_result; [|done..].
  destruct Hinv as (Hli & Hrs & Hp). cbn [fst snd] in *. destruct mode; split.
  - apply sort_by_sorted; unfold start_leb; intros; lia.
  - rewrite sort_by_Permutation. eapply Forall_impl; [exact Hrs|]. unfold r_end. simpl. intros; lia.
  - by apply sort_by_before, Hp.
  - by rewrite sort_by_Permutation.
Qed.

(** *** Legacy splicing *)

Lemma remove_lines_total l s n :
  ∃ l', remove_lines l s n = Ok l' ∧ (s ≤ length l → s ≤ length l') ∧
        (s + n ≤ length l → l' = take s l ++ drop (s + n) l).
Proof.
  revert l. induction n as [|n IH]; intros l; cbn [remove_lines].
  { exists l. split_and!; [done|done|]. intros. by rewrite Nat.add_0_r, take_drop. }
  destruct (Nat.ltb_spec s (length l)).
  - rewrite vec_remove_ok by done. step_result.
    destruct (IH (take s l ++ drop (S s) l)) as (l' & -> & Hlen & Heq).
    rewrite length_app, length_take, length_drop in Hlen, Heq.
    exists l'. split_and!; [done|lia|]. intros Hn. rewrite Heq by lia.
    rewrite take_app_le by (rewrite length_take; lia). rewrite take_take, Nat.min_id. f_equal.
    rewrite drop_app_ge by (rewrite length_take; lia).
    rewrite drop_drop. f_equal. rewrite length_take. lia.
  - step_result. destruct (IH l) as (l' & -> & ? & Heq). exists l'. split_and!; [done..|]. lia.
Qed.
Lemma insert_lines_ok l s new :
  s ≤ length l → insert_lines l s new = Ok (take s l ++ new ++ drop s l).
Proof.
  revert l s. induction new as [|x new IH]; intros l s Hs; cbn [insert_lines].
  { simpl. by rewrite take_drop. }
  rewrite vec_insert_ok by done. step_result. rewrite IH.
  - f_equal. rewrite take_app_ge, drop_app_ge by (rewrite length_take; lia).
    rewrite length_take, Nat.min_l by done. replace (S s - s) with 1 by lia.
    rewrite <-(assoc_L (++)). done.
  - rewrite length_app, length_take. simpl. lia.
Qed.

Lemma apply_replacement_total l r :
  r_start r ≤ length l → ∃ l', apply_replacement l r = Ok l' ∧ r_start r ≤ length l'.
Proof.
  intros Hs. unfold apply_replacement.
  destruct (remove_lines_total l (r_start r) (r_len r)) as (l' & -> & Hlen & _). step_result.
  rewrite insert_lines_ok by auto. eexists. split; [done|].
  rewrite !length_app, length_take. specialize (Hlen Hs). lia.
Qed.
Lemma apply_replacement_splice l r :
  r_end r ≤ length l →
  apply_replacement l r = Ok (take (r_start r) l ++ r_lines r ++ drop (r_end r) l).
Proof.
  unfold r_end. intros Hs. unfold apply_replacement.
  destruct (remove_lines_total l (r_start r) (r_len r)) as (l' & -> & _ & Heq). rewrite (Heq Hs). step_result.
  rewrite insert_lines_ok.
  - rewrite take_app_le, drop_app_ge by (rewrite length_take; lia).
    rewrite take_take, Nat.min_id, length_take.
    by replace (r_start r - r_start r `min` length l) with 0 by lia.
  - rewrite length_app, length_take. lia.
Qed.

(** The bounds check of the removals is what keeps the insertions in range. *)
Lemma apply_replacements_total rs l :
  StronglySorted (λ a b, start_leb a b = true) rs → Forall (λ r, r_start r ≤ length l) rs →
  ∃ l', apply_replacements l rs = Ok l' ∧ Forall (λ r, r_start r ≤ length l') (take 1 rs).
Proof.
  intros Hs. unfold apply_replacements. induction Hs as [|r rs Hs IH Hr]; intros Hle; [by exists l|].
  apply Forall_cons in Hle as [Hrl Hle]. destruct (IH Hle) as (l1 & Heq & Hl1).
  rewrite reverse_cons, fold_result_app, Heq. step_result. cbn [fold_result].
  destruct rs as [|r2 rs].
  - cbn in Heq. injection Heq as <-.
    destruct (apply_replacement_total l r Hrl) as (l2 & -> & ?). eexists. by split; [|constructor].
  - cbn [take] in Hl1. apply Forall_cons in Hl1 as [Hl1 _], Hr as [Hr _].
    unfold start_leb in Hr. apply Nat.leb_le in Hr.
    destruct (apply_replacement_total l1 r) as (l2 & -> & ?); [lia|].
    eexists. by split; [|constructor].
Qed.

Lemma apply_replacements_splice rs l p :
  StronglySorted r_before rs → Forall (λ r, r_end r ≤ length l) rs →
  Forall (λ r, p ≤ r_start r) rs → p ≤ length l →
  apply_replacements l rs = Ok (take p l ++ splice id p (drop p l) rs).
Proof.
  intros Hs. revert p. unfold apply_replacements.
  induction Hs as [|r rs Hs IH Hr]; intros p Hle Hp Hpl; [by cbn; rewrite take_drop|].
  apply Forall_cons in Hle as [Hrl Hle], Hp as [Hpr Hp].
  rewrite reverse_cons, fold_result_app, (IH (r_end r)) by done. step_result. cbn [fold_result splice].
  assert (r_start r ≤ r_end r) by (unfold r_end; lia).
  rewrite apply_replacement_splice by (rewrite length_app, length_take; lia). step_result. f_equal.
  rewrite take_app_le, drop_app_ge by (rewrite length_take; lia).
  rewrite take_take, length_take, Nat.min_l by lia.
  replace (r_end r - r_end r `min` length l) with 0 by lia. cbn [drop].
  rewrite list_fmap_id, !drop_drop. replace (p + (r_end r - p)) with (r_end r) by lia.
  rewrite (assoc_L (++) (take p l)). f_equal.
  rewrite <-(take_drop p l) at 1. rewrite take_app_ge by (rewrite length_take; lia).
  by rewrite length_take, Nat.min_l by lia.
Qed.

(** *** Streaming *)

Definition new_source_line (e : LineEnding) (t : str) : SourceLine :=
  {| sl_text := t; sl_ending := Some e |}.

Lemma stream_step_ok e src out pos r :
  pos ≤ r_start r →
  stream_step e (src, out, pos) r =
    Ok (drop (r_end r - pos) src,
        (out ++ take (r_start r - pos) src) ++ (new_source_line e <$> r_lines r), r_end r).
Proof.
  intros Hp. unfold stream_step. rewrite usize_sub_ok by done. step_result. rewrite drop_drop.
  by replace (r_start r - pos + r_len r) with (r_end r - pos) by (unfold r_end; lia).
Qed.
Lemma stream_splice e rs src out pos :
  StronglySorted r_before rs → Forall (λ r, pos ≤ r_start r) rs →
  ∃ src' out' pos', fold_result (stream_step e) (src, out, pos) rs = Ok (src', out', pos')
    ∧ out' ++ src' = out ++ splice (new_source_line e) pos src rs.
Proof.
  intros Hs. revert src out pos. induction Hs as [|r rs Hs IH Hr]; intros src out pos Hp.
  { exists src, out, pos. done. }
  apply Forall_cons in Hp as [Hpr Hp]. cbn [fold_result splice]. rewrite stream_step_ok by done. step_result.
  destruct (IH (drop (r_end r - pos) src)
               ((out ++ take (r_start r - pos) src) ++ (new_source_line e <$> r_lines r))
               (r_end r)) as (src' & out' & pos' & Heq & Hout); [done|].
  exists src', out', pos'. split; [exact Heq|]. rewrite Hout.
  by rewrite <-!(assoc_L (++)).
Qed.
Lemma source_apply_ok s rs :
  StronglySorted r_before rs →
  source_apply_replacements s rs =
    Ok {| sf_lines := or_ending (preferred_ending s)
                        <$> splice (new_source_line (preferred_ending s)) 0 (sf_lines s) rs;
          preferred_ending := preferred_ending s |}.
Proof.
  intros Hs. unfold source_apply_replacements.
  destruct (stream_splice (preferred_ending s) rs (sf_lines s) [] 0) as (src & out & pos & -> & Hout);
    [done|apply Forall_forall; lia|]. step_result. by rewrite Hout.
Qed.
Lemma splice_fmap {A B} (g : A → B) (f : str → A) pos l rs :
  g <$> splice f pos l rs = splice (g ∘ f) pos (g <$> l) rs.
Proof.
  revert pos l. induction rs as [|r rs IH]; intros pos l; [done|]. cbn [splice].
  by rewrite !fmap_app, IH, fmap_take, fmap_drop, list_fmap_compose.
Qed.

(** *** Round trip of the source *)

Lemma parse_lines_contents rest text : parse_lines text rest ≫= line_contents = text ++ rest.
Proof.
  remember (length rest) as n eqn:Hn. assert (Hle : length rest ≤ n) by lia. clear Hn.
  revert text rest Hle. induction n as [|n IH]; intros text [|c rest] Hle; cbn [length] in Hle; try lia;
    cbn [parse_lines].
  1,2: destruct text; [done|]; cbn [mbind list_bind]; unfold line_contents; by rewrite !app_nil_r.
  destruct (N.eqb_spec c CR) as [->|]; [|destruct (N.eqb_spec c NL) as [->|]].
  - assert (Hcr : ({| sl_text := text; sl_ending := Some Cr |} :: parse_lines [] rest) ≫= line_contents
                  = text ++ CR :: rest).
    { cbn [mbind list_bind]. rewrite IH by lia. unfold line_contents. cbn. by rewrite <-(assoc_L (++)). }
    destruct rest as [|d rest]; [done|]. destruct (N.eqb_spec d NL) as [->|]; [|done].
    cbn [mbind list_bind]. rewrite IH by (simpl in *; lia). unfold line_contents.
    cbn. by rewrite <-(assoc_L (++)).
  - cbn [mbind list_bind]. rewrite IH by lia. unfold line_contents. cbn. by rewrite <-(assoc_L (++)).
  - rewrite IH by lia. by rewrite <-(assoc_L (++)).
Qed.

(** *** Context lines keep their source line *)

Section merged_lines.
Context {A : Type} (f : str → A) (start : nat) (lines : list A).
Context (pattern replacement : list str).

(** The line at position [j] of the new text of a chunk, whose positions are
    counted from [ns]: the source line of the context line at that position, or
    the replacement line. *)
Definition merged_line (idx : list (nat * nat)) (j : nat) (l : A) : Prop :=
  (∃ i, i < length pattern ∧ (i, j) ∈ idx ∧ lines !! (start + i) = Some l) ∨
  (∃ t, replacement !! j = Some t ∧ l = f t ∧ ∀ i, i < length pattern → (i, j) ∉ idx).
Definition merged (idx : list (nat * nat)) (ns : nat) (out : list A) : Prop :=
  ∀ j l, out !! j = Some l → merged_line idx (ns + j) l.

Lemma splice_skip pos x rest rs :
  Forall (λ r, S pos ≤ r_start r) rs → splice f pos (x :: rest) rs = x :: splice f (S pos) rest rs.
Proof.
  intros [|r rs' Hr _]; [done|]. cbn [splice].
  replace (r_start r - pos) with (S (r_start r - S pos)) by lia.
  replace (r_end r - pos) with (S (r_end r - S pos)) by (unfold r_end; lia). done.
Qed.

(** The segment before a context line, when there is one. *)
Definition segment_before (os ns oc nc : nat) : list Replacement :=
  if negb (os =? oc) || negb (ns =? nc)
  then [{| r_start := start + os; r_len := oc - os; r_lines := take (nc - ns) (drop ns replacement) |}]
  else [].
Lemma splice_segment_before os ns oc nc rs :
  os ≤ oc →
  splice f (start + os) (drop (start + os) lines) (segment_before os ns oc nc ++ rs)
  = (f <$> take (nc - ns) (drop ns replacement))
    ++ splice f (start + oc) (drop (start + oc) lines) rs.
Proof.
  intros Hos. unfold segment_before. destruct (_ || _) eqn:E.
  - cbn [app splice r_start r_lines]. unfold r_end. cbn [r_start r_len].
    rewrite Nat.sub_diag, drop_drop, take_0, app_nil_l.
    replace (start + os + (oc - os)) with (start + oc) by lia.
    by replace (start + os + (start + oc - (start + os))) with (start + oc) by lia.
  - apply orb_false_iff in E as [?%negb_false_iff%Nat.eqb_eq ?%negb_false_iff%Nat.eqb_eq]. subst.
    by rewrite Nat.sub_diag.
Qed.
Lemma context_segments_cons os ns oc nc idx :
  os ≤ oc < length pattern → ns ≤ nc < length replacement →
  context_segments start pattern replacement os ns ((oc, nc) :: idx) =
  ('(rest, ends) ← context_segments start pattern replacement (S oc) (S nc) idx;
   Ok (segment_before os ns oc nc ++ rest, ends)).
Proof.
  intros Ho Hn. cbn [context_segments].
  rewrite (proj2 (Nat.leb_gt _ _) (proj2 Ho)), (proj2 (Nat.leb_gt _ _) (proj2 Hn)). cbn [orb].
  unfold segment_before. destruct (_ || _); [|done].
  by rewrite usize_sub_ok, slice_ok by lia.
Qed.

Lemma merged_cons os ns oc nc idx x out :
  os ≤ oc < length pattern → ns ≤ nc < length replacement →
  Forall (before (oc, nc)) idx → lines !! (start + oc) = Some x →
  merged idx (S nc) out →
  merged ((oc, nc) :: idx) ns ((f <$> take (nc - ns) (drop ns replacement)) ++ x :: out).
Proof.
  intros Ho Hn Hb Hx Hout j l Hj. rewrite Forall_forall in Hb.
  assert (Hlen : length (f <$> take (nc - ns) (drop ns replacement)) = nc - ns)
    by (rewrite length_fmap, length_take, length_drop; lia).
  apply lookup_app_Some in Hj as [Hj|[Hge Hj]].
  - pose proof (lookup_lt_Some _ _ _ Hj) as Hlt. rewrite Hlen in Hlt.
    rewrite list_lookup_fmap, lookup_take, lookup_drop in Hj.
    rewrite decide_True in Hj by lia. apply fmap_Some in Hj as (t & Ht & ->).
    right. exists t. split_and!; [done|done|]. intros i _ [Heq|Hin]%elem_of_cons.
    + injection Heq as ? ?. lia.
    + specialize (Hb _ Hin). unfold before in Hb. simpl in Hb. lia.
  - rewrite Hlen in Hge, Hj. destruct (j - (nc - ns)) as [|k] eqn:Ek; simpl in Hj.
    + injection Hj as <-. left. exists oc. replace (ns + j) with nc by lia.
      split_and!; [lia|by left|done].
    + apply Hout in Hj. replace (S nc + k) with (ns + j) in Hj by lia.
      destruct Hj as [(i & ? & ? & ?)|(t & ? & ? & Hno)].
      * left. exists i. split_and!; [done|by right|done].
      * right. exists t. split_and!; [done..|]. intros i Hi [Heq|Hin]%elem_of_cons.
        -- injection Heq as ? ?. lia.
        -- by eapply Hno.
Qed.

Lemma context_segments_splice idx os ns segs os' ns' tail :
  StronglySorted before idx → Forall (λ i, os ≤ i.1 ∧ ns ≤ i.2) idx →
  os ≤ length pattern → ns ≤ length replacement → start + length pattern ≤ length lines →
  context_segments start pattern replacement os ns idx = Ok (segs, (os', ns')) →
  Forall (λ r, start + os' ≤ r_start r) tail →
  ∃ out, splice f (start + os) (drop (start + os) lines) (segs ++ tail)
         = out ++ splice f (start + os') (drop (start + os') lines) tail
    ∧ length out = ns' - ns ∧ ns ≤ ns' ∧ merged idx ns out
    ∧ ∀ i j, (i, j) ∈ idx → i < length pattern → j < length replacement → j < ns'.
Proof.
  intros Hs. revert os ns segs. induction Hs as [|[oc nc] idx Hs IH Hb];
    intros os ns segs Hge Hos Hns Hlines Hc Htail.
  { simplify_eq/=. exists []. split_and!; [done|simpl; lia|lia|done|set_solver]. }
  apply Forall_cons in Hge as [[Ho Hn] Hge]. simpl in Ho, Hn.
  destruct (decide (oc < length pattern ∧ nc < length replacement)) as [[Hoc Hnc]|Hbreak].
  - rewrite context_segments_cons in Hc by lia.
    assert (Hge' : Forall (λ i, S oc ≤ i.1 ∧ S nc ≤ i.2) idx).
    { eapply Forall_impl; [exact Hb|]. unfold before. simpl. intros; lia. }
    destruct (context_segments_ok start pattern replacement (S oc) (S nc) idx)
      as (rest & o2 & n2 & Hrec & Ho2 & Hn2 & _ & Hin); [done|done|lia..|].
    rewrite Hrec in Hc. step_result in Hc. simplify_eq.
    destruct (IH (S oc) (S nc) rest) as (out & Hout & Hlen & Hle & Hmerged & Hmax); [done|lia..|done|done|].
    destruct (lookup_lt_is_Some_2 lines (start + oc)) as [x Hx]; [lia|].
    exists ((f <$> take (nc - ns) (drop ns replacement)) ++ x :: out). split_and!.
    + rewrite <-(assoc_L (++)), splice_segment_before by lia.
      rewrite (drop_S _ _ _ Hx), splice_skip.
      * replace (S (start + oc)) with (start + S oc) by lia. rewrite Hout.
        by rewrite <-(assoc_L (++)).
      * apply Forall_app_2; [eapply Forall_impl; [exact Hin|]|eapply Forall_impl; [exact Htail|]];
          simpl; intros; lia.
    + rewrite length_app, length_fmap, length_take, length_drop. simpl. lia.
    + lia.
    + eapply (merged_cons os); [lia|lia|done..].
    + intros i j [Heq|Hij]%elem_of_cons; [injection Heq as -> ->; lia|by eauto].
  - cbn [context_segments] in Hc.
    assert ((length pattern <=? oc) || (length replacement <=? nc) = true) as Hb' by lia.
    rewrite Hb' in Hc. simplify_eq. exists []. split_and!; [done|simpl; lia|lia|done|].
    rewrite Forall_forall in Hb. intros i j [Heq|Hij]%elem_of_cons ??.
    + injection Heq as -> ->. lia.
    + specialize (Hb _ Hij). unfold before in Hb. simpl in Hb. lia.
Qed.
End merged_lines.

(** ** Properties *)

(** The search returns the first window accepted by the most exact of the four
    matchers that accepts any window in range, the range being what the mode and
    the end-of-file flag allow; it returns nothing only when no matcher accepts
    any window. *)
Theorem seek_sequence_best (lines pattern : list str) (start : nat) (eof : bool)
    (mode : ApplyPatchFileUpdateMode) (lo hi : nat) :
  pattern ≠ [] → search_range lines pattern start eof mode = (lo, hi) →
  match seek_sequence lines pattern start eof mode with
  | Some i => length pattern ≤ length lines ∧ best_match lines pattern lo hi i
  | None => length lines < length pattern ∨
            Forall (λ m, ∀ j, lo ≤ j ≤ hi → window_matches m lines pattern j = false) matchers
  end.
Proof.
  intros Hne Hr. unfold search_range in Hr. injection Hr as Hlo Hhi.
  unfold seek_sequence. destruct pattern as [|x p]; [done|].
  destruct (Nat.ltb_spec (length lines) (length (x :: p))) as [|Hlen]; [by left|].
  cbv zeta. rewrite Hlo, Hhi. destruct (Nat.ltb_spec hi lo).
  { right. apply Forall_forall. lia. }
  pose proof (seek_matchers_spec matchers [] lines (x :: p) lo hi ltac:(lia) eq_refl
    (Forall_nil_2 _)) as Hs.
  destruct (seek_matchers _ _ _ _ _); [by split|by right].
Qed.

Lemma derive_new_contents_no_panic path original chunks mode :
  Forall chunk_ok chunks → derive_new_contents path original chunks mode ≠ Panic.
Proof.
  intros Hok. destruct mode; cbn [derive_new_contents]; cbv zeta.
  - pose proof (compute_replacements_inv (pop_empty (split_char NL original)) path NormalizeToLf
      chunks Hok) as Hinv.
    destruct (compute_replacements _ _ _ _) as [rs|e|]; step_result; [|done..].
    destruct Hinv as [Hs Hle].
    by destruct (apply_replacements_total rs _ Hs Hle) as (l & -> & _).
  - pose proof (compute_replacements_inv (line_texts (parse_source original)) path
      PreserveLineEndings chunks Hok) as Hinv.
    destruct (compute_replacements _ _ _ _) as [rs|e|]; step_result; [|done..].
    destruct Hinv as [Hs _]. by rewrite source_apply_ok.
Qed.

(** Updating a text never panics, in either mode, for chunks as the parser
    produces them: no subtraction underflows, no slice, removal or insertion is
    out of range, even when legacy end-of-file matching makes chunks overlap. *)
Theorem derive_new_contents_never_panics (path original : str) (chunks : list UpdateFileChunk)
    (mode : ApplyPatchFileUpdateMode) :
  Forall chunk_ok chunks → derive_new_contents path original chunks mode ≠ Panic.
Proof. apply derive_new_contents_no_panic. Qed.

(** C37. The preserving mode computes ordered, disjoint replacements inside the file
    and its output is the reference splice of the source lines: lines outside the
    replacements keep text and ending, inserted lines take the file's preferred
    ending, and only a final line without ending gains one. *)
Theorem derive_preserving_spec (path original : str) (chunks : list UpdateFileChunk) (out : str) :
  Forall chunk_ok chunks →
  derive_new_contents path original chunks PreserveLineEndings = Ok out →
  let source := parse_source original in
  let e := preferred_ending source in
  ∃ rs, compute_replacements (line_texts source) path chunks PreserveLineEndings = Ok rs
    ∧ disjoint_in (length (sf_lines source)) rs
    ∧ out = (or_ending e <$> splice (new_source_line e) 0 (sf_lines source) rs) ≫= line_contents.
Proof.
  intros Hok. cbn [derive_new_contents]. intros H. cbv zeta in *. inv_ok H. exists a.
  pose proof (compute_replacements_inv (line_texts (parse_source original)) path
    PreserveLineEndings chunks Hok) as Hinv.
  rewrite H0 in Hinv. destruct Hinv as [Hs Hle]. unfold line_texts in Hle. rewrite length_fmap in Hle.
  rewrite source_apply_ok in H by done. step_result in H. split_and!; [done|by split|].
  by injection H as <-.
Qed.

(** The two implementations of a replacement list agree with each other: on
    disjoint replacements the in-place splicing from last to first and the
    one-pass streaming of source lines produce the same lines, the reference
    splice. *)
Theorem splicing_agrees_with_streaming (s : SourceFile) (rs : list Replacement) :
  disjoint_in (length (sf_lines s)) rs →
  ∃ s', source_apply_replacements s rs = Ok s'
    ∧ apply_replacements (line_texts s) rs = Ok (line_texts s')
    ∧ line_texts s' = splice id 0 (line_texts s) rs.
Proof.
  intros [Hs Hle]. rewrite source_apply_ok by done. eexists. split; [done|].
  rewrite (apply_replacements_splice rs _ 0); [|done| |apply Forall_forall; lia|lia].
  - unfold line_texts. cbn [sf_lines take drop app].
    rewrite <-list_fmap_compose, splice_fmap.
    split; f_equal.
  - unfold line_texts. by rewrite length_fmap.
Qed.

(** Splitting a source into lines with their endings loses nothing: writing the
    lines back gives the original text, byte for byte, for any mix of LF, CRLF
    and lone CR endings and any final line. *)
Theorem source_roundtrip (contents : str) : into_contents (parse_source contents) = contents.
Proof. apply (parse_lines_contents contents []). Qed.

(** A chunk located at [start] is replaced position by position: the lines
    before and after it are untouched, its length becomes that of the
    replacement, a context line keeps the source's own line (spelling and
    ending), and every other position holds the replacement line. *)
Theorem preserve_keeps_context {A} (f : str → A) (lines : list A) (start : nat)
    (pattern replacement : list str) (idx : list (nat * nat)) (rs : list Replacement) :
  StronglySorted before idx → start + length pattern ≤ length lines →
  located_replacements PreserveLineEndings start pattern replacement idx = Ok rs →
  ∃ out, splice f start (drop start lines) rs = out ++ drop (start + length pattern) lines
    ∧ length out = length replacement
    ∧ ∀ j l, out !! j = Some l → merged_line f start lines pattern replacement idx j l.
Proof.
  intros Hs Hlines. cbn [located_replacements]. intros H. inv_ok H. destruct a as [segs [os ns]].
  assert (Hge : Forall (λ i : nat * nat, 0 ≤ i.1 ∧ 0 ≤ i.2) idx) by (apply Forall_forall; lia).
  destruct (context_segments_ok start pattern replacement 0 0 idx)
    as (segs' & os' & ns' & Hc & Hos & Hns & _ & _); [done..|lia|lia|].
  rewrite Hc in H0. simplify_eq. cbv beta iota in H.
  set (last_seg := segment_before start replacement os ns (length pattern) (length replacement)).
  assert (rs = segs ++ last_seg) as ->.
  { unfold last_seg, segment_before. destruct (_ || _).
    - rewrite usize_sub_ok, slice_from_ok in H by lia. step_result in H.
      injection H as <-. do 3 f_equal. by rewrite take_ge by (rewrite length_drop; lia).
    - injection H as <-. by rewrite app_nil_r. }
  destruct (context_segments_splice f start lines pattern replacement idx 0 0 segs os ns last_seg)
    as (out & Hout & Hlen & _ & Hmerged & Hmax); [done..|lia|lia|done|done| |].
  { unfold last_seg, segment_before. case_match; repeat constructor. }
  rewrite Nat.add_0_r in Hout. rewrite Hout. unfold last_seg.
  rewrite <-(app_nil_r (segment_before _ _ _ _ _ _)), splice_segment_before by lia. cbn [splice].
  eexists. split_and!; [by rewrite (assoc_L (++))| |].
  - rewrite length_app, length_fmap, length_take, length_drop. lia.
  - intros j l [Hj|[Hj1 Hj]]%lookup_app_Some; [by apply (Hmerged j)|].
    rewrite list_lookup_fmap, lookup_take, lookup_drop in Hj.
    case_decide; [|done]. apply fmap_Some in Hj as (t & Ht & ->). right. exists t.
    replace (ns + (j - length out)) with j in Ht by lia.
    split_and!; [done|done|]. intros i Hi Hin.
    assert (j < ns) by (apply (Hmax i j); [done..|]; by eapply lookup_lt_Some). lia.
Qed.

(** ** Witnesses *)

Definition sample_chunk : UpdateFileChunk :=
  {| change_context := None; old_lines := [str! "b"; str! "c"];
     new_lines := [str! "b"; str! "x"; str! "c"]; context_line_indices := [(0, 0); (1, 2)];
     is_end_of_file := false |}.
Definition sample_source : str := str! "a" ++ [CR; NL] ++ str! "b  " ++ [NL] ++ str! "c".
Lemma sample_chunk_ok : Forall chunk_ok [sample_chunk].
Proof.
  constructor; [|done]. split; [repeat constructor; unfold before; simpl; lia|].
  repeat constructor; eexists; by split.
Qed.

Lemma seek_sequence_best_witness :
  match seek_sequence [str! "a"; str! "b  "] [str! "b"] 0 false PreserveLineEndings with
  | Some i => 1 ≤ 2 ∧ best_match [str! "a"; str! "b  "] [str! "b"] 0 1 i
  | None => False
  end.
Proof.
  exact (seek_sequence_best [str! "a"; str! "b  "] [str! "b"] 0 false PreserveLineEndings 0 1
    ltac:(done) eq_refl).
Defined.
Lemma derive_new_contents_never_panics_witness :
  derive_new_contents (str! "p") sample_source [sample_chunk] NormalizeToLf ≠ Panic.
Proof. apply derive_new_contents_never_panics, sample_chunk_ok. Defined.
Lemma derive_preserving_spec_witness :
  ∃ rs, compute_replacements (line_texts (parse_source sample_source)) (str! "p") [sample_chunk]
          PreserveLineEndings = Ok rs ∧ disjoint_in 3 rs.
Proof.
  destruct (derive_preserving_spec (str! "p") sample_source [sample_chunk]
    (str! "a" ++ [CR; NL] ++ str! "b  " ++ [NL] ++ str! "x" ++ [CR; NL] ++ str! "c" ++ [CR; NL])
    sample_chunk_ok) as (rs & Hrs & Hd & _); [by vm_compute|]. by exists rs.
Defined.
Lemma splicing_agrees_with_streaming_witness :
  ∃ s', source_apply_replacements (parse_source sample_source)
          [{| r_start := 1; r_len := 1; r_lines := [] |}] = Ok s'
        ∧ line_texts s' = [str! "a"; str! "c"].
Proof.
  destruct (splicing_agrees_with_streaming (parse_source sample_source)
    [{| r_start := 1; r_len := 1; r_lines := [] |}]) as (s' & ? & _ & Heq).
  - split; repeat constructor; unfold r_end; simpl; lia.
  - exists s'. split; [done|]. rewrite Heq. by vm_compute.
Defined.
Lemma preserve_keeps_context_witness :
  ∃ out, length out = 3 ∧
    splice id 1 [str! "b  "; str! "c"] [{| r_start := 2; r_len := 0; r_lines := [str! "x"] |}]
    = out ++ [].
Proof.
  destruct (preserve_keeps_context id [str! "a"; str! "b  "; str! "c"] 1 [str! "b"; str! "c"]
    [str! "b"; str! "x"; str! "c"] [(0, 0); (1, 2)]
    [{| r_start := 2; r_len := 0; r_lines := [str! "x"] |}]) as (out & Hs & Hl & _).
  - repeat constructor; unfold before; simpl; lia.
  - simpl. lia.
  - by vm_compute.
  - by exists out.
Defined.
