(* ===== verification/PatchApply.v ===== *)
(** [tool-apply-patch], part 3: verifying a patch against a host and applying it in
    checkpointed steps ([apply-patch/src/{lib,filesystem,prepare,apply}.rs]), over
    the runtime traits.  Every [async fn] is a computation of the monad [M]; a
    [&mut RunningPatch] is threaded as an argument and a result. *)
From Stdlib Require Import ZifyBool Sorted.
From stdpp Require Import prelude gmap strings pretty list.
From S2P Require Import Prelude.
From S2P Require Import Text.
From S2P Require Import Core.
From S2P Require Import Host.
From S2P Require Import MemoryHost.
From S2P Require Import PathTool.
From S2P Require Import PatchParser.
From S2P Require Import PatchUpdate.

(** The [Debug] rendering of a path, used in one error message only. *)
Class DebugPath := debug_path : ExecutionPath → str.

(** ** Data ([lib.rs]) *)

Record ApplyPatchConfig := {
  max_patch_bytes : N;
  max_file_bytes : N;
  chunk_bytes : N;
  max_operations : N;
  update_file_mode : ApplyPatchFileUpdateMode;
}.

Record ApplyPatchState := { aps_operation_id : OperationId }.

Inductive AppliedPatchChangeKind := Add | Modify | Delete.
#[export] Instance AppliedPatchChangeKind_eq_dec : EqDecision AppliedPatchChangeKind.
Proof. solve_decision. Defined.
Record AppliedPatchChange := { ac_kind : AppliedPatchChangeKind; ac_path : str }.

Inductive PreparedOperation :=
  | Write (request : WriteFileRequest)
  | Remove (request : RemovePathRequest).

Record PreparedHunk := {
  source : ExecutionPath;
  destination : option ExecutionPath;
  hunk : Hunk;
}.

Record PreparedPatch := {
  version : N;
  pp_host_id : ExecutionHostId;
  generation : SupervisorGenerationId;
  pp_operation_id : OperationId;
  pp_update_file_mode : ApplyPatchFileUpdateMode;
  prepared_hunks : list PreparedHunk;
  changes : list AppliedPatchChange;
}.

Record RunningPatch := {
  prepared : PreparedPatch;
  hunk_index : nat;
  applied_operations : nat;
  pending : list PreparedOperation;
  next_operation : nat;
}.

Record ApplyPatchOutput := { out_host_id : ExecutionHostId; out_changes : list AppliedPatchChange }.

Inductive PatchProgress := CheckpointRequired | Complete (output : ApplyPatchOutput).

Definition is_complete (r : RunningPatch) : bool :=
  hunk_index r =? length (prepared_hunks (prepared r)).

(** What one hunk counts for in [PreparedPatch::operation_count]. *)
Definition hunk_operations (h : PreparedHunk) : nat :=
  match destination h with Some _ => 2 | None => 1 end.
Definition count_operations (hs : list PreparedHunk) : nat := sum_list_with hunk_operations hs.
Definition operation_count (p : PreparedPatch) : nat := count_operations (prepared_hunks p).

(** [ApplyPatchOutput::to_text]. *)
Definition change_prefix (k : AppliedPatchChangeKind) : str :=
  match k with Add => str! "A " | Modify => str! "M " | Delete => str! "D " end.
Definition to_text (o : ApplyPatchOutput) : str :=
  str! "Success. Updated the following files:" ++ [NL]
  ++ ([Add; Modify; Delete] ≫= λ k,
        filter (λ c, ac_kind c = k) (out_changes o) ≫= λ c, change_prefix k ++ ac_path c ++ [NL]).

Record ApplyPatchTool := { cwd : ExecutionPath; config : ApplyPatchConfig }.

Section tool.
Context {W : Type} `{!World W, !ExecutionRuntime W} {dbg : DebugPath}.

(** [ApplyPatchTool::new]. *)
Definition ApplyPatchTool_new (cwd : ExecutionPath) (config : ApplyPatchConfig)
  : ExecutionResult ApplyPatchTool :=
  _ ← validate_cwd rt_descriptor cwd;
  if (max_patch_bytes config =? 0)%N || (max_file_bytes config =? 0)%N
     || (chunk_bytes config =? 0)%N || (max_operations config =? 0)%N
  then Err (patch_error InvalidRequest
              (str! "apply_patch size, chunk, and operation limits must be positive"))
  else Ok {| cwd := cwd; config := config |}.

Definition tool_resolve_path (tool : ApplyPatchTool) (p : str) : ExecutionResult ExecutionPath :=
  resolve_path_normalized rt_descriptor (cwd tool) p.

Definition validate_target (p : ExecutionPath) : ExecutionResult unit :=
  _ ← validate_cwd rt_descriptor p;
  if str_eqb (path p) (str! ".")
  then Err (patch_error IsDirectory (str! "cannot patch an execution root"))
  else if existsb (λ root, bool_decide (er_id root = root_id p) && read_only root)
            (roots rt_descriptor)
  then Err (patch_error ReadOnlyRoot (str! "the selected execution root is read-only"))
  else Ok tt.

(** ** Reading a target ([filesystem.rs]) *)

Definition stat_optional_with_follow (context : OperationContext) (p : ExecutionPath)
    (follow_symlinks : bool) : M W (option FileMetadata) := λ w,
  match fs_stat context {| st_path := p; st_follow_symlinks := follow_symlinks |} w with
  | (Ok metadata, w) =>
    (_ ← checkpointM context;
     if bool_decide (fm_path metadata = p) then mret (Some metadata)
     else throw (patch_error Internal (str! "host returned metadata for a different patch path"))) w
  | (Err failure, w) =>
    if bool_decide (code failure = NotFound) then (Ok None, w) else (Err failure, w)
  | (Panic, w) => (Panic, w)
  end.

Definition stat_optional (context : OperationContext) (p : ExecutionPath)
  : M W (option FileMetadata) :=
  metadata ← stat_optional_with_follow context p true;
  match metadata with
  | Some m =>
    if bool_decide (kind m = File) then mret metadata
    else throw (patch_error (if bool_decide (kind m = Directory) then IsDirectory else Unsupported)
                  (str! "apply_patch targets must be regular files"))
  | None => mret None
  end.

(** The tests on one reply of the read loop: whether it was the last one. *)
Definition check_reply (p : ExecutionPath) (metadata : FileMetadata) (rev : FileRevision)
    (offset max_bytes : N) (reply : ReadFileResult) : ExecutionResult bool :=
  let data := rr_data reply in
  let len := N.of_nat (length data) in
  if negb (bool_decide (revision (rr_metadata reply) = Some rev))
     || negb (size (rr_metadata reply) =? size metadata)%N
  then Err (patch_error RevisionConflict
              (str! "file changed while verifying the patch; retry apply_patch"))
  else if negb (rr_offset reply =? offset)%N
     || negb (bool_decide (fm_path (rr_metadata reply) = p))
     || negb (bool_decide (kind (rr_metadata reply) = File))
     || (max_bytes <? len)%N
     || (bool_decide (data = []) && negb (rr_eof reply))
  then Err (patch_error Internal (str! "host returned an invalid patch file-read response"))
  else
    end_ ← ok_or (patch_error Internal (str! "patch file offset overflow"))
             (u64_checked_add offset len);
    if (size metadata <? end_)%N || negb (Bool.eqb (rr_eof reply) (end_ =? size metadata)%N)
    then Err (patch_error RevisionConflict
                (str! "file size changed or host returned an inconsistent EOF"))
    else Ok (rr_eof reply).

(** [read_text]'s loop.  The fuel stands for the iterations left; running out of
    it is reported as a panic, which [read_text] is shown never to do.  The
    memory reservation is taken to succeed. *)
Fixpoint read_loop (fuel : nat) (context : OperationContext) (p : ExecutionPath)
    (metadata : FileMetadata) (rev : FileRevision) (request_bytes : N) (acc : bytes)
  : M W bytes :=
  match fuel with
  | 0 => lift Panic
  | S fuel =>
    _ ← checkpointM context;
    let offset := N.of_nat (length acc) in
    let max_bytes := N.min request_bytes (N.max (u64_sat_sub (size metadata) offset) 1) in
    reply ← fs_read context {| rd_path := p; rd_offset := offset; rd_max_bytes := max_bytes;
                               rd_follow_symlinks := true |};
    _ ← checkpointM context;
    eof ← lift (check_reply p metadata rev offset max_bytes reply);
    if (eof : bool) then mret (acc ++ rr_data reply)
    else read_loop fuel context p metadata rev request_bytes (acc ++ rr_data reply)
  end.

Definition read_text (context : OperationContext) (p : ExecutionPath)
    (max_file_bytes chunk_bytes : N) : M W (str * FileMetadata) :=
  metadata ← stat_optional context p;
  metadata ← lift (ok_or (patch_error NotFound
               (format! [str! "Failed to read "; debug_path p; str! ": file not found"])) metadata);
  if (max_file_bytes <? size metadata)%N then
    throw (patch_error ResourceExhausted
      (format! [str! "file "; path p; str! " contains "; show_N (size metadata);
                str! " bytes; apply_patch file limit is "; show_N max_file_bytes]))
  else
    rev ← lift (ok_or (patch_error Unsupported
            (str! "host did not provide a file revision for patch verification")) (revision metadata));
    let request_bytes :=
      N.min chunk_bytes (default u64_max (max_read_bytes (limits rt_descriptor))) in
    if (request_bytes =? 0)%N
    then throw (patch_error Unsupported (str! "host advertised a zero read limit"))
    else
      data ← read_loop (S (N.to_nat (size metadata))) context p metadata rev request_bytes [];
      content ← lift (ok_or (patch_error Unsupported
                  (str! "apply_patch supports UTF-8 text files only")) (utf8_decode data));
      mret (content, metadata).

Definition tool_read_text (tool : ApplyPatchTool) (context : OperationContext) (p : ExecutionPath)
  : M W (str * FileMetadata) :=
  read_text context p (max_file_bytes (config tool)) (chunk_bytes (config tool)).

(** ** Initial verification ([prepare.rs]) *)

(** What verifying one hunk reads, and its change kind and move destination. *)
Definition verify_hunk (tool : ApplyPatchTool) (context : OperationContext)
    (source : ExecutionPath) (h : Hunk)
  : M W (AppliedPatchChangeKind * option ExecutionPath) :=
  match h with
  | AddFile _ _ => mret (Add, None)
  | DeleteFile _ =>
    _ ← tool_read_text tool context source;
    mret (Delete, None)
  | UpdateFile p move_path chunks =>
    '(original, _) ← tool_read_text tool context source;
    _ ← lift (derive_new_contents p original chunks (update_file_mode (config tool)));
    match move_path with
    | Some m => d ← lift (tool_resolve_path tool m); mret (Modify, Some d)
    | None => mret (Modify, None)
    end
  end.

Record PrepareState := {
  ps_hunks : list PreparedHunk;
  ps_changes : list AppliedPatchChange;
  ps_sources : gset ExecutionPath;
  ps_count : N;
}.

(** One iteration of the loop over the parsed hunks. *)
Definition prepare_hunk (tool : ApplyPatchTool) (context : OperationContext)
    (st : PrepareState) (h : Hunk) : M W PrepareState :=
  _ ← checkpointM context;
  source ← lift (tool_resolve_path tool (source_path h));
  if decide (source ∈ ps_sources st) then
    throw (patch_error InvalidRequest
      (format! [str! "apply_patch verification failed: invalid patch: multiple operations target ";
                source_path h]))
  else
    '(kind, destination) ← verify_hunk tool context source h;
    let exhausted := patch_error ResourceExhausted
                       (str! "patch exceeds the configured operation limit") in
    count ← lift (ok_or exhausted
              (u64_checked_add (ps_count st) (match destination with Some _ => 2 | None => 1 end)));
    if (count <=? max_operations (config tool))%N then
      mret {| ps_hunks := ps_hunks st
                ++ [{| source := source; destination := destination; hunk := h |}];
              ps_changes := ps_changes st ++ [{| ac_kind := kind; ac_path := affected_path h |}];
              ps_sources := {[source]} ∪ ps_sources st;
              ps_count := count |}
    else throw exhausted.

Fixpoint prepare_hunks (tool : ApplyPatchTool) (context : OperationContext)
    (st : PrepareState) (hs : list Hunk) : M W PrepareState :=
  match hs with
  | [] => mret st
  | h :: hs => st ← prepare_hunk tool context st h; prepare_hunks tool context st hs
  end.

Definition prepare (tool : ApplyPatchTool) (context : OperationContext) (patch_ : str)
    (state : ApplyPatchState) : M W PreparedPatch :=
  _ ← checkpointM context;
  if (max_patch_bytes (config tool) <? N.of_nat (utf8_len patch_))%N
  then throw (patch_error ResourceExhausted (str! "patch exceeds the configured input limit"))
  else
    parsed ← lift (match parse_patch patch_ with
                   | Ok parsed => Ok parsed
                   | Err failure =>
                     Err (patch_error InvalidRequest
                            (format! [str! "apply_patch verification failed: ";
                                      show_ParseError failure]))
                   | Panic => Panic
                   end);
    match pp_environment_id parsed with
    | Some _ =>
      throw (patch_error InvalidRequest
        (str! "select the execution environment before calling this host-bound apply_patch tool"))
    | None =>
      match pp_hunks parsed with
      | [] => throw (patch_error InvalidRequest (str! "No files were modified."))
      | _ =>
        st ← prepare_hunks tool context
               {| ps_hunks := []; ps_changes := []; ps_sources := ∅; ps_count := 0 |}
               (pp_hunks parsed);
        mret {| version := 2;
                pp_host_id := host_id rt_descriptor;
                generation := supervisor_generation_id rt_descriptor;
                pp_operation_id := aps_operation_id state;
                pp_update_file_mode := update_file_mode (config tool);
                prepared_hunks := ps_hunks st;
                changes := ps_changes st |}
      end
    end.

(** ** Application ([apply.rs]) *)

Definition validate_prepared (tool : ApplyPatchTool) (p : PreparedPatch) : ExecutionResult unit :=
  if negb (version p =? 2)%N || bool_decide (prepared_hunks p = [])
     || negb (length (changes p) =? length (prepared_hunks p))
  then Err (patch_error InvalidRequest (str! "invalid or unsupported prepared patch state"))
  else if negb (bool_decide (pp_host_id p = host_id rt_descriptor))
  then Err (patch_error InvalidRequest (str! "prepared patch belongs to another execution host"))
  else if negb (bool_decide (generation p = supervisor_generation_id rt_descriptor))
  then Err (patch_error ExecutionLost
              (str! "patch belongs to an earlier supervisor generation; inspect its outcome before retrying"))
  else if (max_operations (config tool) <? N.of_nat (operation_count p))%N
  then Err (patch_error ResourceExhausted
              (str! "prepared patch exceeds this tool's operation limit"))
  else Ok tt.

(** [ApplyPatchTool::start]. *)
Definition start (tool : ApplyPatchTool) (p : PreparedPatch) : ExecutionResult RunningPatch :=
  _ ← validate_prepared tool p;
  Ok {| prepared := p; hunk_index := 0; applied_operations := 0; pending := [];
        next_operation := 0 |}.

Definition derived_id (base : OperationId) (index : nat) : ExecutionResult OperationId :=
  operation_id_new (format! [as_str base; str! ":apply_patch:"; show_nat index]).

Definition annotate (failure : ExecutionError) (applied total : nat) : ExecutionError :=
  let d := match details failure !! (str! "source") with
           | Some _ => details failure
           | None => <[str! "source" := VString (str! "tool-apply-patch")]> (details failure)
           end in
  {| code := code failure; message := message failure; retryable := retryable failure;
     details := <[str! "total_operations" := VNumber (N.of_nat total)]>
                  (<[str! "applied_operations" := VNumber (N.of_nat applied)]> d) |}.

(** [stage_hunk], in two parts: the new contents, if any, then the mutations. *)
Definition staged_content (tool : ApplyPatchTool) (context : OperationContext)
    (p : PreparedPatch) (h : PreparedHunk) : M W (option str) :=
  match hunk h with
  | AddFile _ contents => mret (Some contents)
  | DeleteFile _ => mret None
  | UpdateFile hp _ chunks =>
    '(original, _) ← tool_read_text tool context (source h);
    content ← lift (derive_new_contents hp original chunks (pp_update_file_mode p));
    mret (Some content)
  end.

Definition is_add (h : Hunk) : bool := match h with AddFile _ _ => true | _ => false end.
Definition is_delete (h : Hunk) : bool := match h with DeleteFile _ => true | _ => false end.

Definition stage_operations (tool : ApplyPatchTool) (p : PreparedPatch) (h : PreparedHunk)
    (applied : nat) (content : option str) : ExecutionResult (list PreparedOperation) :=
  writes ← match content with
    | None => Ok []
    | Some content =>
      let limit := N.min (max_file_bytes (config tool))
                     (default u64_max (max_write_bytes (limits rt_descriptor))) in
      if (limit <? N.of_nat (utf8_len content))%N
      then Err (patch_error ResourceExhausted
                  (format! [str! "patched file exceeds write limit of "; show_N limit; str! " bytes"]))
      else
        id ← derived_id (pp_operation_id p) applied;
        Ok [Write {| wr_expected_generation := Some (generation p);
                     wr_strategy := InPlace;
                     wr_operation_id := id;
                     wr_path := default (source h) (destination h);
                     wr_data := utf8_encode content;
                     wr_condition := CondAny;
                     wr_create_parents :=
                       is_add (hunk h) || bool_decide (is_Some (destination h));
                     wr_follow_symlinks := true |}]
    end;
  if is_delete (hunk h) || bool_decide (is_Some (destination h)) then
    id ← derived_id (pp_operation_id p) (applied + length writes);
    Ok (writes ++ [Remove {| rm_target_kind := TargetFile;
                             rm_expected_generation := Some (generation p);
                             rm_operation_id := id;
                             rm_path := source h;
                             rm_recursive := false;
                             rm_ignore_missing := false;
                             rm_expected_revision := None |}])
  else Ok writes.

Definition set_pending (ops : list PreparedOperation) (r : RunningPatch) : RunningPatch :=
  {| prepared := prepared r; hunk_index := hunk_index r;
     applied_operations := applied_operations r; pending := ops;
     next_operation := next_operation r |}.

Definition stage_hunk (tool : ApplyPatchTool) (context : OperationContext) (r : RunningPatch)
  : M W RunningPatch :=
  h ← lift (index (prepared_hunks (prepared r)) (hunk_index r));
  content ← staged_content tool context (prepared r) h;
  ops ← lift (stage_operations tool (prepared r) h (applied_operations r) content);
  mret (set_pending ops r).

Definition dispatch (context : OperationContext) (op : PreparedOperation) : M W unit :=
  match op with
  | Write request =>
    _ ← lift (validate_target (wr_path request));
    reply ← fs_write context request;
    if negb (bool_decide (wres_path reply = wr_path request))
       || negb (bytes_written reply =? N.of_nat (length (wr_data request)))%N
    then throw (patch_error Internal
           (str! "host returned an inconsistent patch write result; outcome is uncertain"))
    else mret tt
  | Remove request =>
    _ ← lift (validate_target (rm_path request));
    reply ← fs_remove context request;
    if negb (removed reply)
    then throw (patch_error Internal
           (str! "host reported that a required patch target was not removed"))
    else mret tt
  end.

(** The bookkeeping after an acknowledged mutation. *)
Definition acknowledge (r : RunningPatch) : RunningPatch :=
  if S (next_operation r) =? length (pending r)
  then {| prepared := prepared r; hunk_index := S (hunk_index r);
          applied_operations := S (applied_operations r); pending := []; next_operation := 0 |}
  else {| prepared := prepared r; hunk_index := hunk_index r;
          applied_operations := S (applied_operations r); pending := pending r;
          next_operation := S (next_operation r) |}.

Definition progress_invalid (r : RunningPatch) : bool :=
  let no_pending := bool_decide (pending r = []) in
  ((hunk_index r =? length (prepared_hunks (prepared r))) && negb no_pending)
  || (length (prepared_hunks (prepared r)) <? hunk_index r)
  || (no_pending && negb (next_operation r =? 0))
  || (negb no_pending && (length (pending r) <=? next_operation r)).

(** [step]: the running value is changed only when the step succeeds. *)
Definition step (tool : ApplyPatchTool) (context : OperationContext) (r : RunningPatch)
  : M W (PatchProgress * RunningPatch) :=
  _ ← lift (validate_prepared tool (prepared r));
  if progress_invalid r then throw (patch_error InvalidRequest (str! "invalid patch progress"))
  else
    _ ← checkpointM context;
    if is_complete r then
      mret (Complete {| out_host_id := pp_host_id (prepared r);
                        out_changes := changes (prepared r) |}, r)
    else
      r' ← M_map_err (λ e, annotate e (applied_operations r) (operation_count (prepared r)))
             (match pending r with
              | [] => stage_hunk tool context r
              | ops =>
                op ← lift (index ops (next_operation r));
                _ ← dispatch context op;
                mret (acknowledge r)
              end);
      mret (CheckpointRequired, r').

(** [apply]: the loop over [step].  The running value survives an error. *)
Fixpoint apply_loop (fuel : nat) (tool : ApplyPatchTool) (context : OperationContext)
    (r : RunningPatch) (w : W) : ExecutionResult ApplyPatchOutput * (RunningPatch * W) :=
  match fuel with
  | 0 => (Panic, (r, w))
  | S fuel =>
    match step tool context r w with
    | (Ok (CheckpointRequired, r'), w') => apply_loop fuel tool context r' w'
    | (Ok (Complete output, r'), w') => (Ok output, (r', w'))
    | (Err e, w') => (Err e, (r, w'))
    | (Panic, w') => (Panic, (r, w'))
    end
  end.
(** Per hunk left: one staging step and its mutations; and the final step. *)
Definition steps_left (r : RunningPatch) : nat :=
  let hs := drop (hunk_index r) (prepared_hunks (prepared r)) in
  match pending r with
  | [] => count_operations hs + length hs + 1
  | ops => (length ops - next_operation r) + count_operations (tail hs) + length (tail hs) + 1
  end.
Definition apply (tool : ApplyPatchTool) (context : OperationContext) (r : RunningPatch) (w : W)
  : ExecutionResult ApplyPatchOutput * (RunningPatch * W) :=
  apply_loop (steps_left r) tool context r w.
End tool.

(** * Properties *)

(** ** Well-formed progress *)

Definition operation_id_of (op : PreparedOperation) : OperationId :=
  match op with Write r => wr_operation_id r | Remove r => rm_operation_id r end.

(** What [prepare] produces: only updates move, and chunks are as parsed. *)
Definition prepared_hunk_ok (h : PreparedHunk) : Prop :=
  hunk_ok (hunk h) ∧
  (is_Some (destination h) → match hunk h with UpdateFile _ _ _ => True | _ => False end).

Record running_ok (r : RunningPatch) : Prop := {
  ro_hunks : Forall prepared_hunk_ok (prepared_hunks (prepared r));
  ro_index : hunk_index r ≤ length (prepared_hunks (prepared r));
  ro_idle : pending r = [] → next_operation r = 0;
  ro_pending : pending r ≠ [] →
    next_operation r < length (pending r) ∧
    ∃ h, prepared_hunks (prepared r) !! hunk_index r = Some h ∧
         length (pending r) = hunk_operations h;
  ro_applied : applied_operations r =
    count_operations (take (hunk_index r) (prepared_hunks (prepared r))) + next_operation r;
  (** The [n]-th mutation of the whole patch carries the [n]-th derived id. *)
  ro_ids : ∀ k op, pending r !! k = Some op →
    derived_id (pp_operation_id (prepared r))
      (count_operations (take (hunk_index r) (prepared_hunks (prepared r))) + k)
    = Ok (operation_id_of op);
}.

Lemma count_operations_snoc hs n h :
  hs !! n = Some h →
  count_operations (take (S n) hs) = count_operations (take n hs) + hunk_operations h.
Proof.
  intros Hh. unfold count_operations. rewrite (take_S_r _ _ _ Hh), sum_list_with_app. simpl. lia.
Qed.

Lemma running_ok_progress r : running_ok r → progress_invalid r = false.
Proof.
  intros [_ Hi Hidle Hpend _ _]. unfold progress_invalid.
  destruct (decide (pending r = [])) as [Hp|Hp].
  - rewrite bool_decide_true by done. specialize (Hidle Hp). cbn [negb]. lia.
  - rewrite bool_decide_false by done. destruct (Hpend Hp) as (Hn & h & Hh & _).
    apply lookup_lt_Some in Hh. cbn [negb]. lia.
Qed.

Lemma acknowledge_ok r : running_ok r → pending r ≠ [] → running_ok (acknowledge r).
Proof.
  intros [Hh Hi Hidle Hpend Happ Hids] Hne. destruct (Hpend Hne) as (Hn & h & Hhk & Hlen).
  unfold acknowledge. destruct (Nat.eqb_spec (S (next_operation r)) (length (pending r))) as [E|E].
  - split; cbn [prepared hunk_index applied_operations pending next_operation]; [done| |done|done| |done].
    + apply lookup_lt_Some in Hhk. lia.
    + rewrite (count_operations_snoc _ _ _ Hhk). lia.
  - split; cbn [prepared hunk_index applied_operations pending next_operation];
      [done|done|done| |lia|done].
    intros _. split; [lia|]. by exists h.
Qed.

Section staging.
Context {W : Type} `{!World W, !ExecutionRuntime W}.

Lemma stage_operations_shape tool p h n content ops :
  prepared_hunk_ok h → stage_operations (W:=W) tool p h n content = Ok ops →
  (content = None ↔ is_delete (hunk h) = true) →
  length ops = hunk_operations h ∧
  ∀ k op, ops !! k = Some op → derived_id (pp_operation_id p) (n + k) = Ok (operation_id_of op).
Proof.
  intros [_ Hdest] H Hc. unfold stage_operations in H. inv_ok H. rename a into writes.
  assert (Hdel : is_delete (hunk h) = true → destination h = None).
  { intros Hd. destruct (destination h) eqn:Ed; [|done].
    destruct (hunk h); try done; by destruct Hdest. }
  unfold hunk_operations.
  destruct content as [c|].
  - assert (Hnd : is_delete (hunk h) = false) by (destruct (is_delete (hunk h)); naive_solver).
    destruct (_ <? _)%N; [done|]. inv_ok H0. injection H0 as <-. rewrite Hnd in H. cbn [orb] in H.
    destruct (destination h) as [d|].
    + rewrite bool_decide_true in H by eauto. inv_ok H. injection H as <-. split; [done|].
      intros [|[|k]] op; simplify_eq/=; intros [= <-]; cbn; [by rewrite Nat.add_0_r|done].
    + rewrite bool_decide_false in H by (by intros [? ?]). injection H as <-. split; [done|].
      intros [|k] op; simplify_eq/=; intros [= <-]. by rewrite Nat.add_0_r.
  - injection H0 as <-. rewrite (proj1 Hc) in H by done. cbn [orb] in H. inv_ok H.
    injection H as <-. rewrite Hdel by (by apply Hc). split; [done|].
    intros [|k] op; simplify_eq/=; intros [= <-]. cbn. by rewrite Nat.add_0_r in *.
Qed.
End staging.

Section steps.
Context {W : Type} `{!World W, !ExecutionRuntime W} {dbg : DebugPath}.
Implicit Types (tool : ApplyPatchTool) (context : OperationContext) (r : RunningPatch).

Lemma staged_content_delete tool context p h w c w' :
  staged_content tool context p h w = (Ok c, w') → (c = None ↔ is_delete (hunk h) = true).
Proof.
  unfold staged_content. destruct (hunk h) as [hp contents|hp|hp mv chunks]; intros H.
  - injection H as <- <-. done.
  - injection H as <- <-. done.
  - apply M_bind_ok_inv in H as ([original md] & w1 & _ & H).
    apply M_bind_ok_inv in H as (content & w2 & _ & H). injection H as <- <-. done.
Qed.

Lemma stage_hunk_ok tool context r w r' w' :
  running_ok r → pending r = [] → stage_hunk tool context r w = (Ok r', w') →
  running_ok r' ∧ ∃ h ops, prepared_hunks (prepared r) !! hunk_index r = Some h
    ∧ r' = set_pending ops r ∧ length ops = hunk_operations h.
Proof.
  intros [Hh Hi Hidle Hpend Happ Hids] Hp H. unfold stage_hunk in H.
  apply M_bind_ok_inv in H as (h & w1 & H1 & H). unfold lift, index in H1.
  destruct (prepared_hunks (prepared r) !! hunk_index r) as [h'|] eqn:Hlk; [|done].
  injection H1 as -> <-.
  apply M_bind_ok_inv in H as (content & w2 & Hc & H).
  apply M_bind_ok_inv in H as (ops & w3 & Hops & H). injection Hops as Hops <-.
  injection H as <- <-. apply staged_content_delete in Hc.
  assert (Hok : prepared_hunk_ok h) by by (eapply Forall_lookup_1).
  apply stage_operations_shape in Hops as [Hlen Hid]; [|done|done].
  specialize (Hidle Hp). split; [|by exists h, ops].
  rewrite Happ, Hidle, Nat.add_0_r in Hid.
  split; cbn [set_pending prepared hunk_index applied_operations pending next_operation]; auto.
  intros _. rewrite Hlen, Hidle. split; [unfold hunk_operations; case_match; lia|by exists h].
Qed.

Lemma steps_left_stage r h ops :
  pending r = [] → next_operation r = 0 → prepared_hunks (prepared r) !! hunk_index r = Some h →
  length ops = hunk_operations h → steps_left r = S (steps_left (set_pending ops r)).
Proof.
  intros Hp Hn Hh Hops. unfold steps_left. rewrite Hp.
  cbn [set_pending prepared hunk_index pending next_operation]. rewrite Hn.
  rewrite (drop_S _ _ _ Hh). cbn [tail length].
  unfold count_operations. cbn [sum_list_with].
  destruct ops as [|op ops]; [by unfold hunk_operations in Hops; case_match|]. simpl in *. lia.
Qed.
Lemma steps_left_acknowledge r :
  running_ok r → pending r ≠ [] → steps_left r = S (steps_left (acknowledge r)).
Proof.
  intros [_ _ _ Hpend _ _] Hne. destruct (Hpend Hne) as (Hn & h & Hh & _).
  unfold steps_left, acknowledge. destruct (pending r) as [|op ops]; [done|].
  destruct (Nat.eqb_spec (S (next_operation r)) (length (op :: ops)));
    cbn [prepared hunk_index pending next_operation];
    rewrite (drop_S _ _ _ Hh); cbn [tail]; lia.
Qed.

Lemma step_ok_inv tool context r w p r' w' :
  step tool context r w = (Ok (p, r'), w') →
  (is_complete r = true ∧ r' = r ∧ p = Complete {| out_host_id := pp_host_id (prepared r);
                                           out_changes := changes (prepared r) |}) ∨
  (is_complete r = false ∧ p = CheckpointRequired ∧
    ((pending r = [] ∧ ∃ w1, stage_hunk tool context r w1 = (Ok r', w')) ∨
     (pending r ≠ [] ∧ r' = acknowledge r))).
Proof.
  intros H. unfold step in H. apply M_bind_ok_inv in H as (? & w1 & _ & H).
  destruct (progress_invalid r); [done|]. apply M_bind_ok_inv in H as (? & w2 & _ & H).
  destruct (is_complete r) eqn:Hc; [injection H as <- <- <-; by left|]. right.
  apply M_bind_ok_inv in H as (r2 & w3 & Hr & H). injection H as <- <- <-. split_and!; [done|done|].
  unfold M_map_err in Hr. destruct (pending r) as [|op ops].
  - left. split; [done|]. destruct (stage_hunk tool context r w2) as [[|e|] w4] eqn:E; simplify_eq/=.
    by exists w2.
  - right. split; [done|].
    set (m := op ← lift (index (op :: ops) (next_operation r)); dispatch context op) in *.
    destruct ((op ← lift (index (op :: ops) (next_operation r)); _ ← dispatch context op;
               mret (acknowledge r)) w2) as [[r3|e|] w4] eqn:E; simplify_eq/=.
    apply M_bind_ok_inv in E as (op' & w5 & _ & E). apply M_bind_ok_inv in E as (u & w6 & _ & E).
    by injection E as <- <-.
Qed.

Lemma step_ok tool context r w p r' w' :
  running_ok r → step tool context r w = (Ok (p, r'), w') →
  running_ok r' ∧ prepared r' = prepared r ∧
  match p with
  | CheckpointRequired => steps_left r = S (steps_left r')
  | Complete _ => r' = r ∧ is_complete r = true
  end.
Proof.
  intros Hok [(Hc & -> & ->)|(Hc & -> & [(Hp & w1 & H)|(Hp & ->)])]%step_ok_inv; [done|..].
  - apply stage_hunk_ok in H as (Hok' & h & ops & Hh & -> & Hops); [|done..].
    split_and!; [done|done|]. eapply steps_left_stage; [done|by apply Hok|done..].
  - split_and!; [by apply acknowledge_ok|by unfold acknowledge; case_match|].
    by apply steps_left_acknowledge.
Qed.
Lemma step_pending_world tool context r w u op ops op' :
  validate_prepared tool (prepared r) = Ok u → progress_invalid r = false →
  is_complete r = false → pending r = op :: ops → index (E:=ExecutionError) (op :: ops) (next_operation r) = Ok op' →
  (step tool context r w).2 =
    match checkpointM context w with
    | (Ok _, w1) => (dispatch context op' w1).2
    | (_, w1) => w1
    end.
Proof.
  intros Hv Hpi Hc Hp Hi. unfold step. rewrite Hv, Hpi, Hc, Hp, Hi.
  unfold mbind, M_bind, lift, M_map_err. destruct (checkpointM context w) as [[] w1]; [|done..].
  by destruct (dispatch context op' w1) as [[] w2].
Qed.
Lemma step_pending_ok tool context r w res w' :
  pending r ≠ [] → step tool context r w = (Ok res, w') →
  (∃ u, validate_prepared tool (prepared r) = Ok u) ∧ progress_invalid r = false ∧
  is_complete r = false ∧
  ∃ op ops op' w1, pending r = op :: ops ∧ index (E:=ExecutionError) (op :: ops) (next_operation r) = Ok op'
    ∧ op' ∈ op :: ops ∧ dispatch context op' w1 = (Ok tt, w').
Proof.
  intros Hne H. unfold step in H. apply M_bind_ok_inv in H as (u & w4 & Hv & H).
  injection Hv as Hv _. destruct (progress_invalid r) eqn:Hpi; [done|].
  apply M_bind_ok_inv in H as (u2 & w5 & _ & H).
  destruct (is_complete r) eqn:Hc.
  { unfold progress_invalid in Hpi. unfold is_complete in Hc. rewrite Hc in Hpi.
    rewrite bool_decide_false in Hpi by done. done. }
  apply M_bind_ok_inv in H as (r2 & w7 & H7 & H8). injection H8 as _ <-.
  split_and!; [by eauto|done|done|]. destruct (pending r) as [|op ops]; [done|].
  unfold M_map_err in H7.
  destruct ((op0 ← lift (index (op :: ops) (next_operation r)); _ ← dispatch context op0;
             mret (acknowledge r)) w5) as [[r3|e|] w8] eqn:E; simplify_eq/=.
  apply M_bind_ok_inv in E as (op' & w9 & Hi & E). injection Hi as Hi <-.
  apply M_bind_ok_inv in E as ([] & w10 & Hd & E). injection E as _ <-.
  exists op, ops, op', w5. split_and!; [done|done| |done].
  unfold index in Hi. destruct ((op :: ops) !! next_operation r) eqn:El; simplify_eq/=.
  by eapply list_elem_of_lookup_2.
Qed.
Lemma steps_left_pos r : 1 ≤ steps_left r.
Proof. unfold steps_left. case_match; lia. Qed.

(** ** The read loop *)

Lemma check_reply_Ok p md rev offset max reply eof :
  check_reply p md rev offset max reply = Ok eof →
  revision (rr_metadata reply) = Some rev ∧ size (rr_metadata reply) = size md
  ∧ rr_offset reply = offset ∧ rr_eof reply = eof
  ∧ (offset + N.of_nat (length (rr_data reply)) ≤ size md)%N
  ∧ (if eof then (offset + N.of_nat (length (rr_data reply)) = size md)%N
     else (offset + N.of_nat (length (rr_data reply)) < size md)%N ∧ rr_data reply ≠ []).
Proof.
  unfold check_reply. cbv zeta. intros H.
  case_match eqn:E1; [done|]. case_match eqn:E2; [done|]. inv_ok H.
  unfold ok_or in H0. destruct (u64_checked_add _ _) as [e|] eqn:Ea; [|done]. injection H0 as ->.
  apply u64_checked_add_Some in Ea as [-> _]. case_match eqn:E3; [done|]. injection H as <-.
  apply orb_false_iff in E1 as [Er%negb_false_iff%bool_decide_eq_true Es%negb_false_iff%N.eqb_eq].
  repeat (apply orb_false_iff in E2 as [E2 ?]).
  apply negb_false_iff, N.eqb_eq in E2.
  apply orb_false_iff in E3 as [E3%N.ltb_ge E4%negb_false_iff%eqb_prop].
  split_and!; [done..|lia|]. destruct (rr_eof reply) eqn:Ee.
  - symmetry in E4. by apply N.eqb_eq in E4.
  - symmetry in E4. apply N.eqb_neq in E4. split; [lia|]. intros Hd.
    match goal with Hx : bool_decide (rr_data reply = []) && _ = false |- _ =>
      rewrite bool_decide_true in Hx by done end. done.
Qed.
Lemma check_reply_no_panic p md rev offset max reply : check_reply p md rev offset max reply ≠ Panic.
Proof.
  unfold check_reply. cbv zeta. case_match; [done|]. case_match; [done|].
  apply bind_no_panic; [by destruct (u64_checked_add _ _)|]. intros. by case_match.
Qed.

Lemma read_loop_safe `{!RuntimeSafe W} fuel context p md rev req acc :
  N.to_nat (size md) - length acc < fuel → m_safe (read_loop fuel context p md rev req acc).
Proof.
  revert acc. induction fuel as [|fuel IH]; intros acc Hf; [lia|]. cbn [read_loop]. cbv zeta.
  apply m_safe_bind'; [apply m_safe_checkpoint|]. intros _.
  apply m_safe_bind'; [apply read_safe|]. intros reply.
  apply m_safe_bind'; [apply m_safe_checkpoint|]. intros _.
  eapply (m_safe_bind _ _ (λ eof, check_reply p md rev (N.of_nat (length acc))
    (N.min req (N.max (u64_sat_sub (size md) (N.of_nat (length acc))) 1)) reply = Ok eof));
    [apply m_safe_lift, check_reply_no_panic|by intros w a w' [= -> _]|].
  intros [] Heof%check_reply_Ok; [apply m_safe_ret|]. destruct Heof as (_&_&_&_&_&Hlt&Hne).
  apply IH. rewrite length_app. destruct (rr_data reply); [done|]. simpl in *. lia.
Qed.
Lemma read_loop_size fuel context p md rev req acc w data w' :
  read_loop fuel context p md rev req acc w = (Ok data, w') → N.of_nat (length data) = size md.
Proof.
  revert acc w. induction fuel as [|fuel IH]; intros acc w H; [done|]. cbn [read_loop] in H.
  cbv zeta in H. apply M_bind_ok_inv in H as (? & w1 & _ & H).
  apply M_bind_ok_inv in H as (reply & w2 & _ & H).
  apply M_bind_ok_inv in H as (? & w3 & _ & H).
  apply M_bind_ok_inv in H as (eof & w4 & Heof & H). injection Heof as Heof _.
  destruct eof; [|by eapply IH]. apply check_reply_Ok in Heof as (_&_&_&_&_&Hsz).
  injection H as <- _. rewrite length_app. lia.
Qed.

Lemma stat_optional_with_follow_safe `{!RuntimeSafe W} context p b :
  m_safe (stat_optional_with_follow context p b).
Proof.
  intros w. unfold stat_optional_with_follow.
  pose proof (stat_safe context {| st_path := p; st_follow_symlinks := b |} w).
  destruct (fs_stat _ _ w) as [[m|e|] w1]; [|by case_match|done].
  apply m_safe_bind'; [apply m_safe_checkpoint|]. intros _. by case_match.
Qed.
Lemma read_text_safe `{!RuntimeSafe W} context p mf cb : m_safe (read_text context p mf cb).
Proof.
  unfold read_text. apply m_safe_bind'.
  - apply m_safe_bind'; [apply stat_optional_with_follow_safe|].
    intros [m|]; [|apply m_safe_ret]. case_match; [apply m_safe_ret|apply m_safe_throw].
  - intros o. apply m_safe_bind'; [apply m_safe_lift; by destruct o|]. intros md.
    case_match; [apply m_safe_throw|].
    apply m_safe_bind'; [apply m_safe_lift; by destruct (revision md)|]. intros rev. cbv zeta.
    case_match; [apply m_safe_throw|].
    apply m_safe_bind'; [apply read_loop_safe; simpl; lia|]. intros data.
    apply m_safe_bind'; [apply m_safe_lift; by destruct (utf8_decode data)|]. intros c.
    apply m_safe_ret.
Qed.

(** ** Steps never panic *)

Lemma derived_id_no_panic base n : derived_id base n ≠ Panic.
Proof. unfold derived_id, operation_id_new. by case_match. Qed.
Lemma stage_operations_no_panic tool p h n c : stage_operations tool p h n c ≠ Panic.
Proof.
  unfold stage_operations. apply bind_no_panic.
  - destruct c as [c|]; [|done]. cbv zeta. case_match; [done|].
    apply bind_no_panic; [apply derived_id_no_panic|done].
  - intros writes _. case_match; [|done]. apply bind_no_panic; [apply derived_id_no_panic|done].
Qed.
Lemma validate_target_no_panic p : validate_target p ≠ Panic.
Proof.
  unfold validate_target. apply bind_no_panic; [apply validate_cwd_no_panic|].
  intros _ _. by repeat case_match.
Qed.
Lemma hunk_chunks_ok p mv chunks : hunk_ok (UpdateFile p mv chunks) → Forall chunk_ok chunks.
Proof. intros [_ H]. eapply Forall_impl; [exact H|]. by intros c []. Qed.
Lemma staged_content_safe `{!RuntimeSafe W} tool context p h :
  hunk_ok (hunk h) → m_safe (staged_content tool context p h).
Proof.
  intros Hok. unfold staged_content. destruct (hunk h) as [hp contents|hp|hp mv chunks].
  - apply m_safe_ret.
  - apply m_safe_ret.
  - apply m_safe_bind'; [apply read_text_safe|]. intros [original md].
    apply m_safe_bind'; [|intros; apply m_safe_ret].
    apply m_safe_lift, derive_new_contents_no_panic. by eapply hunk_chunks_ok.
Qed.
Lemma dispatch_safe `{!RuntimeSafe W} context op : m_safe (dispatch context op).
Proof.
  destruct op; cbn [dispatch];
    (apply m_safe_bind'; [apply m_safe_lift, validate_target_no_panic|]; intros _;
     apply m_safe_bind'; [eauto with effects|]; intros reply; case_match;
     [apply m_safe_throw|apply m_safe_ret]).
Qed.
Lemma validate_prepared_no_panic tool p : validate_prepared tool p ≠ Panic.
Proof. unfold validate_prepared. by repeat case_match. Qed.

Lemma step_safe `{!RuntimeSafe W} tool context r : running_ok r → m_safe (step tool context r).
Proof.
  intros Hok. unfold step.
  apply m_safe_bind'; [apply m_safe_lift, validate_prepared_no_panic|]. intros _.
  rewrite running_ok_progress by done.
  apply m_safe_bind'; [apply m_safe_checkpoint|]. intros _.
  destruct (is_complete r) eqn:Hc; [apply m_safe_ret|].
  apply m_safe_bind'; [|intros; apply m_safe_ret]. apply m_safe_map_err.
  destruct Hok as [Hh Hi _ Hpend _ _]. destruct (pending r) as [|op ops] eqn:Hp.
  - unfold stage_hunk. apply Nat.eqb_neq in Hc.
    destruct (lookup_lt_is_Some_2 (prepared_hunks (prepared r)) (hunk_index r)) as [h Hlk]; [lia|].
    eapply (m_safe_bind _ _ (λ h, hunk_ok (hunk h))).
    + apply m_safe_lift. unfold index. by rewrite Hlk.
    + intros w a w'. unfold lift, index. rewrite Hlk. intros [= <- _].
      eapply Forall_lookup_1 in Hh as [? _]; done.
    + intros h' Hh'. apply m_safe_bind'; [by apply staged_content_safe|]. intros c.
      apply m_safe_bind'; [apply m_safe_lift, stage_operations_no_panic|]. intros. apply m_safe_ret.
  - destruct (Hpend ltac:(done)) as [Hn _].
    apply m_safe_bind'; [|intros; apply m_safe_bind'; [apply dispatch_safe|intros; apply m_safe_ret]].
    apply m_safe_lift. unfold index.
    by destruct (lookup_lt_is_Some_2 (op :: ops) (next_operation r) Hn) as [x ->].
Qed.
End steps.

(** ** Verification only reads *)

Section reading.
Context {W : Type} `{!World W, !ExecutionRuntime W} {dbg : DebugPath}.
Context (R : W → W → Prop) `{!ReadsWithin R}.

(** Follows the binds of a computation. *)
Local Ltac within_step :=
  first
    [ apply m_within_bind; [exact _| |intros ?]
    | apply m_within_ret; exact _ | apply m_within_throw; exact _ | apply m_within_lift; exact _
    | apply observe_within | apply stat_within | apply read_within
    | by auto
    | case_match
    | progress cbv zeta ].
Local Ltac within := repeat within_step.

Lemma stat_optional_within context p : m_within R (stat_optional context p).
Proof.
  unfold stat_optional. apply m_within_bind; [exact _| |intros; within].
  intros w. unfold stat_optional_with_follow.
  pose proof (stat_within context {| st_path := p; st_follow_symlinks := true |} w) as Hs.
  destruct (fs_stat _ _ w) as [[m|e|] w1]; simpl in Hs; [|by case_match|done].
  etrans; [exact Hs|]. revert w1 Hs. intros w1 _. revert w1.
  change (m_within R (_ ← checkpointM context;
     if bool_decide (fm_path m = p) then mret (Some m)
     else throw (patch_error Internal (str! "host returned metadata for a different patch path")))).
  within.
Qed.
Lemma read_loop_within fuel context p md rev req acc :
  m_within R (read_loop fuel context p md rev req acc).
Proof. revert acc. induction fuel as [|fuel IH]; intros acc; cbn [read_loop]; within. Qed.
Lemma read_text_within context p mf cb : m_within R (read_text context p mf cb).
Proof.
  unfold read_text. apply m_within_bind; [exact _|apply stat_optional_within|intros ?].
  repeat first [apply read_loop_within | within_step].
Qed.
Lemma prepare_hunks_within tool context st hs : m_within R (prepare_hunks tool context st hs).
Proof.
  revert st. induction hs as [|h hs IH]; intros st; cbn [prepare_hunks]; [apply m_within_ret; exact _|].
  apply m_within_bind; [exact _| |auto]. unfold prepare_hunk, verify_hunk.
  repeat first [apply read_text_within | within_step].
Qed.
Lemma prepare_within tool context patch_ state : m_within R (prepare tool context patch_ state).
Proof. unfold prepare. repeat first [apply prepare_hunks_within | within_step]. Qed.
End reading.

(** ** What verification establishes *)

Section preparing.
Context {W : Type} `{!World W, !ExecutionRuntime W} {dbg : DebugPath}.

Record prepare_ok (limit : N) (st : PrepareState) : Prop := {
  po_hunks : Forall prepared_hunk_ok (ps_hunks st);
  po_sources : ∀ h, h ∈ ps_hunks st → source h ∈ ps_sources st;
  po_nodup : NoDup (source <$> ps_hunks st);
  po_count : ps_count st = N.of_nat (count_operations (ps_hunks st));
  po_limit : (ps_count st ≤ limit)%N;
  po_changes : length (ps_changes st) = length (ps_hunks st);
}.

Lemma verify_hunk_destination tool context src h w k d w' :
  verify_hunk tool context src h w = (Ok (k, d), w') →
  is_Some d → match h with UpdateFile _ _ _ => True | _ => False end.
Proof.
  unfold verify_hunk. destruct h as [| |hp mv chunks]; intros H; [| |done].
  - by injection H as <- <- <-; intros [? ?].
  - apply M_bind_ok_inv in H as (? & w1 & _ & H). by injection H as <- <- <-; intros [? ?].
Qed.
Lemma prepare_hunk_ok tool context st h w st' w' :
  prepare_ok (max_operations (config tool)) st → hunk_ok h →
  prepare_hunk tool context st h w = (Ok st', w') →
  prepare_ok (max_operations (config tool)) st' ∧ length (ps_hunks st') = S (length (ps_hunks st)).
Proof.
  intros [Hh Hs Hnd Hcount Hlim Hch] Hok H. unfold prepare_hunk in H.
  apply M_bind_ok_inv in H as (? & w1 & _ & H). apply M_bind_ok_inv in H as (src & w2 & _ & H).
  case_decide as Hin; [done|]. apply M_bind_ok_inv in H as ([k d] & w3 & Hv & H).
  pose proof (verify_hunk_destination _ _ _ _ _ _ _ _ Hv) as Hdest. cbv zeta in H.
  apply M_bind_ok_inv in H as (count & w4 & Hc & H).
  injection Hc as Hc _. unfold ok_or in Hc.
  destruct (u64_checked_add _ _) as [c|] eqn:Ec; [|done]. injection Hc as ->.
  apply u64_checked_add_Some in Ec as [-> _].
  destruct (N.leb_spec (ps_count st + match d with Some _ => 2 | None => 1 end)
              (max_operations (config tool))); [|done].
  injection H as <- _. split; [|by cbn; rewrite length_app, Nat.add_1_r].
  split; cbn [ps_hunks ps_changes ps_sources ps_count].
  - apply Forall_app_2; [done|]. constructor; [by split|done].
  - intros h' [Hin'| ->%list_elem_of_singleton]%elem_of_app; [|set_solver].
    apply elem_of_union_r. auto.
  - rewrite fmap_app. apply NoDup_app. split_and!; [done| |by apply NoDup_singleton].
    intros y (h' & -> & Hh')%list_elem_of_fmap Hx%list_elem_of_singleton.
    apply Hin. cbn [source] in Hx. rewrite <-Hx. auto.
  - unfold count_operations in *. rewrite sum_list_with_app. cbn [sum_list_with].
    destruct d; cbn [hunk_operations destination]; lia.
  - done.
  - rewrite !length_app. simpl. lia.
Qed.
Lemma prepare_hunks_ok tool context st hs w st' w' :
  prepare_ok (max_operations (config tool)) st → Forall hunk_ok hs →
  prepare_hunks tool context st hs w = (Ok st', w') →
  prepare_ok (max_operations (config tool)) st'
  ∧ length (ps_hunks st') = length (ps_hunks st) + length hs.
Proof.
  intros Hst Hok. revert st w Hst. induction Hok as [|h hs Hh Hok IH]; intros st w Hst H;
    cbn [prepare_hunks] in H.
  - injection H as <- _. split; [done|simpl; lia].
  - apply M_bind_ok_inv in H as (st1 & w1 & H1 & H).
    apply prepare_hunk_ok in H1 as [H1 Hl]; [|done..]. apply IH in H as [? ?]; [|done].
    split; [done|]. simpl. lia.
Qed.

Lemma prepare_start_ok (tool : ApplyPatchTool) (context : OperationContext) (patch_ : str)
    (state : ApplyPatchState) (w : W) (p : PreparedPatch) (w' : W) :
  prepare tool context patch_ state w = (Ok p, w') →
  NoDup (source <$> prepared_hunks p)
  ∧ (N.of_nat (operation_count p) ≤ max_operations (config tool))%N
  ∧ ∃ r, start tool p = Ok r ∧ running_ok r ∧ prepared r = p.
Proof.
  intros H. unfold prepare in H. apply M_bind_ok_inv in H as (? & w1 & _ & H).
  destruct (_ <? _)%N; [done|]. apply M_bind_ok_inv in H as (parsed & w2 & Hp & H).
  injection Hp as Hp _.
  assert (Hok : Forall hunk_ok (pp_hunks parsed)).
  { apply (parse_patch_hunks patch_). by destruct (parse_patch patch_); simplify_eq. }
  destruct (pp_environment_id parsed); [done|].
  destruct (pp_hunks parsed) as [|h hs] eqn:Eh; [done|].
  apply M_bind_ok_inv in H as (st & w3 & Hst & H). injection H as <- _.
  apply prepare_hunks_ok in Hst as [[Hh Hs Hnd Hc Hl Hch] Hlen];
    [|split; cbn; [constructor|set_solver|constructor|done|lia|done]|done].
  assert (Hv : validate_prepared tool
    {| version := 2; pp_host_id := host_id rt_descriptor;
       generation := supervisor_generation_id rt_descriptor;
       pp_operation_id := aps_operation_id state;
       pp_update_file_mode := update_file_mode (config tool);
       prepared_hunks := ps_hunks st; changes := ps_changes st |} = Ok tt).
  { unfold validate_prepared.
    cbn [version pp_host_id generation prepared_hunks changes].
    rewrite (bool_decide_false (ps_hunks st = [])) by (intros E; rewrite E in Hlen; done).
    rewrite !bool_decide_true by done. unfold operation_count. cbn [prepared_hunks].
    rewrite Hch, Nat.eqb_refl. cbn [negb orb N.eqb Pos.eqb].
    rewrite (proj2 (N.ltb_ge _ _)) by lia. done. }
  split_and!; [done|unfold operation_count; cbn [prepared_hunks]; lia|].
  unfold start. rewrite Hv. step_result. eexists. split_and!; [done| |done].
  split; cbn [prepared hunk_index applied_operations pending next_operation prepared_hunks]; try done.
  lia.
Qed.
End preparing.

(** ** Replay *)

Definition fenced (op : PreparedOperation) : Prop :=
  match op with
  | Write r => is_Some (wr_expected_generation r)
  | Remove r => is_Some (rm_expected_generation r)
  end.

Section replay.
Context {W S : Type} `{!World W, !ExecutionRuntime W} {dbg : DebugPath}.
Context (store : W → S) `{!ReplaySafe store}.

Lemma dispatch_replay c c' op w1 w2 w3 :
  fenced op → dispatch c op w1 = (Ok tt, w2) → store w3 = store w2 →
  store (dispatch c' op w3).2 = store w2.
Proof.
  intros Hf H Hs. destruct op as [req|req]; cbn [dispatch] in *;
    apply M_bind_ok_inv in H as (u & w4 & Hv & H); apply M_bind_ok_inv in H as (r & w5 & Hr & H);
    (assert (w5 = w2) as -> by (case_match; by injection H));
    unfold mbind, M_bind, lift in *; injection Hv as Hv <-; rewrite Hv; clear H.
  - destruct (write_replay c c' req _ _ _ w3 Hf Hr Hs) as [Hs' _].
    destruct (fs_write c' req w3) as [[r'|e|] w6]; [|done..]. by destruct (_ || _).
  - destruct (remove_replay c c' req _ _ _ w3 Hf Hr Hs) as [Hs' _].
    destruct (fs_remove c' req w3) as [[r'|e|] w6]; [|done..]. by destruct (negb _).
Qed.
End replay.

(** ** The theorems *)

Section theorems.
Context {W : Type} `{!World W, !ExecutionRuntime W} {dbg : DebugPath}.

(** Verification is read-only: a relation that cancellation checks, stats and
    reads respect relates the worlds before and after [prepare], whether it
    succeeds or fails. *)
Theorem prepare_read_only (R : W → W → Prop) (tool : ApplyPatchTool)
    (context : OperationContext) (patch_ : str) (state : ApplyPatchState) (w : W) :
  ReadsWithin R → R w (prepare tool context patch_ state w).2.
Proof. intros HR. by apply prepare_within. Qed.

(** A verified patch can be started by the tool that verified it, within the
    operation limit, with no two hunks on one source path and every move on an
    update; the checkpoint it starts from satisfies the progress invariant. *)
Theorem prepare_then_start (tool : ApplyPatchTool) (context : OperationContext) (patch_ : str)
    (state : ApplyPatchState) (w : W) (p : PreparedPatch) (w' : W) :
  prepare tool context patch_ state w = (Ok p, w') →
  NoDup (source <$> prepared_hunks p)
  ∧ (N.of_nat (operation_count p) ≤ max_operations (config tool))%N
  ∧ ∃ r, start tool p = Ok r ∧ running_ok r ∧ prepared r = p.
Proof. apply prepare_start_ok. Qed.


(** Application progress is well formed at every checkpoint: a successful step
    keeps the invariant (at most the current hunk's mutations are pending, the
    applied count is the number of acknowledged mutations, and the [n]-th
    mutation of the patch carries the [n]-th derived operation id), never
    changes the prepared patch, and reports completion exactly when every
    mutation has been acknowledged. *)
Theorem step_preserves_progress (tool : ApplyPatchTool) (context : OperationContext)
    (r : RunningPatch) (w : W) (p : PatchProgress) (r' : RunningPatch) (w' : W) :
  running_ok r → step tool context r w = (Ok (p, r'), w') →
  running_ok r' ∧ prepared r' = prepared r ∧
  (p = CheckpointRequired ∨
   p = Complete {| out_host_id := pp_host_id (prepared r); out_changes := changes (prepared r) |}
   ∧ r' = r ∧ applied_operations r = operation_count (prepared r)).
Proof.
  intros Hok H. pose proof (step_ok _ _ _ _ _ _ _ Hok H) as (Hok' & Hp & _).
  split_and!; [done|done|]. apply step_ok_inv in H as [(Hc & -> & ->)|(_ & -> & _)]; [right|by left].
  split_and!; [done|done|]. apply Nat.eqb_eq in Hc. destruct Hok as [_ _ Hidle Hpend Happ _].
  destruct (decide (pending r = [])) as [He|He].
  - rewrite Happ, Hc, firstn_all, (Hidle He). unfold operation_count. lia.
  - destruct (Hpend He) as (_ & h & Hh & _). apply lookup_lt_Some in Hh. lia.
Qed.

(** C35. Applying a patch terminates without panicking: from a well-formed
    checkpoint the loop over [step] needs at most one staging and the counted
    mutations per remaining hunk and one final step, and it ends in an error or
    with every mutation acknowledged. *)
Theorem apply_terminates (tool : ApplyPatchTool) (context : OperationContext) (r : RunningPatch)
    (w : W) :
  RuntimeSafe W → running_ok r →
  match apply tool context r w with
  | (Ok output, (r', _)) =>
    applied_operations r' = operation_count (prepared r) ∧ out_changes output = changes (prepared r)
  | (Err _, (r', _)) => running_ok r' ∧ prepared r' = prepared r
  | (Panic, _) => False
  end.
Proof.
  intros Hsafe Hok. unfold apply. remember (steps_left r) as n eqn:Hn.
  assert (Hle : steps_left r ≤ n) by lia. clear Hn. revert r w Hok Hle.
  induction n as [|n IH]; intros r w Hok Hle; [pose proof (steps_left_pos r); lia|].
  cbn [apply_loop]. pose proof (step_safe tool context r Hok w) as Hs.
  destruct (step tool context r w) as [[[p r']|e|] w'] eqn:E; [|done|done].
  pose proof (step_ok _ _ _ _ _ _ _ Hok E) as (Hok' & Hp & Hl).
  destruct p as [|output].
  - specialize (IH r' w' Hok' ltac:(lia)). by rewrite Hp in IH.
  - destruct Hl as [-> Hc]. apply step_ok_inv in E as [(_ & _ & [= ->])|(Hc' & _)]; [|congruence].
    split; [|done]. apply Nat.eqb_eq in Hc. destruct Hok as [_ _ Hidle Hpend Happ _].
    destruct (decide (pending r = [])) as [He|He].
    + rewrite Happ, Hc, firstn_all, (Hidle He). unfold operation_count. lia.
    + destruct (Hpend He) as (_ & h & Hh & _). apply lookup_lt_Some in Hh. lia.
Qed.

(** A step whose acknowledgement was lost can be repeated from the checkpoint
    it started from: against a host that keeps receipts the store does not
    change a second time, and a success is the very same success. *)
Theorem step_replay {S} (store : W → S) (tool : ApplyPatchTool) (context context' : OperationContext)
    (r : RunningPatch) (w1 : W) (res : PatchProgress * RunningPatch) (w2 w3 : W) :
  ReplaySafe store → pending r ≠ [] → Forall fenced (pending r) →
  step tool context r w1 = (Ok res, w2) → store w3 = store w2 →
  store (step tool context' r w3).2 = store w2
  ∧ ∀ res', (step tool context' r w3).1 = Ok res' → res' = res.
Proof.
  intros Hrep Hne Hf H Hs. split.
  - apply step_pending_ok in H
      as ((u & Hv) & Hpi & Hc & op & ops & op' & w4 & Hp & Hi & Hin & Hd); [|done].
    rewrite (step_pending_world _ _ _ _ _ _ _ _ Hv Hpi Hc Hp Hi).
    pose proof (observe_store (store:=store) context' w3) as Ho.
    destruct (checkpointM context' w3) as [[u3|e|] w6]; simpl in Ho; [|congruence..].
    eapply dispatch_replay; [done| |done|congruence].
    rewrite Hp, Forall_forall in Hf. by apply Hf.
  - intros [p r'] Hr'. destruct (step tool context' r w3) as [[x|e|] w4] eqn:E; simplify_eq/=.
    destruct res as [p0 r0].
    apply step_ok_inv in H as [(Hc & -> & ->)|(Hc & -> & [[? _]|[_ ->]])]; [|done|];
      apply step_ok_inv in E as [(Hc' & -> & ->)|(Hc' & -> & [[? _]|[_ ->]])]; congruence.
Qed.

(** A text read in several chunks is one revision of the file: if the host
    answers a read that names revision [rev] with the bytes of that revision,
    a successful [read_text] returns exactly those bytes, decoded, whatever
    the chunking. *)
Theorem read_text_snapshot (context : OperationContext) (p : ExecutionPath) (mf cb : N)
    (rev : FileRevision) (data : bytes) (w : W) (content : str) (md : FileMetadata) (w' : W) :
  (∀ c req w1 rep w2, fs_read c req w1 = (Ok rep, w2) → rd_path req = p →
     revision (rr_metadata rep) = Some rev → rr_offset rep = rd_offset req →
     rr_data rep = take (length (rr_data rep)) (drop (N.to_nat (rd_offset req)) data)
     ∧ size (rr_metadata rep) = N.of_nat (length data)) →
  read_text context p mf cb w = (Ok (content, md), w') → revision md = Some rev →
  utf8_decode data = Some content ∧ size md = N.of_nat (length data) ∧ (size md ≤ mf)%N.
Proof.
  intros Hlaw H Hrev. unfold read_text in H.
  apply M_bind_ok_inv in H as (o & w1 & _ & H). apply M_bind_ok_inv in H as (md' & w2 & _ & H).
  destruct (N.ltb_spec mf (size md')) as [|Hsize]; [done|].
  apply M_bind_ok_inv in H as (rev' & w3 & Hrev' & H). cbv zeta in H.
  destruct (_ =? 0)%N; [done|]. apply M_bind_ok_inv in H as (d & w4 & Hd & H).
  apply M_bind_ok_inv in H as (c & w5 & Hc & H). injection H as -> -> ->.
  injection Hrev' as Hrev' _. rewrite Hrev in Hrev'. injection Hrev' as <-.
  injection Hc as Hc _. unfold ok_or in Hc. destruct (utf8_decode d) as [c'|] eqn:Ec; [|done].
  injection Hc as ->.
  assert (Hread : ∀ fuel acc w, read_loop fuel context p md rev
      (N.min cb (default u64_max (max_read_bytes (limits rt_descriptor)))) acc w = (Ok d, w4) →
      acc = take (length acc) data → d = data ∧ size md = N.of_nat (length data)).
  { clear Hd. induction fuel as [|fuel IH]; intros acc wl Hl Hacc; [done|].
    cbn [read_loop] in Hl. cbv zeta in Hl. apply M_bind_ok_inv in Hl as (? & v1 & _ & Hl).
    apply M_bind_ok_inv in Hl as (reply & v2 & Hrd & Hl).
    apply M_bind_ok_inv in Hl as (? & v3 & _ & Hl). apply M_bind_ok_inv in Hl as (eof & v4 & He & Hl).
    injection He as He _. apply check_reply_Ok in He as (Hr & Hsz & Hoff & _ & Hle & Heof).
    destruct (Hlaw _ _ _ _ _ Hrd eq_refl Hr Hoff) as [Hdata Hsize']. cbn [rd_offset] in Hdata.
    rewrite Nat2N.id in Hdata.
    assert (Hacc' : acc ++ rr_data reply = take (length (acc ++ rr_data reply)) data).
    { rewrite length_app, <-take_take_drop, <-Hacc. by rewrite <-Hdata. }
    destruct eof; [|by eapply IH]. injection Hl as <- _. split; [|congruence].
    rewrite Hacc'. apply take_ge. rewrite length_app. lia. }
  apply Hread in Hd as [-> Hs]; [|done]. done.
Qed.
End theorems.

(** ** Witnesses *)

#[local] Existing Instances memory_world memory_runtime memory_safe memory_reads memory_replay.
#[local] Instance sample_debug : DebugPath := path.
Definition sample_context : OperationContext := {| cancellation := 0; deadline := None |}.
Definition sample_tool : ApplyPatchTool :=
  {| cwd := ExecutionPath_root memory_root;
     config := {| max_patch_bytes := 1000; max_file_bytes := 100; chunk_bytes := 8;
                  max_operations := 5; update_file_mode := PreserveLineEndings |} |}.
Definition sample_path (s : str) : ExecutionPath := {| root_id := memory_root; path := s |}.
Definition sample_world : MemoryWorld :=
  {| mw_files := {[ sample_path (str! "a") := utf8_encode (str! "one" ++ [NL] ++ str! "two" ++ [NL]) ]};
     mw_writes := ∅; mw_removes := ∅ |}.
Definition sample_patch : str :=
  join [NL] [str! "*** Begin Patch"; str! "*** Update File: a"; str! "*** Move to: b";
             str! " one"; str! "+1.5"; str! "*** Add File: c"; str! "+x"; str! "*** End Patch"].
Definition sample_state : ApplyPatchState := {| aps_operation_id := StringId (str! "op") |}.

(** The prepared patch, the first checkpoint, and the one after staging. *)
Definition ok_of {E A} (d : A) (r : result E A) : A := match r with Ok a => a | _ => d end.
Definition no_patch : PreparedPatch :=
  {| version := 0; pp_host_id := StringId []; generation := StringId [];
     pp_operation_id := StringId []; pp_update_file_mode := NormalizeToLf;
     prepared_hunks := []; changes := [] |}.
Definition sample_prepared : PreparedPatch :=
  ok_of no_patch (prepare sample_tool sample_context sample_patch sample_state sample_world).1.
Definition no_running : RunningPatch :=
  {| prepared := no_patch; hunk_index := 0; applied_operations := 0; pending := []; next_operation := 0 |}.
Definition sample_running : RunningPatch :=
  ok_of no_running (start (W:=MemoryWorld) sample_tool sample_prepared).
Definition sample_staged : RunningPatch :=
  (ok_of (CheckpointRequired, no_running) (step sample_tool sample_context sample_running sample_world).1).2.

Lemma sample_prepare_ok :
  prepare sample_tool sample_context sample_patch sample_state sample_world
  = (Ok sample_prepared, sample_world).
Proof. vm_compute. reflexivity. Qed.
Lemma sample_start_ok : start (W:=MemoryWorld) sample_tool sample_prepared = Ok sample_running.
Proof. vm_compute. reflexivity. Qed.
Lemma sample_step_ok :
  step sample_tool sample_context sample_running sample_world
  = (Ok (CheckpointRequired, sample_staged), sample_world).
Proof. vm_compute. reflexivity. Qed.
Lemma sample_running_ok : running_ok sample_running.
Proof.
  destruct (prepare_start_ok _ _ _ _ _ _ _ sample_prepare_ok) as (_ & _ & r & Hr & Hok & _).
  rewrite sample_start_ok in Hr. by injection Hr as <-.
Qed.
Lemma sample_staged_fenced : pending sample_staged ≠ [] ∧ Forall fenced (pending sample_staged).
Proof. vm_compute. split; [done|]. repeat constructor; by eexists. Qed.

Lemma prepare_read_only_witness :
  sample_world = (prepare sample_tool sample_context sample_patch sample_state sample_world).2.
Proof. exact (prepare_read_only eq _ _ _ _ _ memory_reads). Defined.
Lemma prepare_then_start_witness :
  NoDup (source <$> prepared_hunks sample_prepared) ∧ operation_count sample_prepared = 3.
Proof.
  split; [|by vm_compute].
  exact (proj1 (prepare_then_start _ _ _ _ _ _ _ sample_prepare_ok)).
Defined.
Lemma step_preserves_progress_witness : running_ok sample_staged.
Proof.
  exact (proj1 (step_preserves_progress _ _ _ _ _ _ _ sample_running_ok sample_step_ok)).
Defined.
Lemma sample_counts :
  operation_count (prepared sample_running) = 3 ∧ length (changes (prepared sample_running)) = 2.
Proof. vm_compute. split; reflexivity. Qed.
Lemma sample_apply_ok : is_ok (apply sample_tool sample_context sample_running sample_world).1 = true.
Proof. vm_compute. reflexivity. Qed.
Lemma apply_terminates_witness :
  match apply sample_tool sample_context sample_running sample_world with
  | (Ok output, (r, _)) => applied_operations r = 3 ∧ length (out_changes output) = 2
  | _ => False
  end.
Proof.
  pose proof (apply_terminates sample_tool sample_context sample_running sample_world
    memory_safe sample_running_ok) as H.
  pose proof sample_apply_ok as Hok.
  destruct (apply sample_tool sample_context sample_running sample_world) as [[o|e|] [r w]].
  - destruct H as [-> ->]. exact sample_counts.
  - discriminate Hok.
  - discriminate Hok.
Defined.
Definition sample_dispatched : ExecutionResult (PatchProgress * RunningPatch) * MemoryWorld :=
  step sample_tool sample_context sample_staged sample_world.
Definition sample_result : PatchProgress * RunningPatch :=
  ok_of (CheckpointRequired, no_running) sample_dispatched.1.
Lemma sample_dispatch_ok :
  step sample_tool sample_context sample_staged sample_world = (Ok sample_result, sample_dispatched.2).
Proof. vm_compute. reflexivity. Qed.
Lemma step_replay_witness :
  (step sample_tool sample_context sample_staged sample_dispatched.2).2 = sample_dispatched.2.
Proof.
  exact (proj1 (step_replay id sample_tool sample_context sample_context sample_staged sample_world
    sample_result sample_dispatched.2 sample_dispatched.2 memory_replay
    (proj1 sample_staged_fenced) (proj2 sample_staged_fenced) sample_dispatch_ok eq_refl)).
Defined.
Definition sample_data : bytes := utf8_encode (str! "one" ++ [NL] ++ str! "two" ++ [NL]).
Lemma sample_read_ok :
  read_text sample_context (sample_path (str! "a")) 100 8 sample_world
  = (Ok (str! "one" ++ [NL] ++ str! "two" ++ [NL], memory_metadata (sample_path (str! "a")) sample_data),
     sample_world).
Proof. vm_compute. reflexivity. Qed.
Lemma memory_read_snapshot p rev c req w1 rep w2 :
  fs_read c req w1 = (Ok rep, w2) → rd_path req = p →
  revision (rr_metadata rep) = Some (StringId rev) → rr_offset rep = rd_offset req →
  rr_data rep = take (length (rr_data rep)) (drop (N.to_nat (rd_offset req)) rev)
  ∧ size (rr_metadata rep) = N.of_nat (length rev).
Proof.
  cbn. unfold memory_read. destruct (mw_files w1 !! rd_path req) as [data|]; [|done].
  intros [= <- _] _ [= ->] _. cbn. split; [|done]. by rewrite length_take, <-take_take, firstn_all.
Qed.
Lemma read_text_snapshot_witness :
  utf8_decode sample_data = Some (str! "one" ++ [NL] ++ str! "two" ++ [NL]).
Proof.
  exact (proj1 (read_text_snapshot _ _ _ _ (StringId sample_data) sample_data _ _ _ _
    (memory_read_snapshot _ sample_data) sample_read_ok eq_refl)).
Defined.
