(* ===== verification/ProcessCore.v ===== *)
(** [execution-core]: process requests, results and events ([process.rs]) with
    their validation, and the error constructors of the supervisor
    ([execution-supervisor-core/src/error.rs]). *)
From Stdlib Require Import ZifyBool.
From stdpp Require Import prelude gmap strings pretty list.
From S2P Require Import Prelude.
From S2P Require Import Text.
From S2P Require Import Core.
From S2P Require Import Host.

(** ** Commands *)

Inductive CommandSpec :=
  | Shell (command : str) (shell : option str) (login : bool)
  | ShellScript (command : str) (shell : option str) (login : bool)
  | Argv (program : str) (arguments : list str).
#[export] Instance CommandSpec_eq_dec : EqDecision CommandSpec.
Proof. solve_decision. Defined.

Definition null_byte : str := str! "must not contain a null byte".

Definition validate_shell (is_ : list ValidationIssue) (command : str) (shell : option str)
  : list ValidationIssue :=
  let is_ := if contains_char NUL command then issue is_ (str! "command") null_byte else is_ in
  match shell with
  | Some s =>
    let is_ := require_non_empty is_ (str! "shell") s in
    if contains_char NUL s then issue is_ (str! "shell") null_byte else is_
  | None => is_
  end.

#[export] Instance CommandSpec_validate : Validate CommandSpec := λ c,
  finish match c with
  | Shell command shell _ => validate_shell (require_non_empty [] (str! "command") command) command shell
  | ShellScript command shell _ => validate_shell [] command shell
  | Argv program arguments =>
    let is_ := require_non_empty [] (str! "program") program in
    if existsb (contains_char NUL) arguments
    then issue is_ (str! "arguments") null_byte else is_
  end.

(** ** Environments *)

Inductive EnvironmentMode := EnvInherit | EnvEmpty.
#[export] Instance EnvironmentMode_eq_dec : EqDecision EnvironmentMode.
Proof. solve_decision. Defined.

Record EnvironmentVariables := {
  env_mode : EnvironmentMode;
  env_set : gmap str str;
  env_remove : gset str;
}.
#[export] Instance EnvironmentVariables_eq_dec : EqDecision EnvironmentVariables.
Proof. solve_decision. Defined.

(** A [BTreeMap] or [BTreeSet] is iterated in the order of its keys; the order of
    [String] is that of its bytes, which is that of its characters. *)
Fixpoint str_leb (a b : str) : bool :=
  match a, b with
  | [], _ => true
  | _, [] => false
  | x :: a, y :: b => (x <? y)%N || ((x =? y)%N && str_leb a b)
  end.
Definition btree_map_iter (m : gmap str str) : list (str * str) :=
  sort_by (λ a b, str_leb a.1 b.1) (map_to_list m).
Definition btree_set_iter (s : gset str) : list str := sort_by str_leb (elements s).

Definition EQUALS : char := 61.
Definition validate_environment_name (is_ : list ValidationIssue) (field name : str)
  : list ValidationIssue :=
  if str_is_empty name then issue is_ field (str! "variable names must not be empty")
  else if contains_char EQUALS name || contains_char NUL name
  then issue is_ (format! [field; str! "."; name])
         (str! "variable names must not contain '=' or a null byte")
  else is_.

#[export] Instance EnvironmentVariables_validate : Validate EnvironmentVariables := λ e,
  let is_ := foldl (λ is_ '(name, value),
      let is_ := validate_environment_name is_ (str! "set") name in
      if contains_char NUL value then issue is_ (format! [str! "set."; name]) null_byte else is_)
    [] (btree_map_iter (env_set e)) in
  let is_ := foldl (λ is_ name,
      let is_ := validate_environment_name is_ (str! "remove") name in
      if bool_decide (is_Some (env_set e !! name))
      then issue is_ (format! [str! "remove."; name]) (str! "must not also appear in set") else is_)
    is_ (btree_set_iter (env_remove e)) in
  finish is_.

(** ** Starting *)

Inductive StdinMode := StdinClosedMode | StdinPipe | StdinPty (columns rows : N).
#[export] Instance StdinMode_eq_dec : EqDecision StdinMode.
Proof. solve_decision. Defined.

Record StartExecutionRequest := {
  se_expected_generation : option SupervisorGenerationId;
  se_output_drain_timeout_ms : option N;
  se_operation_id : OperationId;
  se_execution_id : ExecutionId;
  se_command : CommandSpec;
  se_cwd : ExecutionPath;
  se_environment : EnvironmentVariables;
  se_stdin : StdinMode;
  se_timeout_ms : option N;
}.
#[export] Instance StartExecutionRequest_eq_dec : EqDecision StartExecutionRequest.
Proof. solve_decision. Defined.

#[export] Instance StartExecutionRequest_validate : Validate StartExecutionRequest := λ r,
  let is_ := append_nested [] (str! "command") (validate (se_command r)) in
  let is_ := append_nested is_ (str! "cwd") (validate (se_cwd r)) in
  let is_ := append_nested is_ (str! "environment") (validate (se_environment r)) in
  let is_ := match se_stdin r with
             | StdinPty columns rows =>
               if (columns =? 0)%N || (rows =? 0)%N
               then issue is_ (str! "stdin") (str! "PTY columns and rows must be greater than zero")
               else is_
             | _ => is_
             end in
  let is_ := if bool_decide (se_timeout_ms r = Some 0%N)
             then issue is_ (str! "timeout_ms") (str! "must be greater than zero") else is_ in
  finish is_.

(** ** Execution states, events and reads *)

Inductive ExecutionState := Starting | Running | Exited | Failed | StateCancelled | Lost.
#[export] Instance ExecutionState_eq_dec : EqDecision ExecutionState.
Proof. solve_decision. Defined.

Record ExecutionHandle := {
  eh_execution_id : ExecutionId;
  eh_generation : SupervisorGenerationId;
  eh_state : ExecutionState;
  eh_started_at : option N;
}.

Inductive ProcessOutputStream := Stdout | Stderr | Pty.
#[export] Instance ProcessOutputStream_eq_dec : EqDecision ProcessOutputStream.
Proof. solve_decision. Defined.

Inductive ProcessEventKind :=
  | EvStarted
  | EvOutput (stream : ProcessOutputStream) (data : bytes)
  | EvExited (exit_code : Z)
  | EvFailed (message : str)
  | EvClosed.
#[export] Instance ProcessEventKind_eq_dec : EqDecision ProcessEventKind.
Proof. solve_decision. Defined.

Record ProcessEvent := { sequence : N; timestamp : N; event : ProcessEventKind }.
#[export] Instance ProcessEvent_eq_dec : EqDecision ProcessEvent.
Proof. solve_decision. Defined.

Record ReadExecutionRequest := {
  re_execution_id : ExecutionId;
  re_generation : SupervisorGenerationId;
  re_after_sequence : N;
  re_max_bytes : N;
  re_wait_ms : option N;
}.
#[export] Instance ReadExecutionRequest_validate : Validate ReadExecutionRequest := λ r,
  let is_ := if (re_max_bytes r =? 0)%N
             then issue [] (str! "max_bytes") (str! "must be greater than zero") else [] in
  let is_ := if bool_decide (re_wait_ms r = Some 0%N)
             then issue is_ (str! "wait_ms") (str! "must be greater than zero when set") else is_ in
  finish is_.

Record ReadExecutionResult := {
  rx_events : list ProcessEvent;
  rx_next_sequence : N;
  rx_state : ExecutionState;
  rx_exit_code : option Z;
}.

(** ** Input, resizing, signals *)

Inductive ProcessInput := InputData (data : bytes) | InputClose.
#[export] Instance ProcessInput_eq_dec : EqDecision ProcessInput.
Proof. solve_decision. Defined.
Record WriteProcessInputRequest := {
  wi_execution_id : ExecutionId;
  wi_generation : SupervisorGenerationId;
  wi_write_id : WriteId;
  wi_input : ProcessInput;
}.
#[export] Instance WriteProcessInputRequest_eq_dec : EqDecision WriteProcessInputRequest.
Proof. solve_decision. Defined.
Inductive ProcessInputStatus := Accepted | AlreadyAccepted | InputStarting | InputStdinClosed.
#[export] Instance ProcessInputStatus_eq_dec : EqDecision ProcessInputStatus.
Proof. solve_decision. Defined.

Record ResizePtyRequest := {
  rp_operation_id : OperationId;
  rp_execution_id : ExecutionId;
  rp_generation : SupervisorGenerationId;
  rp_columns : N;
  rp_rows : N;
}.
#[export] Instance ResizePtyRequest_eq_dec : EqDecision ResizePtyRequest.
Proof. solve_decision. Defined.
#[export] Instance ResizePtyRequest_validate : Validate ResizePtyRequest := λ r,
  if (rp_columns r =? 0)%N || (rp_rows r =? 0)%N
  then inr (validation_single (str! "pty") (str! "columns and rows must be greater than zero"))
  else inl tt.

Inductive ProcessSignal := SigInterrupt | SigTerminate | SigKill.
#[export] Instance ProcessSignal_eq_dec : EqDecision ProcessSignal.
Proof. solve_decision. Defined.
Record SignalExecutionRequest := {
  sg_operation_id : OperationId;
  sg_execution_id : ExecutionId;
  sg_generation : SupervisorGenerationId;
  sg_signal : ProcessSignal;
}.
#[export] Instance SignalExecutionRequest_eq_dec : EqDecision SignalExecutionRequest.
Proof. solve_decision. Defined.
Record TerminateExecutionRequest := {
  te_operation_id : OperationId;
  te_execution_id : ExecutionId;
  te_generation : SupervisorGenerationId;
}.
#[export] Instance TerminateExecutionRequest_eq_dec : EqDecision TerminateExecutionRequest.
Proof. solve_decision. Defined.

Record WriteProcessInputResult := { wp_status : ProcessInputStatus }.
Record TerminateExecutionResult := { was_running : bool }.

(** ** The process half of the runtime traits *)
Class ProcessRuntime (W : Type) := {
  pr_start : OperationContext → StartExecutionRequest → M W ExecutionHandle;
  pr_read : OperationContext → ReadExecutionRequest → M W ReadExecutionResult;
  pr_write : OperationContext → WriteProcessInputRequest → M W WriteProcessInputResult;
  pr_resize : OperationContext → ResizePtyRequest → M W unit;
  pr_signal : OperationContext → SignalExecutionRequest → M W unit;
  pr_terminate : OperationContext → TerminateExecutionRequest → M W TerminateExecutionResult;
}.

(** ** The supervisor's errors *)

Inductive IoErrorKind :=
  | IoNotFound | IoAlreadyExists | IoPermissionDenied | IoInvalidInput | IoInvalidData
  | IoTimedOut | IoUnexpectedEof | IoOther.
(** An [io::Error]: its kind and how it displays. *)
Record IoError := { io_kind : IoErrorKind; io_display : str }.

Definition supervisor_error (c : ExecutionErrorCode) (m : str) : ExecutionError :=
  ExecutionError_new c m.
Definition io_error_code (k : IoErrorKind) : ExecutionErrorCode :=
  match k with
  | IoNotFound => NotFound
  | IoAlreadyExists => AlreadyExists
  | IoPermissionDenied => PermissionDenied
  | IoInvalidInput | IoInvalidData => InvalidRequest
  | IoTimedOut => DeadlineExceeded
  | _ => Io
  end.
Definition io_error (p : str) (e : IoError) : ExecutionError :=
  supervisor_error (io_error_code (io_kind e)) (format! [p; str! ": "; io_display e]).

(** ** What a valid start request is *)

Definition no_nul (s : str) : Prop := NUL ∉ s.
Definition blank (s : str) : Prop := trim s = [].
Definition command_ok (c : CommandSpec) : Prop :=
  match c with
  | Shell command shell _ =>
    ¬ blank command ∧ no_nul command ∧ from_option (λ s, ¬ blank s ∧ no_nul s) True shell
  | ShellScript command shell _ => no_nul command ∧ from_option (λ s, ¬ blank s ∧ no_nul s) True shell
  | Argv program arguments => ¬ blank program ∧ Forall no_nul arguments
  end.
Definition variable_ok (name : str) : Prop := name ≠ [] ∧ EQUALS ∉ name ∧ NUL ∉ name.
Definition environment_ok (e : EnvironmentVariables) : Prop :=
  (∀ name value, env_set e !! name = Some value → variable_ok name ∧ no_nul value) ∧
  (∀ name, name ∈ env_remove e → variable_ok name ∧ env_set e !! name = None).

Lemma foldl_issues_nil {A} (f : list ValidationIssue → A → list ValidationIssue) (P : A → Prop) l is_ :
  (∀ is_ a, f is_ a = [] ↔ is_ = [] ∧ P a) → foldl f is_ l = [] ↔ is_ = [] ∧ Forall P l.
Proof.
  intros Hf. revert is_. induction l as [|a l IH]; intros is_; simpl.
  - split; [intros ->; split; [done|constructor]|naive_solver].
  - rewrite IH, Hf, Forall_cons. naive_solver.
Qed.
Lemma validate_shell_nil is_ command shell :
  validate_shell is_ command shell = [] ↔
  is_ = [] ∧ no_nul command ∧ from_option (λ s, ¬ blank s ∧ no_nul s) True shell.
Proof.
  unfold validate_shell, no_nul, blank. destruct shell as [s|]; cbn [from_option];
    rewrite ?issue_if_nil, ?require_non_empty_nil, ?issue_if_nil, ?contains_char_false; naive_solver.
Qed.
Lemma validate_environment_name_nil is_ field name :
  validate_environment_name is_ field name = [] ↔ is_ = [] ∧ variable_ok name.
Proof.
  unfold validate_environment_name, variable_ok, str_is_empty.
  case_bool_decide; [split; [by intros ?%issue_not_nil|naive_solver]|].
  rewrite issue_if_nil, orb_false_iff, !contains_char_false. naive_solver.
Qed.

Lemma command_valid_iff c : validate c = inl tt ↔ command_ok c.
Proof.
  unfold validate, CommandSpec_validate. rewrite finish_ok.
  destruct c as [command shell l|command shell l|program arguments]; cbn [command_ok].
  - rewrite validate_shell_nil, require_non_empty_nil. unfold blank. naive_solver.
  - rewrite validate_shell_nil. naive_solver.
  - rewrite issue_if_nil, require_non_empty_nil. unfold blank, no_nul.
    rewrite <-not_true_iff_false, existsb_exists, Forall_forall.
    setoid_rewrite contains_char_spec. setoid_rewrite list_elem_of_In. naive_solver.
Qed.

Lemma environment_valid_iff e : validate e = inl tt ↔ environment_ok e.
Proof.
  unfold validate, EnvironmentVariables_validate. rewrite finish_ok.
  rewrite (foldl_issues_nil _ (λ name, variable_ok name ∧ env_set e !! name = None)).
  2:{ intros is_ name. case_bool_decide as Hs.
      - split; [by intros ?%issue_not_nil|]. intros (_ & _ & Hn). rewrite Hn in Hs. by destruct Hs.
      - rewrite validate_environment_name_nil, eq_None_not_Some. naive_solver. }
  rewrite (foldl_issues_nil _ (λ nv : str * str, variable_ok nv.1 ∧ no_nul nv.2)).
  2:{ intros is_ [name value]. rewrite issue_if_nil, validate_environment_name_nil, contains_char_false.
      unfold no_nul. naive_solver. }
  unfold environment_ok, btree_map_iter, btree_set_iter. rewrite !sort_by_Permutation, !Forall_forall.
  split.
  - intros [[_ Hset] Hrem]. split.
    + intros name value Hn. apply (Hset (name, value)). by apply elem_of_map_to_list.
    + intros name Hn. apply Hrem. by apply elem_of_elements.
  - intros [Hset Hrem]. split_and!; [done| |].
    + intros [name value] Hn%elem_of_map_to_list. by eapply Hset.
    + intros name Hn%elem_of_elements. by apply Hrem.
Qed.

(** A start request is accepted exactly when each part is well formed: a
    non-blank command (an empty script only in the script form) free of NUL,
    a portable working directory, environment names without [=] or NUL that are
    not both set and removed, a PTY of positive size and a positive timeout. *)
Theorem start_request_valid_iff (r : StartExecutionRequest) :
  valid r ↔
  command_ok (se_command r) ∧ portable_path (path (se_cwd r)) ∧ environment_ok (se_environment r)
  ∧ match se_stdin r with StdinPty columns rows => (0 < columns ∧ 0 < rows)%N | _ => True end
  ∧ se_timeout_ms r ≠ Some 0%N.
Proof.
  unfold valid, validate, StartExecutionRequest_validate. rewrite finish_ok, issue_if_nil.
  rewrite bool_decide_eq_false.
  rewrite <-execution_path_valid_portable, <-command_valid_iff, <-environment_valid_iff.
  assert (Hn : ∀ is_, is_ = [] ∧ True ↔ is_ = ([] : list ValidationIssue)) by naive_solver.
  destruct (se_stdin r); rewrite ?issue_if_nil, !append_nested_nil;
    rewrite ?orb_false_iff, ?N.eqb_neq;
    unfold validate, valid, CommandSpec_validate, EnvironmentVariables_validate, ExecutionPath_validate;
    pose proof finish_nonempty; naive_solver lia.
Qed.
