(* ===== verification/ProcessLaunch.v ===== *)
(** How the supervisor launches a process
    ([execution-supervisor-core/src/process/shell.rs] and the command, environment
    and terminal helpers of [process/manager.rs]): shell discovery, command lines,
    environment changes, and the two byte automata of the Windows terminal. *)
From Stdlib Require Import ZifyBool.
From stdpp Require Import prelude gmap strings pretty list.
From S2P Require Import Prelude.
From S2P Require Import Text.
From S2P Require Import Core.
From S2P Require Import Host.
From S2P Require Import ProcessCore.

(** ** Shells *)

Inductive Kind := Sh | Bash | Zsh | PowerShell | Cmd.
#[export] Instance Kind_eq_dec : EqDecision Kind.
Proof. solve_decision. Defined.

(** What discovery observes of the host: the target it was compiled for, the
    login shell of the user database, the files of the disk, the search path
    ([which]) and the environment's default shell ([SHELL] or [COMSPEC]). *)
Class ShellHost := {
  cfg_windows : bool;
  cfg_macos : bool;
  user_shell : option str;
  path_is_file : str → bool;
  which : str → option str;
  shell_variable : option str;
}.

(** [str::trim_end_matches] with a string pattern: the suffix as often as it
    occurs. *)
Fixpoint trim_start_matches (fuel : nat) (p s : str) : str :=
  match fuel, strip_prefix p s with
  | S fuel, Some rest => trim_start_matches fuel p rest
  | _, _ => s
  end.
Definition trim_end_matches (p s : str) : str :=
  reverse (trim_start_matches (length s) (reverse p) (reverse s)).
(** [rsplit(['/', '\\']).next()]: what follows the last separator. *)
Fixpoint after_last_separator (current s : str) : str :=
  match s with
  | [] => current
  | c :: s =>
    if (c =? SLASH)%N || (c =? BACKSLASH)%N then after_last_separator [] s
    else after_last_separator (current ++ [c]) s
  end.

Definition classify (path : str) : option Kind :=
  let name := trim_end_matches (str! ".exe") (after_last_separator [] path) in
  if str_eqb name (str! "sh") then Some Sh
  else if str_eqb name (str! "bash") then Some Bash
  else if str_eqb name (str! "zsh") then Some Zsh
  else if str_eqb name (str! "powershell") || str_eqb name (str! "pwsh") then Some PowerShell
  else if str_eqb name (str! "cmd") then Some Cmd
  else None.

Section shells.
Context {host : ShellHost}.

Definition candidates (kind : Kind) : list (str * list str) :=
  match kind with
  | Sh => [(str! "sh", [str! "/bin/sh"])]
  | Bash => [(str! "bash", [str! "/bin/bash"; str! "/usr/bin/bash"])]
  | Zsh => [(str! "zsh", [str! "/bin/zsh"])]
  | Cmd => [(str! "cmd", [])]
  | PowerShell =>
    if cfg_windows then
      [(str! "pwsh", [str! "C:\Program Files\PowerShell\7\pwsh.exe"]);
       (str! "powershell", [str! "C:\Windows\System32\WindowsPowerShell\v1.0\powershell.exe"])]
    else [(str! "pwsh", [str! "/usr/local/bin/pwsh"]); (str! "powershell", [])]
  end.
Fixpoint first_candidate (l : list (str * list str)) : option str :=
  match l with
  | [] => None
  | (binary, fallbacks) :: l =>
    match which binary with
    | Some path => Some path
    | None =>
      match list_find (λ p, path_is_file p = true) fallbacks with
      | Some (_, path) => Some path
      | None => first_candidate l
      end
    end
  end.
Definition discover (kind : Kind) : option str :=
  match user_shell with
  | Some path =>
    if bool_decide (classify path = Some kind) && path_is_file path then Some path
    else first_candidate (candidates kind)
  | None => first_candidate (candidates kind)
  end.

Definition fallback : Kind * str :=
  if cfg_windows then (Cmd, str! "cmd.exe") else (Sh, str! "/bin/sh").

Definition discovered (kind : Kind) : option (Kind * str) := (λ path, (kind, path)) <$> discover kind.
Fixpoint find_discovered (kinds : list Kind) : option (Kind * str) :=
  match kinds with
  | [] => None
  | kind :: kinds => match discovered kind with Some r => Some r | None => find_discovered kinds end
  end.
Definition select (shell : option str) : Kind * str :=
  match shell with
  | Some shell => default fallback (classify shell ≫= discovered)
  | None =>
    let preferred := if cfg_windows then Some PowerShell else user_shell ≫= classify in
    let alternatives :=
      if cfg_windows then [] else if cfg_macos then [Zsh; Bash] else [Bash; Zsh] in
    default fallback (find_discovered (option_list preferred ++ alternatives))
  end.

Definition arguments (kind : Kind) (command : str) (login : bool) : list str :=
  let flags :=
    match kind with
    | Sh | Bash | Zsh => [if login then str! "-lc" else str! "-c"]
    | PowerShell => if login then [str! "-Command"] else [str! "-NoProfile"; str! "-Command"]
    | Cmd => [str! "/c"]
    end in
  flags ++ [command].

Definition resolve_shell (shell : option str) (command : str) (login : bool) : str * list str :=
  let '(kind, program) := select shell in (program, arguments kind command login).

(** [platform::default_shell]. *)
Definition default_shell : str :=
  default (if cfg_windows then str! "cmd.exe" else str! "/bin/sh") shell_variable.

(** [build_command] and [build_pty_command]: the program and its arguments. *)
Definition build_command (spec : CommandSpec) : str * list str :=
  match spec with
  | ShellScript command shell login => resolve_shell shell command login
  | Argv program args => (program, args)
  | Shell command shell login =>
    (default default_shell shell,
     if cfg_windows then [str! "/C"; command] else [if login then str! "-lc" else str! "-c"; command])
  end.

(** The script always reaches the process as its last argument, unchanged, whatever
    shell was found. *)
Lemma resolve_shell_script shell command login :
  last (resolve_shell shell command login).2 = Some command.
Proof. unfold resolve_shell. destruct (select shell) as [k p]. simpl. unfold arguments. apply last_snoc. Qed.
End shells.

(** ** The environment *)

(** The calls a command receives. *)
Inductive EnvCall := EnvClear | EnvRemove (name : str) | EnvSet (name value : str).
Definition configure_environment (e : EnvironmentVariables) : list EnvCall :=
  (if decide (env_mode e = EnvEmpty) then [EnvClear] else [])
  ++ (EnvRemove <$> btree_set_iter (env_remove e))
  ++ ((λ '(name, value), EnvSet name value) <$> btree_map_iter (env_set e)).

(** [std::process::Command]: whether the inherited environment was cleared, and the
    changes to it, [None] for a removal. *)
Record CommandEnv := { ce_clear : bool; ce_vars : gmap str (option str) }.
Definition env_call (c : EnvCall) (e : CommandEnv) : CommandEnv :=
  match c with
  | EnvClear => {| ce_clear := true; ce_vars := ∅ |}
  | EnvRemove name =>
    {| ce_clear := ce_clear e;
       ce_vars := if ce_clear e then delete name (ce_vars e) else <[name := None]> (ce_vars e) |}
  | EnvSet name value => {| ce_clear := ce_clear e; ce_vars := <[name := Some value]> (ce_vars e) |}
  end.
Definition env_calls (l : list EnvCall) : CommandEnv :=
  foldl (λ e c, env_call c e) {| ce_clear := false; ce_vars := ∅ |} l.
(** What the child sees of a variable. *)
Definition child_variable (inherited : gmap str str) (e : CommandEnv) (name : str) : option str :=
  match ce_vars e !! name with
  | Some change => change
  | None => if ce_clear e then None else inherited !! name
  end.

(** ** The Windows terminal

    Both automata keep one field between calls; a call is a fold over the bytes of
    a chunk. *)

(** [WindowsPtyInputNormalizer::normalize]: the field is [previous_was_cr]. *)
Definition normalize_byte (st : bool * bytes) (byte : N) : bool * bytes :=
  let '(previous_was_cr, normalized) := st in
  let normalized :=
    if (byte =? 8)%N then normalized ++ [127%N]
    else if (byte =? NL)%N then (if previous_was_cr then normalized else normalized ++ [CR])
    else normalized ++ [byte] in
  ((byte =? CR)%N, normalized).
Definition normalize (previous_was_cr : bool) (input : bytes) : bool * bytes :=
  foldl normalize_byte (previous_was_cr, []) input.

(** [WindowsTerminalResponder::observe]: the field is
    [matched_cursor_query_bytes]; the result holds one response per query. *)
Definition CURSOR_POSITION_QUERY : bytes := [27; 91; 54; 110]%N.
Definition CURSOR_POSITION_RESPONSE : bytes := [27; 91; 49; 59; 49; 82]%N.
Definition observe_byte {E} (st : nat * list bytes) (byte : N) : result E (nat * list bytes) :=
  let '(matched, responses) := st in
  expected ← index CURSOR_POSITION_QUERY matched;
  if (byte =? expected)%N then
    let matched := S matched in
    if matched =? length CURSOR_POSITION_QUERY
    then Ok (0, responses ++ [CURSOR_POSITION_RESPONSE]) else Ok (matched, responses)
  else
    first ← index CURSOR_POSITION_QUERY 0;
    Ok (if (byte =? first)%N then 1 else 0, responses).
Definition observe_terminal {E} (matched : nat) (input : bytes) : result E (nat * list bytes) :=
  fold_result observe_byte (matched, []) input.

(** * Properties *)

Section environment.
Lemma env_call_removes l e name :
  ce_clear (foldl (λ e c, env_call c e) e (EnvRemove <$> l)) = ce_clear e ∧
  ce_vars (foldl (λ e c, env_call c e) e (EnvRemove <$> l)) !! name =
    if decide (name ∈ l) then (if ce_clear e then None else Some None) else ce_vars e !! name.
Proof.
  revert e. induction l as [|x l IH]; intros e; [done|]. cbn [fmap list_fmap foldl].
  destruct (IH (env_call (EnvRemove x) e)) as [-> ->]. split; [done|]. cbn [env_call ce_clear ce_vars].
  destruct (decide (name = x)) as [->|Hne].
  - rewrite (decide_True (P := x ∈ x :: l)) by set_solver. case_decide; [done|].
    destruct (ce_clear e); [by rewrite lookup_delete_eq|by rewrite lookup_insert_eq].
  - destruct (decide (name ∈ l)).
    + by rewrite decide_True by set_solver.
    + rewrite decide_False by set_solver.
      destruct (ce_clear e); [by rewrite lookup_delete_ne|by rewrite lookup_insert_ne].
Qed.
Lemma env_call_sets l e name :
  NoDup l.*1 →
  let e' := foldl (λ e c, env_call c e) e ((λ '(name, value), EnvSet name value) <$> l) in
  ce_clear e' = ce_clear e ∧
  ce_vars e' !! name =
    match list_to_map (M:=gmap str str) l !! name with Some v => Some (Some v) | None => ce_vars e !! name end.
Proof.
  revert e. induction l as [|[x v] l IH]; intros e Hnd; [done|]. cbn [fmap list_fmap foldl fst] in *.
  apply NoDup_cons in Hnd as [Hx Hnd]. destruct (IH (env_call (EnvSet x v) e) Hnd) as [-> ->].
  split; [done|]. cbn [env_call ce_vars list_to_map foldr].
  destruct (decide (x = name)) as [->|Hne].
  - rewrite lookup_insert_eq, (not_elem_of_list_to_map_1 _ _ Hx). by rewrite lookup_insert_eq.
  - rewrite (lookup_insert_ne _ x name) by done. by rewrite (lookup_insert_ne _ x name) by done.
Qed.

(** The environment a process runs in is the one its request describes: a variable
    set by the request has that value; any other is absent when the request asks
    for an empty environment or removes it, and inherited otherwise. *)
Theorem child_environment (inherited : gmap str str) (e : EnvironmentVariables) (name : str) :
  child_variable inherited (env_calls (configure_environment e)) name =
    match env_set e !! name with
    | Some value => Some value
    | None => if decide (env_mode e = EnvEmpty ∨ name ∈ env_remove e) then None else inherited !! name
    end.
Proof.
  unfold env_calls, configure_environment. rewrite !foldl_app.
  set (e0 := foldl _ _ (if decide _ then _ else _)).
  assert (He0 : ce_clear e0 = bool_decide (env_mode e = EnvEmpty) ∧ ce_vars e0 = ∅).
  { unfold e0. case_decide; [by rewrite bool_decide_true|by rewrite bool_decide_false]. }
  destruct He0 as [Hc Hv].
  destruct (env_call_removes (btree_set_iter (env_remove e)) e0 name) as [Hrc Hrv].
  set (e1 := foldl _ e0 _) in *.
  assert (Hperm : btree_map_iter (env_set e) ≡ₚ map_to_list (env_set e)) by apply sort_by_Permutation.
  assert (Hnd : NoDup (btree_map_iter (env_set e)).*1).
  { rewrite Hperm. apply NoDup_fst_map_to_list. }
  destruct (env_call_sets (btree_map_iter (env_set e)) e1 name Hnd) as [Hsc Hsv].
  unfold child_variable. rewrite Hsv, Hsc, (list_to_map_proper _ _ Hnd Hperm), list_to_map_to_list.
  destruct (env_set e !! name) as [v|]; [done|].
  rewrite Hrv, Hrc, Hc, Hv, lookup_empty.
  assert (Hin : name ∈ btree_set_iter (env_remove e) ↔ name ∈ env_remove e).
  { unfold btree_set_iter. rewrite (sort_by_Permutation str_leb (elements (env_remove e))).
    apply elem_of_elements. }
  destruct (decide (name ∈ btree_set_iter (env_remove e))) as [Hn|Hn];
    rewrite Hin in Hn; case_bool_decide; case_decide; naive_solver.
Qed.
End environment.

Section terminal.
(** Chunks do not matter. *)
Lemma normalize_app prev a b :
  normalize prev (a ++ b) =
    let '(prev, x) := normalize prev a in let '(prev, y) := normalize prev b in (prev, x ++ y).
Proof.
  unfold normalize. rewrite foldl_app. destruct (foldl _ _ a) as [p x].
  assert (H : ∀ l p x, foldl normalize_byte (p, x) l =
    let '(p', y) := foldl normalize_byte (p, []) l in (p', x ++ y)).
  { clear. induction l as [|c l IH]; intros p x; [cbn; by rewrite app_nil_r|]. cbn [foldl].
    rewrite (surjective_pairing (normalize_byte (p, x) c)), (surjective_pairing (normalize_byte (p, []) c)).
    rewrite IH, (IH _ (normalize_byte (p, []) c).2). replace (normalize_byte (p, []) c).1 with (normalize_byte (p, x) c).1 by done.
    destruct (foldl normalize_byte _ l) as [p' y]. f_equal. rewrite (assoc_L (++)). f_equal.
    unfold normalize_byte. cbn [snd]. repeat case_match; by rewrite ?app_nil_r. }
  apply H.
Qed.

(** Where a query ends, in a stream given from its last byte. *)
Definition query_ends (seen : bytes) : bool := bool_decide (CURSOR_POSITION_QUERY `suffix_of` seen).
(** The number of queries in a stream. *)
Definition queries (s : bytes) : nat := length (filter (λ n, query_ends (take (S n) s) = true) (seq 0 (length s))).

Lemma filter_Forall_iff {A} (P Q : A → Prop) `{!∀ x, Decision (P x), !∀ x, Decision (Q x)} l :
  Forall (λ x, P x ↔ Q x) l → filter P l = filter Q l.
Proof.
  induction 1 as [|x l Hx _ IH]; [done|]. rewrite !filter_cons, IH. repeat case_decide; naive_solver.
Qed.
Lemma queries_snoc s b : queries (s ++ [b]) = queries s + (if query_ends (s ++ [b]) then 1 else 0).
Proof.
  unfold queries. rewrite length_app, seq_app, filter_app, length_app. f_equal.
  - f_equal. apply filter_Forall_iff, Forall_forall. intros n [_ Hn]%elem_of_seq. by rewrite take_app_le by lia.
  - cbn [length seq]. rewrite filter_cons, filter_nil, take_ge by (rewrite length_app; simpl; lia).
    destruct (query_ends _); [by rewrite decide_True|by rewrite decide_False].
Qed.

(** The automaton's state: how much of the query the stream ends with. *)
Definition partial (s : bytes) (m : nat) : Prop :=
  m < 4 ∧ ∀ k, 0 < k < 4 → take k CURSOR_POSITION_QUERY `suffix_of` s ↔ k = m.
Lemma suffix_snoc_iff {A} (p s : list A) x b : p ++ [x] `suffix_of` s ++ [b] ↔ x = b ∧ p `suffix_of` s.
Proof.
  split; [|by intros [-> ?]; apply suffix_app]. intros [k Hk].
  rewrite (assoc_L (++)) in Hk. apply app_inj_tail in Hk as [-> ->]. split; [done|by exists k].
Qed.
Lemma observe_partial {E} s m responses b :
  partial s m → ∃ m',
    observe_byte (E:=E) (m, responses) b
      = Ok (m', responses ++ (if query_ends (s ++ [b]) then [CURSOR_POSITION_RESPONSE] else []))
    ∧ partial (s ++ [b]) m'.
Proof.
  intros [Hm Hs].
  assert (H1 : [27%N] `suffix_of` s ↔ 1 = m) by (apply (Hs 1); lia).
  assert (H2 : [27; 91]%N `suffix_of` s ↔ 2 = m) by (apply (Hs 2); lia).
  assert (H3 : [27; 91; 54]%N `suffix_of` s ↔ 3 = m) by (apply (Hs 3); lia).
  assert (Hq : query_ends (s ++ [b]) = (b =? 110)%N && (m =? 3)).
  { unfold query_ends. apply eq_true_iff_eq.
    rewrite bool_decide_eq_true, andb_true_iff, N.eqb_eq, Nat.eqb_eq.
    change CURSOR_POSITION_QUERY with ([27; 91; 54]%N ++ [110%N]). rewrite suffix_snoc_iff, H3. naive_solver. }
  assert (Hp : ∀ k, 0 < k < 4 → take k CURSOR_POSITION_QUERY `suffix_of` s ++ [b] ↔
    match k with 1 => b = 27%N | 2 => b = 91%N ∧ m = 1 | _ => b = 54%N ∧ m = 2 end).
  { intros k Hk. destruct k as [|[|[|[|k]]]]; [lia| | | |lia].
    - change (take 1 _) with ([] ++ [27%N]). rewrite suffix_snoc_iff. pose proof (suffix_nil s). naive_solver.
    - change (take 2 _) with ([27%N] ++ [91%N]). rewrite suffix_snoc_iff, H1. naive_solver.
    - change (take 3 _) with ([27; 91]%N ++ [54%N]). rewrite suffix_snoc_iff, H2. naive_solver. }
  rewrite Hq. unfold observe_byte.
  assert (Hfin : ∀ m', m' < 4 → (∀ k, 0 < k < 4 →
      match k with 1 => b = 27%N | 2 => b = 91%N ∧ m = 1 | _ => b = 54%N ∧ m = 2 end ↔ k = m') →
    partial (s ++ [b]) m').
  { intros m' Hm' Hk. split; [done|]. intros k Hk'. by rewrite Hp, Hk. }
  destruct m as [|[|[|[|m]]]]; [| | | |lia]; cbn [index or_panic CURSOR_POSITION_QUERY lookup list_lookup];
    step_result;
    repeat match goal with |- context [(b =? ?c)%N] => destruct (N.eqb_spec b c) end;
    cbn [andb Nat.eqb length CURSOR_POSITION_QUERY CURSOR_POSITION_RESPONSE]; rewrite ?app_nil_r;
    (eexists; split; [reflexivity|]; apply Hfin; [lia|]; clear Hs H1 H2 H3 Hq Hp Hfin; intros [|[|[|[|k]]]] Hk; lia).
Qed.

(** The responses to a stream read in chunks, counted. *)
Fixpoint observe_chunks {E} (matched answered : nat) (chunks : list bytes) : result E (nat * nat) :=
  match chunks with
  | [] => Ok (matched, answered)
  | chunk :: chunks =>
    '(matched, responses) ← observe_terminal matched chunk;
    observe_chunks matched (answered + length responses) chunks
  end.

(** The terminal responder answers every cursor position query of the output
    exactly once, however the output is cut into chunks. *)
Theorem responder_counts_queries (chunks : list bytes) :
  ∃ m, observe_chunks (E:=unit) 0 0 chunks = Ok (m, queries (concat chunks)).
Proof.
  assert (Hchunk : ∀ chunk seen m, partial seen m → ∃ m',
    observe_terminal (E:=unit) m chunk
      = Ok (m', replicate (queries (seen ++ chunk) - queries seen) CURSOR_POSITION_RESPONSE)
    ∧ queries seen ≤ queries (seen ++ chunk) ∧ partial (seen ++ chunk) m').
  { induction chunk as [|b chunk IH] using rev_ind; intros seen m Hm.
    - exists m. by rewrite app_nil_r, Nat.sub_diag.
    - destruct (IH seen m Hm) as (m1 & H1 & Hle & Hp1). unfold observe_terminal in *.
      destruct (observe_partial (E:=unit) (seen ++ chunk) m1
        (replicate (queries (seen ++ chunk) - queries seen) CURSOR_POSITION_RESPONSE) b Hp1) as (m2 & H2 & Hp2).
      exists m2. rewrite fold_result_app, H1. step_result. cbn [fold_result]. rewrite H2. step_result.
      rewrite (assoc_L (++)), queries_snoc. split; [|split; [lia|done]]. f_equal. f_equal.
      destruct (query_ends _).
      + rewrite Nat.add_1_r, Nat.sub_succ_l, replicate_S_end by done. done.
      + by rewrite app_nil_r, Nat.add_0_r. }
  assert (Hall : ∀ seen m, partial seen m → ∃ m',
    observe_chunks (E:=unit) m (queries seen) chunks = Ok (m', queries (seen ++ concat chunks))).
  { induction chunks as [|chunk chunks IH]; intros seen m Hm; cbn [observe_chunks concat].
    - exists m. by rewrite app_nil_r.
    - destruct (Hchunk chunk seen m Hm) as (m1 & H1 & Hle & Hp1). rewrite H1.
      step_result. rewrite length_replicate.
      replace (queries seen + _) with (queries (seen ++ chunk)) by lia.
      destruct (IH (seen ++ chunk) m1 Hp1) as [m2 H2]. exists m2. by rewrite H2, (assoc_L (++)). }
  apply (Hall [] 0). split; [lia|]. intros [|[|[|[|k]]]] Hk; (split; [intros [p Hp]; by destruct p|lia]).
Qed.
End terminal.
