(* ===== verification/Journal.v ===== *)
(** The process event journal of the supervisor
    ([execution-supervisor-core/src/process/journal.rs]): an append-only file of
    encoded events, the in-memory index over it, and reads that page through it
    by sequence number.  An output event of [n] bytes owns [n] consecutive
    sequence numbers, so a cursor can point inside it. *)
From Stdlib Require Import ZifyBool Sorted.
From stdpp Require Import prelude gmap strings pretty list.
From S2P Require Import Prelude.
From S2P Require Import Text.
From S2P Require Import Core.
From S2P Require Import Host.
From S2P Require Import ProcessCore.

(** [serde_json]'s encoding of events: a failure carries the error's display. *)
Class JournalCodec := {
  encode_event : ProcessEvent → str + bytes;
  decode_event : bytes → str + ProcessEvent;
}.
(** What the journal needs of it: what was encoded can be decoded. *)
Class JournalCodecLaws `{!JournalCodec} : Prop :=
  decode_encode : ∀ e b, encode_event e = inr b → decode_event b = inr e.

Record JournalEntry := {
  first_sequence : N;
  last_sequence : N;
  offset : N;
  length_ : N;
  output_bytes : N;
}.

Record JournalState := {
  next_sequence : N;
  entries : list JournalEntry;
  file_length : N;
  state : ExecutionState;
  started_at : option N;
  exit_code : option Z;
  finished_at : option N;
  closed : bool;
}.

Record SelectedEntry := {
  journal : JournalEntry;
  output_offset : nat;
  output_length : nat;
  returned_sequence : N;
}.

Definition is_terminal (s : ExecutionState) : bool :=
  match s with Exited | Failed | StateCancelled | Lost => true | _ => false end.

(** The journal as the rest of the supervisor sees it: the locked state, the
    file, and the outcomes of the appends to come (success once exhausted). *)
Inductive AppendOutcome :=
  | AppendOk
  | AppendOpenFails (e : IoError)
  | AppendWriteFails (written : nat) (e : IoError).
Record Journal := {
  js : JournalState;
  journal_path : str;
  file : bytes;
  outcomes : list AppendOutcome;
}.

Definition initial_state : JournalState :=
  {| next_sequence := 1; entries := []; file_length := 0; state := Starting; started_at := None;
     exit_code := None; finished_at := None; closed := false |}.
(** [EventJournal::create], once the directory and the empty file exist. *)
Definition create (path : str) (outcomes : list AppendOutcome) : Journal :=
  {| js := initial_state; journal_path := path; file := []; outcomes := outcomes |}.

Definition set_js (s : JournalState) (j : Journal) : Journal :=
  {| js := s; journal_path := journal_path j; file := file j; outcomes := outcomes j |}.
(** [state.f = v], under the lock. *)
Definition modify (f : JournalState → JournalState) : M Journal unit := λ j, (Ok tt, set_js (f (js j)) j).
Definition get_state : M Journal JournalState := λ j, (Ok (js j), j).

Definition set_state (st : ExecutionState) (s : JournalState) : JournalState :=
  {| next_sequence := next_sequence s; entries := entries s; file_length := file_length s;
     state := st; started_at := started_at s; exit_code := exit_code s;
     finished_at := finished_at s; closed := closed s |}.
Definition set_started_at (t : N) (s : JournalState) : JournalState :=
  {| next_sequence := next_sequence s; entries := entries s; file_length := file_length s;
     state := state s; started_at := Some t; exit_code := exit_code s;
     finished_at := finished_at s; closed := closed s |}.
Definition set_exit_code (c : Z) (s : JournalState) : JournalState :=
  {| next_sequence := next_sequence s; entries := entries s; file_length := file_length s;
     state := state s; started_at := started_at s; exit_code := Some c;
     finished_at := finished_at s; closed := closed s |}.
Definition set_closed (now : N) (s : JournalState) : JournalState :=
  {| next_sequence := next_sequence s; entries := entries s; file_length := file_length s;
     state := state s; started_at := started_at s; exit_code := exit_code s;
     finished_at := Some now; closed := true |}.
Definition push_entry (e : JournalEntry) (s : JournalState) : JournalState :=
  {| next_sequence := u64_sat_add (last_sequence e) 1; entries := entries s ++ [e];
     file_length := u64_sat_add (u64_sat_add (file_length s) (length_ e)) 1;
     state := state s; started_at := started_at s; exit_code := exit_code s;
     finished_at := finished_at s; closed := closed s |}.

(** The two writes and the flush of one record, in append mode: on a failure a
    prefix of the record may have reached the end of the file. *)
Definition append_record (encoded : bytes) : M Journal unit := λ j,
  let record := encoded ++ [NL] in
  let step outs f := {| js := js j; journal_path := journal_path j; file := f; outcomes := outs |} in
  match outcomes j with
  | [] => (Ok tt, step [] (file j ++ record))
  | AppendOk :: outs => (Ok tt, step outs (file j ++ record))
  | AppendOpenFails e :: outs => (Err (io_error (journal_path j) e), step outs (file j))
  | AppendWriteFails written e :: outs =>
    (Err (io_error (journal_path j) e), step outs (file j ++ take written record))
  end.

Section journal.
Context {codec : JournalCodec}.

Definition event_output_bytes (event : ProcessEventKind) : N :=
  match event with EvOutput _ data => N.of_nat (length data) | _ => 0%N end.

Definition append_locked (timestamp : N) (event : ProcessEventKind) : M Journal unit :=
  state ← get_state;
  let output_bytes := event_output_bytes event in
  let first_sequence := next_sequence state in
  let sequence_span := N.max output_bytes 1 in
  let last_sequence := u64_sat_add first_sequence (u64_sat_sub sequence_span 1) in
  let value := {| sequence := last_sequence; timestamp := timestamp; event := event |} in
  encoded ← lift (match encode_event value with
                  | inr b => Ok b
                  | inl m => Err (supervisor_error Internal
                                    (format! [str! "failed to encode process event: "; m]))
                  end);
  _ ← append_record encoded;
  modify (push_entry {| first_sequence := first_sequence; last_sequence := last_sequence;
                        offset := file_length state; length_ := N.of_nat (length encoded);
                        output_bytes := output_bytes |}).

Definition mark_started (now : N) : M Journal N :=
  _ ← modify (λ s, set_started_at now (set_state Running s));
  _ ← append_locked now EvStarted;
  mret now.

Definition append_output (now : N) (stream : ProcessOutputStream) (data : bytes) : M Journal unit :=
  s ← get_state;
  if closed s then mret tt else append_locked now (EvOutput stream data).

Definition mark_exited_locked (now : N) (code : Z) (final_state : ExecutionState) : M Journal unit :=
  s ← get_state;
  if is_terminal (state s) then mret tt
  else
    _ ← modify (λ s, set_exit_code code (set_state final_state s));
    append_locked now (EvExited code).
Definition mark_exited := mark_exited_locked.

(** [now] stamps the event, [instant] the monotonic clock. *)
Definition close_locked (now instant : N) : M Journal unit :=
  s ← get_state;
  if closed s then mret tt
  else
    _ ← append_locked now EvClosed;
    modify (set_closed instant).
Definition close := close_locked.

Definition finish_exited (now : N) (code : Z) (final_state : ExecutionState) (now' instant : N)
  : M Journal unit :=
  _ ← mark_exited_locked now code final_state;
  close_locked now' instant.

Definition finish_failed (now : N) (message : str) (now' instant : N) : M Journal unit :=
  s ← get_state;
  if closed s then mret tt
  else
    _ ← modify (set_state Failed);
    _ ← append_locked now (EvFailed message);
    _ ← append_locked now' EvClosed;
    modify (set_closed instant).

Definition handle (j : Journal) : ExecutionState * option N := (state (js j), started_at (js j)).
Definition is_running (j : Journal) : bool := negb (is_terminal (state (js j))).
(** [finished_at.map(|finished| finished.elapsed())]. *)
Definition finished_for (instant : N) (j : Journal) : option N :=
  (λ finished, u64_sat_sub instant finished) <$> finished_at (js j).

(** *** Reading *)

(** The bytes of an output entry before the cursor. *)
Definition already_read (after_sequence : N) (e : JournalEntry) : N :=
  if (after_sequence <? first_sequence e)%N then 0%N
  else N.min (u64_sat_add (u64_sat_sub after_sequence (first_sequence e)) 1) (output_bytes e).

(** The selection loop over the entries past the cursor. *)
Fixpoint select_entries (after_sequence max_bytes selected_bytes : N) (es : list JournalEntry)
  : list SelectedEntry :=
  match es with
  | [] => []
  | e :: es =>
    if (output_bytes e =? 0)%N then
      {| journal := e; output_offset := 0; output_length := 0; returned_sequence := last_sequence e |}
        :: select_entries after_sequence max_bytes selected_bytes es
    else
      let already := already_read after_sequence e in
      let available := u64_sat_sub (output_bytes e) already in
      let remaining := u64_sat_sub max_bytes selected_bytes in
      if (remaining =? 0)%N then []
      else
        let selected_length := N.min available remaining in
        {| journal := e; output_offset := N.to_nat already; output_length := N.to_nat selected_length;
           returned_sequence :=
             u64_sat_sub (u64_sat_add (u64_sat_add (first_sequence e) already) selected_length) 1 |}
          :: (if (selected_length <? available)%N then []
              else select_entries after_sequence max_bytes
                     (u64_sat_add selected_bytes selected_length) es)
  end.

Definition set_event (seq : N) (k : ProcessEventKind) (e : ProcessEvent) : ProcessEvent :=
  {| sequence := seq; timestamp := timestamp e; event := k |}.

(** Seeking to a record, reading it whole, decoding it, and cutting its output. *)
Definition read_selected (eof : IoError) (j : Journal) (sel : SelectedEntry)
  : ExecutionResult ProcessEvent :=
  let e := journal sel in
  let encoded := take (N.to_nat (length_ e)) (drop (N.to_nat (offset e)) (file j)) in
  if (length encoded <? N.to_nat (length_ e)) then Err (io_error (journal_path j) eof)
  else
    ev ← (match decode_event encoded with
          | inr ev => Ok ev
          | inl m => Err (supervisor_error Internal (format! [str! "process journal is corrupt: "; m]))
          end);
    k ← (match event ev with
         | EvOutput stream data =>
           cut ← slice data (output_offset sel) (output_offset sel + output_length sel);
           Ok (EvOutput stream cut)
         | k => Ok k
         end);
    Ok (set_event (returned_sequence sel) k ev).

Fixpoint read_events (eof : IoError) (j : Journal) (sels : list SelectedEntry)
  : ExecutionResult (list ProcessEvent) :=
  match sels with
  | [] => Ok []
  | s :: sels => e ← read_selected eof j s; es ← read_events eof j sels; Ok (e :: es)
  end.

Definition cursor_ahead (after_sequence last : N) : ExecutionError :=
  supervisor_error InvalidRequest
    (format! [str! "process cursor "; show_N after_sequence;
              str! " is ahead of latest sequence "; show_N last]).

Definition select_now (after_sequence max_bytes : N) (s : JournalState) : list SelectedEntry :=
  select_entries after_sequence max_bytes 0
    (filter (λ e, after_sequence < last_sequence e)%N (entries s)).

(** [open_fails] is how opening the file for reading fails, when it does; [eof]
    is the error of reading past its end. *)
Definition read_now (open_fails : option IoError) (eof : IoError)
    (after_sequence max_bytes : N) (j : Journal) : ExecutionResult ReadExecutionResult :=
  let s := js j in
  let latest := u64_sat_sub (next_sequence s) 1 in
  if (latest <? after_sequence)%N then Err (cursor_ahead after_sequence latest)
  else
    let selected := select_now after_sequence max_bytes s in
    events ← (match selected, open_fails with
              | _ :: _, Some e => Err (io_error (journal_path j) e)
              | _, _ => read_events eof j selected
              end);
    Ok {| rx_events := events;
          rx_next_sequence := default after_sequence (sequence <$> last events);
          rx_state := state s;
          rx_exit_code := exit_code s |}.

(** [read]: the journal may change while the caller waits; [j'] is its value
    when the wait ends. *)
Definition read (open_fails : option IoError) (eof : IoError)
    (after_sequence max_bytes : N) (wait : option N) (j j' : Journal)
  : ExecutionResult ReadExecutionResult :=
  r ← read_now open_fails eof after_sequence max_bytes j;
  if negb (bool_decide (rx_events r = [])) || closed (js j) || bool_decide (wait = None)
  then Ok r
  else read_now open_fails eof after_sequence max_bytes j'.
End journal.

(** * Specification

    The abstract journal is the list of appended events with their encodings;
    its sequence numbers, index and file are functions of that list. *)
Definition span (k : ProcessEventKind) : N := N.max (event_output_bytes k) 1.
Abbreviation log := (list (ProcessEvent * bytes)).

Fixpoint log_next (seq : N) (l : log) : N :=
  match l with [] => seq | (ev, _) :: l => log_next (seq + span (event ev))%N l end.
Fixpoint log_index (seq off : N) (l : log) : list JournalEntry :=
  match l with
  | [] => []
  | (ev, b) :: l =>
    {| first_sequence := seq; last_sequence := (seq + span (event ev) - 1)%N; offset := off;
       length_ := N.of_nat (length b); output_bytes := event_output_bytes (event ev) |}
      :: log_index (seq + span (event ev))%N (off + N.of_nat (length b) + 1)%N l
  end.
Definition log_file (l : log) : bytes := l ≫= λ '(_, b), b ++ [NL].
Fixpoint log_ok `{!JournalCodec} (seq : N) (l : log) : Prop :=
  match l with
  | [] => True
  | (ev, b) :: l =>
    encode_event ev = inr b ∧ sequence ev = (seq + span (event ev) - 1)%N
    ∧ log_ok (seq + span (event ev))%N l
  end.

(** The concrete journal represents the log, with no counter saturated. *)
Record journal_repr `{!JournalCodec} (j : Journal) (l : log) : Prop := {
  jr_ok : log_ok 1 l;
  jr_file : file j = log_file l;
  jr_entries : entries (js j) = log_index 1 0 l;
  jr_next : next_sequence (js j) = log_next 1 l;
  jr_length : file_length (js j) = N.of_nat (length (file j));
  jr_next_u64 : in_u64 (next_sequence (js j));
  jr_length_u64 : in_u64 (file_length (js j));
}.

(** The journal as a stream of units, one per sequence number: a byte of output,
    or a whole event without output. *)
Inductive stream_unit := UByte (s : ProcessOutputStream) (b : N) | UEvent (k : ProcessEventKind).
Fixpoint number {A} (n : N) (l : list A) : list (N * A) :=
  match l with [] => [] | x :: l => (n, x) :: number (n + 1)%N l end.
Definition units_of (ev : ProcessEvent) : list (N * (N * stream_unit)) :=
  match event ev with
  | EvOutput s ((_ :: _) as data) =>
    number (sequence ev + 1 - N.of_nat (length data))%N ((λ b, (timestamp ev, UByte s b)) <$> data)
  | k => [(sequence ev, (timestamp ev, UEvent k))]
  end.
Definition log_units (l : log) : list (N * (N * stream_unit)) := l ≫= λ '(ev, _), units_of ev.
(** The units a cursor has not covered. *)
Definition after {A} (c : N) (us : list (N * A)) : list (N * A) := filter (λ u, c < u.1)%N us.

Definition output_total (evs : list ProcessEvent) : N :=
  foldr (λ ev n, (event_output_bytes (event ev) + n)%N) 0%N evs.

(** ** Units *)

Lemma number_app {A} n (l1 l2 : list A) :
  number n (l1 ++ l2) = number n l1 ++ number (n + N.of_nat (length l1))%N l2.
Proof.
  revert n. induction l1 as [|x l1 IH]; intros n; cbn [app number length]; [by rewrite N.add_0_r|].
  rewrite IH. do 3 f_equal. lia.
Qed.
Lemma length_number {A} n (l : list A) : length (number n l) = length l.
Proof. revert n. induction l as [|x l IH]; intros n; [done|]. cbn [number length]. by rewrite IH. Qed.
Lemma after_number_all {A} c n (l : list A) : (c < n)%N → after c (number n l) = number n l.
Proof.
  revert n. induction l as [|x l IH]; intros n Hn; [done|]. cbn [number]. unfold after in *.
  rewrite filter_cons_True by done. f_equal. apply IH. lia.
Qed.
Lemma after_number_none {A} c n (l : list A) :
  (n + N.of_nat (length l) ≤ c + 1)%N → after c (number n l) = [].
Proof.
  revert n. induction l as [|x l IH]; intros n Hn; [done|]. cbn [number length] in *. unfold after in *.
  rewrite filter_cons_False by (simpl; lia). apply IH. lia.
Qed.
Lemma after_app {A} c (l1 l2 : list (N * A)) : after c (l1 ++ l2) = after c l1 ++ after c l2.
Proof. apply filter_app. Qed.

Lemma span_pos k : (1 ≤ span k)%N.
Proof. unfold span. lia. Qed.
Lemma log_next_ge seq l : (seq ≤ log_next seq l)%N.
Proof.
  revert seq. induction l as [|[ev b] l IH]; intros seq; cbn [log_next]; [done|].
  pose proof (IH (seq + span (event ev))%N). lia.
Qed.
Lemma log_next_app seq l1 l2 : log_next seq (l1 ++ l2) = log_next (log_next seq l1) l2.
Proof. revert seq. induction l1 as [|[ev b] l1 IH]; intros seq; [done|]. apply IH. Qed.

(** An event's units are numbered from its first sequence to its last. *)
Lemma units_of_number ev seq :
  sequence ev = (seq + span (event ev) - 1)%N →
  ∃ us, units_of ev = number seq us ∧ N.of_nat (length us) = span (event ev).
Proof.
  intros Hs. pose proof (span_pos (event ev)). unfold units_of, span in *.
  destruct (event ev) as [|s data| | |]; cbn [event_output_bytes] in *.
  2: destruct data as [|b data]; cycle 1.
  2: { exists ((λ b, (timestamp ev, UByte s b)) <$> b :: data). rewrite length_fmap. split; [|simpl; lia].
       f_equal. simpl in *. lia. }
  all: assert (sequence ev = seq) as -> by (simpl in *; lia); by eexists [_].
Qed.

Section units.
Context {codec : JournalCodec}.
Lemma log_units_after_all c seq l : log_ok seq l → (c < seq)%N → after c (log_units l) = log_units l.
Proof.
  revert seq. induction l as [|[ev b] l IH]; intros seq Hok Hc; [done|].
  destruct Hok as (_ & Hs & Hok). unfold log_units. cbn [mbind list_bind]. rewrite after_app.
  destruct (units_of_number ev seq Hs) as (us & -> & _).
  rewrite after_number_all by done. f_equal. eapply IH; [done|]. lia.
Qed.
Lemma log_units_after_none c seq l :
  log_ok seq l → (log_next seq l ≤ c + 1)%N → after c (log_units l) = [].
Proof.
  revert seq. induction l as [|[ev b] l IH]; intros seq Hok Hc; [done|].
  destruct Hok as (_ & Hs & Hok). unfold log_units. cbn [mbind list_bind log_next] in *.
  rewrite after_app. destruct (units_of_number ev seq Hs) as (us & -> & Hus).
  pose proof (log_next_ge (seq + span (event ev))%N l).
  rewrite after_number_none by lia. eapply IH; [done|]. done.
Qed.
End units.

(** ** Reading *)

Section reading.
Context {codec : JournalCodec} {laws : JournalCodecLaws}.
Context (eof : IoError) (j : Journal).

Definition cut_kind (from len : nat) (k : ProcessEventKind) : ProcessEventKind :=
  match k with EvOutput s data => EvOutput s (take len (drop from data)) | k => k end.

Lemma read_selected_ok pre b post ev e from len seq :
  file j = pre ++ (b ++ [NL]) ++ post → encode_event ev = inr b →
  offset e = N.of_nat (length pre) → length_ e = N.of_nat (length b) →
  (N.of_nat (from + len) ≤ event_output_bytes (event ev))%N →
  read_selected eof j {| journal := e; output_offset := from; output_length := len;
                         returned_sequence := seq |}
  = Ok (set_event seq (cut_kind from len (event ev)) ev).
Proof.
  intros Hf He Ho Hl Hle. unfold read_selected. cbn [journal output_offset output_length returned_sequence].
  rewrite Ho, Hl, !Nat2N.id, Hf, drop_app_length, <-(assoc_L (++)), take_app_length.
  rewrite (proj2 (Nat.ltb_ge _ _)) by lia. rewrite (decode_encode _ _ He). step_result.
  destruct (event ev) as [|s data| | |]; try done. cbn [event_output_bytes cut_kind] in *.
  rewrite slice_ok by lia. step_result. do 4 f_equal. lia.
Qed.

(** What a page returned past the cursor [c] is, for a log numbered from [seq]. *)
Fixpoint ascending (c : N) (l : list N) : Prop :=
  match l with [] => True | x :: l => (c < x)%N ∧ ascending x l end.
Record page_ok (c budget seq : N) (l : log) (evs : list ProcessEvent) : Prop := {
  pg_units : after c (log_units l)
    = (evs ≫= units_of) ++ after (default c (sequence <$> last evs)) (log_units l);
  pg_total : (output_total evs ≤ budget)%N;
  pg_next : evs ≠ [] → (N.max seq (c + 1) ≤ default c (sequence <$> last evs) < log_next seq l)%N;
  pg_progress : evs = [] → budget = 0%N ∨ after c (log_units l) = [];
  pg_ascending : ascending (N.max c (seq - 1)) (sequence <$> evs);
}.

(** Putting an event in front of a page of the rest of the log. *)
Lemma page_cons c budget budget' seq ev b l evs ev' :
  log_ok seq ((ev, b) :: l) → (c < seq + span (event ev) - 1)%N →
  page_ok c budget' (seq + span (event ev)) l evs →
  sequence ev' = sequence ev → units_of ev' = after c (units_of ev) →
  (event_output_bytes (event ev') + budget' ≤ budget)%N →
  page_ok c budget seq ((ev, b) :: l) (ev' :: evs).
Proof.
  intros (He & Hs & Hok) Hc [Hu Ht Hn Hp Has] Hseq Hunits Hb.
  destruct (units_of_number ev seq Hs) as (us & Hus & Hlen). pose proof (span_pos (event ev)).
  assert (Hlast : default c (sequence <$> last (ev' :: evs))
                  = match evs with [] => sequence ev' | _ => default c (sequence <$> last evs) end)
    by by destruct evs.
  assert (Hge : (seq + span (event ev) - 1 ≤ default c (sequence <$> last (ev' :: evs)))%N).
  { rewrite Hlast. destruct evs; [lia|]. specialize (Hn ltac:(done)). lia. }
  pose proof (log_next_ge (seq + span (event ev))%N l). cbn [log_next].
  split; [|cbn [output_total foldr]; unfold output_total in Ht; lia| |done
         |cbn [fmap list_fmap ascending]; split; [lia|];
          by replace (sequence ev') with (N.max c (seq + span (event ev) - 1)) by lia].
  - unfold log_units. cbn [mbind list_bind]. rewrite !after_app.
    rewrite Hus at 2. rewrite (after_number_none (default c _)) by lia. cbn [app].
    rewrite Hunits, <-(assoc_L (++)). f_equal. fold (log_units l). rewrite Hu at 1. f_equal.
    rewrite Hlast. destruct evs as [|ev2 evs]; [|done]. cbn [last fmap option_fmap option_map default].
    rewrite !(log_units_after_all _ (seq + span (event ev))) by (done || lia). done.
  - intros _. cbn [log_next]. split; [|rewrite Hlast].
    + lia.
    + destruct evs; [lia|]. specialize (Hn ltac:(done)). lia.
Qed.
(** A page that ends inside an event. *)
Lemma page_partial c budget seq ev b l ev' us1 us2 :
  log_ok seq ((ev, b) :: l) → after c (units_of ev) = us1 ++ us2 → us1 ≠ [] →
  units_of ev' = us1 → after (sequence ev') (units_of ev) = us2 →
  (N.max seq (c + 1) ≤ sequence ev' < seq + span (event ev))%N →
  (event_output_bytes (event ev') ≤ budget)%N →
  page_ok c budget seq ((ev, b) :: l) [ev'].
Proof.
  intros (He & Hs & Hok) Hu Hne Hu1 Hu2 Hseq Hb.
  pose proof (log_next_ge (seq + span (event ev))%N l).
  split; change (default c (sequence <$> last [ev'])) with (sequence ev');
    cbn [log_next output_total foldr]; [|lia|intros _; lia|done
         |cbn [fmap list_fmap ascending]; split; [lia|done]].
  unfold log_units. cbn [mbind list_bind]. rewrite !after_app, Hu, Hu2, Hu1, app_nil_r.
  rewrite <-(assoc_L (++)). do 2 f_equal. fold (log_units l).
  by rewrite !(log_units_after_all _ (seq + span (event ev))) by (done || lia).
Qed.
Lemma page_skip c budget seq ev b l evs :
  log_ok seq ((ev, b) :: l) → (seq + span (event ev) ≤ c + 1)%N →
  page_ok c budget (seq + span (event ev)) l evs → page_ok c budget seq ((ev, b) :: l) evs.
Proof.
  intros (He & Hs & Hok) Hc [Hu Ht Hn Hp Has].
  destruct (units_of_number ev seq Hs) as (us & Hus & Hlen).
  assert (Hge : (c ≤ default c (sequence <$> last evs))%N).
  { destruct evs as [|e evs]; [done|]. specialize (Hn ltac:(done)). lia. }
  split; [|done| | |by replace (N.max c (seq - 1)) with (N.max c (seq + span (event ev) - 1)) by lia].
  - unfold log_units. cbn [mbind list_bind]. rewrite !after_app, Hus.
    rewrite !after_number_none by lia. exact Hu.
  - intros Hne. specialize (Hn Hne). cbn [log_next]. pose proof (span_pos (event ev)). lia.
  - intros [?|Hnil]%Hp; [by left|right]. unfold log_units. cbn [mbind list_bind].
    rewrite after_app, Hus, after_number_none by lia. exact Hnil.
Qed.

(** *** Cutting an output event *)

Definition byte_unit (ev : ProcessEvent) (s : ProcessOutputStream) (b : N) : N * stream_unit :=
  (timestamp ev, UByte s b).
Lemma units_of_output ev s data first :
  event ev = EvOutput s data → data ≠ [] → sequence ev = (first + N.of_nat (length data) - 1)%N →
  units_of ev = number first (byte_unit ev s <$> data).
Proof.
  intros He Hne Hs. unfold units_of. rewrite He. destruct data as [|b data]; [done|].
  rewrite Hs. f_equal. simpl. lia.
Qed.
Lemma after_output c first (us : list (N * stream_unit)) :
  (c < first + N.of_nat (length us))%N →
  after c (number first us) = number (first + (c + 1 - first))%N (drop (N.to_nat (c + 1 - first)) us).
Proof.
  intros Hc. rewrite <-(take_drop (N.to_nat (c + 1 - first)) us) at 1.
  assert (Hl : length (take (N.to_nat (c + 1 - first)) us) = N.to_nat (c + 1 - first))
    by (rewrite length_take; lia).
  rewrite number_app, after_app, Hl, N2Nat.id.
  destruct (decide (first ≤ c)%N).
  - rewrite after_number_none, after_number_all by lia. done.
  - replace (c + 1 - first)%N with 0%N by lia. rewrite N.add_0_r.
    change (N.to_nat 0) with 0. rewrite take_0, drop_0. cbn [number].
    rewrite (after_number_all c first us) by lia. done.
Qed.
Lemma already_read_eq c e :
  in_u64 (last_sequence e) → (c < last_sequence e)%N → last_sequence e = (first_sequence e + output_bytes e - 1)%N →
  already_read c e = (c + 1 - first_sequence e)%N.
Proof.
  unfold already_read, u64_sat_sub, in_u64. intros Hc Hlt Hl.
  destruct (N.ltb_spec c (first_sequence e)); [lia|].
  rewrite u64_sat_add_small; unfold in_u64; lia.
Qed.

Lemma select_page c max l seq pre sb :
  log_ok seq l → file j = pre ++ log_file l → in_u64 (log_next seq l) → (1 ≤ seq)%N →
  in_u64 c → in_u64 max → (sb ≤ max)%N →
  ∃ evs, read_events eof j
           (select_entries c max sb
              (filter (λ e, c < last_sequence e)%N (log_index seq (N.of_nat (length pre)) l))) = Ok evs
    ∧ page_ok c (max - sb) seq l evs.
Proof.
  revert seq pre sb. induction l as [|[ev b] l IH]; intros seq pre sb Hok Hf Hu Hseq Hc Hmax Hsb.
  { exists []. split; [done|]. split; [done|cbn; lia|done|by right|done]. }
  pose proof Hok as (He & Hs & Hok'). cbn [log_next] in Hu.
  assert (Hf' : file j = (pre ++ b ++ [NL]) ++ log_file l).
  { rewrite Hf. unfold log_file. cbn [mbind list_bind]. by rewrite <-!(assoc_L (++)). }
  assert (Hoff : (N.of_nat (length pre) + N.of_nat (length b) + 1)%N
                 = N.of_nat (length (pre ++ b ++ [NL]))) by (rewrite !length_app; simpl; lia).
  cbn [log_index]. rewrite Hoff. rewrite <-(assoc_L (++)) in Hf'.
  set (e := {| first_sequence := seq |}).
  destruct (decide (c < last_sequence e)%N) as [Hlt|Hlt]; cycle 1.
  { rewrite filter_cons_False by done. cbn [last_sequence e] in Hlt. pose proof (span_pos (event ev)).
    destruct (IH (seq + span (event ev))%N (pre ++ b ++ [NL]) sb) as (evs & Hr & Hp);
      [done|by rewrite <-(assoc_L (++))|done|lia|done..|].
    exists evs. split; [done|]. apply page_skip; [done|lia|done]. }
  rewrite filter_cons_True by done. cbn [last_sequence e] in Hlt.
  assert (Hsel : ∀ from len rs, (N.of_nat (from + len) ≤ event_output_bytes (event ev))%N →
    read_selected eof j {| journal := e; output_offset := from; output_length := len;
                           returned_sequence := rs |}
    = Ok (set_event rs (cut_kind from len (event ev)) ev)).
  { intros from len rs Hle. by apply (read_selected_ok pre b (log_file l)). }
  cbn [select_entries].
  destruct (N.eqb_spec (output_bytes e) 0) as [Hz|Hnz]; cbn [output_bytes e] in *.
  - (* an event without output: one unit *)
    assert (Hspan : span (event ev) = 1%N) by (unfold span; lia).
    destruct (IH (seq + span (event ev))%N (pre ++ b ++ [NL]) sb) as (evs & Hr & Hp);
      [done|by rewrite <-(assoc_L (++))|done|lia|done..|].
    cbn [read_events]. rewrite Hsel by lia. step_result. rewrite Hr. step_result.
    eexists. split; [done|].
    assert (Hev : set_event (last_sequence e) (cut_kind 0 0 (event ev)) ev = ev).
    { cbn [last_sequence e]. destruct ev as [s t k]. cbn in *. unfold set_event. cbn. f_equal; [done|].
      destruct k as [|st [|? ?]| | |]; try done. }
    rewrite Hev. eapply page_cons; [done|lia|exact Hp|done| |lia].
    destruct (units_of_number ev seq Hs) as (us & -> & Hlen). rewrite after_number_all by lia. done.
  - (* an output event: the bytes past the cursor that fit the budget *)
    assert (∃ s data, event ev = EvOutput s data ∧ data ≠ []) as (s & data & Hev & Hdata).
    { destruct (event ev) as [|s [|? ?]| | |]; try done. by eexists _, _. }
    assert (Hspan : span (event ev) = N.of_nat (length data)).
    { unfold span. rewrite Hev. cbn. destruct data; [done|simpl; lia]. }
    assert (Hal : already_read c e = (c + 1 - seq)%N).
    { apply already_read_eq; cbn [last_sequence first_sequence output_bytes e].
      - pose proof (log_next_ge (seq + span (event ev))%N l). unfold in_u64 in *. lia.
      - done.
      - rewrite Hspan, Hev. cbn. lia. }
    rewrite Hspan in *. rewrite Hev in Hnz, Hsel |- *. cbn [event_output_bytes] in *.
    pose proof (log_next_ge (seq + N.of_nat (length data))%N l) as Hge.
    rewrite Hal. unfold u64_sat_sub. cbn [first_sequence e]. set (a := (c + 1 - seq)%N) in *.
    assert (Ha : (a < N.of_nat (length data))%N) by lia.
    destruct (N.eqb_spec (max - sb) 0) as [Hz|Hrem].
    { exists []. split; [done|]. split; [done|cbn; lia|done|by left|done]. }
    set (k := N.min (N.of_nat (length data) - a) (max - sb)) in *.
    assert (Hk : (1 ≤ k ∧ a + k ≤ N.of_nat (length data))%N) by lia.
    unfold in_u64 in Hu, Hmax. rewrite (u64_sat_add_small seq a) by (unfold in_u64; lia).
    rewrite (u64_sat_add_small (seq + a) k), (u64_sat_add_small sb k) by (unfold in_u64; lia).
    set (cut := EvOutput s (take (N.to_nat k) (drop (N.to_nat a) data))).
    cbn [read_events]. rewrite Hsel by lia. cbn [cut_kind]. fold cut. step_result.
    set (ev' := set_event (seq + a + k - 1) cut ev).
    assert (Hcut : length (take (N.to_nat k) (drop (N.to_nat a) data)) = N.to_nat k)
      by (rewrite length_take, length_drop; lia).
    assert (Hu1 : units_of ev' = number (seq + a) (byte_unit ev s <$> take (N.to_nat k) (drop (N.to_nat a) data))).
    { apply (units_of_output ev' s); [done| |cbn [ev' set_event sequence]; rewrite Hcut; lia].
      intros Hnil. rewrite Hnil in Hcut. simpl in Hcut. lia. }
    assert (Hu0 : units_of ev = number seq (byte_unit ev s <$> data)) by (by apply units_of_output).
    assert (Hafter : after c (units_of ev) = units_of ev'
      ++ number (seq + a + k) (byte_unit ev s <$> drop (N.to_nat (a + k)) data)).
    { rewrite Hu0, after_output by (rewrite length_fmap; lia). fold a. rewrite <-fmap_drop, Hu1.
      rewrite <-(take_drop (N.to_nat k) (drop (N.to_nat a) data)) at 1.
      rewrite fmap_app, number_app, length_fmap, Hcut, N2Nat.id, drop_drop.
      by replace (N.to_nat a + N.to_nat k) with (N.to_nat (a + k)) by lia. }
    assert (Hbytes : event_output_bytes (event ev') = k) by (cbn; rewrite Hcut; lia).
    destruct (N.ltb_spec k (N.of_nat (length data) - a)) as [Hpart|Hfull].
    + (* the page ends inside the event *)
      cbn [read_events]. step_result. eexists. split; [done|].
      eapply page_partial; [done|exact Hafter| |done| |rewrite Hspan; cbn; lia|lia].
      * intros Hnil. apply (f_equal length) in Hnil.
        rewrite Hu1, length_number, length_fmap, Hcut in Hnil. simpl in Hnil. lia.
      * rewrite Hu0, after_output by (cbn; rewrite length_fmap; lia). cbn [ev' set_event sequence].
        rewrite <-fmap_drop. replace (seq + a + k - 1 + 1 - seq)%N with (a + k)%N by lia.
        f_equal; lia.
    + (* the whole rest of the event fits *)
      destruct (IH (seq + N.of_nat (length data))%N (pre ++ b ++ [NL]) (sb + k)%N) as (evs & Hr & Hp);
        [done|by rewrite <-(assoc_L (++))|done|lia|done|done|lia|].
      rewrite Hr. step_result. eexists. split; [done|].
      eapply page_cons; [done|rewrite Hspan; lia|rewrite Hspan; exact Hp| | |rewrite Hbytes; lia].
      * cbn. rewrite Hs. lia.
      * rewrite Hafter, drop_ge by lia. cbn. by rewrite app_nil_r.
Qed.
End reading.

(** ** Appending *)

Section appending.
Context {codec : JournalCodec}.

Lemma log_index_app seq off l1 l2 :
  log_index seq off (l1 ++ l2)
  = log_index seq off l1 ++ log_index (log_next seq l1) (off + N.of_nat (length (log_file l1)))%N l2.
Proof.
  revert seq off. induction l1 as [|[ev b] l1 IH]; intros seq off.
  { cbn [app log_index log_next log_file mbind list_bind length]. by rewrite N.add_0_r. }
  cbn [app log_index log_next]. rewrite IH. do 3 f_equal.
  unfold log_file. cbn [mbind list_bind]. rewrite !length_app. simpl. lia.
Qed.
Lemma log_ok_app seq l1 l2 : log_ok seq (l1 ++ l2) ↔ log_ok seq l1 ∧ log_ok (log_next seq l1) l2.
Proof.
  revert seq. induction l1 as [|[ev b] l1 IH]; intros seq; cbn [app log_ok log_next]; [naive_solver|].
  rewrite IH. naive_solver.
Qed.
Lemma log_file_app l1 l2 : log_file (l1 ++ l2) = log_file l1 ++ log_file l2.
Proof. apply bind_app. Qed.

(** The event [append_locked] makes of its arguments. *)
Definition next_event (j : Journal) (t : N) (k : ProcessEventKind) : ProcessEvent :=
  {| sequence := next_sequence (js j) + span k - 1; timestamp := t; event := k |}.
Definition same_status (s s' : JournalState) : Prop :=
  state s' = state s ∧ started_at s' = started_at s ∧ exit_code s' = exit_code s
  ∧ finished_at s' = finished_at s ∧ closed s' = closed s.

Lemma append_locked_ok j l t k j' :
  journal_repr j l → append_locked t k j = (Ok tt, j') →
  in_u64 (next_sequence (js j) + span k) → in_u64 (N.of_nat (length (file j'))) →
  ∃ b, journal_repr j' (l ++ [(next_event j t k, b)]) ∧ same_status (js j) (js j').
Proof.
  intros [Hok Hf He Hn Hl Hu1 Hu2] H Hb1 Hb2. unfold append_locked in H.
  apply M_bind_ok_inv in H as (s & j1 & Hs & H). injection Hs as <- <-. cbv zeta in H.
  pose proof (span_pos k) as Hspan. unfold in_u64 in *.
  assert (Hlast : u64_sat_add (next_sequence (js j)) (u64_sat_sub (N.max (event_output_bytes k) 1) 1)
                  = (next_sequence (js j) + span k - 1)%N).
  { unfold span, u64_sat_sub in *. rewrite u64_sat_add_small by (unfold in_u64; lia). lia. }
  rewrite Hlast in H. fold (next_event j t k) in H.
  apply M_bind_ok_inv in H as (b & j1 & Hb & H). injection Hb as Hb <-.
  destruct (encode_event (next_event j t k)) as [m|b'] eqn:Eb; [done|]. injection Hb as ->.
  apply M_bind_ok_inv in H as ([] & j1 & Ha & H). injection H as <-.
  assert (Hj1 : js j1 = js j ∧ file j1 = file j ++ b ++ [NL]).
  { unfold append_record in Ha. destruct (outcomes j) as [|[] outs];
      try discriminate Ha; injection Ha as <-; done. }
  destruct Hj1 as [Hjs Hf1]. exists b. cbn [set_js file] in Hb2. rewrite Hf1, !length_app in Hb2. simpl in Hb2.
  assert (Hfl : u64_sat_add (u64_sat_add (file_length (js j)) (N.of_nat (length b))) 1
                = (file_length (js j) + N.of_nat (length b) + 1)%N).
  { rewrite (u64_sat_add_small (file_length _)), u64_sat_add_small; unfold in_u64; lia. }
  split; [|by rewrite Hjs]. split; cbn [set_js js file push_entry next_sequence entries file_length last_sequence length_].
  - apply log_ok_app. split; [done|]. cbn. by rewrite Hn.
  - rewrite Hf1, Hf, log_file_app. cbn. by rewrite app_nil_r.
  - rewrite Hjs, He, log_index_app, <-Hn, <-Hf. cbn [log_index]. do 3 f_equal. by rewrite Hl.
  - rewrite u64_sat_add_small by (unfold in_u64; lia). rewrite log_next_app, <-Hn. cbn. lia.
  - rewrite Hjs, Hfl, Hf1, !length_app. simpl. lia.
  - rewrite u64_sat_add_small; unfold in_u64; lia.
  - rewrite Hjs, Hfl. unfold in_u64. lia.
Qed.
End appending.

(** ** Life cycle *)

(** The journal has not run into the end of the 64-bit ranges. *)
Definition fits (j : Journal) : Prop :=
  (next_sequence (js j) < u64_max)%N ∧ in_u64 (N.of_nat (length (file j))).

Definition is_exit (k : ProcessEventKind) : bool := match k with EvExited _ => true | _ => false end.
Definition is_close (k : ProcessEventKind) : bool := match k with EvClosed => true | _ => false end.
Definition kinds (l : log) : list ProcessEventKind := (λ '(ev, _), event ev) <$> l.

(** What the events recorded say about the state: at most one exit, whose code is
    the recorded one; a close event exactly when closed, then the last one, and
    only after a terminal state. *)
Record lifecycle_ok (s : JournalState) (ks : list ProcessEventKind) : Prop := {
  lc_exit : match exit_code s with
            | Some c => filter is_exit ks = [EvExited c]
            | None => filter is_exit ks = []
            end;
  lc_exit_terminal : is_Some (exit_code s) → is_terminal (state s) = true;
  lc_close : if closed s then ∃ ks', ks = ks' ++ [EvClosed] ∧ filter is_close ks' = []
             else filter is_close ks = [];
  lc_closed_terminal : closed s = true → is_terminal (state s) = true;
}.

Section lifecycle.
Context {codec : JournalCodec}.

(** One successful operation after the start, as the process manager issues them:
    an exit is recorded with a terminal state, and a journal is closed after
    its exit. *)
Inductive jstep (j j' : Journal) : Prop :=
  | js_output now s data : append_output now s data j = (Ok tt, j') → fits j' → jstep j j'
  | js_exit now code st :
      is_terminal st = true → mark_exited now code st j = (Ok tt, j') → fits j' → jstep j j'
  | js_close now instant :
      is_terminal (state (js j)) = true → close now instant j = (Ok tt, j') → fits j' → jstep j j'
  | js_finish now code st now' instant :
      is_terminal st = true → finish_exited now code st now' instant j = (Ok tt, j') → fits j' → jstep j j'
  | js_failed now m now' instant :
      finish_failed now m now' instant j = (Ok tt, j') → fits j' → jstep j j'.
(** A journal whose process was started. *)
Inductive started : Journal → Prop :=
  | started_init path outs now j :
      mark_started now (create path outs) = (Ok now, j) → fits j → started j
  | started_step j j' : started j → jstep j j' → started j'.

(** The journal represents a log in order, which extends [base]. *)
Definition journal_inv (base : log) (j : Journal) : Prop :=
  ∃ l, base `prefix_of` l ∧ journal_repr j l ∧ lifecycle_ok (js j) (kinds l).

Lemma append_locked_fits j l t k j' :
  journal_repr j l → append_locked t k j = (Ok tt, j') → fits j' →
  ∃ b, journal_repr j' (l ++ [(next_event j t k, b)]) ∧ same_status (js j) (js j').
Proof.
  intros Hrep H [Hn Hl]. eapply append_locked_ok; [done..| |done].
  destruct Hrep as [_ _ _ _ _ Hu _]. unfold append_locked in H.
  apply M_bind_ok_inv in H as (s & j1 & Hs & H). injection Hs as <- <-. cbv zeta in H.
  apply M_bind_ok_inv in H as (b & j2 & _ & H). apply M_bind_ok_inv in H as ([] & j3 & _ & H).
  injection H as <-. cbn [set_js js push_entry next_sequence last_sequence] in Hn.
  unfold u64_sat_add, u64_sat_sub, in_u64, span in *. lia.
Qed.
(** Later appends only grow the journal. *)
Lemma append_locked_mono t k j j' :
  append_locked t k j = (Ok tt, j') → fits j' → fits j.
Proof.
  intros H [Hn Hl]. unfold append_locked in H.
  apply M_bind_ok_inv in H as (s & j1 & Hs & H). injection Hs as <- <-. cbv zeta in H.
  apply M_bind_ok_inv in H as (b & j2 & Hb & H). injection Hb as _ <-.
  apply M_bind_ok_inv in H as ([] & j3 & Ha & H). injection H as <-.
  cbn [set_js js file push_entry next_sequence last_sequence] in *.
  assert (length (file j) ≤ length (file j3)).
  { unfold append_record in Ha. destruct (outcomes j) as [|[] outs];
      try discriminate Ha; injection Ha as <-; cbn; rewrite length_app; lia. }
  unfold fits, u64_sat_add, u64_sat_sub, in_u64 in *. lia.
Qed.

Lemma repr_modify f j l :
  (∀ s, next_sequence (f s) = next_sequence s ∧ entries (f s) = entries s
        ∧ file_length (f s) = file_length s) →
  journal_repr j l → journal_repr (set_js (f (js j)) j) l.
Proof. intros Hf [? ? ? ? ? ? ?]. destruct (Hf (js j)) as (Hn & He & Hl). split; cbn; congruence. Qed.
Lemma kinds_snoc l ev b : kinds (l ++ [(ev, b)]) = kinds l ++ [event ev].
Proof. unfold kinds. by rewrite fmap_app. Qed.

Lemma filter_snoc_no (p : ProcessEventKind → bool) ks k :
  p k = false → filter p (ks ++ [k]) = filter p ks.
Proof.
  intros Hp. rewrite filter_app, filter_cons_False by (rewrite Hp; auto). apply app_nil_r.
Qed.

(** An append that is neither an exit nor a close. *)
Lemma append_plain_inv base t k j j' :
  journal_inv base j → closed (js j) = false → is_exit k = false → is_close k = false →
  append_locked t k j = (Ok tt, j') → fits j' → journal_inv base j'.
Proof.
  intros (l & Hpre & Hrep & [He Het Hc Hct]) Hcl Hek Hck H Hfit.
  eapply append_locked_fits in H as (b & Hrep' & (Hs & _ & Hx & _ & Hcl')); [|done..].
  exists (l ++ [(next_event j t k, b)]). split; [by apply prefix_app_r|]. split; [done|]. rewrite kinds_snoc. cbn [next_event event].
  rewrite Hcl in *. split; rewrite ?Hx, ?Hs, ?Hcl', ?Hcl; [|done| |done].
  - by destruct (exit_code (js j)); rewrite (filter_snoc_no is_exit).
  - by rewrite (filter_snoc_no is_close).
Qed.
Lemma mark_exited_inv base now code st j j' :
  journal_inv base j → is_terminal st = true → mark_exited_locked now code st j = (Ok tt, j') → fits j' →
  journal_inv base j' ∧ is_terminal (state (js j')) = true.
Proof.
  intros (l & Hpre & Hrep & [He Het Hc Hct]) Hst H Hfit. unfold mark_exited_locked in H.
  apply M_bind_ok_inv in H as (s & j1 & Hs & H). injection Hs as <- <-.
  destruct (is_terminal (state (js j))) eqn:Ht.
  { injection H as <-. split; [|done]. exists l. split; [done|]. split; [done|]. by split. }
  apply M_bind_ok_inv in H as ([] & j1 & Hm & H). injection Hm as <-.
  eapply (append_locked_fits _ l) in H as (b & Hrep' & (Hs' & _ & Hx & _ & Hcl)); [| |done].
  2: by apply (repr_modify (λ s, set_exit_code code (set_state st s))).
  cbn [set_js js set_exit_code set_state exit_code state closed] in *.
  split; [|by rewrite Hs']. eexists. split; [by apply prefix_app_r|]. split; [exact Hrep'|]. rewrite kinds_snoc. cbn [next_event event].
  destruct (closed (js j)) eqn:Hcj; [by specialize (Hct eq_refl)|].
  destruct (exit_code (js j)) as [c|] eqn:Ex; [by specialize (Het ltac:(eauto))|].
  split; rewrite ?Hx, ?Hs', ?Hcl; [|done| |done].
  - by rewrite filter_app, He.
  - by rewrite filter_app, Hc.
Qed.
Lemma append_close_inv base now instant j j' :
  journal_inv base j → closed (js j) = false → is_terminal (state (js j)) = true →
  (_ ← append_locked now EvClosed; modify (set_closed instant)) j = (Ok tt, j') → fits j' →
  journal_inv base j'.
Proof.
  intros (l & Hpre & Hrep & [He Het Hc Hct]) Hcl Ht H Hfit. rewrite Hcl in Hc.
  apply M_bind_ok_inv in H as ([] & j1 & Ha & H). injection H as <-.
  eapply append_locked_fits in Ha as (b & Hrep' & (Hs & _ & Hx & _ & Hcl')); [|done|exact Hfit].
  exists (l ++ [(next_event j now EvClosed, b)]).
  split; [by apply prefix_app_r|]. split; [by apply (repr_modify (set_closed instant))|]. rewrite kinds_snoc. cbn [next_event event].
  split; cbn [set_js js set_closed exit_code state closed]; rewrite ?Hx, ?Hs; [|done| |done].
  - destruct (exit_code (js j)); by rewrite filter_app, He.
  - by exists (kinds l).
Qed.
Lemma close_inv base now instant j j' :
  journal_inv base j → is_terminal (state (js j)) = true → close_locked now instant j = (Ok tt, j') →
  fits j' → journal_inv base j'.
Proof.
  intros Hinv Ht H Hfit. unfold close_locked in H.
  apply M_bind_ok_inv in H as (s & j1 & Hs & H). injection Hs as <- <-.
  destruct (closed (js j)) eqn:Hc; [by injection H as <-|].
  by eapply append_close_inv.
Qed.
Lemma close_locked_mono now instant j j' : close_locked now instant j = (Ok tt, j') → fits j' → fits j.
Proof.
  intros H Hfit. unfold close_locked in H.
  apply M_bind_ok_inv in H as (s & j1 & Hs & H). injection Hs as <- <-.
  destruct (closed (js j)); [by injection H as <-|].
  apply M_bind_ok_inv in H as ([] & j1 & Ha & H). injection H as <-.
  by eapply append_locked_mono in Ha.
Qed.

Lemma jstep_inv base j j' : journal_inv base j → jstep j j' → journal_inv base j'.
Proof.
  intros Hinv [now s data H Hf|now code st Ht H Hf|now instant Ht H Hf
              |now code st now' instant Ht H Hf|now m now' instant H Hf].
  - unfold append_output in H. apply M_bind_ok_inv in H as (s' & j1 & Hs & H). injection Hs as <- <-.
    destruct (closed (js j)) eqn:Hc; [by injection H as <-|]. by apply (append_plain_inv base now (EvOutput s data) j).
  - by eapply mark_exited_inv.
  - by eapply close_inv.
  - unfold finish_exited in H. apply M_bind_ok_inv in H as ([] & j1 & H1 & H).
    eapply mark_exited_inv in H1 as [Hi Ht1]; [|done..|by eapply close_locked_mono].
    by eapply close_inv.
  - unfold finish_failed in H. apply M_bind_ok_inv in H as (s' & j1 & Hs & H). injection Hs as <- <-.
    destruct (closed (js j)) eqn:Hc; [by injection H as <-|].
    apply M_bind_ok_inv in H as ([] & j1 & Hm & H). injection Hm as <-.
    apply M_bind_ok_inv in H as ([] & j2 & Ha & H).
    assert (Hf2 : fits j2).
    { apply M_bind_ok_inv in H as ([] & j3 & H3 & H). injection H as <-.
      by eapply append_locked_mono in H3. }
    assert (Hi : journal_inv base (set_js (set_state Failed (js j)) j)).
    { destruct Hinv as (l & Hpre & Hrep & [He Het Hcl Hct]). exists l.
      split; [done|]. split; [by apply (repr_modify (set_state Failed))|]. split; cbn; try done. }
    pose proof Hi as (l & _ & Hrep & _).
    pose proof (append_locked_fits _ _ _ _ _ Hrep Ha Hf2) as (b & _ & (Hs2 & _ & _ & _ & Hc2)).
    apply (append_close_inv base now' instant j2 j'); [|by rewrite Hc2|by rewrite Hs2|exact H|done].
    by apply (append_plain_inv base now (EvFailed m) (set_js (set_state Failed (js j)) j)).
Qed.
End lifecycle.

(** * Properties *)

Section properties.
Context {codec : JournalCodec} {laws : JournalCodecLaws}.

Lemma started_inv j : started j → journal_inv [] j.
Proof.
  induction 1 as [path outs now j H Hf|j j' _ IH Hstep]; [|by eapply jstep_inv].
  unfold mark_started in H. apply M_bind_ok_inv in H as ([] & j1 & Hm & H). injection Hm as <-.
  apply M_bind_ok_inv in H as ([] & j2 & Ha & H). injection H as <-.
  apply (append_plain_inv [] now EvStarted) in Ha; [done| |done..].
  exists []. split; [done|]. split.
  - split; try done; vm_compute; discriminate.
  - split; try done. by intros [? ?].
Qed.

Lemma read_now_page eof c max j l :
  journal_repr j l → in_u64 max → (c ≤ u64_sat_sub (next_sequence (js j)) 1)%N →
  ∃ res, read_now None eof c max j = Ok res
    ∧ rx_next_sequence res = default c (sequence <$> last (rx_events res))
    ∧ rx_state res = state (js j) ∧ rx_exit_code res = exit_code (js j)
    ∧ page_ok c max 1 l (rx_events res).
Proof.
  intros [Hok Hf He Hn Hl Hu1 Hu2] Hmax Hc. unfold read_now.
  rewrite (proj2 (N.ltb_ge _ _)) by done. unfold select_now. rewrite He.
  destruct (select_page eof j c max l 1 [] 0) as (evs & Hr & Hp);
    [done|done|by rewrite <-Hn|done|unfold in_u64, u64_sat_sub in *; lia|done|lia|].
  rewrite N.sub_0_r in Hp. exists {| rx_events := evs; rx_next_sequence := default c (sequence <$> last evs);
    rx_state := state (js j); rx_exit_code := exit_code (js j) |}.
  split; [|done]. change (N.of_nat (length (@nil N))) with 0%N in Hr.
  destruct (select_entries _ _ _ _); by rewrite Hr.
Qed.
Lemma units_of_nonempty ev : units_of ev ≠ [].
Proof. unfold units_of. destruct (event ev) as [|s [|? ?]| | |]; done. Qed.

(** C36. The life cycle of a started journal, over any sequence of the manager's
    operations that succeed and leave its counters in range (an append that fails
    half-way ends it, as is shown below): the file and index represent the list of appended events; at
    most one exit event is recorded and its code is the reported one; at most
    one close event is recorded, last, exactly when the journal is closed; a
    recorded exit or a close implies a terminal state. *)
Theorem journal_lifecycle (j : Journal) :
  started j → ∃ l, journal_repr j l ∧ lifecycle_ok (js j) (kinds l).
Proof. intros (l & _ & H)%started_inv. by exists l. Qed.

(** A read returns the next page of the event stream: the units after the
    cursor are exactly those returned followed by those after the returned
    cursor (nothing lost, repeated or reordered, even inside an output event),
    no more than [max_bytes] bytes of output, and at least one event unless
    the budget is zero or nothing is left; a cursor past the stream is
    rejected. *)
Theorem read_now_pages (eof : IoError) (c max : N) (j : Journal) (l : log) :
  journal_repr j l → in_u64 max →
  if (u64_sat_sub (next_sequence (js j)) 1 <? c)%N
  then read_now None eof c max j = Err (cursor_ahead c (u64_sat_sub (next_sequence (js j)) 1))
  else ∃ res, read_now None eof c max j = Ok res
    ∧ after c (log_units l) = (rx_events res ≫= units_of) ++ after (rx_next_sequence res) (log_units l)
    ∧ (output_total (rx_events res) ≤ max)%N
    ∧ (rx_events res = [] → max = 0%N ∨ after c (log_units l) = [])
    ∧ rx_state res = state (js j) ∧ rx_exit_code res = exit_code (js j).
Proof.
  intros Hrep Hmax. destruct (N.ltb_spec (u64_sat_sub (next_sequence (js j)) 1) c).
  - unfold read_now. by rewrite (proj2 (N.ltb_lt _ _)).
  - destruct (read_now_page eof c max j l Hrep Hmax) as (res & Hr & Hn & Hs & Hx & [Hu Ht _ Hp _]); [done|].
    exists res. by rewrite Hn.
Qed.

(** Reading page after page until nothing is returned. *)
Fixpoint drain (fuel : nat) (eof : IoError) (c max : N) (j : Journal)
  : ExecutionResult (list ProcessEvent) :=
  match fuel with
  | 0 => Panic
  | S fuel =>
    r ← read_now None eof c max j;
    if bool_decide (rx_events r = []) then Ok []
    else rest ← drain fuel eof (rx_next_sequence r) max j; Ok (rx_events r ++ rest)
  end.

(** C27. Paging terminates and reconstructs the whole stream: following the
    returned cursor from zero with any positive budget, one page per unit of
    the stream at most, yields every unit exactly once and in order. *)
Theorem paging_complete (eof : IoError) (max : N) (j : Journal) (l : log) :
  journal_repr j l → in_u64 max → (0 < max)%N →
  ∃ evs, drain (S (length (log_units l))) eof 0 max j = Ok evs ∧ evs ≫= units_of = log_units l.
Proof.
  intros Hrep Hmax Hpos.
  assert (Hgen : ∀ fuel c, (c ≤ u64_sat_sub (next_sequence (js j)) 1)%N →
    length (after c (log_units l)) < fuel →
    ∃ evs, drain fuel eof c max j = Ok evs ∧ evs ≫= units_of = after c (log_units l)).
  { induction fuel as [|fuel IH]; intros c Hc Hf; [lia|]. cbn [drain].
    destruct (read_now_page eof c max j l Hrep Hmax Hc) as (res & -> & Hn & _ & _ & [Hu _ Hnx Hp _]).
    step_result. case_bool_decide as He.
    - exists []. split; [done|]. destruct (Hp He) as [?|Hnil]; [lia|]. by rewrite Hnil.
    - specialize (Hnx He). rewrite <-Hn in Hu, Hnx. destruct Hrep as [_ _ _ Hns _ _ _].
      destruct (IH (rx_next_sequence res)) as (rest & Hr & Hru).
      + rewrite Hns. unfold u64_sat_sub. lia.
      + rewrite Hu, length_app in Hf. destruct (rx_events res) as [|ev evs]; [done|].
        cbn [mbind list_bind] in Hf. rewrite length_app in Hf. pose proof (units_of_nonempty ev).
        destruct (units_of ev); [done|]. simpl in Hf. lia.
      + rewrite Hr. step_result. eexists. split; [done|]. by rewrite bind_app, Hru, Hu. }
  destruct (Hgen (S (length (log_units l))) 0%N) as (evs & Hd & He).
  - unfold u64_sat_sub. lia.
  - destruct Hrep as [Hok _ _ _ _ _ _]. rewrite (log_units_after_all 0 1 l) by (done || lia). lia.
  - exists evs. split; [done|]. rewrite He. destruct Hrep as [Hok _ _ _ _ _ _].
    apply (log_units_after_all 0 1 l); [done|lia].
Qed.

(** C40. A partial write leaves the journal broken: the failed append reports the
    error and leaves the index alone, but the bytes it wrote stay in the file,
    whose recorded length is no longer its length, so that the journal does not
    represent any event list and the offsets of later entries are wrong. *)
Theorem partial_append_breaks_journal (t : N) (k : ProcessEventKind) (j : Journal) (l : log)
    (written : nat) (e : IoError) (outs : list AppendOutcome) (b : bytes) :
  journal_repr j l → outcomes j = AppendWriteFails (S written) e :: outs →
  encode_event {| sequence := u64_sat_add (next_sequence (js j))
                                (u64_sat_sub (N.max (event_output_bytes k) 1) 1);
                  timestamp := t; event := k |} = inr b →
  ∃ j', append_locked t k j = (Err (io_error (journal_path j) e), j')
    ∧ js j' = js j ∧ (file_length (js j') < N.of_nat (length (file j')))%N
    ∧ ∀ l', ¬ journal_repr j' l'.
Proof.
  intros Hrep Ho Hb. unfold append_locked.
  assert (Happ : ∃ j', append_record b j = (Err (io_error (journal_path j) e), j')
    ∧ js j' = js j ∧ (file_length (js j') < N.of_nat (length (file j')))%N).
  { unfold append_record. rewrite Ho. eexists. split_and!; [done|done|].
    cbn [js file]. rewrite (jr_length _ _ Hrep), length_app, length_take, length_app.
    change (length [NL]) with 1. lia. }
  destruct Happ as (j' & Ha & Hjs & Hlt). exists j'. split_and!; [|done|done|].
  - rewrite (M_bind_ok get_state _ j (js j) j) by done. cbv zeta. rewrite Hb, lift_bind.
    by apply M_bind_err.
  - intros l' [_ _ _ _ Hl _ _]. lia.
Qed.
End properties.

(** ** Witnesses: a concrete codec and a small journal *)

Definition kind_code (k : ProcessEventKind) : bytes :=
  match k with
  | EvStarted => [0]
  | EvOutput Stdout data => 1 :: data
  | EvOutput Stderr data => 2 :: data
  | EvOutput Pty data => 3 :: data
  | EvExited c => [4; Z.to_N c; Z.to_N (- c)]
  | EvFailed m => 5 :: m
  | EvClosed => [6]
  end%N.
Definition kind_decode (b : bytes) : option ProcessEventKind :=
  match b with
  | [0] => Some EvStarted
  | 1 :: data => Some (EvOutput Stdout data)
  | 2 :: data => Some (EvOutput Stderr data)
  | 3 :: data => Some (EvOutput Pty data)
  | [4; p; n] => Some (EvExited (Z.of_N p - Z.of_N n))
  | 5 :: m => Some (EvFailed m)
  | [6] => Some EvClosed
  | _ => None
  end%N.
#[local] Instance sample_codec : JournalCodec := {
  encode_event := λ e, inr (sequence e :: timestamp e :: kind_code (event e));
  decode_event := λ b,
    match b with
    | s :: t :: b =>
      match kind_decode b with
      | Some k => inr {| sequence := s; timestamp := t; event := k |}
      | None => inl (str! "kind")
      end
    | _ => inl (str! "short")
    end;
}.
Lemma sample_codec_laws : JournalCodecLaws.
Proof.
  intros [s t k] b [= <-]. cbn. destruct k as [|[]|c| |]; try done. cbn.
  by replace (Z.of_N (Z.to_N c) - Z.of_N (Z.to_N (- c)))%Z with c by lia.
Qed.

Definition sample_event (s : N) (k : ProcessEventKind) : ProcessEvent :=
  {| sequence := s; timestamp := 7; event := k |}.
Definition sample_log : log :=
  (λ e, (e, sequence e :: timestamp e :: kind_code (event e))) <$>
  [sample_event 1 EvStarted; sample_event 5 (EvOutput Stdout [104; 105; 33; 10]%N);
   sample_event 6 (EvExited 0)].
Definition sample_ops (outs : list AppendOutcome) : Journal :=
  ((_ ← mark_started 7; _ ← append_output 7 Stdout [104; 105; 33; 10]%N; mark_exited 7 0 Exited)
     (create (str! "/e/events") outs)).2.
Definition sample_eof : IoError := {| io_kind := IoUnexpectedEof; io_display := str! "eof" |}.
Lemma sample_repr outs : outs = [] ∨ outs = [AppendOk; AppendOk; AppendOk; AppendWriteFails 3 sample_eof] →
  journal_repr (sample_ops outs) sample_log.
Proof.
  intros [-> | ->]; split; try (vm_compute; reflexivity); try (vm_compute; discriminate);
    vm_compute; by repeat split.
Qed.

Lemma journal_lifecycle_witness :
  ∃ l, journal_repr (sample_ops []) l ∧ lifecycle_ok (js (sample_ops [])) (kinds l).
Proof.
  apply journal_lifecycle.
  eapply started_step; [eapply started_step; [apply (started_init (str! "/e/events") [] 7)|]|].
  - vm_compute. reflexivity.
  - split; vm_compute; [reflexivity|discriminate].
  - eapply (js_output _ _ 7 Stdout [104; 105; 33; 10]%N); [vm_compute; reflexivity|].
    split; vm_compute; [reflexivity|discriminate].
  - eapply (js_exit _ _ 7 0 Exited); [reflexivity|vm_compute; reflexivity|].
    split; vm_compute; [reflexivity|discriminate].
Defined.
Lemma read_now_pages_witness :
  match read_now None sample_eof 2 2 (sample_ops []) with
  | Ok res => after 2 (log_units sample_log)
              = (rx_events res ≫= units_of) ++ after (rx_next_sequence res) (log_units sample_log)
  | _ => False
  end.
Proof.
  pose proof (read_now_pages (laws := sample_codec_laws) sample_eof 2 2 (sample_ops []) sample_log
    (sample_repr [] (or_introl eq_refl)) ltac:(vm_compute; discriminate)) as H.
  assert (E : (u64_sat_sub (next_sequence (js (sample_ops []))) 1 <? 2)%N = false) by (vm_compute; reflexivity).
  rewrite E in H. destruct H as (res & -> & Hu & _). exact Hu.
Defined.
Lemma paging_complete_witness :
  ∃ evs, drain 7 sample_eof 0 3 (sample_ops []) = Ok evs ∧ evs ≫= units_of = log_units sample_log.
Proof.
  exact (paging_complete (laws := sample_codec_laws) sample_eof 3 (sample_ops []) sample_log
    (sample_repr [] (or_introl eq_refl)) ltac:(vm_compute; discriminate) ltac:(vm_compute; reflexivity)).
Defined.
Lemma partial_append_breaks_journal_witness :
  ∃ j', append_locked 8 EvClosed
          (sample_ops [AppendOk; AppendOk; AppendOk; AppendWriteFails 3 sample_eof])
        = (Err (io_error (str! "/e/events") sample_eof), j') ∧ ∀ l', ¬ journal_repr j' l'.
Proof.
  destruct (partial_append_breaks_journal 8 EvClosed
    (sample_ops [AppendOk; AppendOk; AppendOk; AppendWriteFails 3 sample_eof]) sample_log 2 sample_eof []
    [7; 8; 6]%N (sample_repr _ (or_intror eq_refl)) ltac:(vm_compute; reflexivity)
    ltac:(vm_compute; reflexivity)) as (j' & Ha & _ & _ & Hno).
  by exists j'.
Defined.
