(* ===== verification/JournalGrowth.v ===== *)
(** How a journal grows while its events can be encoded and its appends succeed: each
    operation of the manager succeeds, extends the log it represents, and keeps
    its life cycle in order. *)
From Stdlib Require Import ZifyBool.
From stdpp Require Import prelude gmap strings pretty list.
From S2P Require Import Prelude.
From S2P Require Import Core.
From S2P Require Import Host.
From S2P Require Import ProcessCore.
From S2P Require Import Journal.

Section growth.
Context {jcodec : JournalCodec}.

Definition encodes : Prop := ∀ e, ∃ b, encode_event e = inr b.

(** The logs a journal extends are extended still, as long as no counter reaches its
    end. *)
Definition journal_grows (j j' : Journal) : Prop :=
  encodes → outcomes j = [] →
  outcomes j' = [] ∧ (fits j' → fits j ∧ ∀ base, journal_inv base j → journal_inv base j').
#[export] Instance journal_grows_preorder : PreOrder journal_grows.
Proof.
  split; [by intros j|]. intros j1 j2 j3 H12 H23 He Ho1. destruct (H12 He Ho1) as [Ho2 G12].
  destruct (H23 He Ho2) as [Ho3 G23]. split; [done|]. intros Hf.
  destruct (G23 Hf) as [Hf2 G]. destruct (G12 Hf2) as [Hf1 G']. auto.
Qed.

Lemma append_locked_total t k j :
  encodes → outcomes j = [] → ∃ j', append_locked t k j = (Ok tt, j') ∧ outcomes j' = [] ∧
    same_status (js j) (js j').
Proof.
  intros He Ho. unfold append_locked. rewrite (M_bind_ok get_state _ j (js j) j) by done. cbv zeta.
  match goal with |- context [encode_event ?ev] => destruct (He ev) as [b ->] end. rewrite lift_bind.
  unfold append_record, mbind, M_bind. rewrite Ho. by eexists.
Qed.
Lemma modify_fits f j :
  (∀ s, next_sequence (f s) = next_sequence s) → fits (set_js (f (js j)) j) ↔ fits j.
Proof. intros Hf. unfold fits. cbn. by rewrite Hf. Qed.

Lemma grows_append_output t st data : m_within journal_grows (append_output t st data).
Proof.
  intros j He Ho. unfold append_output. rewrite (M_bind_ok get_state _ j (js j) j) by done.
  destruct (closed (js j)) eqn:Hc; [done|].
  destruct (append_locked_total t (EvOutput st data) j He Ho) as (j' & Ha & Ho' & _).
  assert (Hop : append_output t st data j = (Ok tt, j')).
  { unfold append_output. rewrite (M_bind_ok get_state _ j (js j) j) by done. by rewrite Hc. }
  rewrite Ha. split; [done|]. intros Hf. cbn [snd] in *. split; [by eapply append_locked_mono|].
  intros base Hinv. eapply jstep_inv; [done|]. by eapply js_output.
Qed.
Lemma mark_exited_total t c st j :
  encodes → outcomes j = [] → is_terminal st = true →
  ∃ j', mark_exited_locked t c st j = (Ok tt, j') ∧ outcomes j' = [] ∧
    is_terminal (state (js j')) = true ∧ (fits j' → fits j).
Proof.
  intros He Ho Hst. unfold mark_exited_locked. rewrite (M_bind_ok get_state _ j (js j) j) by done.
  destruct (is_terminal (state (js j))) eqn:Ht; [by exists j|].
  set (j1 := set_js (set_exit_code c (set_state st (js j))) j).
  rewrite (M_bind_ok _ _ j tt j1) by done.
  destruct (append_locked_total t (EvExited c) j1 He Ho) as (j' & Ha & Ho' & (Hs & _)).
  exists j'. split_and!; [done|done|by rewrite Hs|].
  intros Hf. eapply append_locked_mono in Ha; [|done]. done.
Qed.
Lemma close_total t i j :
  encodes → outcomes j = [] →
  ∃ j', close_locked t i j = (Ok tt, j') ∧ outcomes j' = [] ∧ closed (js j') = true ∧
    state (js j') = state (js j) ∧ (fits j' → fits j).
Proof.
  intros He Ho. unfold close_locked. rewrite (M_bind_ok get_state _ j (js j) j) by done.
  destruct (closed (js j)) eqn:Hc; [by exists j|].
  destruct (append_locked_total t EvClosed j He Ho) as (j1 & Ha & Ho' & (Hs & _)).
  rewrite (M_bind_ok _ _ _ _ _ Ha). eexists. split; [done|]. split_and!; [done|done|done|].
  intros Hf. by eapply append_locked_mono.
Qed.
Lemma grows_mark_exited t c st : is_terminal st = true → m_within journal_grows (mark_exited t c st).
Proof.
  intros Hst j He Ho. unfold mark_exited. destruct (mark_exited_total t c st j He Ho Hst) as (j' & Hm & Ho' & _ & Hf).
  rewrite Hm. split; [done|]. intros Hf'. split; [auto|]. intros base Hinv.
  eapply jstep_inv; [done|]. by eapply js_exit.
Qed.
(** The two ways to finish: both succeed, and leave the journal closed. *)
Lemma finish_exited_grows t c st t' i j :
  encodes → outcomes j = [] → is_terminal st = true →
  ∃ j', finish_exited t c st t' i j = (Ok tt, j') ∧ closed (js j') = true ∧
    is_terminal (state (js j')) = true ∧ journal_grows j j'.
Proof.
  intros He Ho Hst. destruct (mark_exited_total t c st j He Ho Hst) as (j1 & Hm & Ho1 & Ht1 & Hf1).
  destruct (close_total t' i j1 He Ho1) as (j2 & Hc & Ho2 & Hcl & Hs & Hf2).
  assert (Hfin : finish_exited t c st t' i j = (Ok tt, j2)).
  { unfold finish_exited. by rewrite (M_bind_ok _ _ _ _ _ Hm). }
  exists j2. split_and!; [done|done|by rewrite Hs|]. intros _ _. split; [done|]. intros Hf.
  split; [auto|]. intros base Hinv. eapply jstep_inv; [done|]. exact (js_finish _ _ _ _ _ _ _ Hst Hfin Hf).
Qed.
Lemma grows_finish_failed t m t' i : m_within journal_grows (finish_failed t m t' i).
Proof.
  intros j He Ho. unfold finish_failed. rewrite (M_bind_ok get_state _ j (js j) j) by done.
  destruct (closed (js j)) eqn:Hc; [done|].
  set (j0 := set_js (set_state Failed (js j)) j). rewrite (M_bind_ok _ _ j tt j0) by done.
  destruct (append_locked_total t (EvFailed m) j0 He Ho) as (j1 & Ha & Ho1 & _).
  rewrite (M_bind_ok _ _ _ _ _ Ha).
  destruct (append_locked_total t' EvClosed j1 He Ho1) as (j2 & Hb & Ho2 & _).
  rewrite (M_bind_ok _ _ _ _ _ Hb). split; [done|]. intros Hf. cbn [snd] in *.
  assert (Hop : finish_failed t m t' i j = (Ok tt, set_js (set_closed i (js j2)) j2)).
  { unfold finish_failed. rewrite (M_bind_ok get_state _ j (js j) j) by done. rewrite Hc.
    rewrite (M_bind_ok _ _ j tt j0) by done. rewrite (M_bind_ok _ _ _ _ _ Ha).
    by rewrite (M_bind_ok _ _ _ _ _ Hb). }
  split.
  - eapply append_locked_mono in Hb; [|exact Hf]. by eapply append_locked_mono in Ha.
  - intros base Hinv. eapply jstep_inv; [done|]. by eapply js_failed.
Qed.
Lemma finish_failed_closed t m t' i j :
  encodes → outcomes j = [] →
  ∃ j', finish_failed t m t' i j = (Ok tt, j') ∧ closed (js j') = true.
Proof.
  intros He Ho. unfold finish_failed. rewrite (M_bind_ok get_state _ j (js j) j) by done.
  destruct (closed (js j)) eqn:Hc; [by exists j|].
  set (j0 := set_js (set_state Failed (js j)) j). rewrite (M_bind_ok _ _ j tt j0) by done.
  destruct (append_locked_total t (EvFailed m) j0 He Ho) as (j1 & Ha & Ho1 & _).
  rewrite (M_bind_ok _ _ _ _ _ Ha).
  destruct (append_locked_total t' EvClosed j1 He Ho1) as (j2 & Hb & Ho2 & _).
  rewrite (M_bind_ok _ _ _ _ _ Hb). by eexists.
Qed.
(** A closed journal stays as it is. *)
Lemma close_closed t i j : closed (js j) = true → close t i j = (Ok tt, j).
Proof. intros Hc. unfold close, close_locked. rewrite (M_bind_ok get_state _ j (js j) j) by done. by rewrite Hc. Qed.
(** The operations of a session's completion: finishing, finishing again when that
    failed, and closing. *)
Definition completing (m : M Journal unit) (j j' : Journal) : Prop :=
  let '(r, j1) := m j in
  ∃ j2, (match r with Ok _ => j2 = j1 | _ => ∃ t e t' i, j2 = (finish_failed t e t' i j1).2 end) ∧
  ∃ t i, j' = (close t i j2).2.
Lemma completing_grows m j j' :
  (encodes → outcomes j = [] → ∃ j1, m j = (Ok tt, j1) ∧ closed (js j1) = true) →
  m_within journal_grows m → completing m j j' → journal_grows j j'.
Proof.
  intros Hok Hg Hc He Ho. destruct (Hok He Ho) as (j1 & Hm & Hcl). specialize (Hg j He Ho).
  unfold completing in Hc. rewrite Hm in Hc, Hg. destruct Hc as (j2 & -> & t & i & ->).
  by rewrite close_closed.
Qed.
Lemma grows_finish_exited t c st t' i :
  is_terminal st = true → m_within journal_grows (finish_exited t c st t' i).
Proof.
  intros Hst j He Ho. destruct (finish_exited_grows t c st t' i j He Ho Hst) as (j' & Hf & _ & _ & Hg).
  rewrite Hf. by apply Hg.
Qed.

(** No operation panics. *)
Lemma append_locked_safe t k : m_safe (append_locked t k).
Proof.
  unfold append_locked. apply m_safe_bind'; [done|intros s]. cbv zeta.
  apply m_safe_bind'; [by apply m_safe_lift; destruct (encode_event _)|intros b].
  apply m_safe_bind'; [|done]. intros j. unfold append_record. by destruct (outcomes j) as [|[] ?].
Qed.
Lemma close_safe t i : m_safe (close t i).
Proof.
  unfold close, close_locked. apply m_safe_bind'; [done|intros s]. destruct (closed s); [done|].
  apply m_safe_bind'; [apply append_locked_safe|done].
Qed.
Lemma finish_exited_safe t c st t' i : m_safe (finish_exited t c st t' i).
Proof.
  unfold finish_exited, mark_exited_locked. apply m_safe_bind'; [|intros _; apply close_safe].
  apply m_safe_bind'; [done|intros s]. destruct (is_terminal _); [done|].
  apply m_safe_bind'; [done|intros _; apply append_locked_safe].
Qed.
Lemma finish_failed_safe t m t' i : m_safe (finish_failed t m t' i).
Proof.
  unfold finish_failed. apply m_safe_bind'; [done|intros s]. destruct (closed s); [done|].
  apply m_safe_bind'; [done|intros _].
  apply m_safe_bind'; [apply append_locked_safe|intros _].
  apply m_safe_bind'; [apply append_locked_safe|done].
Qed.
End growth.
#[export] Hint Resolve grows_append_output grows_mark_exited grows_finish_failed : effects.
