(* ===== verification/ProcessStream.v ===== *)
(** What a client of a process runtime relies on: the events of an execution as a
    stream of numbered units, pages of it, and the promises of [read] about
    them ([ReadsStream]).  The shell tool is proved against this interface; the
    event journal provides the pages and the process manager keeps the promises. *)
From Stdlib Require Import ZifyBool.
From stdpp Require Import prelude gmap strings pretty list.
From S2P Require Import Prelude.
From S2P Require Import Text.
From S2P Require Import Core.
From S2P Require Import Host.
From S2P Require Import ProcessCore.
From S2P Require Import Journal.

(** ** Streams

    The units of an execution's stream, one per sequence number from 1, and the
    status reported with every page. *)
Record StreamView := {
  sv_units : list (N * stream_unit);
  sv_state : ExecutionState;
  sv_exit : option Z;
}.
Definition payload (evs : list ProcessEvent) : list (N * stream_unit) := (evs ≫= units_of).*2.

Definition output_of (us : list (N * stream_unit)) : bytes :=
  omap (λ u : N * stream_unit, match u.2 with UByte _ b => Some b | UEvent _ => None end) us.
Definition failures_of (us : list (N * stream_unit)) : list str :=
  omap (λ u : N * stream_unit, match u.2 with UEvent (EvFailed m) => Some m | _ => None end) us.
Definition is_close_unit (u : N * stream_unit) : bool :=
  match u.2 with UEvent EvClosed => true | _ => false end.

(** A page of the units past the cursor [c]: nothing lost or repeated up to the
    returned cursor, sequence numbers that advance, and something unless nothing
    is left. *)
Record stream_page (v : StreamView) (c : N) (res : ReadExecutionResult) : Prop := {
  sp_units : drop (N.to_nat c) (sv_units v)
    = payload (rx_events res) ++ drop (N.to_nat (rx_next_sequence res)) (sv_units v);
  sp_next : rx_next_sequence res = default c (sequence <$> last (rx_events res));
  sp_cursor : (c ≤ rx_next_sequence res ≤ N.of_nat (length (sv_units v)))%N;
  sp_ascending : ascending c (sequence <$> rx_events res);
  sp_some : rx_events res = [] → drop (N.to_nat c) (sv_units v) = [];
  sp_state : rx_state res = sv_state v;
  sp_exit : rx_exit_code res = sv_exit v;
}.

(** How a client checks a page: sequences increase; the cursor they reach. *)
Fixpoint advance_events (failure : ExecutionError) (cursor : N) (events : list ProcessEvent) : ExecutionResult N :=
  match events with
  | [] => Ok cursor
  | event :: events =>
    if (sequence event <=? cursor)%N then Err failure else advance_events failure (sequence event) events
  end.
Definition is_closed_event (e : ProcessEvent) : bool :=
  match event e with EvClosed => true | _ => false end.

Lemma snd_number {A} n (l : list A) : (number n l).*2 = l.
Proof. revert n. induction l as [|x l IH]; intros n; [done|]. cbn. by rewrite IH. Qed.
Lemma output_of_app a b : output_of (a ++ b) = output_of a ++ output_of b.
Proof. apply omap_app. Qed.
Lemma failures_of_app a b : failures_of (a ++ b) = failures_of a ++ failures_of b.
Proof. apply omap_app. Qed.
Lemma payload_cons e evs : payload (e :: evs) = (units_of e).*2 ++ payload evs.
Proof. unfold payload. cbn [mbind list_bind]. apply fmap_app. Qed.
Lemma output_of_event e :
  output_of (units_of e).*2 = match event e with EvOutput _ data => data | _ => [] end.
Proof.
  unfold units_of. destruct (event e) as [|s [|b data]| | |]; try done.
  rewrite snd_number. unfold output_of. generalize (b :: data). intros l. induction l as [|x l IH]; [done|]. cbn. by f_equal.
Qed.
Lemma failures_of_event e :
  failures_of (units_of e).*2 = match event e with EvFailed m => [m] | _ => [] end.
Proof.
  unfold units_of. destruct (event e) as [|s [|b data]| | |]; try done.
  rewrite snd_number. unfold failures_of. generalize (b :: data). intros l. induction l as [|x l IH]; [done|exact IH].
Qed.
Lemma close_in_payload evs :
  existsb is_closed_event evs = true → ∃ a u b, payload evs = a ++ u :: b ∧ is_close_unit u = true.
Proof.
  induction evs as [|e evs IH]; [done|]. cbn [existsb]. rewrite orb_true_iff, payload_cons.
  intros [He|H].
  - unfold is_closed_event in He. destruct (event e) eqn:Ee; try done.
    unfold units_of. rewrite Ee. by eexists [], _, _.
  - destruct (IH H) as (a & u & b & -> & Hu). exists ((units_of e).*2 ++ a), u, b. by rewrite (assoc_L (++)).
Qed.

Lemma advance_ascending failure c evs :
  ascending c (sequence <$> evs) → advance_events failure c evs = Ok (default c (sequence <$> last evs)).
Proof.
  revert c. induction evs as [|e evs IH]; intros c; [done|]. cbn [fmap list_fmap ascending advance_events].
  intros [Hlt Has]. rewrite (proj2 (N.leb_gt _ _)) by done. rewrite (IH _ Has).
  destruct evs as [|e' evs]; [done|]. change (last (e :: e' :: evs)) with (last (e' :: evs)).
  destruct (last (e' :: evs)) eqn:E; [done|by apply last_None in E].
Qed.
(** What a page adds to what was taken before it. *)
Lemma page_take v c res :
  stream_page v c res →
  take (N.to_nat (rx_next_sequence res)) (sv_units v)
    = take (N.to_nat c) (sv_units v) ++ payload (rx_events res).
Proof.
  intros [Hu _ Hc _ _ _ _].
  assert (Hlen : length (payload (rx_events res)) = N.to_nat (rx_next_sequence res) - N.to_nat c).
  { apply (f_equal length) in Hu. rewrite length_app, !length_drop in Hu. lia. }
  rewrite <-(take_drop (N.to_nat c) (sv_units v)) at 1. rewrite take_app.
  rewrite take_ge by (rewrite length_take; lia). f_equal. rewrite Hu, length_take.
  rewrite take_app_le by lia. apply take_ge. lia.
Qed.

(** A stream grows; one whose state is terminal does not change any more. *)
Definition later (v v' : StreamView) : Prop :=
  sv_units v `prefix_of` sv_units v' ∧ (is_terminal (sv_state v) = true → v' = v).
#[export] Instance later_preorder : PreOrder later.
Proof.
  split; [by split|]. intros v1 v2 v3 [H12 Ht12] [H23 Ht23]. split; [by etrans|].
  intros Ht. pose proof (Ht12 Ht) as ->. by apply Ht23.
Qed.

(** What a runtime promises about the execution [id]: [shows] relates a world to the
    stream, in worlds [within] what its counters can represent; what a reply
    says is a page of the stream as it then is.  In a [calm] world a read of a
    terminal stream succeeds and leaves the world calm. *)
Class ReadsStream {W : Type} `{!World W, !ProcessRuntime W}
    (generation : SupervisorGenerationId) (id : ExecutionId) (max : N)
    (within : W → Prop) (shows : W → StreamView → Prop)
    (calm : OperationContext → W → Prop) : Prop := {
  read_shows : ∀ c r w v, shows w v → within (pr_read c r w).2 → re_execution_id r = id →
    ∃ v', shows (pr_read c r w).2 v' ∧ later v v' ∧
    ∀ res, (0 < re_max_bytes r ≤ u64_max)%N → (pr_read c r w).1 = Ok res →
      stream_page v' (re_after_sequence r) res;
  observe_shows : ∀ c w v, shows w v → shows (checkpointM c w).2 v;
  close_last : ∀ w v us u more, shows w v → sv_units v = us ++ u :: more → is_close_unit u = true →
    more = [];
  calm_observes : ∀ c w, calm c w → (checkpointM c w).1 = Ok tt ∧ calm c (checkpointM c w).2;
  calm_reads : ∀ c r w v, calm c w → shows w v → is_terminal (sv_state v) = true →
    re_execution_id r = id → re_generation r = generation → (0 < re_max_bytes r ≤ N.min max u64_max)%N →
    re_wait_ms r ≠ Some 0%N → (re_after_sequence r ≤ N.of_nat (length (sv_units v)))%N →
    within (pr_read c r w).2 ∧ (∃ res, (pr_read c r w).1 = Ok res) ∧ calm c (pr_read c r w).2;
}.

(** *** Streams whose state may settle before they end

    When output is drained separately from the process, the state of an execution is
    terminal before its last output is recorded.  Such a stream has ended once it
    is closed. *)
Definition exit_of (k : ProcessEventKind) : option Z := match k with EvExited code => Some code | _ => None end.
Definition exits_of (us : list (N * stream_unit)) : list Z :=
  omap (λ u : N * stream_unit, match u.2 with UEvent k => exit_of k | UByte _ _ => None end) us.
Definition closed_units (us : list (N * stream_unit)) : bool := existsb is_close_unit us.
Definition grows (v v' : StreamView) : Prop := sv_units v `prefix_of` sv_units v'.
#[export] Instance grows_preorder : PreOrder grows.
Proof. split; [intros v; unfold grows; done|intros v1 v2 v3; unfold grows; by etrans]. Qed.

(** What a runtime promises about the execution [id], drained or not. *)
Class ReadsPages {W : Type} `{!World W, !ProcessRuntime W}
    (generation : SupervisorGenerationId) (id : ExecutionId) (max : N)
    (within : W → Prop) (shows : W → StreamView → Prop)
    (calm : OperationContext → W → Prop) : Prop := {
  pages_read : ∀ c r w v, shows w v → within (pr_read c r w).2 → re_execution_id r = id →
    ∃ v', shows (pr_read c r w).2 v' ∧ grows v v' ∧
    ∀ res, (0 < re_max_bytes r ≤ u64_max)%N → (pr_read c r w).1 = Ok res →
      stream_page v' (re_after_sequence r) res;
  pages_write : ∀ c r w v, shows w v → within (pr_write c r w).2 →
    ∃ v', shows (pr_write c r w).2 v' ∧ grows v v';
  pages_signal : ∀ c r w v, shows w v → within (pr_signal c r w).2 →
    ∃ v', shows (pr_signal c r w).2 v' ∧ grows v v';
  pages_observe : ∀ c w v, shows w v → shows (checkpointM c w).2 v;
  pages_last : ∀ w v us u more, shows w v → sv_units v = us ++ u :: more → is_close_unit u = true →
    more = [];
  pages_exit : ∀ w v, shows w v → sv_exit v = last (exits_of (sv_units v));
  pages_closed : ∀ w v, shows w v → closed_units (sv_units v) = true → is_terminal (sv_state v) = true;
  pages_calm_observe : ∀ c w, calm c w → (checkpointM c w).1 = Ok tt ∧ calm c (checkpointM c w).2;
  pages_calm_read : ∀ c r w v, calm c w → shows w v → closed_units (sv_units v) = true →
    re_execution_id r = id → re_generation r = generation → (0 < re_max_bytes r ≤ N.min max u64_max)%N →
    re_wait_ms r ≠ Some 0%N → (re_after_sequence r ≤ N.of_nat (length (sv_units v)))%N →
    within (pr_read c r w).2 ∧ (∃ res, (pr_read c r w).1 = Ok res) ∧ calm c (pr_read c r w).2;
}.

(** ** Pages of a journal *)

Lemma log_units_number `{!JournalCodec} seq l :
  log_ok seq l → ∃ us, log_units l = number seq us ∧ (seq + N.of_nat (length us))%N = log_next seq l.
Proof.
  revert seq. induction l as [|[ev b] l IH]; intros seq Hok; [exists []; split; [done|cbn; lia]|].
  destruct Hok as (_ & Hs & Hok). destruct (units_of_number ev seq Hs) as (us & Hus & Hlen).
  destruct (IH _ Hok) as (us' & Hus' & Hlen'). exists (us ++ us').
  unfold log_units in *. cbn [mbind list_bind log_next]. rewrite Hus, number_app, Hlen, Hus', length_app.
  split; [done|]. lia.
Qed.
Lemma after_number {A} c (us : list A) : (after c (number 1 us)).*2 = drop (N.to_nat c) us.
Proof.
  revert c. assert (Hgen : ∀ n c, (after c (number n us)).*2 = drop (N.to_nat (c + 1 - n)) us).
  { induction us as [|x us IH]; intros n c; [by rewrite drop_nil|]. cbn [number]. unfold after in *.
    destruct (decide (c < n)%N) as [Hlt|Hge].
    - rewrite filter_cons_True by done. cbn [fmap list_fmap snd]. rewrite IH.
      replace (N.to_nat (c + 1 - n)) with 0 by lia. by replace (N.to_nat (c + 1 - (n + 1))) with 0 by lia.
    - rewrite filter_cons_False by done. rewrite IH.
      by replace (N.to_nat (c + 1 - n)) with (S (N.to_nat (c + 1 - (n + 1)))) by lia. }
  intros c. rewrite Hgen. by replace (c + 1 - 1)%N with c by lia.
Qed.

(** The stream a journal shows. *)
Definition view_of `{!JournalCodec} (j : Journal) (l : log) : StreamView :=
  {| sv_units := (log_units l).*2; sv_state := state (js j); sv_exit := exit_code (js j) |}.

Lemma journal_page `{!JournalCodec, !JournalCodecLaws} (eof : IoError) (c max : N) (j : Journal) (l : log) :
  journal_repr j l → in_u64 max → (0 < max)%N → (c ≤ N.of_nat (length (log_units l).*2))%N →
  ∃ res, read_now None eof c max j = Ok res ∧ stream_page (view_of j l) c res.
Proof.
  intros Hrep Hmax Hpos Hc. destruct (log_units_number 1 l (jr_ok _ _ Hrep)) as (us & Hus & Hlen).
  assert (Hl : (log_units l).*2 = us) by (by rewrite Hus, snd_number).
  destruct (read_now_page eof c max j l Hrep Hmax) as (res & Hr & Hn & Hs & Hx & [Hu Ht Hnx Hp Has]).
  { rewrite (jr_next _ _ Hrep), <-Hlen, <-Hl. unfold u64_sat_sub. lia. }
  exists res. split; [done|]. rewrite <-Hn in Hu, Hnx. rewrite Hl in Hc.
  split; cbn [view_of sv_units sv_state sv_exit]; rewrite ?Hl; try done.
  - rewrite <-!after_number, <-Hus, Hu, fmap_app. done.
  - destruct (rx_events res) as [|ev evs]; [cbn in Hn; lia|]. specialize (Hnx ltac:(done)). lia.
  - by replace (N.max c (1 - 1)) with c in Has by lia.
  - intros Hnil. destruct (Hp Hnil) as [?|Hnone]; [lia|]. by rewrite <-after_number, <-Hus, Hnone.
Qed.
