(* ===== verification/Resolver.v ===== *)
(** The supervisor's path resolver
    ([execution-supervisor-core/src/path_resolver.rs]): from a portable path to a
    native one that stays inside its root, over the operating system's filesystem
    as a type class.  Native paths are those of a POSIX host. *)
From Stdlib Require Import ZifyBool.
From stdpp Require Import prelude gmap strings pretty list.
From S2P Require Import Prelude.
From S2P Require Import Text.
From S2P Require Import Core.
From S2P Require Import Host.
From S2P Require Import ProcessCore.

(** ** Native paths

    An absolute [PathBuf] as its components; [..] is a component. *)
Abbreviation npath := (list str).
Definition DOTDOT : str := str! "..".
Definition parent (p : npath) : option npath :=
  match p with [] => None | _ => Some (take (length p - 1) p) end.
Definition file_name (p : npath) : option str :=
  match last p with
  | Some name => if str_eqb name DOTDOT then None else Some name
  | None => None
  end.
(** [Path::starts_with], component by component. *)
Definition path_starts_with (p boundary : npath) : bool :=
  bool_decide (take (length boundary) p = boundary).
(** [Path::display]. *)
Definition display (p : npath) : str := SLASH :: join [SLASH] p.

(** ** The operating system's filesystem *)

(** The modification time is in nanoseconds from the Unix epoch, when the host has
    one. *)
Record NativeMetadata := { nm_kind : FileKind; nm_len : N; nm_modified : option Z }.
Definition is_dir (m : NativeMetadata) : bool := bool_decide (nm_kind m = Directory).
Definition is_file (m : NativeMetadata) : bool := bool_decide (nm_kind m = File).
Definition is_symlink (m : NativeMetadata) : bool := bool_decide (nm_kind m = Symlink).

(** What a symbolic link holds: a path, absolute or not, and its text
    ([to_string_lossy]). *)
Record LinkTarget := { lt_absolute : bool; lt_path : npath; lt_text : str }.

(** An operation of the operating system: an [io::Result] and the next world. *)
Definition nio (V A : Type) : Type := V → (IoError + A) * V.

Class NativeFs (V : Type) := {
  n_canonicalize : npath → nio V npath;
  n_metadata : npath → nio V NativeMetadata;
  n_symlink_metadata : npath → nio V NativeMetadata;
  n_read_link : npath → nio V LinkTarget;
  (** Opening a file, then what each [read] into the buffer gives until it gives
      nothing. *)
  n_open : npath → nio V (list (IoError + bytes));
  n_write : npath → bytes → nio V unit;
  n_create_new : npath → nio V unit;
  n_write_all : npath → bytes → nio V unit;
  n_set_permissions : npath → NativeMetadata → nio V unit;
  n_sync_all : npath → nio V unit;
  n_rename : npath → npath → nio V unit;
  n_create_dir : npath → nio V unit;
  n_create_dir_all : npath → nio V unit;
  n_remove_dir : npath → nio V unit;
  n_remove_dir_all : npath → nio V unit;
  n_remove_file : npath → nio V unit;
  n_read_dir : npath → nio V (list (IoError + str));
  n_uuid : V → str * V;
}.

(** [op.await.map_err(|source| io_error(path, source))?]. *)
Definition await_io {V A} (p : npath) (op : nio V A) : M V A := λ w,
  match op w with
  | (inr a, w) => (Ok a, w)
  | (inl e, w) => (Err (io_error (display p) e), w)
  end.
(** [op.await], its outcome kept as a value. *)
Definition outcome {V A} (op : nio V A) : M V (IoError + A) := λ w, let '(r, w) := op w in (Ok r, w).

Definition is_not_found (e : IoError) : bool :=
  match io_kind e with IoNotFound => true | _ => false end.

(** ** The resolver *)

Record RootEntry := { re_descriptor : ExecutionRoot; re_canonical : npath }.
Abbreviation PathResolver := (gmap RootId RootEntry).

Definition invalid_path (m : str) : ExecutionError := supervisor_error InvalidPath m.

(** [Display for ValidationError] prints its issues with [Debug]; how a string is
    quoted and escaped there is the standard library's. *)
Class DebugStr := debug_str : str → str.
Definition show_issue {dbg : DebugStr} (i : ValidationIssue) : str :=
  format! [str! "ValidationIssue { path: "; debug_str (vi_path i); str! ", message: ";
           debug_str (vi_message i); str! " }"].
Definition show_validation {dbg : DebugStr} (e : ValidationError) : str :=
  format! [str! "validation failed: ["; join (str! ", ") (show_issue <$> issues e); str! "]"].

Definition candidate {dbg : DebugStr} (resolver : PathResolver) (spec : ExecutionPath)
  : ExecutionResult (npath * npath * bool) :=
  match validate spec with
  | inr e => Err (invalid_path (format! [str! "invalid execution path: "; show_validation e]))
  | inl _ =>
    root ← ok_or (supervisor_error RootNotFound
                    (format! [str! "execution root `"; as_str (root_id spec); str! "` was not found"]))
             (resolver !! root_id spec);
    let relative := if str_eqb (path spec) (str! ".") then [] else split_char SLASH (path spec) in
    Ok (re_canonical root ++ relative, re_canonical root, read_only (re_descriptor root))
  end.

Definition ensure_contained (p boundary : npath) : ExecutionResult unit :=
  if path_starts_with p boundary then Ok tt
  else Err (supervisor_error PathOutsideRoot
              (format! [str! "resolved path "; display p; str! " escapes execution root ";
                        display boundary])).

Section resolver.
Context {V : Type} `{!NativeFs V} {dbg : DebugStr}.
Context (resolver : PathResolver).

(** The canonical parent of a path, checked, with its file name put back. *)
Definition canonical_child (cand boundary : npath) : M V npath :=
  par ← lift (ok_or (invalid_path (str! "path has no parent")) (parent cand));
  canonical_parent ← await_io par (n_canonicalize par);
  _ ← lift (ensure_contained canonical_parent boundary);
  name ← lift (ok_or (invalid_path (str! "path has no file name")) (file_name cand));
  mret (canonical_parent ++ [name]).

Definition resolve_existing (spec : ExecutionPath) (follow_final_symlink : bool) : M V npath :=
  '(cand, boundary, _) ← lift (candidate resolver spec);
  p ← (if follow_final_symlink || bool_decide (cand = boundary)
       then await_io cand (n_canonicalize cand)
       else p ← canonical_child cand boundary;
            _ ← await_io p (n_symlink_metadata p);
            mret p);
  _ ← lift (ensure_contained p boundary);
  mret p.

(** [resolve_through_existing_ancestor]: the loop that strips missing components;
    the fuel is the number of components left. *)
Definition no_ancestor : ExecutionError := invalid_path (str! "path has no existing ancestor").
Fixpoint existing_ancestor (fuel : nat) (ancestor : npath) (missing : list str)
  : M V (npath * list str) :=
  meta ← outcome (n_symlink_metadata ancestor);
  match meta with
  | inr _ => mret (ancestor, missing)
  | inl _ =>
    name ← lift (ok_or no_ancestor (file_name ancestor));
    par ← lift (ok_or no_ancestor (parent ancestor));
    match fuel with
    | 0 => lift Panic
    | S fuel => existing_ancestor fuel par (missing ++ [name])
    end
  end.
Definition resolve_through_existing_ancestor (cand boundary : npath) : M V npath :=
  '(ancestor, missing) ← existing_ancestor (length cand) cand [];
  resolved ← await_io ancestor (n_canonicalize ancestor);
  _ ← lift (ensure_contained resolved boundary);
  mret (resolved ++ reverse missing).

Definition read_only_error (spec : ExecutionPath) : ExecutionError :=
  supervisor_error ReadOnlyRoot
    (format! [str! "execution root `"; as_str (root_id spec); str! "` is read-only"]).

Definition resolve_for_write (spec : ExecutionPath) (follow_final_symlink : bool) : M V npath :=
  '(cand, boundary, ro) ← lift (candidate resolver spec);
  if (ro : bool) then throw (read_only_error spec)
  else
    candidate_metadata ← outcome (n_symlink_metadata cand);
    p ← (match candidate_metadata with
         | inr _ =>
           if follow_final_symlink then await_io cand (n_canonicalize cand)
           else canonical_child cand boundary
         | inl e =>
           if is_not_found e then resolve_through_existing_ancestor cand boundary
           else throw (io_error (display cand) e)
         end);
    _ ← lift (ensure_contained p boundary);
    mret p.

(** [resolve_for_creation]: [links] counts the symbolic links that may still be
    followed; between two links the path only gets shorter, which [fuel] counts. *)
Definition too_many_links : ExecutionError :=
  invalid_path (str! "too many symbolic links in write path").
Fixpoint creation_walk (follow : npath → M V npath) (boundary : npath) (fuel : nat) (cand : npath)
  : M V npath :=
  meta ← outcome (n_symlink_metadata cand);
  resolved ← (match meta with
    | inr m =>
      if is_symlink m then
        target ← await_io cand (n_read_link cand);
        target ← lift (if lt_absolute target then Ok (lt_path target)
                       else par ← ok_or (invalid_path (str! "link has no parent")) (parent cand);
                            Ok (par ++ lt_path target));
        follow target
      else await_io cand (n_canonicalize cand)
    | inl e =>
      if is_not_found e then
        par ← lift (ok_or no_ancestor (parent cand));
        name ← lift (ok_or (invalid_path (str! "path has no file name")) (file_name cand));
        match fuel with
        | 0 => lift Panic
        | S fuel => p ← creation_walk follow boundary fuel par; mret (p ++ [name])
        end
      else throw (io_error (display cand) e)
    end);
  _ ← lift (ensure_contained resolved boundary);
  mret resolved.
Fixpoint resolve_for_creation (links : nat) (boundary : npath) (cand : npath) : M V npath :=
  match links with
  | 0 => throw too_many_links
  | S links => creation_walk (resolve_for_creation links boundary) boundary (length cand) cand
  end.

Definition resolve_for_in_place_write (spec : ExecutionPath) : M V npath :=
  '(cand, boundary, ro) ← lift (candidate resolver spec);
  if (ro : bool) then throw (read_only_error spec)
  else resolve_for_creation 41 boundary cand.

Definition resolve_for_directory_creation (spec : ExecutionPath) : M V npath :=
  _ ← resolve_for_in_place_write spec;
  '(p, _, _) ← lift (candidate resolver spec);
  mret p.
End resolver.

(** [PathResolver::new]: the entries, in configuration order, after their
    directories were canonicalised. *)
Inductive SupervisorInitError := InvalidConfiguration (m : str) | InitIo (e : IoError).
Record SupervisorRoot := { sr_id : RootId; sr_name : str; sr_path : npath; sr_read_only : bool }.

Section resolver_new.
Context {V : Type} `{!NativeFs V}.
Fixpoint new_entries (roots : list SupervisorRoot) (entries : PathResolver) (w : V)
  : (SupervisorInitError + PathResolver) * V :=
  match roots with
  | [] => (inr entries, w)
  | root :: roots =>
    if str_is_empty (trim (sr_name root)) then
      (inl (InvalidConfiguration
              (format! [str! "execution root `"; as_str (sr_id root); str! "` has an empty name"])), w)
    else
      match n_canonicalize (sr_path root) w with
      | (inl e, w) => (inl (InitIo e), w)
      | (inr canonical, w) =>
        match n_metadata canonical w with
        | (inl e, w) => (inl (InitIo e), w)
        | (inr m, w) =>
          if negb (is_dir m) then
            (inl (InvalidConfiguration
                    (format! [str! "execution root "; display (sr_path root); str! " is not a directory"])), w)
          else
            let descriptor := {| er_id := sr_id root; er_name := sr_name root;
                                 native_path := display canonical; read_only := sr_read_only root |} in
            match entries !! sr_id root with
            | Some _ => (inl (InvalidConfiguration (str! "execution root identifiers must be unique")), w)
            | None =>
              new_entries roots
                (<[sr_id root := {| re_descriptor := descriptor; re_canonical := canonical |}]> entries) w
            end
        end
      end
  end.
Definition resolver_new (roots : list SupervisorRoot) (w : V) : (SupervisorInitError + PathResolver) * V :=
  match roots with
  | [] => (inl (InvalidConfiguration (str! "at least one execution root is required")), w)
  | _ => new_entries roots ∅ w
  end.
End resolver_new.

(** [descriptors]: sorted by root identifier. *)
Definition descriptors (resolver : PathResolver) : list ExecutionRoot :=
  sort_by (λ a b, str_leb (as_str (er_id a)) (as_str (er_id b)))
    ((λ kv, re_descriptor kv.2) <$> map_to_list resolver).

(** ** What the resolver relies on

    [tree] is the part of the world that holds the directory tree.  The laws say
    that observing leaves the tree alone, that what [lstat] says depends on the
    tree only, and how POSIX path resolution treats canonical paths, links and
    missing entries. *)
Definition lstat {V} `{!NativeFs V} (w : V) (p : npath) : IoError + NativeMetadata :=
  (n_symlink_metadata p w).1.
Definition missing {V} `{!NativeFs V} (w : V) (p : npath) : Prop :=
  ∃ e, lstat w p = inl e ∧ is_not_found e = true.
(** Every prefix of the path exists and is not a symbolic link. *)
Definition real {V} `{!NativeFs V} (w : V) (p : npath) : Prop :=
  DOTDOT ∉ p ∧ ∀ k, k ≤ length p → ∃ m, lstat w (take k p) = inr m ∧ is_symlink m = false.
(** Where a link's target is looked up. *)
Definition target_path (p : npath) (t : LinkTarget) : npath :=
  if lt_absolute t then lt_path t else take (length p - 1) p ++ lt_path t.

(** The bytes of a file, and how they come: one [read] gives at most the 64 KiB of
    the buffer it is given, and a file's size is a [u64]. *)
Definition read_bytes (r : IoError + bytes) : bytes :=
  match r with inr chunk => chunk | inl _ => [] end.
Definition buffer_sized (r : IoError + bytes) : Prop :=
  match r with inr chunk => (N.of_nat (length chunk) ≤ 65536)%N | inl _ => True end.
Class NativeLaws {V T : Type} `{!NativeFs V} (tree : V → T) : Prop := {
  canonicalize_reads : ∀ p w, tree (n_canonicalize p w).2 = tree w;
  metadata_reads : ∀ p w, tree (n_metadata p w).2 = tree w;
  lstat_reads : ∀ p w, tree (n_symlink_metadata p w).2 = tree w;
  read_link_reads : ∀ p w, tree (n_read_link p w).2 = tree w;
  open_reads : ∀ p w, tree (n_open p w).2 = tree w;
  read_dir_reads : ∀ p w, tree (n_read_dir p w).2 = tree w;
  open_chunks : ∀ p w chunks, (n_open p w).1 = inr chunks → Forall buffer_sized chunks;
  open_size : ∀ p w chunks, (n_open p w).1 = inr chunks →
    in_u64 (N.of_nat (length (chunks ≫= read_bytes)));
  lstat_stable : ∀ p w w', tree w = tree w' → lstat w p = lstat w' p;
  canonicalize_real : ∀ p w q, (n_canonicalize p w).1 = inr q → real w q;
  canonicalize_child : ∀ p w q n, (n_canonicalize p w).1 = inr q →
    missing w (p ++ [n]) → missing w (q ++ [n]);
  link_child : ∀ p w t n, (n_read_link p w).1 = inr t →
    missing w (p ++ [n]) → missing w (target_path p t ++ [n]);
  missing_parent : ∀ p w n e, missing w (p ++ [n]) → lstat w p = inl e → is_not_found e = true;
}.

(** ** Native path lemmas *)

Lemma parent_snoc p n : parent (p ++ [n]) = Some p.
Proof.
  unfold parent. destruct (p ++ [n]) eqn:E; [by destruct p|]. rewrite <-E, length_app. simpl.
  f_equal. rewrite take_app_le by lia. apply take_ge. lia.
Qed.
Lemma parent_Some p q : parent p = Some q → ∃ n, p = q ++ [n].
Proof.
  destruct p as [|n q' _] using rev_ind; [done|]. rewrite parent_snoc. intros [= ->]. by eexists.
Qed.
Lemma file_name_Some p n : file_name p = Some n → n ≠ DOTDOT ∧ ∃ q, p = q ++ [n] ∧ parent p = Some q.
Proof.
  unfold file_name. destruct (last p) as [n'|] eqn:E; [|done].
  apply last_Some in E as [q ->]. unfold str_eqb. case_bool_decide; [done|]. intros [= ->].
  split; [done|]. exists q. split; [done|]. apply parent_snoc.
Qed.
Lemma path_starts_with_spec p b : path_starts_with p b = true ↔ b `prefix_of` p.
Proof.
  unfold path_starts_with. rewrite bool_decide_eq_true. split.
  - intros H. exists (drop (length b) p). rewrite <-H at 1. by rewrite take_drop.
  - intros [k ->]. by rewrite take_app_length.
Qed.
Lemma ensure_contained_ok p b u : ensure_contained p b = Ok u → b `prefix_of` p.
Proof.
  unfold ensure_contained. destruct (path_starts_with p b) eqn:E; [|done].
  intros _. by apply path_starts_with_spec.
Qed.
Lemma ensure_contained_no_panic p b : ensure_contained p b ≠ Panic.
Proof. unfold ensure_contained. by case_match. Qed.
Lemma ok_or_no_panic {A} e (o : option A) : ok_or (E:=ExecutionError) e o ≠ Panic.
Proof. by destruct o. Qed.
Lemma candidate_no_panic {dbg : DebugStr} resolver spec : candidate resolver spec ≠ Panic.
Proof.
  unfold candidate. destruct (validate spec); [|done]. by destruct (resolver !! root_id spec).
Qed.
#[export] Hint Resolve ensure_contained_no_panic ok_or_no_panic candidate_no_panic : effects.

(** ** No operation of the resolver runs out of fuel *)

Section resolver_total.
Context {V : Type} `{!NativeFs V} {dbg : DebugStr} (resolver : PathResolver).

Lemma m_safe_await {A} p (op : nio V A) : m_safe (await_io p op).
Proof. intros w. unfold await_io. by destruct (op w) as [[]]. Qed.
Lemma m_safe_outcome {A} (op : nio V A) : m_safe (outcome op).
Proof. intros w. unfold outcome. by destruct (op w). Qed.
#[local] Hint Resolve m_safe_await m_safe_outcome m_safe_lift : effects.

(** Walks a computation of the resolver, bind by bind. *)
Ltac safe_steps :=
  repeat first
    [ done
    | solve [auto with effects]
    | apply m_safe_bind'; [|intros ?]
    | match goal with |- m_safe (match ?x with _ => _ end) => destruct x eqn:? end ].

Lemma m_safe_canonical_child cand b : m_safe (W:=V) (canonical_child cand b).
Proof. unfold canonical_child. safe_steps. Qed.
Lemma m_safe_existing_ancestor fuel p ms : length p ≤ fuel → m_safe (W:=V) (existing_ancestor fuel p ms).
Proof.
  revert p ms. induction fuel as [|fuel IH]; intros p ms Hlen; simpl;
    (eapply m_safe_bind'; [auto with effects|]; intros [e|m]; [|auto with effects]);
    destruct (file_name p) as [n|] eqn:Hn; [|done| |done];
    pose proof Hn as (_ & q & -> & Hq)%file_name_Some; rewrite length_app in Hlen; simpl in Hlen;
    [lia|].
  rewrite Hq. cbn [ok_or]. apply IH. lia.
Qed.
Lemma m_safe_ancestor cand b : m_safe (W:=V) (resolve_through_existing_ancestor cand b).
Proof.
  unfold resolve_through_existing_ancestor. apply m_safe_bind'; [by apply m_safe_existing_ancestor|].
  intros [??]. safe_steps.
Qed.
Lemma m_safe_creation_walk follow b fuel cand :
  (∀ t, m_safe (follow t)) → length cand ≤ fuel → m_safe (W:=V) (creation_walk follow b fuel cand).
Proof.
  intros Hf. revert cand. induction fuel as [|fuel IH]; intros cand Hlen; simpl;
    (apply m_safe_bind'; [auto with effects|]; intros meta;
     apply m_safe_bind'; [|intros ?; safe_steps]); destruct meta as [e|m];
    [ |destruct (is_symlink m); [|auto with effects]
    | |destruct (is_symlink m); [|auto with effects] ].
  1,3: destruct (is_not_found e); [|done];
    destruct (parent cand) as [q|] eqn:Hq; [|done];
    apply parent_Some in Hq as [n ->]; rewrite length_app in Hlen; simpl in Hlen; try lia;
    change (m_safe (W:=V) (name ← lift (ok_or (invalid_path (str! "path has no file name")) (file_name (q ++ [n])));
              p ← creation_walk follow b fuel q; mret (p ++ [name])));
    (apply m_safe_bind'; [auto with effects|intros name];
     apply m_safe_bind'; [apply IH; lia|auto with effects]).
  all: apply m_safe_bind'; [auto with effects|]; intros t;
    apply m_safe_bind'; [apply m_safe_lift|done]; destruct (lt_absolute t); [done|];
    by destruct (parent cand).
Qed.
Lemma m_safe_creation links b cand : m_safe (W:=V) (resolve_for_creation links b cand).
Proof.
  revert cand. induction links as [|links IH]; intros cand; simpl; [done|].
  by apply m_safe_creation_walk.
Qed.
#[local] Hint Resolve m_safe_ancestor m_safe_creation m_safe_canonical_child : effects.

Lemma m_safe_resolve_existing spec f : m_safe (W:=V) (resolve_existing resolver spec f).
Proof. unfold resolve_existing. safe_steps. Qed.
Lemma m_safe_resolve_for_write spec f : m_safe (W:=V) (resolve_for_write resolver spec f).
Proof. unfold resolve_for_write. safe_steps. Qed.
Lemma m_safe_resolve_in_place spec : m_safe (W:=V) (resolve_for_in_place_write resolver spec).
Proof. unfold resolve_for_in_place_write. safe_steps. Qed.
Lemma m_safe_resolve_directory spec : m_safe (W:=V) (resolve_for_directory_creation resolver spec).
Proof. unfold resolve_for_directory_creation, resolve_for_in_place_write. safe_steps. Qed.
End resolver_total.
#[export] Hint Resolve m_safe_await m_safe_outcome m_safe_resolve_existing m_safe_resolve_for_write
  m_safe_resolve_in_place m_safe_resolve_directory : effects.

(** ** Containment *)

(** The four resolutions whose path is then used. *)
Inductive resolution :=
  | ForExisting (follow : bool) | ForWrite (follow : bool) | ForInPlaceWrite | ForDirectoryCreation.
Definition resolve {V} `{!NativeFs V} {dbg : DebugStr} (resolver : PathResolver) (how : resolution)
    (spec : ExecutionPath) : M V npath :=
  match how with
  | ForExisting follow => resolve_existing resolver spec follow
  | ForWrite follow => resolve_for_write resolver spec follow
  | ForInPlaceWrite => resolve_for_in_place_write resolver spec
  | ForDirectoryCreation => resolve_for_directory_creation resolver spec
  end.
Definition follows (how : resolution) : bool :=
  match how with ForExisting f | ForWrite f => f | _ => true end.
Definition mutates (how : resolution) : bool :=
  match how with ForExisting _ => false | _ => true end.

(** A path the operating system uses as it is written: an existing part that
    holds no link, then at most one component when links are not followed, or
    components whose first is missing. *)
Definition physical {V} `{!NativeFs V} (follow : bool) (w : V) (p : npath) : Prop :=
  DOTDOT ∉ p ∧ ∃ base rest, p = base ++ rest ∧ real w base ∧
    (rest = [] ∨ (follow = false ∧ length rest = 1) ∨
     ∃ n rest', rest = n :: rest' ∧ missing w (base ++ [n])).

(** Where the operating system comes when it looks a path up, creating what is missing:
    what exists is where its canonical path says, a link continues at its target, and a
    missing component is looked for where its parent leads. *)
Inductive leads {V} `{!NativeFs V} (w0 : V) : npath → npath → Prop :=
  | leads_canonical p w q :
      (∀ p', lstat w p' = lstat w0 p') → (n_canonicalize p w).1 = inr q → leads w0 p q
  | leads_link p m w t q :
      lstat w0 p = inr m → is_symlink m = true →
      (∀ p', lstat w p' = lstat w0 p') → (n_read_link p w).1 = inr t →
      leads w0 (target_path p t) q → leads w0 p q
  | leads_missing par n q : missing w0 (par ++ [n]) → leads w0 par q → leads w0 (par ++ [n]) (q ++ [n]).

Section containment.
Context {V T : Type} `{!NativeFs V} {dbg : DebugStr} (tree : V → T) `{!NativeLaws tree}.
Context (w0 : V).

(** A computation that leaves the tree as it was in [w0]; its results satisfy [Q]. *)
Definition triple {A} (m : M V A) (Q : A → Prop) : Prop :=
  ∀ w, tree w = tree w0 → tree (m w).2 = tree w0 ∧ ∀ a, (m w).1 = Ok a → Q a.

Lemma triple_bind {A B} (m : M V A) (f : A → M V B) Q R :
  triple m Q → (∀ a, Q a → triple (f a) R) → triple (m ≫= f) R.
Proof.
  intros Hm Hf w Hw. destruct (Hm w Hw) as [H1 H2]. unfold mbind, M_bind.
  destruct (m w) as [[a|e|] w']; simpl in *; [|done|done]. apply Hf; auto.
Qed.
Lemma triple_ret {A} (a : A) (Q : A → Prop) : Q a → triple (mret a) Q.
Proof. intros HQ w Hw. split; [done|]. by intros ? [= <-]. Qed.
Lemma triple_lift {A} (r : ExecutionResult A) (Q : A → Prop) : (∀ a, r = Ok a → Q a) → triple (lift r) Q.
Proof. intros HQ w Hw. by split. Qed.
Lemma triple_throw {A} e (Q : A → Prop) : triple (throw e) Q.
Proof. by apply triple_lift. Qed.
Lemma triple_mono {A} (m : M V A) (Q R : A → Prop) : triple m Q → (∀ a, Q a → R a) → triple m R.
Proof. intros Hm HQR w Hw. destruct (Hm w Hw). eauto. Qed.

Lemma missing_stable w w' p : tree w = tree w' → missing w p → missing w' p.
Proof. unfold missing. by intros ->%(lstat_stable p). Qed.
Lemma real_stable w w' p : tree w = tree w' → real w p → real w' p.
Proof.
  intros Hw [Hd H]. split; [done|]. intros k Hk. rewrite <-(lstat_stable _ w w') by done. by apply H.
Qed.
Lemma triple_lstat p : triple (outcome (n_symlink_metadata p)) (λ r, r = lstat w0 p).
Proof.
  intros w Hw. unfold outcome. pose proof (lstat_reads (tree:=tree) p w) as Hr.
  pose proof (lstat_stable (tree:=tree) p w w0 Hw) as Hs. unfold lstat in *.
  destruct (n_symlink_metadata p w) as [r w']; simpl in *. split; [congruence|]. naive_solver.
Qed.
Lemma triple_lstat_await q p : triple (await_io q (n_symlink_metadata p)) (λ m, lstat w0 p = inr m).
Proof.
  intros w Hw. unfold await_io. pose proof (lstat_reads (tree:=tree) p w) as Hr.
  pose proof (lstat_stable (tree:=tree) p w w0 Hw) as Hs. unfold lstat in *.
  destruct (n_symlink_metadata p w) as [[e|r] w']; simpl in *; split; naive_solver congruence.
Qed.
Lemma triple_canonicalize q p :
  triple (await_io q (n_canonicalize p))
    (λ c, real w0 c ∧ (∀ n, missing w0 (p ++ [n]) → missing w0 (c ++ [n])) ∧ leads w0 p c).
Proof.
  intros w Hw. unfold await_io. pose proof (canonicalize_reads (tree:=tree) p w) as Hr.
  pose proof (canonicalize_real (tree:=tree) p w) as H1.
  pose proof (canonicalize_child (tree:=tree) p w) as H2.
  pose proof (leads_canonical w0 p w) as H3.
  destruct (n_canonicalize p w) as [[e|r] w']; simpl in *; (split; [congruence|]); [done|].
  intros ? [= <-]. split; [by apply (real_stable w), H1|]. split.
  - intros n Hn. eapply missing_stable; [done|]. apply H2; [done|]. by eapply missing_stable; [symmetry|].
  - apply H3; [|done]. intros p'. by apply (lstat_stable (tree:=tree)).
Qed.
Lemma triple_read_link q p :
  triple (await_io q (n_read_link p)) (λ t,
    (∀ n, missing w0 (p ++ [n]) → missing w0 (target_path p t ++ [n])) ∧
    ∀ m c, lstat w0 p = inr m → is_symlink m = true → leads w0 (target_path p t) c → leads w0 p c).
Proof.
  intros w Hw. unfold await_io. pose proof (read_link_reads (tree:=tree) p w) as Hr.
  pose proof (link_child (tree:=tree) p w) as H1.
  assert (H2 : ∀ m t c, lstat w0 p = inr m → is_symlink m = true → (n_read_link p w).1 = inr t →
    leads w0 (target_path p t) c → leads w0 p c).
  { intros m t c Hm Hl Ht. apply (leads_link w0 p m w t c Hm Hl); [|done]. intros p'. by apply (lstat_stable (tree:=tree)). }
  destruct (n_read_link p w) as [[e|r] w']; simpl in *; (split; [congruence|]); [done|].
  intros ? [= <-]. split; [|by intros m c Hm Hl; apply (H2 m)].
  intros n Hn. eapply missing_stable; [done|]. apply H1; [done|]. by eapply missing_stable; [symmetry|].
Qed.

Lemma triple_canonical_child cand b :
  triple (canonical_child cand b) (λ p, ∃ base n, p = base ++ [n] ∧ real w0 base ∧ n ≠ DOTDOT).
Proof.
  unfold canonical_child. eapply triple_bind; [by apply triple_lift with (Q := λ _, True)|]. intros q _.
  eapply triple_bind; [apply triple_canonicalize|]. intros c [Hc _].
  eapply triple_bind; [by apply triple_lift with (Q := λ _, True)|]. intros _ _.
  destruct (file_name cand) as [n|] eqn:Hn; [|apply triple_throw].
  apply file_name_Some in Hn as [Hn _].
  apply (triple_bind _ _ (λ m, m = n)); [apply triple_lift; by intros ? [= ->]|]. intros ? ->.
  apply triple_ret. eauto.
Qed.

(** The components stripped so far lead back to the candidate, and the topmost
    of them is missing. *)
Definition stripped (cand ancestor : npath) (names : list str) : Prop :=
  cand = ancestor ++ reverse names ∧ Forall (λ n, n ≠ DOTDOT) names ∧
  from_option (λ n, missing w0 (ancestor ++ [n])) (missing w0 ancestor) (last names).

Lemma triple_existing_ancestor cand fuel ancestor names :
  stripped cand ancestor names →
  triple (existing_ancestor fuel ancestor names) (λ '(a, ns), ns ≠ [] ∧ stripped cand a ns).
Proof.
  revert ancestor names. induction fuel as [|fuel IH]; intros ancestor names Hs; simpl;
    (eapply triple_bind; [apply triple_lstat|]; intros [e|m] Hm).
  2,4: apply triple_ret; split; [|done]; intros ->; destruct Hs as (_ & _ & e & He & _); congruence.
  all: destruct (file_name ancestor) as [n|] eqn:Hn; [|apply triple_throw];
    apply file_name_Some in Hn as (Hn & q & -> & Hq); rewrite Hq;
    destruct Hs as (-> & Hnames & Hmiss).
  { intros w Hw. by split. }
  change (triple (existing_ancestor fuel q (names ++ [n])) (λ '(a, ns),
    ns ≠ [] ∧ stripped ((q ++ [n]) ++ reverse names) a ns)).
  apply IH. split_and!.
  - by rewrite reverse_snoc, <-(assoc_L (++)).
  - apply Forall_app. by split; [|constructor].
  - rewrite last_snoc. simpl. destruct (last names) as [k|]; simpl in Hmiss; [|done].
    eexists. split; [done|]. by eapply (missing_parent (tree:=tree)).
Qed.
Lemma triple_ancestor cand b :
  missing w0 cand →
  triple (resolve_through_existing_ancestor cand b) (physical true w0).
Proof.
  intros Hc. unfold resolve_through_existing_ancestor.
  eapply triple_bind.
  { apply (triple_existing_ancestor cand). split_and!; [by rewrite app_nil_r|done|done]. }
  intros [a ns] (Hne & -> & Hns & Hmiss).
  eapply triple_bind; [apply triple_canonicalize|]. intros c (Hreal & Hchild & _).
  eapply triple_bind; [by apply triple_lift with (Q := λ _, True)|]. intros _ _. apply triple_ret.
  assert (Hd : DOTDOT ∉ reverse ns).
  { rewrite Forall_forall in Hns. rewrite elem_of_reverse. intros ?. by eapply Hns. }
  split; [rewrite elem_of_app; intros [?|?]; [by apply Hreal|done]|].
  exists c, (reverse ns). split_and!; [done|done|]. right; right.
  destruct ns as [|k ns' _] using rev_ind; [done|]. rewrite last_snoc in Hmiss.
  exists k, (reverse ns'). rewrite reverse_snoc. auto.
Qed.

(** What [resolve_for_creation] knows of the path it returns for a candidate. *)
Definition created (cand p : npath) : Prop :=
  leads w0 cand p ∧ DOTDOT ∉ p ∧
  ((real w0 p ∧ ∀ n, missing w0 (cand ++ [n]) → missing w0 (p ++ [n])) ∨
   ∃ base n rest, p = base ++ n :: rest ∧ real w0 base ∧ missing w0 (base ++ [n])).

Lemma created_physical cand p : created cand p → physical true w0 p.
Proof.
  intros (_ & Hd & [[Hr _]|(base & n & rest & -> & Hr & Hm)]); (split; [done|]).
  - exists p, []. rewrite app_nil_r. auto.
  - exists base, (n :: rest). eauto 10.
Qed.
Lemma created_child par n p :
  created par p → n ≠ DOTDOT → missing w0 (par ++ [n]) → created (par ++ [n]) (p ++ [n]).
Proof.
  intros (Hl & Hd & Hp) Hn Hm. split; [by apply leads_missing|]. split.
  { rewrite elem_of_app, list_elem_of_singleton. naive_solver. }
  right. destruct Hp as [[Hr Hc]|(base & k & rest & -> & Hr & Hk)].
  - exists p, n, []. auto.
  - exists base, k, (rest ++ [n]). by rewrite <-(assoc_L (++)).
Qed.
Lemma created_link cand t p :
  (∀ n, missing w0 (cand ++ [n]) → missing w0 (t ++ [n])) → (leads w0 t p → leads w0 cand p) →
  created t p → created cand p.
Proof.
  intros Ht Hl (H & Hd & [[Hr Hc]|Hm]); (split; [by apply Hl|]); (split; [done|]); [left|by right]. split; [done|]. auto.
Qed.

Lemma triple_canonical q cand : triple (await_io q (n_canonicalize cand)) (created cand).
Proof.
  eapply triple_mono; [apply triple_canonicalize|]. intros c (Hr & Hc & Hl).
  split; [done|]. split; [by destruct Hr|]. auto.
Qed.
(** The branch of a link: its target is what is resolved. *)
Lemma triple_follow q cand (follow : npath → M V npath) m :
  lstat w0 cand = inr m → is_symlink m = true →
  (∀ t, triple (follow t) (created t)) →
  triple (target ← await_io q (n_read_link cand);
          target ← lift (if lt_absolute target then Ok (lt_path target)
                         else par ← ok_or (invalid_path (str! "link has no parent")) (parent cand);
                              Ok (par ++ lt_path target));
          follow target) (created cand).
Proof.
  intros Hm Hlink Hf. eapply triple_bind; [apply triple_read_link|]. intros t [Ht Hl].
  apply (triple_bind _ _ (λ p, p = target_path cand t)).
  - apply triple_lift. intros p. unfold target_path. destruct (lt_absolute t); [by intros [= ->]|].
    destruct cand as [|n c]; [done|]. by intros [= <-].
  - intros ? ->. eapply triple_mono; [apply Hf|]. intros p. apply created_link; [done|]. by apply (Hl m).
Qed.
Lemma triple_creation_walk follow b fuel cand :
  (∀ t, triple (follow t) (created t)) →
  triple (creation_walk follow b fuel cand) (λ p, created cand p ∧ b `prefix_of` p).
Proof.
  intros Hf. revert cand. induction fuel as [|fuel IH]; intros cand; simpl;
    (eapply triple_bind; [apply triple_lstat|]; intros meta Hmeta;
     apply (triple_bind _ _ (created cand));
     [|intros p Hp; eapply (triple_bind _ _ (λ _, b `prefix_of` p));
       [apply triple_lift; intros u; apply ensure_contained_ok|by intros _ ?; apply triple_ret]]);
    destruct meta as [e|m];
    [ |destruct (is_symlink m) eqn:Hm; [by eapply triple_follow|by apply triple_canonical]
    | |destruct (is_symlink m) eqn:Hm; [by eapply triple_follow|by apply triple_canonical] ].
  all: destruct (is_not_found e) eqn:He; [|apply triple_throw];
    (destruct (parent cand) as [q|] eqn:Hq; [|apply triple_throw]);
    apply parent_Some in Hq as [k ->];
    eapply triple_bind; [by apply triple_lift with (Q := λ a, a = q); intros ? [= ->]|];
    intros ? ->;
    (destruct (file_name (q ++ [k])) as [n|] eqn:Hn; [|apply triple_throw]);
    apply file_name_Some in Hn as (Hn & q' & Hq' & _);
    apply app_inj_tail in Hq' as [<- <-];
    eapply triple_bind; [by apply triple_lift with (Q := λ a, a = k); intros ? [= ->]|];
    intros ? ->.
  - by intros w Hw.
  - eapply triple_bind; [apply IH|]. intros p [Hp _]. apply triple_ret.
    apply created_child; [done|done|]. by exists e.
Qed.
Lemma triple_creation links b cand : triple (resolve_for_creation links b cand) (created cand).
Proof.
  revert cand. induction links as [|links IH]; intros cand; simpl; [apply triple_throw|].
  eapply triple_mono; [by apply triple_creation_walk|]. by intros p [??].
Qed.
Lemma triple_in_place links b cand :
  triple (resolve_for_creation links b cand) (λ p, leads w0 cand p ∧ physical true w0 p ∧ b `prefix_of` p).
Proof.
  destruct links as [|links]; simpl; [apply triple_throw|].
  eapply triple_mono; [apply triple_creation_walk, triple_creation|].
  intros p [Hp ?]. split; [apply Hp|]. split; [by eapply created_physical|done].
Qed.

(** What a resolution promises, in the world it started from: a path below the root
    that is physical.  The path a directory is created at keeps the spelling of the
    request; where it leads is below the root and physical. *)
Definition contained (resolver : PathResolver) (how : resolution) (spec : ExecutionPath) (p : npath) : Prop :=
  ∃ entry, resolver !! root_id spec = Some entry ∧
    (mutates how = true → read_only (re_descriptor entry) = false) ∧
    re_canonical entry `prefix_of` p ∧
    match how with
    | ForDirectoryCreation => ∃ q, leads w0 p q ∧ re_canonical entry `prefix_of` q ∧ physical true w0 q
    | _ => physical (follows how) w0 p
    end.

Lemma candidate_ok resolver spec cand b ro :
  candidate resolver spec = Ok (cand, b, ro) →
  ∃ entry, resolver !! root_id spec = Some entry ∧ b = re_canonical entry ∧
           ro = read_only (re_descriptor entry) ∧ b `prefix_of` cand.
Proof.
  unfold candidate. destruct (validate spec); [|done]. intros H. inv_ok H. simplify_eq.
  exists a. split_and!; [|done|done|by apply prefix_app_r].
  destruct (resolver !! root_id spec); by simplify_eq/=.
Qed.
Lemma physical_real follow p : real w0 p → physical follow w0 p.
Proof. intros Hr. split; [by destruct Hr|]. exists p, []. rewrite app_nil_r. auto. Qed.
Lemma physical_child base n : real w0 base → n ≠ DOTDOT → physical false w0 (base ++ [n]).
Proof.
  intros Hr Hn. split.
  - rewrite elem_of_app, list_elem_of_singleton. intros [?|?]; [by apply Hr|done].
  - exists base, [n]. split_and!; [done|done|]. by right; left.
Qed.
Lemma physical_missing follow p : physical true w0 p → physical follow w0 p.
Proof. intros (Hd & base & rest & -> & Hr & [?|[[? _]|?]]); [|done|]; (split; [done|]); eauto 10. Qed.

(** The last check of a resolution, and what is known once it passed. *)
Lemma triple_checked (m : M V npath) b (Q : npath → Prop) :
  triple m Q → triple (p ← m; _ ← lift (ensure_contained p b); mret p) (λ p, Q p ∧ b `prefix_of` p).
Proof.
  intros Hm. eapply triple_bind; [done|]. intros p Hp.
  eapply (triple_bind _ _ (λ _, b `prefix_of` p)).
  - apply triple_lift. intros u. apply ensure_contained_ok.
  - intros _ Hb. by apply triple_ret.
Qed.
Lemma triple_existing_path follow cand b :
  triple (if follow || bool_decide (cand = b) then await_io cand (n_canonicalize cand)
          else p ← canonical_child cand b; _ ← await_io p (n_symlink_metadata p); mret p)
    (physical follow w0).
Proof.
  destruct (follow || bool_decide (cand = b)) eqn:E.
  - eapply triple_mono; [apply triple_canonicalize|]. intros p (Hp & _ & _). by apply physical_real.
  - eapply triple_bind; [apply triple_canonical_child|]. intros p (base & n & -> & Hr & Hn).
    eapply triple_bind; [apply triple_lstat_await|]. intros _ _. apply triple_ret.
    destruct follow; [done|]. by apply physical_child.
Qed.
Lemma triple_write_path (follow : bool) cand b (meta : IoError + NativeMetadata) :
  meta = lstat w0 cand →
  triple (match meta with
          | inr _ => if follow then await_io cand (n_canonicalize cand) else canonical_child cand b
          | inl e => if is_not_found e then resolve_through_existing_ancestor cand b
                     else throw (io_error (display cand) e)
          end) (physical follow w0).
Proof.
  intros Hmeta. destruct meta as [e|m].
  - destruct (is_not_found e) eqn:He; [|apply triple_throw].
    apply (triple_mono _ (physical true w0)); [|by intros p; apply physical_missing].
    apply triple_ancestor. by exists e.
  - destruct follow.
    + eapply triple_mono; [apply triple_canonicalize|]. intros p (Hp & _ & _). by apply physical_real.
    + eapply triple_mono; [apply triple_canonical_child|]. intros p (base & n & -> & Hr & Hn).
      by apply physical_child.
Qed.

Lemma triple_directory resolver spec :
  triple (resolve_for_directory_creation resolver spec) (contained resolver ForDirectoryCreation spec).
Proof.
  unfold resolve_for_directory_creation. apply (triple_bind _ _ (λ q, ∃ cand b, candidate resolver spec = Ok (cand, b, false) ∧
    leads w0 cand q ∧ physical true w0 q ∧ b `prefix_of` q)).
  - unfold resolve_for_in_place_write.
    apply (triple_bind _ _ (λ '(c, b, ro), candidate resolver spec = Ok (c, b, ro)));
      [by apply triple_lift; intros [[??]?]|]. intros [[cand b] ro] Hc. destruct ro; [apply triple_throw|].
    eapply triple_mono; [apply triple_in_place|]. intros p Hp. by exists cand, b.
  - intros q (cand & b & Hc & Hl & Hq & Hb).
    apply (triple_bind _ _ (λ a, a = (cand, b, false))); [apply triple_lift; intros a Ha; congruence|]. intros ? ->.
    apply candidate_ok in Hc as (entry & Hentry & -> & Hro & Hpre). apply triple_ret.
    exists entry. split_and!; [done|done|done|]. by exists q.
Qed.
Lemma triple_resolve resolver how spec :
  triple (resolve resolver how spec) (contained resolver how spec).
Proof.
  destruct how as [follow|follow| |]; simpl;
    [unfold resolve_existing|unfold resolve_for_write|unfold resolve_for_in_place_write|apply triple_directory];
    (apply (triple_bind _ _ (λ '(c, b, ro), candidate resolver spec = Ok (c, b, ro)));
     [by apply triple_lift; intros [[??]?]|]; intros [[cand b] ro] Hc;
     apply candidate_ok in Hc as (entry & Hentry & -> & -> & Hpre)).
  - eapply triple_mono; [apply triple_checked, triple_existing_path|].
    intros p [Hp Hb]. exists entry. by split_and!.
  - (destruct (read_only (re_descriptor entry)) eqn:Hro; [apply triple_throw|]).
    eapply triple_bind; [apply triple_lstat|]. intros meta Hmeta.
    eapply triple_mono; [by apply triple_checked, triple_write_path|].
    intros p [Hp Hb]. exists entry. by split_and!.
  - destruct (read_only (re_descriptor entry)) eqn:Hro; [apply triple_throw|].
    eapply triple_mono; [apply triple_in_place|].
    intros p (_ & Hp & Hb). exists entry. by split_and!.
Qed.
End containment.

(** C19. A path the resolver returns, in a tree nobody else changes meanwhile, is
    below the canonical directory of the requested root, has no parent segment,
    and is physical: the operating system follows no symbolic link to use it,
    except the last component when links are not followed, and any component
    that does not exist yet hangs below a real directory.  The path of a directory
    to be created keeps its links, and the operating system, following them, comes
    to a path that is below the root and physical.  A path to write to is
    never returned for a read-only root, and resolving leaves the tree alone. *)
Theorem resolved_path_contained {V T : Type} `{!NativeFs V} {dbg : DebugStr} (tree : V → T)
    `{!NativeLaws tree} (resolver : PathResolver) (how : resolution) (spec : ExecutionPath) (w : V) :
  tree (resolve resolver how spec w).2 = tree w ∧
  ∀ p, (resolve resolver how spec w).1 = Ok p → contained w resolver how spec p.
Proof. by apply (triple_resolve tree w). Qed.

(** Resolving never runs out of fuel, whatever links the tree holds: chains
    and cycles of links end in an error after forty of them. *)
Theorem resolve_never_stuck {V : Type} `{!NativeFs V} {dbg : DebugStr} (resolver : PathResolver)
    (how : resolution) (spec : ExecutionPath) (w : V) :
  (resolve resolver how spec w).1 ≠ Panic.
Proof.
  destruct how; simpl;
    [apply m_safe_resolve_existing|apply m_safe_resolve_for_write|apply m_safe_resolve_in_place
    |apply m_safe_resolve_directory].
Qed.
