(* ===== verification/NativeMemory.v ===== *)
(** A small in-memory POSIX filesystem with directories, files and symbolic links:
    an instance of [NativeFs] that satisfies [NativeLaws].  The supervisor's
    theorems are proved for every filesystem; this is the one their witnesses run
    on.  Its instances are local. *)
From Stdlib Require Import ZifyBool.
From stdpp Require Import prelude gmap strings pretty list.
From S2P Require Import Prelude.
From S2P Require Import Text.
From S2P Require Import Core.
From S2P Require Import Host.
From S2P Require Import ProcessCore.
From S2P Require Import Resolver.

Inductive node := NDir | NFile (data : bytes) | NLink (target : LinkTarget).
Definition is_link (n : node) : bool := match n with NLink _ => true | _ => false end.

Record NativeWorld := { nw_nodes : gmap npath node; nw_fresh : nat }.
Definition node_at (nodes : gmap npath node) (p : npath) : option node :=
  match p with [] => Some NDir | _ => nodes !! p end.
Definition up (p : npath) : npath := take (length p - 1) p.

Definition not_found : IoError := {| io_kind := IoNotFound; io_display := str! "not found" |}.
Definition io_other (m : str) : IoError := {| io_kind := IoOther; io_display := m |}.
Definition not_a_directory : IoError := io_other (str! "not a directory").

(** Path resolution: [depth] bounds the nesting of links. *)
Fixpoint walk (nodes : gmap npath node) (depth : nat) : npath → npath → IoError + npath :=
  fix go acc names :=
    match names with
    | [] => inr acc
    | name :: names =>
      match node_at nodes acc with
      | Some NDir =>
        if str_eqb name DOTDOT then go (up acc) names
        else match nodes !! (acc ++ [name]) with
             | None => inl not_found
             | Some (NLink t) =>
               match depth with
               | 0 => inl (io_other (str! "too many links"))
               | S depth =>
                 match walk nodes depth (if lt_absolute t then [] else acc) (lt_path t) with
                 | inl e => inl e
                 | inr target => go target names
                 end
               end
             | Some _ => go (acc ++ [name]) names
             end
      | Some _ => inl not_a_directory
      | None => inl not_found
      end
    end.
Definition max_links : nat := 8.

Definition node_metadata (n : node) : NativeMetadata :=
  {| nm_kind := match n with NDir => Directory | NFile _ => File | NLink _ => Symlink end;
     nm_len := match n with NFile d => N.of_nat (length d) | _ => 0%N end; nm_modified := None |}.
(** The entry a path names, its last component not followed. *)
Definition look (nodes : gmap npath node) (p : npath) : IoError + node :=
  match last p with
  | None => inr NDir
  | Some name =>
    match walk nodes max_links [] (up p) with
    | inl e => inl e
    | inr dir =>
      match node_at nodes dir with
      | Some NDir =>
        if str_eqb name DOTDOT then inr NDir
        else match nodes !! (dir ++ [name]) with Some n => inr n | None => inl not_found end
      | Some _ => inl not_a_directory
      | None => inl not_found
      end
    end
  end.

Definition observe_nodes {A} (f : gmap npath node → IoError + A) : nio NativeWorld A :=
  λ w, (f (nw_nodes w), w).
Definition change_nodes (f : gmap npath node → IoError + gmap npath node) : nio NativeWorld unit := λ w,
  match f (nw_nodes w) with
  | inl e => (inl e, w)
  | inr nodes => (inr tt, {| nw_nodes := nodes; nw_fresh := nw_fresh w |})
  end.
(** Puts a node where a path leads, creating its last component if need be. *)
Definition put (p : npath) (n : node) (nodes : gmap npath node) : IoError + gmap npath node :=
  match walk nodes max_links [] p with
  | inr q => inr (<[q := n]> nodes)
  | inl e =>
    match last p, walk nodes max_links [] (up p) with
    | Some name, inr dir =>
      match nodes !! (dir ++ [name]) with
      | None => inr (<[dir ++ [name] := n]> nodes)
      | Some _ => inl e
      end
    | _, _ => inl e
    end
  end.
Definition drop_node (below : bool) (p : npath) (nodes : gmap npath node) : IoError + gmap npath node :=
  match look nodes p with
  | inl e => inl e
  | inr _ => inr (if below then filter (λ kv, path_starts_with kv.1 p = false) nodes else delete p nodes)
  end.
Fixpoint chunks_of (k : nat) (fuel : nat) (l : bytes) : list bytes :=
  match fuel, l with
  | 0, _ | _, [] => []
  | S fuel, _ => take k l :: chunks_of k fuel (drop k l)
  end.
Definition children (nodes : gmap npath node) (q : npath) : list str :=
  omap (λ kv : npath * node, if bool_decide (up kv.1 = q) then last kv.1 else None) (map_to_list nodes).

#[local] Instance memory_native : NativeFs NativeWorld := {
  n_canonicalize := λ p, observe_nodes (λ nodes, walk nodes max_links [] p);
  n_metadata := λ p, observe_nodes (λ nodes,
    match walk nodes max_links [] p with
    | inl e => inl e
    | inr q => match node_at nodes q with Some n => inr (node_metadata n) | None => inl not_found end
    end);
  n_symlink_metadata := λ p, observe_nodes (λ nodes,
    match look nodes p with inl e => inl e | inr n => inr (node_metadata n) end);
  n_read_link := λ p, observe_nodes (λ nodes,
    match look nodes p with
    | inl e => inl e
    | inr (NLink t) => inr t
    | inr _ => inl {| io_kind := IoInvalidInput; io_display := str! "not a link" |}
    end);
  n_open := λ p, observe_nodes (λ nodes,
    match walk nodes max_links [] p with
    | inl e => inl e
    | inr q => match nodes !! q with
               | Some (NFile d) =>
                 if (N.of_nat (length d) <=? u64_max)%N then inr (inr <$> chunks_of 3 (length d) d)
                 else inl (io_other (str! "file too large"))
               | _ => inl not_found
               end
    end);
  n_write := λ p data, change_nodes (put p (NFile data));
  n_create_new := λ p, change_nodes (λ nodes,
    match look nodes p with
    | inr _ => inl {| io_kind := IoAlreadyExists; io_display := str! "exists" |}
    | inl _ => put p (NFile []) nodes
    end);
  n_write_all := λ p data, change_nodes (put p (NFile data));
  n_set_permissions := λ _ _ w, (inr tt, w);
  n_sync_all := λ _ w, (inr tt, w);
  n_rename := λ p q, change_nodes (λ nodes,
    match look nodes p with
    | inl e => inl e
    | inr n => inr (<[q := n]> (delete p nodes))
    end);
  n_create_dir := λ p, change_nodes (put p NDir);
  n_create_dir_all := λ p, change_nodes (λ nodes,
    inr (foldr (λ k nodes, let q := take (S k) p in
                           match nodes !! q with Some _ => nodes | None => <[q := NDir]> nodes end)
               nodes (seq 0 (length p))));
  n_remove_dir := λ p, change_nodes (drop_node false p);
  n_remove_dir_all := λ p, change_nodes (drop_node true p);
  n_remove_file := λ p, change_nodes (drop_node false p);
  n_read_dir := λ p, observe_nodes (λ nodes,
    match walk nodes max_links [] p with
    | inl e => inl e
    | inr q => inr (inr <$> children nodes q)
    end);
  n_uuid := λ w, (show_nat (nw_fresh w), {| nw_nodes := nw_nodes w; nw_fresh := S (nw_fresh w) |});
}.

(** ** The laws *)

(** A path of directories down to a last node that is not a link. *)
Definition plain (nodes : gmap npath node) (p : npath) : Prop :=
  DOTDOT ∉ p ∧ (∀ k, k < length p → node_at nodes (take k p) = Some NDir) ∧
  ∃ n, node_at nodes p = Some n ∧ is_link n = false.

Section walks.
Context (nodes : gmap npath node).

Lemma plain_nil : plain nodes [].
Proof. split_and!; [set_solver|simpl; lia|]. by eexists. Qed.
Lemma plain_up p : plain nodes p → plain nodes (up p).
Proof.
  unfold up. intros (Hd & H & Hl). destruct (decide (p = [])) as [->|Hne]; [apply plain_nil|].
  assert (0 < length p) by (destruct p; [done|simpl; lia]). split_and!.
  - intros Hin. apply Hd. by apply elem_of_take in Hin as (?&?%list_elem_of_lookup_2&_).
  - intros k Hk. rewrite length_take in Hk. rewrite take_take, Nat.min_l by lia. apply H. lia.
  - exists NDir. split; [apply H; lia|done].
Qed.
Lemma node_at_snoc p name : node_at nodes (p ++ [name]) = nodes !! (p ++ [name]).
Proof. unfold node_at. destruct (p ++ [name]) eqn:E; [by destruct p|done]. Qed.
Lemma plain_snoc p name n :
  plain nodes p → node_at nodes p = Some NDir → name ≠ DOTDOT →
  nodes !! (p ++ [name]) = Some n → is_link n = false → plain nodes (p ++ [name]).
Proof.
  intros (Hd & H & _) Hdir Hn Hlook Hl. split_and!.
  - rewrite elem_of_app, list_elem_of_singleton. naive_solver.
  - intros k Hk. rewrite length_app in Hk. simpl in Hk. rewrite take_app_le by lia.
    destruct (decide (k = length p)) as [->|]; [by rewrite take_ge|apply H; lia].
  - exists n. by rewrite node_at_snoc.
Qed.

Lemma walk_cons depth acc name names :
  walk nodes depth acc (name :: names) =
    match node_at nodes acc with
    | Some NDir =>
      if str_eqb name DOTDOT then walk nodes depth (up acc) names
      else match nodes !! (acc ++ [name]) with
           | None => inl not_found
           | Some (NLink t) =>
             match depth with
             | 0 => inl (io_other (str! "too many links"))
             | S depth' =>
               match walk nodes depth' (if lt_absolute t then [] else acc) (lt_path t) with
               | inl e => inl e
               | inr target => walk nodes depth target names
               end
             end
           | Some _ => walk nodes depth (acc ++ [name]) names
           end
    | Some _ => inl not_a_directory
    | None => inl not_found
    end.
Proof. by destruct depth. Qed.
Lemma walk_nil depth acc : walk nodes depth acc [] = inr acc.
Proof. by destruct depth. Qed.

Lemma walk_app depth acc a b :
  walk nodes depth acc (a ++ b) =
    match walk nodes depth acc a with inl e => inl e | inr q => walk nodes depth q b end.
Proof.
  revert acc. induction a as [|name a IH]; intros acc; [by rewrite walk_nil|].
  cbn [app]. rewrite !walk_cons. destruct (node_at nodes acc) as [[]|]; [|done..].
  case_match; [apply IH|]. destruct (nodes !! _) as [[]|]; [apply IH|apply IH| |done].
  destruct depth; [done|]. case_match; [done|apply IH].
Qed.
Lemma walk_plain depth acc names q :
  plain nodes acc → walk nodes depth acc names = inr q → plain nodes q.
Proof.
  revert acc names q. induction depth as [|depth IHd]; intros acc names;
    revert acc; induction names as [|name names IH]; intros acc q Hacc;
    rewrite ?walk_nil, ?walk_cons; try (by intros [= <-]);
    (destruct (node_at nodes acc) as [[]|] eqn:Hdir; [|done..]);
    (unfold str_eqb; case_bool_decide; [by apply IH, plain_up|]);
    destruct (nodes !! (acc ++ [name])) as [n|] eqn:Hn; [|done| |done];
    (destruct n as [| |t]; [apply IH; by eapply plain_snoc..|]); [done|].
  destruct (walk nodes depth _ (lt_path t)) as [e|target] eqn:Ht; [done|]. apply IH.
  eapply IHd; [|exact Ht]. destruct (lt_absolute t); [apply plain_nil|done].
Qed.
Lemma walk_id depth acc names : plain nodes (acc ++ names) → walk nodes depth acc names = inr (acc ++ names).
Proof.
  revert acc. induction names as [|name names IH]; intros acc (Hd & Hdirs & n & Hn & Hl).
  { by rewrite walk_nil, app_nil_r. }
  rewrite walk_cons.
  pose proof (Hdirs (length acc)) as Ha. rewrite take_app_length in Ha.
  rewrite Ha by (rewrite length_app; simpl; lia).
  unfold str_eqb. rewrite bool_decide_false by (intros ->; set_solver).
  assert (Hnext : ∃ m, nodes !! (acc ++ [name]) = Some m ∧ is_link m = false).
  { destruct names as [|name' names].
    - exists n. by rewrite <-node_at_snoc.
    - exists NDir. split; [|done]. rewrite <-node_at_snoc, <-(Hdirs (S (length acc))).
      + f_equal. replace (acc ++ name :: name' :: names) with ((acc ++ [name]) ++ name' :: names)
          by by rewrite <-(assoc_L (++)).
        rewrite take_app_length'; [done|]. rewrite length_app. simpl. lia.
      + rewrite length_app. simpl. lia. }
  destruct Hnext as (m & Hm & Hml). rewrite Hm.
  assert (Hrec : walk nodes depth (acc ++ [name]) names = inr (acc ++ name :: names)).
  { rewrite IH by (rewrite <-(assoc_L (++)); split_and!; eauto). by rewrite <-(assoc_L (++)). }
  by destruct m.
Qed.

(** A deeper bound changes no answer but the refusal of too many links. *)
Definition settled {A} (r : IoError + A) : Prop := match r with inl e => is_not_found e = true | inr _ => True end.
Lemma walk_deeper depth acc names :
  settled (walk nodes depth acc names) → walk nodes (S depth) acc names = walk nodes depth acc names.
Proof.
  revert acc names. induction depth as [|depth IHd]; intros acc names;
    revert acc; induction names as [|name names IH]; intros acc; [done| |done|];
    rewrite (walk_cons (S _)), (walk_cons _ acc);
    (destruct (node_at nodes acc) as [[]|] eqn:Hdir; [|done..]);
    (case_match; [apply IH|]);
    (destruct (nodes !! (acc ++ [name])) as [[| |t]|]; [apply IH|apply IH| |done]); [done|].
  intros Hs.
  assert (Ht : walk nodes (S depth) (if lt_absolute t then [] else acc) (lt_path t)
             = walk nodes depth (if lt_absolute t then [] else acc) (lt_path t)).
  { apply IHd. by destruct (walk nodes depth _ (lt_path t)). }
  rewrite Ht. destruct (walk nodes depth _ (lt_path t)); [done|]. by apply IH.
Qed.
End walks.

Section looks.
Context (nodes : gmap npath node).

Definition entry_of (r : IoError + npath) (name : str) : IoError + node :=
  match r with
  | inl e => inl e
  | inr dir =>
    match node_at nodes dir with
    | Some NDir =>
      if str_eqb name DOTDOT then inr NDir
      else match nodes !! (dir ++ [name]) with Some n => inr n | None => inl not_found end
    | Some _ => inl not_a_directory
    | None => inl not_found
    end
  end.
Lemma up_snoc p name : up (p ++ [name]) = p.
Proof. unfold up. rewrite length_app. simpl. rewrite take_app_le by lia. apply take_ge. lia. Qed.
Lemma look_snoc p name : look nodes (p ++ [name]) = entry_of (walk nodes max_links [] p) name.
Proof. unfold look. rewrite last_snoc, up_snoc. done. Qed.

Lemma look_plain p k :
  plain nodes p → k ≤ length p → ∃ n, look nodes (take k p) = inr n ∧ is_link n = false.
Proof.
  intros Hp Hk. assert (Hq : plain nodes (take k p)).
  { destruct Hp as (Hd & Hdirs & n & Hn & Hl). split_and!.
    - intros Hin. apply Hd. by apply elem_of_take in Hin as (?&?%list_elem_of_lookup_2&_).
    - intros j Hj. rewrite length_take in Hj. rewrite take_take, Nat.min_l by lia. apply Hdirs. lia.
    - destruct (decide (k = length p)) as [->|]; [rewrite take_ge by done; eauto|].
      exists NDir. split; [apply Hdirs; lia|done]. }
  clear Hp Hk. revert Hq. generalize (take k p). intros q (Hd & Hdirs & n & Hn & Hl).
  destruct q as [|name q _] using rev_ind; [by exists NDir|].
  pose proof (Hdirs (length q)) as Hq. rewrite take_app_length in Hq.
  rewrite look_snoc, (walk_id nodes _ [] q).
  - cbn [app entry_of]. rewrite Hq by (rewrite length_app; simpl; lia).
    unfold str_eqb. rewrite bool_decide_false by (intros ->; set_solver).
    rewrite node_at_snoc in Hn. rewrite Hn. eauto.
  - cbn [app]. split_and!.
    + set_solver.
    + intros j Hj. rewrite <-(Hdirs j) by (rewrite length_app; simpl; lia).
      by rewrite take_app_le by lia.
    + exists NDir. split; [apply Hq; rewrite length_app; simpl; lia|done].
Qed.

(** The entries below a link are the entries below its target. *)
Lemma entry_link p t n e :
  look nodes p = inr (NLink t) → entry_of (walk nodes max_links [] p) n = inl e → is_not_found e = true →
  entry_of (walk nodes max_links [] (target_path p t)) n = inl e.
Proof.
  intros Hp He Hnf. destruct p as [|name p _] using rev_ind; [done|].
  rewrite look_snoc in Hp. unfold target_path.
  change (take (length (p ++ [name]) - 1) (p ++ [name])) with (up (p ++ [name])). rewrite up_snoc.
  rewrite walk_app in He.
  destruct (walk nodes max_links [] p) as [e'|dir] eqn:Hdir; [done|]. cbn [entry_of] in Hp.
  rewrite walk_cons in He.
  destruct (node_at nodes dir) as [[]|]; [|done..].
  destruct (str_eqb name DOTDOT); [done|].
  destruct (nodes !! (dir ++ [name])) as [m|]; [|done]. simplify_eq.
  assert (Hw : walk nodes max_links [] (if lt_absolute t then lt_path t else p ++ lt_path t)
             = walk nodes max_links (if lt_absolute t then [] else dir) (lt_path t)).
  { destruct (lt_absolute t); [done|]. by rewrite walk_app, Hdir. }
  rewrite Hw. clear Hw Hdir. unfold max_links in *. cbv beta iota in He.
  rewrite walk_deeper; destruct (walk nodes 7 _ _); [done|by rewrite walk_nil in He| |done].
  by simplify_eq/=.
Qed.
End looks.

Lemma is_symlink_node n : is_symlink (node_metadata n) = is_link n.
Proof. by destruct n. Qed.
Lemma lstat_look w p :
  lstat w p = match look (nw_nodes w) p with inl e => inl e | inr n => inr (node_metadata n) end.
Proof. done. Qed.
Lemma canonicalize_walk p w : (n_canonicalize p w).1 = walk (nw_nodes w) max_links [] p.
Proof. done. Qed.
Lemma read_link_look p w :
  (n_read_link p w).1 =
    match look (nw_nodes w) p with
    | inl e => inl e
    | inr (NLink t) => inr t
    | inr _ => inl {| io_kind := IoInvalidInput; io_display := str! "not a link" |}
    end.
Proof. done. Qed.
Lemma missing_entry w p name :
  missing w (p ++ [name]) ↔ ∃ e, entry_of (nw_nodes w) (walk (nw_nodes w) max_links [] p) name = inl e ∧
                                 is_not_found e = true.
Proof.
  unfold missing. rewrite lstat_look, look_snoc. destruct (entry_of _ _ _); naive_solver.
Qed.

Lemma chunks_of_small k fuel l c : c ∈ chunks_of k fuel l → length c ≤ k.
Proof.
  revert l. induction fuel as [|fuel IH]; intros l; [by intros ?%elem_of_nil|].
  destruct l as [|x l]; cbn [chunks_of]; [by intros ?%elem_of_nil|].
  intros [->|Hc]%elem_of_cons; [rewrite length_take; lia|by eapply IH].
Qed.
Lemma chunks_of_length k fuel l :
  length ((inr <$> chunks_of k fuel l : list (IoError + bytes)) ≫= read_bytes) ≤ length l.
Proof.
  revert l. induction fuel as [|fuel IH]; intros l; [simpl; lia|].
  destruct l as [|x l]; [simpl; lia|]. cbn [chunks_of fmap list_fmap mbind list_bind read_bytes].
  rewrite length_app. specialize (IH (drop k (x :: l))). rewrite length_take. rewrite length_drop in IH.
  cbn [mbind list_bind] in IH. lia.
Qed.
Lemma open_memory p w chunks :
  (n_open p w).1 = inr chunks →
  ∃ d, chunks = inr <$> chunks_of 3 (length d) d ∧ (N.of_nat (length d) ≤ u64_max)%N.
Proof.
  unfold n_open, memory_native, observe_nodes. cbn [fst].
  destruct (walk (nw_nodes w) max_links [] p) as [|q]; [done|].
  destruct (nw_nodes w !! q) as [[|d|]|]; [done| |done|done].
  destruct (N.leb_spec (N.of_nat (length d)) u64_max); [|done]. intros [= <-]. by exists d.
Qed.
#[local] Instance memory_native_laws : NativeLaws nw_nodes.
Proof.
  split; try done.
  - intros p w chunks (d & -> & _)%open_memory. apply Forall_fmap, Forall_forall.
    intros c Hc. apply chunks_of_small in Hc. unfold buffer_sized. simpl. lia.
  - intros p w chunks (d & -> & Hd)%open_memory. unfold in_u64.
    pose proof (chunks_of_length 3 (length d) d). lia.
  - intros p w w' Hw. rewrite !lstat_look. by rewrite Hw.
  - intros p w q Hq. rewrite canonicalize_walk in Hq. apply walk_plain in Hq; [|apply plain_nil].
    split; [apply Hq|]. intros k Hk. destruct (look_plain _ q k Hq Hk) as (n & Hn & Hl).
    exists (node_metadata n). by rewrite lstat_look, Hn, is_symlink_node.
  - intros p w q n Hq. rewrite canonicalize_walk in Hq. rewrite !missing_entry, Hq.
    apply walk_plain in Hq; [|apply plain_nil]. by rewrite (walk_id _ _ [] q).
  - intros p w t n Hp. rewrite !missing_entry. rewrite read_link_look in Hp. intros (e & He & Hnf). exists e.
    split; [|done]. eapply entry_link; [|done|done].
    destruct (look (nw_nodes w) p) as [|[]]; naive_solver.
  - intros p w n e. rewrite missing_entry, lstat_look. intros (e' & He & Hnf) Hp.
    destruct p as [|name p _] using rev_ind; [done|]. rewrite look_snoc in Hp.
    rewrite walk_app in He.
    destruct (walk _ _ [] p) as [e''|dir]; [naive_solver|]. cbn [entry_of] in Hp.
    rewrite walk_cons in He. destruct (node_at _ dir) as [[]|]; [|naive_solver..].
    destruct (str_eqb name DOTDOT); [done|].
    destruct (_ !! (dir ++ [name])); naive_solver.
Qed.

(** ** A sample host *)

Definition link_to (absolute : bool) (p : npath) : node :=
  NLink {| lt_absolute := absolute; lt_path := p; lt_text := join [SLASH] p |}.
(** A root at [/work] with a file, a link to a name that does not exist yet, a
    link that leaves the root, and two links that form a cycle. *)
Definition sample_nodes : gmap npath node :=
  list_to_map
    [([str! "work"], NDir);
     ([str! "work"; str! "src"], NDir);
     ([str! "work"; str! "src"; str! "a.txt"], NFile (lit "hello world"));
     ([str! "work"; str! "out"], link_to false [str! "src"; str! "new.txt"]);
     ([str! "work"; str! "evil"], link_to true [str! "etc"]);
     ([str! "work"; str! "ping"], link_to false [str! "pong"]);
     ([str! "work"; str! "pong"], link_to false [str! "ping"]);
     ([str! "etc"], NDir);
     ([str! "etc"; str! "passwd"], NFile (lit "root"))].
Definition sample_native : NativeWorld := {| nw_nodes := sample_nodes; nw_fresh := 0 |}.
Definition work_id : RootId := StringId (str! "work").
Definition sample_resolver : PathResolver :=
  {[ work_id := {| re_descriptor := {| er_id := work_id; er_name := str! "work";
                                       native_path := str! "/work"; read_only := false |};
                   re_canonical := [str! "work"] |} ]}.
Definition at_work (p : str) : ExecutionPath := {| root_id := work_id; path := p |}.
#[local] Instance memory_debug : DebugStr := λ s, s.

(** A link to a name that does not exist resolves to that name; a link out of
    the root and a cycle of links do not resolve. *)
Lemma resolved_path_contained_witness :
  (resolve sample_resolver ForInPlaceWrite (at_work (str! "out")) sample_native).1
    = Ok [str! "work"; str! "src"; str! "new.txt"] ∧
  contained sample_native sample_resolver ForInPlaceWrite (at_work (str! "out"))
    [str! "work"; str! "src"; str! "new.txt"] ∧
  is_ok (resolve sample_resolver ForInPlaceWrite (at_work (str! "evil/x")) sample_native).1 = false ∧
  is_ok (resolve sample_resolver ForInPlaceWrite (at_work (str! "ping")) sample_native).1 = false.
Proof.
  split_and!; [vm_compute; reflexivity| |vm_compute; reflexivity|vm_compute; reflexivity].
  apply (resolved_path_contained nw_nodes sample_resolver ForInPlaceWrite (at_work (str! "out"))
           sample_native).
  vm_compute. reflexivity.
Defined.
