(* ===== verification/SupervisorFs.v ===== *)
(** The supervisor's filesystem ([execution-supervisor-core/src/filesystem.rs]):
    reads, listings and mutations over the operating system's filesystem, with a
    record per mutation so that an operation identifier acts at most once. *)
From Stdlib Require Import ZifyBool.
From stdpp Require Import prelude gmap strings pretty list.
From S2P Require Import Prelude.
From S2P Require Import Text.
From S2P Require Import Core.
From S2P Require Import Host.
From S2P Require Import ProcessCore.
From S2P Require Import Resolver.

(** ** Configuration and state *)

(** [SupervisorLimits] of [config.rs]; durations in nanoseconds. *)
Record SupervisorLimits := {
  sl_max_read_bytes : N;
  sl_max_write_bytes : N;
  sl_max_process_read_bytes : N;
  sl_max_process_input_bytes : N;
  sl_max_concurrent_processes : N;
  sl_process_output_chunk_bytes : N;
  sl_completed_execution_retention : N;
  sl_termination_grace_period : N;
}.
Definition SupervisorLimits_default : SupervisorLimits :=
  {| sl_max_read_bytes := 16 * 1024 * 1024;
     sl_max_write_bytes := 16 * 1024 * 1024;
     sl_max_process_read_bytes := 4 * 1024 * 1024;
     sl_max_process_input_bytes := 1024 * 1024;
     sl_max_concurrent_processes := 64;
     sl_process_output_chunk_bytes := 16 * 1024;
     sl_completed_execution_retention := 15 * 60 * 1000000000;
     sl_termination_grace_period := 2 * 1000000000 |}%N.

Inductive MutationResult :=
  | MFailure (failure : ExecutionError)
  | MWrite (result : WriteFileResult)
  | MCreateDirectory
  | MRemove (result : RemovePathResult).
Record MutationRecord := { mr_fingerprint : str; mr_result : MutationResult }.
Abbreviation MutationState := (gmap OperationId MutationRecord).

(** The fields of [SupervisorFileSystem] that do not change. *)
Record SupervisorFileSystem := {
  sfs_resolver : PathResolver;
  sfs_limits : SupervisorLimits;
  sfs_generation : SupervisorGenerationId;
}.

(** The world of the supervisor: its mutation records and the host's own world. *)
Record SupervisorWorld (V : Type) := { sw_records : MutationState; sw_native : V }.
Arguments sw_records {V} _.
Arguments sw_native {V} _.
Arguments Build_SupervisorWorld {V} _ _.

#[export] Instance supervisor_world {V} `{!World V} : World (SupervisorWorld V) := {
  observe := λ c w, let '(o, n) := observe c (sw_native w) in
                    (o, {| sw_records := sw_records w; sw_native := n |});
}.

(** A computation on the host alone; the same, with its error as a value. *)
Definition native {V A} (m : M V A) : M (SupervisorWorld V) A := λ w,
  let '(r, n) := m (sw_native w) in (r, {| sw_records := sw_records w; sw_native := n |}).
Definition get_record {V} (id : OperationId) : M (SupervisorWorld V) (option MutationRecord) :=
  λ w, (Ok (sw_records w !! id), w).
Definition put_record {V} (id : OperationId) (r : MutationRecord) : M (SupervisorWorld V) unit :=
  λ w, (Ok tt, {| sw_records := <[id := r]> (sw_records w); sw_native := sw_native w |}).

(** ** Digests and fingerprints

    SHA-256 in lower-case hexadecimal, and the JSON of a request, which may fail
    to encode with a displayable error. *)
Class Digest := sha256_hex : bytes → str.
Class RequestCodec := {
  encode_write : WriteFileRequest → str + bytes;
  encode_create_directory : CreateDirectoryRequest → str + bytes;
  encode_remove : RemovePathRequest → str + bytes;
}.

Definition expect_id {k E} (r : string_id k + ValidationError) : result E (string_id k) :=
  match r with inl v => Ok v | inr _ => Panic end.
Definition hash_bytes {dig : Digest} (data : bytes) : ExecutionResult FileRevision :=
  expect_id (string_id_new KFileRevision (sha256_hex data)).
Definition fingerprint {dig : Digest} (encoded : str + bytes) : ExecutionResult str :=
  match encoded with
  | inl source =>
    Err (supervisor_error Internal (format! [str! "failed to fingerprint operation: "; source]))
  | inr data => Ok (sha256_hex data)
  end.

Definition invalid_request (m : str) : ExecutionError := supervisor_error InvalidRequest m.
Definition operation_conflict (m : str) : ExecutionError := supervisor_error OperationConflict m.

Definition ensure_fingerprint (record : MutationRecord) (fp : str) (id : OperationId)
  : ExecutionResult unit :=
  if str_eqb (mr_fingerprint record) fp then Ok tt
  else Err (operation_conflict (format! [str! "operation ID `"; as_str id;
              str! "` was reused with a different request"])).

(** [u64::try_from(len).unwrap_or(u64::MAX)]. *)
Definition u64_of_len (n : nat) : N := N.min (N.of_nat n) u64_max.

(** [modified_at]: whole milliseconds since the epoch. *)
Definition file_modified_at (m : NativeMetadata) : option N :=
  ns ← nm_modified m;
  if (ns <? 0)%Z then None
  else let ms := Z.to_N (ns / 1000000) in if (ms <=? u64_max)%N then Some ms else None.

(** The bytes of a file, from what its reads give: up to the first empty one. *)
Fixpoint read_all (p : npath) (chunks : list (IoError + bytes)) (acc : bytes) : ExecutionResult bytes :=
  match chunks with
  | [] | inr [] :: _ => Ok acc
  | inl e :: _ => Err (io_error (display p) e)
  | inr chunk :: chunks => read_all p chunks (acc ++ chunk)
  end.

Section operations.
Context {V : Type} `{!World V, !NativeFs V} {dbg : DebugStr} {dig : Digest} {codec : RequestCodec}.
Context (self : SupervisorFileSystem).

(** ** Working on native paths *)

Definition hash_file (p : npath) : M V FileRevision :=
  chunks ← await_io p (n_open p);
  data ← lift (read_all p chunks []);
  lift (hash_bytes data).

Definition metadata_for (spec : ExecutionPath) (native_path : npath) (follow_symlinks : bool)
  : M V FileMetadata :=
  metadata ← await_io native_path
               (if follow_symlinks then n_metadata native_path else n_symlink_metadata native_path);
  revision ← (match nm_kind metadata with
              | File => h ← hash_file native_path; mret (Some h)
              | Symlink =>
                target ← await_io native_path (n_read_link native_path);
                h ← lift (hash_bytes (utf8_encode (lt_text target)));
                mret (Some h)
              | Directory | Other => mret None
              end);
  mret {| fm_path := spec; kind := nm_kind metadata; size := nm_len metadata;
          modified_at := file_modified_at metadata; revision := revision |}.

(** [temporary_path] and [atomic_write]: the bytes go to a fresh sibling that is
    renamed over the target; a failure removes the sibling. *)
Definition temporary_path (par : npath) (name uuid : str) : npath :=
  par ++ [format! [str! "."; name; str! "."; uuid; str! ".tmp"]].
Definition now_v7 : M V str := λ w, let '(u, w) := n_uuid w in (Ok u, w).
Definition atomic_write (p : npath) (contents : bytes) (existing : option NativeMetadata) : M V unit :=
  par ← lift (ok_or (invalid_request (str! "write target has no parent directory")) (parent p));
  let name := default (str! "file") (file_name p) in
  uuid ← now_v7;
  let temporary := temporary_path par name uuid in
  _ ← await_io temporary (n_create_new temporary);
  result ← attempt
    (_ ← await_io temporary (n_write_all temporary contents);
     _ ← (match existing with
          | Some metadata => await_io temporary (n_set_permissions temporary metadata)
          | None => mret tt
          end);
     _ ← await_io temporary (n_sync_all temporary);
     await_io p (n_rename temporary p));
  match result with
  | inl e => _ ← outcome (n_remove_file temporary); throw e
  | inr _ => mret tt
  end.

(** ** Writing, creating directories, removing *)

Definition check_generation (expected : option SupervisorGenerationId) : ExecutionResult unit :=
  match expected with
  | Some expected =>
    if bool_decide (expected = sfs_generation self) then Ok tt
    else Err (supervisor_error ExecutionLost
                (str! "filesystem mutation belongs to an earlier supervisor generation; inspect its outcome before retrying"))
  | None => Ok tt
  end.

(** [symlink_metadata], a missing entry being no metadata. *)
Definition existing_metadata (p : npath) : M V (option NativeMetadata) :=
  meta ← outcome (n_symlink_metadata p);
  lift (match meta with
        | inr m => Ok (Some m)
        | inl e => if is_not_found e then Ok None else Err (io_error (display p) e)
        end).

(** The revision of what is at a path whose [lstat] is known to be a link or not. *)
Definition current_revision (p : npath) (metadata : NativeMetadata) : M V FileRevision :=
  if is_symlink metadata then
    target ← await_io p (n_read_link p);
    lift (hash_bytes (utf8_encode (lt_text target)))
  else hash_file p.

Definition check_condition (condition : WriteCondition) (p : npath) (existing : option NativeMetadata)
  : M V unit :=
  match condition with
  | CondAny => mret tt
  | MustNotExist =>
    match existing with
    | Some _ => throw (supervisor_error AlreadyExists (str! "write target already exists"))
    | None => mret tt
    end
  | MatchRevision revision =>
    match existing with
    | None => throw (supervisor_error RevisionConflict (str! "write target no longer exists"))
    | Some metadata =>
      current ← (if is_symlink metadata || is_file metadata then current_revision p metadata
                 else throw (invalid_request
                        (str! "revision conditions require a regular file or symbolic link")));
      if bool_decide (current = revision) then mret tt
      else throw (supervisor_error RevisionConflict (str! "write target revision changed"))
    end
  end.

(** [rsplit_once('/').map_or('.', ..)]: what is before the last slash. *)
Definition parent_spec (p : str) : str :=
  let pieces := split_char SLASH p in
  if decide (length pieces ≤ 1) then str! "." else join [SLASH] (take (length pieces - 1) pieces).

(** The in-place arm of [write_inner]: write, and when that found no parent,
    create it and write again. *)
Definition possibly_partial (e : ExecutionError) : ExecutionError :=
  with_detail (str! "mutation_outcome") (VString (str! "possibly_partial")) e.
Definition write_in_place (request : WriteFileRequest) (p : npath) : M V unit :=
  result ← outcome (n_write p (wr_data request));
  result ← (match result with
            | inl e =>
              if wr_create_parents request && is_not_found e then
                par ← lift (execution_path_new (root_id (wr_path request)) (parent_spec (path (wr_path request))));
                par ← resolve_for_directory_creation (sfs_resolver self) par;
                _ ← await_io par (n_create_dir_all par);
                target ← resolve_for_in_place_write (sfs_resolver self) (wr_path request);
                outcome (n_write target (wr_data request))
              else mret (inl e)
            | inr u => mret (inr u)
            end);
  match result with
  | inl e => throw (possibly_partial (io_error (display p) e))
  | inr _ => mret tt
  end.

Definition write_inner (request : WriteFileRequest) : M V WriteFileResult :=
  let byte_count := u64_of_len (length (wr_data request)) in
  let limit := sl_max_write_bytes (sfs_limits self) in
  if (limit <? byte_count)%N then
    throw (supervisor_error ResourceExhausted
             (format! [str! "write contains "; show_N byte_count;
                       str! " bytes but the host limit is "; show_N limit]))
  else
    p ← (match wr_strategy request with
         | AtomicReplace =>
           resolve_for_write (sfs_resolver self) (wr_path request) (wr_follow_symlinks request)
         | InPlace => resolve_for_in_place_write (sfs_resolver self) (wr_path request)
         end);
    existing ← existing_metadata p;
    if from_option is_dir false existing then
      throw (supervisor_error IsDirectory (str! "cannot write bytes to a directory"))
    else
      _ ← check_condition (wr_condition request) p existing;
      _ ← (match parent p with
           | Some par =>
             if wr_create_parents request && bool_decide (wr_strategy request = AtomicReplace)
             then await_io par (n_create_dir_all par) else mret tt
           | None => mret tt
           end);
      let preserved := m ← existing; if is_file m then Some m else None in
      _ ← (match wr_strategy request with
           | AtomicReplace => atomic_write p (wr_data request) preserved
           | InPlace => write_in_place request p
           end);
      revision ← lift (hash_bytes (wr_data request));
      mret {| wres_path := wr_path request; existed := bool_decide (is_Some existing);
              wres_revision := revision; bytes_written := byte_count |}.

Definition create_directory_inner (request : CreateDirectoryRequest) : M V unit :=
  p ← resolve_for_write (sfs_resolver self) (cd_path request) false;
  await_io p (if cd_recursive request then n_create_dir_all p else n_create_dir p).

Definition remove_inner (request : RemovePathRequest) : M V RemovePathResult :=
  if str_eqb (path (rm_path request)) (str! ".") then
    throw (invalid_request (str! "an execution root cannot be removed"))
  else
    p ← resolve_for_write (sfs_resolver self) (rm_path request) false;
    meta ← outcome (n_symlink_metadata p);
    match meta with
    | inl e =>
      if rm_ignore_missing request && is_not_found e then mret {| removed := false |}
      else throw (io_error (display p) e)
    | inr metadata =>
      _ ← (match rm_target_kind request with
           | TargetFile =>
             target ← resolve_existing (sfs_resolver self) (rm_path request) true;
             followed ← await_io target (n_metadata target);
             if is_dir followed then throw (supervisor_error IsDirectory (str! "path is a directory"))
             else mret tt
           | TargetAny => mret tt
           end);
      _ ← (match rm_expected_revision request with
           | Some expected =>
             if is_dir metadata then
               throw (invalid_request (str! "directory removal does not support expected_revision"))
             else
               current ← current_revision p metadata;
               if bool_decide (current = expected) then mret tt
               else throw (supervisor_error RevisionConflict (str! "remove target revision changed"))
           | None => mret tt
           end);
      _ ← await_io p (if is_dir metadata
                      then if rm_recursive request then n_remove_dir_all p else n_remove_dir p
                      else n_remove_file p);
      mret {| removed := true |}
    end.

(** ** The filesystem trait *)

Definition stat (context : OperationContext) (request : StatRequest)
  : M (SupervisorWorld V) FileMetadata :=
  _ ← checkpointM context;
  _ ← lift (validated (validate request));
  p ← native (resolve_existing (sfs_resolver self) (st_path request) (st_follow_symlinks request));
  native (metadata_for (st_path request) p (st_follow_symlinks request)).

(** What the loop of [read] keeps: the bytes hashed, the bytes selected, and how
    many bytes were seen. *)
Record ReadState := { rs_hashed : bytes; rs_selected : bytes; rs_position : N }.
Definition select_chunk (request : ReadFileRequest) (st : ReadState) (chunk : bytes)
  : ExecutionResult ReadState :=
  let selection_end := u64_sat_add (rd_offset request) (rd_max_bytes request) in
  let chunk_start := rs_position st in
  chunk_end ← or_panic (u64_checked_add (rs_position st) (u64_of_len (length chunk)));
  selected ←
    (if (rd_offset request <? chunk_end)%N && (chunk_start <? selection_end)%N then
       let start := N.to_nat (u64_sat_sub (rd_offset request) chunk_start) in
       let stop := N.to_nat (u64_sat_sub (N.min selection_end chunk_end) chunk_start) `min` length chunk in
       if start <? stop then
         piece ← slice chunk start stop;
         Ok (rs_selected st ++ piece)
       else Ok (rs_selected st)
     else Ok (rs_selected st));
  Ok {| rs_hashed := rs_hashed st ++ chunk; rs_selected := selected; rs_position := chunk_end |}.
Fixpoint read_chunks (context : OperationContext) (request : ReadFileRequest) (p : npath)
    (chunks : list (IoError + bytes)) (st : ReadState) : M (SupervisorWorld V) ReadState :=
  _ ← checkpointM context;
  match chunks with
  | [] | inr [] :: _ => mret st
  | inl e :: _ => throw (io_error (display p) e)
  | inr chunk :: chunks =>
    st ← lift (select_chunk request st chunk);
    read_chunks context request p chunks st
  end.

Definition read (context : OperationContext) (request : ReadFileRequest)
  : M (SupervisorWorld V) ReadFileResult :=
  _ ← checkpointM context;
  _ ← lift (validated (validate request));
  let limit := sl_max_read_bytes (sfs_limits self) in
  if (limit <? rd_max_bytes request)%N then
    throw (supervisor_error ResourceExhausted
             (format! [str! "read requested "; show_N (rd_max_bytes request);
                       str! " bytes but the host limit is "; show_N limit]))
  else
    p ← native (resolve_existing (sfs_resolver self) (rd_path request) (rd_follow_symlinks request));
    native_metadata ← native (await_io p (if rd_follow_symlinks request then n_metadata p
                                          else n_symlink_metadata p));
    if negb (is_file native_metadata) then
      throw (supervisor_error (if is_dir native_metadata then IsDirectory else InvalidRequest)
               (str! "byte reads require a regular file"))
    else
      chunks ← native (await_io p (n_open p));
      st ← read_chunks context request p chunks {| rs_hashed := []; rs_selected := []; rs_position := 0 |};
      if (rs_position st <? rd_offset request)%N then
        throw (invalid_request (str! "read offset exceeds file size"))
      else
        revision ← lift (hash_bytes (rs_hashed st));
        let bytes_returned := u64_of_len (length (rs_selected st)) in
        mret {| rr_metadata := {| fm_path := rd_path request; kind := File; size := rs_position st;
                                  modified_at := file_modified_at native_metadata;
                                  revision := Some revision |};
                rr_data := rs_selected st; rr_offset := rd_offset request;
                rr_eof := (rs_position st <=? u64_sat_add (rd_offset request) bytes_returned)%N |}.

(** The record a mutation leaves before it starts, so that a dropped call is not
    mistaken for one that never ran. *)
Definition unknown_outcome : ExecutionError :=
  with_detail (str! "mutation_outcome") (VString (str! "unknown"))
    (supervisor_error ExecutionLost
       (str! "filesystem mutation outcome is unknown; inspect the target before issuing a new operation")).
Definition another_operation : ExecutionError :=
  operation_conflict (str! "operation ID was already used for another operation").

Definition write (context : OperationContext) (request : WriteFileRequest)
  : M (SupervisorWorld V) WriteFileResult :=
  let id := wr_operation_id request in
  _ ← checkpointM context;
  _ ← lift (validated (validate request));
  _ ← lift (check_generation (wr_expected_generation request));
  fp ← lift (fingerprint (encode_write request));
  record ← get_record id;
  match record with
  | Some record =>
    _ ← lift (ensure_fingerprint record fp id);
    match mr_result record with
    | MFailure failure => throw failure
    | MWrite result => mret result
    | MCreateDirectory | MRemove _ => throw another_operation
    end
  | None =>
    let fenced := bool_decide (is_Some (wr_expected_generation request)) in
    let keep r := put_record id {| mr_fingerprint := fp; mr_result := r |} in
    _ ← (if fenced then keep (MFailure unknown_outcome) else mret tt);
    outcome ← attempt (native (write_inner request));
    match outcome with
    | inr result => _ ← keep (MWrite result); mret result
    | inl failure => _ ← (if fenced then keep (MFailure failure) else mret tt); throw failure
    end
  end.

Definition create_directory (context : OperationContext) (request : CreateDirectoryRequest)
  : M (SupervisorWorld V) unit :=
  let id := cd_operation_id request in
  _ ← checkpointM context;
  _ ← lift (validated (validate request));
  fp ← lift (fingerprint (encode_create_directory request));
  record ← get_record id;
  match record with
  | Some record =>
    _ ← lift (ensure_fingerprint record fp id);
    match mr_result record with
    | MFailure failure => throw failure
    | MCreateDirectory => mret tt
    | MWrite _ | MRemove _ => throw another_operation
    end
  | None =>
    _ ← native (create_directory_inner request);
    put_record id {| mr_fingerprint := fp; mr_result := MCreateDirectory |}
  end.

Definition remove (context : OperationContext) (request : RemovePathRequest)
  : M (SupervisorWorld V) RemovePathResult :=
  let id := rm_operation_id request in
  _ ← checkpointM context;
  _ ← lift (validated (validate request));
  _ ← lift (check_generation (rm_expected_generation request));
  fp ← lift (fingerprint (encode_remove request));
  record ← get_record id;
  match record with
  | Some record =>
    _ ← lift (ensure_fingerprint record fp id);
    match mr_result record with
    | MFailure failure => throw failure
    | MRemove result => mret result
    | MWrite _ | MCreateDirectory => throw another_operation
    end
  | None =>
    let fenced := bool_decide (is_Some (rm_expected_generation request)) in
    let keep r := put_record id {| mr_fingerprint := fp; mr_result := r |} in
    _ ← (if fenced then keep (MFailure unknown_outcome) else mret tt);
    outcome ← attempt (native (remove_inner request));
    match outcome with
    | inr result => _ ← keep (MRemove result); mret result
    | inl failure => _ ← (if fenced then keep (MFailure failure) else mret tt); throw failure
    end
  end.

(** The names of a directory, then the entries of one page of it. *)
Fixpoint read_names (p : npath) (found : list (IoError + str)) : ExecutionResult (list str) :=
  match found with
  | [] => Ok []
  | inl e :: _ => Err (io_error (display p) e)
  | inr name :: found => names ← read_names p found; Ok (name :: names)
  end.
Definition page_names (request : ListDirectoryRequest) (names : list str) : list str * bool :=
  let names := sort_by str_leb names in
  let names := match ls_cursor request with
               | Some cursor => filter (λ name, str_leb name (as_str cursor) = false) names
               | None => names
               end in
  let maximum := N.to_nat (ls_max_entries request) in
  (take maximum names, maximum <? length names).
Definition portable_child (request : ListDirectoryRequest) (name : str) : str :=
  if str_eqb (path (ls_path request)) (str! ".") then name
  else format! [path (ls_path request); str! "/"; name].
Definition list_entry (context : OperationContext) (request : ListDirectoryRequest) (name : str)
  : M (SupervisorWorld V) DirectoryEntry :=
  _ ← checkpointM context;
  child ← lift (match ExecutionPath_new (root_id (ls_path request)) (portable_child request name) with
                | inl child => Ok child
                | inr _ => Panic
                end);
  p ← native (resolve_existing (sfs_resolver self) child (ls_follow_symlinks request));
  metadata ← native (metadata_for child p (ls_follow_symlinks request));
  mret {| de_name := name; de_metadata := metadata |}.
Fixpoint list_entries (context : OperationContext) (request : ListDirectoryRequest) (names : list str)
  : M (SupervisorWorld V) (list DirectoryEntry) :=
  match names with
  | [] => mret []
  | name :: names =>
    entry ← list_entry context request name;
    rest ← list_entries context request names;
    mret (entry :: rest)
  end.
Definition list_ (context : OperationContext) (request : ListDirectoryRequest)
  : M (SupervisorWorld V) ListDirectoryResult :=
  _ ← checkpointM context;
  _ ← lift (validated (validate request));
  p ← native (resolve_existing (sfs_resolver self) (ls_path request) (ls_follow_symlinks request));
  directory_metadata ← native (await_io p (n_metadata p));
  if negb (is_dir directory_metadata) then
    throw (supervisor_error NotDirectory (str! "path is not a directory"))
  else
    found ← native (await_io p (n_read_dir p));
    names ← lift (read_names p found);
    let '(names, has_more) := page_names request names in
    es ← list_entries context request names;
    next ← lift (match (if has_more then last es else None) with
                 | Some entry => cursor ← expect_id (string_id_new KDirectoryCursor (de_name entry)); Ok (Some cursor)
                 | None => Ok None
                 end);
    mret {| entries := es; next_cursor := next |}.
End operations.

(** ** Reading *)

Section reading.
Context {V : Type} `{!World V, !NativeFs V} {dbg : DebugStr} {dig : Digest}.

(** The state of the loop after the bytes [d]. *)
Definition read_so_far (request : ReadFileRequest) (d : bytes) (st : ReadState) : Prop :=
  rs_hashed st = d ∧ rs_position st = N.of_nat (length d) ∧ in_u64 (N.of_nat (length d)) ∧
  rs_selected st = take (N.to_nat (rd_max_bytes request)) (drop (N.to_nat (rd_offset request)) d).

(** A window of a list is a window of its beginning and a window of its end. *)
Lemma window_app {A} (off max : nat) (d c : list A) :
  take max (drop off (d ++ c)) =
  take max (drop off d) ++ take (max - (length d - off)) (drop (off - length d) c).
Proof. by rewrite drop_app, take_app, length_drop. Qed.

Lemma take_min {A} (l : list A) k k' : k `min` length l = k' `min` length l → take k l = take k' l.
Proof.
  intros H. destruct (decide (k ≤ length l)), (decide (k' ≤ length l)).
  - f_equal. lia.
  - rewrite (take_ge l k') by lia. apply take_ge. lia.
  - rewrite (take_ge l k) by lia. symmetry. apply take_ge. lia.
  - by rewrite !take_ge by lia.
Qed.
Lemma buffer_len chunk : buffer_sized (inr chunk) → u64_of_len (length chunk) = N.of_nat (length chunk).
Proof. unfold buffer_sized, u64_of_len, u64_max. lia. Qed.
(** What a chunk that starts after [n] bytes adds to the selection. *)
Lemma select_piece request (n : nat) (chunk sel sel' : bytes) stop :
  stop = (N.of_nat n + u64_of_len (length chunk))%N → in_u64 stop →
  buffer_sized (inr chunk) →
  let selection_end := u64_sat_add (rd_offset request) (rd_max_bytes request) in
  let a := N.to_nat (u64_sat_sub (rd_offset request) (N.of_nat n)) in
  let b := N.to_nat (u64_sat_sub (N.min selection_end stop) (N.of_nat n)) `min` length chunk in
  (if (rd_offset request <? stop)%N && (N.of_nat n <? selection_end)%N then
     if a <? b then slice chunk a b ≫= (λ piece, Ok (sel ++ piece)) else Ok sel
   else Ok sel) = (Ok sel' : ExecutionResult bytes) →
  sel' = sel ++ take (N.to_nat (rd_max_bytes request) - (n - N.to_nat (rd_offset request)))
                     (drop (N.to_nat (rd_offset request) - n) chunk).
Proof.
  intros Hstop Hu Hsize.
  rewrite (buffer_len chunk) in Hstop by done. clear Hsize. unfold u64_sat_add, u64_sat_sub, in_u64 in *.
  generalize dependent u64_max. intros U Hu. cbv zeta.
  assert (HO : rd_offset request = N.of_nat (N.to_nat (rd_offset request))) by lia.
  assert (HM : rd_max_bytes request = N.of_nat (N.to_nat (rd_max_bytes request))) by lia.
  revert HO HM. generalize (N.to_nat (rd_offset request)) (N.to_nat (rd_max_bytes request)).
  intros O M -> ->.
  replace (N.to_nat (N.of_nat O - N.of_nat n)) with (O - n) by lia.
  replace (N.to_nat ((N.of_nat O + N.of_nat M) `min` U `min` stop - N.of_nat n) `min` length chunk)
    with ((O + M - n) `min` length chunk) by lia.
  assert (Hnone : M - (n - O) = 0 ∨ length chunk ≤ O - n →
    sel = sel ++ take (M - (n - O)) (drop (O - n) chunk)).
  { intros [->|?]; [by rewrite app_nil_r|]. by rewrite (drop_ge chunk), take_nil, app_nil_r. }
  destruct (_ && _) eqn:Hin.
  2: { intros [= <-]. apply Hnone. lia. }
  clear Hin. destruct (Nat.ltb_spec (O - n) ((O + M - n) `min` length chunk)) as [Hab|Hab].
  - rewrite slice_ok by lia. intros [= <-]. f_equal.
    apply take_min. rewrite length_drop. lia.
  - intros [= <-]. apply Hnone. lia.
Qed.
Lemma select_chunk_spec request d st chunk st' :
  buffer_sized (inr chunk) → read_so_far request d st →
  select_chunk request st chunk = Ok st' → read_so_far request (d ++ chunk) st'.
Proof.
  intros Hsize (<- & Hp & Hb & Hs) H. unfold select_chunk in H. inv_ok H. inv_ok H.
  destruct (u64_checked_add _ _) as [stop|] eqn:Hadd; simplify_eq/=.
  apply u64_checked_add_Some in Hadd as [Ha Hbound]. rewrite Hp in *.
  apply (select_piece request (length (rs_hashed st)) chunk) in H1; [|done..].
  rewrite (buffer_len chunk) in Ha by done.
  assert (Hlen : a = N.of_nat (length (rs_hashed st ++ chunk))) by (rewrite length_app, Ha; lia).
  split_and!; [done|done|by rewrite <-Hlen|]. by rewrite window_app, <-Hs.
Qed.

Lemma read_chunks_spec context request p chunks d st w st' w' :
  Forall buffer_sized chunks → read_so_far request d st →
  read_chunks (V:=V) context request p chunks st w = (Ok st', w') →
  ∃ data, read_all p chunks d = Ok data ∧ read_so_far request data st'.
Proof.
  intros Hsize. revert d st w. induction Hsize as [|chunk chunks Hc _ IH]; intros d st w Hd; cbn [read_chunks];
    intros (u & w1 & _ & H)%M_bind_ok_inv.
  - injection H as <- _. by exists d.
  - destruct chunk as [e|[|b chunk]]; [done| |].
    + injection H as <- _. by exists d.
    + apply M_bind_ok_inv in H as (st1 & w2 & Hst & H). injection Hst as Hst _.
      cbn [read_all]. eapply IH; [|done]. by eapply select_chunk_spec.
Qed.
Lemma read_so_far_start request :
  read_so_far request [] {| rs_hashed := []; rs_selected := []; rs_position := 0 |}.
Proof. split_and!; [done|done|done|]. by rewrite drop_nil, take_nil. Qed.

(** [eof] compares what was sent with the size of the file. *)
Lemma read_eof (off max : N) (data : bytes) :
  (off ≤ N.of_nat (length data))%N → in_u64 (N.of_nat (length data)) →
  let selected := take (N.to_nat max) (drop (N.to_nat off) data) in
  (N.of_nat (length data) <=? u64_sat_add off (u64_of_len (length selected)))%N
  = (N.of_nat (length data) <=? off + max)%N.
Proof.
  intros Hoff Hu selected. subst selected. rewrite length_take, length_drop.
  unfold u64_sat_add, u64_of_len, in_u64 in *. generalize dependent u64_max. intros U HU. lia.
Qed.
End reading.

(** ** The host's world below the supervisor's *)

(** Observing the clock and the cancellation token does not touch the tree. *)
Class ObserveLaw {V T : Type} `{!World V} (tree : V → T) : Prop :=
  observe_reads : ∀ c v, tree (observe c v).2 = tree v.

Lemma native_ok_inv {V A} (m : M V A) w a w' :
  native m w = (Ok a, w') →
  ∃ v', m (sw_native w) = (Ok a, v') ∧ w' = {| sw_records := sw_records w; sw_native := v' |}.
Proof. unfold native. destruct (m (sw_native w)) as [r v']. intros [= -> <-]. eauto. Qed.
Lemma await_ok_inv {V A} p (op : nio V A) v a v' :
  await_io p op v = (Ok a, v') → op v = (inr a, v').
Proof. unfold await_io. destruct (op v) as [[e|b] v1]; [done|]. by intros [= -> ->]. Qed.

Section below.
Context {V T : Type} `{!World V, !NativeFs V} (tree : V → T).

Definition sup_tree (w : SupervisorWorld V) : T := tree (sw_native w).

(** The part of the supervisor's world that observing calls leave alone. *)
Definition kept (w w' : SupervisorWorld V) : Prop :=
  sw_records w = sw_records w' ∧ sup_tree w = sup_tree w'.
#[export] Instance kept_preorder : PreOrder kept.
Proof. split; [done|]. intros ? ? ? [??] [??]. split; congruence. Qed.
Definition same_tree (v v' : V) : Prop := tree v = tree v'.
#[export] Instance same_tree_preorder : PreOrder same_tree.
Proof. split; [done|]. intros ? ? ? ??. unfold same_tree in *. congruence. Qed.

Lemma kept_native {A} (m : M V A) : m_within same_tree m → m_within kept (native m).
Proof.
  intros Hm w. unfold native. specialize (Hm (sw_native w)).
  by destruct (m (sw_native w)) as [r v'].
Qed.
Lemma same_tree_await {A} p (op : nio V A) : (∀ v, tree (op v).2 = tree v) → m_within same_tree (await_io p op).
Proof.
  intros H v. specialize (H v). unfold same_tree, await_io. by destruct (op v) as [[|] v'].
Qed.
Lemma same_tree_outcome {A} (op : nio V A) : (∀ v, tree (op v).2 = tree v) → m_within same_tree (outcome op).
Proof.
  intros H v. specialize (H v). unfold same_tree, outcome. by destruct (op v) as [? v'].
Qed.
Context `{!ObserveLaw tree}.
Lemma kept_checkpoint c : m_within kept (checkpointM c).
Proof.
  intros w. unfold checkpointM, observe, supervisor_world.
  pose proof (observe_reads (tree:=tree) (cancellation c) (sw_native w)) as H.
  destruct (observe _ (sw_native w)) as [[b n] v']. split; [done|]. unfold sup_tree. simpl in *. by rewrite H.
Qed.
End below.
#[export] Hint Resolve kept_native kept_checkpoint : effects.

Section static.
Context {V T : Type} `{!World V, !NativeFs V} {dbg : DebugStr} (tree : V → T) `{!NativeLaws tree}.

Lemma physical_stable (v v' : V) follow p : tree v = tree v' → physical follow v p → physical follow v' p.
Proof.
  intros Hv (Hd & base & rest & -> & Hr & Hrest). split; [done|]. exists base, rest.
  split_and!; [done|by eapply real_stable|].
  destruct Hrest as [?|[?|(n & rest' & -> & Hm)]]; [by left|by right; left|].
  right; right. exists n, rest'. split; [done|]. by eapply missing_stable.
Qed.
Lemma leads_stable (v v' : V) p q : tree v = tree v' → leads v p q → leads v' p q.
Proof.
  intros Hv. pose proof (λ x, lstat_stable (tree:=tree) x v v' Hv) as Hl.
  induction 1 as [p w q Hw Hq|p m w t q Hm Hlink Hw Ht _ IH|par n q Hm _ IH].
  - apply (leads_canonical v' p w); [|done]. intros x. by rewrite Hw.
  - apply (leads_link v' p m w t); [by rewrite <-Hl|done| |done|done]. intros x. by rewrite Hw.
  - apply leads_missing; [|done]. by eapply missing_stable.
Qed.
Lemma contained_stable (v v' : V) resolver how spec p :
  tree v = tree v' → contained v resolver how spec p → contained v' resolver how spec p.
Proof.
  intros Hv (entry & He & Hro & Hpre & Hp). exists entry. split_and!; [done..|].
  destruct how; try by eapply physical_stable.
  destruct Hp as (q & Hlead & Hq & Hphys). exists q. split_and!; [by eapply leads_stable|done|by eapply physical_stable].
Qed.

Context `{!ObserveLaw tree} {dig : Digest} (self : SupervisorFileSystem).

Lemma same_tree_resolve how spec : m_within (same_tree tree) (resolve (sfs_resolver self) how spec).
Proof. intros v. symmetry. by apply (triple_resolve tree v). Qed.

(** A call of the resolver from inside the supervisor, in the tree of [w]. *)
Lemma resolve_ok how spec (w w1 : SupervisorWorld V) p w2 :
  kept tree w w1 → native (resolve (sfs_resolver self) how spec) w1 = (Ok p, w2) →
  kept tree w w2 ∧ contained (sw_native w) (sfs_resolver self) how spec p.
Proof.
  intros [Hr Ht] (v' & H & ->)%native_ok_inv.
  destruct (triple_resolve tree (sw_native w) (sfs_resolver self) how spec (sw_native w1)) as [H1 H2].
  { by symmetry. }
  rewrite H in H1, H2. split; [split; [done|by symmetry]|]. by apply H2.
Qed.

Lemma kept_step {A} (w w1 : SupervisorWorld V) (m : M (SupervisorWorld V) A) r w2 :
  m w1 = (r, w2) → kept tree w w1 → m_within (kept tree) m → kept tree w w2.
Proof. intros H K Hm. etrans; [done|]. specialize (Hm w1). by rewrite H in Hm. Qed.
Lemma kept_read_chunks context request p chunks st :
  m_within (kept tree) (read_chunks context request p chunks st).
Proof.
  revert st. induction chunks as [|chunk chunks IH]; intros st; cbn [read_chunks];
    (apply m_within_bind; [exact _|by apply kept_checkpoint|intros _]); [by intros w|].
  destruct chunk as [e|[|b c]]; [by intros w|by intros w|].
  apply m_within_bind; [exact _|by intros w|done].
Qed.

(** What a successful [read] replies, from the reads of the file it opened. *)
Definition read_reply (request : ReadFileRequest) (data : bytes) (r : ReadFileResult) : Prop :=
  (rd_offset request ≤ N.of_nat (length data))%N ∧
  rr_data r = take (N.to_nat (rd_max_bytes request)) (drop (N.to_nat (rd_offset request)) data) ∧
  rr_offset r = rd_offset request ∧
  rr_eof r = (N.of_nat (length data) <=? rd_offset request + rd_max_bytes request)%N ∧
  fm_path (rr_metadata r) = rd_path request ∧ kind (rr_metadata r) = File ∧
  size (rr_metadata r) = N.of_nat (length data) ∧
  ∃ rev, revision (rr_metadata r) = Some rev ∧ hash_bytes data = Ok rev.

Lemma read_window context request w r w' :
  read self context request w = (Ok r, w') →
  ∃ p v chunks data,
    contained (sw_native w) (sfs_resolver self) (ForExisting (rd_follow_symlinks request)) (rd_path request) p ∧
    tree v = tree (sw_native w) ∧ (n_open p v).1 = inr chunks ∧ read_all p chunks [] = Ok data ∧
    read_reply request data r ∧ sw_records w' = sw_records w.
Proof.
  unfold read. intros H.
  apply M_bind_ok_inv in H as (? & w1 & H1 & H).
  apply (kept_step w w) in H1 as K1; [|done|by apply kept_checkpoint].
  apply M_bind_ok_inv in H as (? & ? & [_ <-]%pair_eq & H).
  destruct (_ <? _)%N; [done|].
  apply M_bind_ok_inv in H as (p & w2 & H2 & H).
  apply (resolve_ok (ForExisting (rd_follow_symlinks request)) (rd_path request) w) in H2 as [K2 Hp]; [|done].
  apply M_bind_ok_inv in H as (m & w3 & H3 & H).
  apply (kept_step w w2) in H3 as K3; [|done|].
  2: { apply kept_native, same_tree_await. intros v.
       destruct (rd_follow_symlinks request); [apply metadata_reads|apply lstat_reads]. }
  destruct (is_file m); [|done]. cbn [negb] in H.
  apply M_bind_ok_inv in H as (chunks & w4 & H4 & H).
  apply (kept_step w w3) in H4 as K4; [|done|apply kept_native, same_tree_await, open_reads].
  apply native_ok_inv in H4 as (v4 & Hopen%await_ok_inv & _).
  apply M_bind_ok_inv in H as (st & w5 & H5 & H).
  apply (kept_step w w4) in H5 as K5; [|done|apply kept_read_chunks].
  destruct (N.ltb_spec (rs_position st) (rd_offset request)) as [|Hoff]; [done|].
  apply M_bind_ok_inv in H as (rev & ? & [Hrev <-]%pair_eq & H).
  injection H as <- <-.
  eapply read_chunks_spec in H5 as (data & Hdata & Hh & Hpos & Hu & Hsel); [|
    eapply (open_chunks (tree:=tree)); by rewrite Hopen|apply read_so_far_start].
  exists p, (sw_native w3), chunks, data. rewrite Hpos in Hoff.
  split_and!; [done|by destruct K3|by rewrite Hopen|done| |by destruct K5].
  split_and!; cbn; [done|done|done| |done|done|done|exists rev; by subst data].
  rewrite Hpos, Hsel. by apply read_eof.
Qed.
(** C22. A successful read opened a path contained in the requested root and, cut
    into chunks of whatever sizes, the file's bytes [data]: the reply holds
    exactly the requested window of them, tells the end of the file when the
    window reaches it, and carries the size and the digest of all of them. *)
Theorem read_returns_window context request w r w' :
  read self context request w = (Ok r, w') →
  ∃ p v chunks data,
    contained (sw_native w) (sfs_resolver self) (ForExisting (rd_follow_symlinks request)) (rd_path request) p ∧
    tree v = tree (sw_native w) ∧ (n_open p v).1 = inr chunks ∧ read_all p chunks [] = Ok data ∧
    read_reply request data r ∧ sw_records w' = sw_records w.
Proof. apply read_window. Qed.
End static.

(** ** Mutations

    The three mutations share one shape, which carries their proofs: checks that
    end in a fingerprint, then the record of the operation, or its body. *)
Section mutations.
Context {V : Type} `{!World V, !NativeFs V} {dbg : DebugStr} {dig : Digest} {codec : RequestCodec}.
Context (self : SupervisorFileSystem).

Definition mutate {A} (checks : M (SupervisorWorld V) str) (id : OperationId) (fenced : bool)
    (body : M V A) (wrap : A → MutationResult) (unwrap : MutationResult → option A)
  : M (SupervisorWorld V) A :=
  fp ← checks;
  record ← get_record id;
  match record with
  | Some record =>
    _ ← lift (ensure_fingerprint record fp id);
    match mr_result record with
    | MFailure failure => throw failure
    | result => match unwrap result with Some a => mret a | None => throw another_operation end
    end
  | None =>
    let keep r := put_record id {| mr_fingerprint := fp; mr_result := r |} in
    _ ← (if fenced then keep (MFailure unknown_outcome) else mret tt);
    outcome ← attempt (native body);
    match outcome with
    | inr a => _ ← keep (wrap a); mret a
    | inl failure => _ ← (if fenced then keep (MFailure failure) else mret tt); throw failure
    end
  end.

Definition checks_of {R} `{Validate R} (context : OperationContext) (request : R)
    (expected : option SupervisorGenerationId) (encoded : str + bytes) : M (SupervisorWorld V) str :=
  _ ← checkpointM context;
  _ ← lift (validated (validate request));
  _ ← lift (check_generation self expected);
  lift (fingerprint encoded).
Definition as_write (r : MutationResult) : option WriteFileResult :=
  match r with MWrite r => Some r | _ => None end.
Definition as_create (r : MutationResult) : option unit :=
  match r with MCreateDirectory => Some tt | _ => None end.
Definition as_remove (r : MutationResult) : option RemovePathResult :=
  match r with MRemove r => Some r | _ => None end.

(** Opens the checks of a mutation; each failing one ends it the same way. *)
Ltac open_checks :=
  unfold mutate, checks_of, mbind, M_bind;
  repeat match goal with
  | |- context [checkpointM ?c ?w] => destruct (checkpointM c w) as [[] ?]
  | |- context [lift (validated ?v)] => destruct (validated v)
  | |- context [lift (check_generation ?s ?e)] => destruct (check_generation s e)
  | |- context [lift (fingerprint ?e)] => destruct (fingerprint e)
  end; cbn [lift]; try done.

Lemma write_mutate context request w :
  write self context request w =
  mutate (checks_of context request (wr_expected_generation request) (encode_write request))
    (wr_operation_id request) (bool_decide (is_Some (wr_expected_generation request)))
    (write_inner self request) MWrite as_write w.
Proof.
  unfold write. by open_checks.
Qed.
Lemma remove_mutate context request w :
  remove self context request w =
  mutate (checks_of context request (rm_expected_generation request) (encode_remove request))
    (rm_operation_id request) (bool_decide (is_Some (rm_expected_generation request)))
    (remove_inner self request) MRemove as_remove w.
Proof.
  unfold remove. by open_checks.
Qed.
Lemma create_mutate context request w :
  create_directory self context request w =
  mutate (checks_of context request None (encode_create_directory request))
    (cd_operation_id request) false
    (create_directory_inner self request) (λ _, MCreateDirectory) as_create w.
Proof.
  unfold create_directory, checks_of. change (check_generation self None) with (Ok tt : ExecutionResult unit).
  open_checks. unfold get_record. destruct (sw_records _ !! _); [done|].
  unfold attempt, native. cbn. by destruct (create_directory_inner _ _ _) as [[[]| |] ?].
Qed.

(** A request to change the host, and the supervisor's answer to it. *)
Inductive mutation :=
  | CallWrite (request : WriteFileRequest)
  | CallCreateDirectory (request : CreateDirectoryRequest)
  | CallRemove (request : RemovePathRequest).
Definition call_id (m : mutation) : OperationId :=
  match m with
  | CallWrite r => wr_operation_id r
  | CallCreateDirectory r => cd_operation_id r
  | CallRemove r => rm_operation_id r
  end.
Definition call_fenced (m : mutation) : bool :=
  match m with
  | CallWrite r => bool_decide (is_Some (wr_expected_generation r))
  | CallCreateDirectory _ => false
  | CallRemove r => bool_decide (is_Some (rm_expected_generation r))
  end.
Definition call_fingerprint (m : mutation) : ExecutionResult str :=
  fingerprint match m with
              | CallWrite r => encode_write r
              | CallCreateDirectory r => encode_create_directory r
              | CallRemove r => encode_remove r
              end.
Definition perform (context : OperationContext) (m : mutation) : M (SupervisorWorld V) MutationResult :=
  match m with
  | CallWrite r => a ← write self context r; mret (MWrite a)
  | CallCreateDirectory r => _ ← create_directory self context r; mret MCreateDirectory
  | CallRemove r => a ← remove self context r; mret (MRemove a)
  end.

(** The supervisor's life: calls that run to their end, calls dropped while their
    body ran (which leaves the host in any state, and the record a fenced call
    made before it started), and the changes of other programs. *)
Inductive sup_step : SupervisorWorld V → SupervisorWorld V → Prop :=
  | step_call context m w : sup_step w (perform context m w).2
  | step_dropped m fp w v :
    sw_records w !! call_id m = None → call_fingerprint m = Ok fp →
    sup_step w
      {| sw_records := if call_fenced m
                       then <[call_id m := {| mr_fingerprint := fp; mr_result := MFailure unknown_outcome |}]>
                              (sw_records w)
                       else sw_records w;
         sw_native := v |}
  | step_others w v : sup_step w {| sw_records := sw_records w; sw_native := v |}.

Section mutate.
Context {T : Type} (tree : V → T).
Context {A : Type} (checks : M (SupervisorWorld V) str) (id : OperationId) (fenced : bool)
  (body : M V A) (wrap : A → MutationResult) (unwrap : MutationResult → option A).
Context (Hchecks : m_within (kept tree) checks).

Lemma ensure_fingerprint_ok record fp i u :
  ensure_fingerprint record fp i = Ok u → fp = mr_fingerprint record.
Proof. unfold ensure_fingerprint, str_eqb. by case_bool_decide. Qed.
Lemma mutate_known w record :
  sw_records w !! id = Some record →
  kept tree w (mutate checks id fenced body wrap unwrap w).2 ∧
  ∀ a, (mutate checks id fenced body wrap unwrap w).1 = Ok a →
    unwrap (mr_result record) = Some a ∧ (checks w).1 = Ok (mr_fingerprint record).
Proof.
  intros Hrec. unfold mutate, mbind, M_bind. specialize (Hchecks w).
  destruct (checks w) as [[fp|e|] w1]; [|done|done]. cbn [snd] in Hchecks.
  unfold get_record. pose proof Hchecks as [Hr _]. rewrite <-Hr, Hrec. unfold lift.
  destruct (ensure_fingerprint record fp id) as [u|e|] eqn:E; [|done|done].
  apply ensure_fingerprint_ok in E as ->.
  destruct (mr_result record) as [f|r| |r] eqn:E; [done|..];
    (split; [by destruct (unwrap _)|]); intros a; destruct (unwrap _); naive_solver.
Qed.
Lemma mutate_grows w : sw_records w ⊆ sw_records (mutate checks id fenced body wrap unwrap w).2.
Proof.
  destruct (sw_records w !! id) as [record|] eqn:Hrec.
  { destruct (mutate_known w record Hrec) as [[Hr _] _]. by rewrite Hr. }
  unfold mutate, mbind, M_bind. specialize (Hchecks w).
  destruct (checks w) as [[fp|e|] w1]; destruct Hchecks as [Hr _]; cbn [snd] in Hr; [|by rewrite Hr..].
  unfold get_record. rewrite <-Hr, Hrec.
  destruct fenced; unfold put_record, attempt, native; cbn -[insert];
    destruct (body (sw_native w1)) as [[a|e|] v]; cbn -[insert]; rewrite <-Hr, ?insert_insert_eq;
    first [done|by apply insert_subseteq].
Qed.
(** A call that started its body under a fence leaves its outcome on record; a
    call that did not start leaves no trace. *)
Lemma mutate_recorded w :
  sw_records w !! id = None →
  let out := mutate checks id fenced body wrap unwrap w in
  (kept tree w out.2 ∧ ∀ a, out.1 ≠ Ok a) ∨
  ∃ fp, (checks w).1 = Ok fp ∧
    match out.1 with
    | Ok a => sw_records out.2 !! id = Some {| mr_fingerprint := fp; mr_result := wrap a |}
    | Err e => fenced = true → sw_records out.2 !! id = Some {| mr_fingerprint := fp; mr_result := MFailure e |}
    | Panic => fenced = true →
        sw_records out.2 !! id = Some {| mr_fingerprint := fp; mr_result := MFailure unknown_outcome |}
    end.
Proof.
  intros Hrec. unfold mutate, mbind, M_bind. specialize (Hchecks w).
  destruct (checks w) as [[fp|e|] w1]; [|left; by split..]. right. exists fp. split; [done|].
  destruct Hchecks as [Hr _]; cbn [snd] in Hr. unfold get_record. rewrite <-Hr, Hrec.
  destruct fenced; unfold put_record, attempt, native; cbn -[insert];
    destruct (body (sw_native w1)) as [[a|e|] v]; cbn -[insert]; intros; rewrite ?lookup_insert_eq; done.
Qed.
End mutate.

Section at_most_once.
Context {T : Type} (tree : V → T) `{!ObserveLaw tree}.

Lemma kept_checks {R} `{Validate R} context (request : R) expected encoded :
  m_within (kept tree) (checks_of context request expected encoded).
Proof.
  unfold checks_of. apply m_within_bind; [exact _|by apply kept_checkpoint|intros _].
  apply m_within_bind; [exact _|by intros w|intros _].
  apply m_within_bind; [exact _|by intros w|intros _]. by intros w.
Qed.
Lemma checks_fingerprint {R} `{Validate R} context (request : R) expected encoded w fp :
  (checks_of context request expected encoded w).1 = Ok fp → fingerprint encoded = Ok fp.
Proof.
  unfold checks_of, mbind, M_bind. destruct (checkpointM context w) as [[] w1]; [|done|done]. cbn [lift].
  destruct (validated _); [|done|done]. by destruct (check_generation _ _).
Qed.

Lemma perform_mutate context m : ∃ A (body : M V A) wrap unwrap checks,
  (∀ w, perform context m w = (a ← mutate checks (call_id m) (call_fenced m) body wrap unwrap; mret (wrap a)) w) ∧
  m_within (kept tree) checks ∧ (∀ w fp, (checks w).1 = Ok fp → call_fingerprint m = Ok fp) ∧
  (∀ r a, unwrap r = Some a → r = wrap a).
Proof.
  destruct m as [r|r|r]; cbn [perform call_id call_fenced];
    [exists _, (write_inner self r), MWrite, as_write, (checks_of context r (wr_expected_generation r) (encode_write r))
    |exists _, (create_directory_inner self r), (λ _, MCreateDirectory), as_create,
       (checks_of context r None (encode_create_directory r))
    |exists _, (remove_inner self r), MRemove, as_remove, (checks_of context r (rm_expected_generation r) (encode_remove r))];
    (split_and!; [intros w|apply kept_checks|intros w fp; apply checks_fingerprint|]).
  1,3,5: unfold mbind, M_bind; by rewrite ?write_mutate, ?create_mutate, ?remove_mutate.
  all: intros [] a; naive_solver.
Qed.
Lemma perform_known context m w record :
  sw_records w !! call_id m = Some record →
  kept tree w (perform context m w).2 ∧
  ∀ r, (perform context m w).1 = Ok r →
    mr_result record = r ∧ call_fingerprint m = Ok (mr_fingerprint record).
Proof.
  intros Hrec. destruct (perform_mutate context m) as (A & body & wrap & unwrap & checks & -> & Hk & Hfp & Hu).
  destruct (mutate_known tree checks (call_id m) (call_fenced m) body wrap unwrap Hk w record Hrec) as [H1 H2].
  unfold mbind, M_bind. destruct (mutate _ _ _ _ _ _ w) as [[a|e|] w']; [|done|done].
  split; [done|]. intros r [= <-]. destruct (H2 a eq_refl) as [Ha Hc].
  split; [by apply Hu|by eapply Hfp].
Qed.
Lemma perform_grows context m w : sw_records w ⊆ sw_records (perform context m w).2.
Proof.
  destruct (perform_mutate context m) as (A & body & wrap & unwrap & checks & -> & Hk & _).
  pose proof (mutate_grows tree checks (call_id m) (call_fenced m) body wrap unwrap Hk w) as H.
  unfold mbind, M_bind. by destruct (mutate _ _ _ _ _ _ w) as [[a|e|] w'].
Qed.
Lemma step_grows w w' : sup_step w w' → sw_records w ⊆ sw_records w'.
Proof.
  destruct 1 as [context m w|m fp w v Hn Hfp|w v]; [apply perform_grows| |done].
  destruct (call_fenced m); [by apply insert_subseteq|done].
Qed.

Lemma recorded_forever w w' id record :
  sw_records w !! id = Some record → rtc sup_step w w' → sw_records w' !! id = Some record.
Proof.
  intros Hrec Hsteps. induction Hsteps as [|w w1 w' Hstep _ IH]; [done|]. apply IH.
  eapply lookup_weaken; [done|by apply step_grows].
Qed.

(** C20. Once an operation identifier is on record, the record never changes,
    whatever calls run, are dropped or interfere; and every later call with that
    identifier leaves the records and the tree alone, and can only answer what is
    on record, to the request it was recorded for. *)
Theorem mutation_at_most_once context (m : mutation) (w w' : SupervisorWorld V) record :
  sw_records w !! call_id m = Some record → rtc sup_step w w' →
  sw_records w' !! call_id m = Some record ∧
  kept tree w' (perform context m w').2 ∧
  ∀ r, (perform context m w').1 = Ok r →
    mr_result record = r ∧ call_fingerprint m = Ok (mr_fingerprint record).
Proof.
  intros Hrec Hsteps. assert (Hrec' : sw_records w' !! call_id m = Some record).
  { by eapply recorded_forever. }
  split; [done|]. by apply perform_known.
Qed.

(** A fenced mutation with a fresh identifier either is refused before it
    starts, leaving records and tree alone, or leaves its outcome on record under
    its fingerprint: its reply, its error, or, when its body never returned, the
    answer that the outcome is unknown. *)
Theorem fenced_mutation_recorded context (m : mutation) (w : SupervisorWorld V) :
  call_fenced m = true → sw_records w !! call_id m = None →
  let out := perform context m w in
  (kept tree w out.2 ∧ ∀ r, out.1 ≠ Ok r) ∨
  ∃ fp, call_fingerprint m = Ok fp ∧
    sw_records out.2 !! call_id m =
      Some {| mr_fingerprint := fp;
              mr_result := match out.1 with
                           | Ok r => r
                           | Err e => MFailure e
                           | Panic => MFailure unknown_outcome
                           end |}.
Proof.
  intros Hf Hrec out.
  destruct (perform_mutate context m) as (A & body & wrap & unwrap & checks & Hp & Hk & Hfp & _).
  destruct (mutate_recorded tree checks (call_id m) (call_fenced m) body wrap unwrap Hk w Hrec)
    as [[H1 H2]|(fp & Hc & H)]; subst out; rewrite Hp; unfold mbind, M_bind.
  - left. destruct (mutate _ _ _ _ _ _ w) as [[a|e|] w']; [|done|done]. by destruct (H2 a).
  - right. exists fp. split; [by eapply Hfp|].
    destruct (mutate _ _ _ _ _ _ w) as [[a|e|] w']; cbn in *; auto.
Qed.
End at_most_once.
End mutations.
