(* ===== verification/Supervisor.v ===== *)
(** The supervisor as a whole ([execution-supervisor-core/src/runtime.rs]): its
    descriptor, its filesystem as an instance of the runtime traits, and the
    proofs that it keeps the promises of [Host] the tools are verified against. *)
From Stdlib Require Import ZifyBool Sorted.
From stdpp Require Import prelude gmap strings pretty list.
From S2P Require Import Prelude.
From S2P Require Import Text.
From S2P Require Import Core.
From S2P Require Import Host.
From S2P Require Import ProcessCore.
From S2P Require Import Resolver.
From S2P Require Import NativeMemory.
From S2P Require Import SupervisorFs.

(** ** No panics *)

(** What SHA-256 in hexadecimal looks like: 64 digits, none of them blank. *)
Class DigestLaw {dig : Digest} : Prop :=
  digest_hex : ∀ data, length (sha256_hex data) = 64 ∧
    Forall (λ c, (48 ≤ c ≤ 57)%N ∨ (97 ≤ c ≤ 102)%N) (sha256_hex data).
Arguments DigestLaw dig : clear implicits.

Lemma nonblank_id (k : id_kind) (s : str) c t :
  s = c :: t → is_whitespace c = false → NUL ∉ s → string_id_new k s = inl (StringId s).
Proof.
  intros -> Hc Hn. unfold string_id_new.
  assert (Ht : trim (c :: t) ≠ []).
  { unfold trim. rewrite trim_start_id by done. intros Ht.
    destruct (trim_end_prefix (c :: t)) as (w & Hw & Hall). rewrite Ht in Hw. simpl in Hw. subst w.
    apply Forall_cons in Hall as [Hw _]. congruence. }
  unfold str_is_empty. rewrite bool_decide_false by done. by apply contains_char_false in Hn as ->.
Qed.
Lemma hash_bytes_ok {dig : Digest} `{!DigestLaw dig} data :
  hash_bytes data = Ok (StringId (sha256_hex data)).
Proof.
  unfold hash_bytes. destruct (digest_hex data) as [Hl Hd].
  destruct (sha256_hex data) as [|c t] eqn:E; [done|].
  rewrite (nonblank_id _ (c :: t) c t); [done|done| |].
  - apply Forall_cons in Hd as [Hd _]. unfold is_whitespace. lia.
  - intros Hin. rewrite Forall_forall in Hd. apply Hd in Hin. unfold NUL in Hin. lia.
Qed.

Section safety.
Context {V T : Type} `{!World V, !NativeFs V} {dbg : DebugStr} {dig : Digest} {codec : RequestCodec}.
Context `{!DigestLaw dig} (tree : V → T) `{!NativeLaws tree} (self : SupervisorFileSystem).

Lemma m_safe_native {A} (m : M V A) : m_safe m → m_safe (native m).
Proof. intros Hm w. unfold native. specialize (Hm (sw_native w)). by destruct (m (sw_native w)). Qed.
Lemma m_safe_attempt {W A} (m : M W A) : m_safe m → m_safe (attempt m).
Proof. intros Hm w. unfold attempt. specialize (Hm w). by destruct (m w) as [[]]. Qed.
Lemma hash_bytes_no_panic data : hash_bytes data ≠ Panic.
Proof. by rewrite hash_bytes_ok. Qed.
Lemma read_all_no_panic p chunks acc : read_all p chunks acc ≠ Panic.
Proof. revert acc. induction chunks as [|[e|[|b c]] chunks IH]; intros acc; simpl; [done|done|done|apply IH]. Qed.
Lemma validated_no_panic v : validated v ≠ Panic.
Proof. by destruct v. Qed.
Lemma check_generation_no_panic e : check_generation self e ≠ Panic.
Proof. unfold check_generation. by repeat case_match. Qed.
Lemma fingerprint_no_panic e : fingerprint e ≠ Panic.
Proof. by destruct e. Qed.
Lemma ensure_fingerprint_no_panic r fp id : ensure_fingerprint r fp id ≠ Panic.
Proof. unfold ensure_fingerprint. by case_match. Qed.
Lemma child_path_no_panic r p : execution_path_new r p ≠ Panic.
Proof. unfold execution_path_new. by case_match. Qed.
#[local] Hint Resolve m_safe_lift hash_bytes_no_panic read_all_no_panic validated_no_panic
  check_generation_no_panic fingerprint_no_panic ensure_fingerprint_no_panic
  child_path_no_panic m_safe_checkpoint m_safe_resolve_existing m_safe_resolve_for_write
  m_safe_resolve_in_place m_safe_resolve_directory m_safe_await m_safe_outcome : effects.

Ltac safe_steps :=
  repeat first
    [ done
    | solve [auto with effects]
    | progress cbv zeta
    | apply m_safe_native
    | apply m_safe_attempt
    | apply m_safe_bind'; [|intros ?]
    | match goal with |- m_safe (match ?x with _ => _ end) => destruct x eqn:? end
    | match goal with |- m_safe (lift (match ?x with _ => _ end)) => destruct x eqn:? end ].

Lemma m_safe_now_v7 : m_safe (W:=V) now_v7.
Proof. intros w. unfold now_v7. by destruct (n_uuid w). Qed.
#[local] Hint Resolve m_safe_now_v7 : effects.
Lemma m_safe_hash_file p : m_safe (W:=V) (hash_file p).
Proof. unfold hash_file. safe_steps. Qed.
#[local] Hint Resolve m_safe_hash_file : effects.
Lemma m_safe_metadata_for spec p f : m_safe (W:=V) (metadata_for spec p f).
Proof. unfold metadata_for. safe_steps. Qed.
Lemma m_safe_current_revision p m : m_safe (W:=V) (current_revision p m).
Proof. unfold current_revision. safe_steps. Qed.
#[local] Hint Resolve m_safe_metadata_for m_safe_current_revision : effects.
Lemma m_safe_atomic_write p c e : m_safe (W:=V) (atomic_write p c e).
Proof. unfold atomic_write. safe_steps. Qed.
Lemma m_safe_write_in_place r p : m_safe (W:=V) (write_in_place self r p).
Proof. unfold write_in_place. safe_steps. Qed.
Lemma m_safe_check_condition c p e : m_safe (W:=V) (check_condition c p e).
Proof. unfold check_condition. safe_steps. Qed.
Lemma m_safe_existing_metadata p : m_safe (W:=V) (existing_metadata p).
Proof. unfold existing_metadata. safe_steps. Qed.
#[local] Hint Resolve m_safe_atomic_write m_safe_write_in_place m_safe_check_condition
  m_safe_existing_metadata : effects.
Lemma m_safe_write_inner r : m_safe (W:=V) (write_inner self r).
Proof. unfold write_inner. safe_steps. Qed.
Lemma m_safe_remove_inner r : m_safe (W:=V) (remove_inner self r).
Proof. unfold remove_inner. safe_steps. Qed.
#[local] Hint Resolve m_safe_write_inner m_safe_remove_inner : effects.
Lemma m_safe_put_record id r : m_safe (W:=SupervisorWorld V) (put_record id r).
Proof. done. Qed.
Lemma m_safe_get_record id : m_safe (W:=SupervisorWorld V) (get_record id).
Proof. done. Qed.
#[local] Hint Resolve m_safe_put_record m_safe_get_record : effects.

Lemma m_safe_stat c r : m_safe (stat self c r).
Proof. unfold stat. safe_steps. Qed.
Lemma m_safe_write c r : m_safe (write self c r).
Proof. unfold write. safe_steps. Qed.
Lemma m_safe_create_directory c r : m_safe (create_directory self c r).
Proof. unfold create_directory, create_directory_inner. safe_steps. Qed.
Lemma m_safe_remove c r : m_safe (remove self c r).
Proof. unfold remove. safe_steps. Qed.

Lemma select_chunk_ok request st chunk :
  buffer_sized (inr chunk) → in_u64 (rs_position st + N.of_nat (length chunk)) →
  ∃ st', select_chunk request st chunk = Ok st' ∧ rs_position st' = (rs_position st + N.of_nat (length chunk))%N.
Proof.
  intros Hs Hu. unfold select_chunk. rewrite buffer_len by done.
  unfold u64_checked_add, in_u64 in *. apply N.leb_le in Hu as ->. cbn [or_panic].
  cbv zeta. step_result.
  destruct (_ && _); [|by eexists].
  match goal with |- context [?a <? ?b] => destruct (Nat.ltb_spec a b) end; [|by eexists].
  rewrite slice_ok by lia. by eexists.
Qed.
Lemma m_safe_read_chunks context request p chunks st :
  Forall buffer_sized chunks → in_u64 (rs_position st + N.of_nat (length (chunks ≫= read_bytes))) →
  m_safe (W:=SupervisorWorld V) (read_chunks context request p chunks st).
Proof.
  intros Hs. revert st. induction Hs as [|chunk chunks Hc _ IH]; intros st Hu; cbn [read_chunks];
    (apply m_safe_bind'; [auto with effects|intros _]); [auto with effects|].
  destruct chunk as [e|[|b c]]; [done|auto with effects|].
  cbn [mbind list_bind read_bytes] in Hu. rewrite length_app in Hu. unfold in_u64 in Hu.
  destruct (select_chunk_ok request st (b :: c) Hc) as (st' & Hst & Hpos); [unfold in_u64; lia|].
  rewrite Hst. apply IH. rewrite Hpos. unfold in_u64. cbn [mbind list_bind] in *. lia.
Qed.
Lemma m_safe_read c r : m_safe (read self c r).
Proof.
  unfold read. apply m_safe_bind'; [auto with effects|intros _].
  apply m_safe_bind'; [auto with effects|intros _]. cbv zeta. destruct (_ <? _)%N; [done|].
  apply m_safe_bind'; [apply m_safe_native; auto with effects|intros p].
  apply m_safe_bind'; [apply m_safe_native; auto with effects|intros m].
  destruct (negb (is_file m)); [done|].
  apply (m_safe_bind _ _ (λ chunks, Forall buffer_sized chunks ∧ in_u64 (N.of_nat (length (chunks ≫= read_bytes))))).
  - apply m_safe_native; auto with effects.
  - intros w chunks w' (v & Hv%await_ok_inv & _)%native_ok_inv.
    assert (Ho : (n_open p (sw_native w)).1 = inr chunks) by by rewrite Hv.
    split; [by eapply (open_chunks (tree:=tree))|by eapply (open_size (tree:=tree))].
  - intros chunks [Hs Hu]. apply m_safe_bind'; [by apply m_safe_read_chunks|intros st].
    destruct (_ <? _)%N; [done|]. apply m_safe_bind'; [auto with effects|by intros].
Qed.
End safety.

(** ** Listing *)

Lemma str_leb_refl a : str_leb a a = true.
Proof. induction a as [|x a IH]; simpl; [done|]. rewrite IH. lia. Qed.
Lemma str_leb_total a b : str_leb a b = false → str_leb b a = true.
Proof.
  revert b. induction a as [|x a IH]; intros [|y b]; simpl; try done. intros H.
  specialize (IH b). destruct (N.ltb_spec x y), (N.eqb_spec x y), (N.ltb_spec y x), (N.eqb_spec y x);
    simpl in *; subst; try lia; auto.
Qed.
Lemma str_leb_trans a b c : str_leb a b = true → str_leb b c = true → str_leb a c = true.
Proof.
  revert b c. induction a as [|x a IH]; intros [|y b] [|z c]; simpl; try done. intros H1 H2.
  specialize (IH b c).
  destruct (N.ltb_spec x y), (N.eqb_spec x y), (N.ltb_spec y z), (N.eqb_spec y z),
    (N.ltb_spec x z), (N.eqb_spec x z); simpl in *; subst; try lia; auto.
Qed.
Lemma str_leb_antisym a b : str_leb a b = true → str_leb b a = true → a = b.
Proof.
  revert b. induction a as [|x a IH]; intros [|y b]; simpl; try done. intros H1 H2.
  destruct (N.ltb_spec x y), (N.eqb_spec x y), (N.ltb_spec y x), (N.eqb_spec y x);
    simpl in *; subst; try lia. f_equal. auto.
Qed.

Definition names_below (a b : str) : Prop := str_leb b a = false.
Lemma sorted_names names :
  NoDup names → StronglySorted names_below (sort_by str_leb names).
Proof.
  intros Hnd. pose proof (sort_by_sorted str_leb str_leb_total str_leb_trans names) as Hs.
  assert (Hnd' : NoDup (sort_by str_leb names)) by by rewrite sort_by_Permutation.
  revert Hnd'. induction Hs as [|x l Hl IH Hx]; intros Hnd'; constructor;
    apply NoDup_cons in Hnd' as [Hin Hnd']; [auto|].
  rewrite Forall_forall in *. intros y Hy. unfold names_below.
  destruct (str_leb y x) eqn:E; [|done]. specialize (Hx y Hy).
  rewrite (str_leb_antisym x y) in Hin; [done|done|done].
Qed.
Lemma filter_Forall {A} (P : A → Prop) `{!∀ x, Decision (P x)} l : Forall P l → filter P l = l.
Proof. induction 1 as [|x l Hx _ IH]; [done|]. by rewrite filter_cons_True, IH. Qed.
(** What comes after a name of a sorted list is what follows its position. *)
Lemma filter_after s k c :
  StronglySorted names_below s → s !! k = Some c →
  filter (λ name, str_leb name c = false) s = drop (S k) s.
Proof.
  intros Hs. revert k. induction Hs as [|x l Hl IH Hx]; intros [|k] Hk; simplify_eq/=.
  - rewrite filter_cons_False by by rewrite str_leb_refl. rewrite drop_0.
    by apply filter_Forall.
  - rewrite filter_cons_False; [by apply IH|].
    rewrite Forall_forall in Hx. apply list_elem_of_lookup_2, Hx in Hk. unfold names_below in Hk.
    apply str_leb_total in Hk. congruence.
Qed.

(** One page, from a position of the sorted names. *)
Lemma page_names_from request names k :
  NoDup names → k ≤ length names →
  ls_cursor request = match k with 0 => None | S j => StringId <$> sort_by str_leb names !! j end →
  page_names request names =
    (take (N.to_nat (ls_max_entries request)) (drop k (sort_by str_leb names)),
     N.to_nat (ls_max_entries request) <? length names - k).
Proof.
  intros Hnd Hk Hc. unfold page_names. rewrite Hc.
  assert (Hlen : length (sort_by str_leb names) = length names) by by rewrite sort_by_Permutation.
  destruct k as [|k].
  - by rewrite drop_0, Hlen, Nat.sub_0_r.
  - destruct (lookup_lt_is_Some_2 (sort_by str_leb names) k) as [c Hl]; [lia|]. rewrite Hl. cbn [fmap option_fmap option_map].
    rewrite (filter_after _ k c) by (done || by apply sorted_names). by rewrite length_drop, Hlen.
Qed.

(** Following the cursors over a directory that does not change. *)
Fixpoint follow_pages (fuel : nat) (request : ListDirectoryRequest) (names : list str)
  : option (list (list str)) :=
  match fuel with
  | 0 => None
  | S fuel =>
    let '(page, more) := page_names request names in
    if more : bool then
      name ← last page;
      rest ← follow_pages fuel {| ls_path := ls_path request; ls_follow_symlinks := ls_follow_symlinks request;
                                  ls_max_entries := ls_max_entries request;
                                  ls_cursor := Some (StringId name) |} names;
      Some (page :: rest)
    else Some [page]
  end.
Lemma follow_pages_from fuel request names k :
  NoDup names → k ≤ length names → length names - k < fuel → (0 < ls_max_entries request)%N →
  ls_cursor request = match k with 0 => None | S j => StringId <$> sort_by str_leb names !! j end →
  ∃ pages, follow_pages fuel request names = Some pages ∧
           concat pages = drop k (sort_by str_leb names) ∧
           Forall (λ page, length page ≤ N.to_nat (ls_max_entries request)) pages.
Proof.
  intros Hnd. revert request k. induction fuel as [|fuel IH]; intros request k Hk Hf Hmax Hc; [lia|].
  cbn [follow_pages]. rewrite (page_names_from request names k) by done.
  set (max := N.to_nat (ls_max_entries request)). assert (0 < max) by (unfold max; lia).
  assert (Hlen : length (sort_by str_leb names) = length names) by by rewrite sort_by_Permutation.
  destruct (Nat.ltb_spec max (length names - k)) as [Hlt|Hge].
  - assert (Hlast : last (take max (drop k (sort_by str_leb names)))
                    = sort_by str_leb names !! (k + max - 1)).
    { rewrite last_lookup, length_take, length_drop, Hlen, Nat.min_l by lia.
      rewrite lookup_take_lt by lia. rewrite lookup_drop. f_equal. lia. }
    rewrite Hlast. destruct (lookup_lt_is_Some_2 (sort_by str_leb names) (k + max - 1)) as [c Hcur]; [lia|].
    rewrite Hcur. cbn [mbind option_bind].
    destruct (IH {| ls_path := ls_path request; ls_follow_symlinks := ls_follow_symlinks request;
                    ls_max_entries := ls_max_entries request; ls_cursor := Some (StringId c) |} (k + max))
      as (pages & Hp & Hcat & Hsizes); [lia|lia|done| |].
    { cbn [ls_cursor]. destruct (k + max) as [|n] eqn:E; [lia|].
      replace (S n - 1) with n in Hcur by lia. by rewrite Hcur. }
    rewrite Hp. eexists. split; [done|]. split.
    + cbn [concat]. rewrite Hcat. replace (k + max) with (max + k) by lia.
      rewrite <-(take_drop max (drop k (sort_by str_leb names))) at 2. by rewrite drop_drop, (Nat.add_comm k).
    + constructor; [rewrite length_take; lia|done].
  - eexists. split; [done|]. split.
    + cbn [concat]. rewrite app_nil_r. apply take_ge. rewrite length_drop. lia.
    + constructor; [rewrite length_take; lia|done].
Qed.

(** Following the cursors of a listing over a directory that does not change
    ends, and its pages hold every name exactly once, in order, no page longer
    than was asked for. *)
Theorem listing_complete (request : ListDirectoryRequest) (names : list str) :
  NoDup names → (0 < ls_max_entries request)%N → ls_cursor request = None →
  ∃ pages, follow_pages (S (length names)) request names = Some pages ∧
    concat pages ≡ₚ names ∧ StronglySorted names_below (concat pages) ∧
    Forall (λ page, length page ≤ N.to_nat (ls_max_entries request)) pages.
Proof.
  intros Hnd Hmax Hc.
  destruct (follow_pages_from (S (length names)) request names 0) as (pages & Hp & Hcat & Hs);
    [done|lia|lia|done|done|].
  rewrite drop_0 in Hcat. exists pages. rewrite Hcat.
  split_and!; [done|by rewrite sort_by_Permutation|by apply sorted_names|done].
Qed.
Lemma listing_complete_witness :
  let request := {| ls_path := at_work (str! "."); ls_follow_symlinks := true;
                    ls_max_entries := 2; ls_cursor := None |} in
  let names := [str! "b"; str! "d"; str! "a"; str! "e"; str! "c"] in
  follow_pages 6 request names = Some [[str! "a"; str! "b"]; [str! "c"; str! "d"]; [str! "e"]] ∧
  ∃ pages, follow_pages 6 request names = Some pages ∧
    concat pages ≡ₚ names ∧ StronglySorted names_below (concat pages) ∧
    Forall (λ page, length page ≤ 2) pages.
Proof.
  split; [vm_compute; reflexivity|].
  apply (listing_complete {| ls_path := at_work (str! "."); ls_follow_symlinks := true;
                             ls_max_entries := 2; ls_cursor := None |}
           [str! "b"; str! "d"; str! "a"; str! "e"; str! "c"]); [|reflexivity|reflexivity].
  apply (bool_decide_unpack _). vm_compute. exact I.
Defined.

Section listing.
Context {V T : Type} `{!World V, !NativeFs V} {dbg : DebugStr} {dig : Digest}.
Context (tree : V → T) `{!NativeLaws tree, !ObserveLaw tree} (self : SupervisorFileSystem).

Lemma same_tree_hash_file p : m_within (same_tree tree) (hash_file p).
Proof.
  unfold hash_file. apply m_within_bind; [exact _|apply same_tree_await, open_reads|].
  intros chunks. apply m_within_bind; [exact _|by intros v|by intros ? v].
Qed.
Lemma same_tree_metadata_for spec p f : m_within (same_tree tree) (metadata_for spec p f).
Proof.
  unfold metadata_for. apply m_within_bind; [exact _| |].
  { apply same_tree_await. intros v. destruct f; [apply metadata_reads|apply lstat_reads]. }
  intros m. apply m_within_bind; [exact _| |by intros ? v].
  destruct (nm_kind m); [|by intros v| |by intros v].
  - apply m_within_bind; [exact _|apply same_tree_hash_file|by intros ? v].
  - apply m_within_bind; [exact _|apply same_tree_await, read_link_reads|].
    intros t. apply m_within_bind; [exact _|by intros v|by intros ? v].
Qed.
Lemma kept_resolve how spec : m_within (kept tree) (native (resolve (sfs_resolver self) how spec)).
Proof. by apply kept_native, same_tree_resolve. Qed.
Lemma kept_list_entries context request names :
  m_within (kept tree) (list_entries self context request names).
Proof.
  induction names as [|name names IH]; cbn [list_entries]; [by intros w|].
  apply m_within_bind; [exact _| |intros e; apply m_within_bind; [exact _|done|by intros ? w]].
  unfold list_entry. apply m_within_bind; [exact _|by apply kept_checkpoint|intros _].
  apply m_within_bind; [exact _|by intros w|intros child].
  apply m_within_bind; [exact _|apply (kept_resolve (ForExisting _))|intros p].
  apply m_within_bind; [exact _|by apply kept_native, same_tree_metadata_for|by intros ? w].
Qed.
Lemma list_entries_names context request names w es w' :
  list_entries self context request names w = (Ok es, w') → de_name <$> es = names.
Proof.
  revert w es w'. induction names as [|name names IH]; intros w es w'; cbn [list_entries]; [by intros [= <- _]|].
  intros (e & w1 & He & H)%M_bind_ok_inv. apply M_bind_ok_inv in H as (rest & w2 & Hrest & H).
  injection H as <- _. rewrite fmap_cons. f_equal; [|by eapply IH].
  unfold list_entry in He. apply M_bind_ok_inv in He as (? & ? & _ & He).
  apply M_bind_ok_inv in He as (? & ? & _ & He). apply M_bind_ok_inv in He as (? & ? & _ & He).
  apply M_bind_ok_inv in He as (? & ? & _ & He). by injection He as <- _.
Qed.

(** A successful listing changes nothing and replies with one page of the
    names found in a directory contained in the requested root: the next names
    after the cursor in order, with a cursor at the last of them when, and only
    when, there are more. *)
Theorem list_returns_page context request r (w w' : SupervisorWorld V) :
  list_ self context request w = (Ok r, w') →
  kept tree w w' ∧
  ∃ p v found names,
    contained (sw_native w) (sfs_resolver self) (ForExisting (ls_follow_symlinks request)) (ls_path request) p ∧
    tree v = tree (sw_native w) ∧ (n_read_dir p v).1 = inr found ∧ read_names p found = Ok names ∧
    de_name <$> entries r = (page_names request names).1 ∧
    next_cursor r = (if (page_names request names).2 then StringId <$> last (page_names request names).1
                     else None).
Proof.
  unfold list_. intros H.
  apply M_bind_ok_inv in H as (? & w1 & H1 & H).
  apply (kept_step tree w w) in H1 as K1; [|done|by apply kept_checkpoint].
  apply M_bind_ok_inv in H as (? & ? & [_ <-]%pair_eq & H).
  apply M_bind_ok_inv in H as (p & w2 & H2 & H).
  apply (resolve_ok tree self (ForExisting (ls_follow_symlinks request)) (ls_path request) w) in H2 as [K2 Hp]; [|done].
  apply M_bind_ok_inv in H as (m & w3 & H3 & H).
  apply (kept_step tree w w2) in H3 as K3; [|done|apply kept_native, same_tree_await, metadata_reads].
  destruct (is_dir m); [|done]. cbn [negb] in H.
  apply M_bind_ok_inv in H as (found & w4 & H4 & H).
  apply (kept_step tree w w3) in H4 as K4; [|done|apply kept_native, same_tree_await, read_dir_reads].
  apply native_ok_inv in H4 as (v4 & Hfound%await_ok_inv & _).
  apply M_bind_ok_inv in H as (names & ? & [Hnames <-]%pair_eq & H).
  destruct (page_names request names) as [page more] eqn:Hpage.
  apply M_bind_ok_inv in H as (es & w5 & H5 & H).
  apply (kept_step tree w w4) in H5 as K5; [|done|apply kept_list_entries].
  apply list_entries_names in H5 as Hes.
  apply M_bind_ok_inv in H as (next & ? & [Hnext <-]%pair_eq & H). injection H as <- <-.
  split; [done|]. exists p, (sw_native w3), found, names.
  split_and!; [done|by destruct K3|by rewrite Hfound|done|by rewrite Hpage|].
  rewrite Hpage. cbn [fst snd]. rewrite <-Hes, fmap_last. cbn [next_cursor].
  destruct more; cbn [fst snd] in *; [|by simplify_eq].
  destruct (last es) as [e|]; [|by simplify_eq].
  inv_ok Hnext. simplify_eq. unfold string_id_new in H. by repeat case_match; simplify_eq/=.
Qed.
End listing.

Section foreign_names.
Context {V : Type} `{!World V, !NativeFs V} {dbg : DebugStr} {dig : Digest} (self : SupervisorFileSystem).

End foreign_names.

(** ** Starting the supervisor *)

(** [SupervisorConfig]; no state directory is the empty path. *)
Record SupervisorConfig := {
  sc_host_id : ExecutionHostId;
  sc_state_directory : option npath;
  sc_roots : list SupervisorRoot;
  sc_limits : SupervisorLimits;
}.

Definition validate_config (config : SupervisorConfig) : SupervisorInitError + unit :=
  let l := sc_limits config in
  if (sl_max_read_bytes l =? 0)%N || (sl_max_write_bytes l =? 0)%N
     || (sl_max_process_read_bytes l =? 0)%N || (sl_max_process_input_bytes l =? 0)%N
     || (sl_max_concurrent_processes l =? 0)%N || (sl_process_output_chunk_bytes l =? 0)%N
     || (sl_completed_execution_retention l =? 0)%N then
    inl (InvalidConfiguration
           (str! "all supervisor byte, process, chunk, and retention limits must be greater than zero"))
  else if bool_decide (sc_state_directory config = None) then
    inl (InvalidConfiguration (str! "state_directory must not be empty"))
  else inr tt.

Definition descriptor_limits (l : SupervisorLimits) : ExecutionLimits :=
  {| max_read_bytes := Some (sl_max_read_bytes l);
     max_write_bytes := Some (sl_max_write_bytes l);
     max_process_read_bytes := Some (sl_max_process_read_bytes l);
     max_process_input_bytes := Some (sl_max_process_input_bytes l);
     max_concurrent_processes := Some (sl_max_concurrent_processes l) |}.

(** [host_operating_system], from the value of [std::env::consts::OS]. *)
Definition host_operating_system (os : str) : OperatingSystem :=
  if str_eqb os (str! "linux") then Linux
  else if str_eqb os (str! "macos") then Macos
  else if str_eqb os (str! "windows") then Windows
  else OtherOS os.

Definition supervisor_descriptor (config : SupervisorConfig) (resolver : PathResolver)
    (generation : SupervisorGenerationId) (os arch : str) : ExecutionHostDescriptor :=
  {| host_id := sc_host_id config; supervisor_generation_id := generation;
     operating_system := host_operating_system os; architecture := arch;
     path_convention := ConvUnix; roots := descriptors resolver;
     features := {| pty := true; process_signals := true; file_revisions := true |};
     limits := descriptor_limits (sc_limits config) |}.

Section start.
Context {V : Type} `{!NativeFs V} {dbg : DebugStr}.

(** [SupervisorRuntime::new] up to the process runtime, which it then starts. *)
Definition supervisor_new (config : SupervisorConfig) (generation : SupervisorGenerationId)
    (os arch : str) (v : V)
  : (SupervisorInitError + SupervisorFileSystem * ExecutionHostDescriptor) * V :=
  match validate_config config with
  | inl e => (inl e, v)
  | inr _ =>
    let state_directory := default [] (sc_state_directory config) ++ [str! "generations"; as_str generation] in
    match n_create_dir_all state_directory v with
    | (inl e, v) => (inl (InitIo e), v)
    | (inr _, v) =>
      match resolver_new (sc_roots config) v with
      | (inl e, v) => (inl e, v)
      | (inr resolver, v) =>
        let descriptor := supervisor_descriptor config resolver generation os arch in
        match validate descriptor with
        | inr source =>
          (inl (InvalidConfiguration
                  (format! [str! "generated execution descriptor is invalid: "; show_validation source])), v)
        | inl _ =>
          (inr ({| sfs_resolver := resolver; sfs_limits := sc_limits config; sfs_generation := generation |},
                descriptor), v)
        end
      end
    end
  end.

(** What the constructor of the resolver establishes of its entries. *)
Definition entries_ok (entries : PathResolver) : Prop :=
  ∀ id e, entries !! id = Some e →
    er_id (re_descriptor e) = id ∧ trim (er_name (re_descriptor e)) ≠ [] ∧
    native_path (re_descriptor e) = display (re_canonical e).
Lemma new_entries_ok rs entries (v v' : V) resolver :
  entries_ok entries → new_entries rs entries v = (inr resolver, v') → entries_ok resolver.
Proof.
  revert entries v. induction rs as [|root rs IH]; intros entries v He; cbn [new_entries]; [by intros [= <- _]|].
  unfold str_is_empty. case_bool_decide as Hname; [done|].
  destruct (n_canonicalize _ v) as [[|canonical] v1]; [done|].
  destruct (n_metadata _ v1) as [[|m] v2]; [done|]. destruct (is_dir m); [|done]. cbn [negb].
  destruct (entries !! sr_id root); [done|]. apply IH.
  intros id e. destruct (decide (id = sr_id root)) as [->|Hne].
  - rewrite lookup_insert_eq. by intros [= <-].
  - rewrite lookup_insert_ne by done. apply He.
Qed.
Lemma resolver_new_ok rs (v v' : V) resolver : resolver_new rs v = (inr resolver, v') → entries_ok resolver.
Proof. destruct rs; [done|]. by apply new_entries_ok. Qed.

Lemma descriptors_ids resolver :
  entries_ok resolver → NoDup (er_id <$> descriptors resolver) ∧ Forall valid (descriptors resolver).
Proof.
  intros Hok. unfold descriptors. split.
  - rewrite sort_by_Permutation, <-list_fmap_compose.
    rewrite (list_fmap_ext _ fst).
    + apply NoDup_fst_map_to_list.
    + intros i [id e] Hl. apply list_elem_of_lookup_2, elem_of_map_to_list in Hl. by apply Hok in Hl as [? _].
  - rewrite sort_by_Permutation. apply Forall_fmap, Forall_forall. intros [id e] He.
    apply elem_of_map_to_list in He. apply Hok in He as (_ & Hn & Hp). cbn.
    unfold valid, validate, ExecutionRoot_validate. apply finish_ok.
    rewrite !require_non_empty_nil. split_and!; [done|done|]. rewrite Hp. unfold display, trim.
    rewrite trim_start_id by done. intros Ht.
    destruct (trim_end_prefix (SLASH :: join [SLASH] (re_canonical e))) as (w & Hw & Hall).
    rewrite Ht in Hw. simpl in Hw. subst w. by apply Forall_cons in Hall as [? _].
Qed.
Lemma validate_roots_nil rs :
  NoDup (er_id <$> rs) → Forall valid rs → validate_roots [] rs = [].
Proof.
  intros Hnd Hv. unfold validate_roots. generalize 0 as n.
  assert (Hseen : ∀ r, r ∈ rs → er_id r ∉ (∅ : gset RootId)) by (intros; set_solver).
  revert Hseen. generalize (∅ : gset RootId) as seen.
  revert Hnd Hv. induction rs as [|r rs IH]; intros Hnd Hv seen Hseen n; [done|].
  rewrite fmap_cons in Hnd. apply NoDup_cons in Hnd as [Hin Hnd]. apply Forall_cons in Hv as [Hr Hv].
  cbn [length seq zip foldl]. rewrite decide_False by (apply Hseen; set_solver).
  unfold valid in Hr. rewrite Hr. cbn [append_nested]. apply IH; [done|done|].
  intros r' Hr'. specialize (Hseen r' ltac:(set_solver)).
  rewrite elem_of_union, elem_of_singleton. intros [Heq|?]; [|done].
  apply Hin. rewrite <-Heq. apply list_elem_of_fmap. eauto.
Qed.
Lemma new_entries_grow rs entries (v v' : V) resolver :
  new_entries rs entries v = (inr resolver, v') → entries ⊆ resolver.
Proof.
  revert entries v. induction rs as [|root rs IH]; intros entries v; cbn [new_entries]; [by intros [= -> _]|].
  destruct (str_is_empty _); [done|].
  destruct (n_canonicalize _ v) as [[|canonical] v1]; [done|].
  destruct (n_metadata _ v1) as [[|m] v2]; [done|]. destruct (is_dir m); [|done]. cbn [negb].
  destruct (entries !! sr_id root) eqn:Hid; [done|]. intros H%IH.
  etrans; [|exact H]. by apply insert_subseteq.
Qed.
Lemma resolver_new_nonempty rs (v v' : V) resolver :
  resolver_new rs v = (inr resolver, v') → resolver ≠ ∅.
Proof.
  destruct rs as [|root rs]; [done|]. cbn [resolver_new new_entries].
  destruct (str_is_empty _); [done|].
  destruct (n_canonicalize _ v) as [[|canonical] v1]; [done|].
  destruct (n_metadata _ v1) as [[|m] v2]; [done|]. destruct (is_dir m); [|done]. cbn [negb].
  rewrite lookup_empty. intros H%new_entries_grow ->.
  eapply (lookup_weaken _ _ (sr_id root)) in H; [|apply lookup_insert_eq]. by rewrite lookup_empty in H.
Qed.
Lemma descriptors_nonempty resolver : resolver ≠ ∅ → descriptors resolver ≠ [].
Proof.
  intros Hne Hd. apply Hne, map_to_list_empty_iff. unfold descriptors in Hd.
  pose proof (sort_by_Permutation (λ a b, str_leb (as_str (er_id a)) (as_str (er_id b)))
    ((λ kv, re_descriptor kv.2) <$> map_to_list resolver)) as Hp.
  rewrite Hd in Hp. apply Permutation_nil_l in Hp. symmetry in Hp. by apply fmap_nil_inv in Hp.
Qed.
Lemma check_limit_nil is_ f n : is_ = [] → (n =? 0)%N = false → check_limit is_ f (Some n) = [].
Proof. intros -> Hn. unfold check_limit. rewrite bool_decide_false; [done|]. intros [= ->]. done. Qed.

(** The descriptor a supervisor generates for accepted limits and roots is
    always valid (non-empty and distinct roots, named; non-zero limits), on a
    host with a named architecture and system: the check of the generated
    descriptor cannot fail. *)
Theorem supervisor_descriptor_valid config generation os arch (v v' : V) resolver :
  trim arch ≠ [] → trim os ≠ [] → validate_config config = inr tt →
  resolver_new (sc_roots config) v = (inr resolver, v') →
  valid (supervisor_descriptor config resolver generation os arch).
Proof.
  intros Harch Hos Hc Hr. unfold valid, validate, ExecutionHostDescriptor_validate. apply finish_ok.
  cbn [features file_revisions supervisor_descriptor negb].
  assert (Hlimits : validate (descriptor_limits (sc_limits config)) = inl tt).
  { unfold validate_config in Hc. destruct (_ || _) eqn:E; [done|]. rewrite !orb_false_iff in E.
    destruct E as [[[[[[H1 H2] H3] H4] H5] _] _].
    unfold validate, ExecutionLimits_validate, descriptor_limits. apply finish_ok. cbn.
    by repeat (apply check_limit_nil; [|done]). }
  cbn [limits supervisor_descriptor]. rewrite Hlimits. cbn [append_nested roots supervisor_descriptor].
  apply resolver_new_nonempty in Hr as Hne. apply descriptors_nonempty in Hne.
  apply resolver_new_ok, descriptors_ids in Hr as [Hnd Hv].
  assert (Harch' : require_non_empty [] (str! "architecture") arch = []) by by apply require_non_empty_nil.
  cbn [architecture operating_system supervisor_descriptor]. rewrite Harch'.
  replace (match host_operating_system os with
           | OtherOS name => require_non_empty [] (str! "operating_system.name") name
           | _ => []
           end) with ([] : list ValidationIssue).
  2: { unfold host_operating_system. repeat case_match; simplify_eq; [done..|].
       symmetry. by apply require_non_empty_nil. }
  destruct (descriptors resolver) as [|r rs] eqn:E; [done|]. by apply validate_roots_nil.
Qed.
End start.

(** ** The supervisor keeps the promises of [Host] *)

Definition supervisor_filesystem {V : Type} `{!World V, !NativeFs V} {dbg : DebugStr} {dig : Digest}
    {codec : RequestCodec} (self : SupervisorFileSystem) : FileSystem (SupervisorWorld V) :=
  {| fs_stat := stat self; fs_read := read self; fs_write := write self;
     fs_create_directory := create_directory self; fs_remove := remove self; fs_list := list_ self |}.
Definition supervisor_runtime {V : Type} `{!World V, !NativeFs V} {dbg : DebugStr} {dig : Digest}
    {codec : RequestCodec} (self : SupervisorFileSystem) (d : ExecutionHostDescriptor)
  : ExecutionRuntime (SupervisorWorld V) :=
  {| rt_descriptor := d; rt_filesystem := supervisor_filesystem self |}.

Section promises.
Context {V T : Type} `{!World V, !NativeFs V} {dbg : DebugStr} {dig : Digest} {codec : RequestCodec}.
Context (tree : V → T) `{!NativeLaws tree, !ObserveLaw tree} (self : SupervisorFileSystem).

(** The part of the world a client cannot change by observing. *)
Definition store (w : SupervisorWorld V) : MutationState * T := (sw_records w, sup_tree tree w).
Lemma kept_store w w' : kept tree w w' ↔ store w = store w'.
Proof. unfold kept, store. split; [intros [-> ->]; done|by intros [= ??]]. Qed.

Lemma kept_read context request : m_within (kept tree) (read self context request).
Proof.
  unfold read. apply m_within_bind; [exact _|by apply kept_checkpoint|intros _].
  apply m_within_bind; [exact _|by intros w|intros _]. cbv zeta. destruct (_ <? _)%N; [by intros w|].
  apply m_within_bind; [exact _|apply (kept_resolve tree self (ForExisting _))|intros p].
  apply m_within_bind; [exact _| |intros m].
  { apply kept_native, same_tree_await. intros v.
    destruct (rd_follow_symlinks request); [apply metadata_reads|apply lstat_reads]. }
  destruct (negb (is_file m)); [by intros w|].
  apply m_within_bind; [exact _|by apply kept_native, same_tree_await, open_reads|intros chunks].
  apply m_within_bind; [exact _|by apply kept_read_chunks|intros st].
  destruct (_ <? _)%N; [by intros w|]. by apply m_within_bind; [exact _|by intros w|intros ? w].
Qed.
Lemma kept_stat context request : m_within (kept tree) (stat self context request).
Proof.
  unfold stat. apply m_within_bind; [exact _|by apply kept_checkpoint|intros _].
  apply m_within_bind; [exact _|by intros w|intros _].
  apply m_within_bind; [exact _|apply (kept_resolve tree self (ForExisting _))|intros p].
  by apply kept_native, same_tree_metadata_for.
Qed.

(** The reply of a mutation that succeeded is on record. *)
Lemma performed_recorded context m w r w' :
  perform self context m w = (Ok r, w') →
  ∃ record, sw_records w' !! call_id m = Some record ∧ mr_result record = r.
Proof.
  intros H. destruct (sw_records w !! call_id m) as [record|] eqn:Hrec.
  - destruct (perform_known self tree context m w record Hrec) as [[Hr _] Hk]. rewrite H in Hr, Hk; cbn [fst snd] in Hr, Hk.
    exists record. split; [by rewrite <-Hr|]. by apply Hk.
  - destruct (perform_mutate self tree context m) as (A & body & wrap & unwrap & checks & Hp & Hc & _).
    rewrite Hp in H. apply M_bind_ok_inv in H as (a & w1 & Ha & [= <- <-]).
    destruct (mutate_recorded tree checks (call_id m) (call_fenced m) body wrap unwrap Hc w Hrec)
      as [[_ Hno]|(fp & _ & Hk)]; rewrite Ha in *; cbn [fst snd] in *; [by destruct (Hno a)|eauto].
Qed.
Lemma perform_replay context context' m w1 r w2 w3 :
  perform self context m w1 = (Ok r, w2) → store w3 = store w2 →
  store (perform self context' m w3).2 = store w2 ∧
  ∀ r', (perform self context' m w3).1 = Ok r' → r' = r.
Proof.
  intros H Hs. destruct (performed_recorded _ _ _ _ _ H) as (record & Hrec & <-).
  assert (Hrec3 : sw_records w3 !! call_id m = Some record) by (injection Hs as -> _; done).
  destruct (perform_known self tree context' m w3 record Hrec3) as [Hk Hr].
  split; [rewrite <-Hs; symmetry; by apply kept_store|]. intros r' Hr'. symmetry. by apply Hr.
Qed.

(** C21. The supervisor implements the runtime interface the tools are verified
    against: its calls never panic, observing calls leave the mutation records
    and the directory tree alone, and a fenced mutation sent again to the same
    state changes nothing and repeats its reply or fails. *)
Theorem supervisor_implements_runtime (d : ExecutionHostDescriptor) :
  DigestLaw dig →
  let rt := supervisor_runtime self d in
  RuntimeSafe (SupervisorWorld V) (ExecutionRuntime0 := rt) ∧
  ReadsWithin (ExecutionRuntime0 := rt) (kept tree) ∧
  ReplaySafe (ExecutionRuntime0 := rt) store.
Proof.
  intros Hdig rt. split_and!; split; cbn.
  - intros c r. by apply m_safe_stat.
  - intros c r. by apply (m_safe_read tree).
  - intros c r. by apply m_safe_write.
  - intros c r. by apply m_safe_remove.
  - exact _.
  - intros c. by apply kept_checkpoint.
  - intros c r. apply kept_stat.
  - intros c r. apply kept_read.
  - intros c w. symmetry. apply kept_store. by apply kept_checkpoint.
  - intros c c' req w1 w2 r w3 _ H Hs.
    destruct (perform_replay c c' (CallWrite req) w1 (MWrite r) w2 w3) as [H1 H2]; [|done|].
    { cbn [perform]. by rewrite (M_bind_ok _ _ _ _ _ H). }
    cbn [perform] in H1, H2. unfold mbind, M_bind in H1, H2.
    destruct (write self c' req w3) as [[a|e|] w4]; cbn [fst snd] in *; [|done|done].
    split; [done|]. intros r' [= <-]. by specialize (H2 _ eq_refl) as [= ->].
  - intros c c' req w1 w2 r w3 _ H Hs.
    destruct (perform_replay c c' (CallRemove req) w1 (MRemove r) w2 w3) as [H1 H2]; [|done|].
    { cbn [perform]. by rewrite (M_bind_ok _ _ _ _ _ H). }
    cbn [perform] in H1, H2. unfold mbind, M_bind in H1, H2.
    destruct (remove self c' req w3) as [[a|e|] w4]; cbn [fst snd] in *; [|done|done].
    split; [done|]. intros r' [= <-]. by specialize (H2 _ eq_refl) as [= ->].
Qed.
End promises.

(** ** A supervisor over the in-memory filesystem *)

#[local] Existing Instances memory_native memory_native_laws memory_debug.
#[local] Instance native_clock : World NativeWorld := { observe := λ _ w, ((false, 0%N), w) }.
#[local] Instance native_clock_law : ObserveLaw nw_nodes.
Proof. done. Qed.

(** A digest that is injective on short data: its hexadecimal form, padded. *)
Definition hex_digit (n : N) : N := (if n <? 10 then 48 + n else 87 + n)%N.
Definition hex_of (data : bytes) : str := data ≫= λ b, [hex_digit (b / 16 mod 16)%N; hex_digit (b mod 16)%N].
#[local] Instance memory_digest : Digest := λ data, take 64 (hex_of data ++ replicate 64 48%N).
#[local] Instance memory_digest_law : DigestLaw memory_digest.
Proof.
  intros data. unfold sha256_hex, memory_digest. split.
  - rewrite length_take, length_app, length_replicate. lia.
  - apply Forall_take, Forall_app. split; [|apply Forall_replicate; lia].
    unfold hex_of. induction data as [|b data IH]; [done|]. cbn [mbind list_bind app].
    assert (Hd : ∀ n, ((48 ≤ hex_digit (n mod 16) ≤ 57) ∨ (97 ≤ hex_digit (n mod 16) ≤ 102))%N).
    { intros n. pose proof (N.mod_lt n 16 ltac:(lia)) as Hn. unfold hex_digit.
      revert Hn. generalize (n mod 16)%N. intros k Hk. destruct (N.ltb_spec k 10); lia. }
    repeat (constructor; [apply Hd|]). exact IH.
Qed.
(** An encoding of requests that tells apart what the samples use. *)
#[local] Instance memory_codec : RequestCodec := {
  encode_write := λ r, inr (path (wr_path r) ++ [0%N] ++ wr_data r);
  encode_create_directory := λ r, inr (path (cd_path r));
  encode_remove := λ r, inr (path (rm_path r));
}.

Definition generation_one : SupervisorGenerationId := StringId (str! "g1").
Definition sample_limits : SupervisorLimits := SupervisorLimits_default.
Definition sample_supervisor : SupervisorFileSystem :=
  {| sfs_resolver := sample_resolver; sfs_limits := sample_limits; sfs_generation := generation_one |}.
Definition sample_config : SupervisorConfig :=
  {| sc_host_id := StringId (str! "host"); sc_state_directory := Some [str! "state"];
     sc_roots := [{| sr_id := work_id; sr_name := str! "work"; sr_path := [str! "work"]; sr_read_only := false |}];
     sc_limits := sample_limits |}.
Definition sample_sup_world : SupervisorWorld NativeWorld :=
  {| sw_records := ∅; sw_native := sample_native |}.
Definition quiet : OperationContext := {| cancellation := 0; deadline := None |}.

Definition ok_or_default {E A} (d : A) (r : result E A) : A := match r with Ok a => a | _ => d end.
Definition no_read : ReadFileResult :=
  {| rr_metadata := {| fm_path := at_work []; kind := Other; size := 0; modified_at := None; revision := None |};
     rr_data := []; rr_offset := 0; rr_eof := false |}.
Definition sample_read_request : ReadFileRequest :=
  {| rd_path := at_work (str! "src/a.txt"); rd_offset := 2; rd_max_bytes := 5; rd_follow_symlinks := true |}.
Definition sample_reply : ReadFileResult :=
  ok_or_default no_read (read sample_supervisor quiet sample_read_request sample_sup_world).1.
Lemma supervisor_read_ok :
  read sample_supervisor quiet sample_read_request sample_sup_world = (Ok sample_reply, sample_sup_world).
Proof. vm_compute. reflexivity. Qed.
Lemma read_returns_window_witness :
  rr_data sample_reply = lit "llo w" ∧
  ∃ p v chunks data,
    contained sample_native sample_resolver (ForExisting true) (at_work (str! "src/a.txt")) p ∧
    nw_nodes v = nw_nodes sample_native ∧ (n_open p v).1 = inr chunks ∧ read_all p chunks [] = Ok data ∧
    read_reply sample_read_request data sample_reply ∧ (∅ : MutationState) = ∅.
Proof.
  split; [vm_compute; reflexivity|].
  exact (read_returns_window nw_nodes sample_supervisor quiet sample_read_request sample_sup_world
           sample_reply sample_sup_world supervisor_read_ok).
Defined.

Definition sample_list_request : ListDirectoryRequest :=
  {| ls_path := at_work (str! "src"); ls_follow_symlinks := false; ls_max_entries := 3; ls_cursor := None |}.
Definition sample_listing : ListDirectoryResult :=
  ok_or_default {| entries := []; next_cursor := None |}
    (list_ sample_supervisor quiet sample_list_request sample_sup_world).1.
Lemma sample_list_ok :
  list_ sample_supervisor quiet sample_list_request sample_sup_world = (Ok sample_listing, sample_sup_world).
Proof. vm_compute. reflexivity. Qed.
Lemma list_returns_page_witness :
  (de_name <$> entries sample_listing) = [str! "a.txt"] ∧ kept nw_nodes sample_sup_world sample_sup_world.
Proof.
  split; [vm_compute; reflexivity|].
  exact (proj1 (list_returns_page nw_nodes sample_supervisor quiet sample_list_request sample_listing
                  sample_sup_world sample_sup_world sample_list_ok)).
Defined.

Definition sample_write : WriteFileRequest :=
  {| wr_expected_generation := Some generation_one; wr_strategy := InPlace;
     wr_operation_id := StringId (str! "op-1"); wr_path := at_work (str! "out");
     wr_data := lit "new"; wr_condition := MustNotExist; wr_create_parents := true;
     wr_follow_symlinks := true |}.
Definition sample_call : mutation := CallWrite sample_write.
Definition sample_written : ExecutionResult MutationResult * SupervisorWorld NativeWorld :=
  perform sample_supervisor quiet sample_call sample_sup_world.
Definition sample_record : MutationRecord :=
  default {| mr_fingerprint := []; mr_result := MCreateDirectory |}
    (sw_records sample_written.2 !! call_id sample_call).

(** Writing through the link creates the file it points to; the write is on
    record and answers itself. *)
Lemma mutation_at_most_once_witness :
  nw_nodes (sw_native sample_written.2) !! [str! "work"; str! "src"; str! "new.txt"]
    = Some (NFile (lit "new")) ∧
  kept nw_nodes sample_written.2 (perform sample_supervisor quiet sample_call sample_written.2).2.
Proof.
  assert (Hrec : sw_records sample_written.2 !! call_id sample_call = Some sample_record).
  { vm_compute. reflexivity. }
  split; [vm_compute; reflexivity|].
  exact (proj1 (proj2 (mutation_at_most_once sample_supervisor nw_nodes quiet sample_call
    sample_written.2 sample_written.2 sample_record Hrec (rtc_refl _ _)))).
Defined.
(** A fenced write that fails is on record with its error. *)
Definition sample_refused : mutation :=
  CallWrite {| wr_expected_generation := Some generation_one; wr_strategy := InPlace;
     wr_operation_id := StringId (str! "op-2"); wr_path := at_work (str! "src/a.txt");
     wr_data := lit "new"; wr_condition := MustNotExist; wr_create_parents := true;
     wr_follow_symlinks := true |}.
Lemma fenced_mutation_recorded_witness :
  let out := perform sample_supervisor quiet sample_refused sample_sup_world in
  is_ok out.1 = false ∧
  ((kept nw_nodes sample_sup_world out.2 ∧ ∀ r, out.1 ≠ Ok r) ∨
   ∃ fp, call_fingerprint sample_refused = Ok fp ∧
     sw_records out.2 !! call_id sample_refused =
       Some {| mr_fingerprint := fp;
               mr_result := match out.1 with
                            | Ok r => r
                            | Err e => MFailure e
                            | Panic => MFailure unknown_outcome
                            end |}).
Proof.
  intros out. split; [vm_compute; reflexivity|].
  apply (fenced_mutation_recorded sample_supervisor nw_nodes quiet sample_refused sample_sup_world);
    vm_compute; reflexivity.
Defined.

Definition sample_started : (SupervisorInitError + PathResolver) * NativeWorld :=
  resolver_new (sc_roots sample_config) sample_native.
Lemma supervisor_descriptor_valid_witness :
  match sample_started.1 with
  | inr resolver =>
    valid (supervisor_descriptor sample_config resolver generation_one (str! "linux") (str! "x86_64"))
  | inl _ => False
  end.
Proof.
  assert (H : ∃ resolver, resolver_new (sc_roots sample_config) sample_native = (inr resolver, sample_native)).
  { eexists. vm_compute. reflexivity. }
  unfold sample_started. destruct H as [resolver H]. rewrite H.
  apply (supervisor_descriptor_valid sample_config generation_one (str! "linux") (str! "x86_64")
           sample_native sample_native resolver); [by vm_compute|by vm_compute|by vm_compute|exact H].
Defined.

Definition sample_descriptor : ExecutionHostDescriptor :=
  supervisor_descriptor sample_config sample_resolver generation_one (str! "linux") (str! "x86_64").
(** The in-memory host is a host for the tools. *)
Lemma supervisor_implements_runtime_witness :
  let rt := supervisor_runtime sample_supervisor sample_descriptor in
  RuntimeSafe (SupervisorWorld NativeWorld) (ExecutionRuntime0 := rt) ∧
  ReplaySafe (ExecutionRuntime0 := rt) (store nw_nodes).
Proof.
  intros rt.
  destruct (supervisor_implements_runtime nw_nodes sample_supervisor sample_descriptor memory_digest_law)
    as (H1 & _ & H3).
  exact (conj H1 H3).
Defined.
