(* ===== verification/PatchOnSupervisor.v ===== *)
(** The patch tool on the supervisor: the theorems of [PatchApply], which hold for
    every runtime that keeps the promises of [Host], meet the runtime that keeps
    them, and its mutation records give more than the interface asks for. *)
From Stdlib Require Import ZifyBool.
From stdpp Require Import prelude gmap strings pretty list.
From S2P Require Import Prelude.
From S2P Require Import Text.
From S2P Require Import Core.
From S2P Require Import Host.
From S2P Require Import ProcessCore.
From S2P Require Import Resolver.
From S2P Require Import NativeMemory.
From S2P Require Import PatchParser.
From S2P Require Import PatchUpdate.
From S2P Require Import PatchApply.
From S2P Require Import SupervisorFs.
From S2P Require Import Supervisor.

Section composition.
Context {V T : Type} `{!World V, !NativeFs V} {dbg : DebugStr} {dig : Digest} {codec : RequestCodec}
  {dbgp : DebugPath}.
Context (tree : V → T) `{!NativeLaws tree, !ObserveLaw tree} (self : SupervisorFileSystem)
  (d : ExecutionHostDescriptor).
#[local] Instance the_runtime : ExecutionRuntime (SupervisorWorld V) := supervisor_runtime self d.

Definition as_mutation (op : PreparedOperation) : mutation :=
  match op with Write r => CallWrite r | Remove r => CallRemove r end.

(** A dispatched mutation is a call of the supervisor, once its target is valid. *)
Lemma dispatch_performed context op w w' :
  dispatch context op w = (Ok tt, w') →
  ∃ r, perform self context (as_mutation op) w = (Ok r, w').
Proof.
  destruct op as [req|req]; cbn [dispatch as_mutation perform];
    intros (u & w1 & [_ <-]%pair_eq & H)%M_bind_ok_inv; apply M_bind_ok_inv in H as (r & w2 & Hr & H);
    (assert (w2 = w') as -> by (case_match; by injection H)); cbn in Hr;
    rewrite (M_bind_ok _ _ _ _ _ Hr); by eexists.
Qed.
Lemma dispatch_world context op w :
  kept tree w (perform self context (as_mutation op) w).2 →
  kept tree w (dispatch context op w).2.
Proof.
  destruct op as [req|req]; cbn [dispatch as_mutation perform];
    unfold mbind, M_bind, lift; (destruct (validate_target _); [|done|done]); cbn;
    [destruct (write self context req w) as [[]]|destruct (remove self context req w) as [[]]];
    cbn [fst snd]; try done; intros Hk; by case_match.
Qed.

(** C2. At most once, end to end: after a step of a patch was acknowledged, the
    same step repeated from the same checkpoint — after any other calls, dropped
    calls and outside changes — leaves the supervisor's records and the directory
    tree as it finds them. *)
Theorem patch_step_at_most_once tool context context' r w1 res w2 w3 :
  pending r ≠ [] → step tool context r w1 = (Ok res, w2) → rtc (sup_step self) w2 w3 →
  kept tree w3 (step tool context' r w3).2.
Proof.
  intros Hne H Hsteps.
  apply step_pending_ok in H as ((u & Hv) & Hpi & Hc & op & ops & op' & w4 & Hp & Hi & _ & Hd); [|done].
  rewrite (step_pending_world _ _ _ _ _ _ _ _ Hv Hpi Hc Hp Hi).
  apply dispatch_performed in Hd as [m Hm].
  destruct (performed_recorded tree self _ _ _ _ _ Hm) as (record & Hrec & _).
  pose proof (kept_checkpoint tree context' w3) as Hk.
  destruct (checkpointM context' w3) as [[u3|e|] w5]; cbn [snd] in Hk; [|done|done].
  etrans; [exact Hk|]. apply dispatch_world, (perform_known self tree context' _ w5 record).
  destruct Hk as [<- _]. by eapply recorded_forever.
Qed.
End composition.

(** ** A patch applied to the in-memory host *)

#[local] Existing Instances memory_native memory_native_laws memory_debug native_clock native_clock_law
  memory_digest memory_codec.
#[local] Instance sample_runtime : ExecutionRuntime (SupervisorWorld NativeWorld) :=
  supervisor_runtime sample_supervisor sample_descriptor.
#[local] Instance work_debug : DebugPath := path.

Definition work_tool : ApplyPatchTool :=
  {| cwd := ExecutionPath_root work_id;
     config := {| max_patch_bytes := 1000; max_file_bytes := 100; chunk_bytes := 8;
                  max_operations := 5; update_file_mode := PreserveLineEndings |} |}.
Definition work_patch : str :=
  join [NL] [str! "*** Begin Patch"; str! "*** Update File: src/a.txt"; str! "-hello world";
             str! "+hello there"; str! "*** End Patch"].
Definition run_prepare :=
  prepare work_tool quiet work_patch {| aps_operation_id := StringId (str! "op") |} sample_sup_world.
Definition run_started : RunningPatch :=
  match run_prepare.1 with
  | Ok p => ok_or_default no_running (start (W:=SupervisorWorld NativeWorld) work_tool p)
  | _ => no_running
  end.
Definition run_staged : RunningPatch :=
  (ok_or_default (CheckpointRequired, no_running) (step work_tool quiet run_started sample_sup_world).1).2.
Definition run_dispatched := step work_tool quiet run_staged sample_sup_world.
Definition run_result : PatchProgress * RunningPatch :=
  ok_or_default (CheckpointRequired, no_running) run_dispatched.1.

(** The file is changed by the first run of the step and not by the second. *)
Lemma patch_step_at_most_once_witness :
  nw_nodes (sw_native run_dispatched.2) !! [str! "work"; str! "src"; str! "a.txt"]
    = Some (NFile (lit "hello there" ++ [NL])) ∧
  kept nw_nodes run_dispatched.2 (step work_tool quiet run_staged run_dispatched.2).2.
Proof.
  assert (Hne : pending run_staged ≠ []) by (vm_compute; discriminate).
  assert (Hstep : step work_tool quiet run_staged sample_sup_world = (Ok run_result, run_dispatched.2)).
  { vm_compute. reflexivity. }
  split; [vm_compute; reflexivity|].
  exact (patch_step_at_most_once nw_nodes sample_supervisor sample_descriptor work_tool quiet quiet
           run_staged sample_sup_world run_result run_dispatched.2 run_dispatched.2 Hne Hstep (rtc_refl _ _)).
Defined.
