(* ===== verification/EditOnSupervisor.v ===== *)
(** The edit tool on the supervisor: what an edit replaces on the disk is the text it
    was prepared from. *)
From Stdlib Require Import ZifyBool.
From stdpp Require Import prelude gmap strings pretty list.
From S2P Require Import Prelude.
From S2P Require Import Text.
From S2P Require Import Core.
From S2P Require Import Host.
From S2P Require Import PathTool.
From S2P Require Import FilePages.
From S2P Require Import TextEdit.
From S2P Require Import WriteTool.
From S2P Require Import EditTool.
From S2P Require Import ProcessCore.
From S2P Require Import Resolver.
From S2P Require Import NativeMemory.
From S2P Require Import SupervisorFs.
From S2P Require Import Supervisor.

Section composition.
Context {V T : Type} `{!World V, !NativeFs V} {dbg : DebugStr} {dig : Digest} {codec : RequestCodec}.
Context (tree : V → T) `{!NativeLaws tree, !ObserveLaw tree} (self : SupervisorFileSystem)
  (d : ExecutionHostDescriptor).
#[local] Instance edit_runtime : ExecutionRuntime (SupervisorWorld V) := supervisor_runtime self d.

(** The contents of a revision are what hashes to it. *)
Definition digest_contents (rev : FileRevision) (data : bytes) : Prop := hash_bytes data = Ok rev.
#[export] Instance supervisor_snapshots : ReadsSnapshots digest_contents.
Proof.
  intros c req w rep w' rev H Hrev. cbn in H.
  apply (read_window tree) in H as (p & v & chunks & data & _ & _ & _ & _ & Hr & _).
  destruct Hr as (_ & Hpage & _ & _ & _ & _ & Hsize & rev' & Hrev' & Hh).
  exists data. assert (rev' = rev) as -> by congruence. done.
Qed.

(** What a path held when it was looked at: a file's bytes, or a link's text. *)
Definition held (v : V) (p : npath) (found : bytes) : Prop :=
  (∃ chunks, (n_open p v).1 = inr chunks ∧ read_all p chunks [] = Ok found) ∨
  ∃ target, (n_read_link p v).1 = inr target ∧ found = utf8_encode (lt_text target).
Lemma hash_file_held p v rev v' :
  hash_file p v = (Ok rev, v') → ∃ found, held v p found ∧ digest_contents rev found.
Proof.
  unfold hash_file. intros H. apply M_bind_ok_inv in H as (chunks & v1 & Ho%await_ok_inv & H).
  apply M_bind_ok_inv in H as (data & v2 & Hd & H). injection Hd as Hd _. injection H as H _.
  exists data. split; [|done]. left. exists chunks. by rewrite Ho.
Qed.
Lemma current_revision_held p metadata v rev v' :
  current_revision p metadata v = (Ok rev, v') → ∃ found, held v p found ∧ digest_contents rev found.
Proof.
  unfold current_revision. destruct (is_symlink metadata); [|apply hash_file_held]. intros H.
  apply M_bind_ok_inv in H as (target & v1 & Ho%await_ok_inv & H). injection H as H _.
  exists (utf8_encode (lt_text target)). split; [|done]. right. exists target. by rewrite Ho.
Qed.
Lemma checked_condition rev p existing v v' :
  check_condition (MatchRevision rev) p existing v = (Ok tt, v') →
  is_Some existing ∧ ∃ found, held v p found ∧ digest_contents rev found.
Proof.
  unfold check_condition. destruct existing as [metadata|]; [|done]. intros H. split; [done|].
  apply M_bind_ok_inv in H as (current & v1 & Hc & H). destruct (_ || _) in Hc; [|done].
  apply current_revision_held in Hc as (found & Hh & Hd). exists found. split; [done|].
  case_bool_decide as He; [|done]. by rewrite <-He.
Qed.

(** What may change the disk in a write that replaces: the parents are created, and the
    file is written to a sibling that takes its place. *)
Definition commits (p : npath) (data : bytes) (preserved : option NativeMetadata) : M V unit :=
  _ ← (match parent p with Some par => await_io par (n_create_dir_all par) | None => mret tt end);
  atomic_write p data preserved.
(** What it amounts to when it succeeds: a new sibling of [p] is filled with all of the
    data, gets the permissions that are preserved, is synchronised and is renamed to [p];
    this is the last thing that happens. *)
Definition replaced (p : npath) (data : bytes) (preserved : option NativeMetadata) (v v' : V) : Prop :=
  ∃ par temporary v1 v2 v3 v4 v5, parent p = Some par ∧ parent temporary = Some par ∧
    n_create_dir_all par v = (inr tt, v1) ∧ n_create_new temporary (n_uuid v1).2 = (inr tt, v2) ∧
    n_write_all temporary data v2 = (inr tt, v3) ∧
    match preserved with Some m => n_set_permissions temporary m v3 = (inr tt, v4) | None => v4 = v3 end ∧
    n_sync_all temporary v4 = (inr tt, v5) ∧ n_rename temporary p v5 = (inr tt, v').
Lemma commits_replaced p data preserved v v' : commits p data preserved v = (Ok tt, v') → replaced p data preserved v v'.
Proof.
  unfold commits. destruct (parent p) as [par|] eqn:Hpar; cycle 1.
  { unfold atomic_write. rewrite Hpar. done. }
  intros H. apply M_bind_ok_inv in H as ([] & v1 & H1%await_ok_inv & H). unfold atomic_write in H. rewrite Hpar in H.
  cbn [ok_or] in H. rewrite lift_bind in H. cbv zeta in H. apply M_bind_ok_inv in H as (uuid & v1' & Hu & H).
  unfold now_v7 in Hu. destruct (n_uuid v1) as [u v1''] eqn:Hn. injection Hu as -> <-.
  set (temporary := temporary_path par _ uuid) in H. apply M_bind_ok_inv in H as ([] & v2 & H2%await_ok_inv & H).
  apply M_bind_ok_inv in H as (result & v6 & Ha & H). destruct result as [e|[]].
  { apply M_bind_ok_inv in H as (? & ? & _ & H). done. }
  injection H as ->. unfold attempt in Ha.
  destruct ((_ ← await_io temporary (n_write_all temporary data); _) v2) as [[[]|e|] v7] eqn:Hw; [|done..].
  injection Ha as ->. apply M_bind_ok_inv in Hw as ([] & v3 & H3%await_ok_inv & Hw).
  apply M_bind_ok_inv in Hw as ([] & v4 & H4 & Hw). apply M_bind_ok_inv in Hw as ([] & v5 & H5%await_ok_inv & H6%await_ok_inv).
  exists par, temporary, v1, v2, v3, v4, v5. rewrite Hn. cbn [snd]. split_and!; try done; [apply parent_snoc|].
  destruct preserved as [m|]; [by apply await_ok_inv in H4|by injection H4].
Qed.

Lemma commits_then {A} p data preserved (k : M V A) v :
  (∀ v', (k v').2 = v') →
  let run := (_ ← (match parent p with
                   | Some par =>
                     if true && bool_decide (AtomicReplace = AtomicReplace) then await_io par (n_create_dir_all par) else mret tt
                   | None => mret tt
                   end);
              _ ← atomic_write p data preserved; k) v in
  (commits p data preserved v).2 = run.2 ∧
  ∀ a, run.1 = Ok a → (commits p data preserved v).1 = Ok tt ∧ (k run.2).1 = Ok a.
Proof.
  intros Hk. rewrite andb_true_l, bool_decide_true by done. unfold commits.
  set (parents := match parent p with Some par => await_io par (n_create_dir_all par) | None => mret tt end : M V unit).
  unfold mbind, M_bind. destruct (parents v) as [[[]|e|] v1]; [|done..].
  destruct (atomic_write p data preserved v1) as [[[]|e|] v2]; [|done..]. cbn [fst snd].
  by rewrite Hk.
Qed.

(** A bind whose first part only observes. *)
Lemma bind_quiet {W A B} (R : W → W → Prop) (m : M W A) (f : A → M W B) w (Q : ExecutionResult B * W → Prop) :
  m_within R m → (∀ out w', R w w' → is_ok out = false → Q (out, w')) →
  (∀ a w1, m w = (Ok a, w1) → R w w1 → Q (f a w1)) → Q ((m ≫= f) w).
Proof.
  intros Hm Hstop Hgo. unfold mbind, M_bind. specialize (Hm w). destruct (m w) as [[a|e|] w1] eqn:H; [by apply Hgo|by apply Hstop..].
Qed.
Lemma same_tree_existing p : m_within (W:=V) (same_tree tree) (existing_metadata p).
Proof.
  unfold existing_metadata. apply m_within_bind; [exact _|apply same_tree_outcome, lstat_reads|]. intros a. apply m_within_lift, _.
Qed.
Lemma same_tree_condition condition p existing : m_within (W:=V) (same_tree tree) (check_condition condition p existing).
Proof.
  unfold check_condition, current_revision. destruct condition, existing; try by intros v.
  apply m_within_bind; [exact _| |intros a; by case_bool_decide; intros v].
  destruct (_ || _); [|by intros v]. destruct (is_symlink _); [|by apply same_tree_hash_file].
  apply m_within_bind; [exact _|apply same_tree_await, read_link_reads|]. intros a. apply m_within_lift, _.
Qed.

(** A conditional replacement from [v]: nothing changed and it failed, or the path it
    resolves to was found to hold a content of the revision it names, in the same tree,
    and then only [commits] happened, which succeeded if the write did. *)
Definition conditional (request : WriteFileRequest) (rev : FileRevision) (v : V)
    (run : ExecutionResult WriteFileResult * V) : Prop :=
  (tree run.2 = tree v ∧ is_ok run.1 = false) ∨
  ∃ p found v0 v1 v2 preserved, tree v0 = tree v ∧ tree v1 = tree v ∧ tree v2 = tree v ∧
    (resolve_for_write (sfs_resolver self) (wr_path request) (wr_follow_symlinks request) v0).1 = Ok p ∧
    held v1 p found ∧ digest_contents rev found ∧
    (commits p (wr_data request) preserved v2).2 = run.2 ∧
    ∀ r, run.1 = Ok r → (commits p (wr_data request) preserved v2).1 = Ok tt ∧
      digest_contents (wres_revision r) (wr_data request) ∧ wres_path r = wr_path request.
Lemma write_inner_conditional request rev v :
  wr_condition request = MatchRevision rev → wr_strategy request = AtomicReplace → wr_create_parents request = true →
  conditional request rev v (write_inner self request v).
Proof.
  intros Hc Hs Hp. unfold write_inner. cbv zeta. rewrite Hc, Hs, Hp. destruct (_ <? _)%N; [by left|].
  assert (Hstop : ∀ w, same_tree tree v w → ∀ (out : ExecutionResult WriteFileResult) w', same_tree tree w w' →
    is_ok out = false → conditional request rev v (out, w')).
  { intros w H1 out w' H2 Hout. left. unfold same_tree in *. cbn. split; [congruence|done]. }
  apply (bind_quiet (same_tree tree)); [apply (same_tree_resolve tree self (ForWrite _))|by apply Hstop|].
  intros p v1 Hres K1. apply (bind_quiet (same_tree tree)); [apply same_tree_existing|by apply Hstop|]. intros existing v2 _ K2.
  assert (K12 : same_tree tree v v2) by (by etrans). destruct (from_option is_dir false existing); [by apply (Hstop v2)|].
  apply (bind_quiet (same_tree tree)); [apply same_tree_condition|by apply Hstop|]. intros [] v3 Hcond K3.
  apply checked_condition in Hcond as (_ & found & Hheld & Hd). right. unfold same_tree in *.
  exists p, found, v, v2, v3, (m ← existing; if is_file m then Some m else None).
  destruct (commits_then p (wr_data request) (m ← existing; if is_file m then Some m else None)
    (revision ← lift (hash_bytes (wr_data request));
     mret {| wres_path := wr_path request; existed := bool_decide (is_Some existing); wres_revision := revision;
             bytes_written := u64_of_len (length (wr_data request)) |}) v3) as [Hw Hok].
  { intros v4. unfold mbind, M_bind, lift. by destruct (hash_bytes _). }
  split_and!; try congruence; [by rewrite Hres|]. intros r Hr. destruct (Hok r Hr) as [Hdone Hk]. split; [done|].
  unfold digest_contents. unfold mbind, M_bind, lift in Hk. destruct (hash_bytes _) as [rev'|e|] eqn:Hrev; [|done..].
  by injection Hk as <-.
Qed.
(** The same of a write of the supervisor, whose outcome is kept under its id. *)
Lemma kept_record id : m_within (W:=SupervisorWorld V) (kept tree) (get_record id).
Proof. by intros w. Qed.
Lemma write_conditional context request rev (w : SupervisorWorld V) :
  sw_records w !! wr_operation_id request = None → wr_expected_generation request = None →
  wr_condition request = MatchRevision rev → wr_strategy request = AtomicReplace → wr_create_parents request = true →
  conditional request rev (sw_native w) ((write self context request w).1, sw_native (write self context request w).2).
Proof.
  intros Hnew Hgen Hc Hs Hp.
  assert (Hstop : ∀ w1, kept tree w w1 → ∀ (out : ExecutionResult WriteFileResult) w', kept tree w1 w' →
    is_ok out = false → conditional request rev (sw_native w) (out, sw_native w')).
  { intros w1 [_ H1] out w' [_ H2] Hout. left. unfold sup_tree in *. cbn. split; [congruence|done]. }
  set (Q := λ run : ExecutionResult WriteFileResult * SupervisorWorld V,
    conditional request rev (sw_native w) (run.1, sw_native run.2)).
  change (Q (write self context request w)). unfold write. cbv zeta. rewrite Hgen, bool_decide_false by (by intros [? ?]).
  apply (bind_quiet (kept tree)); [by apply kept_checkpoint|by apply Hstop|]. intros [] w1 _ K1.
  apply (bind_quiet (kept tree)); [by apply m_within_lift, _|by apply Hstop|]. intros [] ? [_ <-]%pair_eq _.
  apply (bind_quiet (kept tree)); [by apply m_within_lift, _|by apply Hstop|]. intros [] ? [_ <-]%pair_eq _.
  apply (bind_quiet (kept tree)); [by apply m_within_lift, _|by apply Hstop|]. intros fp ? [_ <-]%pair_eq _.
  rewrite (M_bind_ok (get_record _) _ w1 (sw_records w1 !! wr_operation_id request) w1 eq_refl).
  rewrite <-(proj1 K1), Hnew, (M_bind_ok (mret tt) _ w1 tt w1 eq_refl).
  pose proof (write_inner_conditional request rev (sw_native w1) Hc Hs Hp) as Hi.
  assert (Ht : tree (sw_native w1) = tree (sw_native w)) by (symmetry; apply K1).
  unfold mbind at 1, M_bind at 1, attempt, native. destruct (write_inner self request (sw_native w1)) as [[r|e|] v'];
    unfold Q; cbn; unfold conditional in *; rewrite Ht in Hi; cbn in Hi |- *.
  - destruct Hi as [[_ ?]|Hi]; [done|by right].
  - destruct Hi as [[H _]|(p & found & v0 & v1 & v2 & pres & H)]; [by left|right]. exists p, found, v0, v1, v2, pres. naive_solver.
  - destruct Hi as [[H _]|(p & found & v0 & v1 & v2 & pres & H)]; [by left|right]. exists p, found, v0, v1, v2, pres. naive_solver.
Qed.

(** And of the write tool, whose other errors come before the write or after it. *)
Definition tool_write (observed : ObservedFile) (operation : OperationId) (content : str) : WriteFileRequest :=
  {| wr_expected_generation := None; wr_strategy := AtomicReplace; wr_operation_id := operation;
     wr_path := of_path observed; wr_data := utf8_encode content;
     wr_condition := MatchRevision (of_revision observed); wr_create_parents := true; wr_follow_symlinks := true |}.
Definition through_write {A} (observed : ObservedFile) (operation : OperationId) (content : str) (w : SupervisorWorld V)
    (says : A → WriteFileResult → Prop) (run : ExecutionResult A * SupervisorWorld V) : Prop :=
  ∃ out, conditional (tool_write observed operation content) (of_revision observed) (sw_native w) (out, sw_native run.2) ∧
    ∀ a, run.1 = Ok a → ∃ r, out = Ok r ∧ says a r.
Lemma through_stop {A} observed operation content (w w1 w' : SupervisorWorld V) says (out : ExecutionResult A) :
  kept tree w w1 → kept tree w1 w' → is_ok out = false → through_write observed operation content w says (out, w').
Proof.
  intros [_ H1] [_ H2] Hout. unfold sup_tree in *. exists Panic. split; [left; cbn; split; [congruence|done]|].
  cbn. by intros a ->.
Qed.
Lemma through_bind {A B} observed operation content (w : SupervisorWorld V) (says : A → WriteFileResult → Prop)
    (m : M (SupervisorWorld V) A) (f : A → M (SupervisorWorld V) B) (says' : B → WriteFileResult → Prop) w1 :
  through_write observed operation content w says (m w1) →
  (∀ a w2, (f a w2).2 = w2 ∧ ∀ b r, (f a w2).1 = Ok b → says a r → says' b r) →
  through_write observed operation content w says' ((m ≫= f) w1).
Proof.
  intros (out & Hc & Hs) Hf. exists out. unfold mbind, M_bind. destruct (m w1) as [[a|e|] w2]; [|done..].
  destruct (Hf a w2) as [Hw Hb]. rewrite Hw. split; [done|]. intros b Hok. destruct (Hs a eq_refl) as (r & -> & Hsay).
  exists r. split; [done|]. by apply (Hb b r).
Qed.
Lemma through_map_err observed operation content (w w1 : SupervisorWorld V) context f :
  sw_records w1 !! operation = None → kept tree w w1 →
  through_write observed operation content w (λ res r, wres_revision res = wres_revision r)
    (M_map_err f (write self context (tool_write observed operation content)) w1).
Proof.
  intros Hnew [_ Ht]. pose proof (write_conditional context (tool_write observed operation content) (of_revision observed)
    w1 Hnew eq_refl eq_refl eq_refl eq_refl) as Hw. unfold sup_tree in Ht. unfold through_write, M_map_err.
  destruct (write self context (tool_write observed operation content) w1) as [out w2]. exists out.
  split; [|intros a H; exists a; split; [by destruct out; simplify_eq/=|done]].
  unfold conditional in *. cbn [fst snd] in *. by rewrite Ht.
Qed.
Lemma execute_conditional writer context input st observed (w w0 : SupervisorWorld V) :
  ws_observed st = Some observed → sw_records w0 !! ws_operation_id st = None → kept tree w w0 →
  through_write observed (ws_operation_id st) (wi_content input) w
    (λ out r, wo_path out = of_path observed ∧ wo_revision out = wres_revision r)
    (execute (W:=SupervisorWorld V) writer context input st w0).
Proof.
  intros Hobs Hnew K. unfold execute.
  apply (bind_quiet (kept tree)); [by apply kept_checkpoint|by intros; eapply through_stop|]. intros [] w1 _ K1.
  assert (K01 : kept tree w w1) by (by etrans).
  apply (bind_quiet (kept tree)); [by apply m_within_lift, _|by intros; eapply through_stop|]. intros p ? [_ <-]%pair_eq _. cbv zeta.
  destruct (_ <? _)%N; [by eapply through_stop|]. destruct (str_eqb _ _); [by eapply through_stop|].
  destruct (in_read_only_root _); [by eapply through_stop|].
  apply (bind_quiet (kept tree)); [by apply m_within_lift, _|by intros; eapply through_stop|].
  intros condition ? [Hc <-]%pair_eq _. rewrite Hobs in Hc |- *. unfold write_condition in Hc.
  destruct (_ || _) eqn:E in Hc; [done|]. injection Hc as <-. apply orb_false_iff in E as [_ E].
  apply negb_false_iff, bool_decide_eq_true in E. subst p.
  apply (through_bind _ _ _ _ (λ res r, wres_revision res = wres_revision r)); cycle 1.
  { intros res w2. destruct (_ || _); [by split|]. split; [done|]. intros b r [= <-]. done. }
  apply (through_map_err _ _ _ w w1); [|done]. by rewrite <-(proj1 K1).
Qed.

Lemma apply_conditional tool context prepared (w : SupervisorWorld V) :
  let observed := es_observed (pe_state prepared) in
  sw_records w !! es_operation_id (pe_state prepared) = None →
  through_write observed (es_operation_id (pe_state prepared)) (pe_content prepared) w
    (λ out r, eo_path out = of_path observed ∧ eo_revision out = wres_revision r ∧
              eo_replacements out = pe_replacements prepared)
    (apply (W:=SupervisorWorld V) tool context prepared w).
Proof.
  intros observed Hnew. unfold apply. fold observed.
  apply (bind_quiet (kept tree)); [by apply kept_checkpoint|by intros; eapply through_stop|]. intros [] w1 _ K.
  apply (bind_quiet (kept tree)); [by apply m_within_lift, _|by intros; eapply through_stop|]. intros [] ? [_ <-]%pair_eq _.
  destruct (_ =? 0)%N; [by eapply through_stop|]. cbv zeta.
  apply (bind_quiet (kept tree)); [by apply m_within_lift, _|by intros; eapply through_stop|]. intros writer ? [_ <-]%pair_eq _.
  eapply through_bind.
  - apply (execute_conditional writer context {| wi_file_path := path (of_path observed); wi_content := pe_content prepared |}
      {| ws_operation_id := es_operation_id (pe_state prepared); ws_observed := Some observed |}); [done| |done].
    cbn. by rewrite <-(proj1 K).
  - cbn. intros out w2. split; [done|]. by intros b r [= <-] [? ?].
Qed.

(** C3. An edit replaces the text it was prepared from, or leaves the disk alone.  If
    preparing an edit succeeded on the supervisor, in whatever pages the file was
    read, and later, in any state of the supervisor and the disk, it is applied as a
    new operation, then: either it fails and the directory tree is as it was; or the
    path that the observed path resolves to in this tree held the very text that was
    read, and from this tree the only thing done is to replace the file at that path,
    with the reference replacement in that text.  If it succeeds, this was done in
    full, by a rename of a new sibling that holds all of the new text, and nothing
    after it; if it then fails, it failed in this.  All this provided the digest does
    not collide with the observed revision.  No change made in between is
    overwritten. *)
Theorem edit_replaces_observed_text (tool tool' : EditTool) (context context' : OperationContext)
    (input : EditInput) (state : EditState) (w1 w2 w3 : SupervisorWorld V) (prepared : PreparedEdit) :
  in_u64 (ec_max_file_bytes (et_config tool)) → tells_apart digest_contents (of_revision (es_observed state)) →
  prepare tool context input state w1 = (Ok prepared, w2) → sw_records w3 !! es_operation_id state = None →
  let run := apply tool' context' prepared w3 in
  (tree (sw_native run.2) = tree (sw_native w3) ∧ is_ok run.1 = false) ∨
  ∃ source content count p v0 v1 v2 preserved,
    digest_contents (of_revision (es_observed state)) (utf8_encode source) ∧
    replace_reference source (ei_old_string input) (ei_new_string input) (ei_replace_all input)
      (edit_limit (W:=SupervisorWorld V) tool) = Ok (content, count) ∧
    tree v0 = tree (sw_native w3) ∧ tree v1 = tree (sw_native w3) ∧ tree v2 = tree (sw_native w3) ∧
    (resolve_for_write (sfs_resolver self) (of_path (es_observed state)) true v0).1 = Ok p ∧
    held v1 p (utf8_encode source) ∧
    (commits p (utf8_encode content) preserved v2).2 = sw_native run.2 ∧
    ∀ out, run.1 = Ok out →
      replaced p (utf8_encode content) preserved v2 (sw_native run.2) ∧ eo_replacements out = count ∧
      digest_contents (eo_revision out) (utf8_encode content) ∧ eo_path out = of_path (es_observed state).
Proof.
  intros Hmax Hu Hprep Hnew run.
  apply (prepared_from_observed digest_contents) in Hprep as (Hst & _ & data & source & Hd & Hdec & Href); [|done..].
  apply utf8_decode_Some in Hdec as [Henc _]. rewrite <-Hst in Hnew.
  destruct (apply_conditional tool' context' prepared w3 Hnew) as (out & Hc & Hok). rewrite Hst in Hc, Hok. fold run in Hc, Hok.
  destruct Hc as [[Ht Hno]|(p & found & v0 & v1 & v2 & preserved & H0 & H1 & H2 & Hres & Hheld & Hf & Hw & Hdone)].
  { left. split; [done|]. destruct run.1 as [a|e|]; [|done..]. destruct (Hok a eq_refl) as (r & -> & _). done. }
  right. cbn [fst snd wr_data wr_path wr_follow_symlinks tool_write] in *.
  rewrite (Hu _ _ Hf Hd), <-Henc in Hheld. rewrite <-Henc in Hd.
  exists source, (pe_content prepared), (pe_replacements prepared), p, v0, v1, v2, preserved. split_and!; try done.
  intros a Ha. destruct (Hok a Ha) as (r & -> & Hp & Hrev & Hn). destruct (Hdone r eq_refl) as (Hcom & Hr & _).
  split; [|by rewrite Hrev]. apply commits_replaced. rewrite <-Hw.
  by destruct (commits p (utf8_encode (pe_content prepared)) preserved v2); cbn in *; subst.
Qed.
End composition.

(** ** An edit of the in-memory host *)

#[local] Existing Instances memory_native memory_native_laws memory_debug native_clock native_clock_law memory_codec.

(** A digest that tells the sample's text apart from all others. *)
Definition sample_text : str := str! "hello world".
Definition marked_digest : Digest := λ data,
  if bool_decide (data = utf8_encode sample_text) then replicate 64 97%N
  else 98%N :: take 63 (hex_of data ++ replicate 63 48%N).
#[local] Existing Instance marked_digest.
#[local] Hint Extern 0 (ExecutionRuntime (SupervisorWorld NativeWorld)) =>
  exact (edit_runtime sample_supervisor sample_descriptor) : typeclass_instances.

Definition sample_observed : ObservedFile :=
  {| of_host_id := host_id sample_descriptor; of_path := at_work (str! "src/a.txt");
     of_revision := StringId (replicate 64 97%N) |}.
Lemma sample_revision : tells_apart digest_contents (of_revision sample_observed).
Proof.
  assert (H : ∀ data, digest_contents (of_revision sample_observed) data → data = utf8_encode sample_text).
  { intros data H. destruct (decide (data = utf8_encode sample_text)) as [|Hne]; [done|].
    unfold digest_contents, hash_bytes, sha256_hex, marked_digest in H. rewrite bool_decide_false in H by done.
    unfold expect_id, string_id_new in H. destruct (str_is_empty _) in H; [done|].
    destruct (contains_char _ _) in H; [done|]. cbn in H. discriminate H. }
  intros x y Hx%H Hy%H. congruence.
Qed.
Definition small_edit : EditTool :=
  {| et_cwd := ExecutionPath_root work_id; et_config := {| ec_max_file_bytes := 100; ec_chunk_bytes := 4 |} |}.
Definition sample_edit : EditInput :=
  {| ei_file_path := str! "src/a.txt"; ei_old_string := str! "world"; ei_new_string := str! "there";
     ei_replace_all := false |}.
Definition sample_edit_state : EditState :=
  {| es_operation_id := StringId (str! "edit-1"); es_observed := sample_observed |}.
Definition sample_prepared_edit : PreparedEdit :=
  {| pe_state := sample_edit_state; pe_content := str! "hello there"; pe_replacements := 1 |}.
Abbreviation edit_prepared := (prepare small_edit quiet sample_edit sample_edit_state sample_sup_world).
Abbreviation edit_applied := (apply small_edit quiet sample_prepared_edit edit_prepared.2).
Definition sample_edited : EditOutput :=
  {| eo_host_id := host_id sample_descriptor; eo_path := at_work (str! "src/a.txt"); eo_replacements := 1;
     eo_bytes_written := 11; eo_revision := StringId (98%N :: take 63 (hex_of (lit "hello there") ++ replicate 63 48%N)) |}.
Lemma edit_outcome {A B} (p : A * B) a : p.1 = a → p = (a, p.2).
Proof. intros <-. by destruct p. Qed.
Lemma edit_replaces_observed_text_witness :
  nw_nodes (sw_native edit_applied.2) !! [str! "work"; str! "src"; str! "a.txt"] = Some (NFile (lit "hello there")) ∧
  ∃ source content p v0 v1 v2 preserved,
    replace_reference source (str! "world") (str! "there") false (edit_limit (W:=SupervisorWorld NativeWorld) small_edit)
      = Ok (content, 1%N) ∧
    (resolve_for_write (sfs_resolver sample_supervisor) (at_work (str! "src/a.txt")) true v0).1 = Ok p ∧
    held v1 p (utf8_encode source) ∧
    replaced p (utf8_encode content) preserved v2 (sw_native edit_applied.2) ∧
    digest_contents (eo_revision sample_edited) (utf8_encode content).
Proof.
  assert (Hp : edit_prepared = (Ok sample_prepared_edit, edit_prepared.2))
    by (apply edit_outcome; vm_compute; reflexivity).
  assert (Ha : edit_applied.1 = Ok sample_edited) by (vm_compute; reflexivity).
  assert (Hn : sw_records edit_prepared.2 !! es_operation_id sample_edit_state = None)
    by (vm_compute; reflexivity).
  split; [vm_compute; reflexivity|].
  destruct (edit_replaces_observed_text nw_nodes sample_supervisor sample_descriptor small_edit small_edit quiet quiet
    sample_edit sample_edit_state sample_sup_world edit_prepared.2 edit_prepared.2
    sample_prepared_edit ltac:(vm_compute; discriminate) sample_revision Hp Hn)
    as [[_ Hno]|(source & content & count & p & v0 & v1 & v2 & preserved & _ & Href & _ & _ & _ & Hres & Hheld & _ & Hok)].
  { rewrite Ha in Hno. discriminate Hno. }
  destruct (Hok sample_edited Ha) as (Hrep & <- & Hrev & _).
  exists source, content, p, v0, v1, v2, preserved.
  split; [exact Href|]. split; [exact Hres|]. split; [exact Hheld|]. split; [exact Hrep|exact Hrev].
Defined.
