(* ===== verification/ProcessManager.v ===== *)
(** The supervisor's process manager
    ([execution-supervisor-core/src/process/manager.rs]): the table of process
    sessions, the operations clients call on it, and the background tasks that
    feed and complete a session.

    A session is shared ([Arc]) between the table and its tasks, so sessions live
    in an arena and the table maps an execution id to a place in it.  The tasks a
    session has spawned are part of its state; where an operation awaits, the
    tasks of the world's schedule run ([interleave]), so a theorem over all worlds
    is one over all interleavings with the tasks.  Operations of other clients
    fall between operations. *)
From Stdlib Require Import ZifyBool.
From stdpp Require Import prelude gmap strings pretty list.
From S2P Require Import Prelude.
From S2P Require Import Text.
From S2P Require Import Core.
From S2P Require Import Host.
From S2P Require Import ProcessCore.
From S2P Require Import ProcessLaunch.
From S2P Require Import Journal.
From S2P Require Import Resolver.
From S2P Require Import SupervisorFs.

(** ** State *)

(** [COMPLETION_NORMAL], [COMPLETION_TERMINATED] and [COMPLETION_TIMED_OUT]. *)
Inductive Completion := CompletionNormal | CompletionTerminated | CompletionTimedOut.
#[export] Instance Completion_eq_dec : EqDecision Completion.
Proof. solve_decision. Defined.

Record InputRecord := { ir_fingerprint : str; ir_status : ProcessInputStatus }.
Inductive ControlResult := ControlUnit | ControlTerminate (r : TerminateExecutionResult).
Record ControlRecord := { cr_fingerprint : str; cr_result : ControlResult }.

(** The process identifier, and which of the ends of its pipes or terminal the
    session still holds. *)
Inductive ProcessControl :=
  | PipedControl (pid : N) (stdin : bool)
  | PtyControl (pid : N) (master writer : bool).

(** The tasks a session spawned: its output readers, the completion task that waits
    for the child and then for the readers, and the timeout. *)
Inductive ReaderTask := ReaderRunning | ReaderEnded (failure : option ExecutionError).
Inductive CompletionTask :=
  | TaskNotSpawned | TaskWaiting | TaskDraining (exit : ExecutionError + Z) | TaskDone.
Inductive TimerTask := TimerNone | TimerSleeping | TimerGrace | TimerDone.

Record ProcessSession := {
  ps_request : StartExecutionRequest;
  ps_directory : npath;
  ps_journal : Journal;
  ps_control : ProcessControl;
  ps_input_records : gmap WriteId InputRecord;
  ps_control_records : gmap OperationId ControlRecord;
  ps_completion : Completion;
  ps_output_stop : bool;
  ps_readers : list (ProcessOutputStream * ReaderTask);
  ps_task : CompletionTask;
  ps_timer : TimerTask;
}.

(** What the host does to the tasks while an operation awaits. *)
Inductive Task :=
  | ReadOutput (loc : nat) (stream : ProcessOutputStream) (data : bytes)
  | ReadFails (loc : nat) (stream : ProcessOutputStream) (source : IoError)
  | ReadEnds (loc : nat) (stream : ProcessOutputStream)
  | ChildExits (loc : nat) (exit : ExecutionError + Z)
  | DrainExpires (loc : nat)
  | Complete (loc : nat)
  | TimerFires (loc : nat)
  | GraceExpires (loc : nat)
  | CleanupTick.

Record ProcessWorld (V : Type) := {
  pw_sessions : gmap ExecutionId nat;
  pw_retired : gset ExecutionId;
  pw_active : N;
  pw_shutdown : bool;
  pw_arena : list ProcessSession;
  pw_schedule : list (list Task);
  pw_native : V;
}.
Arguments pw_sessions {V} _.
Arguments pw_retired {V} _.
Arguments pw_active {V} _.
Arguments pw_shutdown {V} _.
Arguments pw_arena {V} _.
Arguments pw_schedule {V} _.
Arguments pw_native {V} _.
Arguments Build_ProcessWorld {V} _ _ _ _ _ _ _.

(** The fields of [ManagerInner] that do not change. *)
Record ProcessManager := {
  pm_resolver : PathResolver;
  pm_generation : SupervisorGenerationId;
  pm_executions_directory : npath;
  pm_limits : SupervisorLimits;
}.

(** ** The operating system's processes *)

Record LaunchPlan := {
  lp_program : str;
  lp_arguments : list str;
  lp_cwd : npath;
  lp_environment : list EnvCall;
  lp_stdin : StdinMode;
}.
Class ProcessHost (V : Type) := {
  (** [TimestampMs::now] and [Instant::now]. *)
  ph_now : V → N * V;
  ph_instant : V → N * V;
  ph_exists : npath → V → bool * V;
  (** Creating the log, and how its later appends turn out. *)
  ph_create_log : npath → nio V (list AppendOutcome);
  ph_open_log : npath → V → option IoError * V;
  ph_eof : IoError;
  (** A process identifier, when the child has one. *)
  ph_spawn : LaunchPlan → nio V (option N);
  ph_open_pty : N → N → nio V unit;
  ph_clone_reader : nio V unit;
  ph_take_writer : nio V unit;
  ph_spawn_pty : LaunchPlan → nio V (option N);
  ph_pty_readiness : V → (ExecutionError + unit) * V;
  ph_reap : N → V → V;
  ph_killpg : N → ProcessSignal → nio V unit;
  ph_kill : N → ProcessSignal → nio V unit;
  ph_kill_pty : N → nio V unit;
  ph_write_input : N → bytes → nio V unit;
  ph_flush_input : N → nio V unit;
  ph_close_input : N → V → V;
  ph_close_master : N → V → V;
  ph_resize_pty : N → N → N → nio V unit;
}.
Class ProcessCodec := {
  encode_start : StartExecutionRequest → str + bytes;
  encode_input : WriteProcessInputRequest → str + bytes;
  encode_resize : ResizePtyRequest → str + bytes;
  encode_signal : SignalExecutionRequest → str + bytes;
  encode_terminate : TerminateExecutionRequest → str + bytes;
}.

(** Field updates. *)
Definition set_journal x (s : ProcessSession) : ProcessSession :=
  {| ps_request := ps_request s; ps_directory := ps_directory s; ps_journal := x;
     ps_control := ps_control s; ps_input_records := ps_input_records s;
     ps_control_records := ps_control_records s; ps_completion := ps_completion s;
     ps_output_stop := ps_output_stop s; ps_readers := ps_readers s; ps_task := ps_task s;
     ps_timer := ps_timer s |}.
Definition set_control x (s : ProcessSession) : ProcessSession :=
  {| ps_request := ps_request s; ps_directory := ps_directory s; ps_journal := ps_journal s;
     ps_control := x; ps_input_records := ps_input_records s;
     ps_control_records := ps_control_records s; ps_completion := ps_completion s;
     ps_output_stop := ps_output_stop s; ps_readers := ps_readers s; ps_task := ps_task s;
     ps_timer := ps_timer s |}.
Definition set_input_records x (s : ProcessSession) : ProcessSession :=
  {| ps_request := ps_request s; ps_directory := ps_directory s; ps_journal := ps_journal s;
     ps_control := ps_control s; ps_input_records := x;
     ps_control_records := ps_control_records s; ps_completion := ps_completion s;
     ps_output_stop := ps_output_stop s; ps_readers := ps_readers s; ps_task := ps_task s;
     ps_timer := ps_timer s |}.
Definition set_control_records x (s : ProcessSession) : ProcessSession :=
  {| ps_request := ps_request s; ps_directory := ps_directory s; ps_journal := ps_journal s;
     ps_control := ps_control s; ps_input_records := ps_input_records s; ps_control_records := x;
     ps_completion := ps_completion s; ps_output_stop := ps_output_stop s;
     ps_readers := ps_readers s; ps_task := ps_task s; ps_timer := ps_timer s |}.
Definition set_completion x (s : ProcessSession) : ProcessSession :=
  {| ps_request := ps_request s; ps_directory := ps_directory s; ps_journal := ps_journal s;
     ps_control := ps_control s; ps_input_records := ps_input_records s;
     ps_control_records := ps_control_records s; ps_completion := x;
     ps_output_stop := ps_output_stop s; ps_readers := ps_readers s; ps_task := ps_task s;
     ps_timer := ps_timer s |}.
Definition set_output_stop x (s : ProcessSession) : ProcessSession :=
  {| ps_request := ps_request s; ps_directory := ps_directory s; ps_journal := ps_journal s;
     ps_control := ps_control s; ps_input_records := ps_input_records s;
     ps_control_records := ps_control_records s; ps_completion := ps_completion s;
     ps_output_stop := x; ps_readers := ps_readers s; ps_task := ps_task s;
     ps_timer := ps_timer s |}.
Definition set_readers x (s : ProcessSession) : ProcessSession :=
  {| ps_request := ps_request s; ps_directory := ps_directory s; ps_journal := ps_journal s;
     ps_control := ps_control s; ps_input_records := ps_input_records s;
     ps_control_records := ps_control_records s; ps_completion := ps_completion s;
     ps_output_stop := ps_output_stop s; ps_readers := x; ps_task := ps_task s;
     ps_timer := ps_timer s |}.
Definition set_task x (s : ProcessSession) : ProcessSession :=
  {| ps_request := ps_request s; ps_directory := ps_directory s; ps_journal := ps_journal s;
     ps_control := ps_control s; ps_input_records := ps_input_records s;
     ps_control_records := ps_control_records s; ps_completion := ps_completion s;
     ps_output_stop := ps_output_stop s; ps_readers := ps_readers s; ps_task := x;
     ps_timer := ps_timer s |}.
Definition set_timer x (s : ProcessSession) : ProcessSession :=
  {| ps_request := ps_request s; ps_directory := ps_directory s; ps_journal := ps_journal s;
     ps_control := ps_control s; ps_input_records := ps_input_records s;
     ps_control_records := ps_control_records s; ps_completion := ps_completion s;
     ps_output_stop := ps_output_stop s; ps_readers := ps_readers s; ps_task := ps_task s;
     ps_timer := x |}.
Definition with_sessions {V} (x : gmap ExecutionId nat) (w : ProcessWorld V) : ProcessWorld V :=
  {| pw_sessions := x; pw_retired := pw_retired w; pw_active := pw_active w;
     pw_shutdown := pw_shutdown w; pw_arena := pw_arena w; pw_schedule := pw_schedule w;
     pw_native := pw_native w |}.
Definition with_retired {V} (x : gset ExecutionId) (w : ProcessWorld V) : ProcessWorld V :=
  {| pw_sessions := pw_sessions w; pw_retired := x; pw_active := pw_active w;
     pw_shutdown := pw_shutdown w; pw_arena := pw_arena w; pw_schedule := pw_schedule w;
     pw_native := pw_native w |}.
Definition with_active {V} (x : N) (w : ProcessWorld V) : ProcessWorld V :=
  {| pw_sessions := pw_sessions w; pw_retired := pw_retired w; pw_active := x;
     pw_shutdown := pw_shutdown w; pw_arena := pw_arena w; pw_schedule := pw_schedule w;
     pw_native := pw_native w |}.
Definition with_shutdown {V} (x : bool) (w : ProcessWorld V) : ProcessWorld V :=
  {| pw_sessions := pw_sessions w; pw_retired := pw_retired w; pw_active := pw_active w;
     pw_shutdown := x; pw_arena := pw_arena w; pw_schedule := pw_schedule w;
     pw_native := pw_native w |}.
Definition with_arena {V} (x : list ProcessSession) (w : ProcessWorld V) : ProcessWorld V :=
  {| pw_sessions := pw_sessions w; pw_retired := pw_retired w; pw_active := pw_active w;
     pw_shutdown := pw_shutdown w; pw_arena := x; pw_schedule := pw_schedule w;
     pw_native := pw_native w |}.
Definition with_schedule {V} (x : list (list Task)) (w : ProcessWorld V) : ProcessWorld V :=
  {| pw_sessions := pw_sessions w; pw_retired := pw_retired w; pw_active := pw_active w;
     pw_shutdown := pw_shutdown w; pw_arena := pw_arena w; pw_schedule := x;
     pw_native := pw_native w |}.
Definition with_native {V} (x : V) (w : ProcessWorld V) : ProcessWorld V :=
  {| pw_sessions := pw_sessions w; pw_retired := pw_retired w; pw_active := pw_active w;
     pw_shutdown := pw_shutdown w; pw_arena := pw_arena w; pw_schedule := pw_schedule w;
     pw_native := x |}.

#[export] Instance process_world {V} `{!World V} : World (ProcessWorld V) := {
  observe := λ c w, let '(o, n) := observe c (pw_native w) in (o, with_native n w);
}.

Definition spawned (s : ProcessSession) : bool :=
  match ps_task s with TaskNotSpawned => false | _ => true end.

Section effects.
Context {V : Type}.

Definition get_world : M (ProcessWorld V) (ProcessWorld V) := λ w, (Ok w, w).
Definition modify_world (f : ProcessWorld V → ProcessWorld V) : M (ProcessWorld V) unit :=
  λ w, (Ok tt, f w).
(** A computation on the host. *)
Definition host {A} (m : M V A) : M (ProcessWorld V) A := λ w,
  let '(r, n) := m (pw_native w) in (r, with_native n w).
Definition host_io {A} (op : nio V A) : M (ProcessWorld V) (IoError + A) := host (outcome op).
(** A call of the host that cannot fail. *)
Definition host_do {A} (f : V → A * V) : M (ProcessWorld V) A := host (λ v, let '(a, v) := f v in (Ok a, v)).
Definition host_unit (f : V → V) : M (ProcessWorld V) unit := host (λ v, (Ok tt, f v)).

(** The session an [Arc] points to. *)
Definition get_session (loc : nat) : M (ProcessWorld V) ProcessSession := λ w,
  (or_panic (pw_arena w !! loc), w).
Definition update_session (loc : nat) (f : ProcessSession → ProcessSession) : M (ProcessWorld V) unit :=
  modify_world (λ w, with_arena (alter f loc (pw_arena w)) w).
(** An operation of the session's journal, under its lock. *)
Definition on_journal {A} (loc : nat) (m : M Journal A) : M (ProcessWorld V) A := λ w,
  match pw_arena w !! loc with
  | None => (Panic, w)
  | Some s =>
    let '(r, j) := m (ps_journal s) in
    (r, with_arena (<[loc := set_journal j s]> (pw_arena w)) w)
  end.
(** [if let Ok(..)] and [let _ = ..]: the outcome is dropped. *)
Definition ignore {A} (m : M (ProcessWorld V) A) : M (ProcessWorld V) unit :=
  _ ← attempt m; mret tt.
End effects.

(** [AtomicU32]: [fetch_add] and [fetch_sub] wrap around. *)
Definition u32_wrap_add (n : N) : N := ((n + 1) mod 4294967296)%N.
Definition u32_wrap_sub (n : N) : N := ((n + 4294967295) mod 4294967296)%N.

(** [compare_exchange(NORMAL, cause)]: whether it took. *)
Definition claim_completion {V} (loc : nat) (cause : Completion) : M (ProcessWorld V) bool := λ w,
  match pw_arena w !! loc with
  | None => (Panic, w)
  | Some s =>
    match ps_completion s with
    | CompletionNormal => (Ok true, with_arena (<[loc := set_completion cause s]> (pw_arena w)) w)
    | _ => (Ok false, w)
    end
  end.
Definition final_state (c : Completion) : ExecutionState :=
  match c with
  | CompletionTerminated => StateCancelled
  | CompletionTimedOut => Failed
  | CompletionNormal => Exited
  end.
Definition io_failure (message : str) (source : IoError) : ExecutionError :=
  supervisor_error Io (format! [message; str! ": "; io_display source]).
Definition result_of {A} (r : ExecutionError + A) : ExecutionResult A :=
  match r with inl e => Err e | inr a => Ok a end.
(** [.map_err(|source| error(Io, format!("{message}: {source}")))?]. *)
Definition require_io {W A} (message : str) (r : IoError + A) : M W A :=
  lift (match r with inl source => Err (io_failure message source) | inr a => Ok a end).

Section manager.
Context {V : Type} `{!World V, !NativeFs V, !ProcessHost V}.
Context {dbg : DebugStr} {dig : Digest} {shells : ShellHost}.
Context {jcodec : JournalCodec} {codec : ProcessCodec}.
Context (self : ProcessManager).

Abbreviation MP := (M (ProcessWorld V)).

Definition now : MP N := host_do ph_now.
Definition instant : MP N := host_do ph_instant.

(** ** Control of a process *)

(** [platform::signal_process_group]: the group, else the process alone. *)
Definition signal_process_group (pid : N) (signal : ProcessSignal) : MP unit :=
  if (2147483648 <=? pid)%N then
    throw (supervisor_error Internal (str! "process identifier does not fit the host PID type"))
  else
    group ← host_io (ph_killpg pid signal);
    match group with
    | inr _ => mret tt
    | inl group_error =>
      process ← host_io (ph_kill pid signal);
      match process with
      | inr _ => mret tt
      | inl process_error =>
        throw (supervisor_error Io (format! [str! "failed to signal process group "; show_N pid; str! " (";
          io_display group_error; str! ") and process "; show_N pid; str! " ("; io_display process_error;
          str! ")"]))
      end
    end.
Definition pid_of (control : ProcessControl) : N :=
  match control with PipedControl pid _ | PtyControl pid _ _ => pid end.
Definition kill_fallback (pid : N) (original : ExecutionError) : MP unit :=
  r ← host_io (ph_kill_pty pid);
  require_io (format! [str! "failed to kill PTY process after "; message original]) r.
(** [ProcessControl::signal]; the fallback of a Unix terminal is for [Kill] only. *)
Definition control_signal (loc : nat) (signal : ProcessSignal) : MP unit :=
  s ← get_session loc;
  match ps_control s with
  | PipedControl pid _ => signal_process_group pid signal
  | PtyControl pid _ _ =>
    r ← attempt (signal_process_group pid signal);
    match r with
    | inr _ => mret tt
    | inl source =>
      if decide (signal = SigKill) then kill_fallback pid source else throw source
    end
  end.

Definition input_open (control : ProcessControl) : bool :=
  match control with PipedControl _ stdin => stdin | PtyControl _ _ writer => writer end.
Definition close_input (control : ProcessControl) : ProcessControl :=
  match control with
  | PipedControl pid _ => PipedControl pid false
  | PtyControl pid master _ => PtyControl pid master false
  end.
Definition input_kind (control : ProcessControl) : str :=
  match control with PipedControl _ _ => str! "process" | PtyControl _ _ _ => str! "PTY" end.
(** [ProcessControl::write] and [write_pty]. *)
Definition control_write (loc : nat) (input : ProcessInput) : MP WriteProcessInputResult :=
  s ← get_session loc;
  let control := ps_control s in
  let pid := pid_of control in
  match input with
  | InputData data =>
    if negb (input_open control) then mret {| wp_status := InputStdinClosed |}
    else
      r ← host_io (ph_write_input pid data);
      _ ← require_io (format! [str! "failed to write "; input_kind control; str! " input"]) r;
      r ← host_io (ph_flush_input pid);
      _ ← require_io (format! [str! "failed to flush "; input_kind control; str! " input"]) r;
      mret {| wp_status := Accepted |}
  | InputClose =>
    _ ← (if input_open control then host_unit (ph_close_input pid) else mret tt);
    _ ← update_session loc (λ s, set_control (close_input (ps_control s)) s);
    mret {| wp_status := Accepted |}
  end.
Definition control_resize (loc : nat) (columns rows : N) : MP unit :=
  s ← get_session loc;
  match ps_control s with
  | PtyControl pid true _ =>
    r ← host_io (ph_resize_pty pid columns rows);
    require_io (str! "failed to resize PTY") r
  | PtyControl _ false _ =>
    throw (supervisor_error ExecutionNotFound (str! "cannot resize a completed PTY execution"))
  | PipedControl _ _ =>
    throw (supervisor_error Unsupported (str! "cannot resize a process without a PTY"))
  end.
(** [close_pty_after_child_exit]. *)
Definition close_pty (loc : nat) : MP unit :=
  s ← get_session loc;
  match ps_control s with
  | PipedControl _ _ => mret tt
  | PtyControl pid master writer =>
    _ ← (if writer then host_unit (ph_close_input pid) else mret tt);
    _ ← (if master then host_unit (ph_close_master pid) else mret tt);
    update_session loc (set_control (PtyControl pid false false))
  end.

(** ** The background tasks *)

Definition reader_state (stream : ProcessOutputStream) (s : ProcessSession) : option ReaderTask :=
  snd <$> (snd <$> list_find (λ r, r.1 = stream) (ps_readers s)).
Definition end_reader (loc : nat) (stream : ProcessOutputStream) (failure : option ExecutionError) : MP unit :=
  update_session loc (λ s, set_readers
    ((λ r, if decide (r.1 = stream) then (r.1, ReaderEnded failure) else r) <$> ps_readers s) s).
Definition read_failure (stream : ProcessOutputStream) (source : IoError) : ExecutionError :=
  io_failure (match stream with
              | Pty => str! "failed to read PTY output"
              | _ => str! "failed to read process output"
              end) source.
(** One iteration of [read_pipe_output], and of the task [spawn_pty_output] leaves:
    the stop signal first, then what the read gave. *)
Definition reader_step (loc : nat) (stream : ProcessOutputStream) (read : IoError + bytes) : MP unit :=
  s ← get_session loc;
  match reader_state stream s with
  | Some ReaderRunning =>
    if ps_output_stop s then end_reader loc stream None
    else
      match read with
      | inl source => end_reader loc stream (Some (read_failure stream source))
      | inr [] => end_reader loc stream None
      | inr data =>
        t ← now;
        r ← attempt (on_journal loc
              (append_output t stream (take (N.to_nat (sl_process_output_chunk_bytes (pm_limits self))) data)));
        match r with
        | inl source => end_reader loc stream (Some source)
        | inr _ => mret tt
        end
      end
  | _ => mret tt
  end.

(** [begin_output_drain], when the child was waited for. *)
Definition begin_output_drain (loc : nat) (exit : ExecutionError + Z) : MP unit :=
  s ← get_session loc;
  match se_output_drain_timeout_ms (ps_request s), exit with
  | Some _, inr exit_code =>
    t ← now;
    ignore (on_journal loc (mark_exited t exit_code (final_state (ps_completion s))))
  | _, _ => mret tt
  end.
(** The completion task up to the readers: the terminal is closed at once unless the
    request asks for its output to be drained. *)
Definition child_exits (loc : nat) (exit : ExecutionError + Z) : MP unit :=
  s ← get_session loc;
  match ps_task s with
  | TaskWaiting =>
    _ ← begin_output_drain loc exit;
    _ ← (if decide (is_Some (se_output_drain_timeout_ms (ps_request s))) then mret tt else close_pty loc);
    update_session loc (set_task (TaskDraining exit))
  | _ => mret tt
  end.
Definition drain_expires (loc : nat) : MP unit :=
  s ← get_session loc;
  match ps_task s with
  | TaskDraining _ =>
    if decide (is_Some (se_output_drain_timeout_ms (ps_request s)))
    then update_session loc (set_output_stop true) else mret tt
  | _ => mret tt
  end.

Definition all_ended (s : ProcessSession) : bool :=
  forallb (λ r, match r.2 with ReaderEnded _ => true | ReaderRunning => false end) (ps_readers s).
(** [outputs.into_iter().find_map(Result::err)]. *)
Definition output_failure (s : ProcessSession) : option ExecutionError :=
  head (omap (λ r, match r.2 with ReaderEnded failure => failure | ReaderRunning => None end) (ps_readers s)).
Definition journal_finish_failed (loc : nat) (m : str) : MP unit :=
  t ← now; t' ← now; i ← instant; on_journal loc (finish_failed t m t' i).
Definition complete_session (loc : nat) (exit : ExecutionError + Z) (failure : option ExecutionError) : MP unit :=
  result ← attempt
    (match exit, failure with
     | inl source, _ | inr _, Some source => journal_finish_failed loc (message source)
     | inr exit_code, None =>
       s ← get_session loc;
       t ← now; t' ← now; i ← instant;
       on_journal loc (finish_exited t exit_code (final_state (ps_completion s)) t' i)
     end);
  _ ← (match result with
       | inl _ => ignore (journal_finish_failed loc (str! "failed to finalize process journal"))
       | inr _ => mret tt
       end);
  _ ← (t ← now; i ← instant; ignore (on_journal loc (close t i)));
  modify_world (λ w, with_active (u32_wrap_sub (pw_active w)) w).
(** The rest of the completion task, once every reader was joined. *)
Definition complete (loc : nat) : MP unit :=
  s ← get_session loc;
  match ps_task s with
  | TaskDraining exit =>
    if all_ended s then
      _ ← close_pty loc;
      _ ← complete_session loc exit (output_failure s);
      update_session loc (set_task TaskDone)
    else mret tt
  | _ => mret tt
  end.

(** [spawn_timeout]: the end of its sleep, then the end of the grace period. *)
Definition timer_fires (loc : nat) : MP unit :=
  s ← get_session loc;
  match ps_timer s with
  | TimerSleeping =>
    if negb (is_running (ps_journal s)) then update_session loc (set_timer TimerDone)
    else
      claimed ← claim_completion loc CompletionTimedOut;
      match claimed with
      | true =>
        _ ← ignore (control_signal loc SigTerminate);
        update_session loc (set_timer TimerGrace)
      | false => update_session loc (set_timer TimerDone)
      end
  | _ => mret tt
  end.
Definition grace_expires (loc : nat) : MP unit :=
  s ← get_session loc;
  match ps_timer s with
  | TimerGrace =>
    _ ← (if is_running (ps_journal s) then ignore (control_signal loc SigKill) else mret tt);
    update_session loc (set_timer TimerDone)
  | _ => mret tt
  end.

(** [cleanup_completed]. *)
Definition cleanup_session (loc : nat) : MP unit :=
  s ← get_session loc;
  i ← instant;
  if match finished_for i (ps_journal s) with
     | Some elapsed => (sl_completed_execution_retention (pm_limits self) <=? elapsed)%N
     | None => false
     end
  then
    let id := se_execution_id (ps_request s) in
    _ ← modify_world (λ w, with_retired ({[id]} ∪ pw_retired w) w);
    w ← get_world;
    let removed := bool_decide (is_Some (pw_sessions w !! id)) in
    _ ← modify_world (λ w, with_sessions (delete id (pw_sessions w)) w);
    if removed then
      _ ← host_io (n_remove_dir_all (ps_directory s)); mret tt
    else mret tt
  else mret tt.
Fixpoint each_session (f : nat → MP unit) (locs : list nat) : MP unit :=
  match locs with
  | [] => mret tt
  | loc :: locs => _ ← f loc; each_session f locs
  end.
Definition session_locs (w : ProcessWorld V) : list nat := (map_to_list (pw_sessions w)).*2.
Definition cleanup_completed : MP unit :=
  w ← get_world; each_session cleanup_session (session_locs w).

(** A task of the session at [loc] takes its next step; a task that is not at that
    step does nothing, and a session has tasks once it spawned them. *)
Definition session_task (loc : nat) (step : MP unit) : MP unit :=
  s ← get_session loc; if spawned s then step else mret tt.
Definition run_task (t : Task) : MP unit :=
  match t with
  | ReadOutput loc stream data => session_task loc (reader_step loc stream (inr data))
  | ReadFails loc stream source => session_task loc (reader_step loc stream (inl source))
  | ReadEnds loc stream => session_task loc (reader_step loc stream (inr []))
  | ChildExits loc exit => session_task loc (child_exits loc exit)
  | DrainExpires loc => session_task loc (drain_expires loc)
  | Complete loc => session_task loc (complete loc)
  | TimerFires loc => session_task loc (timer_fires loc)
  | GraceExpires loc => session_task loc (grace_expires loc)
  | CleanupTick => w ← get_world; if pw_shutdown w then mret tt else cleanup_completed
  end.
Definition run_tasks (ts : list Task) (w : ProcessWorld V) : ProcessWorld V :=
  foldl (λ w t, (run_task t w).2) w ts.
(** An await: the tasks scheduled for it run. *)
Definition interleave : MP unit := λ w,
  match pw_schedule w with
  | [] => (Ok tt, w)
  | ts :: schedule => (Ok tt, run_tasks ts (with_schedule schedule w))
  end.

(** ** The operations clients call *)

Definition validate_generation (generation : SupervisorGenerationId) : ExecutionResult unit :=
  if decide (generation = pm_generation self) then Ok tt
  else Err (supervisor_error ExecutionLost
              (format! [str! "execution belongs to supervisor generation `"; as_str generation;
                        str! "`, but the current generation is `"; as_str (pm_generation self); str! "`"])).
Definition entry (id : ExecutionId) : MP nat :=
  w ← get_world;
  lift (ok_or (supervisor_error ExecutionNotFound
                 (format! [str! "execution `"; as_str id; str! "` was not found"]))
          (pw_sessions w !! id)).
(** [ProcessSession::handle]. *)
Definition session_handle (loc : nat) : MP ExecutionHandle :=
  s ← get_session loc;
  let '(state, started_at) := handle (ps_journal s) in
  mret {| eh_execution_id := se_execution_id (ps_request s); eh_generation := pm_generation self;
          eh_state := state; eh_started_at := started_at |}.
Definition process_fingerprint (encoded : str + bytes) : ExecutionResult str :=
  match encoded with
  | inl source =>
    Err (supervisor_error Internal (format! [str! "failed to fingerprint process operation: "; source]))
  | inr data => Ok (sha256_hex data)
  end.

(** *** Starting *)

Definition execution_directory (id : ExecutionId) : npath :=
  pm_executions_directory self ++ [sha256_hex (utf8_encode (as_str id))].
Definition EVENTS_LOG : str := str! "events.log".
(** [EventJournal::create]. *)
Definition create_journal (directory : npath) : MP Journal :=
  let path := directory ++ [EVENTS_LOG] in
  _ ← host (await_io directory (n_create_dir_all directory));
  outcomes ← host (await_io path (ph_create_log path));
  mret (create (display path) outcomes).
Definition persist_start_request (directory : npath) (request : StartExecutionRequest) : MP unit :=
  let path := directory ++ [str! "metadata.json"] in
  encoded ← lift (match encode_start request with
                  | inr b => Ok b
                  | inl source =>
                    Err (supervisor_error Internal
                           (format! [str! "failed to encode process metadata: "; source]))
                  end);
  host (await_io path (n_write path encoded)).
Definition launch_plan (request : StartExecutionRequest) (cwd : npath) : LaunchPlan :=
  let '(program, args) := build_command (se_command request) in
  {| lp_program := program; lp_arguments := args; lp_cwd := cwd;
     lp_environment := configure_environment (se_environment request); lp_stdin := se_stdin request |}.
Definition new_session (request : StartExecutionRequest) (directory : npath) (journal : Journal)
    (control : ProcessControl) : ProcessSession :=
  {| ps_request := request; ps_directory := directory; ps_journal := journal; ps_control := control;
     ps_input_records := ∅; ps_control_records := ∅; ps_completion := CompletionNormal;
     ps_output_stop := false; ps_readers := []; ps_task := TaskNotSpawned; ps_timer := TimerNone |}.
(** [Arc::new(session)]. *)
Definition alloc_session (s : ProcessSession) : MP nat := λ w,
  (Ok (length (pw_arena w)), with_arena (pw_arena w ++ [s]) w).

Definition install_session (loc : nat) : MP unit :=
  s ← get_session loc;
  let id := se_execution_id (ps_request s) in
  _ ← modify_world (λ w, with_sessions (<[id := loc]> (pw_sessions w)) w);
  _ ← modify_world (λ w, with_active (u32_wrap_add (pw_active w)) w);
  _ ← interleave;
  t ← now;
  r ← attempt (on_journal loc (mark_started t));
  match r with
  | inr _ => mret tt
  | inl source =>
    _ ← modify_world (λ w, with_sessions (delete id (pw_sessions w)) w);
    _ ← modify_world (λ w, with_active (u32_wrap_sub (pw_active w)) w);
    _ ← ignore (control_signal loc SigKill);
    throw source
  end.
(** The readers, the completion task and the timeout are spawned together. *)
Definition spawn_tasks (loc : nat) (streams : list ProcessOutputStream) : MP unit :=
  update_session loc (λ s,
    set_timer (match se_timeout_ms (ps_request s) with Some _ => TimerSleeping | None => TimerNone end)
      (set_task TaskWaiting (set_readers ((λ stream, (stream, ReaderRunning)) <$> streams) s))).

Definition start_piped (request : StartExecutionRequest) (cwd directory : npath) : MP ExecutionHandle :=
  journal ← create_journal directory;
  _ ← persist_start_request directory request;
  child ← host_io (ph_spawn (launch_plan request cwd));
  child ← require_io (str! "failed to start process") child;
  pid ← lift (ok_or (supervisor_error Internal
                       (str! "spawned process did not report a process identifier")) child);
  let stdin := bool_decide (se_stdin request = StdinPipe) in
  loc ← alloc_session (new_session request directory journal (PipedControl pid stdin));
  _ ← install_session loc;
  _ ← spawn_tasks loc [Stdout; Stderr];
  session_handle loc.

(** [PtyReadiness::new], when the output is to be drained. *)
Definition pty_readiness (loc : nat) (pid : N) (request : StartExecutionRequest) : MP unit :=
  if decide (is_Some (se_output_drain_timeout_ms request)) then
    readiness ← host_do ph_pty_readiness;
    match readiness with
    | inr _ => mret tt
    | inl failure =>
      _ ← ignore (control_signal loc SigKill);
      _ ← host_unit (ph_reap pid);
      throw failure
    end
  else mret tt.
Definition start_pty (request : StartExecutionRequest) (cwd directory : npath) (columns rows : N)
  : MP ExecutionHandle :=
  journal ← create_journal directory;
  _ ← persist_start_request directory request;
  pair ← host_io (ph_open_pty columns rows);
  _ ← require_io (str! "failed to allocate PTY") pair;
  reader ← host_io ph_clone_reader;
  _ ← require_io (str! "failed to open PTY output") reader;
  writer ← host_io ph_take_writer;
  _ ← require_io (str! "failed to open PTY input") writer;
  child ← host_io (ph_spawn_pty (launch_plan request cwd));
  child ← require_io (str! "failed to start PTY process") child;
  pid ← lift (ok_or (supervisor_error Internal
                       (str! "spawned PTY process did not report a process identifier")) child);
  loc ← alloc_session (new_session request directory journal (PtyControl pid true true));
  _ ← pty_readiness loc pid request;
  _ ← install_session loc;
  _ ← spawn_tasks loc [Pty];
  session_handle loc.

(** Whether a start operation identifier is in use by some session of the table. *)
Definition operation_in_use (w : ProcessWorld V) (id : OperationId) : bool :=
  existsb (λ loc, match pw_arena w !! loc with
                  | Some s => bool_decide (se_operation_id (ps_request s) = id)
                  | None => false
                  end) (session_locs w).
(** [start] once it holds the start gate. *)
Definition start_gated (context : OperationContext) (request : StartExecutionRequest) : MP ExecutionHandle :=
  let id := se_execution_id request in
  w ← get_world;
  match pw_sessions w !! id with
  | Some loc =>
    existing ← get_session loc;
    if decide (ps_request existing = request) then session_handle loc
    else throw (operation_conflict (format! [str! "execution ID `"; as_str id;
                  str! "` was reused with a different start request"]))
  | None =>
    if decide (id ∈ pw_retired w) then
      throw (operation_conflict (format! [str! "execution ID `"; as_str id;
               str! "` was already used by this supervisor generation"]))
    else if operation_in_use w (se_operation_id request) then
      throw (operation_conflict (format! [str! "start operation ID `"; as_str (se_operation_id request);
               str! "` was reused for a different execution"]))
    else if (sl_max_concurrent_processes (pm_limits self) <=? pw_active w)%N then
      throw (supervisor_error ResourceExhausted
               (str! "the execution host has reached its concurrent process limit"))
    else
      _ ← checkpointM context;
      cwd ← host (resolve_existing (pm_resolver self) (se_cwd request) true);
      metadata ← host (await_io cwd (n_metadata cwd));
      _ ← (if is_dir metadata then mret tt
           else throw (supervisor_error NotDirectory
                         (str! "process working directory is not a directory")));
      let directory := execution_directory id in
      exists_ ← host_do (ph_exists directory);
      _ ← match exists_ with
           | true => host (await_io directory (n_remove_dir_all directory))
           | false => mret tt
           end;
      _ ← host (await_io directory (n_create_dir_all directory));
      _ ← interleave;
      match se_stdin request with
      | StdinPty columns rows => start_pty request cwd directory columns rows
      | _ => start_piped request cwd directory
      end
  end.
Definition start (context : OperationContext) (request : StartExecutionRequest) : MP ExecutionHandle :=
  _ ← checkpointM context;
  _ ← lift (validated (validate request));
  _ ← lift (match se_expected_generation request with
            | Some generation => validate_generation generation
            | None => Ok tt
            end);
  _ ← interleave;
  start_gated context request.

(** *** Reading *)

(** [EventJournal::read] for a session: the wait lets the tasks run. *)
Definition read_journal (loc : nat) (after_sequence max_bytes : N) (wait : option N) : MP ReadExecutionResult :=
  s ← get_session loc;
  open_fails ← host_do (ph_open_log (ps_directory s ++ [EVENTS_LOG]));
  let waits := match read_now open_fails ph_eof after_sequence max_bytes (ps_journal s) with
               | Ok r => bool_decide (rx_events r = []) && negb (closed (js (ps_journal s)))
                         && negb (bool_decide (wait = None))
               | _ => false
               end in
  _ ← (if waits then interleave else mret tt);
  s' ← get_session loc;
  lift (Journal.read open_fails ph_eof after_sequence max_bytes wait (ps_journal s) (ps_journal s')).
(** [remaining]: the deadline less the time of day. *)
Definition remaining (context : OperationContext) : MP (option N) := λ w,
  let '((_, now), w) := observe (cancellation context) w in
  (Ok ((λ d, u64_sat_sub d now) <$> deadline context), w).
Definition is_cancelled (context : OperationContext) : MP bool := λ w,
  let '((cancelled, _), w) := observe (cancellation context) w in (Ok cancelled, w).
Definition read (context : OperationContext) (request : ReadExecutionRequest) : MP ReadExecutionResult :=
  _ ← checkpointM context;
  _ ← lift (validated (validate request));
  _ ← lift (validate_generation (re_generation request));
  if (sl_max_process_read_bytes (pm_limits self) <? re_max_bytes request)%N then
    throw (supervisor_error ResourceExhausted
             (format! [str! "process read requested "; show_N (re_max_bytes request);
                       str! " bytes but the host limit is "; show_N (sl_max_process_read_bytes (pm_limits self))]))
  else
    loc ← entry (re_execution_id request);
    remaining ← remaining context;
    let requested := (λ ms, ms * 1000000)%N <$> re_wait_ms request in
    let wait := match requested, remaining with
                | Some requested, Some remaining => Some (N.min requested remaining)
                | Some requested, None => Some requested
                | None, _ => None
                end in
    r ← attempt (read_journal loc (re_after_sequence request) (re_max_bytes request) wait);
    match wait with
    | Some _ =>
      cancelled ← is_cancelled context;
      match cancelled with true => throw error_cancelled | false => lift (result_of r) end
    | None => lift (result_of r)
    end.

(** *** Input *)

(** Waiting for the lock of a session's records is an await. *)
Definition input_size (input : ProcessInput) : N :=
  match input with InputData data => u64_of_len (length data) | InputClose => 0%N end.
(** [write] once it holds the lock of the input records. *)
Definition write_locked (loc : nat) (fingerprint : str) (request : WriteProcessInputRequest)
  : MP WriteProcessInputResult :=
  session ← get_session loc;
  match ps_input_records session !! wi_write_id request with
  | Some record =>
    if str_eqb (ir_fingerprint record) fingerprint then
      mret {| wp_status := if decide (ir_status record = Accepted) then AlreadyAccepted
                           else ir_status record |}
    else throw (operation_conflict (format! [str! "write ID `"; as_str (wi_write_id request);
                  str! "` was reused with different process input"]))
  | None =>
    if negb (is_running (ps_journal session)) then mret {| wp_status := InputStdinClosed |}
    else
      _ ← interleave;
      result ← control_write loc (wi_input request);
      _ ← update_session loc (λ s, set_input_records
            (<[wi_write_id request := {| ir_fingerprint := fingerprint; ir_status := wp_status result |}]>
               (ps_input_records s)) s);
      mret result
  end.
Definition write (context : OperationContext) (request : WriteProcessInputRequest)
  : MP WriteProcessInputResult :=
  _ ← checkpointM context;
  _ ← lift (validate_generation (wi_generation request));
  if (sl_max_process_input_bytes (pm_limits self) <? input_size (wi_input request))%N then
    throw (supervisor_error ResourceExhausted
             (format! [str! "process input contains "; show_N (input_size (wi_input request));
                       str! " bytes but the host limit is "; show_N (sl_max_process_input_bytes (pm_limits self))]))
  else
    loc ← entry (wi_execution_id request);
    fingerprint ← lift (process_fingerprint (encode_input request));
    _ ← interleave;
    write_locked loc fingerprint request.

(** *** Control *)

Definition ensure_control_record (record : ControlRecord) (fingerprint : str) (id : OperationId)
  : ExecutionResult unit :=
  if str_eqb (cr_fingerprint record) fingerprint then Ok tt
  else Err (operation_conflict (format! [str! "operation ID `"; as_str id;
              str! "` was reused with a different process-control request"])).
Definition put_control_record (loc : nat) (id : OperationId) (fingerprint : str) (result : ControlResult)
  : MP unit :=
  update_session loc (λ s, set_control_records
    (<[id := {| cr_fingerprint := fingerprint; cr_result := result |}]> (ps_control_records s)) s).

(** What [resize] and [signal] share once they hold the lock of the control records:
    the record, the completed execution, the action. *)
Definition control_locked (loc : nat) (id : OperationId) (fingerprint completed : str) (action : MP unit)
  : MP unit :=
  session ← get_session loc;
  match ps_control_records session !! id with
  | Some record =>
    _ ← lift (ensure_control_record record fingerprint id);
    match cr_result record with
    | ControlUnit => mret tt
    | ControlTerminate _ =>
      throw (operation_conflict (str! "operation ID was already used for termination"))
    end
  | None =>
    if negb (is_running (ps_journal session)) then throw (supervisor_error ExecutionNotFound completed)
    else
      _ ← interleave;
      _ ← action;
      put_control_record loc id fingerprint ControlUnit
  end.
Definition control_operation (loc : nat) (id : OperationId) (encoded : str + bytes) (completed : str)
    (action : MP unit) : MP unit :=
  fingerprint ← lift (process_fingerprint encoded);
  _ ← interleave;
  control_locked loc id fingerprint completed action.
Definition resize (context : OperationContext) (request : ResizePtyRequest) : MP unit :=
  _ ← checkpointM context;
  _ ← lift (validated (validate request));
  _ ← lift (validate_generation (rp_generation request));
  loc ← entry (rp_execution_id request);
  control_operation loc (rp_operation_id request) (encode_resize request)
    (str! "cannot resize a completed execution")
    (control_resize loc (rp_columns request) (rp_rows request)).
Definition signal (context : OperationContext) (request : SignalExecutionRequest) : MP unit :=
  _ ← checkpointM context;
  _ ← lift (validate_generation (sg_generation request));
  loc ← entry (sg_execution_id request);
  control_operation loc (sg_operation_id request) (encode_signal request)
    (str! "cannot signal a completed execution") (control_signal loc (sg_signal request)).

(** The wait for the grace period lets the tasks run; a journal once terminal stays
    so, hence asking after the wait is enough. *)
Definition terminate_running (loc : nat) : MP unit :=
  _ ← claim_completion loc CompletionTerminated;
  terminate_error ← attempt (control_signal loc SigTerminate);
  _ ← interleave;
  s ← get_session loc;
  if is_running (ps_journal s) then
    killed ← attempt (control_signal loc SigKill);
    match killed with
    | inr _ => mret tt
    | inl kill_error =>
      throw (match terminate_error with inl e => e | inr _ => kill_error end)
    end
  else mret tt.
(** [terminate] once it holds the lock of the control records. *)
Definition terminate_locked (loc : nat) (fingerprint : str) (request : TerminateExecutionRequest)
  : MP TerminateExecutionResult :=
  session ← get_session loc;
  match ps_control_records session !! te_operation_id request with
  | Some record =>
    _ ← lift (ensure_control_record record fingerprint (te_operation_id request));
    match cr_result record with
    | ControlTerminate result => mret result
    | ControlUnit =>
      throw (operation_conflict
               (str! "operation ID was already used for another process-control operation"))
    end
  | None =>
    let running := is_running (ps_journal session) in
    _ ← (if running then terminate_running loc else mret tt);
    let result := {| was_running := running |} in
    _ ← put_control_record loc (te_operation_id request) fingerprint (ControlTerminate result);
    mret result
  end.
Definition terminate (context : OperationContext) (request : TerminateExecutionRequest)
  : MP TerminateExecutionResult :=
  _ ← checkpointM context;
  _ ← lift (validate_generation (te_generation request));
  loc ← entry (te_execution_id request);
  fingerprint ← lift (process_fingerprint (encode_terminate request));
  _ ← interleave;
  terminate_locked loc fingerprint request.

(** *** The runtime's life *)

(** [SupervisorProcessRuntime::new], given the state directory. *)
Definition initial_world (schedule : list (list Task)) (native : V) : ProcessWorld V :=
  {| pw_sessions := ∅; pw_retired := ∅; pw_active := 0; pw_shutdown := false; pw_arena := [];
     pw_schedule := schedule; pw_native := native |}.
Definition shutdown : MP unit :=
  _ ← modify_world (with_shutdown true);
  w ← get_world;
  each_session (λ loc,
    s ← get_session loc;
    if is_running (ps_journal s) then ignore (control_signal loc SigKill) else mret tt)
    (session_locs w).

Definition manager_processes : ProcessRuntime (ProcessWorld V) :=
  {| pr_start := start; pr_read := read; pr_write := write; pr_resize := resize;
     pr_signal := signal; pr_terminate := terminate |}.
End manager.
