(* ===== verification/ManagerTable.v ===== *)
(** What the process manager keeps true of its table, across every operation and
    background task: at most one process per execution id, an exact and bounded
    count of active processes, and records that are never lost. *)
From Stdlib Require Import ZifyBool.
From stdpp Require Import prelude gmap strings pretty list.
From S2P Require Import Prelude.
From S2P Require Import Text.
From S2P Require Import Core.
From S2P Require Import Host.
From S2P Require Import ProcessCore.
From S2P Require Import ProcessLaunch.
From S2P Require Import Journal.
From S2P Require Import JournalGrowth.
From S2P Require Import Resolver.
From S2P Require Import SupervisorFs.
From S2P Require Import ProcessManager.

(** ** What never goes back *)

(** A journal once terminal, closed or finished stays so. *)
Record journal_le (j j' : Journal) : Prop := {
  jl_terminal : is_terminal (state (js j)) = true → is_terminal (state (js j')) = true;
  jl_closed : closed (js j) = true → closed (js j') = true;
  jl_finished : is_Some (finished_at (js j)) → is_Some (finished_at (js j'));
}.
#[export] Instance journal_le_preorder : PreOrder journal_le.
Proof. split; [by split|]. intros j1 j2 j3 [] []. split; auto. Qed.

(** A session keeps its request and its records. *)
Record session_step (s s' : ProcessSession) : Prop := {
  sl_request : ps_request s' = ps_request s;
  sl_directory : ps_directory s' = ps_directory s;
  sl_input : ps_input_records s ⊆ ps_input_records s';
  sl_control : ps_control_records s ⊆ ps_control_records s';
  sl_completion : ps_completion s = CompletionNormal ∨ ps_completion s' = ps_completion s;
  sl_spawned : ps_task s ≠ TaskNotSpawned → ps_task s' ≠ TaskNotSpawned;
  sl_journal : journal_le (ps_journal s) (ps_journal s');
}.
#[export] Instance session_step_preorder : PreOrder session_step.
Proof.
  split; [split; auto; reflexivity|]. intros s1 s2 s3 [] [].
  split; [congruence|congruence|by etrans|by etrans| |by auto|by etrans].
  destruct sl_completion0 as [|Heq]; [by left|]. destruct sl_completion1; [left|right]; congruence.
Qed.

Section journals.
Context {jcodec : JournalCodec}.

Lemma append_record_js b : m_within (λ j j', js j' = js j) (append_record b).
Proof. intros j. unfold append_record. by destruct (outcomes j) as [|[] ?]. Qed.
Lemma le_modify f :
  (∀ s, is_terminal (state s) = true → is_terminal (state (f s)) = true) →
  (∀ s, closed s = true → closed (f s) = true) →
  (∀ s, is_Some (finished_at s) → is_Some (finished_at (f s))) →
  m_within journal_le (modify f).
Proof. intros H1 H2 H3 j. split; cbn; auto. Qed.
Lemma le_append_locked t k : m_within journal_le (append_locked t k).
Proof.
  unfold append_locked. apply m_within_bind; [exact _|done|intros s]. cbv zeta.
  apply m_within_bind; [exact _|by intros j; destruct (encode_event _)|intros b].
  apply m_within_bind; [exact _| |intros _; by apply le_modify].
  intros j. pose proof (append_record_js b j) as H. split; by rewrite H.
Qed.
Lemma le_append_output t st d : m_within journal_le (append_output t st d).
Proof.
  unfold append_output. apply m_within_bind; [exact _|done|intros s].
  destruct (closed s); [done|apply le_append_locked].
Qed.
Lemma le_mark_exited t c st : is_terminal st = true → m_within journal_le (mark_exited t c st).
Proof.
  intros Hst. unfold mark_exited, mark_exited_locked. apply m_within_bind; [exact _|done|intros s].
  destruct (is_terminal (state s)); [done|].
  apply m_within_bind; [exact _|by apply le_modify|intros _; apply le_append_locked].
Qed.
Lemma le_close t i : m_within journal_le (close t i).
Proof.
  unfold close, close_locked. apply m_within_bind; [exact _|done|intros s].
  destruct (closed s); [done|].
  apply m_within_bind; [exact _|apply le_append_locked|intros _; by apply le_modify].
Qed.
Lemma le_finish_exited t c st t' i :
  is_terminal st = true → m_within journal_le (finish_exited t c st t' i).
Proof.
  intros Hst. unfold finish_exited. apply m_within_bind; [exact _|by apply le_mark_exited|].
  intros _. apply le_close.
Qed.
Lemma le_finish_failed t m t' i : m_within journal_le (finish_failed t m t' i).
Proof.
  unfold finish_failed. apply m_within_bind; [exact _|done|intros s]. destruct (closed s); [done|].
  apply m_within_bind; [exact _|by apply le_modify|intros _].
  apply m_within_bind; [exact _|apply le_append_locked|intros _].
  apply m_within_bind; [exact _|apply le_append_locked|intros _; by apply le_modify].
Qed.
End journals.
#[export] Hint Resolve le_append_output le_mark_exited le_close le_finish_exited le_finish_failed : effects.
Lemma final_state_terminal c : is_terminal (final_state c) = true.
Proof. by destruct c. Qed.
#[export] Hint Resolve final_state_terminal : effects.

(** ** Steps on one session *)

(** All that a session's tasks change outside the progress of the completion task;
    and what clients change outside the records. *)
Record session_same (s s' : ProcessSession) : Prop := {
  ss_step : session_step s s';
  ss_input : ps_input_records s' = ps_input_records s;
  ss_control : ps_control_records s' = ps_control_records s;
  ss_task : ps_task s' = ps_task s;
}.
Record session_held (s s' : ProcessSession) : Prop := {
  sh_same : session_same s s';
  sh_journal : ps_journal s' = ps_journal s;
  sh_readers : ps_readers s' = ps_readers s;
}.
#[export] Instance session_same_preorder : PreOrder session_same.
Proof.
  split; [by split|]. intros s1 s2 s3 [? ? ? ?] [? ? ? ?]. split; [by etrans|congruence..].
Qed.
#[export] Instance session_held_preorder : PreOrder session_held.
Proof.
  split; [by split|]. intros s1 s2 s3 [? ? ?] [? ? ?]. split; [by etrans|congruence..].
Qed.

(** A session whose completion task is done and whose readers have ended: nothing
    touches its journal any more.  A session that is not to be drained is terminal
    only then. *)
Definition session_done (s : ProcessSession) : Prop := all_ended s = true ∧ ps_task s = TaskDone.
Definition frozen (s : ProcessSession) : Prop :=
  se_output_drain_timeout_ms (ps_request s) = None →
  is_terminal (state (js (ps_journal s))) = true → session_done s.
(** How a session evolves over whole tasks and calls. *)
Record session_le `{jcodec : JournalCodec} (s s' : ProcessSession) : Prop := {
  sl_step :> session_step s s';
  sl_grows : journal_grows (ps_journal s) (ps_journal s');
  sl_done : session_done s → session_done s' ∧ ps_journal s' = ps_journal s;
  sl_frozen : frozen s → frozen s';
}.
#[export] Instance session_le_preorder `{jcodec : JournalCodec} : PreOrder session_le.
Proof.
  split; [split; [reflexivity|reflexivity|done|done]|]. intros s1 s2 s3 [S1 G1 D1 F1] [S2 G2 D2 F2].
  split; [by etrans|by etrans| |by auto]. intros H. destruct (D1 H) as [H2 <-]. auto.
Qed.
(** What leaves the journal, the readers and the completion task alone. *)
Lemma untouched_le `{jcodec : JournalCodec} s s' :
  session_step s s' → ps_journal s' = ps_journal s → ps_readers s' = ps_readers s →
  ps_task s' = ps_task s → session_le s s'.
Proof.
  intros Hstep Hj Hr Ht.
  assert (Hd : session_done s → session_done s') by (unfold session_done, all_ended; by rewrite Hr, Ht).
  split; [done|by rewrite Hj|auto|]. intros Hf Hdr Hterm. rewrite (sl_request _ _ Hstep) in Hdr.
  rewrite Hj in Hterm. auto.
Qed.
Lemma held_le `{jcodec : JournalCodec} s s' : session_held s s' → session_le s s'.
Proof. intros [[Hstep _ _ Ht] Hj Hr]. by apply untouched_le. Qed.
(** Steps whose only effect on the journal is along [J]. *)
Record session_by (J : relation Journal) (s s' : ProcessSession) : Prop := {
  sb_same : session_same s s';
  sb_journal : J (ps_journal s) (ps_journal s');
}.
#[export] Instance session_by_preorder J : PreOrder J → PreOrder (session_by J).
Proof.
  intros HJ. split; [intros s; split; reflexivity|]. intros s1 s2 s3 [? ?] [? ?]. split; by etrans.
Qed.
Lemma held_by J `{!PreOrder J} s s' : session_held s s' → session_by J s s'.
Proof. intros [? Hj _]. split; [done|]. by rewrite Hj. Qed.
(** Output is appended, or nothing. *)
Definition journal_quiet `{jcodec : JournalCodec} (j j' : Journal) : Prop :=
  journal_grows j j' ∧ state (js j') = state (js j).
#[export] Instance journal_quiet_preorder `{jcodec : JournalCodec} : PreOrder journal_quiet.
Proof. split; [by split|]. intros j1 j2 j3 [? ?] [? ?]. split; [by etrans|congruence]. Qed.
(** A session that still has something to do takes a step. *)
Lemma quiet_le `{jcodec : JournalCodec} s s' :
  ¬ session_done s → session_by journal_quiet s s' → session_le s s'.
Proof.
  intros Hn [[Hstep _ _ _] [Hg Hs]]. split; [done|done|done|]. intros Hf Hd Hterm.
  rewrite (sl_request _ _ Hstep) in Hd. rewrite Hs in Hterm. by destruct Hn; apply Hf.
Qed.

Section worlds.
Context {V : Type}.
Implicit Types w : ProcessWorld V.

(** A step on the session at [loc] that leaves the table alone. *)
Record at_loc (R : relation ProcessSession) (loc : nat) w w' : Prop := {
  al_sessions : pw_sessions w' = pw_sessions w;
  al_retired : pw_retired w' = pw_retired w;
  al_active : pw_active w' = pw_active w;
  al_length : length (pw_arena w') = length (pw_arena w);
  al_other : ∀ l, l ≠ loc → pw_arena w' !! l = pw_arena w !! l;
  al_here : ∀ s, pw_arena w !! loc = Some s → ∃ s', pw_arena w' !! loc = Some s' ∧ R s s';
}.
#[export] Instance at_loc_preorder R loc : PreOrder R → PreOrder (at_loc R loc).
Proof.
  intros HR. split; [split; eauto; intros s ?; by exists s|].
  intros w1 w2 w3 [? ? ? ? O1 H1] [? ? ? ? O2 H2]. split; [congruence..| |].
  - intros l Hl. by rewrite O2, O1.
  - intros s Hs. destruct (H1 s Hs) as (s2 & Hs2 & ?). destruct (H2 s2 Hs2) as (s3 & ? & ?).
    exists s3. split; [done|by etrans].
Qed.
Lemma at_loc_mono (R R' : relation ProcessSession) loc w w' :
  (∀ s s', R s s' → R' s s') → at_loc R loc w w' → at_loc R' loc w w'.
Proof. intros HR []. split; auto. naive_solver. Qed.

Section relation.
Context (R : relation ProcessSession) `{!PreOrder R}.

Lemma at_arena loc w s s' :
  pw_arena w !! loc = Some s → R s s' → at_loc R loc w (with_arena (<[loc := s']> (pw_arena w)) w).
Proof.
  intros Hs Hle. split; cbn; [done..|by rewrite length_insert| |].
  - intros l Hl. by rewrite list_lookup_insert_ne.
  - intros s0 Hs0. simplify_eq. exists s'. split; [|done].
    apply list_lookup_insert_eq. by eapply lookup_lt_Some.
Qed.
Lemma at_host {A} loc (m : M V A) : m_within (at_loc R loc) (host m).
Proof. intros w. unfold host. destruct (m _). split; eauto. intros s ?. by exists s. Qed.
Lemma at_get loc loc' : m_within (at_loc R loc) (get_session (V:=V) loc').
Proof. by intros w. Qed.
Lemma within_attempt {A} (Q : relation (ProcessWorld V)) (m : M (ProcessWorld V) A) :
  m_within Q m → m_within Q (attempt m).
Proof. intros H w. unfold attempt. specialize (H w). by destruct (m w) as [[] ?]. Qed.
Lemma within_ignore {A} (Q : relation (ProcessWorld V)) `{!PreOrder Q} (m : M (ProcessWorld V) A) :
  m_within Q m → m_within Q (ignore m).
Proof. intros H. unfold ignore. apply m_within_bind; [exact _|by apply within_attempt|by intros _ w]. Qed.
Lemma alter_insert (f : ProcessSession → ProcessSession) loc (l : list ProcessSession) s :
  l !! loc = Some s → alter f loc l = <[loc := f s]> l.
Proof.
  intros Hs. apply list_eq. intros i. destruct (decide (i = loc)) as [->|Hl].
  - by rewrite list_lookup_alter_eq, Hs, list_lookup_insert_eq by (by eapply lookup_lt_Some).
  - by rewrite list_lookup_alter_ne, list_lookup_insert_ne by done.
Qed.
Lemma at_update loc f : (∀ s, R s (f s)) → m_within (at_loc R loc) (update_session (V:=V) loc f).
Proof.
  intros Hf w. unfold update_session, modify_world. cbn [snd].
  destruct (pw_arena w !! loc) as [s|] eqn:Hs.
  - rewrite (alter_insert _ _ _ s Hs). by apply at_arena with s.
  - split; cbn; [done..|by rewrite length_alter| |congruence].
    intros l Hl. by rewrite list_lookup_alter_ne.
Qed.
End relation.

Lemma at_journal {A} loc (m : M Journal A) :
  m_within journal_le m → m_within (at_loc session_same loc) (on_journal (V:=V) loc m).
Proof.
  intros Hm w. unfold on_journal. destruct (pw_arena w !! loc) as [s|] eqn:Hs; [|done].
  specialize (Hm (ps_journal s)). destruct (m (ps_journal s)) as [r j]. cbn [snd] in *.
  apply at_arena with s; [done|]. split; [|done..]. split; cbn; try reflexivity; auto.
Qed.
Lemma at_journal_by (J : relation Journal) `{!PreOrder J} {A} loc (m : M Journal A) :
  m_within journal_le m → m_within J m → m_within (at_loc (session_by J) loc) (on_journal (V:=V) loc m).
Proof.
  intros Hm HJ w. unfold on_journal. destruct (pw_arena w !! loc) as [s|] eqn:Hs; [|done].
  specialize (Hm (ps_journal s)). specialize (HJ (ps_journal s)). destruct (m (ps_journal s)) as [r j].
  cbn [snd] in *. apply at_arena with s; [done|]. split; [|done]. split; [|done..].
  split; cbn; try reflexivity; auto.
Qed.
Lemma at_claim loc cause : m_within (at_loc session_held loc) (claim_completion (V:=V) loc cause).
Proof.
  intros w. unfold claim_completion. destruct (pw_arena w !! loc) as [s|] eqn:Hs; [|done].
  destruct (ps_completion s) eqn:Hc; [|done..]. cbn [snd].
  apply at_arena with s; [done|]. split; [|done..]. split; [|done..].
  split; cbn; try reflexivity; auto.
Qed.
Lemma at_held {A} loc (m : M (ProcessWorld V) A) :
  m_within (at_loc session_held loc) m → m_within (at_loc session_same loc) m.
Proof. intros H w. eapply at_loc_mono, H. by intros s s' []. Qed.
End worlds.
#[export] Hint Resolve at_claim at_held : effects.
Ltac same_session :=
  intros; try (lazymatch goal with |- session_held _ _ => split; [|reflexivity..] end);
  split; [|reflexivity..]; split; cbn; try reflexivity; auto.
(** Walks through the steps of a computation on one session. *)
Ltac at_steps :=
  repeat first
    [ match goal with |- m_within _ (mret _) => apply m_within_ret; exact _ end
    | match goal with |- m_within _ (throw _) => apply m_within_throw; exact _ end
    | match goal with |- m_within _ (lift _) => apply m_within_lift; exact _ end
    | match goal with |- m_within _ (require_io _ _) => apply m_within_lift; exact _ end
    | match goal with |- m_within _ (host_io _) => apply at_host; exact _ end
    | match goal with |- m_within _ (host_do _) => apply at_host; exact _ end
    | match goal with |- m_within _ (host_unit _) => apply at_host; exact _ end
    | match goal with |- m_within _ (get_session _) => apply at_get; exact _ end
    | match goal with |- m_within _ (ignore _) => apply within_ignore; [exact _|] end
    | match goal with |- m_within _ (attempt _) => apply within_attempt end
    | match goal with |- m_within (at_loc session_same _) (on_journal _ _) =>
        apply at_journal; auto with effects end
    | match goal with |- m_within _ (claim_completion _ _) => solve [auto with effects] end
    | match goal with |- m_within _ (update_session _ _) => apply at_update; [..|same_session] end
    | match goal with |- m_within _ (_ ≫= _) => apply m_within_bind; [exact _| |intros ?] end
    | match goal with |- m_within _ (match ?x with _ => _ end) => destruct x end
    | match goal with |- m_within _ (if ?x then _ else _) => destruct x end ].

Section steps.
Context {V : Type} `{!World V, !NativeFs V, !ProcessHost V}.
Context {dbg : DebugStr} {dig : Digest} {shells : ShellHost}.
Context {jcodec : JournalCodec} {codec : ProcessCodec}.
Context (self : ProcessManager).
Implicit Types w : ProcessWorld V.
Abbreviation at_same := (at_loc (V:=V) session_same).
Abbreviation at_client := (at_loc (V:=V) session_held).

Lemma at_signal_group loc pid sig : m_within (at_client loc) (signal_process_group pid sig).
Proof. unfold signal_process_group. at_steps. Qed.
Lemma at_control_signal loc sig : m_within (at_client loc) (control_signal loc sig).
Proof.
  unfold control_signal. apply m_within_bind; [exact _|by intros w|intros s].
  destruct (ps_control s); [apply at_signal_group|].
  apply m_within_bind; [exact _|by apply within_attempt, at_signal_group|intros r].
  unfold kill_fallback. at_steps.
Qed.
Lemma at_control_write loc input : m_within (at_client loc) (control_write loc input).
Proof. unfold control_write. at_steps. Qed.
Lemma at_control_resize loc c r : m_within (at_client loc) (control_resize loc c r).
Proof. unfold control_resize. at_steps. Qed.
Lemma at_close_pty loc : m_within (at_client loc) (close_pty loc).
Proof. unfold close_pty. at_steps. Qed.
Lemma at_drain_expires loc : m_within (at_client loc) (drain_expires loc).
Proof. unfold drain_expires. at_steps. Qed.
Lemma at_timer_fires loc : m_within (at_client loc) (timer_fires loc).
Proof. unfold timer_fires. at_steps. apply at_control_signal. Qed.
Lemma at_grace_expires loc : m_within (at_client loc) (grace_expires loc).
Proof. unfold grace_expires. at_steps. apply at_control_signal. Qed.

Lemma quiet_append_output t st data : m_within journal_quiet (append_output t st data).
Proof.
  intros j. split; [apply grows_append_output|]. unfold append_output.
  rewrite (M_bind_ok get_state _ j (js j) j) by done. destruct (closed (js j)); [done|].
  unfold append_locked. rewrite (M_bind_ok get_state _ j (js j) j) by done. cbv zeta.
  destruct (encode_event _) as [x|b]; [done|]. rewrite lift_bind. unfold mbind, M_bind.
  pose proof (append_record_js b j) as H. destruct (append_record b j) as [[]]; cbn in *; by rewrite H.
Qed.
(** A reader's step, on a session where it still runs. *)
Lemma at_reader_step loc st r w s :
  pw_arena w !! loc = Some s →
  (reader_state st s = Some ReaderRunning ∧ at_loc (session_by journal_quiet) loc w (reader_step self loc st r w).2)
  ∨ (reader_step self loc st r w).2 = w.
Proof.
  intros Hs. unfold reader_step. rewrite (M_bind_ok _ _ w s w) by (unfold get_session; by rewrite Hs).
  destruct (reader_state st s) as [[|f]|]; [|by right..]. left. split; [done|].
  assert (Hend : ∀ f, m_within (at_loc (session_by journal_quiet) loc) (end_reader (V:=V) loc st f)).
  { intros f. apply at_update. intros x. split; [by same_session|reflexivity]. }
  destruct (ps_output_stop s); [apply Hend|]. destruct r as [source|[|b data]]; [apply Hend..|].
  revert w Hs. intros w _. revert w.
  match goal with |- ∀ w, at_loc ?R ?l w (?m w).2 => change (m_within (at_loc R l) m) end.
  unfold now. apply m_within_bind; [exact _|apply at_host; exact _|intros t].
  apply m_within_bind; [exact _| |intros o].
  - apply within_attempt, at_journal_by; [exact _|auto with effects|apply quiet_append_output].
  - destruct o; [apply Hend|by intros w].
Qed.
Lemma running_not_done st s : reader_state st s = Some ReaderRunning → ¬ session_done s.
Proof.
  intros Hr [Hall _]. unfold reader_state in Hr. unfold all_ended in Hall. rewrite forallb_forall in Hall.
  destruct (list_find _ (ps_readers s)) as [[i [st' x]]|] eqn:Hf; [|done]. cbn in Hr. injection Hr as ->.
  apply list_find_Some in Hf as (Hi & _). apply list_elem_of_lookup_2, list_elem_of_In in Hi.
  specialize (Hall _ Hi). done.
Qed.
(** Nothing is recorded at the exit unless output is to be drained. *)
Lemma at_begin_drain loc exit :
  m_within (at_loc (session_by journal_grows) loc) (begin_output_drain loc exit).
Proof.
  unfold begin_output_drain, now. apply m_within_bind; [exact _|apply at_get; exact _|intros s].
  destruct (se_output_drain_timeout_ms _), exit as [e|code]; [by intros w| |by intros w..].
  apply m_within_bind; [exact _|apply at_host; exact _|intros t].
  apply within_ignore; [exact _|]. apply at_journal_by; [exact _|auto with effects..].
Qed.
Lemma begin_drain_none loc exit w s :
  pw_arena w !! loc = Some s → se_output_drain_timeout_ms (ps_request s) = None →
  (begin_output_drain loc exit w).2 = w.
Proof.
  intros Hs Hd. unfold begin_output_drain. rewrite (M_bind_ok _ _ w s w) by (unfold get_session; by rewrite Hs).
  by rewrite Hd.
Qed.
End steps.

(** ** The table *)

Definition live (s : ProcessSession) : bool :=
  match ps_task s with TaskWaiting | TaskDraining _ => true | _ => false end.
Definition live_count (arena : list ProcessSession) : nat := length (filter (λ s, live s = true) arena).
#[global] Arguments live_count : simpl never.
Definition id_of (s : ProcessSession) : ExecutionId := se_execution_id (ps_request s).
(** The journal of a session that has no tasks yet. *)
Definition unfinished (s : ProcessSession) : Prop :=
  finished_at (js (ps_journal s)) = None ∧ closed (js (ps_journal s)) = false ∧
  exit_code (js (ps_journal s)) = None.
(** No append to a log fails. *)
Definition appends_succeed (V : Type) `{!ProcessHost V} : Prop :=
  ∀ p (v : V) outs v', ph_create_log p v = (inr outs, v') → outs = [].
(** The journal of a session: terminal only in the end, and in order, as long as its
    events can be encoded and appended and no counter reaches its end. *)
Definition stream_ok (V : Type) `{!ProcessHost V} `{jcodec : JournalCodec} (s : ProcessSession) : Prop :=
  frozen s ∧ (encodes → appends_succeed V →
    outcomes (ps_journal s) = [] ∧ (fits (ps_journal s) → journal_inv [] (ps_journal s))).
Lemma stream_ok_le V `{!ProcessHost V} `{jcodec : JournalCodec} s s' :
  session_le s s' → stream_ok V s → stream_ok V s'.
Proof.
  intros Hle [Hf Hs]. split; [by apply (sl_frozen _ _ Hle)|]. intros He Ha.
  destruct (Hs He Ha) as [Ho Hinv]. destruct (sl_grows _ _ Hle He Ho) as [Ho' Hg].
  split; [done|]. intros Hfit. destruct (Hg Hfit) as [Hfit0 Hbase]. auto.
Qed.

(** The table, with [extra] processes counted that have no completion task yet. *)
Record table_ok `{jcodec : JournalCodec} {V} `{!ProcessHost V} (max : N) (extra : nat) (w : ProcessWorld V) : Prop := {
  to_sessions : ∀ id loc, pw_sessions w !! id = Some loc → ∃ s, pw_arena w !! loc = Some s ∧ id_of s = id;
  to_spawned : ∀ loc s, pw_arena w !! loc = Some s → spawned s = true →
    pw_sessions w !! id_of s = Some loc ∨ (pw_sessions w !! id_of s = None ∧ id_of s ∈ pw_retired w);
  to_distinct : ∀ loc loc' s s', pw_arena w !! loc = Some s → pw_arena w !! loc' = Some s' →
    spawned s = true → spawned s' = true → id_of s = id_of s' → loc = loc';
  to_unfinished : ∀ loc s, pw_arena w !! loc = Some s → spawned s = false → unfinished s;
  to_active : pw_active w = N.of_nat (live_count (pw_arena w) + extra);
  to_limit : (pw_active w ≤ max)%N;
  to_stream : ∀ loc s, pw_arena w !! loc = Some s → stream_ok V s;
}.
(** What any run of tasks does to the sessions and the table. *)
Record tasks_rel `{jcodec : JournalCodec} {V} (w w' : ProcessWorld V) : Prop := {
  tk_length : length (pw_arena w') = length (pw_arena w);
  tk_session : ∀ loc s, pw_arena w !! loc = Some s → ∃ s', pw_arena w' !! loc = Some s' ∧
    session_le s s' ∧ ps_input_records s' = ps_input_records s ∧
    ps_control_records s' = ps_control_records s ∧ (spawned s = false → s' = s);
  tk_retired : pw_retired w ⊆ pw_retired w';
  tk_sessions : ∀ id loc, pw_sessions w' !! id = Some loc → pw_sessions w !! id = Some loc;
  tk_fresh : ∀ id loc s, pw_sessions w !! id = Some loc → pw_arena w !! loc = Some s →
    spawned s = false → pw_sessions w' !! id = Some loc;
  tk_claims : ∀ id, id ∈ pw_retired w' → id ∈ pw_retired w ∨ is_Some (pw_sessions w !! id);
  tk_active : (pw_active w' ≤ pw_active w)%N;
}.
#[export] Instance tasks_rel_preorder `{jcodec : JournalCodec} {V} : PreOrder (tasks_rel (V:=V)).
Proof.
  split.
  - intros w. split; auto. intros loc s Hs. exists s. by repeat (split; [done|]).
  - intros w1 w2 w3 [L1 S1 R1 T1 F1 C1 A1] [L2 S2 R2 T2 F2 C2 A2]. split; [congruence| |by etrans|by auto| | |lia].
    + intros loc s Hs. destruct (S1 loc s Hs) as (s2 & Hs2 & ? & ? & ? & Hf1).
      destruct (S2 loc s2 Hs2) as (s3 & Hs3 & ? & ? & ? & Hf2). exists s3. split; [done|].
      split; [by etrans|]. split; [congruence|]. split; [congruence|].
      intros Hf. specialize (Hf1 Hf). subst. auto.
    + intros id loc s Hid Hs Hf. destruct (S1 loc s Hs) as (s2 & Hs2 & _ & _ & _ & Hf1).
      specialize (Hf1 Hf) as ->. eauto.
    + intros id [Hid|[loc Hid]]%C2; [auto|]. eauto.
Qed.

(** A task's effect, on a table that is in order. *)
Definition tasks_step `{jcodec : JournalCodec} {V} `{!ProcessHost V} (max : N) (w w' : ProcessWorld V) : Prop :=
  ∀ e, table_ok max e w → table_ok max e w' ∧ tasks_rel w w'.
#[export] Instance tasks_step_preorder `{jcodec : JournalCodec} {V} `{!ProcessHost V} max : PreOrder (tasks_step (V:=V) max).
Proof.
  split; [by split|]. intros w1 w2 w3 H1 H2 e Hok. destruct (H1 e Hok) as [Hok2 ?].
  destruct (H2 e Hok2) as [??]. split; [done|by etrans].
Qed.

Lemma live_count_insert arena loc s s' :
  arena !! loc = Some s →
  live_count (<[loc := s']> arena) + (if live s then 1 else 0) = live_count arena + (if live s' then 1 else 0).
Proof.
  revert loc. induction arena as [|x arena IH]; intros [|loc] Hs; try done; unfold live_count in *.
  - injection Hs as ->. cbn [insert list_insert]. rewrite !filter_cons.
    destruct (live s), (live s'); repeat (rewrite decide_True by done || rewrite decide_False by done); simpl; lia.
  - cbn [insert list_insert]. cbn [lookup list_lookup] in Hs. specialize (IH loc Hs).
    rewrite !filter_cons. change (list_insert loc s' arena) with (<[loc := s']> arena).
    case_decide; simpl; [f_equal|]; exact IH.
Qed.
Lemma lookup_insert_cases {A} (l : list A) loc x i y :
  <[loc := x]> l !! i = Some y → (i = loc ∧ y = x) ∨ (i ≠ loc ∧ l !! i = Some y).
Proof.
  intros H. destruct (decide (i = loc)) as [->|Hi]; [|right; by rewrite list_lookup_insert_ne in H].
  left. split; [done|]. assert (loc < length l) by (apply lookup_lt_Some in H; by rewrite length_insert in H).
  rewrite list_lookup_insert_eq in H by done. congruence.
Qed.

Section table.
Context {jcodec : JournalCodec} {V : Type} `{!ProcessHost V} (max : N).
Implicit Types w : ProcessWorld V.

(** Replacing a session by one of the same identity. *)
Lemma table_set e e' w loc s s' :
  table_ok max e w → pw_arena w !! loc = Some s → id_of s' = id_of s → spawned s' = spawned s →
  (spawned s' = false → unfinished s') → stream_ok V s' →
  e' + (if live s' then 1 else 0) = e + (if live s then 1 else 0) →
  table_ok max e' (with_arena (<[loc := s']> (pw_arena w)) w).
Proof.
  intros [H1 H2 H3 H4 H5 H6 H7] Hs Hid Hsp Hun Hstr Hlive.
  assert (Hback : ∀ i x, <[loc := s']> (pw_arena w) !! i = Some x →
    ∃ y, pw_arena w !! i = Some y ∧ id_of x = id_of y ∧ spawned x = spawned y).
  { intros i x [[-> ->]|[_ ?]]%lookup_insert_cases; [by exists s|by exists x]. }
  split; cbn [with_arena pw_sessions pw_arena pw_retired pw_active].
  - intros id l (x & Hx & Hidx)%H1. destruct (decide (l = loc)) as [->|Hl].
    + exists s'. simplify_eq. split; [|congruence]. apply list_lookup_insert_eq. by eapply lookup_lt_Some.
    + exists x. by rewrite list_lookup_insert_ne.
  - intros i x (y & Hy & Hidy & Hspy)%Hback Hx. rewrite Hspy in Hx. rewrite Hidy. eauto.
  - intros i i' x x' (y & Hy & Hidy & Hspy)%Hback (y' & Hy' & Hidy' & Hspy')%Hback ???.
    apply (H3 i i' y y'); congruence.
  - intros i x [[-> ->]|[_ ?]]%lookup_insert_cases; eauto.
  - pose proof (live_count_insert _ _ _ s' Hs). rewrite H5. f_equal. lia.
  - done.
  - intros i x [[-> ->]|[_ ?]]%lookup_insert_cases; eauto.
Qed.
Lemma tasks_set w loc s s' :
  pw_arena w !! loc = Some s → session_le s s' → ps_input_records s' = ps_input_records s →
  ps_control_records s' = ps_control_records s → spawned s = true →
  tasks_rel w (with_arena (<[loc := s']> (pw_arena w)) w).
Proof.
  intros Hs Hle Hi Hc Hsp. split; cbn; [by rewrite length_insert| |done|done|done|by left|done].
  intros i x Hx. destruct (decide (i = loc)) as [->|Hi'].
  - simplify_eq. exists s'. split; [apply list_lookup_insert_eq; by eapply lookup_lt_Some|].
    split_and!; [done..|congruence].
  - exists x. rewrite list_lookup_insert_ne by done. done.
Qed.
(** The place where a step happened. *)
Lemma at_loc_arena R loc w w' s :
  at_loc (V:=V) R loc w w' → pw_arena w !! loc = Some s →
  ∃ s', R s s' ∧ pw_arena w' = <[loc := s']> (pw_arena w).
Proof.
  intros [_ _ _ Hlen Hother Hhere] Hs. destruct (Hhere s Hs) as (s' & Hs' & HR). exists s'. split; [done|].
  apply list_eq. intros i. destruct (decide (i = loc)) as [->|Hi].
  - rewrite Hs', list_lookup_insert_eq; [done|by eapply lookup_lt_Some].
  - rewrite list_lookup_insert_ne by done. by apply Hother.
Qed.
Lemma table_eta e w w' :
  table_ok max e w → pw_sessions w' = pw_sessions w → pw_retired w' = pw_retired w →
  pw_active w' = pw_active w → pw_arena w' = pw_arena w → table_ok max e w'.
Proof. intros [H1 H2 H3 H4 H5 H6 H7] E1 E2 E3 E4. split; rewrite ?E1, ?E2, ?E3, ?E4; auto. Qed.
Lemma same_live s s' : session_same s s' → live s' = live s ∧ spawned s' = spawned s ∧ id_of s' = id_of s.
Proof. intros [[] ? ? Ht]. unfold live, spawned, id_of. rewrite Ht. split_and!; [done..|congruence]. Qed.

Lemma tasks_at_loc (R : relation ProcessSession) loc w w' s :
  (∀ s', R s s' → session_same s s' ∧ session_le s s') →
  pw_arena w !! loc = Some s → spawned s = true → at_loc R loc w w' → tasks_step max w w'.
Proof.
  intros HR Hs Hsp Hat e Hok. destruct (at_loc_arena _ _ _ _ _ Hat Hs) as (s' & HRs & Har).
  destruct (HR s' HRs) as [Hsame Hle].
  destruct Hat as [E1 E2 E3 _ _ _]. pose proof (same_live _ _ Hsame) as (Hl & Hsp' & Hid).
  split.
  - apply (table_eta e (with_arena (<[loc := s']> (pw_arena w)) w)); [|done..].
    apply (table_set e e w loc s s'); [done..|by rewrite Hsp', Hsp| |by rewrite Hl].
    eapply stream_ok_le; [exact Hle|]. by eapply to_stream.
  - destruct Hsame as [_ Hi Hc Ht]. pose proof (tasks_set w loc s s' Hs Hle Hi Hc Hsp) as [T1 T2 T3 T4 T5 T6 T7].
    split; cbn in *; rewrite ?E1, ?E2, ?E3, ?Har; auto.
Qed.
Lemma tasks_at_held loc w w' s :
  pw_arena w !! loc = Some s → spawned s = true → at_loc session_held loc w w' → tasks_step max w w'.
Proof. apply tasks_at_loc. intros s' H. split; [apply H|by apply held_le]. Qed.
End table.

(** ** The tasks *)

(** A computation that ends in a step of its own after a quiet prefix. *)
Section prefix.
Context {W : Type} (R Q : W → W → Prop).
Hypothesis absorb : ∀ w1 w2 w3, R w1 w2 → Q w2 w3 → Q w1 w3.
Hypothesis quiet : ∀ w w', R w w' → Q w w'.
Lemma within_prefix {A B} (m : M W A) (f : A → M W B) :
  m_within R m → (∀ a, m_within Q (f a)) → m_within Q (m ≫= f).
Proof.
  intros Hm Hf w. unfold mbind, M_bind. specialize (Hm w).
  destruct (m w) as [[a|e|] w'] eqn:E; [|by apply quiet..]. eapply absorb; [done|]. apply Hf.
Qed.
Lemma within_assoc {A B C} (m : M W A) (f : A → M W B) (g : B → M W C) :
  m_within Q (m ≫= λ a, f a ≫= g) → m_within Q ((m ≫= f) ≫= g).
Proof.
  intros H w. specialize (H w). unfold mbind, M_bind in *. by destruct (m w) as [[] ?].
Qed.
End prefix.

Section tasks.
Context {V : Type} `{!World V, !NativeFs V, !ProcessHost V}.
Context {dbg : DebugStr} {dig : Digest} {shells : ShellHost}.
Context {jcodec : JournalCodec} {codec : ProcessCodec}.
Context (self : ProcessManager).
Implicit Types w : ProcessWorld V.
Abbreviation limit := (sl_max_concurrent_processes (pm_limits self)).
Context (Hlimit : (limit ≤ u32_max)%N).
Abbreviation at_same := (at_loc (V:=V) session_same).

(** Until the readers are waited for, the journal is touched only when output is to be
    drained. *)
Definition session_drain (s s' : ProcessSession) : Prop :=
  session_by journal_grows s s' ∧
  (se_output_drain_timeout_ms (ps_request s) = None → session_held s s').
#[local] Instance session_drain_preorder : PreOrder session_drain.
Proof.
  split; [intros s; split; [reflexivity|by intros _]|]. intros s1 s2 s3 [H1 H1'] [H2 H2'].
  split; [by etrans|]. intros Hd. etrans; [by apply H1'|]. apply H2'.
  by rewrite (sl_request _ _ (ss_step _ _ (sb_same _ _ _ H1))).
Qed.
Lemma held_drain s s' : session_held s s' → session_drain s s'.
Proof. intros H. split; [by apply held_by; [exact _|]|done]. Qed.
Abbreviation at_drain := (at_loc (V:=V) session_drain).
Lemma at_begin loc exit : m_within (at_drain loc) (begin_output_drain loc exit).
Proof.
  intros w. destruct (pw_arena w !! loc) as [s|] eqn:Hs.
  - destruct (se_output_drain_timeout_ms (ps_request s)) eqn:Hd;
      [|by rewrite (begin_drain_none loc exit w s Hs Hd)].
    pose proof (at_begin_drain loc exit w) as [? ? ? ? ? Hhere]. split; try done.
    intros x Hx. simplify_eq. destruct (Hhere s Hs) as (s' & Hs' & Hby). exists s'. split; [done|].
    split; [done|]. by rewrite Hd.
  - unfold begin_output_drain, get_session, mbind, M_bind, or_panic. by rewrite Hs.
Qed.
Definition drains loc w w' : Prop :=
  at_drain loc w w' ∨ ∃ w1 exit, at_drain loc w w1 ∧
    w' = with_arena (alter (set_task (TaskDraining exit)) loc (pw_arena w1)) w1.
Lemma child_exits_drains loc exit w s :
  pw_arena w !! loc = Some s →
  (ps_task s = TaskWaiting ∧ drains loc w (child_exits loc exit w).2) ∨ (child_exits loc exit w).2 = w.
Proof.
  intros Hs. unfold child_exits. rewrite (M_bind_ok _ _ w s w) by (unfold get_session; by rewrite Hs).
  destruct (ps_task s) eqn:Ht; [by right| |by right..]. left. split; [done|]. revert w Hs.
  assert (H : m_within (drains loc)
    (_ ← begin_output_drain loc exit;
     _ ← (if decide (is_Some (se_output_drain_timeout_ms (ps_request s))) then mret tt else close_pty loc);
     update_session loc (set_task (TaskDraining exit)))); [|by intros w _].
  assert (Habs : ∀ w1 w2 w3, at_drain loc w1 w2 → drains loc w2 w3 → drains loc w1 w3).
  { intros w1 w2 w3 H [H'|(w & e & H' & ->)]; [left; by etrans|]. right. exists w, e. split; [by etrans|done]. }
  assert (Hq : ∀ w w', at_drain loc w w' → drains loc w w') by (by left).
  apply (within_prefix _ _ Habs Hq); [apply at_begin|intros _].
  apply (within_prefix _ _ Habs Hq); [|intros _].
  { case_decide; [by intros w|]. intros w. eapply at_loc_mono, at_close_pty. apply held_drain. }
  intros w. right. exists w, exit. done.
Qed.

(** The completion of a session, on its journal and the clocks alone. *)
Definition journal_at loc s w (j : Journal) w' : Prop :=
  ∃ n, w' = with_native n (with_arena (<[loc := set_journal j s]> (pw_arena w)) w).
Lemma journal_at_now loc s w j w1 :
  journal_at loc s w j w1 → ∃ t w2, now w1 = (Ok t, w2) ∧ journal_at loc s w j w2.
Proof.
  intros [n ->]. unfold now, host_do, host. cbn [pw_native with_native].
  destruct (ph_now n) as [t n']. eexists t, _. split; [done|]. by exists n'.
Qed.
Lemma journal_at_instant loc s w j w1 :
  journal_at loc s w j w1 → ∃ t w2, instant w1 = (Ok t, w2) ∧ journal_at loc s w j w2.
Proof.
  intros [n ->]. unfold instant, host_do, host. cbn [pw_native with_native].
  destruct (ph_instant n) as [t n']. eexists t, _. split; [done|]. by exists n'.
Qed.
Lemma journal_at_on {A} (m : M Journal A) loc s w j w1 :
  loc < length (pw_arena w) → journal_at loc s w j w1 →
  ∃ w2, on_journal loc m w1 = ((m j).1, w2) ∧ journal_at loc s w (m j).2 w2.
Proof.
  intros Hl [n ->]. unfold on_journal. cbn [pw_arena with_native with_arena].
  rewrite list_lookup_insert_eq by done. cbn [ps_journal set_journal].
  destruct (m j) as [r j']. eexists. split; [done|]. exists n. cbn [snd].
  unfold with_arena, with_native. cbn. by rewrite list_insert_insert_eq.
Qed.
Lemma journal_at_start loc w s : pw_arena w !! loc = Some s → journal_at loc s w (ps_journal s) w.
Proof.
  intros Hs. exists (pw_native w). replace (set_journal (ps_journal s) s) with s by by destruct s.
  rewrite list_insert_id by done. by destruct w.
Qed.
Lemma finish_failed_run loc s w j w1 msg :
  loc < length (pw_arena w) → journal_at loc s w j w1 →
  ∃ t t' i w2, journal_finish_failed loc msg w1 = ((finish_failed t msg t' i j).1, w2) ∧
    journal_at loc s w (finish_failed t msg t' i j).2 w2.
Proof.
  intros Hl H. unfold journal_finish_failed.
  destruct (journal_at_now _ _ _ _ _ H) as (t & w2 & Ht & H2). rewrite (M_bind_ok _ _ _ _ _ Ht).
  destruct (journal_at_now _ _ _ _ _ H2) as (t' & w3 & Ht' & H3). rewrite (M_bind_ok _ _ _ _ _ Ht').
  destruct (journal_at_instant _ _ _ _ _ H3) as (i & w4 & Hi & H4). rewrite (M_bind_ok _ _ _ _ _ Hi).
  destruct (journal_at_on (finish_failed t msg t' i) _ _ _ _ _ Hl H4) as (w5 & Ho & H5). by exists t, t', i, w5.
Qed.
Lemma attempt_ok {A} (m : M (ProcessWorld V) A) w : (m w).1 ≠ Panic → ∃ r, attempt m w = (Ok r, (m w).2) ∧
  (match (m w).1 with Ok a => r = inr a | Err e => r = inl e | Panic => False end).
Proof. intros H. unfold attempt. destruct (m w) as [[a|e|] w']; [by exists (inr a)|by exists (inl e)|done]. Qed.
(** How the completion task finishes a journal. *)
Definition finishes (exit : ExecutionError + Z) (failure : option ExecutionError) (s : ProcessSession)
    (m : M Journal unit) : Prop :=
  match exit, failure with
  | inl e, _ | inr _, Some e => ∃ t t' i, m = finish_failed t (message e) t' i
  | inr code, None => ∃ t t' i, m = finish_exited t code (final_state (ps_completion s)) t' i
  end.
(** The completion of a session always gets to its end, and what it does to the
    journal is a growth. *)
Lemma complete_session_run loc exit failure w s :
  pw_arena w !! loc = Some s →
  ∃ j' w1, complete_session loc exit failure w
      = (Ok tt, with_active (u32_wrap_sub (pw_active w1)) w1) ∧
    journal_at loc s w j' w1 ∧ journal_le (ps_journal s) j' ∧ journal_grows (ps_journal s) j' ∧
    ∃ m, finishes exit failure s m ∧ completing m (ps_journal s) j'.
Proof.
  intros Hs. assert (Hl : loc < length (pw_arena w)) by (by eapply lookup_lt_Some).
  pose proof (journal_at_start loc w s Hs) as H0. unfold complete_session.
  match goal with |- context [attempt ?p] => set (first := p) end.
  assert (H1 : ∃ (m : M Journal unit) w1, first w = ((m (ps_journal s)).1, w1) ∧
    journal_at loc s w (m (ps_journal s)).2 w1 ∧ m_safe m ∧ m_within journal_le m ∧ m_within journal_grows m ∧
    (encodes → outcomes (ps_journal s) = [] → ∃ j1, m (ps_journal s) = (Ok tt, j1) ∧ closed (js j1) = true) ∧
    finishes exit failure s m).
  { assert (Hfail : ∀ msg, first = journal_finish_failed loc msg →
      (∀ t t' i, finishes exit failure s (finish_failed t msg t' i)) → ∃ (m : M Journal unit) w1,
      first w = ((m (ps_journal s)).1, w1) ∧ journal_at loc s w (m (ps_journal s)).2 w1 ∧ m_safe m ∧
      m_within journal_le m ∧ m_within journal_grows m ∧
      (encodes → outcomes (ps_journal s) = [] → ∃ j1, m (ps_journal s) = (Ok tt, j1) ∧ closed (js j1) = true) ∧
      finishes exit failure s m).
    { intros msg -> Hfin. destruct (finish_failed_run loc s w _ w msg Hl H0) as (t & t' & i & w1 & Hr & Hj).
      exists (finish_failed t msg t' i), w1. split_and!; auto using finish_failed_safe, finish_failed_closed with effects. }
    destruct exit as [e|code]; [eapply Hfail; [done|]; intros; by eexists _, _, _|].
    destruct failure as [e|]; [eapply Hfail; [done|]; intros; by eexists _, _, _|].
    unfold first. rewrite (M_bind_ok _ _ w s w) by (unfold get_session; by rewrite Hs).
    destruct (journal_at_now _ _ _ _ _ H0) as (t & w2 & Ht & H2). rewrite (M_bind_ok _ _ _ _ _ Ht).
    destruct (journal_at_now _ _ _ _ _ H2) as (t' & w3 & Ht' & H3). rewrite (M_bind_ok _ _ _ _ _ Ht').
    destruct (journal_at_instant _ _ _ _ _ H3) as (i & w4 & Hi & H4). rewrite (M_bind_ok _ _ _ _ _ Hi).
    set (m := finish_exited t code (final_state (ps_completion s)) t' i).
    destruct (journal_at_on m _ _ _ _ _ Hl H4) as (w5 & Ho & H5). exists m, w5.
    split_and!; [done|done|apply finish_exited_safe|apply le_finish_exited, final_state_terminal
                |apply grows_finish_exited, final_state_terminal| |by eexists _, _, _].
    intros He Hout. destruct (finish_exited_grows t code (final_state (ps_completion s)) t' i (ps_journal s) He Hout)
      as (j1 & ? & ? & _); [auto with effects|by exists j1]. }
  destruct H1 as (m & w1 & Hf & Hj1 & Hsafe & Hle & Hg & Hok & Hfin).
  destruct (attempt_ok first w) as (r & Ha & Hr); [by rewrite Hf; apply Hsafe|]. rewrite Hf in Ha, Hr. cbn [fst snd] in *.
  rewrite (M_bind_ok _ _ _ _ _ Ha).
  assert (H2 : ∃ j2 w2, (match r with inl _ => ignore (journal_finish_failed loc (str! "failed to finalize process journal"))
                         | inr _ => mret tt end) w1 = (Ok tt, w2) ∧ journal_at loc s w j2 w2 ∧
    journal_le (m (ps_journal s)).2 j2 ∧
    (match (m (ps_journal s)).1 with Ok _ => j2 = (m (ps_journal s)).2
     | _ => ∃ t e t' i, j2 = (finish_failed t e t' i (m (ps_journal s)).2).2 end)).
  { specialize (Hsafe (ps_journal s)). destruct (m (ps_journal s)) as [[u|e|] j1]; cbn [fst snd] in *; [subst r..|done].
    - by exists j1, w1.
    - destruct (finish_failed_run loc s w _ w1 (str! "failed to finalize process journal") Hl Hj1)
        as (t & t' & i & w2 & Hrun & Hj2).
      eexists _, w2. split; [|split; [exact Hj2|split; [|by exists t, (str! "failed to finalize process journal"), t', i]]].
      + unfold ignore. destruct (attempt_ok (journal_finish_failed loc (str! "failed to finalize process journal")) w1)
          as (r' & Ha' & _); [rewrite Hrun; apply finish_failed_safe|].
        rewrite (M_bind_ok _ _ _ _ _ Ha'). by rewrite Hrun.
      + by apply le_finish_failed. }
  destruct H2 as (j2 & w2 & Hi2 & Hj2 & Hle2 & Hc2). rewrite (M_bind_ok _ _ _ _ _ Hi2).
  assert (H3 : ∃ t i w3, (t ← now; i ← instant; ignore (on_journal loc (close t i))) w2 = (Ok tt, w3) ∧
    journal_at loc s w (close t i j2).2 w3).
  { destruct (journal_at_now _ _ _ _ _ Hj2) as (t & w3 & Ht & H3). rewrite (M_bind_ok _ _ _ _ _ Ht).
    destruct (journal_at_instant _ _ _ _ _ H3) as (i & w4 & Hi & H4). rewrite (M_bind_ok _ _ _ _ _ Hi).
    destruct (journal_at_on (close t i) _ _ _ _ _ Hl H4) as (w5 & Ho & H5). exists t, i, w5. split; [|done].
    unfold ignore. destruct (attempt_ok (on_journal loc (close t i)) w4) as (r' & Ha' & _);
      [rewrite Ho; apply close_safe|]. rewrite (M_bind_ok _ _ _ _ _ Ha'). by rewrite Ho. }
  destruct H3 as (t & i & w3 & Hrun3 & Hj3). rewrite (M_bind_ok _ _ _ _ _ Hrun3).
  assert (Hcomp : completing m (ps_journal s) (close t i j2).2).
  { unfold completing. destruct (m (ps_journal s)) as [r1 j1]. cbn [fst snd] in *. exists j2.
    split; [done|]. by exists t, i. }
  exists (close t i j2).2, w3. split_and!; [done|done| |by apply (completing_grows m)|by exists m].
  etrans; [apply Hle|]. etrans; [exact Hle2|apply le_close].
Qed.

Lemma wrap_sub n e : (0 < e)%N → (n + e ≤ u32_max)%N → u32_wrap_sub (n + e) = (n + e - 1)%N.
Proof.
  intros He Hn. unfold u32_wrap_sub, u32_max in *.
  replace (n + e + 4294967295)%N with ((n + e - 1) + 1 * 4294967296)%N by lia.
  rewrite N.Div0.mod_add. apply N.mod_small. lia.
Qed.
Lemma table_release e w : table_ok limit (S e) w → table_ok limit e (with_active (u32_wrap_sub (pw_active w)) w).
Proof.
  intros [H1 H2 H3 H4 H5 H6 H7].
  assert (Hdec : u32_wrap_sub (pw_active w) = N.of_nat (live_count (pw_arena w) + e)).
  { rewrite H5. replace (N.of_nat (live_count (pw_arena w) + S e)) with (N.of_nat (live_count (pw_arena w) + e) + 1)%N by lia.
    rewrite wrap_sub; lia. }
  split; cbn; try done. lia.
Qed.
Lemma session_task_step loc (step : M (ProcessWorld V) unit) :
  (∀ w s, pw_arena w !! loc = Some s → spawned s = true → tasks_step limit w (step w).2) →
  m_within (tasks_step limit) (session_task loc step).
Proof.
  intros H w. unfold session_task, get_session, mbind, M_bind, or_panic.
  destruct (pw_arena w !! loc) as [s|] eqn:Hs; [|done]. cbn [snd]. destruct (spawned s) eqn:Hsp; [by eapply H|done].
Qed.
(** The session moves on from where its completion task was. *)
Lemma task_moves (R : relation ProcessSession) e e' loc w w1 s task :
  table_ok limit e w → pw_arena w !! loc = Some s → spawned s = true → at_loc R loc w w1 →
  (∀ s1, R s s1 → session_same s s1 ∧ session_le s (set_task task s1)) →
  task ≠ TaskNotSpawned →
  (e' + (match task with TaskWaiting | TaskDraining _ => 1 | _ => 0 end) = e + (if live s then 1 else 0)) →
  let w2 := with_arena (alter (set_task task) loc (pw_arena w1)) w1 in
  table_ok limit e' w2 ∧ tasks_rel w w2.
Proof.
  intros Hok Hs Hsp Hat HR Htask He w2.
  destruct (at_loc_arena _ _ _ _ _ Hat Hs) as (s1 & HRs & Har). destruct (HR s1 HRs) as [Hsame Hle].
  destruct (same_live _ _ Hsame) as (Hl & Hsp1 & Hid). destruct Hat as [E1 E2 E3 _ _ _].
  assert (Hs1 : pw_arena w1 !! loc = Some s1).
  { rewrite Har. apply list_lookup_insert_eq. by eapply lookup_lt_Some. }
  set (w3 := with_arena (<[loc := set_task task s1]> (pw_arena w)) w).
  assert (Har2 : pw_arena w2 = pw_arena w3).
  { unfold w2, w3. cbn [pw_arena with_arena]. rewrite (alter_insert _ _ _ _ Hs1), Har.
    apply list_insert_insert_eq. }
  assert (Hspt : ∀ x, spawned (set_task task x) = true) by (intros x; unfold spawned; by destruct task).
  split.
  - apply (table_eta limit e' w3); [|done..].
    apply (table_set limit e e' w loc s); [done|done|done|by rewrite Hspt, Hsp|by rewrite Hspt| |].
    { eapply stream_ok_le; [exact Hle|]. by eapply to_stream. }
    rewrite <-He. unfold live at 1. by destruct task.
  - destruct Hsame as [_ Hi Hc _].
    pose proof (tasks_set w loc s (set_task task s1) Hs Hle Hi Hc Hsp) as [T1 T2 T3 T4 T5 T6 T7]. fold w3 in T1, T2, T3, T4, T5, T6, T7.
    split; rewrite ?Har2; unfold w2; cbn [pw_retired pw_sessions pw_active with_arena]; rewrite ?E1, ?E2, ?E3; auto.
Qed.
Lemma same_set_task s s1 task :
  session_same s s1 → task ≠ TaskNotSpawned → session_step s (set_task task s1).
Proof. intros [[] ? ? ?] Ht. split; cbn; auto. Qed.
Lemma child_exits_step loc exit w s :
  pw_arena w !! loc = Some s → spawned s = true → tasks_step limit w (child_exits loc exit w).2.
Proof.
  intros Hs Hsp. destruct (child_exits_drains loc exit w s Hs) as [[Ht Hd]| ->]; [|done].
  assert (Hnd : ¬ session_done s) by (intros [_ Hd']; congruence).
  assert (Hf : ∀ s1, session_drain s s1 → ∀ s2, ps_journal s2 = ps_journal s1 → ps_request s2 = ps_request s1 →
    frozen s → frozen s2).
  { intros s1 [[Hsame _] Hheld] s2 Hj Hr Hfr Hd' Hterm. rewrite Hr, (sl_request _ _ (ss_step _ _ Hsame)) in Hd'.
    rewrite Hj, (sh_journal _ _ (Hheld Hd')) in Hterm. by destruct Hnd; apply Hfr. }
  destruct Hd as [Hat|(w1 & ex & Hat & ->)].
  - apply (tasks_at_loc limit session_drain loc w _ s); [|done..]. intros s1 HR. pose proof HR as [[Hsame Hg] _].
    split; [done|]. split; [apply Hsame|done|done|by apply (Hf s1)].
  - intros e Hok. eapply (task_moves session_drain e e); [done..| |done|unfold live; by rewrite Ht].
    intros s1 HR. pose proof HR as [[Hsame Hg] _]. split; [done|].
    split; [by apply same_set_task|done|done|by apply (Hf s1)].
Qed.
(** The completion task's last step. *)
Definition session_ended (s s' : ProcessSession) : Prop :=
  session_by journal_grows s s' ∧ ps_readers s' = ps_readers s.
Lemma complete_runs loc w s :
  pw_arena w !! loc = Some s →
  (∃ exit, ps_task s = TaskDraining exit ∧ all_ended s = true ∧ ∃ w1, at_loc session_ended loc w w1 ∧
     (complete loc w).2 = with_arena (alter (set_task TaskDone) loc (pw_arena w1))
       (with_active (u32_wrap_sub (pw_active w1)) w1))
  ∨ (complete loc w).2 = w.
Proof.
  intros Hs. unfold complete. rewrite (M_bind_ok _ _ w s w) by (unfold get_session; by rewrite Hs).
  destruct (ps_task s) as [| |exit|] eqn:Ht; [by right..| |by right].
  destruct (all_ended s) eqn:Hall; [|by right]. left. exists exit. split; [done|]. split; [done|].
  assert (Hclose : ∃ w1, close_pty loc w = (Ok tt, w1)).
  { unfold close_pty. rewrite (M_bind_ok _ _ w s w) by (unfold get_session; by rewrite Hs).
    destruct (ps_control s) as [|pid master writer]; [by exists w|]. by destruct writer, master; eexists. }
  destruct Hclose as [w1 Hclose]. pose proof (at_close_pty loc w) as Hat1. rewrite Hclose in Hat1. cbn [snd] in Hat1.
  rewrite (M_bind_ok _ _ _ _ _ Hclose). destruct (al_here _ _ _ _ Hat1 s Hs) as (s1 & Hs1 & Hheld).
  destruct (complete_session_run loc exit (output_failure s) w1 s1 Hs1) as (j' & w2 & Hrun & (n & ->) & Hle & Hg & _).
  rewrite (M_bind_ok _ _ _ _ _ Hrun). eexists (with_native n (with_arena (<[loc := set_journal j' s1]> (pw_arena w1)) w1)).
  split; [|done].
  destruct Hat1 as [E1 E2 E3 E4 E5 _]. split; cbn; [done|done|done|by rewrite length_insert| |].
  - intros l Hl. by rewrite list_lookup_insert_ne, E5.
  - intros x Hx. simplify_eq. exists (set_journal j' s1).
    split; [apply list_lookup_insert_eq; by eapply lookup_lt_Some|].
    destruct Hheld as [Hsame Hj Hr]. rewrite Hj in Hle, Hg. split; [|done]. split; [|done].
    destruct Hsame as [[] ? ? ?]. split; [|done..]. split; cbn; auto.
Qed.
Lemma complete_step loc w s :
  pw_arena w !! loc = Some s → spawned s = true → tasks_step limit w (complete loc w).2.
Proof.
  intros Hs Hsp. destruct (complete_runs loc w s Hs) as [(ex & Ht & Hall & w1 & Hat & ->)| ->]; [|done].
  intros e Hok. destruct (task_moves session_ended e (S e) loc w w1 s TaskDone Hok Hs Hsp Hat) as [Hok2 Hrel]; [|done| |].
  { intros s1 [[Hsame Hg] Hr]. split; [done|].
    assert (Hdone : session_done (set_task TaskDone s1)) by (split; [unfold all_ended in *; cbn; by rewrite Hr|done]).
    split; [by apply same_set_task|done| |by intros _ _ _]. intros [_ Hd]. congruence. }
  { unfold live. rewrite Ht. lia. }
  pose proof (table_release e _ Hok2) as Hok3. split; [exact Hok3|].
  destruct Hrel as [T1 T2 T3 T4 T5 T6 T7]. split; try done.
  etrans; [|exact T7]. pose proof (to_active _ _ _ Hok2) as Ha2. pose proof (to_active _ _ _ Hok3) as Ha3.
  cbn in *. lia.
Qed.

(** The table without an execution that was retired. *)
Record retires (id : ExecutionId) w w' : Prop := {
  rt_sessions : pw_sessions w' = delete id (pw_sessions w);
  rt_retired : pw_retired w' = {[id]} ∪ pw_retired w;
  rt_arena : pw_arena w' = pw_arena w;
  rt_active : pw_active w' = pw_active w;
}.
Lemma retires_step w w' loc s :
  pw_arena w !! loc = Some s → spawned s = true → retires (id_of s) w w' → tasks_step limit w w'.
Proof.
  intros Hs Hsp [E1 E2 E3 E4] e [H1 H2 H3 H4 H5 H6 H7]. split.
  - split; rewrite ?E1, ?E2, ?E3, ?E4; auto.
    + intros id l [_ Hl]%lookup_delete_Some. eauto.
    + intros l x Hx Hspx. destruct (decide (id_of x = id_of s)) as [Heq|Hne].
      * right. rewrite Heq, lookup_delete_eq. set_solver.
      * rewrite lookup_delete_ne by done. destruct (H2 l x Hx Hspx) as [?|[? ?]]; [by left|right; set_solver].
  - split; rewrite ?E1, ?E2, ?E3, ?E4; auto; [|set_solver|..].
    + intros l x Hx. exists x. by repeat (split; [done|]).
    + intros id l [_ Hl]%lookup_delete_Some. done.
    + intros id l x Hid Hx Hspx. rewrite lookup_delete_ne; [done|]. intros <-.
      destruct (H2 loc s Hs Hsp) as [Heq|[Heq _]]; congruence.
    + intros id [->%elem_of_singleton|?]%elem_of_union; [|by left].
      destruct (H2 loc s Hs Hsp) as [->|[_ ?]]; eauto.
Qed.
Lemma tasks_host {A} (m : M V A) : m_within (tasks_step limit) (host (V:=V) m).
Proof.
  intros w. unfold host. destruct (m (pw_native w)) as [r n]. intros e Hok. split.
  - by apply (table_eta limit e w).
  - split; cbn; auto. intros l x Hx. exists x. by repeat (split; [done|]).
Qed.
Lemma cleanup_session_step loc : m_within (tasks_step limit) (cleanup_session self loc).
Proof.
  intros w e Hok. unfold cleanup_session, get_session, mbind, M_bind, or_panic.
  destruct (pw_arena w !! loc) as [s|] eqn:Hs; [|done].
  unfold instant, host_do, host. destruct (ph_instant (pw_native w)) as [i n].
  set (w1 := with_native n w).
  assert (H1 : table_ok limit e w1 ∧ tasks_rel w w1).
  { split; [by apply (table_eta limit e w)|]. split; cbn; auto.
    intros l x Hx. exists x. by repeat (split; [done|]). }
  destruct (match finished_for i (ps_journal s) with Some elapsed => _ | None => false end) eqn:Hf; [|done].
  assert (Hsp : spawned s = true).
  { destruct (spawned s) eqn:Hsp; [done|]. unfold finished_for in Hf.
    rewrite (proj1 (to_unfinished _ _ _ Hok loc s Hs Hsp)) in Hf. done. }
  cbv [modify_world get_world]. cbn [with_retired pw_sessions].
  destruct H1 as [Hok1 Hrel1].
  match goal with |- context [with_sessions ?x (with_retired ?y w1)] => set (w2 := with_sessions x (with_retired y w1)) end.
  assert (H2 : table_ok limit e w2 ∧ tasks_rel w w2).
  { destruct (retires_step w1 w2 loc s) with (e:=e) as [? ?]; [done|done|by split|done|].
    split; [done|by etrans]. }
  destruct (bool_decide _); [|exact H2].
  unfold host_io, host. cbn [outcome].
  destruct (tasks_host (outcome (n_remove_dir_all (ps_directory s))) w2 e) as [? ?]; [apply H2|].
  unfold host in *. destruct (outcome _ _) as [[] ?]; cbn [snd] in *; (split; [done|etrans; [apply H2|done]]).
Qed.
Lemma each_session_within (R : relation (ProcessWorld V)) `{!PreOrder R} f locs :
  (∀ loc, m_within R (f loc)) → m_within R (each_session f locs).
Proof.
  intros Hf. induction locs as [|loc locs IH]; [by intros w|]. cbn [each_session].
  apply m_within_bind; [exact _|apply Hf|done].
Qed.
Lemma reader_task_step loc st r w s :
  pw_arena w !! loc = Some s → spawned s = true → tasks_step limit w (reader_step self loc st r w).2.
Proof.
  intros Hs Hsp. destruct (at_reader_step self loc st r w s Hs) as [[Hr Hat]| ->]; [|done].
  eapply tasks_at_loc; [|done..]. intros s' H. split; [apply H|].
  apply quiet_le; [by eapply running_not_done|done].
Qed.
Lemma run_task_step t : m_within (tasks_step limit) (run_task self t).
Proof.
  destruct t; cbn [run_task]; try (apply session_task_step; intros w s Hs Hsp).
  - by eapply reader_task_step.
  - by eapply reader_task_step.
  - by eapply reader_task_step.
  - by eapply child_exits_step.
  - eapply tasks_at_held; [done..|apply at_drain_expires].
  - by eapply complete_step.
  - eapply tasks_at_held; [done..|apply at_timer_fires].
  - eapply tasks_at_held; [done..|apply at_grace_expires].
  - apply m_within_bind; [exact _|by intros w|intros w]. destruct (pw_shutdown w); [by intros w'|].
    apply m_within_bind; [exact _|by intros w'|intros w'].
    apply each_session_within; [exact _|apply cleanup_session_step].
Qed.
Lemma run_tasks_step ts w : tasks_step limit w (run_tasks self ts w).
Proof.
  unfold run_tasks. revert w. induction ts as [|t ts IH]; intros w; [done|]. cbn [foldl].
  etrans; [apply (run_task_step t w)|apply IH].
Qed.
Lemma interleave_step : m_within (tasks_step limit) (interleave self).
Proof.
  intros w. unfold interleave. destruct (pw_schedule w) as [|ts schedule]; [done|]. cbn [snd].
  etrans; [|apply run_tasks_step]. intros e Hok. split; [by apply (table_eta limit e w)|].
  split; cbn; auto. intros l x Hx. exists x. by repeat (split; [done|]).
Qed.
End tasks.
