(* ===== verification/ManagerClients.v ===== *)
(** The process manager's operations, on top of [ManagerTable]: every operation
    keeps the table in order whatever tasks run during it; an execution id names
    at most one process; recorded input and control operations never act again. *)
From Stdlib Require Import ZifyBool.
From stdpp Require Import prelude gmap strings pretty list.
From S2P Require Import Prelude.
From S2P Require Import Text.
From S2P Require Import Core.
From S2P Require Import Host.
From S2P Require Import ProcessCore.
From S2P Require Import ProcessLaunch.
From S2P Require Import Journal.
From S2P Require Import JournalGrowth.
From S2P Require Import Resolver.
From S2P Require Import SupervisorFs.
From S2P Require Import ProcessManager.
From S2P Require Import ManagerTable.

(** ** Later worlds *)

Record world_rel {V} (R : relation ProcessSession) (w w' : ProcessWorld V) : Prop := {
  wr_length : length (pw_arena w) ≤ length (pw_arena w');
  wr_session : ∀ loc s, pw_arena w !! loc = Some s → ∃ s', pw_arena w' !! loc = Some s' ∧ R s s';
  wr_retired : pw_retired w ⊆ pw_retired w';
  wr_sessions : ∀ id loc, pw_sessions w' !! id = Some loc → pw_sessions w !! id = Some loc;
}.
#[export] Instance world_rel_preorder {V} R : PreOrder R → PreOrder (world_rel (V:=V) R).
Proof.
  intros HR. split; [split; eauto; intros loc s ?; by exists s|].
  intros w1 w2 w3 [L1 S1 T1 U1] [L2 S2 T2 U2]. split; [lia| |by etrans|by auto].
  intros loc s Hs. destruct (S1 loc s Hs) as (s2 & Hs2 & ?). destruct (S2 loc s2 Hs2) as (s3 & ? & ?).
  exists s3. split; [done|by etrans].
Qed.
(** How the sessions and the retired ids grow while a start is under way. *)
Record grown `{jcodec : JournalCodec} {V} (w w' : ProcessWorld V) : Prop := {
  gr_length : length (pw_arena w) ≤ length (pw_arena w');
  gr_session : ∀ loc s, pw_arena w !! loc = Some s → ∃ s', pw_arena w' !! loc = Some s' ∧ session_le s s';
  gr_retired : pw_retired w ⊆ pw_retired w';
}.
#[export] Instance grown_preorder `{jcodec : JournalCodec} {V} : PreOrder (grown (V:=V)).
Proof.
  split; [split; eauto; intros loc s ?; by exists s|].
  intros w1 w2 w3 [L1 S1 T1] [L2 S2 T2]. split; [lia| |by etrans].
  intros loc s Hs. destruct (S1 loc s Hs) as (s2 & Hs2 & ?). destruct (S2 loc s2 Hs2) as (s3 & ? & ?).
  exists s3. split; [done|by etrans].
Qed.
(** A step that keeps the table in order and its sessions along [R]. *)
Definition steps `{jcodec : JournalCodec} {V} `{!ProcessHost V} (max : N) (R : relation ProcessSession) (w w' : ProcessWorld V) : Prop :=
  ∀ e, table_ok max e w → table_ok max e w' ∧ world_rel R w w'.
#[export] Instance steps_preorder `{jcodec : JournalCodec} {V} `{!ProcessHost V} max R :
  PreOrder R → PreOrder (steps (V:=V) max R).
Proof.
  intros HR. split; [by split|]. intros w1 w2 w3 H1 H2 e Hok.
  destruct (H1 e Hok) as [Hok2 ?]. destruct (H2 e Hok2) as [??]. split; [done|by etrans].
Qed.
(** A session with its records locked. *)
Definition session_locked `{jcodec : JournalCodec} (s s' : ProcessSession) : Prop :=
  session_le s s' ∧ ps_input_records s' = ps_input_records s ∧
  ps_control_records s' = ps_control_records s.
#[export] Instance session_locked_preorder `{jcodec : JournalCodec} : PreOrder session_locked.
Proof.
  split; [by split|]. intros s1 s2 s3 (? & ? & ?) (? & ? & ?).
  split; [by etrans|split; congruence].
Qed.
Lemma steps_mono `{jcodec : JournalCodec} {V} `{!ProcessHost V} max (R R' : relation ProcessSession) (w w' : ProcessWorld V) :
  (∀ s s', R s s' → R' s s') → steps max R w w' → steps max R' w w'.
Proof.
  intros HR H e Hok. destruct (H e Hok) as [? [? Hs ? ?]]. split; [done|]. split; [done| |done|done].
  intros loc s ?. destruct (Hs loc s) as (s' & ? & ?); [done|]. exists s'. auto.
Qed.

Section clients.
Context {V : Type} `{!World V, !NativeFs V, !ProcessHost V}.
Context {dbg : DebugStr} {dig : Digest} {shells : ShellHost}.
Context {jcodec : JournalCodec} {codec : ProcessCodec}.
Context (self : ProcessManager).
Implicit Types w : ProcessWorld V.
Abbreviation limit := (sl_max_concurrent_processes (pm_limits self)).
Context (Hlimit : (limit ≤ u32_max)%N).
Abbreviation locked := (steps (V:=V) limit session_locked).
Abbreviation forward := (steps (V:=V) limit session_le).

Lemma locked_forward {A} (m : M (ProcessWorld V) A) : m_within locked m → m_within forward m.
Proof. intros H w. eapply steps_mono, H. by intros s s' [? _]. Qed.
Lemma locked_tasks w w' : tasks_step limit w w' → locked w w'.
Proof.
  intros H e Hok. destruct (H e Hok) as [Hok' [L S T U _ _ _]]. split; [done|]. split; [lia| |done|done].
  intros loc s Hs. destruct (S loc s Hs) as (s' & ? & ? & ? & ? & _). exists s'. done.
Qed.
Lemma locked_interleave : m_within locked (interleave self).
Proof. intros w. by apply locked_tasks, interleave_step. Qed.
Lemma locked_host {A} (m : M V A) : m_within locked (host m).
Proof. intros w. by apply locked_tasks, (tasks_host self). Qed.
Lemma locked_checkpoint c : m_within locked (checkpointM (W:=ProcessWorld V) c).
Proof.
  intros w. unfold checkpointM. cbn. destruct (observe (cancellation c) (pw_native w)) as [[b t] n].
  cbn [snd]. apply locked_tasks. intros e Hok. split; [by apply (table_eta limit e w)|].
  split; cbn; auto. intros l x Hx. exists x. by repeat (split; [done|]).
Qed.
Lemma locked_same {A} (m : M (ProcessWorld V) A) : (∀ w, (m w).2 = w) → m_within locked m.
Proof. intros H w. by rewrite H. Qed.

(** Clients leave a journal alone, so they may act on any session. *)
Lemma locked_held {A} loc (m : M (ProcessWorld V) A) :
  m_within (at_loc session_held loc) m → m_within locked m.
Proof.
  intros Hm w e Hok. specialize (Hm w). destruct (pw_arena w !! loc) as [s|] eqn:Hs.
  - destruct (at_loc_arena _ _ _ _ _ Hm Hs) as (s' & Hheld & Har). pose proof Hheld as [Hsame Hj _].
    destruct Hm as [E1 E2 E3 E4 E5 _]. pose proof (same_live _ _ Hsame) as (Hl & Hsp & Hid). split.
    + apply (table_eta limit e (with_arena (<[loc := s']> (pw_arena w)) w)); [|done..].
      apply (table_set limit e e w loc s s'); [done..| | |by rewrite Hl].
      2: { eapply stream_ok_le; [by apply held_le|]. by eapply to_stream. }
      intros Hf. rewrite Hsp in Hf. unfold unfinished. rewrite Hj. by eapply to_unfinished.
    + split; [lia| |by rewrite E2|by rewrite E1]. intros i x Hx. rewrite Har. destruct (decide (i = loc)) as [->|Hi].
      * simplify_eq. exists s'. split; [apply list_lookup_insert_eq; by eapply lookup_lt_Some|].
        split; [by apply held_le|by destruct Hsame].
      * exists x. by rewrite list_lookup_insert_ne.
  - destruct Hm as [E1 E2 E3 E4 E5 _].
    assert (Har : pw_arena (m w).2 = pw_arena w).
    { apply list_eq. intros i. destruct (decide (i = loc)) as [->|]; [|by apply E5].
      rewrite Hs. apply lookup_ge_None. rewrite E4. by apply lookup_ge_None. }
    split; [by apply (table_eta limit e w)|]. split; [lia| |by rewrite E2|by rewrite E1].
    intros i x Hx. exists x. by rewrite Har.
Qed.
(** Recording under the lock. *)
Lemma forward_record loc f w s :
  pw_arena w !! loc = Some s → session_le s (f s) → ps_task (f s) = ps_task s →
  ps_journal (f s) = ps_journal s →
  forward w (update_session (V:=V) loc f w).2.
Proof.
  intros Hs Hle Ht Hj e Hok. unfold update_session, modify_world. cbn [snd].
  rewrite (alter_insert _ _ _ _ Hs). split.
  - apply (table_set limit e e w loc s); [done|done| | | | |].
    + unfold id_of. by rewrite (sl_request _ _ Hle).
    + unfold spawned. by rewrite Ht.
    + unfold spawned. rewrite Ht. intros Hf. unfold unfinished. rewrite Hj. by eapply to_unfinished.
    + eapply stream_ok_le; [exact Hle|]. by eapply to_stream.
    + unfold live. by rewrite Ht.
  - split; cbn; [by rewrite length_insert| |done|done]. intros i x Hx. destruct (decide (i = loc)) as [->|].
    + simplify_eq. exists (f s). split; [|done]. apply list_lookup_insert_eq. by eapply lookup_lt_Some.
    + exists x. by rewrite list_lookup_insert_ne.
Qed.

(** ** Reading, controlling, shutting down *)

Lemma locked_read_journal loc a m wt : m_within locked (read_journal self loc a m wt).
Proof.
  unfold read_journal. apply m_within_bind; [exact _|by apply locked_same|intros s].
  apply m_within_bind; [exact _|apply locked_host|intros o]. cbv zeta.
  apply m_within_bind; [exact _| |intros _].
  { destruct (match _ with Ok _ => _ | _ => false end); [apply locked_interleave|by intros w]. }
  apply m_within_bind; [exact _|by apply locked_same|intros s']. by intros w.
Qed.
Lemma locked_observe {A} c (f : (bool * N) → A) :
  m_within locked (λ w : ProcessWorld V, let '(o, w) := observe c w in (Ok (f o) : ExecutionResult A, w)).
Proof.
  intros w. cbn. destruct (observe c (pw_native w)) as [o n]. cbn [snd].
  apply locked_tasks. intros e Hok. split; [by apply (table_eta limit e w)|].
  split; cbn; auto. intros l x Hx. exists x. by repeat (split; [done|]).
Qed.
Lemma locked_remaining c : m_within locked (remaining (V:=V) c).
Proof.
  intros w. pose proof (locked_observe (cancellation c) id w) as H. unfold remaining.
  revert H. cbn. by destruct (observe _ _) as [[b t] n].
Qed.
Lemma locked_is_cancelled c : m_within locked (is_cancelled (V:=V) c).
Proof.
  intros w. pose proof (locked_observe (cancellation c) id w) as H. unfold is_cancelled.
  revert H. cbn. by destruct (observe _ _) as [[b t] n].
Qed.
Lemma locked_entry id : m_within locked (entry (V:=V) id).
Proof. by apply locked_same. Qed.
Lemma locked_read c r : m_within locked (read self c r).
Proof.
  unfold read. apply m_within_bind; [exact _|apply locked_checkpoint|intros _].
  apply m_within_bind; [exact _|by intros w|intros _].
  apply m_within_bind; [exact _|by intros w|intros _]. destruct (_ <? _)%N; [by intros w|].
  apply m_within_bind; [exact _|apply locked_entry|intros loc].
  apply m_within_bind; [exact _|apply locked_remaining|intros rem]. cbv zeta.
  apply m_within_bind; [exact _|apply within_attempt, locked_read_journal|intros res].
  destruct (match _ with Some _ => _ | None => None end); [|by intros w].
  apply m_within_bind; [exact _|apply locked_is_cancelled|intros b]. by destruct b.
Qed.

(** A record is made while its session's records are locked. *)
Lemma bind_assoc {A B C} (m : M (ProcessWorld V) A) (f : A → M (ProcessWorld V) B)
    (g : B → M (ProcessWorld V) C) w :
  (m ≫= λ a, f a ≫= g) w = ((m ≫= f) ≫= g) w.
Proof. unfold mbind, M_bind. by destruct (m w) as [[] ?]. Qed.
Lemma forward_locked_record {A B} loc (m : M (ProcessWorld V) A) f (g : A → B) w s :
  pw_arena w !! loc = Some s → m_within locked m →
  (∀ s' a, session_locked s s' →
     session_le s' (f a s') ∧ ps_task (f a s') = ps_task s' ∧ ps_journal (f a s') = ps_journal s') →
  forward w ((m ≫= λ a, update_session loc (f a) ≫= λ _, mret (g a)) w).2.
Proof.
  intros Hs Hm Hf e Hok. unfold mbind, M_bind. destruct (Hm w e Hok) as [Hok1 Hrel1].
  destruct (m w) as [[a|x|] w1] eqn:E; cbn [snd] in *.
  - destruct (wr_session _ _ _ Hrel1 loc s Hs) as (s1 & Hs1 & Hl). destruct (Hf s1 a Hl) as (? & ? & ?).
    destruct (forward_record loc (f a) w1 s1 Hs1) with (e:=e) as [Hok2 Hrel2]; [done..|].
    split; [done|]. etrans; [|done]. destruct Hrel1 as [? Hs' ? ?]. split; [done| |done|done].
    intros i x Hx. destruct (Hs' i x Hx) as (x' & ? & ? & _). by exists x'.
  - split; [done|]. destruct Hrel1 as [? Hs' ? ?]. split; [done| |done|done].
    intros i y Hy. destruct (Hs' i y Hy) as (y' & ? & ? & _). by exists y'.
  - split; [done|]. destruct Hrel1 as [? Hs' ? ?]. split; [done| |done|done].
    intros i y Hy. destruct (Hs' i y Hy) as (y' & ? & ? & _). by exists y'.
Qed.
Lemma insert_record {K A} `{Countable K} (m m' : gmap K A) k x :
  m !! k = None → m' = m → m' ⊆ <[k := x]> m'.
Proof. intros Hk ->. by apply insert_subseteq. Qed.

Lemma forward_write_locked loc fp r : m_within forward (write_locked self loc fp r).
Proof.
  intros w. unfold write_locked, get_session. unfold mbind at 1, M_bind at 1, or_panic.
  destruct (pw_arena w !! loc) as [s|] eqn:Hs; [|done].
  destruct (ps_input_records s !! wi_write_id r) as [rec|] eqn:Hrec; [by destruct (str_eqb _ _)|].
  destruct (negb _); [done|]. rewrite bind_assoc.
  apply (forward_locked_record loc _
           (λ result s, set_input_records (<[wi_write_id r := {| ir_fingerprint := fp; ir_status := wp_status result |}]>
              (ps_input_records s)) s) (λ result, result) w s); [done| |].
  - apply m_within_bind; [exact _|apply locked_interleave|intros _].
    apply (locked_held loc), at_control_write.
  - intros s' a (_ & Hi & _). split; [|done]. apply untouched_le; [|done..]. split; cbn; try reflexivity; auto.
    by apply (insert_record (ps_input_records s)).
Qed.
Lemma forward_write c r : m_within forward (write self c r).
Proof.
  unfold write. apply m_within_bind; [exact _|apply locked_forward, locked_checkpoint|intros _].
  apply m_within_bind; [exact _|by intros w|intros _]. destruct (_ <? _)%N; [by intros w|].
  apply m_within_bind; [exact _|by intros w|intros loc].
  apply m_within_bind; [exact _|by intros w|intros fp].
  apply m_within_bind; [exact _|apply locked_forward, locked_interleave|intros _].
  apply forward_write_locked.
Qed.

Lemma forward_put_control loc (m : M (ProcessWorld V) unit) id fp result w s {B} (b : B) :
  pw_arena w !! loc = Some s → ps_control_records s !! id = None → m_within locked m →
  forward w ((m ≫= λ _, put_control_record loc id fp result ≫= λ _, mret b) w).2.
Proof.
  intros Hs Hrec Hm. unfold put_control_record.
  apply (forward_locked_record loc m
           (λ _ s, set_control_records (<[id := {| cr_fingerprint := fp; cr_result := result |}]>
              (ps_control_records s)) s) (λ _, b) w s); [done|done|].
  intros s' a (_ & _ & Hc). split; [|done]. apply untouched_le; [|done..]. split; cbn; try reflexivity; auto.
  by apply (insert_record (ps_control_records s)).
Qed.
Lemma forward_control_locked loc id fp completed action :
  m_within locked action → m_within forward (control_locked self loc id fp completed action).
Proof.
  intros Ha.
  intros w. unfold control_locked, get_session. unfold mbind at 1, M_bind at 1, or_panic.
  destruct (pw_arena w !! loc) as [s|] eqn:Hs; [|done].
  destruct (ps_control_records s !! id) as [rec|] eqn:Hrec.
  { unfold mbind, M_bind, lift. destruct (ensure_control_record _ _ _); [|done..]. by destruct (cr_result rec). }
  destruct (negb _); [done|]. rewrite bind_assoc.
  apply (forward_put_control loc _ id fp ControlUnit w s tt); [done..|].
  apply m_within_bind; [exact _|apply locked_interleave|by intros _].
Qed.
Lemma forward_control_operation loc id encoded completed action :
  m_within locked action → m_within forward (control_operation self loc id encoded completed action).
Proof.
  intros Ha. unfold control_operation. apply m_within_bind; [exact _|by intros w|intros fp].
  apply m_within_bind; [exact _|apply locked_forward, locked_interleave|intros _].
  by apply forward_control_locked.
Qed.
Lemma forward_resize c r : m_within forward (resize self c r).
Proof.
  unfold resize. apply m_within_bind; [exact _|apply locked_forward, locked_checkpoint|intros _].
  do 2 (apply m_within_bind; [exact _|by intros w|intros _]).
  apply m_within_bind; [exact _|by intros w|intros loc].
  by apply forward_control_operation, (locked_held loc), at_control_resize.
Qed.
Lemma forward_signal c r : m_within forward (signal self c r).
Proof.
  unfold signal. apply m_within_bind; [exact _|apply locked_forward, locked_checkpoint|intros _].
  apply m_within_bind; [exact _|by intros w|intros _].
  apply m_within_bind; [exact _|by intros w|intros loc].
  by apply forward_control_operation, (locked_held loc), at_control_signal.
Qed.
Lemma locked_terminate_running loc : m_within locked (terminate_running self loc).
Proof.
  unfold terminate_running. apply m_within_bind; [exact _|apply (locked_held loc), at_claim|intros _].
  apply m_within_bind; [exact _|apply within_attempt, (locked_held loc), at_control_signal|intros te].
  apply m_within_bind; [exact _|apply locked_interleave|intros _].
  apply m_within_bind; [exact _|by apply locked_same|intros s]. destruct (is_running _); [|by intros w].
  apply m_within_bind; [exact _|apply within_attempt, (locked_held loc), at_control_signal|intros k].
  by destruct k.
Qed.
Lemma forward_terminate_locked loc fp r : m_within forward (terminate_locked self loc fp r).
Proof.
  intros w. unfold terminate_locked, get_session. unfold mbind at 1, M_bind at 1, or_panic.
  destruct (pw_arena w !! loc) as [s|] eqn:Hs; [|done].
  destruct (ps_control_records s !! te_operation_id r) as [rec|] eqn:Hrec.
  { unfold mbind, M_bind, lift. destruct (ensure_control_record _ _ _); [|done..]. by destruct (cr_result rec). }
  cbv zeta. eapply (forward_put_control loc); [done..|].
  destruct (is_running _); [apply locked_terminate_running|by intros w'].
Qed.
Lemma forward_terminate c r : m_within forward (terminate self c r).
Proof.
  unfold terminate. apply m_within_bind; [exact _|apply locked_forward, locked_checkpoint|intros _].
  apply m_within_bind; [exact _|by intros w|intros _].
  apply m_within_bind; [exact _|by intros w|intros loc].
  apply m_within_bind; [exact _|by intros w|intros fp].
  apply m_within_bind; [exact _|apply locked_forward, locked_interleave|intros _].
  apply forward_terminate_locked.
Qed.
Lemma forward_shutdown : m_within forward (shutdown (V:=V)).
Proof.
  unfold shutdown. apply m_within_bind; [exact _| |intros _].
  { intros w. apply (steps_mono limit session_locked); [by intros s s' []|]. apply locked_tasks. intros e Hok.
    split; [by apply (table_eta limit e w)|]. split; cbn; auto. intros l x Hx. exists x. by repeat (split; [done|]). }
  apply m_within_bind; [exact _|by intros w|intros w].
  apply each_session_within; [exact _|]. intros loc.
  apply m_within_bind; [exact _|apply locked_forward; by apply locked_same|intros s].
  destruct (is_running _); [|by intros w'].
  apply within_ignore; [exact _|]. apply locked_forward, (locked_held loc), at_control_signal.
Qed.

(** ** Starting *)

(** What is known of the request of the session being started. *)
Context (asked : StartExecutionRequest → Prop).

Lemma grown_locked w w' : world_rel session_locked w w' → grown w w'.
Proof.
  intros [L S R _]. split; [done| |done]. intros i x Hx. destruct (S i x Hx) as (x' & ? & [? _]). by exists x'.
Qed.
(** A world in which [id] was never used and a process may still be started. *)
Record vacant (id : ExecutionId) (e : nat) (w0 w : ProcessWorld V) : Prop := {
  vc_ok : table_ok limit e w;
  vc_rel : grown w0 w;
  vc_old : ∀ i loc, pw_sessions w !! i = Some loc → pw_sessions w0 !! i = Some loc;
  vc_sessions : pw_sessions w !! id = None;
  vc_retired : id ∉ pw_retired w;
  vc_active : (pw_active w < limit)%N;
}.
(** What a start leaves: the table in order, and when it answers, the id taken. *)
Definition started_world {A} (id : ExecutionId) (e : nat) (w0 : ProcessWorld V) (out : ExecutionResult A * ProcessWorld V)
  : Prop :=
  table_ok limit e out.2 ∧ grown w0 out.2 ∧
  (∀ i loc, pw_sessions out.2 !! i = Some loc →
     pw_sessions w0 !! i = Some loc ∨ ∃ s, pw_arena out.2 !! loc = Some s ∧ spawned s = true) ∧
  (is_ok out.1 = true → ∃ loc s, pw_arena out.2 !! loc = Some s ∧ spawned s = true ∧ id_of s = id ∧
     asked (ps_request s)).
Definition failed_world (e : nat) (w0 w : ProcessWorld V) : Prop :=
  table_ok limit e w ∧ grown w0 w ∧
  ∀ i loc, pw_sessions w !! i = Some loc → pw_sessions w0 !! i = Some loc.
Lemma failed_started {A} id e w0 w (r : ExecutionResult A) :
  failed_world e w0 w → is_ok r = false → started_world id e w0 (r, w).
Proof. intros (? & ? & ?) Hr. split; [done|]. split; [done|]. cbn. rewrite Hr. split; [by auto|done]. Qed.
(** Steps that neither touch the sessions nor the table. *)
Definition native_only (w w' : ProcessWorld V) : Prop :=
  pw_sessions w' = pw_sessions w ∧ pw_retired w' = pw_retired w ∧ pw_active w' = pw_active w ∧
  pw_arena w' = pw_arena w.
#[local] Instance native_only_preorder : PreOrder native_only.
Proof. split; [by repeat split|]. intros w1 w2 w3 (?&?&?&?) (?&?&?&?). by repeat (split; [congruence|]); congruence. Qed.
Lemma native_host {A} (m : M V A) : m_within native_only (host m).
Proof. intros w. unfold host. by destruct (m _). Qed.
Lemma vacant_native id e w0 w w' : vacant id e w0 w → native_only w w' → vacant id e w0 w'.
Proof.
  intros [H1 [L S R] H2 H3 H4 H5] (E1 & E2 & E3 & E4). split; rewrite ?E1, ?E2, ?E3; try done.
  - by apply (table_eta limit e w).
  - split; rewrite ?E4, ?E2; done.
Qed.
Lemma vacant_tasks id e w0 w w' : vacant id e w0 w → tasks_step limit w w' → vacant id e w0 w'.
Proof.
  intros [H1 H2 Hold H3 H4 H5] Ht. destruct (Ht e H1) as [Hok [L S R T F C A]]. split; [done| |by auto| | |lia].
  - etrans; [done|]. apply grown_locked. by apply (locked_tasks _ _ Ht e) in H1 as [_ ?].
  - destruct (pw_sessions w' !! id) as [loc|] eqn:E; [|done]. apply T in E. congruence.
  - intros [?|[? ?]]%C; congruence.
Qed.
Lemma vacant_failed {A} id e w0 w (r : ExecutionResult A) :
  vacant id e w0 w → is_ok r = false → started_world id e w0 (r, w).
Proof. intros [] Hr. split; [done|]. split; [done|]. cbn. rewrite Hr. split; [by auto|done]. Qed.
(** Running a start's steps one after the other. *)
Lemma vacant_bind {A B} id e w0 (m : M (ProcessWorld V) A) (f : A → M (ProcessWorld V) B) :
  (∀ w, vacant id e w0 w → vacant id e w0 (m w).2) →
  (∀ a w, vacant id e w0 w → started_world id e w0 (f a w)) →
  ∀ w, vacant id e w0 w → started_world id e w0 ((m ≫= f) w).
Proof.
  intros Hm Hf w Hw. specialize (Hm w Hw). unfold mbind, M_bind.
  destruct (m w) as [[a|x|] w'] eqn:E; cbn [snd] in Hm; [by apply Hf|by apply vacant_failed..].
Qed.
Lemma vacant_step_native {A} id e w0 (m : M (ProcessWorld V) A) :
  m_within native_only m → ∀ w, vacant id e w0 w → vacant id e w0 (m w).2.
Proof. intros Hm w Hw. by eapply vacant_native, Hm. Qed.

(** A world in which a session was made for [id] and not yet installed. *)
Record allotted (id : ExecutionId) (e loc : nat) (w0 w : ProcessWorld V) : Prop := {
  at_vacant : vacant id e w0 w;
  at_beyond : length (pw_arena w0) ≤ loc;
  at_session : ∃ s, pw_arena w !! loc = Some s ∧ spawned s = false ∧ id_of s = id ∧ asked (ps_request s);
}.
Lemma world_beyond w0 w loc s :
  grown w0 w → length (pw_arena w0) ≤ loc →
  grown w0 (with_arena (<[loc := s]> (pw_arena w)) w).
Proof.
  intros [L S R] Hloc. split; cbn; [by rewrite length_insert| |done].
  intros i x Hx. rewrite list_lookup_insert_ne; [by apply S|]. apply lookup_lt_Some in Hx. lia.
Qed.
Lemma live_count_snoc arena s : live s = false → live_count (arena ++ [s]) = live_count arena.
Proof.
  intros Hs. unfold live_count. rewrite filter_app, filter_cons, decide_False by congruence.
  by rewrite filter_nil, app_nil_r.
Qed.
Lemma vacant_alloc id e w0 w s :
  vacant id e w0 w → id_of s = id → spawned s = false → unfinished s → stream_ok V s → asked (ps_request s) →
  allotted id e (length (pw_arena w)) w0 (alloc_session s w).2.
Proof.
  intros [[H1 H2 H3 H4 H5 H6 H7] [L S R] Hold Hs Hr Ha] Hid Hsp Hun Hstr Hask.
  assert (Hnew : ∀ i x, (pw_arena w ++ [s]) !! i = Some x →
    pw_arena w !! i = Some x ∨ (i = length (pw_arena w) ∧ x = s)).
  { intros i x [?|[? Hx]]%lookup_app_Some; [by left|right].
    destruct (i - length (pw_arena w)) eqn:E; [|done]. injection Hx as <-. split; [lia|done]. }
  split; [split|lia|]; cbn [alloc_session snd with_arena pw_sessions pw_retired pw_active pw_arena]; [..|done|done|done|done|].
  - split; cbn; [| | | | |done|].
    6: { intros i x [?|[_ ->]]%Hnew; [by eapply H7|done]. }
    + intros i l (x & Hx & ?)%H1. exists x. split; [|done]. by apply lookup_app_l_Some.
    + intros i x [?|[_ ->]]%Hnew; [by apply H2|congruence].
    + intros i i' x x' [?|[_ ->]]%Hnew [?|[_ ->]]%Hnew ???; [by eapply H3|congruence..].
    + intros i x [?|[_ ->]]%Hnew; [by eapply H4|done].
    + rewrite live_count_snoc; [done|]. unfold live, spawned in *. by destruct (ps_task s).
  - split; cbn; [rewrite length_app; lia| |done].
    intros i x Hx. destruct (S i x Hx) as (x' & ? & ?). exists x'. split; [by apply lookup_app_l_Some|done].
  - exists s. split; [|done]. by apply list_lookup_middle.
Qed.
Lemma wrap_add n : (n < limit)%N → u32_wrap_add n = (n + 1)%N.
Proof. intros Hn. unfold u32_wrap_add, u32_max in *. apply N.mod_small. lia. Qed.

(** A session in the table that has no tasks yet. *)
Record installing (id : ExecutionId) (e loc : nat) (w0 w : ProcessWorld V) : Prop := {
  in_ok : table_ok limit (S e) w;
  in_rel : grown w0 w;
  in_old : ∀ i l, i ≠ id → pw_sessions w !! i = Some l → pw_sessions w0 !! i = Some l;
  in_beyond : length (pw_arena w0) ≤ loc;
  in_sessions : pw_sessions w !! id = Some loc;
  in_session : ∃ s, pw_arena w !! loc = Some s ∧ spawned s = false ∧ id_of s = id ∧ asked (ps_request s);
}.
Lemma install_table id e loc w0 w :
  allotted id e loc w0 w →
  installing id e loc w0
    (with_active (u32_wrap_add (pw_active w)) (with_sessions (<[id := loc]> (pw_sessions w)) w)).
Proof.
  intros [[[H1 H2 H3 H4 H5 H6 H7] [L S R] Hold Hs Hr Ha] Hb (s & Hl & Hsp & Hid & Hask)].
  split; cbn [with_active with_sessions pw_sessions pw_arena]; [..|by rewrite lookup_insert_eq|by exists s]; [| | |done].
  - split; cbn; auto.
    + intros i l [[<- <-]|[_ Hi]]%lookup_insert_Some; [by exists s|by apply H1].
    + intros l x Hx Hspx. assert (id ≠ id_of x).
      { intros Heq. destruct (H2 l x Hx Hspx) as [?|[? ?]]; congruence. }
      rewrite lookup_insert_ne by done. by apply H2.
    + rewrite wrap_add by done. lia.
    + rewrite wrap_add by done. lia.
  - by split.
  - intros i l Hi. rewrite lookup_insert_ne by done. apply Hold.
Qed.

Lemma installing_tasks id e loc w0 w w' :
  installing id e loc w0 w → tasks_step limit w w' → installing id e loc w0 w'.
Proof.
  intros [H1 H2 Hold H3 H4 (s & Hl & Hsp & Hid & Hask)] Ht. destruct (Ht (S e) H1) as [Hok [L S R T F C A]].
  split; [done| |by auto|done|by eapply F|].
  - etrans; [done|]. apply grown_locked. by apply (locked_tasks _ _ Ht _) in H1 as [_ ?].
  - destruct (S loc s Hl) as (s' & Hs' & _ & _ & _ & Heq). exists s. rewrite <-(Heq Hsp) at 1. done.
Qed.
(** Replacing the session being installed. *)
Lemma installing_set id e e' loc w0 w s s' :
  installing id e loc w0 w → pw_arena w !! loc = Some s → id_of s' = id →
  spawned s' = false → unfinished s' → stream_ok V s' → asked (ps_request s') →
  installing id e loc w0 (with_arena (<[loc := s']> (pw_arena w)) w) ∧
  (live s' = false → e' = S e → table_ok limit e' (with_arena (<[loc := s']> (pw_arena w)) w)).
Proof.
  intros [H1 H2 Hold H3 H4 (s0 & Hl & Hsp & Hid & Hask)] Hs Hid' Hsp' Hun Hstr Hask'.
  assert (s0 = s) as -> by congruence.
  assert (Hlv : live s = false) by (unfold live, spawned in *; by destruct (ps_task s)).
  assert (Hlv' : live s' = false) by (unfold live, spawned in *; by destruct (ps_task s')).
  assert (Hok : table_ok limit (S e) (with_arena (<[loc := s']> (pw_arena w)) w)).
  { apply (table_set limit (S e) (S e) w loc s); [done|done|congruence|congruence|done|done|by rewrite Hlv, Hlv']. }
  split; [|by intros _ ->]. split; [done|by apply world_beyond|exact Hold|exact H3|exact H4|].
  exists s'. split; [|done]. apply list_lookup_insert_eq. by eapply lookup_lt_Some.
Qed.
(** Spawning the tasks makes it a session like the others. *)
Lemma spawn_table id e loc w0 w s s' :
  installing id e loc w0 w → pw_arena w !! loc = Some s → id_of s' = id → ps_task s' = TaskWaiting →
  stream_ok V s' → asked (ps_request s') →
  started_world id e w0 (Ok tt : ExecutionResult unit, with_arena (<[loc := s']> (pw_arena w)) w).
Proof.
  intros [[H1 H2 H3 H4 H5 H6 H7] HR Hold Hb Hs (s0 & Hl & Hsp & Hid & Hask)] Hs0 Hid' Ht Hstr Hask'.
  assert (s0 = s) as -> by congruence. clear Hs0.
  assert (Hlt : loc < length (pw_arena w)) by (by eapply lookup_lt_Some).
  assert (Hlv : live s = false) by (unfold live, spawned in *; by destruct (ps_task s)).
  assert (Hlv' : live s' = true) by (unfold live; by rewrite Ht).
  assert (Hsp' : spawned s' = true) by (unfold spawned; by rewrite Ht).
  assert (Hno : ∀ l x, pw_arena w !! l = Some x → spawned x = true → id_of x ≠ id).
  { intros l x Hx Hspx Heq. destruct (H2 l x Hx Hspx) as [Hx'|[Hx' _]]; rewrite Heq in Hx'; congruence. }
  split; [|split; [|split]]; cbn [snd fst].
  - split; cbn.
    + intros i l (x & Hx & ?)%H1. destruct (decide (l = loc)) as [->|Hne].
      * exists s'. split; [by apply list_lookup_insert_eq|congruence].
      * exists x. by rewrite list_lookup_insert_ne.
    + intros i x [[-> ->]|[_ ?]]%lookup_insert_cases; [left; congruence|by apply H2].
    + intros i i' x x' [[-> ->]|[_ Hx]]%lookup_insert_cases [[-> ->]|[_ Hx']]%lookup_insert_cases ? ? Heq;
        [done| | |by eapply H3].
      * destruct (Hno _ _ Hx'); congruence.
      * destruct (Hno _ _ Hx); congruence.
    + intros i x [[-> ->]|[_ ?]]%lookup_insert_cases; [congruence|by eapply H4].
    + pose proof (live_count_insert _ _ _ s' Hl) as Hc. rewrite Hlv, Hlv' in Hc. rewrite H5. lia.
    + done.
    + intros i x [[-> ->]|[_ ?]]%lookup_insert_cases; [done|by eapply H7].
  - by apply world_beyond.
  - intros i l Hi. cbn in Hi. destruct (decide (i = id)) as [->|Hne]; [|left; by apply Hold].
    rewrite Hs in Hi. injection Hi as <-. right. exists s'. split; [by apply list_lookup_insert_eq|done].
  - intros _. exists loc, s'. split; [by apply list_lookup_insert_eq|done].
Qed.
(** Giving up: the table forgets the session. *)
Lemma uninstall_table id e loc w0 w :
  installing id e loc w0 w →
  let w' := with_active (u32_wrap_sub (pw_active w)) (with_sessions (delete id (pw_sessions w)) w) in
  failed_world e w0 w'.
Proof.
  intros [[H1 H2 H3 H4 H5 H6 H7] HR Hold Hb Hs (s & Hl & Hsp & Hid & Hask)] w'.
  assert (Hno : ∀ l x, pw_arena w !! l = Some x → spawned x = true → id_of x ≠ id).
  { intros l x Hx Hspx Heq. destruct (H2 l x Hx Hspx) as [Hx'|[Hx' _]]; rewrite Heq in Hx'; congruence. }
  split; [|split; [by destruct HR|]].
  2: { intros i l Hi. unfold w' in Hi. cbn in Hi. apply lookup_delete_Some in Hi as [Hne Hi]. by apply Hold. }
  assert (Hok' : table_ok limit (S e) (with_sessions (delete id (pw_sessions w)) w)).
  { split; cbn; auto.
    - intros i l [_ Hi]%lookup_delete_Some. by apply H1.
    - intros l x Hx Hspx. rewrite lookup_delete_ne; [by apply H2|]. intros Heq. by destruct (Hno l x). }
  exact (table_release self Hlimit e _ Hok').
Qed.

Lemma mark_started_keeps t j :
  let j' := (mark_started t j).2 in
  (mark_started t j).1 ≠ Panic ∧ finished_at (js j') = finished_at (js j) ∧
  closed (js j') = closed (js j) ∧ exit_code (js j') = exit_code (js j) ∧ state (js j') = Running.
Proof.
  unfold mark_started, append_locked, append_record.
  unfold mbind, M_bind, modify, get_state, lift, mret, M_ret. cbn [set_js js].
  destruct (encode_event _) as [m|b]; [by split|]. cbn [outcomes set_js].
  destruct (outcomes j) as [|[] ?]; by split.
Qed.
(** Marking a new session as started keeps its journal in order. *)
Lemma mark_started_stream t s :
  unfinished s → stream_ok V s → stream_ok V (set_journal (mark_started t (ps_journal s)).2 s).
Proof.
  intros (Hfin & Hcl & Hex) [_ Hs]. destruct (mark_started_keeps t (ps_journal s)) as (_ & _ & _ & _ & Hst).
  split; [intros _; cbn; by rewrite Hst|]. intros He Ha. destruct (Hs He Ha) as [Ho Hinv]. cbn [ps_journal set_journal].
  set (j := ps_journal s) in *. set (j0 := set_js (set_started_at t (set_state Running (js j))) j).
  destruct (append_locked_total t EvStarted j0 He Ho) as (j' & Happ & Ho' & _).
  assert (Hm : mark_started t j = (Ok t, j')).
  { unfold mark_started. rewrite (M_bind_ok _ _ j tt j0) by done. by rewrite (M_bind_ok _ _ _ _ _ Happ). }
  rewrite Hm. split; [done|]. intros Hfit. cbn [snd] in *.
  assert (Hfit0 : fits j) by (eapply append_locked_mono in Happ; [|exact Hfit]; exact Happ).
  destruct (Hinv Hfit0) as (l & Hpre & Hrep & [Lx Lt Lc Lct]).
  apply (append_plain_inv [] t EvStarted j0 j'); [|done..].
  exists l. split; [done|]. split; [by apply (repr_modify (λ s, set_started_at t (set_state Running s)))|].
  unfold j0. split; cbn [set_js js set_started_at set_state exit_code closed state]; [done|by rewrite Hex; intros []|done|by rewrite Hcl].
Qed.
Lemma install_session_ok id e loc w0 w :
  allotted id e loc w0 w →
  match install_session self loc w with
  | (Ok _, w') => installing id e loc w0 w'
  | (_, w') => failed_world e w0 w'
  end.
Proof.
  intros Hal. pose proof (install_table _ _ _ _ _ Hal) as Hin.
  destruct Hal as [_ _ (s & Hl & Hsp & Hid & Hask)].
  unfold install_session. rewrite (M_bind_ok _ _ w s w) by (unfold get_session; by rewrite Hl).
  cbv zeta. change (se_execution_id (ps_request s)) with (id_of s). rewrite Hid.
  set (w1 := with_active _ _) in Hin.
  do 2 (rewrite (M_bind_ok (modify_world _) _ _ tt _) by done). fold w1.
  assert (Hil : ∀ w, (interleave (V:=V) self w).1 = Ok tt) by (intros x; unfold interleave; by destruct (pw_schedule x)).
  pose proof (interleave_step self Hlimit w1) as Hstep. specialize (Hil w1).
  destruct (interleave self w1) as [r w2] eqn:Ei. cbn [fst snd] in *. subst r.
  rewrite (M_bind_ok _ _ w1 tt w2) by done.
  pose proof (installing_tasks _ _ _ _ _ _ Hin Hstep) as Hin2.
  destruct (now (V:=V) w2) as [r w3] eqn:En.
  assert (Hnow : ∃ t, r = Ok t).
  { unfold now, host_do, host in En. destruct (ph_now (pw_native w2)). injection En as <- _. eauto. }
  destruct Hnow as [t ->]. rewrite (M_bind_ok _ _ w2 t w3) by done.
  assert (Hin3 : installing id e loc w0 w3).
  { eapply installing_tasks; [done|]. pose proof (tasks_host self (λ v, let '(a, v) := ph_now v in (Ok a, v)) w2) as Hh.
    unfold now, host_do in En. by rewrite En in Hh. }
  destruct (in_session _ _ _ _ _ Hin3) as (s3 & Hl3 & Hsp3 & Hid3 & Hask3).
  unfold attempt. unfold mbind at 1, M_bind at 1. unfold on_journal. rewrite Hl3.
  destruct (mark_started_keeps t (ps_journal s3)) as (Hnp & Hfin & Hclo & Hexi & Hrun).
  assert (Hun3 : unfinished s3) by (by eapply to_unfinished; [apply Hin3|..]).
  pose proof (mark_started_stream t s3 Hun3 (to_stream _ _ _ (in_ok _ _ _ _ _ Hin3) _ _ Hl3)) as Hstr.
  destruct (mark_started t (ps_journal s3)) as [r j]. cbn [fst snd] in *.
  destruct (installing_set id e e loc w0 w3 s3 (set_journal j s3)) as [Hin4 _]; [done..| |exact Hstr|exact Hask3|].
  { unfold unfinished. cbn. rewrite Hfin, Hclo, Hexi. exact Hun3. }
  destruct r as [|source|]; [exact Hin4| |done].
  destruct (uninstall_table _ _ _ _ _ Hin4) as (Hok5 & Hrel5 & Hold5).
  do 2 (rewrite (M_bind_ok (modify_world _) _ _ tt _) by done). unfold mbind, M_bind.
  match type of Hok5 with table_ok _ _ ?x => set (w5 := x) in * end.
  match goal with |- context [ignore (control_signal loc SigKill) ?x] => change x with w5 end.
  assert (Hsig : m_within locked (ignore (control_signal (V:=V) loc SigKill))).
  { apply within_ignore; [exact _|]. apply (locked_held loc), at_control_signal. }
  destruct (Hsig w5 e Hok5) as [Hok6 Hrel6].
  assert (Hf : failed_world e w0 (ignore (control_signal (V:=V) loc SigKill) w5).2).
  { split; [done|]. split; [etrans; [done|by apply grown_locked]|]. intros i l Hi. eapply Hold5, wr_sessions; done. }
  by destruct (ignore _ w5) as [[] ?].
Qed.

Lemma spawned_stream s s' :
  stream_ok V s → spawned s = false → ps_journal s' = ps_journal s → ps_request s' = ps_request s →
  stream_ok V s'.
Proof.
  intros [Hf Hs] Hsp Hj Hr. split; [|by rewrite Hj]. intros Hd Hterm. rewrite Hr in Hd. rewrite Hj in Hterm.
  destruct (Hf Hd Hterm) as [_ Ht]. unfold spawned in Hsp. by rewrite Ht in Hsp.
Qed.
(** What the two ways of launching share. *)
Definition launch (loc : nat) (streams : list ProcessOutputStream) : M (ProcessWorld V) ExecutionHandle :=
  _ ← install_session self loc; _ ← spawn_tasks loc streams; session_handle self loc.
Lemma launch_ok id e loc w0 w streams :
  allotted id e loc w0 w → started_world id e w0 (launch loc streams w).
Proof.
  intros Hal. pose proof (install_session_ok _ _ _ _ _ Hal) as Hin. unfold launch, mbind, M_bind.
  destruct (install_session self loc w) as [[[]|x|] w1];
    [|by apply failed_started..].
  destruct (in_session _ _ _ _ _ Hin) as (s & Hl & Hsp & Hid & Hask).
  unfold spawn_tasks, update_session, modify_world. rewrite (alter_insert _ _ _ _ Hl).
  unfold session_handle, get_session, mbind, M_bind, or_panic. cbn [with_arena pw_arena].
  rewrite list_lookup_insert_eq by (by eapply lookup_lt_Some).
  apply (spawn_table id e loc w0 w1 s); try done.
  apply (spawned_stream s); [by eapply to_stream; [apply Hin|]|done..].
Qed.
Lemma allotted_held {A} id e loc w0 w (m : M (ProcessWorld V) A) :
  allotted id e loc w0 w → m_within (at_loc session_held loc) m →
  failed_world e w0 (m w).2.
Proof.
  intros [[Hok Hrel Hold _ _ _] _ _] Hm. destruct (locked_held loc m Hm w e Hok) as [Hok' Hrel'].
  split; [done|]. split; [etrans; [done|by apply grown_locked]|]. intros i l Hi. eapply Hold, wr_sessions; done.
Qed.

(** As [vacant_bind], keeping what the step says of its result. *)
Lemma vacant_bind_post {A B} (Q : A → Prop) id e w0 (m : M (ProcessWorld V) A) (f : A → M (ProcessWorld V) B) :
  m_within native_only m → m_post m Q →
  (∀ a w, Q a → vacant id e w0 w → started_world id e w0 (f a w)) →
  ∀ w, vacant id e w0 w → started_world id e w0 ((m ≫= f) w).
Proof.
  intros Hm Hq Hf w Hw. specialize (Hm w). apply (vacant_native _ _ _ _ _ Hw) in Hm. unfold mbind, M_bind.
  specialize (Hq w). destruct (m w) as [[a|x|] w'] eqn:E; cbn [snd] in Hm; [|by apply vacant_failed..].
  apply Hf; [by eapply Hq|done].
Qed.
Lemma native_create_journal directory : m_within native_only (create_journal (V:=V) directory).
Proof.
  unfold create_journal. apply m_within_bind; [exact _|apply native_host|intros _].
  apply m_within_bind; [exact _|apply native_host|by intros o w].
Qed.
(** The journal of a process not yet launched. *)
Definition created (j : Journal) : Prop :=
  js j = initial_state ∧ (encodes → appends_succeed V → outcomes j = [] ∧ journal_inv [] j).
Lemma create_journal_created directory : m_post (create_journal (V:=V) directory) created.
Proof.
  intros w j w' H. unfold create_journal in H. apply M_bind_ok_inv in H as (u & w1 & _ & H).
  apply M_bind_ok_inv in H as (o & w2 & Hlog & H). injection H as <- _. split; [done|]. intros He Ha.
  assert (o = []) as ->.
  { unfold host, await_io in Hlog. destruct (ph_create_log _ _) as [[x|outs] n] eqn:E; [done|].
    injection Hlog as <- _. by eapply Ha. }
  split; [done|]. exists []. split; [done|]. split.
  - split; try done; vm_compute; discriminate.
  - split; try done. by intros [? ?].
Qed.
Lemma created_session request directory j control :
  created j → unfinished (new_session request directory j control) ∧
  stream_ok V (new_session request directory j control).
Proof.
  intros [Hj Hs]. split; [unfold unfinished; cbn; by rewrite Hj|]. split; [intros _; cbn; by rewrite Hj|].
  intros He Ha. by destruct (Hs He Ha).
Qed.
Lemma native_persist directory request : m_within native_only (persist_start_request (V:=V) directory request).
Proof.
  unfold persist_start_request. apply m_within_bind; [exact _|by intros w|intros b]. apply native_host.
Qed.

Lemma allotted_native id e loc w0 w w' : allotted id e loc w0 w → native_only w w' → allotted id e loc w0 w'.
Proof.
  intros [Hv Hb Hs] Hn. split; [by eapply vacant_native|done|]. destruct Hn as (_ & _ & _ & ->). done.
Qed.

Ltac native_step := apply vacant_step_native; first [apply native_host | by intros ?].
Lemma start_piped_ok e w0 request cwd directory w :
  asked request → vacant (se_execution_id request) e w0 w →
  started_world (se_execution_id request) e w0 (start_piped self request cwd directory w).
Proof.
  intros Hask. revert w. unfold start_piped.
  eapply vacant_bind_post; [apply native_create_journal|apply create_journal_created|].
  intros journal w1 Hj Hw1. revert w1 Hw1.
  apply vacant_bind; [apply vacant_step_native, native_persist|intros _].
  apply vacant_bind; [native_step|intros child].
  apply vacant_bind; [native_step|intros child'].
  apply vacant_bind; [native_step|intros pid]. cbv zeta. intros w Hw.
  rewrite (M_bind_ok (alloc_session _) _ w (length (pw_arena w)) _ eq_refl).
  apply (launch_ok _ e _ w0 _ [Stdout; Stderr]). by apply vacant_alloc; try apply (created_session request).
Qed.
Lemma pty_readiness_ok id e loc w0 w pid request :
  allotted id e loc w0 w →
  match pty_readiness (V:=V) loc pid request w with
  | (Ok _, w') => allotted id e loc w0 w'
  | (_, w') => failed_world e w0 w'
  end.
Proof.
  intros Hal. unfold pty_readiness. case_decide; [|done].
  unfold host_do, host. unfold mbind, M_bind.
  destruct (ph_pty_readiness (pw_native w)) as [[failure|[]] n];
    (assert (Hal2 : allotted id e loc w0 (with_native n w))
      by (eapply allotted_native; [exact Hal|by repeat split])); [|exact Hal2].
  assert (Hm : m_within (at_loc session_held loc)
    (_ ← ignore (control_signal (V:=V) loc SigKill); _ ← host_unit (ph_reap pid); throw (A:=unit) failure)).
  { apply m_within_bind; [exact _| |intros _; apply m_within_bind; [exact _|apply at_host; exact _|by intros _ x]].
    apply within_ignore; [exact _|]. apply at_control_signal. }
  pose proof (allotted_held _ _ _ _ _ _ Hal2 Hm) as Hf. clear Hm Hal2.
  unfold mbind, M_bind in *. destruct (ignore _ _) as [[] w1]; exact Hf.
Qed.
Lemma start_pty_ok e w0 request cwd directory columns rows w :
  asked request → vacant (se_execution_id request) e w0 w →
  started_world (se_execution_id request) e w0 (start_pty self request cwd directory columns rows w).
Proof.
  intros Hask. revert w. unfold start_pty.
  eapply vacant_bind_post; [apply native_create_journal|apply create_journal_created|].
  intros journal w1 Hj Hw1. revert w1 Hw1.
  apply vacant_bind; [apply vacant_step_native, native_persist|intros _].
  do 8 (apply vacant_bind; [native_step|intros ?]).
  apply vacant_bind; [native_step|intros pid]. intros w Hw.
  set (id := se_execution_id request) in *.
  match goal with |- context [alloc_session ?s] =>
    assert (Hal : allotted id e (length (pw_arena w)) w0 (alloc_session s w).2)
      by (by apply vacant_alloc; try apply (created_session request));
    rewrite (M_bind_ok (alloc_session s) _ w (length (pw_arena w)) (alloc_session s w).2 eq_refl);
    revert Hal; generalize (length (pw_arena w)), (alloc_session s w).2; intros loc w1 Hal
  end.
  pose proof (pty_readiness_ok id e loc w0 w1 pid request Hal) as Hr. unfold mbind at 1, M_bind at 1.
  destruct (pty_readiness loc pid request w1) as [[[]|x|] w2]; [by apply launch_ok|..];
    by apply failed_started.
Qed.

(** Between operations every session in the table has its tasks. *)
Definition table_ready (w : ProcessWorld V) : Prop :=
  ∀ id loc s, pw_sessions w !! id = Some loc → pw_arena w !! loc = Some s → spawned s = true.
Lemma session_le_spawned s s' : session_le s s' → spawned s = true → spawned s' = true.
Proof.
  intros Hle Hs. pose proof (sl_spawned _ _ Hle) as Hsp. unfold spawned in *.
  destruct (ps_task s); [done|..]; destruct (ps_task s'); try done; by destruct Hsp.
Qed.
Lemma ready_sessions e w w' :
  table_ok limit e w → table_ready w →
  (∀ loc s, pw_arena w !! loc = Some s → ∃ s', pw_arena w' !! loc = Some s' ∧ session_le s s') →
  (∀ i loc, pw_sessions w' !! i = Some loc →
     pw_sessions w !! i = Some loc ∨ ∃ s, pw_arena w' !! loc = Some s ∧ spawned s = true) →
  table_ready w'.
Proof.
  intros Hok Hready Hgrow Hold id loc s Hid Hs. destruct (Hold id loc Hid) as [Hw|(x & Hx & ?)]; [|congruence].
  destruct (to_sessions _ _ _ Hok id loc Hw) as (s0 & Hs0 & _).
  destruct (Hgrow loc s0 Hs0) as (s' & Hs' & Hle). assert (s' = s) as -> by congruence.
  eapply session_le_spawned; [done|]. by eapply Hready.
Qed.
Lemma tasks_checkpoint c : m_within (tasks_step limit) (checkpointM (W:=ProcessWorld V) c).
Proof.
  intros w. unfold checkpointM. cbn. destruct (observe (cancellation c) (pw_native w)) as [[b t] n].
  cbn [snd]. intros e Hok. split; [by apply (table_eta limit e w)|].
  split; cbn; auto. intros l x Hx. exists x. by repeat (split; [done|]).
Qed.
Lemma started_after {A} id e w w1 (out : ExecutionResult A * ProcessWorld V) :
  table_ok limit e w → tasks_step limit w w1 → started_world id e w1 out → started_world id e w out.
Proof.
  intros Hok Ht (Hok2 & Hg & Hold & Hout). destruct (Ht e Hok) as [Hok1 Hrel].
  destruct (locked_tasks _ _ Ht e Hok) as [_ Hl]. split; [done|]. split; [etrans; [by apply grown_locked|done]|].
  split; [|done]. intros i loc [Hi|?]%Hold; [left; by eapply tk_sessions|by right].
Qed.
Lemma start_bind {A B} id e (m : M (ProcessWorld V) A) (f : A → M (ProcessWorld V) B) :
  m_within (tasks_step limit) m →
  (∀ a w, table_ok limit e w → table_ready w → started_world id e w (f a w)) →
  ∀ w, table_ok limit e w → table_ready w → started_world id e w ((m ≫= f) w).
Proof.
  intros Hm Hf w Hok Hready. specialize (Hm w). unfold mbind, M_bind.
  destruct (Hm e Hok) as [Hok1 Hrel].
  assert (Hready1 : table_ready (m w).2).
  { apply (ready_sessions e w); [done|done| |].
    - intros loc s Hs. destruct (tk_session _ _ Hrel loc s Hs) as (s' & ? & ? & _). by exists s'.
    - intros i loc Hi. left. by eapply tk_sessions. }
  destruct (m w) as [[a|x|] w1]; cbn [snd] in *; (eapply started_after; [done..|]); [by apply Hf|by apply failed_started..].
Qed.
Lemma tasks_lift {A} (r : ExecutionResult A) : m_within (tasks_step limit) (lift r : M (ProcessWorld V) A).
Proof. by intros w. Qed.
Lemma started_here {A} id e w (r : ExecutionResult A) :
  table_ok limit e w → (is_ok r = true → ∃ loc s, pw_arena w !! loc = Some s ∧ spawned s = true ∧ id_of s = id ∧
     asked (ps_request s)) →
  started_world id e w (r, w).
Proof. intros Hok Hr. split; [done|]. split; [done|]. split; [by left|done]. Qed.

Lemma start_ok c request e w :
  asked request → table_ok limit e w → table_ready w →
  started_world (se_execution_id request) e w (start self c request w).
Proof.
  intros Hask. revert w. set (id := se_execution_id request). unfold start. cbv zeta. fold id.
  apply start_bind; [apply tasks_checkpoint|intros _].
  apply start_bind; [apply tasks_lift|intros _]. apply start_bind; [apply tasks_lift|intros _].
  apply start_bind; [by apply interleave_step|intros _].
  intros w Hok Hready. unfold start_gated. cbv zeta. fold id.
  rewrite (M_bind_ok get_world _ w w w) by done.
  destruct (pw_sessions w !! id) as [loc|] eqn:Hid.
  { destruct (to_sessions _ _ _ Hok id loc Hid) as (s & Hs & Hids).
    rewrite (M_bind_ok _ _ w s w) by (unfold get_session; by rewrite Hs).
    case_decide as Hreq; [|by apply started_here].
    unfold session_handle. rewrite (M_bind_ok _ _ w s w) by (unfold get_session; by rewrite Hs).
    apply started_here; [done|]. intros _. exists loc, s. split; [done|].
    split; [by eapply Hready|]. split; [done|by rewrite Hreq]. }
  case_decide; [by apply started_here|]. destruct (operation_in_use _ _); [by apply started_here|].
  destruct (N.leb_spec limit (pw_active w)); [by apply started_here|].
  assert (Hv : vacant id e w w) by done. revert Hv. generalize w at 1 3 as w0.
  clear Hok Hready Hid H H0. intros w0 Hv. revert w Hv.
  apply vacant_bind; [intros w Hw; eapply vacant_tasks; [done|apply tasks_checkpoint]|intros _].
  apply vacant_bind; [native_step|intros cwd]. apply vacant_bind; [native_step|intros metadata].
  apply vacant_bind; [apply vacant_step_native; by destruct (is_dir _)|intros _].
  apply vacant_bind; [native_step|intros ex].
  apply vacant_bind; [apply vacant_step_native; destruct ex; [apply native_host|by intros ?]|intros _].
  apply vacant_bind; [native_step|intros _].
  apply vacant_bind; [intros w Hw; eapply vacant_tasks; [done|by apply interleave_step]|intros _].
  intros w Hw. destruct (se_stdin request); [by apply start_piped_ok..|by apply start_pty_ok].
Qed.

End clients.

(** ** Reachable worlds *)

Section reachable.
Context {V : Type} `{!World V, !NativeFs V, !ProcessHost V}.
Context {dbg : DebugStr} {dig : Digest} {shells : ShellHost}.
Context {jcodec : JournalCodec} {codec : ProcessCodec}.
Context (self : ProcessManager).
Implicit Types w : ProcessWorld V.
Abbreviation limit := (sl_max_concurrent_processes (pm_limits self)).

(** One step of the runtime: a client's call, with whatever outcome and whatever
    tasks running during it; tasks between calls; a change of the host. *)
Inductive mstep w : ProcessWorld V → Prop :=
  | step_start c r : mstep w (start self c r w).2
  | step_read c r : mstep w (read self c r w).2
  | step_write c r : mstep w (write self c r w).2
  | step_resize c r : mstep w (resize self c r w).2
  | step_signal c r : mstep w (signal self c r w).2
  | step_terminate c r : mstep w (terminate self c r w).2
  | step_shutdown : mstep w (shutdown w).2
  | step_tasks ts : mstep w (run_tasks self ts w)
  | step_host schedule native : mstep w (with_schedule schedule (with_native native w)).
Definition reachable w : Prop := ∃ schedule native, rtc mstep (initial_world schedule native) w.

Context (Hlimit : (limit ≤ u32_max)%N).
Definition manager_inv w : Prop := table_ok limit 0 w ∧ table_ready w.
Lemma forward_inv {A} (m : M (ProcessWorld V) A) w :
  m_within (steps limit session_le) m → manager_inv w → manager_inv (m w).2 ∧ grown w (m w).2.
Proof.
  intros Hm [Hok Hready]. destruct (Hm w 0 Hok) as [Hok' Hrel]. split; [split; [done|]|].
  - apply (ready_sessions self 0 w); [done|done|apply Hrel|]. intros i l Hi. left. by eapply wr_sessions.
  - by destruct Hrel.
Qed.
Lemma mstep_inv w w' : mstep w w' → manager_inv w → manager_inv w' ∧ grown w w'.
Proof.
  intros Hs Hinv. destruct Hs.
  - destruct Hinv as [Hok Hready].
    destruct (start_ok self Hlimit (λ _, True) c r 0 w I Hok Hready) as (Hok' & Hg & Hold & _).
    split; [split; [done|]|done]. by apply (ready_sessions self 0 w); [| |apply Hg|].
  - by apply forward_inv; [apply locked_forward, locked_read|].
  - by apply forward_inv; [apply forward_write|].
  - by apply forward_inv; [apply forward_resize|].
  - by apply forward_inv; [apply forward_signal|].
  - by apply forward_inv; [apply forward_terminate|].
  - by apply forward_inv; [apply forward_shutdown|].
  - apply (forward_inv (λ w, (Ok tt : ExecutionResult unit, run_tasks self ts w))); [|done].
    intros x. apply (steps_mono limit session_locked); [by intros s s' []|].
    apply (locked_tasks self Hlimit). exact (run_tasks_step self Hlimit ts x).
  - destruct Hinv as [Hok Hready]. split; [split; [by apply (table_eta limit 0 w)|done]|].
    split; [done| |done]. intros loc s Hs. by exists s.
Qed.
Lemma initial_inv schedule native : manager_inv (initial_world schedule native).
Proof.
  split; [|done]. split; cbn [initial_world pw_sessions pw_arena pw_active]; try done. apply N.le_0_l.
Qed.
Lemma later_inv w w' : rtc mstep w w' → manager_inv w → manager_inv w' ∧ grown w w'.
Proof.
  induction 1 as [w|w1 w2 w3 H12 _ IH]; intros Hinv; [split; [done|reflexivity]|].
  destruct (mstep_inv _ _ H12 Hinv) as [Hinv2 Hg]. destruct (IH Hinv2) as [? ?]. split; [done|by etrans].
Qed.
Lemma reachable_inv w : reachable w → manager_inv w.
Proof. intros (sch & n & Hr). destruct (later_inv _ _ Hr (initial_inv sch n)) as [? _]. done. Qed.

(** What a call does that finds its identifier already used: observations, and the
    tasks that run while it waits for a lock. *)
Definition only_waits (c : OperationContext) w w' : Prop :=
  let w1 := (checkpointM c w).2 in w' = w1 ∨ w' = (interleave self w1).2.
(** An id once used stays used, under the session it was used for. *)
Lemma still_claimed w w2 loc s :
  manager_inv w → rtc mstep w w2 → pw_arena w !! loc = Some s → spawned s = true →
  manager_inv w2 ∧ (∃ s2, pw_arena w2 !! loc = Some s2 ∧ session_le s s2 ∧
    (pw_sessions w2 !! id_of s = Some loc ∨ (pw_sessions w2 !! id_of s = None ∧ id_of s ∈ pw_retired w2))).
Proof.
  intros Hinv Hr Hs Hsp. destruct (later_inv _ _ Hr Hinv) as [Hinv2 Hg]. split; [done|].
  destruct (gr_session _ _ Hg loc s Hs) as (s2 & Hs2 & Hle). exists s2. split; [done|]. split; [done|].
  pose proof (to_spawned _ _ _ (proj1 Hinv2) loc s2 Hs2 (session_le_spawned _ _ Hle Hsp)) as Hc.
  unfold id_of in *. by rewrite (sl_request _ _ Hle) in Hc.
Qed.
(** The same after observing and after waiting. *)
Lemma waiting_tasks c w :
  tasks_step limit w (checkpointM c w).2 ∧ tasks_step limit w (interleave self (checkpointM c w).2).2.
Proof.
  split; [apply tasks_checkpoint|]. etrans; [apply tasks_checkpoint|by apply interleave_step].
Qed.
Lemma claimed_after w w' loc s :
  manager_inv w → tasks_step limit w w' → pw_arena w !! loc = Some s → spawned s = true →
  (pw_sessions w' !! id_of s = Some loc ∧ ∃ s', pw_arena w' !! loc = Some s' ∧ session_le s s' ∧
     ps_input_records s' = ps_input_records s ∧ ps_control_records s' = ps_control_records s)
  ∨ (pw_sessions w' !! id_of s = None ∧ id_of s ∈ pw_retired w').
Proof.
  intros [Hok _] Ht Hs Hsp. destruct (Ht 0 Hok) as [Hok' Hrel].
  destruct (tk_session _ _ Hrel loc s Hs) as (s' & Hs' & Hle & Hi & Hc & _).
  pose proof (to_spawned _ _ _ Hok' loc s' Hs' (session_le_spawned _ _ Hle Hsp)) as Hcl.
  unfold id_of in *. rewrite (sl_request _ _ Hle) in Hcl. destruct Hcl; [left|by right].
  split; [done|]. by exists s'.
Qed.

(** A call up to the point where it waits for a lock: either it failed before, with
    nothing but observations made, or it goes on in the world after the wait. *)
Lemma after_checkpoint {A} c (k : M (ProcessWorld V) A) w :
  let w1 := (checkpointM c w).2 in
  let out := (_ ← checkpointM c; k) w in
  (out.2 = w1 ∧ is_ok out.1 = false) ∨ out = k w1.
Proof.
  intros w1 out. unfold out, w1, mbind, M_bind.
  destruct (checkpointM c w) as [[[]|x|] w3]; cbn; [by right|by left..].
Qed.
Lemma after_guard {A B} (guard : ExecutionResult B) (k : B → M (ProcessWorld V) A) w :
  let out := (b ← lift guard; k b) w in
  (out.2 = w ∧ is_ok out.1 = false) ∨ ∃ b, guard = Ok b ∧ out = k b w.
Proof. intros out. unfold out, lift, mbind, M_bind. destruct guard as [b|x|]; [right; by exists b|by left..]. Qed.
Lemma bind_interleave {A} (k : M (ProcessWorld V) A) w :
  (_ ← interleave self; k) w = k (interleave self w).2.
Proof.
  unfold mbind, M_bind, interleave. by destruct (pw_schedule w).
Qed.

(** C9. A start is carried out at most once.  Once a start has answered with a handle,
    any later start of the same execution id, after any further calls and tasks,
    only observes and waits: no process is launched and no session is made; and it
    answers with a handle only to the very same request. *)
Theorem start_at_most_once (c c' : OperationContext) (r r' : StartExecutionRequest) w w2
    (h : ExecutionHandle) :
  reachable w → (start self c r w).1 = Ok h → rtc mstep (start self c r w).2 w2 →
  se_execution_id r' = se_execution_id r →
  only_waits c' w2 (start self c' r' w2).2 ∧ (is_ok (start self c' r' w2).1 = true → r' = r).
Proof.
  intros Hreach Hr Hlater Hid. apply reachable_inv in Hreach as [Hok Hready].
  assert (Hinv1 : manager_inv (start self c r w).2) by (by eapply mstep_inv; [..|constructor|]).
  destruct (start_ok self Hlimit (λ x, x = r) c r 0 w eq_refl Hok Hready) as (_ & _ & _ & Hout).
  rewrite Hr in Hout. destruct (Hout eq_refl) as (loc & s & Hs & Hsp & Hids & Hreq).
  destruct (still_claimed _ w2 loc s Hinv1 Hlater Hs Hsp) as [Hinv2 (s2 & Hs2 & Hle2 & _)].
  set (w1 := (checkpointM c' w2).2). set (out := start self c' r' w2).
  assert (Hcases : (out.2 = w1 ∧ is_ok out.1 = false) ∨ out = start_gated self c' r' (interleave self w1).2).
  { unfold out, start. destruct (after_checkpoint c' (_ ← lift (validated (validate r'));
      _ ← lift (match se_expected_generation r' with
                | Some generation => validate_generation self generation | None => Ok tt end);
      _ ← interleave self; start_gated self c' r') w2) as [?|Heq]; [by left|]. rewrite Heq. fold w1.
    destruct (after_guard (validated (validate r')) (λ _, _ ← lift (match se_expected_generation r' with
                | Some generation => validate_generation self generation | None => Ok tt end);
      _ ← interleave self; start_gated self c' r') w1) as [?|(b & _ & Heq2)]; [by left|]. rewrite Heq2.
    destruct (after_guard (match se_expected_generation r' with
                | Some generation => validate_generation self generation | None => Ok tt end)
      (λ _, _ ← interleave self; start_gated self c' r') w1) as [?|(b' & _ & Heq3)]; [by left|]. rewrite Heq3.
    right. apply bind_interleave. }
  destruct Hcases as [[Hw Hno]|Heq]; [split; [by left|by rewrite Hno]|].
  pose proof (session_le_spawned _ _ Hle2 Hsp) as Hsp2.
  assert (Hid2 : id_of s2 = se_execution_id r').
  { unfold id_of. rewrite (sl_request _ _ Hle2). unfold id_of in Hids. congruence. }
  destruct (claimed_after w2 (interleave self w1).2 loc s2 Hinv2 (proj2 (waiting_tasks c' w2)) Hs2 Hsp2)
    as [[Hse (s3 & Hs3 & Hle3 & _)]|[Hse Hret]]; rewrite Hid2 in *; rewrite Heq; unfold start_gated;
    rewrite (M_bind_ok get_world _ _ _ _ eq_refl), Hse.
  - rewrite (M_bind_ok _ _ _ s3 (interleave self w1).2) by (unfold get_session; by rewrite Hs3).
    case_decide as Hd.
    + unfold session_handle. rewrite (M_bind_ok _ _ _ s3 (interleave self w1).2) by (unfold get_session; by rewrite Hs3).
      cbn. split; [by right|]. intros _.
      rewrite <-Hd, (sl_request _ _ Hle3), (sl_request _ _ Hle2). done.
    + split; [by right|done].
  - rewrite decide_True by done. split; [by right|done].
Qed.

(** *** Records *)

(** The session an operation finds, and what became of it when its lock is held. *)
Record held_session (eid : ExecutionId) w (loc : nat) (s : ProcessSession) : Prop := {
  hs_here : pw_arena w !! loc = Some s;
  hs_spawned : spawned s = true;
  hs_id : id_of s = eid;
}.
Lemma entry_held eid w loc w' :
  manager_inv w → entry eid w = (Ok loc, w') → w' = w ∧ ∃ s, held_session eid w loc s.
Proof.
  intros [Hok Hready] H. unfold entry in H.
  rewrite (M_bind_ok get_world _ w w w eq_refl) in H. unfold lift, ok_or in H.
  destruct (pw_sessions w !! eid) as [loc'|] eqn:E; [|done]. injection H as -> <-. split; [done|].
  destruct (to_sessions _ _ _ Hok eid loc E) as (s & Hs & Hid). exists s. split; [done|by eapply Hready|done].
Qed.
Lemma held_later eid w w2 loc s :
  held_session eid w loc s → (∀ l x, pw_arena w !! l = Some x → ∃ x', pw_arena w2 !! l = Some x' ∧ session_le x x') →
  ∃ s2, held_session eid w2 loc s2 ∧ session_le s s2.
Proof.
  intros [Hs Hsp Hid] Hg. destruct (Hg loc s Hs) as (s2 & Hs2 & Hle). exists s2. split; [|done].
  split; [done|by eapply session_le_spawned|]. unfold id_of in *. by rewrite (sl_request _ _ Hle).
Qed.
Lemma tasks_inv w w' : manager_inv w → tasks_step limit w w' → manager_inv w' ∧ tasks_rel w w'.
Proof.
  intros [Hok Hready] Ht. destruct (Ht 0 Hok) as [Hok' Hrel]. split; [|done]. split; [done|].
  apply (ready_sessions self 0 w); [done|done| |].
  - intros l x Hx. destruct (tk_session _ _ Hrel l x Hx) as (x' & ? & ? & _). by exists x'.
  - intros i l Hi. left. by eapply tk_sessions.
Qed.

(** A call on an execution, from its checkpoint to the lock of the records. *)
Definition locked_call {A} (c : OperationContext) (guard : ExecutionResult unit) (eid : ExecutionId)
    (encoded : str + bytes) (k : nat → str → M (ProcessWorld V) A) : M (ProcessWorld V) A :=
  _ ← checkpointM c;
  _ ← lift guard;
  loc ← entry eid;
  fingerprint ← lift (process_fingerprint encoded);
  _ ← interleave self;
  k loc fingerprint.
Lemma locked_call_cases {A} c guard eid encoded (k : nat → str → M (ProcessWorld V) A) w :
  manager_inv w →
  let w1 := (checkpointM c w).2 in
  let w3 := (interleave self w1).2 in
  let out := locked_call c guard eid encoded k w in
  (out.2 = w1 ∧ is_ok out.1 = false) ∨
  ∃ loc fp s, process_fingerprint encoded = Ok fp ∧ pw_sessions w1 !! eid = Some loc ∧
    held_session eid w3 loc s ∧ out = k loc fp w3.
Proof.
  intros Hinv w1 w3 out. unfold out, locked_call.
  destruct (after_checkpoint c (_ ← lift guard; loc ← entry eid;
    fingerprint ← lift (process_fingerprint encoded); _ ← interleave self; k loc fingerprint) w) as [?|Heq];
    [by left|]. rewrite Heq. fold w1.
  destruct (after_guard guard (λ _, loc ← entry eid;
    fingerprint ← lift (process_fingerprint encoded); _ ← interleave self; k loc fingerprint) w1)
    as [?|(b & _ & Heq2)]; [by left|]. rewrite Heq2.
  destruct (tasks_inv _ _ Hinv (proj1 (waiting_tasks c w))) as [Hinv1 _]. fold w1 in Hinv1.
  destruct (entry eid w1) as [[loc|x|] w1'] eqn:He.
  - destruct (entry_held _ _ _ _ Hinv1 He) as [-> (s & Hs)]. rewrite (M_bind_ok _ _ _ _ _ He).
    destruct (after_guard (process_fingerprint encoded) (λ fp, _ ← interleave self; k loc fp) w1)
      as [?|(fp & Hfp & Heq3)]; [by left|]. rewrite Heq3, bind_interleave. fold w3. right.
    assert (Hw1 : pw_sessions w1 !! eid = Some loc).
    { unfold entry in He. rewrite (M_bind_ok get_world _ w1 w1 w1 eq_refl) in He. unfold lift, ok_or in He.
      by destruct (pw_sessions w1 !! eid) as [l|]; [injection He as ->|]. }
    destruct (tasks_inv _ _ Hinv1 (interleave_step self Hlimit w1)) as [_ Hrel].
    destruct (held_later eid w1 w3 loc s Hs) as (s3 & Hs3 & _); [|by exists loc, fp, s3].
    intros l x Hx. destruct (tk_session _ _ Hrel l x Hx) as (x' & ? & ? & _). by exists x'.
  - left. unfold mbind, M_bind. rewrite He. split; [|done]. cbn. unfold entry, lift, ok_or in He.
    rewrite (M_bind_ok get_world _ w1 w1 w1 eq_refl) in He. by destruct (pw_sessions w1 !! eid); simplify_eq.
  - unfold entry, lift, ok_or in He. rewrite (M_bind_ok get_world _ w1 w1 w1 eq_refl) in He.
    by destruct (pw_sessions w1 !! eid).
Qed.

(** The operations as such calls. *)
Definition write_guard (r : WriteProcessInputRequest) : ExecutionResult unit :=
  _ ← validate_generation self (wi_generation r);
  if (sl_max_process_input_bytes (pm_limits self) <? input_size (wi_input r))%N then
    Err (supervisor_error ResourceExhausted
      (format! [str! "process input contains "; show_N (input_size (wi_input r));
                str! " bytes but the host limit is "; show_N (sl_max_process_input_bytes (pm_limits self))]))
  else Ok tt.
Lemma write_call c r w :
  write self c r w =
    locked_call c (write_guard r) (wi_execution_id r) (encode_input r) (λ loc fp, write_locked self loc fp r) w.
Proof.
  unfold write, locked_call, write_guard, lift, mbind, M_bind, result_bind.
  destruct (checkpointM c w) as [[[]|x|] w1]; [|done..].
  destruct (validate_generation _ _) as [[]|x|]; [|done..]. by destruct (_ <? _)%N.
Qed.
(** The control operations, by kind. *)
Inductive control_call :=
  | CallResize (r : ResizePtyRequest)
  | CallSignal (r : SignalExecutionRequest)
  | CallTerminate (r : TerminateExecutionRequest).
Definition control_execution (k : control_call) : ExecutionId :=
  match k with
  | CallResize r => rp_execution_id r | CallSignal r => sg_execution_id r | CallTerminate r => te_execution_id r
  end.
Definition control_id (k : control_call) : OperationId :=
  match k with
  | CallResize r => rp_operation_id r | CallSignal r => sg_operation_id r | CallTerminate r => te_operation_id r
  end.
Definition control_encoded (k : control_call) : str + bytes :=
  match k with
  | CallResize r => encode_resize r | CallSignal r => encode_signal r | CallTerminate r => encode_terminate r
  end.
Definition control_guard (k : control_call) : ExecutionResult unit :=
  match k with
  | CallResize r => _ ← validated (validate r); validate_generation self (rp_generation r)
  | CallSignal r => validate_generation self (sg_generation r)
  | CallTerminate r => validate_generation self (te_generation r)
  end.
Definition unit_result {A} (m : M (ProcessWorld V) A) (f : A → ControlResult) : M (ProcessWorld V) ControlResult :=
  a ← m; mret (f a).
Definition run_control (c : OperationContext) (k : control_call) : M (ProcessWorld V) ControlResult :=
  match k with
  | CallResize r => unit_result (resize self c r) (λ _, ControlUnit)
  | CallSignal r => unit_result (signal self c r) (λ _, ControlUnit)
  | CallTerminate r => unit_result (terminate self c r) ControlTerminate
  end.
Definition control_body (k : control_call) (loc : nat) (fp : str) : M (ProcessWorld V) ControlResult :=
  match k with
  | CallResize r =>
    unit_result (control_locked self loc (rp_operation_id r) fp (str! "cannot resize a completed execution")
                   (control_resize loc (rp_columns r) (rp_rows r))) (λ _, ControlUnit)
  | CallSignal r =>
    unit_result (control_locked self loc (sg_operation_id r) fp (str! "cannot signal a completed execution")
                   (control_signal loc (sg_signal r))) (λ _, ControlUnit)
  | CallTerminate r => unit_result (terminate_locked self loc fp r) ControlTerminate
  end.
Lemma control_call_eq c k w :
  run_control c k w = locked_call c (control_guard k) (control_execution k) (control_encoded k) (control_body k) w.
Proof.
  destruct k; cbn [run_control control_guard control_execution control_encoded control_body];
    unfold resize, signal, terminate, locked_call, control_operation, unit_result, lift, mbind, M_bind, result_bind;
    destruct (checkpointM c w) as [[[]|x|] w1]; try done.
  - destruct (validated _) as [[]|x|]; try done. destruct (validate_generation _ _) as [[]|x|]; try done.
    destruct (entry _ w1) as [[loc|x|] w2]; try done. destruct (process_fingerprint _) as [fp|x|]; try done.
    by destruct (interleave self w2) as [[[]|x|] w3].
  - destruct (validate_generation _ _) as [[]|x|]; try done.
    destruct (entry _ w1) as [[loc|x|] w2]; try done. destruct (process_fingerprint _) as [fp|x|]; try done.
    by destruct (interleave self w2) as [[[]|x|] w3].
  - destruct (validate_generation _ _) as [[]|x|]; try done.
    destruct (entry _ w1) as [[loc|x|] w2]; try done. destruct (process_fingerprint _) as [fp|x|]; try done.
    by destruct (interleave self w2) as [[[]|x|] w3].
Qed.

(** A call whose identifier is on record for the execution finds that record. *)
Lemma recorded_call {A} c guard eid encoded (k : nat → str → M (ProcessWorld V) A) w w2 loc s
    (Q : ProcessSession → Prop) :
  manager_inv w → held_session eid w loc s → Q s → (∀ s s', session_le s s' → Q s → Q s') →
  rtc mstep w w2 →
  (∀ fp s' w', pw_arena w' !! loc = Some s' → Q s' → (k loc fp w').2 = w') →
  let out := locked_call c guard eid encoded k w2 in
  only_waits c w2 out.2 ∧
  (is_ok out.1 = true → ∃ fp s' w', process_fingerprint encoded = Ok fp ∧ pw_arena w' !! loc = Some s' ∧
     Q s' ∧ session_le s s' ∧ out = k loc fp w').
Proof.
  intros Hinv Hheld HQ Hmono Hlater Hk out. destruct (later_inv _ _ Hlater Hinv) as [Hinv2 Hg].
  destruct (held_later eid w w2 loc s Hheld (gr_session _ _ Hg)) as (s2 & Hheld2 & Hle2).
  destruct (locked_call_cases c guard eid encoded k w2 Hinv2) as [[Hw Hno]|(loc' & fp & s3 & Hfp & Hse & Hs3 & Heq)].
  { split; [by left|]. unfold out. by rewrite Hno. }
  fold out in Heq. set (w1 := (checkpointM c w2).2) in *. set (w3 := (interleave self w1).2) in *.
  destruct (tasks_inv _ _ Hinv2 (proj1 (waiting_tasks c w2))) as [Hinv1 Hrel1]. fold w1 in Hinv1, Hrel1.
  assert (loc' = loc) as ->.
  { destruct (held_later eid w2 w1 loc s2 Hheld2) as (s1 & [Hs1 Hsp1 Hid1] & _).
    { intros l x Hx. destruct (tk_session _ _ Hrel1 l x Hx) as (x' & ? & ? & _). by exists x'. }
    destruct (to_spawned _ _ _ (proj1 Hinv1) loc s1 Hs1 Hsp1) as [H|[H _]]; rewrite Hid1 in H; congruence. }
  destruct (tasks_inv _ _ Hinv2 (proj2 (waiting_tasks c w2))) as [_ Hrel3]. fold w1 in Hrel3. fold w3 in Hrel3.
  destruct (tk_session _ _ Hrel3 loc s2 (hs_here _ _ _ _ Hheld2)) as (s3' & Hs3' & Hle3 & _).
  assert (s3' = s3) as -> by (destruct Hs3; congruence).
  assert (HQ3 : Q s3) by (by eapply Hmono; [exact Hle3|eapply Hmono]).
  split.
  - right. rewrite Heq. by apply (Hk fp s3).
  - intros _. exists fp, s3, w3. split_and!; [done|done|done|by etrans|done].
Qed.

Lemma get_session_bind {A} loc s (f : ProcessSession → M (ProcessWorld V) A) w :
  pw_arena w !! loc = Some s → (s ← get_session loc; f s) w = f s w.
Proof. intros Hs. apply M_bind_ok. unfold get_session. by rewrite Hs. Qed.
Lemma update_lookup loc f w s :
  pw_arena w !! loc = Some s → pw_arena (update_session (V:=V) loc f w).2 !! loc = Some (f s).
Proof.
  intros Hs. unfold update_session, modify_world. cbn. rewrite (alter_insert _ _ _ _ Hs).
  apply list_lookup_insert_eq. by eapply lookup_lt_Some.
Qed.
Lemma locked_lookup {A} (m : M (ProcessWorld V) A) w loc s :
  table_ok limit 0 w → m_within (steps limit session_locked) m → pw_arena w !! loc = Some s →
  ∃ s', pw_arena (m w).2 !! loc = Some s' ∧ session_locked s s'.
Proof. intros Hok Hm Hs. destruct (Hm w 0 Hok) as [_ Hrel]. by apply (wr_session _ _ _ Hrel). Qed.

Lemma write_locked_replay loc fp r w s rec :
  pw_arena w !! loc = Some s → ps_input_records s !! wi_write_id r = Some rec →
  (write_locked self loc fp r w).2 = w ∧
  ∀ res, (write_locked self loc fp r w).1 = Ok res →
    ir_fingerprint rec = fp ∧ (ir_status rec = Accepted → wp_status res = AlreadyAccepted).
Proof.
  intros Hs Hrec. unfold write_locked. rewrite (get_session_bind _ _ _ _ Hs), Hrec. unfold str_eqb.
  case_bool_decide; (split; [done|]); [|done]. intros res [= <-]. split; [done|]. intros Ha. cbn. by rewrite decide_True.
Qed.
Lemma write_locked_records loc fp r w s w' :
  table_ok limit 0 w → pw_arena w !! loc = Some s →
  write_locked self loc fp r w = (Ok {| wp_status := Accepted |}, w') →
  ∃ s', pw_arena w' !! loc = Some s' ∧
    ps_input_records s' !! wi_write_id r = Some {| ir_fingerprint := fp; ir_status := Accepted |}.
Proof.
  intros Hok Hs. unfold write_locked. rewrite (get_session_bind _ _ _ _ Hs).
  destruct (ps_input_records s !! wi_write_id r) as [rec|].
  { destruct (str_eqb _ _); [|done]. case_decide; intros H'; by injection H'. }
  destruct (negb _); [done|]. rewrite bind_interleave.
  set (w1 := (interleave self w).2). intros H. apply M_bind_ok_inv in H as (result & w2 & Hw & H).
  destruct (locked_lookup (_ ← interleave self; control_write loc (wi_input r)) w loc s) as (s2 & Hs2 & _);
    [done| |done|].
  { apply m_within_bind; [exact _|by apply locked_interleave|intros _].
    apply (locked_held self Hlimit loc), at_control_write. }
  rewrite bind_interleave in Hs2. fold w1 in Hs2. rewrite Hw in Hs2. cbn in Hs2.
  apply M_bind_ok_inv in H as ([] & w3 & Hu & H). injection H as -> <-.
  pose proof (update_lookup loc (λ s, set_input_records (<[wi_write_id r :=
    {| ir_fingerprint := fp; ir_status := Accepted |}]> (ps_input_records s)) s) w2 s2 Hs2) as Hl.
  injection Hu as <-. eexists. split; [exact Hl|]. cbn. apply lookup_insert_eq.
Qed.

(** Requests with the same fingerprint are the same, if the codec writes different
    requests differently and the digest of this one is not that of other bytes. *)
Definition unambiguous {A} (encode : A → str + bytes) : Prop :=
  ∀ a a' b, encode a = inr b → encode a' = inr b → a' = a.
Definition collision_free (encoded : str + bytes) : Prop :=
  ∀ b b', encoded = inr b → sha256_hex b' = sha256_hex b → b' = b.
Lemma fingerprint_tells {A} (encode : A → str + bytes) a a' fp :
  process_fingerprint (encode a) = Ok fp → process_fingerprint (encode a') = Ok fp →
  unambiguous encode → collision_free (encode a) → a' = a.
Proof.
  unfold process_fingerprint. destruct (encode a) as [|b] eqn:Ha; [done|]. destruct (encode a') as [|b'] eqn:Ha'; [done|].
  intros [= <-] [= Hb] Hu Hc. apply (Hu a a' b); [done|]. by rewrite Ha', (Hc b b').
Qed.

Lemma input_delivered_once (c c' : OperationContext) (r r' : WriteProcessInputRequest) w w2 :
  reachable w → (write self c r w).1 = Ok {| wp_status := Accepted |} → rtc mstep (write self c r w).2 w2 →
  wi_execution_id r' = wi_execution_id r → wi_write_id r' = wi_write_id r →
  only_waits c' w2 (write self c' r' w2).2 ∧
  ∀ res, (write self c' r' w2).1 = Ok res →
    wp_status res = AlreadyAccepted ∧
    process_fingerprint (encode_input r') = process_fingerprint (encode_input r) ∧
    (unambiguous encode_input → collision_free (encode_input r) → r' = r).
Proof.
  intros Hreach Hr Hlater Hid Hwid. apply reachable_inv in Hreach as Hinv.
  assert (Hinv' : manager_inv (write self c r w).2) by (by eapply mstep_inv; [..|constructor|]).
  rewrite write_call in Hr, Hlater, Hinv'.
  destruct (locked_call_cases c (write_guard r) (wi_execution_id r) (encode_input r)
    (λ loc fp, write_locked self loc fp r) w Hinv) as [[_ Hno]|(loc & fp & s & Hfp & Hse & Hheld & Heq)].
  { by rewrite Hr in Hno. }
  set (w3 := (interleave self (checkpointM c w).2).2) in *.
  destruct (tasks_inv _ _ Hinv (proj2 (waiting_tasks c w))) as [Hinv3 _]. fold w3 in Hinv3.
  destruct (write_locked self loc fp r w3) as [out w'] eqn:Hout. rewrite Heq in Hr, Hlater, Hinv'. cbn in Hr, Hlater, Hinv'.
  subst out. destruct (write_locked_records _ _ _ _ _ _ (proj1 Hinv3) (hs_here _ _ _ _ Hheld) Hout) as (s' & Hs' & Hrec).
  destruct (forward_write_locked self Hlimit loc fp r w3 0 (proj1 Hinv3)) as [_ Hrel]. rewrite Hout in Hrel.
  destruct (held_later _ w3 w' loc s Hheld (wr_session _ _ _ Hrel)) as (s'' & Hheld' & _).
  assert (s'' = s') as -> by (destruct Hheld'; congruence). rewrite write_call.
  destruct (recorded_call c' (write_guard r') (wi_execution_id r') (encode_input r')
    (λ loc fp, write_locked self loc fp r') w' w2 loc s'
    (λ x, ps_input_records x !! wi_write_id r = Some {| ir_fingerprint := fp; ir_status := Accepted |}))
    as [Honly Hok']; [done|by rewrite Hid|done| |done| |].
  - intros x x' Hle Hx. by eapply lookup_weaken; [|apply (sl_input _ _ Hle)].
  - intros fp' x wx Hx Hrx. rewrite <-Hwid in Hrx. by apply (write_locked_replay loc fp' r' wx x _ Hx Hrx).
  - split; [done|]. intros res Hres. rewrite Hres in Hok'. destruct (Hok' eq_refl) as (fp' & x & wx & Hfp' & Hx & Hrx & _ & Hk).
    rewrite <-Hwid in Hrx. destruct (write_locked_replay loc fp' r' wx x _ Hx Hrx) as [_ Hrep].
    rewrite Hk in Hres. destruct (Hrep res Hres) as [Hf Hst]. split; [by apply Hst|]. cbn in Hf. subst fp'.
    split; [congruence|]. by apply (fingerprint_tells encode_input r r' fp).
Qed.
(** C10. Input is delivered at most once.  Once a write was accepted, any later write with
    its execution and write ids, after any further calls and tasks, only observes and
    waits: nothing reaches the process; and it answers only a request with the same
    fingerprint, with "already accepted", which is the very same request, input
    included, unless two encodings or two digests coincide. *)
Theorem input_at_most_once (c c' : OperationContext) (r r' : WriteProcessInputRequest) w w2 :
  reachable w → (write self c r w).1 = Ok {| wp_status := Accepted |} → rtc mstep (write self c r w).2 w2 →
  wi_execution_id r' = wi_execution_id r → wi_write_id r' = wi_write_id r →
  only_waits c' w2 (write self c' r' w2).2 ∧
  ∀ res, (write self c' r' w2).1 = Ok res →
    wp_status res = AlreadyAccepted ∧
    process_fingerprint (encode_input r') = process_fingerprint (encode_input r) ∧
    (unambiguous encode_input → collision_free (encode_input r) → r' = r).
Proof. apply input_delivered_once. Qed.

(** The control operations find and leave records in the same way. *)
Definition has_control (id : OperationId) (fp : str) (result : ControlResult) (s : ProcessSession) : Prop :=
  ps_control_records s !! id = Some {| cr_fingerprint := fp; cr_result := result |}.
Lemma has_control_mono id fp result s s' : session_le s s' → has_control id fp result s → has_control id fp result s'.
Proof. intros Hle Hx. by eapply lookup_weaken; [|apply (sl_control _ _ Hle)]. Qed.
Lemma control_body_replay k loc fp w s fp' result :
  pw_arena w !! loc = Some s → has_control (control_id k) fp' result s →
  (control_body k loc fp w).2 = w ∧ ∀ res, (control_body k loc fp w).1 = Ok res → fp' = fp ∧ res = result.
Proof.
  unfold has_control. intros Hs Hrec.
  assert (H : ∃ r, control_body k loc fp w = (r, w) ∧ ∀ res, r = Ok res → fp' = fp ∧ res = result).
  { destruct k; cbn [control_body control_id] in *; unfold unit_result, control_locked, terminate_locked;
      unfold mbind at 1, M_bind at 1; rewrite (get_session_bind _ _ _ _ Hs), Hrec;
      unfold ensure_control_record, str_eqb; cbn [cr_fingerprint cr_result];
      case_bool_decide; destruct result; eexists; (split; [reflexivity|]); intros res Hres; by simplify_eq. }
  destruct H as (r & -> & H). by split.
Qed.
Lemma put_control_lookup loc id fp result w s w' r :
  pw_arena w !! loc = Some s → put_control_record (V:=V) loc id fp result w = (r, w') →
  ∃ s', pw_arena w' !! loc = Some s' ∧ has_control id fp result s'.
Proof.
  intros Hs H. unfold put_control_record in H.
  pose proof (update_lookup loc (λ s, set_control_records (<[id := {| cr_fingerprint := fp; cr_result := result |}]>
    (ps_control_records s)) s) w s Hs) as Hl.
  rewrite H in Hl. eexists. split; [exact Hl|]. apply lookup_insert_eq.
Qed.
Lemma control_locked_records loc id fp completed action w s w' :
  table_ok limit 0 w → pw_arena w !! loc = Some s → m_within (steps limit session_locked) action →
  control_locked self loc id fp completed action w = (Ok tt, w') →
  ∃ s', pw_arena w' !! loc = Some s' ∧ has_control id fp ControlUnit s'.
Proof.
  intros Hok Hs Ha. unfold control_locked. rewrite (get_session_bind _ _ _ _ Hs).
  destruct (ps_control_records s !! id) as [[fp' res]|] eqn:Hrec.
  { unfold ensure_control_record, str_eqb, lift, mbind, M_bind. cbn [cr_fingerprint cr_result].
    case_bool_decide as Hfp; [|done]. destruct res; [|done]. intros [= <-]. exists s. by subst. }
  destruct (negb _); [done|]. rewrite bind_interleave. set (w1 := (interleave self w).2). intros H.
  apply M_bind_ok_inv in H as ([] & w2 & Hw & H).
  destruct (locked_lookup (_ ← interleave self; action) w loc s) as (s2 & Hs2 & _); [done| |done|].
  { apply m_within_bind; [exact _|by apply locked_interleave|done]. }
  rewrite bind_interleave in Hs2. fold w1 in Hs2. rewrite Hw in Hs2. by eapply put_control_lookup.
Qed.
Lemma control_body_records k loc fp w s res w' :
  table_ok limit 0 w → pw_arena w !! loc = Some s → control_body k loc fp w = (Ok res, w') →
  ∃ s', pw_arena w' !! loc = Some s' ∧ has_control (control_id k) fp res s'.
Proof.
  intros Hok Hs. destruct k; cbn [control_body control_id]; unfold unit_result; intros H;
    apply M_bind_ok_inv in H as (a & w2 & H & Hr); injection Hr as <- <-.
  - destruct a. eapply control_locked_records; [done..| |done]. apply (locked_held self Hlimit loc), at_control_resize.
  - destruct a. eapply control_locked_records; [done..| |done]. apply (locked_held self Hlimit loc), at_control_signal.
  - unfold terminate_locked in H. rewrite (get_session_bind _ _ _ _ Hs) in H.
    destruct (ps_control_records s !! te_operation_id r) as [[fp' res]|] eqn:Hrec.
    { revert H. unfold ensure_control_record, str_eqb, lift, mbind, M_bind. cbn [cr_fingerprint cr_result].
      case_bool_decide as Hfp; [|done]. destruct res; [done|]. intros [= <- <-]. exists s. by subst. }
    cbv zeta in H. apply M_bind_ok_inv in H as ([] & w1 & H1 & H). apply M_bind_ok_inv in H as ([] & w3 & H3 & H).
    injection H as <- <-.
    destruct (locked_lookup (if is_running (ps_journal s) then terminate_running self loc else mret tt) w loc s)
      as (s2 & Hs2 & _); [done| |done|].
    { destruct (is_running _); [by apply locked_terminate_running|by intros x]. }
    rewrite H1 in Hs2. by eapply put_control_lookup.
Qed.
Lemma forward_control_body k loc fp : m_within (steps limit session_le) (control_body k loc fp).
Proof.
  destruct k; cbn [control_body]; unfold unit_result; (apply m_within_bind; [exact _| |by intros a w]).
  - apply (forward_control_locked self Hlimit), (locked_held self Hlimit loc), at_control_resize.
  - apply (forward_control_locked self Hlimit), (locked_held self Hlimit loc), at_control_signal.
  - by apply forward_terminate_locked.
Qed.
Lemma run_control_inv c k w : manager_inv w → manager_inv (run_control c k w).2.
Proof.
  intros Hinv. assert (H : (run_control c k w).2 = match k with
    | CallResize r => (resize self c r w).2 | CallSignal r => (signal self c r w).2
    | CallTerminate r => (terminate self c r w).2 end).
  { destruct k; cbn; unfold unit_result, mbind, M_bind;
      [destruct (resize self c r w) as [[] ?]|destruct (signal self c r w) as [[] ?]
      |destruct (terminate self c r w) as [[] ?]]; done. }
  rewrite H. destruct k; (eapply mstep_inv; [|exact Hinv]); constructor.
Qed.

(** C11. A control operation acts at most once.  Once a resize, signal or termination has
    succeeded, any later one with its execution and operation ids, of whichever
    kind, after any further calls and tasks, only observes and waits: the process
    is not touched; and it answers only a request with the same fingerprint, with
    the recorded result, which is the very same request unless two encodings or two
    digests coincide. *)
Theorem control_at_most_once (c c' : OperationContext) (k k' : control_call) w w2 (result : ControlResult) :
  reachable w → (run_control c k w).1 = Ok result → rtc mstep (run_control c k w).2 w2 →
  control_execution k' = control_execution k → control_id k' = control_id k →
  only_waits c' w2 (run_control c' k' w2).2 ∧
  ∀ result', (run_control c' k' w2).1 = Ok result' →
    result' = result ∧ process_fingerprint (control_encoded k') = process_fingerprint (control_encoded k) ∧
    (unambiguous control_encoded → collision_free (control_encoded k) → k' = k).
Proof.
  intros Hreach Hr Hlater Hid Hop. apply reachable_inv in Hreach as Hinv.
  pose proof (run_control_inv c k w Hinv) as Hinv'. rewrite control_call_eq in Hr, Hlater, Hinv'.
  destruct (locked_call_cases c (control_guard k) (control_execution k) (control_encoded k) (control_body k) w Hinv)
    as [[_ Hno]|(loc & fp & s & Hfp & Hse & Hheld & Heq)]; [by rewrite Hr in Hno|].
  set (w3 := (interleave self (checkpointM c w).2).2) in *.
  destruct (tasks_inv _ _ Hinv (proj2 (waiting_tasks c w))) as [Hinv3 _]. fold w3 in Hinv3.
  destruct (control_body k loc fp w3) as [out w'] eqn:Hout. rewrite Heq in Hr, Hlater, Hinv'. cbn in Hr, Hlater, Hinv'.
  subst out. destruct (control_body_records _ _ _ _ _ _ _ (proj1 Hinv3) (hs_here _ _ _ _ Hheld) Hout) as (s' & Hs' & Hrec).
  destruct (forward_control_body k loc fp w3 0 (proj1 Hinv3)) as [_ Hrel]. rewrite Hout in Hrel.
  destruct (held_later _ w3 w' loc s Hheld (wr_session _ _ _ Hrel)) as (s'' & Hheld' & _).
  assert (s'' = s') as -> by (destruct Hheld'; congruence). rewrite control_call_eq. rewrite <-Hop in Hrec.
  destruct (recorded_call c' (control_guard k') (control_execution k') (control_encoded k') (control_body k')
    w' w2 loc s' (has_control (control_id k') fp result)) as [Honly Hok'];
    [done|by rewrite Hid|done|intros x x'; apply has_control_mono|done| |].
  - intros fp' x wx Hx Hrx. by apply (control_body_replay k' loc fp' wx x _ _ Hx Hrx).
  - split; [done|]. intros res Hres. rewrite Hres in Hok'.
    destruct (Hok' eq_refl) as (fp' & x & wx & Hfp' & Hx & Hrx & _ & Hk).
    destruct (control_body_replay k' loc fp' wx x _ _ Hx Hrx) as [_ Hrep]. rewrite Hk in Hres.
    destruct (Hrep res Hres) as [Hf Hres']. subst fp'. split; [done|]. split; [congruence|].
    by apply (fingerprint_tells control_encoded k k' fp).
Qed.

(** C12. In every world the runtime reaches, whatever its clients call and however their
    calls interleave with its tasks, an execution id names at most one started
    process; the active count is exactly the number of processes whose completion
    is pending, and never exceeds the configured limit. *)
Theorem one_process_per_execution w :
  reachable w →
  (∀ loc loc' s s', pw_arena w !! loc = Some s → pw_arena w !! loc' = Some s' →
     spawned s = true → spawned s' = true → id_of s = id_of s' → loc = loc') ∧
  pw_active w = N.of_nat (live_count (pw_arena w)) ∧ (pw_active w ≤ limit)%N.
Proof.
  intros Hreach. apply reachable_inv in Hreach as [Hok _]. split; [apply Hok|].
  split; [|apply Hok]. rewrite (to_active _ _ _ Hok). by rewrite Nat.add_0_r.
Qed.
End reachable.
