(* ===== verification/ManagerStreams.v ===== *)
(** The process manager keeps the promises of [ProcessStream.ReadsStream]: what it
    answers to reads of an execution are pages of a stream that only grows, and
    that has ended once its state is terminal.  This holds for executions whose
    output is not drained separately, as long as events can be encoded, appends
    to logs succeed, and no counter reaches its end. *)
From Stdlib Require Import ZifyBool.
From stdpp Require Import prelude gmap strings pretty list relations.
From S2P Require Import Prelude.
From S2P Require Import Text.
From S2P Require Import Core.
From S2P Require Import Host.
From S2P Require Import ProcessCore.
From S2P Require Import ProcessLaunch.
From S2P Require Import Journal.
From S2P Require Import JournalGrowth.
From S2P Require Import ProcessStream.
From S2P Require Import Resolver.
From S2P Require Import SupervisorFs.
From S2P Require Import ProcessManager.
From S2P Require Import ManagerTable.
From S2P Require Import ManagerClients.

(** ** Journals and their views *)

Section views.
Context {jcodec : JournalCodec} {laws : JournalCodecLaws}.

Lemma log_units_app l1 l2 : log_units (l1 ++ l2) = log_units l1 ++ log_units l2.
Proof. apply bind_app. Qed.
Lemma view_prefix j j' l l' :
  l `prefix_of` l' → sv_units (view_of j l) `prefix_of` sv_units (view_of j' l').
Proof.
  intros [more ->]. cbn. rewrite log_units_app, fmap_app. by eexists.
Qed.
Lemma fuel_units j l : journal_repr j l → N.to_nat (next_sequence (js j)) = S (length (log_units l)).
Proof.
  intros Hrep. destruct (log_units_number 1 l (jr_ok _ _ Hrep)) as (us & Hus & Hlen).
  rewrite (jr_next _ _ Hrep), <-Hlen. apply (f_equal length) in Hus. rewrite length_number in Hus. lia.
Qed.
Lemma units_length j l :
  journal_repr j l → N.of_nat (length (log_units l).*2) = u64_sat_sub (next_sequence (js j)) 1.
Proof.
  intros Hrep. destruct (log_units_number 1 l (jr_ok _ _ Hrep)) as (us & Hus & Hlen).
  rewrite Hus, snd_number, (jr_next _ _ Hrep), <-Hlen. unfold u64_sat_sub. lia.
Qed.
(** A close is recorded once, last. *)
Lemma log_units_close l u :
  u ∈ (log_units l).*2 → is_close_unit u = true → ∃ k, k ∈ kinds l ∧ is_close k = true.
Proof.
  intros Hu Hc. induction l as [|[ev b] l IH]; [by apply elem_of_nil in Hu|].
  change (log_units ((ev, b) :: l)) with (units_of ev ++ log_units l) in Hu.
  rewrite fmap_app, elem_of_app in Hu. change (kinds ((ev, b) :: l)) with (event ev :: kinds l).
  destruct Hu as [Hu|Hu]; [|destruct (IH Hu) as (k & ? & ?); exists k; split; [by right|done]].
  exists (event ev). split; [by left|]. unfold units_of in Hu.
  destruct (event ev) as [|s [|x data]| | |]; try (apply list_elem_of_singleton in Hu as ->; done).
  rewrite snd_number in Hu. apply list_elem_of_fmap in Hu as (y & -> & _). done.
Qed.
Lemma view_close_last j l us u more :
  lifecycle_ok (js j) (kinds l) → sv_units (view_of j l) = us ++ u :: more → is_close_unit u = true →
  more = [].
Proof.
  intros [_ _ Hc _] Hu Hcl. cbn in Hu.
  assert (Hno : ∀ ks, filter is_close ks = [] → ∀ k, k ∈ ks → is_close k = true → False).
  { intros ks Hf k Hk Hkc. assert (k ∈ filter is_close ks) as H; [|rewrite Hf in H; by apply elem_of_nil in H].
    apply list_elem_of_filter. split; [by rewrite Hkc|done]. }
  destruct (closed (js j)).
  - destruct Hc as (ks & Hks & Hf). destruct l as [|[ev b] l _] using rev_ind; [by destruct ks|].
    rewrite kinds_snoc in Hks. apply app_inj_tail in Hks as [Hks Hev].
    rewrite log_units_app, fmap_app in Hu. cbn in Hu. rewrite app_nil_r in Hu.
    assert (Hone : ∃ x, (units_of ev).*2 = [x]) by (unfold units_of; rewrite Hev; by eexists).
    destruct Hone as [x Hx]. rewrite Hx in Hu.
    destruct more as [|y more _] using rev_ind; [done|]. exfalso.
    rewrite app_comm_cons, (assoc_L (++)) in Hu. apply app_inj_tail in Hu as [Hu _].
    destruct (log_units_close l u) as (k & Hk & Hkc); [rewrite Hu; set_solver|done|].
    rewrite Hks in Hk. by eapply Hno.
  - exfalso. destruct (log_units_close l u) as (k & Hk & Hkc); [rewrite Hu; set_solver|done|]. by eapply Hno.
Qed.
(** The exit code and the end are those recorded. *)
Lemma log_units_exits l :
  exits_of (log_units l).*2 = omap exit_of (kinds l).
Proof.
  induction l as [|[ev b] l IH]; [done|]. change (log_units ((ev, b) :: l)) with (units_of ev ++ log_units l).
  unfold exits_of in *. rewrite fmap_app, omap_app, IH. change (kinds ((ev, b) :: l)) with (event ev :: kinds l).
  unfold units_of. destruct (event ev) as [|s [|x data]|code|m|]; try done.
  rewrite snd_number. cbn [omap list_omap].
  replace (omap _ _) with (@nil Z) at 1; [done|]. symmetry. generalize (x :: data). intros bs. by induction bs.
Qed.
Lemma view_exit j l : lifecycle_ok (js j) (kinds l) → sv_exit (view_of j l) = last (exits_of (sv_units (view_of j l))).
Proof.
  intros [Hx _ _ _]. cbn [view_of sv_exit sv_units]. rewrite log_units_exits.
  assert (Hf : ∀ ks : list ProcessEventKind, omap exit_of ks = omap exit_of (filter is_exit ks)).
  { induction ks as [|k ks IH]; [done|]. destruct k; cbn; by rewrite ?IH. }
  rewrite Hf. destruct (exit_code (js j)) as [code|]; by rewrite Hx.
Qed.
Lemma view_closed j l :
  lifecycle_ok (js j) (kinds l) → closed_units (sv_units (view_of j l)) = true → is_terminal (sv_state (view_of j l)) = true.
Proof.
  intros [_ _ Hc Ht] Hu. cbn [view_of sv_state sv_units] in *. apply existsb_exists in Hu as (u & Hin & Hu).
  rewrite <-list_elem_of_In in Hin. destruct (log_units_close l u Hin Hu) as (k & Hk & Hkc).
  destruct (closed (js j)); [by apply Ht|]. exfalso.
  assert (k ∈ filter is_close (kinds l)) as H; [|rewrite Hc in H; by apply elem_of_nil in H].
  apply list_elem_of_filter. split; [by rewrite Hkc|done].
Qed.
Lemma view_end j l :
  lifecycle_ok (js j) (kinds l) → closed (js j) = true → closed_units (sv_units (view_of j l)) = true.
Proof.
  intros [_ _ Hc _] Hcl. rewrite Hcl in Hc. destruct Hc as (ks & Hks & _).
  destruct l as [|[ev b] l _] using rev_ind; [by destruct ks|].
  rewrite kinds_snoc in Hks. apply app_inj_tail in Hks as [_ Hev]. cbn [view_of sv_units].
  rewrite log_units_app, fmap_app. unfold closed_units. rewrite existsb_app. cbn. unfold units_of. rewrite Hev.
  apply orb_true_r.
Qed.
(** What a read that succeeded read. *)
Lemma read_now_opens o eof c max j res :
  read_now o eof c max j = Ok res → read_now None eof c max j = Ok res.
Proof.
  unfold read_now. destruct (_ <? _)%N; [done|]. by destruct (select_now _ _ _), o.
Qed.
Lemma read_now_cursor o eof c max j res :
  read_now o eof c max j = Ok res → (c ≤ u64_sat_sub (next_sequence (js j)) 1)%N.
Proof. unfold read_now. destruct (N.ltb_spec (u64_sat_sub (next_sequence (js j)) 1) c); [done|lia]. Qed.
Lemma read_now_view o eof c max j l res :
  journal_repr j l → (0 < max ≤ u64_max)%N → read_now o eof c max j = Ok res →
  stream_page (view_of j l) c res.
Proof.
  intros Hrep Hmax Hr. pose proof (read_now_cursor _ _ _ _ _ _ Hr) as Hc. apply read_now_opens in Hr.
  destruct (journal_page eof c max j l Hrep) as (res' & Hr' & Hpage);
    [unfold in_u64; lia|lia|by rewrite (units_length _ _ Hrep)|].
  rewrite Hr in Hr'. by injection Hr' as <-.
Qed.
End views.

Section streams.
Context {V : Type} `{!World V, !NativeFs V, !ProcessHost V}.
Context {dbg : DebugStr} {dig : Digest} {shells : ShellHost}.
Context {jcodec : JournalCodec} {laws : JournalCodecLaws} {codec : ProcessCodec}.
Context (self : ProcessManager) (id : ExecutionId).
Implicit Types w : ProcessWorld V.
Abbreviation limit := (sl_max_concurrent_processes (pm_limits self)).
Context (Hlimit : (limit ≤ u32_max)%N) (Hencodes : encodes) (Happends : appends_succeed V).

(** No journal has reached the end of its counters. *)
Definition journals_fit w : Prop := ∀ loc s, pw_arena w !! loc = Some s → fits (ps_journal s).
(** The session of an execution whose output is not drained, and its journal's log. *)
Record session_shows (s : ProcessSession) (v : StreamView) : Prop := {
  ss_id : id_of s = id;
  ss_spawned : spawned s = true;
  ss_drain : se_output_drain_timeout_ms (ps_request s) = None;
  ss_log : ∃ l, journal_repr (ps_journal s) l ∧ lifecycle_ok (js (ps_journal s)) (kinds l) ∧
    v = view_of (ps_journal s) l;
}.
Definition manager_shows w (v : StreamView) : Prop :=
  manager_inv self w ∧ ∃ loc s, pw_arena w !! loc = Some s ∧ session_shows s v.
(** The same for any execution, drained or not. *)
Record session_records (s : ProcessSession) (v : StreamView) : Prop := {
  sc_id : id_of s = id;
  sc_spawned : spawned s = true;
  sc_log : ∃ l, journal_repr (ps_journal s) l ∧ lifecycle_ok (js (ps_journal s)) (kinds l) ∧
    v = view_of (ps_journal s) l;
}.
Definition manager_records w (v : StreamView) : Prop :=
  manager_inv self w ∧ ∃ loc s, pw_arena w !! loc = Some s ∧ session_records s v.
Lemma shows_records s v : session_shows s v → session_records s v.
Proof. by intros [? ? _ ?]. Qed.

Lemma log_same j l more : journal_repr j l → journal_repr j (l ++ more) → more = [].
Proof.
  intros H1 H2. pose proof (jr_next _ _ H1) as N1. pose proof (jr_next _ _ H2) as N2.
  rewrite log_next_app, N1 in N2. destruct more as [|[ev b] more]; [done|]. cbn [log_next] in N2.
  pose proof (log_next_ge (log_next 1 l + span (event ev))%N more). pose proof (span_pos (event ev)). lia.
Qed.
(** A session moves on: its stream grows, and may have ended. *)
Lemma session_records_le s s' v :
  session_le s s' → stream_ok V s → fits (ps_journal s') → session_records s v →
  ∃ v', session_records s' v' ∧ grows v v'.
Proof.
  intros Hle [_ Hst] Hfit [Hid Hsp (l & Hrep & Hlc & ->)]. pose proof (sl_request _ _ Hle) as Hreq.
  destruct (Hst Hencodes Happends) as [Ho _]. destruct (sl_grows _ _ Hle Hencodes Ho) as [_ Hg].
  destruct (Hg Hfit) as [_ Hbase]. destruct (Hbase l) as (l' & Hpre & Hrep' & Hlc'); [by exists l|].
  exists (view_of (ps_journal s') l'). split; [|by apply view_prefix].
  split; [unfold id_of in *; by rewrite Hreq|by eapply session_le_spawned|by exists l'].
Qed.
Lemma session_shows_le s s' v :
  session_le s s' → stream_ok V s → fits (ps_journal s') → session_shows s v →
  ∃ v', session_shows s' v' ∧ later v v'.
Proof.
  intros Hle Hst Hfit Hs. destruct (session_records_le s s' v Hle Hst Hfit (shows_records _ _ Hs))
    as (v' & [Hid' Hsp' Hlog'] & Hg).
  assert (Hs' : session_shows s' v') by (split; [done..|by rewrite (sl_request _ _ Hle); apply Hs|done]).
  destruct Hs as [Hid Hsp Hd (l & Hrep & Hlc & ->)].
  destruct (is_terminal (state (js (ps_journal s)))) eqn:Hterm.
  - destruct (sl_done _ _ Hle (proj1 Hst Hd Hterm)) as [_ Hj]. exists (view_of (ps_journal s) l).
    split; [|done]. split; [done|done|apply Hs'|]. exists l. by rewrite Hj.
  - exists v'. split; [done|]. split; [done|]. cbn. by rewrite Hterm.
Qed.
Lemma shows_step w w' v :
  manager_inv self w' → (∀ loc s, pw_arena w !! loc = Some s → ∃ s', pw_arena w' !! loc = Some s' ∧ session_le s s') →
  journals_fit w' → manager_shows w v → ∃ v', manager_shows w' v' ∧ later v v'.
Proof.
  intros Hinv' Hg Hfit [[Hok _] (loc & s & Hs & Hsh)]. destruct (Hg loc s Hs) as (s' & Hs' & Hle).
  destruct (session_shows_le s s' v Hle) as (v' & Hsh' & Hl); [by eapply to_stream|by eapply Hfit|done|].
  exists v'. split; [|done]. split; [done|]. by exists loc, s'.
Qed.
Lemma records_step w w' v :
  manager_inv self w' → (∀ loc s, pw_arena w !! loc = Some s → ∃ s', pw_arena w' !! loc = Some s' ∧ session_le s s') →
  journals_fit w' → manager_records w v → ∃ v', manager_records w' v' ∧ grows v v'.
Proof.
  intros Hinv' Hg Hfit [[Hok _] (loc & s & Hs & Hsh)]. destruct (Hg loc s Hs) as (s' & Hs' & Hle).
  destruct (session_records_le s s' v Hle) as (v' & Hsh' & Hl); [by eapply to_stream|by eapply Hfit|done|].
  exists v'. split; [|done]. split; [done|]. by exists loc, s'.
Qed.
Lemma records_mstep w w' v :
  mstep self w w' → journals_fit w' → manager_records w v → ∃ v', manager_records w' v' ∧ grows v v'.
Proof.
  intros Hs Hfit Hr. destruct (mstep_inv self Hlimit _ _ Hs (proj1 Hr)) as [Hinv' Hg].
  apply (records_step w w'); [done|apply Hg|done|done].
Qed.
(** Any history of the runtime lets the stream grow. *)
Lemma shows_history w w' v :
  rtc (mstep self) w w' → journals_fit w' → manager_shows w v → ∃ v', manager_shows w' v' ∧ later v v'.
Proof.
  intros Hr Hfit Hs. destruct (later_inv self Hlimit _ _ Hr (proj1 Hs)) as [Hinv' Hg].
  apply (shows_step w w'); [done|apply Hg|done|done].
Qed.

(** *** Reading *)

Lemma same_observe c w :
  pw_arena (checkpointM c w).2 = pw_arena w ∧ pw_sessions (checkpointM c w).2 = pw_sessions w.
Proof. unfold checkpointM. cbn. by destruct (observe _ _) as [[b t] n]. Qed.
Lemma observe_inv c w : manager_inv self w → manager_inv self (checkpointM c w).2.
Proof.
  intros [Hok Hready]. destruct (tasks_checkpoint self c w 0 Hok) as [Hok' _]. split; [done|].
  unfold table_ready. by destruct (same_observe c w) as [-> ->].
Qed.
Lemma read_journal_answer loc a m wt w res w' :
  read_journal self loc a m wt w = (Ok res, w') →
  ∃ s' o, pw_arena w' !! loc = Some s' ∧ read_now o ph_eof a m (ps_journal s') = Ok res.
Proof.
  intros H. unfold read_journal in H. apply M_bind_ok_inv in H as (s & w1 & Hs & H).
  apply M_bind_ok_inv in H as (o & w2 & Ho & H). cbv zeta in H.
  apply M_bind_ok_inv in H as ([] & w3 & Hi & H). apply M_bind_ok_inv in H as (s' & w4 & Hs' & H).
  injection H as Hr <-. unfold get_session in Hs, Hs'.
  destruct (pw_arena w3 !! loc) as [x|] eqn:Hx; [|done]. injection Hs' as -> <-.
  exists s', o. split; [done|]. unfold Journal.read in Hr.
  destruct (read_now o ph_eof a m (ps_journal s)) as [res0|e|] eqn:Hr0; [|done..]. cbn in Hr.
  destruct (bool_decide (rx_events res0 = [])), (closed (js (ps_journal s))), (bool_decide (wt = None));
    cbn in Hi, Hr; try exact Hr; injection Hi as <-;
    (assert (w2 = with_native (pw_native w2) w1) as Hw by
      (unfold host_do, host in Ho; destruct (ph_open_log _ _); injection Ho as _ <-; done);
     destruct (pw_arena w !! loc) as [y|] eqn:Hy; [|done]; injection Hs as -> <-;
     rewrite Hw in Hx; cbn in Hx; assert (s' = s) as -> by congruence; by rewrite Hr0, <-Hr).
Qed.
Lemma read_answer c r w res w' :
  manager_inv self w → read self c r w = (Ok res, w') →
  ∃ loc s' o, pw_arena w' !! loc = Some s' ∧ id_of s' = re_execution_id r ∧ spawned s' = true ∧
    read_now o ph_eof (re_after_sequence r) (re_max_bytes r) (ps_journal s') = Ok res.
Proof.
  intros Hinv H. unfold read in H. apply M_bind_ok_inv in H as ([] & w1 & Hc & H).
  pose proof (observe_inv c w Hinv) as Hinv1. rewrite Hc in Hinv1. cbn [snd] in Hinv1.
  apply M_bind_ok_inv in H as (u1 & w2 & Hu1 & H). injection Hu1 as _ <-.
  apply M_bind_ok_inv in H as (u2 & w2 & Hu2 & H). injection Hu2 as _ <-.
  destruct (_ <? _)%N; [done|]. apply M_bind_ok_inv in H as (loc & w2 & He & H).
  unfold entry, get_world, mbind, M_bind, lift in He. cbn in He.
  destruct (pw_sessions w1 !! re_execution_id r) as [loc'|] eqn:Hid; [|done]. injection He as -> <-.
  destruct Hinv1 as [Hok1 Hready1]. destruct (to_sessions _ _ _ Hok1 _ _ Hid) as (s & Hs & Hids).
  pose proof (Hready1 _ _ _ Hid Hs) as Hsp.
  apply M_bind_ok_inv in H as (rem & w2 & Hrem & H). cbv zeta in H.
  assert (Hw2 : pw_arena w2 = pw_arena w1 ∧ table_ok limit 0 w2).
  { pose proof (locked_remaining self Hlimit c w1 0 Hok1) as [Hok2 _]. rewrite Hrem in Hok2. split; [|done].
    unfold remaining in Hrem. cbn in Hrem. destruct (observe _ _) as [[b t] n]. by injection Hrem as _ <-. }
  destruct Hw2 as [Ha2 Hok2]. rewrite <-Ha2 in Hs.
  match type of H with context [read_journal _ _ _ _ ?x] => set (wt := x) in H end.
  apply M_bind_ok_inv in H as (out & w3 & Hrd & H).
  destruct (locked_read_journal self Hlimit loc (re_after_sequence r) (re_max_bytes r) wt w2 0 Hok2) as [_ Hrel].
  unfold attempt in Hrd.
  destruct (read_journal self loc (re_after_sequence r) (re_max_bytes r) wt w2) as [[res'|e|] w4] eqn:Hj;
    [|injection Hrd as <- <-|done].
  2: { destruct wt; [|done]. apply M_bind_ok_inv in H as ([] & w5 & _ & H); done. }
  injection Hrd as <- <-. cbn [snd] in Hrel.
  destruct (wr_session _ _ _ Hrel loc s Hs) as (s4 & Hs4 & Hle & _).
  destruct (read_journal_answer _ _ _ _ _ _ _ Hj) as (s' & o & Hs' & Hr).
  assert (s4 = s') as -> by congruence.
  assert (Hfin : pw_arena w' = pw_arena w4 ∧ res' = res).
  { destruct wt; [|by injection H as -> <-]. apply M_bind_ok_inv in H as (b & w5 & Hb & H).
    unfold is_cancelled in Hb. cbn in Hb. destruct (observe _ _) as [[b' t'] nat']. injection Hb as -> <-.
    destruct b; [done|]. by injection H as -> <-. }
  destruct Hfin as [Ha ->]. exists loc, s', o. rewrite Ha. split; [done|].
  split; [unfold id_of in *; by rewrite (sl_request _ _ Hle)|]. split; [by eapply session_le_spawned|done].
Qed.

(** *** A host that answers *)

(** While [quiet c] holds, the caller has not cancelled, its deadline lies ahead, and
    logs can be opened. *)
Class QuietHost (quiet : OperationContext → V → Prop) : Prop := {
  quiet_observe : ∀ c v, quiet c v → ∃ t v', observe (cancellation c) v = ((false, t), v') ∧ quiet c v' ∧
    match deadline c with Some d => (t < d)%N | None => True end;
  quiet_open : ∀ c p v, quiet c v → ∃ v', ph_open_log p v = (None, v') ∧ quiet c v';
}.
Context (quiet : OperationContext → V → Prop) `{!QuietHost quiet}.
(** The execution has ended, is still in the table, and its host answers. *)
Definition manager_calm (c : OperationContext) w : Prop :=
  quiet c (pw_native w) ∧ journals_fit w ∧
  ∃ loc s, pw_sessions w !! id = Some loc ∧ pw_arena w !! loc = Some s ∧ closed (js (ps_journal s)) = true.

Lemma observe_quiet c w :
  quiet c (pw_native w) → ∃ t n, observe (cancellation c) w = ((false, t), with_native n w) ∧ quiet c n ∧
    checkpoint c false t = Ok tt.
Proof.
  intros Hq. destruct (quiet_observe c _ Hq) as (t & n & Ho & Hq' & Hd). exists t, n. cbn. rewrite Ho.
  split; [done|]. split; [done|]. unfold checkpoint. destruct (deadline c); [|done].
  by rewrite (proj2 (N.leb_gt _ _)).
Qed.
Lemma checkpoint_quiet c w :
  quiet c (pw_native w) → ∃ n, checkpointM c w = (Ok tt, with_native n w) ∧ quiet c n.
Proof.
  intros Hq. destruct (observe_quiet c w Hq) as (t & n & Ho & Hq' & Hc). exists n.
  unfold checkpointM. by rewrite Ho, Hc.
Qed.
Lemma read_closed c r w loc s l :
  quiet c (pw_native w) → pw_sessions w !! re_execution_id r = Some loc → pw_arena w !! loc = Some s →
  closed (js (ps_journal s)) = true → journal_repr (ps_journal s) l →
  re_generation r = pm_generation self → (0 < re_max_bytes r ≤ sl_max_process_read_bytes (pm_limits self))%N →
  in_u64 (re_max_bytes r) → re_wait_ms r ≠ Some 0%N →
  (re_after_sequence r ≤ N.of_nat (length (log_units l).*2))%N →
  ∃ res n, read self c r w = (Ok res, with_native n w) ∧ quiet c n.
Proof.
  intros Hq Hid Hs Hcl Hrep Hgen Hmax Hu64 Hwait Hcur.
  destruct (checkpoint_quiet c w Hq) as (n1 & Hc & Hq1). unfold read. rewrite (M_bind_ok _ _ _ _ _ Hc).
  assert (Hvalid : validated (validate r) = Ok tt).
  { unfold validate, ReadExecutionRequest_validate. rewrite (proj2 (N.eqb_neq _ _)) by lia.
    by rewrite bool_decide_false. }
  rewrite Hvalid, lift_bind. unfold validate_generation. rewrite decide_True by done. rewrite lift_bind.
  rewrite (proj2 (N.ltb_ge _ _)) by lia.
  rewrite (M_bind_ok (entry _) _ _ loc (with_native n1 w)) by (unfold entry, get_world, mbind, M_bind, lift; cbn; by rewrite Hid).
  destruct (observe_quiet c (with_native n1 w) Hq1) as (t2 & n2 & Ho2 & Hq2 & _).
  unfold remaining. rewrite (M_bind_ok _ _ (with_native n1 w) ((λ d, u64_sat_sub d t2) <$> deadline c) (with_native n2 w));
    [|by rewrite Ho2].
  cbv zeta. match goal with |- context [read_journal _ _ _ _ ?x] => set (wt := x) end.
  destruct (quiet_open c (ps_directory s ++ [EVENTS_LOG]) n2 Hq2) as (n3 & Ho3 & Hq3).
  destruct (journal_page ph_eof (re_after_sequence r) (re_max_bytes r) (ps_journal s) l Hrep Hu64) as (res & Hres & _);
    [lia|done|].
  assert (Hrj : read_journal self loc (re_after_sequence r) (re_max_bytes r) wt (with_native n2 w)
    = (Ok res, with_native n3 w)).
  { unfold read_journal. rewrite (M_bind_ok _ _ _ s (with_native n2 w)) by (unfold get_session; cbn; by rewrite Hs).
    rewrite (M_bind_ok _ _ _ None (with_native n3 w)) by (unfold host_do, host; cbn [pw_native with_native]; by rewrite Ho3).
    cbv zeta. rewrite Hres, Hcl, andb_false_r. cbn [negb andb].
    rewrite (M_bind_ok _ _ _ tt (with_native n3 w)) by done.
    rewrite (M_bind_ok _ _ _ s (with_native n3 w)) by (unfold get_session; cbn; by rewrite Hs).
    unfold Journal.read, lift. rewrite Hres. step_result. rewrite Hcl, orb_true_r. done. }
  rewrite (M_bind_ok _ _ _ (inr res) (with_native n3 w)) by (unfold attempt; by rewrite Hrj).
  destruct wt; [|by exists res, n3].
  destruct (observe_quiet c (with_native n3 w) Hq3) as (t4 & n4 & Ho4 & Hq4 & _).
  rewrite (M_bind_ok _ _ _ false (with_native n4 w)) by (unfold is_cancelled; by rewrite Ho4). by exists res, n4.
Qed.

(** A reply is a page of the stream as it then is. *)
Lemma answered_page c r w res w' loc s l :
  manager_inv self w → manager_inv self w' → read self c r w = (Ok res, w') → re_execution_id r = id →
  (0 < re_max_bytes r ≤ u64_max)%N →
  pw_arena w' !! loc = Some s → id_of s = id → spawned s = true → journal_repr (ps_journal s) l →
  stream_page (view_of (ps_journal s) l) (re_after_sequence r) res.
Proof.
  intros Hinv Hinv' Hr Hid Hmax Hs Hids Hsp Hrep.
  destruct (read_answer c r w res w' Hinv Hr) as (loc' & s' & o & Hs' & Hids' & Hsp' & Hread).
  assert (loc' = loc) as -> by (eapply (to_distinct _ _ _ (proj1 Hinv')); [done..|congruence]).
  assert (s' = s) as -> by congruence. by eapply read_now_view.
Qed.
(** A read of a closed execution answers, and stays possible. *)
Lemma calm_answers c r w v :
  manager_calm c w → manager_records w v → re_execution_id r = id → re_generation r = pm_generation self →
  (0 < re_max_bytes r ≤ N.min (sl_max_process_read_bytes (pm_limits self)) u64_max)%N →
  re_wait_ms r ≠ Some 0%N → (re_after_sequence r ≤ N.of_nat (length (sv_units v)))%N →
  journals_fit (read self c r w).2 ∧ (∃ res, (read self c r w).1 = Ok res) ∧ manager_calm c (read self c r w).2.
Proof.
  intros (Hq & Hfit & loc & s & Hin & Hs & Hcl) [Hinv (loc' & s' & Hs' & [Hid' Hsp' (l & Hrep & _ & ->)])]
    Hid Hgen Hmax Hwait Hcur.
  destruct (to_sessions _ _ _ (proj1 Hinv) _ _ Hin) as (x & Hx & Hidx). assert (x = s) as -> by congruence.
  assert (loc = loc') as <-.
  { pose proof (proj2 Hinv _ _ _ Hin Hs) as Hsp. eapply (to_distinct _ _ _ (proj1 Hinv)); [done..|congruence]. }
  assert (s = s') as <- by congruence.
  destruct (read_closed c r w loc s l) as (res & n & Hread & Hq'); [done|by rewrite Hid|done|done|done|done|lia
    |unfold in_u64; lia|done|done|].
  rewrite Hread. cbn [fst snd]. split; [done|]. split; [by exists res|]. split; [done|]. split; [done|]. by exists loc, s.
Qed.
Lemma calm_checkpoint c w :
  manager_calm c w → (checkpointM c w).1 = Ok tt ∧ manager_calm c (checkpointM c w).2.
Proof. intros (Hq & Hfit & Hin). destruct (checkpoint_quiet c w Hq) as (n & Hc & Hq'). by rewrite Hc. Qed.

#[global] Instance manager_streams :
  ReadsStream (W := ProcessWorld V) (ProcessRuntime0 := manager_processes self)
    (pm_generation self) id (sl_max_process_read_bytes (pm_limits self)) journals_fit manager_shows manager_calm.
Proof.
  split.
  - intros c r w v Hs Hfit Hid. cbn [pr_read manager_processes] in *. destruct Hs as [Hinv Hsh].
    pose proof (step_read self w c r) as Hstep. destruct (mstep_inv self Hlimit _ _ Hstep Hinv) as [Hinv' Hg].
    destruct (shows_step w (read self c r w).2 v Hinv' (gr_session _ _ Hg) Hfit (conj Hinv Hsh)) as (v' & Hs' & Hl).
    exists v'. split; [done|]. split; [done|]. intros res Hmax Hres.
    destruct (read self c r w) as [out w'] eqn:Hr. cbn [fst snd] in *. subst out.
    destruct Hs' as [_ (loc & s & Hs & [Hids Hsp _ (l & Hrep & _ & ->)])]. by eapply (answered_page c r w res w' loc).
  - intros c w v [Hinv Hsh]. split; [by apply observe_inv|]. destruct (same_observe c w) as [-> _]. done.
  - intros w v us u more [_ (loc & s & _ & [_ _ _ (l & _ & Hlc & ->)])]. by apply view_close_last.
  - apply calm_checkpoint.
  - intros c r w v Hcalm [Hinv (loc & s & Hs & Hsh)] _. apply (calm_answers c r w v Hcalm).
    split; [done|]. exists loc, s. split; [done|by apply shows_records].
Qed.
#[global] Instance manager_pages :
  ReadsPages (W := ProcessWorld V) (ProcessRuntime0 := manager_processes self)
    (pm_generation self) id (sl_max_process_read_bytes (pm_limits self)) journals_fit manager_records manager_calm.
Proof.
  split.
  - intros c r w v Hs Hfit Hid. cbn [pr_read manager_processes] in *.
    pose proof (step_read self w c r) as Hstep. destruct (records_mstep _ _ v Hstep Hfit Hs) as (v' & Hs' & Hg).
    exists v'. split; [done|]. split; [done|]. intros res Hmax Hres.
    destruct (read self c r w) as [out w'] eqn:Hr. cbn [fst snd] in *. subst out.
    destruct Hs' as [Hinv' (loc & s & Hs2 & [Hids Hsp (l & Hrep & _ & ->)])].
    by eapply (answered_page c r w res w' loc); [apply Hs|..].
  - intros c r w v Hs Hfit. by apply (records_mstep w); [apply step_write|..].
  - intros c r w v Hs Hfit. by apply (records_mstep w); [apply step_signal|..].
  - intros c w v [Hinv Hsh]. split; [by apply observe_inv|]. destruct (same_observe c w) as [-> _]. done.
  - intros w v us u more [_ (loc & s & _ & [_ _ (l & _ & Hlc & ->)])]. by apply view_close_last.
  - intros w v [_ (loc & s & _ & [_ _ (l & _ & Hlc & ->)])]. by apply view_exit.
  - intros w v [_ (loc & s & _ & [_ _ (l & _ & Hlc & ->)])]. by apply view_closed.
  - apply calm_checkpoint.
  - intros c r w v Hcalm Hs _. by apply calm_answers.
Qed.

(** A start that answers leaves a stream of its execution. *)
Lemma start_session c r w h w' :
  manager_inv self w → start self c r w = (Ok h, w') → se_execution_id r = id → journals_fit w' →
  ∃ loc s v, pw_arena w' !! loc = Some s ∧ ps_request s = r ∧ session_records s v ∧ manager_inv self w'.
Proof.
  intros Hinv Hst Hid Hfit. pose proof (step_start self w c r) as Hstep.
  destruct (mstep_inv self Hlimit _ _ Hstep Hinv) as [Hinv' _]. rewrite Hst in Hinv'. cbn [snd] in Hinv'.
  destruct (start_ok self Hlimit (λ x, x = r) c r 0 w eq_refl (proj1 Hinv) (proj2 Hinv)) as (_ & _ & _ & Hout).
  rewrite Hst in Hout. destruct (Hout eq_refl) as (loc & s & Hs & Hsp & Hids & Hreq). cbn [snd] in Hs.
  destruct (to_stream _ _ _ (proj1 Hinv') _ _ Hs) as [_ Hstr]. destruct (Hstr Hencodes Happends) as [_ Hj].
  destruct (Hj (Hfit _ _ Hs)) as (l & _ & Hrep & Hlc).
  exists loc, s, (view_of (ps_journal s) l). split_and!; [done|done| |done].
  split; [congruence|done|by exists l].
Qed.
Lemma start_records c r w h w' :
  manager_inv self w → start self c r w = (Ok h, w') → se_execution_id r = id → journals_fit w' →
  ∃ v, manager_records w' v.
Proof.
  intros Hinv Hst Hid Hfit. destruct (start_session c r w h w' Hinv Hst Hid Hfit) as (loc & s & v & Hs & _ & Hv & Hinv').
  exists v. split; [done|]. by exists loc, s.
Qed.
Lemma start_shows c r w h w' :
  manager_inv self w → start self c r w = (Ok h, w') → se_execution_id r = id →
  se_output_drain_timeout_ms r = None → journals_fit w' →
  ∃ v, manager_shows w' v.
Proof.
  intros Hinv Hst Hid Hd Hfit.
  destruct (start_session c r w h w' Hinv Hst Hid Hfit) as (loc & s & v & Hs & Hreq & [Hids Hsp Hlog] & Hinv').
  exists v. split; [done|]. exists loc, s. split; [done|]. split; [done|done|by rewrite Hreq|done].
Qed.
(** Journals that fit now fitted before. *)
Lemma fit_before w w' : manager_inv self w → grown w w' → journals_fit w' → journals_fit w.
Proof.
  intros [Hok _] Hg Hfit loc s Hs. destruct (gr_session _ _ Hg loc s Hs) as (s' & Hs' & Hle).
  destruct (to_stream _ _ _ Hok _ _ Hs) as [_ Hstr]. destruct (Hstr Hencodes Happends) as [Ho _].
  destruct (sl_grows _ _ Hle Hencodes Ho) as [_ Hgr]. by destruct (Hgr (Hfit _ _ Hs')) as [? _].
Qed.
End streams.
