(* ===== verification/ManagerSamples.v ===== *)
(** A process manager over the in-memory filesystem of [NativeMemory], with a host
    whose processes start at once and accept every signal and write; and the
    manager's theorems at a run of it: a process is started, its output is read,
    it is given input, resized in vain and terminated, and every call is retried. *)
From Stdlib Require Import ZifyBool.
From stdpp Require Import prelude gmap strings pretty list relations.
From S2P Require Import Prelude.
From S2P Require Import Text.
From S2P Require Import Core.
From S2P Require Import Host.
From S2P Require Import ProcessCore.
From S2P Require Import ProcessLaunch.
From S2P Require Import Journal.
From S2P Require Import Resolver.
From S2P Require Import NativeMemory.
From S2P Require Import SupervisorFs.
From S2P Require Import Supervisor.
From S2P Require Import ProcessManager.
From S2P Require Import ManagerTable.
From S2P Require Import ManagerClients.

#[local] Existing Instances memory_native memory_debug native_clock sample_codec.

(** ** The host *)

Definition no_eof : IoError := {| io_kind := IoUnexpectedEof; io_display := str! "unexpected end of file" |}.
Definition done_at_once {A} (a : A) : nio NativeWorld A := λ v, (inr a, v).
#[local] Instance memory_host : ProcessHost NativeWorld := {
  ph_now := λ v, (1700%N, v);
  ph_instant := λ v, (5%N, v);
  ph_exists := λ p v, (match (n_symlink_metadata p v).1 with inl _ => false | inr _ => true end, v);
  ph_create_log := λ p, (λ v, let '(r, v') := n_write p [] v in
                              (match r with inl e => inl e | inr _ => inr [] end, v'));
  ph_open_log := λ p v, (None, v);
  ph_eof := no_eof;
  ph_spawn := λ plan, done_at_once (Some 41%N);
  ph_open_pty := λ columns rows, done_at_once tt;
  ph_clone_reader := done_at_once tt;
  ph_take_writer := done_at_once tt;
  ph_spawn_pty := λ plan, done_at_once (Some 42%N);
  ph_pty_readiness := λ v, (inr tt, v);
  ph_reap := λ pid v, v;
  ph_killpg := λ pid sig, done_at_once tt;
  ph_kill := λ pid sig, done_at_once tt;
  ph_kill_pty := λ pid, done_at_once tt;
  ph_write_input := λ pid data, done_at_once tt;
  ph_flush_input := λ pid, done_at_once tt;
  ph_close_input := λ pid v, v;
  ph_close_master := λ pid v, v;
  ph_resize_pty := λ pid columns rows, done_at_once tt;
}.
#[local] Instance memory_shells : ShellHost := {
  cfg_windows := false;
  cfg_macos := false;
  user_shell := None;
  path_is_file := λ p, str_eqb p (str! "/bin/bash");
  which := λ name, None;
  shell_variable := None;
}.
(** A digest without collisions, and a codec that writes different requests differently:
    their strings, each after its length, and then what they ask for. *)
#[local] Instance plain_digest : Digest := λ data, data.
Definition encode_fields (fields : list str) (rest : bytes) : bytes :=
  foldr (λ s rest, N.of_nat (length s) :: s ++ rest) rest fields.
#[local] Instance memory_process_codec : ProcessCodec := {
  encode_start := λ r, inr (as_str (se_execution_id r));
  encode_input := λ r, inr (encode_fields [as_str (wi_execution_id r); as_str (wi_generation r); as_str (wi_write_id r)]
    match wi_input r with InputData data => 1%N :: data | InputClose => [0%N] end);
  encode_resize := λ r, inr (encode_fields [as_str (rp_execution_id r); as_str (rp_generation r); as_str (rp_operation_id r)]
    [2; rp_columns r; rp_rows r]%N);
  encode_signal := λ r, inr (encode_fields [as_str (sg_execution_id r); as_str (sg_generation r); as_str (sg_operation_id r)]
    [3%N; match sg_signal r with SigInterrupt => 0 | SigTerminate => 1 | SigKill => 2 end%N]);
  encode_terminate := λ r,
    inr (encode_fields [as_str (te_execution_id r); as_str (te_generation r); as_str (te_operation_id r)] [4%N]);
}.
Lemma encode_fields_tell fields fields' rest rest' :
  length fields = length fields' → encode_fields fields rest = encode_fields fields' rest' → fields = fields' ∧ rest = rest'.
Proof.
  revert fields'. induction fields as [|s fields IH]; intros [|s' fields'] Hlen; try done. cbn. intros [= Hl%Nat2N.inj H].
  apply app_inj_1 in H as [<- H]; [|done]. injection Hlen as Hlen. by destruct (IH _ Hlen H) as [<- <-].
Qed.
Lemma sample_digest encoded : collision_free encoded.
Proof. by intros b b'. Qed.
Lemma same_id {k} (a b : string_id k) : as_str a = as_str b → a = b.
Proof. destruct a, b; cbn. by intros ->. Qed.
Lemma sample_input_codec : unambiguous encode_input.
Proof.
  intros [e g i d] [e' g' i' d'] b. unfold encode_input, memory_process_codec. cbn [wi_execution_id wi_generation wi_write_id wi_input].
  intros H1%(inj inr) H%(inj inr). subst b. apply encode_fields_tell in H as [[= He Hg Hi] Hd]; [|done].
  apply same_id in He as ->, Hg as ->, Hi as ->. destruct d, d'; by simplify_eq/=.
Qed.
Lemma sample_control_codec : unambiguous control_encoded.
Proof.
  intros [r|r|r] [r'|r'|r'] b; unfold control_encoded, encode_resize, encode_signal, encode_terminate, memory_process_codec;
    destruct r, r'; cbn -[encode_fields];
    intros H1%(inj inr) H%(inj inr); subst b; apply encode_fields_tell in H as [[= He Hg Hi] Hd]; try done;
    apply same_id in He as ->, Hg as ->, Hi as ->; simplify_eq/=; try done. by repeat case_match.
Qed.

(** ** A run *)

Definition sample_manager : ProcessManager :=
  {| pm_resolver := sample_resolver; pm_generation := generation_one;
     pm_executions_directory := [str! "state"; str! "executions"]; pm_limits := sample_limits |}.
Abbreviation sample_world := (ProcessWorld NativeWorld).
Definition sample_execution : ExecutionId := StringId (str! "exec-1").
Definition sample_start : StartExecutionRequest :=
  {| se_expected_generation := Some generation_one; se_output_drain_timeout_ms := None;
     se_operation_id := StringId (str! "start-1"); se_execution_id := sample_execution;
     se_command := Argv (str! "cat") []; se_cwd := at_work (str! "src");
     se_environment := {| env_mode := EnvEmpty; env_set := ∅; env_remove := ∅ |};
     se_stdin := StdinPipe; se_timeout_ms := Some 1000%N |}.
Definition sample_input : WriteProcessInputRequest :=
  {| wi_execution_id := sample_execution; wi_generation := generation_one;
     wi_write_id := StringId (str! "write-1"); wi_input := InputData (lit "hi") |}.
Definition sample_terminate : TerminateExecutionRequest :=
  {| te_operation_id := StringId (str! "kill-1"); te_execution_id := sample_execution;
     te_generation := generation_one |}.

(** A read scheduled before the readers exist does nothing; the process ends while
    the termination waits out its grace period. *)
Definition sample_schedule : list (list Task) :=
  [[]; []; [ReadOutput 0 Stdout (lit "early")]].
Definition process_world0 : sample_world := initial_world sample_schedule sample_native.
Abbreviation started_world :=
  ((start sample_manager quiet sample_start process_world0).2).
Definition sample_tasks : list Task :=
  [ReadOutput 0 Stdout (lit "hi"); ReadOutput 0 Stderr (lit "!"); CleanupTick].
Abbreviation busy_world :=
  (run_tasks sample_manager sample_tasks started_world).
Abbreviation written_world :=
  ((write sample_manager quiet sample_input busy_world).2).
Definition dying_schedule : list (list Task) :=
  [[]; [ReadEnds 0 Stdout; ReadEnds 0 Stderr; ChildExits 0 (inr 143%Z); Complete 0]].
Abbreviation dying_world :=
  (with_schedule dying_schedule (with_native (pw_native written_world) written_world)).
Abbreviation ended_world :=
  ((run_control sample_manager quiet (CallTerminate sample_terminate) dying_world).2).

Lemma sample_limit : (sl_max_concurrent_processes (pm_limits sample_manager) ≤ u32_max)%N.
Proof. by vm_compute. Qed.
Lemma call_reachable w w' : reachable sample_manager w → mstep sample_manager w w' → reachable sample_manager w'.
Proof. intros (sch & n & H) Hs. exists sch, n. by eapply rtc_r. Qed.
Lemma initial_reachable : reachable sample_manager process_world0.
Proof. exists sample_schedule, sample_native. unfold process_world0. apply rtc_refl. Qed.
Lemma reschedule sch w : mstep sample_manager w (with_schedule sch (with_native (pw_native w) w)).
Proof. apply step_host. Qed.
Lemma started_step : mstep sample_manager process_world0 started_world.
Proof. apply (step_start _ process_world0 quiet sample_start). Qed.
Lemma busy_step : mstep sample_manager started_world busy_world.
Proof. apply (step_tasks _ started_world sample_tasks). Qed.
Lemma written_step : mstep sample_manager busy_world written_world.
Proof. apply (step_write _ busy_world quiet sample_input). Qed.
Lemma busy_reachable : reachable sample_manager busy_world.
Proof. eapply call_reachable, busy_step. eapply call_reachable, started_step. apply initial_reachable. Qed.
Lemma dying_reachable : reachable sample_manager dying_world.
Proof. eapply call_reachable, reschedule. eapply call_reachable, written_step. apply busy_reachable. Qed.

(** ** The theorems at the run *)

Definition sample_handle : ExecutionHandle :=
  {| eh_execution_id := sample_execution; eh_generation := generation_one; eh_state := Running;
     eh_started_at := Some 1700%N |}.
(** The retry answers with the handle; a start of the same id with another command
    is refused; and neither does anything. *)
Definition other_start : StartExecutionRequest :=
  {| se_expected_generation := None; se_output_drain_timeout_ms := None;
     se_operation_id := StringId (str! "start-2"); se_execution_id := sample_execution;
     se_command := Argv (str! "ls") []; se_cwd := at_work (str! "src");
     se_environment := {| env_mode := EnvEmpty; env_set := ∅; env_remove := ∅ |};
     se_stdin := StdinClosedMode; se_timeout_ms := None |}.
Lemma start_at_most_once_witness :
  (start sample_manager quiet sample_start process_world0).1 = Ok sample_handle ∧
  (start sample_manager quiet sample_start busy_world).1 = Ok sample_handle ∧
  only_waits sample_manager quiet busy_world (start sample_manager quiet sample_start busy_world).2 ∧
  is_ok (start sample_manager quiet other_start busy_world).1 = false ∧
  only_waits sample_manager quiet busy_world (start sample_manager quiet other_start busy_world).2.
Proof.
  assert (H : (start sample_manager quiet sample_start process_world0).1 = Ok sample_handle)
    by (vm_compute; reflexivity).
  split_and!; [exact H|vm_compute; reflexivity| |vm_compute; reflexivity|].
  - exact (proj1 (start_at_most_once sample_manager sample_limit quiet quiet sample_start sample_start
      process_world0 busy_world sample_handle initial_reachable H (rtc_once _ _ busy_step) eq_refl)).
  - exact (proj1 (start_at_most_once sample_manager sample_limit quiet quiet sample_start other_start
      process_world0 busy_world sample_handle initial_reachable H (rtc_once _ _ busy_step) eq_refl)).
Defined.

(** Other input under the same id is refused. *)
Definition other_input : WriteProcessInputRequest :=
  {| wi_execution_id := sample_execution; wi_generation := generation_one;
     wi_write_id := StringId (str! "write-1"); wi_input := InputData (lit "ho") |}.
Lemma input_at_most_once_witness :
  (write sample_manager quiet sample_input busy_world).1 = Ok {| wp_status := Accepted |} ∧
  (write sample_manager quiet sample_input dying_world).1 = Ok {| wp_status := AlreadyAccepted |} ∧
  only_waits sample_manager quiet dying_world (write sample_manager quiet sample_input dying_world).2 ∧
  is_ok (write sample_manager quiet other_input dying_world).1 = false.
Proof.
  assert (H : (write sample_manager quiet sample_input busy_world).1 = Ok {| wp_status := Accepted |})
    by (vm_compute; reflexivity).
  split_and!; [exact H|vm_compute; reflexivity| |].
  - exact (proj1 (input_at_most_once sample_manager sample_limit quiet quiet sample_input sample_input
      busy_world dying_world busy_reachable H (rtc_once _ _ (reschedule _ _)) eq_refl eq_refl)).
  - pose proof (proj2 (input_at_most_once sample_manager sample_limit quiet quiet sample_input other_input
      busy_world dying_world busy_reachable H (rtc_once _ _ (reschedule _ _)) eq_refl eq_refl)) as Hsame.
    destruct (write sample_manager quiet other_input dying_world).1 as [res|e|]; [|reflexivity|reflexivity].
    destruct (Hsame res eq_refl) as (_ & _ & Heq). specialize (Heq sample_input_codec (sample_digest _)). discriminate Heq.
Defined.

(** The process ends during the termination; its retry answers what the first call
    answered, that the process was running. *)
Definition sample_ended : ControlResult := ControlTerminate {| was_running := true |}.
Definition sample_kill : SignalExecutionRequest :=
  {| sg_operation_id := StringId (str! "kill-1"); sg_execution_id := sample_execution;
     sg_generation := generation_one; sg_signal := SigKill |}.
Lemma control_at_most_once_witness :
  (run_control sample_manager quiet (CallTerminate sample_terminate) dying_world).1 = Ok sample_ended ∧
  (terminate sample_manager quiet sample_terminate ended_world).1 = Ok {| was_running := true |} ∧
  only_waits sample_manager quiet ended_world
    (run_control sample_manager quiet (CallTerminate sample_terminate) ended_world).2 ∧
  is_ok (run_control sample_manager quiet (CallSignal sample_kill) ended_world).1 = false.
Proof.
  assert (H : (run_control sample_manager quiet (CallTerminate sample_terminate) dying_world).1 = Ok sample_ended)
    by (vm_compute; reflexivity).
  split_and!; [exact H|vm_compute; reflexivity| |].
  - exact (proj1 (control_at_most_once sample_manager sample_limit quiet quiet
      (CallTerminate sample_terminate) (CallTerminate sample_terminate)
      dying_world ended_world sample_ended dying_reachable H (rtc_refl _ _) eq_refl eq_refl)).
  - pose proof (proj2 (control_at_most_once sample_manager sample_limit quiet quiet
      (CallTerminate sample_terminate) (CallSignal sample_kill)
      dying_world ended_world sample_ended dying_reachable H (rtc_refl _ _) eq_refl eq_refl)) as Hsame.
    destruct (run_control sample_manager quiet (CallSignal sample_kill) ended_world).1 as [res|e|]; [|reflexivity|reflexivity].
    destruct (Hsame res eq_refl) as (_ & _ & Heq). specialize (Heq sample_control_codec (sample_digest _)). discriminate Heq.
Defined.

Lemma one_process_per_execution_witness :
  pw_active busy_world = 1%N ∧ pw_active ended_world = 0%N ∧
  pw_active busy_world = N.of_nat (live_count (pw_arena busy_world)).
Proof.
  split_and!; [vm_compute; reflexivity|vm_compute; reflexivity|].
  exact (proj1 (proj2 (one_process_per_execution sample_manager sample_limit busy_world busy_reachable))).
Defined.
