(* ===== verification/OutputBuffers.v ===== *)
(** The bounded output buffers of the shell tools
    ([platform/packages/tools]): [HeadTailBuffer] of [unified-exec/src/buffer.rs],
    [Tail] of [bash-minimal/src/output.rs], and the token truncation of
    [unified-exec/src/output.rs].  Each is proved equal to a function of the whole
    byte stream, however the stream was cut into pushes. *)
From Stdlib Require Import ZifyBool.
From stdpp Require Import prelude gmap strings pretty list.
From S2P Require Import Prelude.
From S2P Require Import Text.

(** The last [k] elements. *)
Definition last_n {A} (k : nat) (l : list A) : list A := drop (length l - k) l.

(** ** Head and tail *)

Lemma last_n_app {A} k (a b : list A) :
  last_n k (a ++ b) = drop (length a + length b - k) a ++ drop (length a + length b - k - length a) b.
Proof. unfold last_n. by rewrite length_app, drop_app. Qed.
Lemma drop_min {A} (l : list A) n m : n `min` length l = m `min` length l → drop n l = drop m l.
Proof.
  intros H. destruct (decide (n ≤ length l)), (decide (m ≤ length l)).
  - f_equal. lia.
  - rewrite (drop_ge l m) by lia. apply drop_ge. lia.
  - rewrite (drop_ge l n) by lia. symmetry. apply drop_ge. lia.
  - by rewrite !drop_ge by lia.
Qed.

Module HeadTail.
Record HeadTailBuffer := { head : bytes; tail : bytes; max_bytes : nat; omitted_bytes : N }.

Definition new (max : nat) : HeadTailBuffer :=
  {| head := []; tail := []; max_bytes := max; omitted_bytes := 0 |}.
Definition head_budget (b : HeadTailBuffer) : nat := max_bytes b / 2.
Definition tail_budget (b : HeadTailBuffer) : nat := max_bytes b - head_budget b.
Definition retained_bytes (b : HeadTailBuffer) : nat := length (head b) + length (tail b).
Definition total_bytes (b : HeadTailBuffer) : N :=
  u64_sat_add (N.min (N.of_nat (retained_bytes b)) u64_max) (omitted_bytes b).

Definition push {E} (b : HeadTailBuffer) (input : bytes) : result E HeadTailBuffer :=
  let head_remaining := head_budget b - length (head b) in
  let head_len := length input `min` head_remaining in
  front ← slice input 0 head_len;
  input ← slice_from input head_len;
  let new_head := if 0 <? head_len then head b ++ front else head b in
  if bool_decide (input = []) then
    Ok {| head := new_head; tail := tail b; max_bytes := max_bytes b; omitted_bytes := omitted_bytes b |}
  else
    let previous := tail b in
    let combined_len := length previous + length input in
    let omitted := combined_len - tail_budget b in
    let keep_previous := length previous - omitted `min` length previous in
    let skipped_input := omitted - length previous in
    kept ← slice_from previous (length previous - keep_previous);
    added ← slice_from input (skipped_input `min` length input);
    Ok {| head := new_head; tail := kept ++ added; max_bytes := max_bytes b;
          omitted_bytes := u64_sat_add (omitted_bytes b) (N.min (N.of_nat omitted) u64_max) |}.

Definition omission (n : N) : str :=
  format! [[NL]; str! "... "; show_N n; str! " bytes omitted ..."; [NL]].
Definition text (b : HeadTailBuffer) : str :=
  from_utf8_lossy
    (head b ++ (if (0 <? omitted_bytes b)%N then utf8_encode (omission (omitted_bytes b)) else [])
     ++ tail b).

(** The buffer as a function of everything pushed. *)
Definition describes (max : nat) (all : bytes) (b : HeadTailBuffer) : Prop :=
  let hb := max / 2 in
  max_bytes b = max ∧ head b = take hb all ∧ tail b = last_n (max - hb) (drop hb all) ∧
  omitted_bytes b = N.min (N.of_nat (length all - max)) u64_max.

(** What the push keeps of the previous tail and of its input. *)
Lemma tail_kept {A} (T : nat) (d i : list A) :
  let previous := last_n T d in
  let omitted := length previous + length i - T in
  drop (length previous - (length previous - omitted `min` length previous)) previous
  ++ drop ((omitted - length previous) `min` length i) i = last_n T (d ++ i).
Proof.
  cbv zeta. rewrite last_n_app. unfold last_n. rewrite length_drop, drop_drop.
  f_equal; apply drop_min; lia.
Qed.
Lemma omitted_sum (hb max all input n : nat) :
  hb ≤ max → n = input `min` (hb - hb `min` all) →
  u64_sat_add (N.min (N.of_nat (all - max)) u64_max)
    (N.min (N.of_nat ((max - hb) `min` (all - hb) + (input - n) - (max - hb))) u64_max)
  = N.min (N.of_nat (all + input - max)) u64_max.
Proof. intros Hhb Hn. unfold u64_sat_add. generalize u64_max. intros U. lia. Qed.
Lemma push_describes {E} max all b input :
  describes max all b → ∃ b', push (E:=E) b input = Ok b' ∧ describes max (all ++ input) b'.
Proof.
  intros (Hm & Hh & Ht & Ho). unfold push, tail_budget, head_budget. rewrite Hm.
  assert (Hhb : max / 2 ≤ max) by (apply Nat.Div0.div_le_upper_bound; lia).
  unfold describes. revert Hh Ht Hhb. cbv zeta. generalize (max / 2). intros hb Hh Ht Hhb.
  assert (Hlh : length (head b) = hb `min` length all) by (rewrite Hh, length_take; lia).
  rewrite slice_ok, slice_from_ok by lia. step_result. rewrite drop_0, Nat.sub_0_r.
  set (n := length input `min` (hb - length (head b))).
  assert (Hhead : (if 0 <? n then head b ++ take n input else head b) = take hb (all ++ input)).
  { rewrite Hh, take_app. replace (if 0 <? n then _ else _) with (take hb all ++ take n input).
    - f_equal. unfold n. destruct (decide (length input ≤ hb - length all)).
      + rewrite !take_ge; [done|lia|lia].
      + f_equal. lia.
    - destruct (Nat.ltb_spec 0 n); [done|]. replace n with 0 by lia. by rewrite take_0, app_nil_r. }
  assert (Hrest : drop hb (all ++ input) = drop hb all ++ drop n input).
  { rewrite drop_app. f_equal. unfold n. destruct (decide (length input ≤ hb - length all)).
    - rewrite !drop_ge; [done|lia|lia].
    - f_equal. lia. }
  rewrite Hhead. case_bool_decide as Hnil.
  - eexists. split; [done|]. split_and!; cbn [head tail max_bytes omitted_bytes]; [done|done| |].
    + by rewrite Hrest, Hnil, app_nil_r.
    + rewrite Ho. apply (f_equal length) in Hnil. rewrite length_drop in Hnil. cbn in Hnil.
      rewrite length_app. f_equal. f_equal. lia.
  - assert (Hn : n < length input).
    { destruct (decide (n < length input)); [done|]. by rewrite drop_ge in Hnil by lia. }
    set (d := drop hb all) in *. set (i := drop n input) in *.
    assert (Hlt : length (tail b) = (max - hb) `min` length d).
    { rewrite Ht. unfold last_n. rewrite length_drop. lia. }
    assert (Hld : length d = length all - hb) by (unfold d; by rewrite length_drop).
    assert (Hli : length i = length input - n) by (unfold i; by rewrite length_drop).
    rewrite !slice_from_ok by first [apply Nat.le_sub_l | apply Nat.le_min_r]. step_result. eexists. split; [done|].
    split_and!; cbn [head tail max_bytes omitted_bytes]; [done|done| |].
    + rewrite Hrest, Ht. apply tail_kept.
    + rewrite Ho, Hlt, Hld, Hli, length_app. apply omitted_sum; [lia|].
      unfold n. rewrite Hlh. clear. lia.
Qed.

Fixpoint push_all {E} (b : HeadTailBuffer) (inputs : list bytes) : result E HeadTailBuffer :=
  match inputs with
  | [] => Ok b
  | input :: inputs => b ← push b input; push_all b inputs
  end.
Lemma push_all_describes {E} max all b inputs :
  describes max all b → ∃ b', push_all (E:=E) b inputs = Ok b' ∧ describes max (all ++ concat inputs) b'.
Proof.
  revert all b. induction inputs as [|input inputs IH]; intros all b Hb; cbn [push_all concat].
  - exists b. by rewrite app_nil_r.
  - destruct (push_describes (E:=E) max all b input Hb) as (b1 & -> & Hb1).
    destruct (IH _ _ Hb1) as (b2 & Hp & Hb2). exists b2. by rewrite (assoc_L (++)).
Qed.
Lemma new_describes max : describes max [] (new max).
Proof. split_and!; [done|by rewrite take_nil|by rewrite drop_nil|done]. Qed.

(** Whatever chunks the output arrives in, the buffer never panics and holds
    the first half of its budget and the last bytes of what follows; it retains
    no more than its budget, and accounts for every byte that fits a [u64]. *)
Theorem head_tail_window (max : nat) (inputs : list bytes) :
  let all := concat inputs in
  ∃ b, push_all (E:=unit) (new max) inputs = Ok b ∧
    head b = take (max / 2) all ∧ tail b = last_n (max - max / 2) (drop (max / 2) all) ∧
    retained_bytes b = max `min` length all ∧
    (in_u64 (N.of_nat (length all)) → total_bytes b = N.of_nat (length all)).
Proof.
  intros all. destruct (push_all_describes (E:=unit) max [] (new max) inputs (new_describes max))
    as (b & Hb & Hm & Hh & Ht & Ho). cbn [app] in *. fold all in Hh, Ht, Ho.
  assert (Hret : retained_bytes b = max `min` length all).
  { unfold retained_bytes. rewrite Hh, Ht. unfold last_n. rewrite length_take, !length_drop.
    pose proof (Nat.Div0.div_le_upper_bound max 2 max). lia. }
  exists b. split_and!; [done|done|done|done|].
  unfold total_bytes, u64_sat_add, in_u64. rewrite Hret, Ho. generalize u64_max. intros U HU. lia.
Qed.
Lemma head_tail_window_witness :
  let inputs := [lit "0123"; lit "456789abcdef"] in
  (text <$> push_all (E:=unit) (new 10) inputs)
    = Ok (lit "01234" ++ [NL] ++ lit "... 6 bytes omitted ..." ++ [NL] ++ lit "bcdef") ∧
  ∃ b, push_all (E:=unit) (new 10) inputs = Ok b ∧ retained_bytes b = 10.
Proof.
  split; [vm_compute; reflexivity|].
  destruct (head_tail_window 10 [lit "0123"; lit "456789abcdef"]) as (b & Hb & _ & _ & Hr & _).
  exists b. split; [exact Hb|exact Hr].
Defined.
End HeadTail.

(** ** The tail of whole lines *)

Module TailBuffer.
Record Tail := { bytes_ : bytes; max_bytes : nat; max_lines : nat; total_bytes : N; truncated : bool }.

Definition new (max_bytes max_lines : nat) : Tail :=
  {| bytes_ := []; max_bytes := max_bytes; max_lines := max_lines; total_bytes := 0; truncated := false |}.

(** The loop over the bytes from the last: the position after the newline that
    makes one line too many.  The bytes are given in reverse, so the index of the
    first is the number of those after it. *)
Fixpoint line_start (max_lines lines : nat) (reversed : bytes) : nat :=
  match reversed with
  | [] => 0
  | b :: reversed =>
    if (b =? NL)%N then
      let lines := S lines in
      if max_lines <? lines then S (length reversed) else line_start max_lines lines reversed
    else line_start max_lines lines reversed
  end.
Definition unterminated (data : bytes) : nat :=
  match last data with Some b => if (b =? NL)%N then 0 else 1 | None => 0 end.

Definition push {E} (t : Tail) (incoming : bytes) : result E Tail :=
  let previous := bytes_ t in
  let keep_incoming := length incoming `min` max_bytes t in
  room ← usize_sub (max_bytes t) keep_incoming;
  let keep_previous := length previous `min` room in
  from_previous ← usize_sub (length previous) keep_previous;
  from_incoming ← usize_sub (length incoming) keep_incoming;
  kept ← slice_from previous from_previous;
  added ← slice_from incoming from_incoming;
  let data := kept ++ added in
  let start := line_start (max_lines t) (unterminated data) (reverse data) in
  Ok {| bytes_ := if 0 <? start then drop start data else data;
        max_bytes := max_bytes t; max_lines := max_lines t;
        total_bytes := u64_sat_add (total_bytes t) (N.of_nat (length incoming));
        truncated := truncated t || (keep_incoming <? length incoming)
                     || (keep_previous <? length previous) || (0 <? start) |}.

(** [text]: a cut character at the front of a truncated buffer is dropped. *)
Fixpoint skip_continuation (data : bytes) : bytes :=
  match data with
  | b :: data => if is_continuation b then skip_continuation data else b :: data
  | [] => []
  end.
Definition text (t : Tail) : str :=
  from_utf8_lossy (if truncated t then skip_continuation (bytes_ t) else bytes_ t).

(** *** The buffer as a function of everything pushed

    In reverse, keeping whole lines is taking bytes until one newline too many. *)
Fixpoint keep_lines (k : nat) (reversed : bytes) : bytes :=
  match reversed with
  | [] => []
  | b :: reversed =>
    if (b =? NL)%N then match k with 0 => [] | S k => b :: keep_lines k reversed end
    else b :: keep_lines k reversed
  end.
Definition newlines (data : bytes) : nat := length (filter (λ b, b = NL) data).
(** The last [lines] lines of the last [max] bytes, an unterminated line counted. *)
Definition window (max lines : nat) (all : bytes) : bytes :=
  let data := take max (reverse all) in
  reverse (keep_lines (lines - unterminated (reverse data)) data).

Lemma line_start_le max lines r : line_start max lines r ≤ length r.
Proof.
  revert lines. induction r as [|b r IH]; intros lines; cbn [line_start length]; [done|].
  destruct (b =? NL)%N; [destruct (max <? S lines); [lia|]|]; etrans; [apply IH|lia|apply IH|lia].
Qed.
Lemma line_start_keep max lines r :
  drop (line_start max lines r) (reverse r) = reverse (keep_lines (max - lines) r).
Proof.
  revert lines. induction r as [|b r IH]; intros lines; [done|]. cbn [line_start keep_lines].
  rewrite reverse_cons. destruct (b =? NL)%N; [destruct (Nat.ltb_spec max (S lines))|].
  - replace (max - lines) with 0 by lia. apply drop_ge. rewrite length_app, length_reverse. simpl. lia.
  - replace (max - lines) with (S (max - S lines)) by lia. rewrite reverse_cons, <-IH.
    apply drop_app_le. rewrite length_reverse. apply line_start_le.
  - rewrite reverse_cons, <-IH. apply drop_app_le. rewrite length_reverse. apply line_start_le.
Qed.

Lemma newlines_app a b : newlines (a ++ b) = newlines a + newlines b.
Proof. unfold newlines. by rewrite filter_app, length_app. Qed.
Lemma newlines_cons b r : newlines (b :: r) = (if (b =? NL)%N then 1 else 0) + newlines r.
Proof. unfold newlines. rewrite filter_cons. destruct (N.eqb_spec b NL); by case_decide. Qed.
Lemma keep_lines_app k a b :
  newlines a ≤ k → keep_lines k (a ++ b) = a ++ keep_lines (k - newlines a) b.
Proof.
  revert k. induction a as [|x a IH]; intros k; cbn [app]; [by rewrite Nat.sub_0_r|].
  rewrite newlines_cons. cbn [keep_lines]. destruct (x =? NL)%N; intros Hk.
  - destruct k as [|k]; [lia|]. rewrite IH by lia. done.
  - by rewrite IH by lia.
Qed.
Lemma keep_lines_over k a b : k < newlines a → keep_lines k (a ++ b) = keep_lines k a.
Proof.
  revert k. induction a as [|x a IH]; intros k; [unfold newlines; simpl; lia|].
  rewrite newlines_cons. cbn [app keep_lines]. destruct (x =? NL)%N; intros Hk.
  - destruct k as [|k]; [done|]. by rewrite IH by lia.
  - by rewrite IH by lia.
Qed.
Lemma keep_lines_stop k q z : k ≤ newlines q → keep_lines k (q ++ NL :: z) = keep_lines k q.
Proof.
  intros Hk. destruct (decide (newlines q = k)) as [<-|Hne]; [|apply keep_lines_over; lia].
  rewrite keep_lines_app, Nat.sub_diag by done. cbn [keep_lines]. rewrite N.eqb_refl, app_nil_r.
  rewrite <-(app_nil_r q) at 3. rewrite keep_lines_app by done. by rewrite app_nil_r.
Qed.
Lemma keep_lines_cut k a :
  keep_lines k a = a ∨ ∃ rest, a = keep_lines k a ++ NL :: rest ∧ newlines (keep_lines k a) = k.
Proof.
  revert k. induction a as [|x a IH]; intros k; [by left|]. cbn [keep_lines].
  destruct (N.eqb_spec x NL) as [->|Hx].
  - destruct k as [|k]; [right; by exists a|].
    destruct (IH k) as [->|(rest & Ha & Hk)]; [by left|]. right. exists rest. split.
    + cbn [app]. by rewrite <-Ha.
    + rewrite newlines_cons, Hk. done.
  - destruct (IH k) as [->|(rest & Ha & Hk)]; [by left|]. right. exists rest. split.
    + cbn [app]. by rewrite <-Ha.
    + rewrite newlines_cons, Hk. apply N.eqb_neq in Hx as ->. done.
Qed.
Lemma newlines_keep k a : newlines (keep_lines k a) ≤ k.
Proof.
  destruct (decide (newlines a ≤ k)) as [H|H].
  - replace (keep_lines k a) with a; [done|]. symmetry. rewrite <-(app_nil_r a) at 1.
    rewrite keep_lines_app by done. apply app_nil_r.
  - destruct (keep_lines_cut k a) as [Ha|(rest & _ & ->)]; [|done].
    exfalso. revert H Ha. revert k. induction a as [|x a IH]; intros k; [unfold newlines; simpl; lia|].
    rewrite newlines_cons. cbn [keep_lines]. destruct (x =? NL)%N.
    + destruct k as [|k]; [done|]. intros H [= Ha]. by apply (IH k); [lia|].
    + intros H [= Ha]. by apply (IH k); [lia|].
Qed.

(** The window in reverse. *)
Definition unt (r : bytes) : nat := match r with b :: _ => if (b =? NL)%N then 0 else 1 | [] => 0 end.
Lemma unterminated_reverse r : unterminated (reverse r) = unt r.
Proof. unfold unterminated. destruct r as [|b r]; [done|]. by rewrite reverse_cons, last_snoc. Qed.
Definition rwindow (m L : nat) (r : bytes) : bytes := keep_lines (L - unt (take m r)) (take m r).
Lemma window_reverse m L all : window m L all = reverse (rwindow m L (reverse all)).
Proof. unfold window, rwindow. by rewrite unterminated_reverse. Qed.

Lemma keep_lines_prefix k a : keep_lines k a `prefix_of` a.
Proof. destruct (keep_lines_cut k a) as [->|(rest & Ha & _)]; [done|]. by exists (NL :: rest). Qed.
(** Keeping the window of the past is as good as keeping the past. *)
Lemma rwindow_app m L t r : rwindow m L (t ++ rwindow m L r) = rwindow m L (t ++ r).
Proof.
  set (p := rwindow m L r). assert (Hp : p = keep_lines (L - unt (take m r)) (take m r)) by done.
  destruct (keep_lines_cut (L - unt (take m r)) (take m r)) as [Hall|(rest & Hcut & Hk)];
    rewrite <-Hp in *.
  - unfold rwindow. rewrite !take_app, Hall, take_take. by rewrite Nat.min_l by lia.
  - assert (Hr : r = p ++ NL :: rest ++ drop m r).
    { rewrite app_comm_cons, (assoc_L (++)), <-Hcut. by rewrite take_drop. }
    destruct (decide (m ≤ length (t ++ p))) as [Hlong|Hshort].
    { unfold rwindow. assert (Ht : take m (t ++ r) = take m (t ++ p)); [|by rewrite Ht].
      rewrite Hr at 1. by rewrite (assoc_L (++)), take_app_le by done. }
    assert (Ht : take m (t ++ r) = (t ++ p) ++ take (m - length (t ++ p)) (NL :: rest ++ drop m r)).
    { rewrite Hr at 1. rewrite (assoc_L (++)), take_app. by rewrite (take_ge (t ++ p)) by lia. }
    unfold rwindow. rewrite Ht, (take_ge (t ++ p)) by lia. clear Ht.
    destruct (m - length (t ++ p)) as [|n]; [by rewrite take_0, app_nil_r|]. cbn [take].
    set (z := take n (rest ++ drop m r)).
    assert (Hunt : unt ((t ++ p) ++ NL :: z) = unt (t ++ p)) by by destruct (t ++ p).
    rewrite Hunt. symmetry. apply keep_lines_stop. destruct t as [|b t]; cbn [app].
    + rewrite Hk. replace (unt p) with (unt (take m r)); [done|]. rewrite Hcut. by destruct p.
    + change (b :: t ++ p) with ((b :: t) ++ p). rewrite newlines_app, newlines_cons, Hk. cbn [app unt].
      assert (unt (take m r) ≤ 1) by (unfold unt; repeat case_match; lia).
      destruct (b =? NL)%N; lia.
Qed.

Lemma last_n_reverse {A} k (l : list A) : last_n k l = reverse (take k (reverse l)).
Proof.
  unfold last_n. rewrite <-(take_drop (length l - k) l) at 3. rewrite reverse_app.
  destruct (decide (k ≤ length l)).
  - rewrite take_app_length' by (rewrite length_reverse, length_drop; lia). by rewrite reverse_involutive.
  - replace (length l - k) with 0 by lia. rewrite take_0, app_nil_r, drop_0.
    rewrite take_ge by (rewrite length_reverse; lia). by rewrite reverse_involutive.
Qed.

(** The buffer holds the window of everything pushed, and knows when that is less. *)
Definition holds (mb ml : nat) (all : bytes) (t : Tail) : Prop :=
  max_bytes t = mb ∧ max_lines t = ml ∧ bytes_ t = window mb ml all ∧
  length (bytes_ t) ≤ length all ∧
  total_bytes t = N.min (N.of_nat (length all)) u64_max ∧
  truncated t = (length (bytes_ t) <? length all).

Lemma push_holds {E} mb ml all t incoming :
  holds mb ml all t → ∃ t', push (E:=E) t incoming = Ok t' ∧ holds mb ml (all ++ incoming) t'.
Proof.
  intros (Hmb & Hml & Hw & Hle & Htot & Htr). unfold push. rewrite Hmb, Hml.
  set (prev := bytes_ t) in *.
  repeat (rewrite usize_sub_ok by lia; step_result).
  repeat (rewrite slice_from_ok by lia; step_result).
  set (ki := length incoming `min` mb). set (kp := length prev `min` (mb - ki)).
  assert (Hdata : drop (length prev - kp) prev ++ drop (length incoming - ki) incoming
                  = last_n mb (prev ++ incoming)).
  { rewrite last_n_app. f_equal; apply drop_min; lia. }
  rewrite Hdata. set (data := last_n mb (prev ++ incoming)).
  set (start := line_start ml (unterminated data) (reverse data)).
  assert (Hlen : length data = mb `min` (length prev + length incoming)).
  { unfold data, last_n. rewrite length_drop, length_app. lia. }
  assert (Hstart : start ≤ length data).
  { unfold start. rewrite <-(length_reverse data). apply line_start_le. }
  assert (Hbytes : (if 0 <? start then drop start data else data) = drop start data).
  { destruct (Nat.ltb_spec 0 start); [done|]. replace start with 0 by lia. done. }
  rewrite Hbytes. eexists. split; [done|].
  unfold holds; cbn [bytes_ max_bytes max_lines total_bytes truncated].
  rewrite length_drop, length_app. split_and!; [done|done| |lia| |].
  - pose proof (line_start_keep ml (unterminated data) (reverse data)) as Hcut.
    rewrite reverse_involutive in Hcut. unfold start. rewrite Hcut. clear Hcut.
    rewrite window_reverse, reverse_app, <-rwindow_app. f_equal.
    rewrite window_reverse in Hw. rewrite <-(reverse_involutive (rwindow mb ml (reverse all))), <-Hw.
    unfold data at 1. rewrite last_n_reverse, unterminated_reverse, reverse_app.
    unfold data. by rewrite last_n_reverse, reverse_involutive, reverse_app.
  - rewrite Htot. unfold u64_sat_add. generalize u64_max. intros U. lia.
  - rewrite Htr. unfold kp, ki. rewrite Hlen in *. lia.
Qed.
Fixpoint push_all {E} (t : Tail) (inputs : list bytes) : result E Tail :=
  match inputs with
  | [] => Ok t
  | input :: inputs => t ← push t input; push_all t inputs
  end.
Lemma push_all_holds {E} mb ml all t inputs :
  holds mb ml all t → ∃ t', push_all (E:=E) t inputs = Ok t' ∧ holds mb ml (all ++ concat inputs) t'.
Proof.
  revert all t. induction inputs as [|input inputs IH]; intros all t Ht; cbn [push_all concat].
  - exists t. by rewrite app_nil_r.
  - destruct (push_holds (E:=E) mb ml all t input Ht) as (t1 & -> & Ht1).
    destruct (IH _ _ Ht1) as (t2 & Hp & Ht2). exists t2. by rewrite (assoc_L (++)).
Qed.
Lemma new_holds mb ml : holds mb ml [] (new mb ml).
Proof. split_and!; [done|done| |simpl; lia|done|done]. unfold window. by rewrite reverse_nil, take_nil. Qed.

Lemma window_suffix mb ml all : window mb ml all `suffix_of` all.
Proof.
  rewrite window_reverse. unfold rwindow. set (k := ml - _).
  destruct (keep_lines_prefix k (take mb (reverse all))) as [rest Hrest].
  exists (reverse (rest ++ drop mb (reverse all))). rewrite <-reverse_app, (assoc_L (++)), <-Hrest.
  by rewrite take_drop, reverse_involutive.
Qed.
(** Lines as [max_lines] counts them. *)
Definition line_count (data : bytes) : nat := newlines data + unterminated data.
Lemma newlines_reverse r : newlines (reverse r) = newlines r.
Proof.
  unfold newlines. induction r as [|b r IH]; [done|].
  rewrite reverse_cons, filter_app, length_app, IH, !filter_cons, filter_nil. case_decide; simpl; lia.
Qed.
Lemma window_lines mb ml all : 0 < ml → line_count (window mb ml all) ≤ ml.
Proof.
  intros Hml. rewrite window_reverse. unfold line_count, rwindow.
  rewrite newlines_reverse, unterminated_reverse. set (data := take mb (reverse all)).
  pose proof (newlines_keep (ml - unt data) data) as Hn.
  destruct (keep_lines_prefix (ml - unt data) data) as [rest Hrest].
  destruct (keep_lines (ml - unt data) data) as [|b p] eqn:E; [simpl; lia|].
  replace (unt (b :: p)) with (unt data) by by rewrite Hrest.
  assert (unt data ≤ 1) by (unfold unt; repeat case_match; lia). lia.
Qed.

Lemma char_utf8_shape c :
  ∃ h t, char_utf8 c = h :: t ∧ is_continuation h = false ∧ Forall (λ b, is_continuation b = true) t.
Proof.
  assert (Hc : ∀ n, is_continuation (128 + n mod 64)%N = true).
  { intros n. unfold is_continuation. pose proof (N.mod_lt n 64 ltac:(lia)) as Hn.
    revert Hn. generalize (n mod 64)%N. lia. }
  unfold char_utf8. destruct (N.ltb_spec c 128); [|destruct (N.ltb_spec c 2048); [|destruct (N.ltb_spec c 65536)]];
    (eexists _, _; split; [done|split; [|repeat first [apply Forall_nil_2 | apply Forall_cons_2; [apply Hc|]]]]);
    unfold is_continuation; apply andb_false_iff.
  - left. lia.
  - right. generalize (c / 64)%N. intros n. apply N.ltb_ge. lia.
  - right. generalize (c / 4096)%N. intros n. apply N.ltb_ge. lia.
  - right. generalize (c / 262144)%N. intros n. apply N.ltb_ge. lia.
Qed.
Lemma skip_continuation_id s : skip_continuation (utf8_encode s) = utf8_encode s.
Proof.
  destruct s as [|c s]; [done|]. rewrite utf8_encode_cons.
  destruct (char_utf8_shape c) as (h & t & -> & Hh & _). cbn [app skip_continuation]. by rewrite Hh.
Qed.
Lemma skip_continuation_app a s :
  Forall (λ b, is_continuation b = true) a → skip_continuation (a ++ utf8_encode s) = utf8_encode s.
Proof. induction 1 as [|b a Hb _ IH]; cbn [app skip_continuation]; [apply skip_continuation_id|by rewrite Hb]. Qed.
(** Cutting an encoding anywhere and dropping the broken character leaves the
    encoding of a suffix. *)
Lemma skip_continuation_suffix s data :
  data `suffix_of` utf8_encode s →
  ∃ s', s' `suffix_of` s ∧ skip_continuation data = utf8_encode s'.
Proof.
  induction s as [|c s IH].
  - intros [a Ha]. exists []. split; [done|]. symmetry in Ha. apply app_nil in Ha as [_ ->]. done.
  - rewrite utf8_encode_cons. intros [a Ha].
    destruct (decide (length (char_utf8 c) ≤ length a)) as [Hlen|Hlen].
    + destruct IH as (s' & Hs' & Heq).
      * exists (drop (length (char_utf8 c)) a).
        apply (f_equal (drop (length (char_utf8 c)))) in Ha.
        by rewrite drop_app_length, drop_app_le in Ha by done.
      * exists s'. split; [by apply suffix_cons_r|done].
    + destruct (char_utf8_shape c) as (h & t & Hc & Hh & Ht). rewrite Hc in *.
      destruct a as [|x a].
      * exists (c :: s). split; [done|]. cbn [app] in Ha. subst data.
        cbn [app skip_continuation]. rewrite Hh, utf8_encode_cons, Hc. done.
      * exists s. split; [by apply suffix_cons_r|]. cbn [app] in Ha. injection Ha as -> Ha.
        cbn [length] in Hlen. apply (f_equal (drop (length a))) in Ha.
        rewrite drop_app_length, drop_app_le in Ha by lia. subst data.
        apply skip_continuation_app. by apply Forall_drop.
Qed.

(** Whatever chunks the output arrives in, the tail never panics and holds the
    last lines of the last bytes of everything pushed: a suffix of it, of at most
    [max_bytes] bytes and [max_lines] lines, marked truncated exactly when it is
    not all.  When the output is UTF-8, split as it may be, the text shown is a
    suffix of its characters, with no replacement characters added. *)
Theorem tail_window (mb ml : nat) (inputs : list bytes) :
  0 < ml →
  let all := concat inputs in
  ∃ t, push_all (E:=unit) (new mb ml) inputs = Ok t ∧
    bytes_ t = window mb ml all ∧ bytes_ t `suffix_of` all ∧
    length (bytes_ t) ≤ mb ∧ line_count (bytes_ t) ≤ ml ∧
    (truncated t = true ↔ bytes_ t ≠ all) ∧
    ∀ s, valid_str s → all = utf8_encode s → text t `suffix_of` s ∧ (truncated t = false → text t = s).
Proof.
  intros Hml all. destruct (push_all_holds (E:=unit) mb ml [] (new mb ml) inputs (new_holds mb ml))
    as (t & Ht & _ & _ & Hw & Hle & _ & Htr). cbn [app] in *. fold all in Hw, Hle, Htr.
  assert (Hsuf : bytes_ t `suffix_of` all) by (rewrite Hw; apply window_suffix).
  assert (Hall : truncated t = true ↔ bytes_ t ≠ all).
  { rewrite Htr, Nat.ltb_lt. split; [intros Hlt Heq; rewrite Heq in Hlt; lia|]. intros Hne.
    destruct Hsuf as [a Ha]. destruct a as [|x a]; [by cbn [app] in Ha|].
    rewrite Ha, length_app. simpl. lia. }
  exists t. split_and!; [done|done|done| |rewrite Hw; by apply window_lines|done|].
  - rewrite Hw, window_reverse. unfold rwindow. rewrite length_reverse.
    match goal with |- length (keep_lines ?k ?d) ≤ _ => pose proof (prefix_length _ _ (keep_lines_prefix k d)) as Hp end.
    rewrite length_take in Hp. lia.
  - intros s Hs Hall'. unfold text. destruct (truncated t).
    + rewrite Hall' in Hsuf. apply skip_continuation_suffix in Hsuf as (s' & Hs' & ->).
      rewrite from_utf8_lossy_encode; [done|]. destruct Hs' as [a ->]. by apply Forall_app in Hs as [_ ?].
    + assert (bytes_ t = all) as ->.
      { destruct (decide (bytes_ t = all)) as [|Hne]; [done|]. by apply Hall in Hne. }
      by rewrite Hall', from_utf8_lossy_encode.
Qed.
Lemma tail_window_witness :
  let inputs := [lit "a" ++ [NL]; lit "b" ++ [NL]; [195%N]; [169%N; NL]] in
  (text <$> push_all (E:=unit) (new 100 2) inputs) = Ok (lit "b" ++ [NL; 233%N; NL]) ∧
  ∃ t, push_all (E:=unit) (new 100 2) inputs = Ok t ∧ line_count (bytes_ t) ≤ 2.
Proof.
  split; [vm_compute; reflexivity|].
  destruct (tail_window 100 2 [lit "a" ++ [NL]; lit "b" ++ [NL]; [195%N]; [169%N; NL]])
    as (t & Ht & _ & _ & _ & Hl & _); [lia|].
  exists t. split; [exact Ht|exact Hl].
Defined.
End TailBuffer.
