(* ===== verification/ExecOutput.v ===== *)
(** The output of an exec call as the model sees it,
    [platform/packages/tools/unified-exec/src/output.rs]: cut to a budget of tokens
    (four bytes each) at both ends, with the metadata in front and within what the
    history leaves for it. *)
From Stdlib Require Import ZifyBool.
From stdpp Require Import prelude gmap strings pretty list.
From S2P Require Import Prelude.
From S2P Require Import Text.
From S2P Require Import TextEdit.

Definition APPROX_BYTES_PER_TOKEN : N := 4.
Definition ELLIPSIS : char := 8230.

(** The wall time is kept in milliseconds; the code holds their thousandth as a
    float. *)
Record UnifiedExecOutput := {
  uo_chunk_id : option str;
  uo_wall_time_ms : N;
  uo_exit_code : option Z;
  uo_session_id : option Z;
  uo_original_token_count : option N;
  uo_output : str;
  uo_max_output_tokens : option N;
  uo_model_output_tokens : N;
  uo_history_output_tokens : N;
  uo_omitted_bytes : N;
}.

Definition approximate_tokens (bytes : N) : N :=
  (u64_sat_add bytes (APPROX_BYTES_PER_TOKEN - 1) / APPROX_BYTES_PER_TOKEN)%N.

(** The end of the last character that ends within [limit]. *)
Fixpoint prefix_end (index : nat) (limit : N) (s : str) (end_ : nat) : nat :=
  match s with
  | [] => end_
  | c :: s =>
    let e := index + len_utf8 c in
    if (limit <? N.of_nat e)%N then end_ else prefix_end e limit s e
  end.
(** The first character that starts at [target] or later. *)
Fixpoint first_boundary (index : nat) (target : N) (s : str) : option nat :=
  match s with
  | [] => None
  | c :: s => if (target <=? N.of_nat index)%N then Some index else first_boundary (index + len_utf8 c) target s
  end.
Definition truncation_mark (removed_tokens : N) : str :=
  [ELLIPSIS] ++ show_N removed_tokens ++ str! " tokens truncated" ++ [ELLIPSIS].
Definition truncate_to_tokens {E} (text : str) (max_tokens : N) : result E str :=
  let max_bytes := u64_sat_mul max_tokens APPROX_BYTES_PER_TOKEN in
  let len := N.of_nat (utf8_len text) in
  if negb (str_is_empty text) && (len <=? max_bytes)%N then Ok text
  else if str_is_empty text then Ok []
  else
    let left_budget := (max_bytes / 2)%N in
    let right_budget := u64_sat_sub max_bytes left_budget in
    let prefix_end := prefix_end 0 left_budget text 0 in
    let target := u64_sat_sub len right_budget in
    let suffix_start := Nat.max (default (utf8_len text) (first_boundary 0 target text)) prefix_end in
    let removed_tokens := approximate_tokens (u64_sat_sub len max_bytes) in
    prefix ← str_slice_to text prefix_end;
    suffix ← str_slice_from text suffix_start;
    Ok (prefix ++ truncation_mark removed_tokens ++ suffix).
Definition formatted_truncate {E} (text : str) (budget : N) : result E str :=
  if (N.of_nat (utf8_len text) <=? u64_sat_mul budget APPROX_BYTES_PER_TOKEN)%N then Ok text
  else
    truncated ← truncate_to_tokens text budget;
    Ok (format! [str! "Warning: truncated output (original token count: ";
          show_N (approximate_tokens (N.of_nat (utf8_len text))); str! ")"; [NL]; str! "Total output lines: ";
          show_nat (length (lines text)); [NL]; [NL]; truncated]).
Definition omission_marker (o : UnifiedExecOutput) : str :=
  format! [str! "... "; show_N (uo_omitted_bytes o); str! " bytes omitted ..."].
Definition truncated_output {E} (o : UnifiedExecOutput) (budget : N) : result E str :=
  if (uo_omitted_bytes o =? 0)%N then formatted_truncate (uo_output o) budget
  else
    let marker := omission_marker o in
    let len := N.of_nat (utf8_len (uo_output o)) in
    if (len <=? u64_sat_mul budget 4)%N then
      Ok (if contains marker (uo_output o) then uo_output o else format! [marker; [NL]; uo_output o])
    else
      truncated ← truncate_to_tokens (uo_output o) budget;
      let notice := if contains marker truncated then [] else marker ++ [NL] in
      Ok (format! [str! "Warning: truncated output (original token count: ";
            show_N (default (approximate_tokens len) (uo_original_token_count o)); str! ")"; [NL]; notice; [NL];
            truncated]).

(** [{:.4}] of the wall time in seconds.  A float of less than 2^38 seconds holds a
    thousandth closely enough to print it exactly. *)
Definition show_seconds (ms : N) : str :=
  let digit n := (48 + n mod 10)%N in
  show_N (ms / 1000) ++ str! "." ++ [digit (ms / 100)%N; digit (ms / 10)%N; digit ms] ++ str! "0".
Definition section (prefix : str) {A} (show : A → str) (value : option A) : list str :=
  match value with Some v => [prefix ++ show v] | None => [] end.
(** The lines of metadata. *)
Definition header (o : UnifiedExecOutput) : str :=
  join [NL] (section (str! "Chunk ID: ") id (uo_chunk_id o)
    ++ [format! [str! "Wall time: "; show_seconds (uo_wall_time_ms o); str! " seconds"]]
    ++ section (str! "Process exited with code ") show_i32 (uo_exit_code o)
    ++ section (str! "Process running with session ID ") show_i32 (uo_session_id o)
    ++ section (str! "Original token count: ") show_N (uo_original_token_count o)
    ++ [str! "Output:"]) ++ [NL].
Definition history_bytes (o : UnifiedExecOutput) : N :=
  let tokens := u64_sat_mul (uo_history_output_tokens o) 4 in
  u64_sat_add tokens (tokens / 5).
(** Lowers the budget until the output fits; every round lowers it by one at least. *)
Fixpoint fit_output {E} (fuel : nat) (o : UnifiedExecOutput) (available budget : N) (output : str) : result E str :=
  let len := N.of_nat (utf8_len output) in
  if ((available <? len) && (0 <? budget))%N then
    match fuel with
    | 0 => Panic
    | S fuel =>
      let budget := u64_sat_sub budget (approximate_tokens (len - available)) in
      output ← truncated_output o budget;
      fit_output fuel o available budget output
    end
  else Ok output.
Definition to_text {E} (o : UnifiedExecOutput) : result E str :=
  let result := header o in
  let available := u64_sat_sub (history_bytes o) (N.of_nat (utf8_len result)) in
  let budget := uo_model_output_tokens o in
  output ← truncated_output o budget;
  output ← fit_output (N.to_nat budget) o available budget output;
  Ok (result ++ output).

(** The fields of the JSON object. *)
Record CodeModeResult := {
  cm_chunk_id : option str;
  cm_wall_time_ms : N;
  cm_exit_code : option Z;
  cm_session_id : option Z;
  cm_original_token_count : option N;
  cm_output : str;
}.
Definition code_mode_result {E} (o : UnifiedExecOutput) : result E CodeModeResult :=
  output ← match uo_max_output_tokens o with
           | Some budget => truncated_output o budget
           | None => Ok (uo_output o)
           end;
  Ok {| cm_chunk_id := uo_chunk_id o; cm_wall_time_ms := uo_wall_time_ms o; cm_exit_code := uo_exit_code o;
        cm_session_id := uo_session_id o; cm_original_token_count := uo_original_token_count o;
        cm_output := output |}.

(** The fixtures of the code's own tests. *)
Definition of_ascii_output (s : str) (omitted : N) : UnifiedExecOutput :=
  {| uo_chunk_id := Some (str! "abc123"); uo_wall_time_ms := 1250; uo_exit_code := None; uo_session_id := Some 42%Z;
     uo_original_token_count := Some 10%N; uo_output := s; uo_max_output_tokens := None;
     uo_model_output_tokens := 10000; uo_history_output_tokens := 10000; uo_omitted_bytes := omitted |}.
Example truncation_fixtures :
  formatted_truncate (E:=unit) (str! "abcdefghijklmnop") 2
    = Ok (str! "Warning: truncated output (original token count: 4)" ++ [NL] ++ str! "Total output lines: 1" ++ [NL; NL]
          ++ str! "abcd" ++ truncation_mark 2 ++ str! "mnop") ∧
  truncate_to_tokens (E:=unit) [128578; 128578; 128578]%N 1 = Ok (truncation_mark 2) ∧
  truncate_to_tokens (E:=unit) (str! "hello") 0 = Ok (truncation_mark 2) ∧
  to_text (E:=unit) (of_ascii_output (str! "hello") 0)
    = Ok (join [NL] [str! "Chunk ID: abc123"; str! "Wall time: 1.2500 seconds";
           str! "Process running with session ID 42"; str! "Original token count: 10"; str! "Output:"; str! "hello"]).
Proof. vm_compute. split_and!; reflexivity. Qed.

(** ** Cutting out the middle *)

Lemma split_at_byte_app a b : split_at_byte (a ++ b) (utf8_len a) = Some (a, b).
Proof.
  induction a as [|c a IH]; [by destruct b|]. rewrite <-app_comm_cons. change (c :: a) with ([c] ++ a).
  rewrite utf8_len_app. assert (Hc : utf8_len [c] = len_utf8 c) by (unfold utf8_len, utf8_encode; cbn; by rewrite app_nil_r).
  rewrite Hc. cbn [app split_at_byte]. pose proof (len_utf8_pos c).
  destruct (len_utf8 c + utf8_len a) as [|n] eqn:E; [lia|]. rewrite <-E.
  rewrite (proj2 (Nat.leb_le _ _)) by lia. replace (len_utf8 c + utf8_len a - len_utf8 c) with (utf8_len a) by lia.
  by rewrite IH.
Qed.
Lemma utf8_len_cons c s : utf8_len (c :: s) = len_utf8 c + utf8_len s.
Proof. unfold utf8_len, len_utf8. by rewrite utf8_encode_cons, length_app. Qed.
Lemma utf8_len_nil : utf8_len [] = 0.
Proof. done. Qed.
#[local] Hint Rewrite utf8_len_cons utf8_len_app utf8_len_nil : utf8_len.

Lemma prefix_end_spec index limit s :
  (N.of_nat index ≤ limit)%N →
  ∃ p q, s = p ++ q ∧ prefix_end index limit s index = index + utf8_len p ∧
    (N.of_nat (index + utf8_len p) ≤ limit)%N ∧
    ∀ c q', q = c :: q' → (limit < N.of_nat (index + utf8_len p + len_utf8 c))%N.
Proof.
  revert index. induction s as [|c s IH]; intros index Hi; cbn [prefix_end].
  { exists [], []. autorewrite with utf8_len. split_and!; [done|lia|lia|done]. }
  destruct (N.ltb_spec limit (N.of_nat (index + len_utf8 c))).
  - exists [], (c :: s). autorewrite with utf8_len. split_and!; [done|lia|lia|]. intros ? ? [= <- _]. lia.
  - destruct (IH (index + len_utf8 c)) as (p & q & -> & -> & Hle & Hmax); [done|].
    exists (c :: p), q. autorewrite with utf8_len. split_and!; [done|lia|lia|].
    intros d q' Hq. specialize (Hmax d q' Hq). lia.
Qed.
Lemma first_boundary_spec index target s :
  (target ≤ N.of_nat (index + utf8_len s))%N →
  ∃ p q, s = p ++ q ∧ default (index + utf8_len s) (first_boundary index target s) = index + utf8_len p ∧
    (target ≤ N.of_nat (index + utf8_len p))%N ∧
    ∀ p' c, p = p' ++ [c] → (N.of_nat (index + utf8_len p') < target)%N.
Proof.
  revert index. induction s as [|c s IH]; intros index Ht; cbn [first_boundary].
  { exists [], []. autorewrite with utf8_len in *. cbn [from_option]. split_and!; [done|lia|lia|]. by intros []. }
  destruct (N.leb_spec target (N.of_nat index)).
  - exists [], (c :: s). rewrite utf8_len_nil. split_and!; [done|cbn; lia|lia|]. by intros [].
  - destruct (IH (index + len_utf8 c)) as (p & q & -> & Hd & Hle & Hmin); [rewrite utf8_len_cons in Ht; lia|].
    exists (c :: p), q. rewrite !utf8_len_cons, !Nat.add_assoc, Hd. split_and!; [done|lia|lia|].
    intros [|d p'] e Hp; [injection Hp as <- ->; autorewrite with utf8_len; lia|].
    injection Hp as <- Hp. specialize (Hmin p' e Hp). autorewrite with utf8_len. lia.
Qed.

(** [text] without its middle [m]: both ends as long as their budgets allow. *)
Record cut_middle (text : str) (left right : N) (p m s : str) : Prop := {
  cu_text : text = p ++ m ++ s;
  cu_left : (N.of_nat (utf8_len p) ≤ left)%N;
  cu_right : (N.of_nat (utf8_len s) ≤ right)%N;
  cu_left_most : ∀ c m', m = c :: m' → (left < N.of_nat (utf8_len p + len_utf8 c))%N;
  cu_right_most : ∀ m' c, m = m' ++ [c] → (right < N.of_nat (len_utf8 c + utf8_len s))%N;
}.
Lemma truncate_cuts {E} text max_tokens :
  let max_bytes := u64_sat_mul max_tokens 4 in
  (max_bytes < N.of_nat (utf8_len text))%N →
  ∃ p m s, cut_middle text (max_bytes / 2) (max_bytes - max_bytes / 2) p m s ∧
    truncate_to_tokens (E:=E) text max_tokens
    = Ok (p ++ truncation_mark (approximate_tokens (N.of_nat (utf8_len text) - max_bytes)) ++ s).
Proof.
  intros max_bytes Hlen. unfold truncate_to_tokens, APPROX_BYTES_PER_TOKEN. fold max_bytes. unfold u64_sat_sub.
  rewrite (proj2 (N.leb_gt _ _)) by done. rewrite andb_false_r.
  assert (Hne : str_is_empty text = false).
  { unfold str_is_empty. apply bool_decide_eq_false. intros ->. autorewrite with utf8_len in Hlen. lia. }
  rewrite Hne. cbv zeta. set (left := (max_bytes / 2)%N). set (right := (max_bytes - left)%N).
  assert (Hsum : (left + right = max_bytes)%N).
  { unfold right, left. pose proof (N.Div0.div_le_upper_bound max_bytes 2 max_bytes). lia. }
  destruct (prefix_end_spec 0 left text) as (p & q & Htext & -> & Hp & Hmax); [lia|].
  destruct (first_boundary_spec 0 (N.of_nat (utf8_len text) - right) text) as (p' & s & Htext' & Hb & Hp' & Hmin); [lia|].
  rewrite !Nat.add_0_l in *. rewrite Hb. clear Hb.
  assert (Hlens : utf8_len text = utf8_len p' + utf8_len s) by (rewrite Htext'; apply utf8_len_app).
  assert (Hcut : ∃ m, p' = p ++ m ∧ q = m ++ s).
  { rewrite Htext in Htext'. destruct (app_eq_inv _ _ _ _ Htext') as [(k & -> & ->)|(k & -> & ->)]; [|by exists k].
    autorewrite with utf8_len in *. exists []. rewrite app_nil_r. destruct k as [|c k]; [by rewrite app_nil_r|].
    pose proof (len_utf8_pos c). autorewrite with utf8_len in *. lia. }
  destruct Hcut as (m & -> & ->). autorewrite with utf8_len in *.
  replace ((utf8_len p + utf8_len m) `max` utf8_len p) with (utf8_len (p ++ m)) by (autorewrite with utf8_len; lia).
  exists p, m, s. split.
  - split; [by rewrite Htext|lia|lia| |].
    + intros c m' ->. apply (Hmax c (m' ++ s)). done.
    + intros m' c ->. specialize (Hmin (p ++ m') c). rewrite <-(assoc_L (++)) in Hmin. specialize (Hmin eq_refl).
      autorewrite with utf8_len in *. lia.
  - unfold str_slice_to, str_slice_from. rewrite Htext at 1. rewrite split_at_byte_app. step_result.
    rewrite Htext, (assoc_L (++)), split_at_byte_app. step_result. by rewrite <-(assoc_L (++)).
Qed.

(** Cutting a text to a token budget.  A text over its budget of bytes loses
    exactly one middle part: the beginning that is kept is the longest one within
    half of the budget, the end the longest within the other half, both cut between
    characters, and the mark between them counts the tokens over the budget; a text
    within it is kept as it is. *)
Theorem truncate_keeps_ends (text : str) (max_tokens : N) :
  let max_bytes := u64_sat_mul max_tokens 4 in
  let len := N.of_nat (utf8_len text) in
  if (len <=? max_bytes)%N then truncate_to_tokens (E:=unit) text max_tokens = Ok text
  else ∃ p m s, cut_middle text (max_bytes / 2) (max_bytes - max_bytes / 2) p m s ∧
    truncate_to_tokens (E:=unit) text max_tokens
    = Ok (p ++ truncation_mark ((len - max_bytes + 3) `min` u64_max / 4) ++ s).
Proof.
  cbv zeta. destruct (N.leb_spec (N.of_nat (utf8_len text)) (u64_sat_mul max_tokens 4)) as [Hle|Hgt].
  - unfold truncate_to_tokens, APPROX_BYTES_PER_TOKEN. cbv zeta. rewrite (proj2 (N.leb_le _ _) Hle), andb_true_r.
    unfold str_is_empty. case_bool_decide as Hnil; [by rewrite Hnil|done].
  - exact (truncate_cuts text max_tokens Hgt).
Qed.

(** ** The text *)

Lemma contains_spec pat s : contains pat s = true ↔ ∃ a b, s = a ++ pat ++ b.
Proof.
  unfold contains. rewrite bool_decide_eq_true. split.
  - intros [i (Hi & (t & Ht)%starts_with_spec & _)%find_Some]. exists (take i s), t. by rewrite <-Ht, take_drop.
  - intros (a & b & ->). destruct (find pat (a ++ pat ++ b)) as [i|] eqn:E; [by exists i|].
    rewrite find_None in E. specialize (E (length a)). rewrite drop_app_length, length_app in E.
    assert (starts_with pat (pat ++ b) = true) as H by (apply starts_with_spec; by exists b).
    rewrite E in H by lia. done.
Qed.
Lemma contains_within pat s a b : contains pat s = true → contains pat (a ++ s ++ b) = true.
Proof.
  rewrite !contains_spec. intros (x & y & ->). exists (a ++ x), (y ++ b). by rewrite <-!(assoc_L (++)).
Qed.
Lemma contains_piece pat x pieces : x ∈ pieces → contains pat x = true → contains pat (format pieces) = true.
Proof.
  intros (l1 & l2 & ->)%list_elem_of_split Hx. unfold format. rewrite concat_app. cbn [concat]. by apply contains_within.
Qed.
Lemma truncate_total {E} text max_tokens : ∃ t, truncate_to_tokens (E:=E) text max_tokens = Ok t.
Proof.
  destruct (N.leb_spec (N.of_nat (utf8_len text)) (u64_sat_mul max_tokens 4)) as [Hle|Hgt].
  - exists text. unfold truncate_to_tokens, APPROX_BYTES_PER_TOKEN. cbv zeta.
    rewrite (proj2 (N.leb_le _ _) Hle), andb_true_r. unfold str_is_empty. case_bool_decide as Hnil; [by rewrite Hnil|done].
  - destruct (truncate_cuts (E:=E) text max_tokens Hgt) as (p & m & s & _ & ->). by eexists.
Qed.
Lemma truncated_total {E} o budget :
  ∃ t, truncated_output (E:=E) o budget = Ok t ∧
    (uo_omitted_bytes o ≠ 0%N → contains (omission_marker o) t = true).
Proof.
  unfold truncated_output, formatted_truncate. cbv zeta. destruct (truncate_total (E:=E) (uo_output o) budget) as [t Ht].
  rewrite Ht. destruct (N.eqb_spec (uo_omitted_bytes o) 0) as [H0|H0].
  - destruct (_ <=? _)%N; step_result; by eexists.
  - destruct (_ <=? _)%N; step_result; (eexists; split; [done|]); intros _.
    + destruct (contains (omission_marker o) (uo_output o)) eqn:Hc; [done|].
      apply (contains_piece _ (omission_marker o)); [by left|]. apply contains_spec. exists [], []. by rewrite app_nil_r.
    + destruct (contains (omission_marker o) t) eqn:Hc.
      * apply (contains_piece _ t); [|done]. do 6 right. by left.
      * apply (contains_piece _ (omission_marker o ++ [NL])); [do 4 right; by left|].
        apply contains_spec. by exists [], [NL].
Qed.
Lemma fit_output_ok {E} fuel o available budget output :
  truncated_output (E:=E) o budget = Ok output → N.to_nat budget ≤ fuel →
  ∃ b t, fit_output (E:=E) fuel o available budget output = Ok t ∧ truncated_output (E:=E) o b = Ok t ∧
    (b ≤ budget)%N ∧ ((N.of_nat (utf8_len t) ≤ available)%N ∨ b = 0%N) ∧
    ((N.of_nat (utf8_len output) ≤ available)%N → b = budget).
Proof.
  revert budget output. induction fuel as [|fuel IH]; intros budget output Ho Hf; cbn [fit_output]; cbv zeta;
    destruct (N.ltb_spec available (N.of_nat (utf8_len output))), (N.ltb_spec 0 budget); cbn [andb];
    try (exists budget, output; split_and!; [done|done|done|lia|lia]); [lia|].
  set (excess := (N.of_nat (utf8_len output) - available)%N).
  assert (Hpos : (0 < approximate_tokens excess)%N).
  { unfold approximate_tokens, APPROX_BYTES_PER_TOKEN, u64_sat_add. apply N.div_str_pos. unfold u64_max. lia. }
  destruct (truncated_total (E:=E) o (u64_sat_sub budget (approximate_tokens excess))) as (t' & Ht' & _).
  rewrite Ht'. step_result. unfold u64_sat_sub in *.
  destruct (IH _ t' Ht') as (b & t & ? & ? & ? & ? & _); [lia|]. exists b, t. split_and!; [done|done|lia|done|lia].
Qed.

(** C34. The text of a result always comes out and keeps to its budgets.  The loop
    ends, no cut falls inside a character, and the text is the metadata followed by
    the output cut to some budget of at most the model's tokens: the model's own when
    that fits what the history leaves, and otherwise one that fits, or none.  If
    output was dropped when it was collected the text says so, however much more
    is cut. *)
Theorem to_text_within_budgets (o : UnifiedExecOutput) :
  let available := (history_bytes o - N.of_nat (utf8_len (header o)))%N in
  ∃ budget t, to_text (E:=unit) o = Ok (header o ++ t) ∧ truncated_output (E:=unit) o budget = Ok t ∧
    (budget ≤ uo_model_output_tokens o)%N ∧
    ((N.of_nat (utf8_len t) ≤ available)%N ∨ budget = 0%N) ∧
    (∀ whole, truncated_output (E:=unit) o (uo_model_output_tokens o) = Ok whole →
      (N.of_nat (utf8_len whole) ≤ available)%N → t = whole) ∧
    (uo_omitted_bytes o ≠ 0%N → contains (omission_marker o) (header o ++ t) = true).
Proof.
  intros available. unfold to_text. cbv zeta. unfold u64_sat_sub. fold available.
  destruct (truncated_total (E:=unit) o (uo_model_output_tokens o)) as (whole & Hw & _). rewrite Hw. step_result.
  destruct (fit_output_ok (N.to_nat (uo_model_output_tokens o)) o available _ _ Hw (le_n _))
    as (b & t & -> & Ht & Hb & Hfit & Hsame). step_result. exists b, t. split_and!; try done.
  - intros whole' [= <-] Hle. rewrite (Hsame Hle) in Ht. congruence.
  - intros H0. destruct (truncated_total (E:=unit) o b) as (t' & Ht' & Hc). assert (t' = t) as -> by congruence.
    rewrite <-(app_nil_r (header o ++ t)), <-(assoc_L (++)). by apply contains_within, Hc.
Qed.
