(* ===== verification/ExecInvocation.v ===== *)
(** Recognising a patch in a shell script, [unified-exec/src/patch.rs]: a script that is
    one [apply_patch] heredoc, after an optional [cd], is run as a patch.  The bash
    grammar and the query on it are tree-sitter's, a parameter; what the code makes
    of the captures of a match is modelled. *)
From stdpp Require Import prelude gmap strings pretty list.
From S2P Require Import Prelude.
From S2P Require Import Text.
From S2P Require Import Core.
From S2P Require Import PatchParser.

Definition exec_error (c : ExecutionErrorCode) (m : str) : ExecutionError :=
  with_detail (str! "source") (VString (str! "tool-unified-exec")) (ExecutionError_new c m).

Record Invocation := { in_body : str; in_cwd : ExecutionPath }.
Inductive ExtractHeredocError :=
  | CommandDidNotStartWithApplyPatch
  | FailedToLoadBashGrammar (source : str)
  | HeredocNotUtf8 (source : str)
  | FailedToParsePatchIntoAst.

(** What tree-sitter makes of a script: an error loading the grammar, no tree, or the
    matches of the query in order, each the names and texts of its captures; an
    error is given by how it displays. *)
Definition Capture : Type := str * (str + str).
Inductive BashParse := GrammarError (source : str) | NoTree | BashMatches (matches_ : list (list Capture)).
Class BashGrammar := bash_parse : str → BashParse.

(** [trim_end_matches('\n')], [strip_prefix], [strip_suffix] of a quote. *)
Fixpoint skip_char (c : char) (s : str) : str :=
  match s with
  | d :: s' => if (d =? c)%N then skip_char c s' else s
  | [] => []
  end.
Definition trim_end_matches (c : char) (s : str) : str := reverse (skip_char c (reverse s)).
Definition QUOTE : char := 39.
Definition unquote (raw : str) : str :=
  default raw (strip_prefix [QUOTE] raw ≫= strip_suffix [QUOTE]).

Definition capture_text (text : str + str) : result ExtractHeredocError str :=
  match text with inl t => Ok t | inr source => Err (HeredocNotUtf8 source) end.
Definition take_capture (found : option str * option str) (capture : Capture)
  : result ExtractHeredocError (option str * option str) :=
  let '(heredoc_text, cd_path) := found in
  let '(name, node) := capture in
  if str_eqb name (str! "heredoc") then
    text ← capture_text node; Ok (Some (trim_end_matches NL text), cd_path)
  else if str_eqb name (str! "cd_path") then text ← capture_text node; Ok (heredoc_text, Some text)
  else if str_eqb name (str! "cd_raw_string") then
    raw ← capture_text node; Ok (heredoc_text, Some (unquote raw))
  else Ok found.
Fixpoint first_heredoc (ms : list (list Capture)) : result ExtractHeredocError (str * option str) :=
  match ms with
  | [] => Err CommandDidNotStartWithApplyPatch
  | captures :: ms =>
    '(heredoc_text, cd_path) ← fold_result take_capture (None, None) captures;
    match heredoc_text with
    | Some heredoc => Ok (heredoc, cd_path)
    | None => first_heredoc ms
    end
  end.

Section extract.
Context {grammar : BashGrammar}.

Definition extract_apply_patch_from_bash (src : str) : result ExtractHeredocError (str * option str) :=
  match bash_parse src with
  | GrammarError source => Err (FailedToLoadBashGrammar source)
  | NoTree => Err FailedToParsePatchIntoAst
  | BashMatches ms => first_heredoc ms
  end.
Definition extract (script : str) : ExecutionResult (option (str * option str)) :=
  if is_ok (parse_patch script) then
    Err (exec_error InvalidRequest
      (str! "apply_patch verification failed: patch detected without an explicit apply_patch invocation"))
  else
    match extract_apply_patch_from_bash script with
    | Ok (body, cwd) =>
      match parse_patch body with
      | Ok _ => Ok (Some (body, cwd))
      | Err e => Err (exec_error InvalidRequest (format! [str! "apply_patch verification failed: "; show_ParseError e]))
      | Panic => Panic
      end
    | Err (CommandDidNotStartWithApplyPatch | FailedToParsePatchIntoAst) => Ok None
    | Err (FailedToLoadBashGrammar source) => Err (exec_error Internal source)
    | Err (HeredocNotUtf8 source) => Err (exec_error Internal source)
    | Panic => Panic
    end.
End extract.
