(* ===== verification/UnifiedExec.v ===== *)
(** The exec tools [exec_command] and [write_stdin],
    [platform/packages/tools/unified-exec/src/lib.rs]: commands that run in sessions,
    started, polled and fed with input over many calls, each of which collects the
    output that arrives until its deadline. *)
From Stdlib Require Import ZifyBool.
From stdpp Require Import prelude gmap strings pretty list.
From S2P Require Import Prelude.
From S2P Require Import Text.
From S2P Require Import Core.
From S2P Require Import Host.
From S2P Require Import PathTool.
From S2P Require Import PatchUpdate.
From S2P Require Import PatchApply.
From S2P Require Import ProcessCore.
From S2P Require Import ProcessStream.
From S2P Require Import OutputBuffers.
From S2P Require Import ExecOutput.
From S2P Require Import ExecInvocation.

(** ** Data *)

Definition DEFAULT_EXEC_YIELD_TIME_MS : N := 10000.
Definition DEFAULT_WRITE_YIELD_TIME_MS : N := 250.
Definition MIN_YIELD_TIME_MS : N := 250.
Definition MAX_YIELD_TIME_MS : N := 30000.
Definition MIN_EMPTY_YIELD_TIME_MS : N := 5000.
Definition DEFAULT_MAX_EMPTY_YIELD_TIME_MS : N := 300000.
Definition SESSION_STATE_SCHEMA_VERSION : N := 1.

Record ExecCommandInput := {
  xi_cmd : str;
  xi_workdir : option str;
  xi_shell : option str;
  xi_login : option bool;
  xi_tty : bool;
  xi_yield_time_ms : N;
  xi_max_output_tokens : option N;
}.
Record WriteStdinInput := {
  si_session_id : Z;
  si_chars : str;
  si_yield_time_ms : N;
  si_max_output_tokens : option N;
}.
Record UnifiedExecConfig := {
  uc_intercept_apply_patch : bool;
  uc_patch_config : ApplyPatchConfig;
  uc_shell : option str;
  uc_default_login : bool;
  uc_allow_shell_override : bool;
  uc_allow_login_shell : bool;
  uc_environment : EnvironmentVariables;
  uc_pty_columns : N;
  uc_pty_rows : N;
  uc_process_timeout_ms : option N;
  uc_max_output_bytes : nat;
  uc_default_max_output_tokens : N;
  uc_max_output_tokens : N;
  uc_read_bytes : N;
  uc_max_poll_wait_ms : N;
  uc_max_empty_yield_time_ms : N;
}.
Record ExecCommandIds := {
  xd_session_id : Z;
  xd_operation_id : OperationId;
  xd_execution_id : ExecutionId;
  xd_terminate_operation_id : OperationId;
}.
Record WriteStdinIds := { sd_write_id : WriteId; sd_interrupt_operation_id : OperationId }.
Record ExecSession := {
  xs_schema_version : N;
  xs_session_id : Z;
  xs_host_id : ExecutionHostId;
  xs_handle : ExecutionHandle;
  xs_cwd : ExecutionPath;
  xs_tty : bool;
  xs_cursor : N;
  xs_terminate_operation_id : OperationId;
}.
(** [is_terminal]. *)
Definition exec_terminal (state : ExecutionState) : bool :=
  match state with Starting | Running => false | _ => true end.
Definition session_running (s : ExecSession) : bool := negb (exec_terminal (eh_state (xs_handle s))).

Record PreparedExecCommand := {
  px_patch_config : ApplyPatchConfig;
  px_host_id : ExecutionHostId;
  px_generation : SupervisorGenerationId;
  px_session_id : Z;
  px_request : StartExecutionRequest;
  px_terminate_operation_id : OperationId;
  px_yield_time_ms : N;
  px_max_output_bytes : nat;
  px_max_output_tokens : option N;
  px_model_output_tokens : N;
  px_history_output_tokens : N;
  px_chunk_id : str;
  px_patch : option Invocation;
}.

(** What one call collects. *)
Record OutputCollection := {
  oc_started_at_ms : N;
  oc_deadline_at_ms : N;
  oc_finished_at_ms : option N;
  oc_chunk_id : str;
  oc_buffer : HeadTail.HeadTailBuffer;
  oc_max_output_tokens : option N;
  oc_model_output_tokens : N;
  oc_history_output_tokens : N;
  oc_failure : option str;
  oc_closed : bool;
  oc_ready : bool;
}.
Definition new_collection (started_at_ms yield_time_ms : N) (max_output_bytes : nat) (max_output_tokens : option N)
    (model_output_tokens history_output_tokens : N) (chunk_id : str) : OutputCollection :=
  {| oc_started_at_ms := started_at_ms; oc_deadline_at_ms := u64_sat_add started_at_ms yield_time_ms;
     oc_finished_at_ms := None; oc_chunk_id := chunk_id; oc_buffer := HeadTail.new max_output_bytes;
     oc_max_output_tokens := max_output_tokens; oc_model_output_tokens := model_output_tokens;
     oc_history_output_tokens := history_output_tokens; oc_failure := None; oc_closed := false;
     oc_ready := false |}.
Definition finish_collection (at_ms : N) (c : OutputCollection) : OutputCollection :=
  {| oc_started_at_ms := oc_started_at_ms c; oc_deadline_at_ms := oc_deadline_at_ms c;
     oc_finished_at_ms := Some (default at_ms (oc_finished_at_ms c)); oc_chunk_id := oc_chunk_id c;
     oc_buffer := oc_buffer c; oc_max_output_tokens := oc_max_output_tokens c;
     oc_model_output_tokens := oc_model_output_tokens c;
     oc_history_output_tokens := oc_history_output_tokens c; oc_failure := oc_failure c;
     oc_closed := oc_closed c; oc_ready := true |}.
Definition set_collected (buffer : HeadTail.HeadTailBuffer) (failure : option str) (closed : bool)
    (c : OutputCollection) : OutputCollection :=
  {| oc_started_at_ms := oc_started_at_ms c; oc_deadline_at_ms := oc_deadline_at_ms c;
     oc_finished_at_ms := oc_finished_at_ms c; oc_chunk_id := oc_chunk_id c;
     oc_buffer := buffer; oc_max_output_tokens := oc_max_output_tokens c;
     oc_model_output_tokens := oc_model_output_tokens c;
     oc_history_output_tokens := oc_history_output_tokens c; oc_failure := failure;
     oc_closed := closed; oc_ready := oc_ready c |}.
Definition restart_clock (started_at_ms yield_time_ms : N) (c : OutputCollection) : OutputCollection :=
  {| oc_started_at_ms := started_at_ms; oc_deadline_at_ms := u64_sat_add started_at_ms yield_time_ms;
     oc_finished_at_ms := oc_finished_at_ms c; oc_chunk_id := oc_chunk_id c;
     oc_buffer := oc_buffer c; oc_max_output_tokens := oc_max_output_tokens c;
     oc_model_output_tokens := oc_model_output_tokens c;
     oc_history_output_tokens := oc_history_output_tokens c; oc_failure := oc_failure c;
     oc_closed := oc_closed c; oc_ready := oc_ready c |}.

(** A process call keeps its session, a patch call its patch. *)
Record RunningExecCommand := {
  xr_prepared : PreparedExecCommand;
  xr_session : option ExecSession;
  xr_patch : option RunningPatch;
  xr_collection : OutputCollection;
  xr_exit : option Z;
}.
Definition exec_ready (r : RunningExecCommand) : bool := oc_ready (xr_collection r).
Inductive StdinAction :=
  | ActionPoll
  | ActionWrite (request : WriteProcessInputRequest)
  | ActionInterrupt (request : SignalExecutionRequest).
Record PreparedWriteStdin := {
  wsp_host_id : ExecutionHostId;
  wsp_session : ExecSession;
  wsp_action : StdinAction;
  wsp_collection : OutputCollection;
}.
Definition effective_yield_time_ms (p : PreparedWriteStdin) : N :=
  u64_sat_sub (oc_deadline_at_ms (wsp_collection p)) (oc_started_at_ms (wsp_collection p)).
Record RunningWriteStdin := {
  wsr_prepared : PreparedWriteStdin;
  wsr_session : ExecSession;
  wsr_collection : OutputCollection;
  wsr_input_status : option ProcessInputStatus;
  wsr_exit : option Z;
}.
Definition stdin_ready (r : RunningWriteStdin) : bool := oc_ready (wsr_collection r).
Record UnifiedExecPoll := { up_events : list ProcessEvent; up_ready : bool }.
Record UnifiedExecCallResult := { ur_output : UnifiedExecOutput; ur_session : option ExecSession }.
Record UnifiedExecTool := { ux_cwd : ExecutionPath; ux_config : UnifiedExecConfig }.

(** ** The tool *)

(** The caller's clock in milliseconds, a pause, and a random digit below 16. *)
Class ExecClock (W : Type) := {
  now_ms : W → N * W;
  pause_ms : N → W → W;
  random_digit : W → N * W;
}.

Section tool.
Context {W : Type} `{!World W, !ExecutionRuntime W, !ProcessRuntime W, !ExecClock W}.
Context {dbg : DebugPath} {grammar : BashGrammar}.
Abbreviation host := (rt_descriptor (W:=W)).

Definition nowM : M W N := λ w, let '(t, w) := now_ms w in (Ok t, w).
Definition pauseM (ms : N) : M W unit := λ w, (Ok tt, pause_ms ms w).
Definition digitM : M W N := λ w, let '(d, w) := random_digit w in (Ok d, w).
Definition hex_digit (d : N) : char := if (d <? 10)%N then (48 + d)%N else (87 + d)%N.
Fixpoint chunk_digits (count : nat) : M W str :=
  match count with
  | 0 => mret []
  | S count => d ← digitM; rest ← chunk_digits count; mret (hex_digit d :: rest)
  end.
Definition generate_chunk_id : M W str := chunk_digits 6.

(** [u64::clamp] panics when the bounds cross. *)
Definition u64_clamp (v low high : N) : ExecutionResult N :=
  if (high <? low)%N then Panic else Ok (N.min (N.max v low) high).

(** [UnifiedExecTool::new]. *)
Definition new_exec_tool (cwd : ExecutionPath) (config : UnifiedExecConfig) : ExecutionResult UnifiedExecTool :=
  _ ← validate_cwd host cwd;
  _ ← validated (validate (uc_environment config));
  if (uc_pty_columns config =? 0)%N || (uc_pty_rows config =? 0)%N || (uc_max_output_bytes config =? 0)
     || (uc_default_max_output_tokens config =? 0)%N || (uc_max_output_tokens config =? 0)%N
     || (uc_max_output_tokens config <? uc_default_max_output_tokens config)%N
     || (uc_read_bytes config =? 0)%N || (uc_max_poll_wait_ms config =? 0)%N
     || (uc_max_empty_yield_time_ms config <? MIN_EMPTY_YIELD_TIME_MS)%N
     || bool_decide (uc_process_timeout_ms config = Some 0%N)
     || bool_decide (max_process_read_bytes (limits host) = Some 0%N)
  then Err (exec_error InvalidRequest
    (str! "unified exec limits, PTY size, token budgets, and optional timeout must be positive and internally consistent"))
  else Ok {| ux_cwd := cwd; ux_config := config |}.

Context (self : UnifiedExecTool).
Abbreviation config := (ux_config self).

Definition resolve_max_output_tokens (requested : option N) : N :=
  N.min (default (uc_default_max_output_tokens config) requested) (uc_max_output_tokens config).

(** *** Preparing a command *)

(** The refusals of [prepare_exec_command]. *)
Definition check_exec (input : ExecCommandInput) (ids : ExecCommandIds) : ExecutionResult unit :=
  if (xd_session_id ids <=? 0)%Z then
    Err (exec_error InvalidRequest (str! "session_id must be a positive integer"))
  else if xi_tty input && negb (pty (features host)) then
    Err (exec_error Unsupported (str! "the selected execution host does not support PTYs"))
  else if bool_decide (is_Some (xi_shell input)) && negb (uc_allow_shell_override config) then
    Err (exec_error InvalidRequest (str! "shell overrides are disabled by the harness"))
  else if bool_decide (xi_login input = Some true) && negb (uc_allow_login_shell config) then
    Err (exec_error InvalidRequest (str! "login shells are disabled by the harness"))
  else Ok tt.
Definition exec_cwd (input : ExecCommandInput) : ExecutionResult ExecutionPath :=
  match xi_workdir input with
  | Some workdir =>
    if str_is_empty workdir then Ok (ux_cwd self) else resolve_path_normalized host (ux_cwd self) workdir
  | None => Ok (ux_cwd self)
  end.
(** The patch a command is, in the directory it is to be applied in. *)
Definition exec_patch (cmd : str) (cwd : ExecutionPath) : ExecutionResult (option Invocation) :=
  extracted ← (if uc_intercept_apply_patch config then extract cmd else Ok None);
  match extracted with
  | Some (body, workdir) =>
    cwd ← match workdir with
          | Some dir => resolve_path_normalized host cwd dir
          | None => Ok cwd
          end;
    Ok (Some {| in_body := body; in_cwd := cwd |})
  | None => Ok None
  end.
Definition exec_request (input : ExecCommandInput) (ids : ExecCommandIds) (cwd : ExecutionPath) : StartExecutionRequest :=
  {| se_expected_generation := Some (supervisor_generation_id host);
     se_output_drain_timeout_ms := Some 50%N;
     se_operation_id := xd_operation_id ids; se_execution_id := xd_execution_id ids;
     se_command := ShellScript (xi_cmd input)
       (match xi_shell input with Some shell => Some shell | None => uc_shell config end)
       (default (uc_default_login config && uc_allow_login_shell config) (xi_login input));
     se_cwd := cwd; se_environment := uc_environment config;
     se_stdin := if xi_tty input then StdinPty (uc_pty_columns config) (uc_pty_rows config) else StdinClosedMode;
     se_timeout_ms := uc_process_timeout_ms config |}.
Definition exec_yield_time (input : ExecCommandInput) : ExecutionResult N :=
  yield_time_ms ← u64_clamp (xi_yield_time_ms input) MIN_YIELD_TIME_MS MAX_YIELD_TIME_MS;
  Ok (if decide (operating_system host = Windows) then N.max yield_time_ms DEFAULT_EXEC_YIELD_TIME_MS
      else yield_time_ms).
Definition prepare_exec_command (input : ExecCommandInput) (ids : ExecCommandIds) : M W PreparedExecCommand :=
  _ ← lift (check_exec input ids);
  cwd ← lift (exec_cwd input);
  patch ← lift (exec_patch (xi_cmd input) cwd);
  let request := exec_request input ids cwd in
  _ ← lift (validated (validate request));
  yield_time_ms ← lift (exec_yield_time input);
  chunk_id ← generate_chunk_id;
  mret {| px_patch_config := uc_patch_config config; px_host_id := host_id host;
          px_generation := supervisor_generation_id host; px_session_id := xd_session_id ids;
          px_request := request; px_terminate_operation_id := xd_terminate_operation_id ids;
          px_yield_time_ms := yield_time_ms; px_max_output_bytes := uc_max_output_bytes config;
          px_max_output_tokens := xi_max_output_tokens input;
          px_model_output_tokens := resolve_max_output_tokens (xi_max_output_tokens input);
          px_history_output_tokens := uc_max_output_tokens config;
          px_chunk_id := chunk_id; px_patch := patch |}.

(** *** Starting and polling a command *)

Definition validate_prepared (host_id_ : ExecutionHostId) (generation : SupervisorGenerationId) : ExecutionResult unit :=
  if negb (bool_decide (host_id_ = host_id host)) then
    Err (exec_error InvalidRequest (str! "unified exec state belongs to another execution host"))
  else if negb (bool_decide (generation = supervisor_generation_id host)) then
    Err (exec_error ExecutionLost
      (str! "the execution supervisor restarted and the unified exec session was lost"))
  else Ok tt.
Definition validate_session (session : ExecSession) : ExecutionResult unit :=
  if negb (xs_schema_version session =? SESSION_STATE_SCHEMA_VERSION)%N || (xs_session_id session <=? 0)%Z then
    Err (exec_error InvalidRequest (str! "invalid or unsupported unified exec session state"))
  else validate_prepared (xs_host_id session) (eh_generation (xs_handle session)).

Definition command_collection (started_at_ms : N) (prepared : PreparedExecCommand) : OutputCollection :=
  new_collection started_at_ms (px_yield_time_ms prepared) (px_max_output_bytes prepared)
    (px_max_output_tokens prepared) (px_model_output_tokens prepared) (px_history_output_tokens prepared)
    (px_chunk_id prepared).
Definition opened_session (prepared : PreparedExecCommand) (handle : ExecutionHandle) : ExecSession :=
  {| xs_schema_version := SESSION_STATE_SCHEMA_VERSION; xs_session_id := px_session_id prepared;
     xs_host_id := px_host_id prepared; xs_handle := handle; xs_cwd := se_cwd (px_request prepared);
     xs_tty := match se_stdin (px_request prepared) with StdinPty _ _ => true | _ => false end;
     xs_cursor := 0; xs_terminate_operation_id := px_terminate_operation_id prepared |}.
Definition start_exec_command (context : OperationContext) (prepared : PreparedExecCommand) : M W RunningExecCommand :=
  _ ← checkpointM context;
  _ ← lift (validate_prepared (px_host_id prepared) (px_generation prepared));
  _ ← lift (validated (validate (px_request prepared)));
  started_at_ms ← nowM;
  match px_patch prepared with
  | Some invocation =>
    tool ← lift (ApplyPatchTool_new (in_cwd invocation) (px_patch_config prepared));
    verified ← PatchApply.prepare tool context (in_body invocation)
                 {| aps_operation_id := se_operation_id (px_request prepared) |};
    patch ← lift (PatchApply.start tool verified);
    mret {| xr_prepared := prepared; xr_session := None; xr_patch := Some patch;
            xr_collection := command_collection started_at_ms prepared; xr_exit := None |}
  | None =>
    handle ← pr_start context (px_request prepared);
    if negb (bool_decide (eh_execution_id handle = se_execution_id (px_request prepared)))
       || negb (bool_decide (eh_generation handle = px_generation prepared))
    then throw (exec_error Internal
      (str! "process start returned a different execution identity; outcome is uncertain"))
    else mret {| xr_prepared := prepared; xr_session := Some (opened_session prepared handle); xr_patch := None;
                 xr_collection := command_collection started_at_ms prepared; xr_exit := None |}
  end.

(** What a poll takes to: the session, the collection and the exit code are changed
    together, after the page was validated, or not at all. *)
Record Polled := { po_session : ExecSession; po_collection : OutputCollection; po_exit : option Z }.
Definition poll_wait (now : N) (session : ExecSession) (collection : OutputCollection) : option N :=
  let remaining := u64_sat_sub (oc_deadline_at_ms collection) now in
  if (remaining =? 0)%N && negb (exec_terminal (eh_state (xs_handle session))) then None
  else Some (if exec_terminal (eh_state (xs_handle session)) then 50%N
             else N.max (N.min remaining (uc_max_poll_wait_ms config)) 1).
Definition read_limit : N := N.min (uc_read_bytes config) (default u64_max (max_process_read_bytes (limits host))).
Definition session_read (session : ExecSession) (wait_ms : option N) : ReadExecutionRequest :=
  {| re_execution_id := eh_execution_id (xs_handle session); re_generation := eh_generation (xs_handle session);
     re_after_sequence := xs_cursor session; re_max_bytes := read_limit; re_wait_ms := wait_ms |}.
Fixpoint collect (collection : OutputCollection) (events : list ProcessEvent) : ExecutionResult OutputCollection :=
  match events with
  | [] => Ok collection
  | e :: events =>
    collection ←
      match event e with
      | EvOutput _ data =>
        buffer ← HeadTail.push (oc_buffer collection) data;
        Ok (set_collected buffer (oc_failure collection) (oc_closed collection) collection)
      | EvFailed message => Ok (set_collected (oc_buffer collection) (Some message) (oc_closed collection) collection)
      | EvClosed => Ok (set_collected (oc_buffer collection) (oc_failure collection) true collection)
      | _ => Ok collection
      end;
    collect collection events
  end.
Definition session_at (cursor : N) (state : ExecutionState) (session : ExecSession) : ExecSession :=
  {| xs_schema_version := xs_schema_version session; xs_session_id := xs_session_id session;
     xs_host_id := xs_host_id session;
     xs_handle := {| eh_execution_id := eh_execution_id (xs_handle session);
                     eh_generation := eh_generation (xs_handle session); eh_state := state;
                     eh_started_at := eh_started_at (xs_handle session) |};
     xs_cwd := xs_cwd session; xs_tty := xs_tty session; xs_cursor := cursor;
     xs_terminate_operation_id := xs_terminate_operation_id session |}.
(** The call is over: the process has ended and its output is closed, or it runs and
    the time is up. *)
Definition call_over (state : ExecutionState) (now : N) (collection : OutputCollection) : bool :=
  (exec_terminal state && oc_closed collection)
  || (negb (exec_terminal state) && (oc_deadline_at_ms collection <=? now)%N).
Definition take_reply (session : ExecSession) (collection : OutputCollection) (reply : ReadExecutionResult)
  : M W (Polled * UnifiedExecPoll) :=
  cursor ← lift (advance_events (exec_error Internal (str! "process events did not advance in sequence"))
                   (xs_cursor session) (rx_events reply));
  if negb (rx_next_sequence reply =? cursor)%N then
    throw (exec_error Internal (str! "process cursor does not match returned events"))
  else
    collection ← lift (collect collection (rx_events reply));
    now ← nowM;
    let collection :=
      if call_over (rx_state reply) now collection then finish_collection now collection else collection in
    mret ({| po_session := session_at cursor (rx_state reply) session; po_collection := collection;
             po_exit := rx_exit_code reply |},
          {| up_events := rx_events reply; up_ready := oc_ready collection |}).
Definition poll (context : OperationContext) (s : Polled) : M W (Polled * UnifiedExecPoll) :=
  if oc_ready (po_collection s) then mret (s, {| up_events := []; up_ready := true |})
  else
    _ ← checkpointM context;
    now ← nowM;
    reply ← pr_read context (session_read (po_session s) (poll_wait now (po_session s) (po_collection s)));
    take_reply (po_session s) (po_collection s) reply.

Definition expect {A} (o : option A) : ExecutionResult A := or_panic o.
Definition poll_exec_command (context : OperationContext) (running : RunningExecCommand)
  : M W (RunningExecCommand * UnifiedExecPoll) :=
  _ ← lift (validate_prepared (px_host_id (xr_prepared running)) (px_generation (xr_prepared running)));
  match xr_patch running with
  | Some patch =>
    invocation ← lift (expect (px_patch (xr_prepared running)));
    tool ← lift (ApplyPatchTool_new (in_cwd invocation) (px_patch_config (xr_prepared running)));
    '(progress, patch) ← PatchApply.step tool context patch;
    collection ←
      match progress with
      | Complete output =>
        if oc_ready (xr_collection running) then mret (xr_collection running)
        else
          buffer ← lift (HeadTail.push (oc_buffer (xr_collection running)) (utf8_encode (PatchApply.to_text output)));
          now ← nowM;
          mret (finish_collection now (set_collected buffer (oc_failure (xr_collection running))
                                         (oc_closed (xr_collection running)) (xr_collection running)))
      | CheckpointRequired => mret (xr_collection running)
      end;
    mret ({| xr_prepared := xr_prepared running; xr_session := xr_session running; xr_patch := Some patch;
             xr_collection := collection; xr_exit := xr_exit running |},
          {| up_events := []; up_ready := oc_ready collection |})
  | None =>
    session ← lift (expect (xr_session running));
    '(s, page) ← poll context
      {| po_session := session; po_collection := xr_collection running; po_exit := xr_exit running |};
    mret ({| xr_prepared := xr_prepared running; xr_session := Some (po_session s); xr_patch := None;
             xr_collection := po_collection s; xr_exit := po_exit s |}, page)
  end.

(** *** The result of a call *)

Definition with_failure (raw : str) (failure : option str) : str :=
  match failure with
  | Some failure =>
    (if negb (str_is_empty raw) && negb (ends_with [NL] raw) then raw ++ [NL] else raw)
    ++ format! [str! "[Execution failed: "; failure; str! "]"]
  | None => raw
  end.
Definition collection_output (collection : OutputCollection) (session : ExecSession) : M W UnifiedExecOutput :=
  let raw := with_failure (HeadTail.text (oc_buffer collection)) (oc_failure collection) in
  finished_at ← match oc_finished_at_ms collection with Some at_ms => mret at_ms | None => nowM end;
  mret {| uo_chunk_id := Some (oc_chunk_id collection);
          uo_wall_time_ms := u64_sat_sub finished_at (oc_started_at_ms collection);
          uo_exit_code := None;
          uo_session_id := if session_running session then Some (xs_session_id session) else None;
          uo_original_token_count := Some (approximate_tokens (HeadTail.total_bytes (oc_buffer collection)));
          uo_output := raw; uo_max_output_tokens := oc_max_output_tokens collection;
          uo_model_output_tokens := oc_model_output_tokens collection;
          uo_history_output_tokens := oc_history_output_tokens collection;
          uo_omitted_bytes := HeadTail.omitted_bytes (oc_buffer collection) |}.
Definition with_exit_code (exit_code : option Z) (o : UnifiedExecOutput) : UnifiedExecOutput :=
  {| uo_chunk_id := uo_chunk_id o; uo_wall_time_ms := uo_wall_time_ms o; uo_exit_code := exit_code;
     uo_session_id := uo_session_id o; uo_original_token_count := uo_original_token_count o;
     uo_output := uo_output o; uo_max_output_tokens := uo_max_output_tokens o;
     uo_model_output_tokens := uo_model_output_tokens o; uo_history_output_tokens := uo_history_output_tokens o;
     uo_omitted_bytes := uo_omitted_bytes o |}.
Definition finish (s : Polled) : M W UnifiedExecCallResult :=
  if negb (oc_ready (po_collection s)) then
    throw (exec_error InvalidRequest
      (str! "the unified exec call is not ready; poll and persist it before finishing"))
  else
    output ← collection_output (po_collection s) (po_session s);
    mret {| ur_output := if session_running (po_session s) then output else with_exit_code (po_exit s) output;
            ur_session := if session_running (po_session s) then Some (po_session s) else None |}.
Definition patch_output (collection : OutputCollection) : UnifiedExecOutput :=
  {| uo_chunk_id := None; uo_wall_time_ms := 0; uo_exit_code := None; uo_session_id := None;
     uo_original_token_count := None; uo_output := HeadTail.text (oc_buffer collection);
     uo_max_output_tokens := oc_max_output_tokens collection;
     uo_model_output_tokens := oc_model_output_tokens collection;
     uo_history_output_tokens := oc_history_output_tokens collection;
     uo_omitted_bytes := HeadTail.omitted_bytes (oc_buffer collection) |}.
Definition finish_exec_command (running : RunningExecCommand) : M W UnifiedExecCallResult :=
  match xr_patch running with
  | Some _ =>
    if negb (exec_ready running) then
      throw (exec_error InvalidRequest (str! "persist and poll the patch before finishing"))
    else mret {| ur_output := patch_output (xr_collection running); ur_session := None |}
  | None =>
    session ← lift (expect (xr_session running));
    finish {| po_session := session; po_collection := xr_collection running; po_exit := xr_exit running |}
  end.
(** The loop has no bound of its own; [fuel] counts the polls.  The running command
    survives an error. *)
Fixpoint wait_exec_command (fuel : nat) (context : OperationContext) : M (RunningExecCommand * W) UnifiedExecCallResult :=
  running ← running_now;
  if exec_ready running then outer (finish_exec_command running)
  else
    match fuel with
    | 0 => λ s, (Panic, s)
    | S fuel =>
      '(running, _) ← outer (poll_exec_command context running);
      _ ← assign running;
      wait_exec_command fuel context
    end.

(** *** Input to a session *)

Definition INTERRUPT : str := [3%N].
Definition stdin_action (input : WriteStdinInput) (session : ExecSession) (ids : WriteStdinIds)
  : ExecutionResult StdinAction :=
  if str_is_empty (si_chars input) then Ok ActionPoll
  else if xs_tty session then
    let bytes := utf8_encode (si_chars input) in
    if (default u64_max (max_process_input_bytes (limits host)) <? N.of_nat (length bytes))%N then
      Err (exec_error ResourceExhausted (str! "terminal input exceeds the execution host limit"))
    else Ok (ActionWrite
      {| wi_execution_id := eh_execution_id (xs_handle session); wi_generation := eh_generation (xs_handle session);
         wi_write_id := sd_write_id ids; wi_input := InputData bytes |})
  else if str_eqb (si_chars input) INTERRUPT then
    if negb (process_signals (features host)) then
      Err (exec_error Unsupported (str! "the selected execution host does not support process signals"))
    else Ok (ActionInterrupt
      {| sg_operation_id := sd_interrupt_operation_id ids; sg_execution_id := eh_execution_id (xs_handle session);
         sg_generation := eh_generation (xs_handle session); sg_signal := SigInterrupt |})
  else Err (exec_error StdinClosed
    (str! "stdin is closed for this session; rerun exec_command with tty=true to keep stdin open")).
Definition stdin_yield_time (input : WriteStdinInput) (action : StdinAction) : ExecutionResult N :=
  match action with
  | ActionPoll => u64_clamp (si_yield_time_ms input) MIN_EMPTY_YIELD_TIME_MS (uc_max_empty_yield_time_ms config)
  | _ => u64_clamp (si_yield_time_ms input) MIN_YIELD_TIME_MS MAX_YIELD_TIME_MS
  end.
Definition prepare_write_stdin (input : WriteStdinInput) (session : ExecSession) (ids : WriteStdinIds)
  : M W PreparedWriteStdin :=
  _ ← lift (validate_session session);
  if negb (si_session_id input =? xs_session_id session)%Z then
    throw (exec_error InvalidRequest (str! "write_stdin session_id does not match the loaded session"))
  else if negb (session_running session) then
    throw (exec_error ExecutionNotFound (str! "the unified exec session has already completed"))
  else
    action ← lift (stdin_action input session ids);
    yield_time_ms ← lift (stdin_yield_time input action);
    chunk_id ← generate_chunk_id;
    mret {| wsp_host_id := host_id host; wsp_session := session; wsp_action := action;
            wsp_collection := new_collection 0 yield_time_ms (uc_max_output_bytes config)
              (si_max_output_tokens input) (resolve_max_output_tokens (si_max_output_tokens input))
              (uc_max_output_tokens config) chunk_id |}.

(** The dispatch of the action: its input status. *)
Definition dispatch_action (context : OperationContext) (action : StdinAction) : M W (option ProcessInputStatus) :=
  match action with
  | ActionPoll => mret None
  | ActionWrite request => reply ← pr_write context request; mret (Some (wp_status reply))
  | ActionInterrupt request =>
    sent ← attempt (pr_signal context request);
    match sent with
    | inl failure => if decide (code failure = ExecutionNotFound) then mret None else throw failure
    | inr _ => mret None
    end
  end.
Definition input_taken (action : StdinAction) (status : option ProcessInputStatus) : bool :=
  match action, status with
  | ActionWrite _, Some (Accepted | AlreadyAccepted) => true
  | _, _ => false
  end.
Definition start_write_stdin (context : OperationContext) (prepared : PreparedWriteStdin) : M W RunningWriteStdin :=
  _ ← checkpointM context;
  _ ← lift (validate_session (wsp_session prepared));
  input_status ← dispatch_action context (wsp_action prepared);
  _ ← (if input_taken (wsp_action prepared) input_status
       then _ ← pauseM 100; checkpointM context else mret tt);
  started_at_ms ← nowM;
  mret {| wsr_prepared := prepared; wsr_session := wsp_session prepared;
          wsr_collection := restart_clock started_at_ms (effective_yield_time_ms prepared) (wsp_collection prepared);
          wsr_input_status := input_status; wsr_exit := None |}.
Definition stdin_polled (running : RunningWriteStdin) : Polled :=
  {| po_session := wsr_session running; po_collection := wsr_collection running; po_exit := wsr_exit running |}.
Definition poll_write_stdin (context : OperationContext) (running : RunningWriteStdin)
  : M W (RunningWriteStdin * UnifiedExecPoll) :=
  _ ← lift (validate_session (wsr_session running));
  '(s, page) ← poll context (stdin_polled running);
  mret ({| wsr_prepared := wsr_prepared running; wsr_session := po_session s; wsr_collection := po_collection s;
           wsr_input_status := wsr_input_status running; wsr_exit := po_exit s |}, page).
Definition finish_write_stdin (running : RunningWriteStdin) : M W UnifiedExecCallResult :=
  if bool_decide (wsr_input_status running = Some InputStdinClosed) && session_running (wsr_session running) then
    throw (exec_error StdinClosed (str! "stdin closed before the terminal input could be accepted"))
  else finish (stdin_polled running).
Fixpoint wait_write_stdin (fuel : nat) (context : OperationContext) : M (RunningWriteStdin * W) UnifiedExecCallResult :=
  running ← running_now;
  if stdin_ready running then outer (finish_write_stdin running)
  else
    match fuel with
    | 0 => λ s, (Panic, s)
    | S fuel =>
      '(running, _) ← outer (poll_write_stdin context running);
      _ ← assign running;
      wait_write_stdin fuel context
    end.
Definition terminate_session (context : OperationContext) (session : ExecSession) : M W TerminateExecutionResult :=
  _ ← lift (validate_session session);
  pr_terminate context
    {| te_operation_id := xs_terminate_operation_id session;
       te_execution_id := eh_execution_id (xs_handle session);
       te_generation := eh_generation (xs_handle session) |}.
End tool.
