(* ===== verification/ExecSessions.v ===== *)
(** Sessions of the exec tools over many calls: no output is lost or repeated between
    the collections of successive calls, and waiting for an ended command ends.
    Proved against the promises of [ProcessStream.ReadsPages]. *)
From Stdlib Require Import ZifyBool.
From stdpp Require Import prelude gmap strings pretty list relations.
From S2P Require Import Prelude.
From S2P Require Import Text.
From S2P Require Import Core.
From S2P Require Import Host.
From S2P Require Import PatchApply.
From S2P Require Import ProcessCore.
From S2P Require Import Journal.
From S2P Require Import ProcessStream.
From S2P Require Import OutputBuffers.
From S2P Require Import ExecOutput.
From S2P Require Import ExecInvocation.
From S2P Require Import UnifiedExec.

(** ** Parts of a stream *)

Definition part (v : StreamView) (from to : N) : list (N * stream_unit) :=
  drop (N.to_nat from) (take (N.to_nat to) (sv_units v)).

Lemma exits_of_app a b : exits_of (a ++ b) = exits_of a ++ exits_of b.
Proof. apply omap_app. Qed.
Lemma closed_units_app a b : closed_units (a ++ b) = closed_units a || closed_units b.
Proof. apply existsb_app. Qed.
Lemma closed_units_event e : closed_units (units_of e).*2 = is_closed_event e.
Proof.
  unfold units_of, is_closed_event. destruct (event e) as [|s [|b data]| | |]; try done.
  rewrite snd_number. generalize (b :: data). intros l. induction l as [|x l IH]; [done|exact IH].
Qed.
Lemma part_page v from res c :
  (from ≤ c)%N → stream_page v c res →
  part v from (rx_next_sequence res) = part v from c ++ payload (rx_events res).
Proof.
  intros Hle Hp. unfold part. rewrite (page_take _ _ _ Hp). apply drop_app_le.
  rewrite length_take. pose proof (sp_cursor _ _ _ Hp). lia.
Qed.
Lemma part_grows v v' from to :
  grows v v' → (to ≤ N.of_nat (length (sv_units v)))%N → part v' from to = part v from to.
Proof. intros [more Hm] Hto. unfold part. rewrite Hm, take_app_le by lia. done. Qed.
Lemma part_join v a b c : (a ≤ b)%N → (b ≤ c)%N → part v a c = part v a b ++ part v b c.
Proof.
  intros Hab Hbc. unfold part. rewrite <-(take_drop (N.to_nat b) (take (N.to_nat c) (sv_units v))) at 1.
  rewrite take_take, Nat.min_l by lia. destruct (decide (N.to_nat a ≤ length (take (N.to_nat b) (sv_units v)))) as [Hl|Hl].
  - by rewrite drop_app_le.
  - rewrite length_take in Hl. rewrite (drop_ge (take (N.to_nat c) _)) by (rewrite length_take; lia).
    by rewrite !app_nil_r.
Qed.
Lemma part_all v : part v 0 (N.of_nat (length (sv_units v))) = sv_units v.
Proof. unfold part. by rewrite Nat2N.id, firstn_all. Qed.

(** ** Collecting *)

Lemma collect_ok max all collection failures evs :
  HeadTail.describes max all (oc_buffer collection) → oc_failure collection = last failures →
  ∃ collection', collect collection evs = Ok collection' ∧
    HeadTail.describes max (all ++ output_of (payload evs)) (oc_buffer collection') ∧
    oc_failure collection' = last (failures ++ failures_of (payload evs)) ∧
    oc_closed collection' = oc_closed collection || closed_units (payload evs) ∧
    oc_ready collection' = oc_ready collection ∧ oc_deadline_at_ms collection' = oc_deadline_at_ms collection.
Proof.
  revert all collection failures. induction evs as [|e evs IH]; intros all collection failures Hb Hf.
  { exists collection. rewrite !app_nil_r. by rewrite orb_false_r. }
  cbn [collect]. rewrite payload_cons, output_of_app, failures_of_app, closed_units_app, output_of_event,
    failures_of_event, closed_units_event. unfold is_closed_event.
  destruct (event e) as [|s data|code|m|]; rewrite ?app_nil_l; step_result; [by apply IH| |by apply IH| |].
  - destruct (HeadTail.push_describes (E:=ExecutionError) max all (oc_buffer collection) data Hb) as (b & -> & Hb').
    step_result. rewrite (assoc_L (++)).
    by apply (IH (all ++ data) (set_collected b (oc_failure collection) (oc_closed collection) collection)).
  - rewrite (assoc_L (++)). apply (IH all (set_collected _ (Some m) _ collection) (failures ++ [m])); [done|].
    by rewrite last_snoc.
  - destruct (IH all (set_collected (oc_buffer collection) (oc_failure collection) true collection) failures Hb Hf)
      as (c' & Hc & H1 & H2 & H3 & H4 & H5). exists c'. split_and!; try done. rewrite H3. cbn. by rewrite orb_true_r.
Qed.
Lemma exec_terminal_spec st : exec_terminal st = is_terminal st.
Proof. by destruct st. Qed.

(** Clocks and pauses do not concern executions. *)
Class ClockKeeps {W : Type} `{!ExecClock W} (shows : W → StreamView → Prop) (calm : OperationContext → W → Prop) : Prop := {
  now_keeps : ∀ w v, shows w v → shows (now_ms w).2 v;
  pause_keeps : ∀ ms w v, shows w v → shows (pause_ms ms w) v;
  digit_keeps : ∀ w v, shows w v → shows (random_digit w).2 v;
  now_calm : ∀ c w, calm c w → calm c (now_ms w).2;
}.
(** Whether counters fit does not depend on the clock. *)
Class ClockWithin {W : Type} `{!World W, !ExecClock W} (within : W → Prop) : Prop := {
  now_within : ∀ w, within (now_ms w).2 → within w;
  pause_within : ∀ ms w, within (pause_ms ms w) → within w;
  observe_within : ∀ c w, within (checkpointM c w).2 → within w;
}.

Section sessions.
Context {W : Type} `{!World W, !ExecutionRuntime W, !ProcessRuntime W, !ExecClock W}.
Context {dbg : DebugPath} {grammar : BashGrammar} (self : UnifiedExecTool).
Context (generation : SupervisorGenerationId) (id : ExecutionId) (max : N).
Context (within : W → Prop) (shows : W → StreamView → Prop) (calm : OperationContext → W → Prop).
Context `{!ReadsPages generation id max within shows calm, !ClockKeeps shows calm, !ClockWithin within}.
Abbreviation host := (rt_descriptor (W:=W)).

(** A call that began at the cursor [from] has collected what its session has passed
    since; once it is over and its process has ended, the stream has ended too. *)
Record collects (v : StreamView) (from : N) (budget : nat) (s : Polled) : Prop := {
  cl_id : eh_execution_id (xs_handle (po_session s)) = id;
  cl_generation : eh_generation (xs_handle (po_session s)) = generation;
  cl_cursor : (from ≤ xs_cursor (po_session s) ≤ N.of_nat (length (sv_units v)))%N;
  cl_open : closed_units (part v 0 from) = false;
  cl_buffer : HeadTail.describes budget (output_of (part v from (xs_cursor (po_session s)))) (oc_buffer (po_collection s));
  cl_failure : oc_failure (po_collection s) = last (failures_of (part v from (xs_cursor (po_session s))));
  cl_closed : oc_closed (po_collection s) = closed_units (part v from (xs_cursor (po_session s)));
  cl_over : oc_ready (po_collection s) = true → session_running (po_session s) = false →
    oc_closed (po_collection s) = true ∧ po_exit s = last (exits_of (sv_units v));
  cl_running : oc_ready (po_collection s) = true → session_running (po_session s) = true →
    oc_closed (po_collection s) = false;
}.
(** A closed part reaches to the end. *)
Lemma closed_reaches (w : W) v from to :
  shows w v → closed_units (part v from to) = true → (N.of_nat (length (sv_units v)) ≤ to)%N.
Proof.
  intros Hs Hc. unfold closed_units in Hc. apply existsb_exists in Hc as (u & Hin & Hu).
  apply list_elem_of_In in Hin. unfold part in Hin.
  apply list_elem_of_split in Hin as (a & b & Hab).
  assert (Hsplit : sv_units v = (take (N.to_nat from) (take (N.to_nat to) (sv_units v)) ++ a)
    ++ u :: (b ++ drop (N.to_nat to) (sv_units v))).
  { rewrite <-(take_drop (N.to_nat to) (sv_units v)) at 1.
    rewrite <-(take_drop (N.to_nat from) (take (N.to_nat to) (sv_units v))) at 1. rewrite Hab.
    by rewrite <-!(assoc_L (++)). }
  apply (pages_last (ReadsPages := ReadsPages0) _ _ _ _ _ Hs Hsplit) in Hu.
  apply app_nil in Hu as [_ Hd]. apply (f_equal length) in Hd. rewrite length_drop in Hd. simpl in Hd. lia.
Qed.
Lemma collects_grows (w' : W) v v' from budget s :
  grows v v' → shows w' v' → collects v from budget s → collects v' from budget s.
Proof.
  intros Hg Hs [Hi Hge Hc Ho Hb Hf Hcl Hov Hru].
  assert (Hp : part v' from (xs_cursor (po_session s)) = part v from (xs_cursor (po_session s)))
    by (apply part_grows; [done|lia]).
  split; rewrite ?Hp; try done.
  - destruct Hg as [more Hm]. rewrite Hm, length_app. lia.
  - rewrite (part_grows v v' 0 from Hg) by lia. done.
  - intros Hr Hnr. destruct (Hov Hr Hnr) as [Hx ->]. split; [done|]. rewrite Hx, <-Hp in Hcl.
    symmetry in Hcl. pose proof (closed_reaches w' v' _ _ Hs Hcl) as Hlen.
    destruct Hg as [[|u more] Hm]; [by rewrite Hm, app_nil_r|]. rewrite Hm, length_app in Hlen. simpl in Hlen. lia.
Qed.

(** A page taken. *)
Lemma take_reply_ok (w : W) v from budget s reply :
  shows w v → collects v from budget s → oc_ready (po_collection s) = false →
  stream_page v (xs_cursor (po_session s)) reply →
  ∃ s', take_reply (po_session s) (po_collection s) reply w
        = (Ok (s', {| up_events := rx_events reply; up_ready := oc_ready (po_collection s') |}), (now_ms w).2) ∧
    collects v from budget s' ∧
    eh_state (xs_handle (po_session s')) = sv_state v ∧
    (closed_units (sv_units v) = true →
       oc_ready (po_collection s') = true ∨ (xs_cursor (po_session s) < xs_cursor (po_session s'))%N).
Proof.
  intros Hs [Hi Hge Hc Ho Hb Hf Hcl _ _] Hnr Hpage. pose proof (part_page v from reply (xs_cursor (po_session s)) (proj1 Hc) Hpage) as Hpart.
  destruct (collect_ok budget _ (po_collection s) (failures_of (part v from (xs_cursor (po_session s)))) (rx_events reply) Hb Hf)
    as (c' & Hcol & Hb' & Hf' & Hcl' & Hr' & Hd'). rewrite <-output_of_app, <-Hpart in Hb'.
  rewrite <-failures_of_app, <-Hpart in Hf'. rewrite Hcl, <-closed_units_app, <-Hpart in Hcl'. rewrite Hnr in Hr'.
  pose proof Hpage as [Hu Hn Hcur Has Hsome Hst Hex].
  unfold take_reply. rewrite (advance_ascending _ _ _ Has), <-Hn, lift_bind, N.eqb_refl. cbn [negb].
  rewrite Hcol, lift_bind. unfold nowM, mbind, M_bind. destruct (now_ms w) as [now w1]. cbn [snd].
  exists {| po_session := session_at (rx_next_sequence reply) (rx_state reply) (po_session s);
            po_collection := if call_over (rx_state reply) now c' then finish_collection now c' else c';
            po_exit := rx_exit_code reply |}.
  split; [reflexivity|]. cbn [po_collection po_session].
  set (over := call_over (rx_state reply) now c').
  assert (Hfin : oc_ready (if over then finish_collection now c' else c') = over) by (destruct over; [done|exact Hr']).
  assert (Hsame : oc_buffer (if over then finish_collection now c' else c') = oc_buffer c' ∧
    oc_failure (if over then finish_collection now c' else c') = oc_failure c' ∧
    oc_closed (if over then finish_collection now c' else c') = oc_closed c') by (by destruct over).
  destruct Hsame as (Hsb & Hsf & Hsc).
  assert (Hend : oc_closed c' = true → exec_terminal (sv_state v) = true).
  { intros Hx. rewrite exec_terminal_spec. apply (pages_closed (ReadsPages := ReadsPages0) w v Hs).
    rewrite Hcl' in Hx. unfold closed_units, part in *. apply existsb_exists in Hx as (u & Hin & Hu').
    apply existsb_exists. exists u. split; [|done]. apply list_elem_of_In in Hin.
    apply list_elem_of_In. eapply subseteq_take, subseteq_drop, Hin. }
  split; [|split].
  - split; cbn [po_session po_collection po_exit session_at xs_handle eh_execution_id eh_generation xs_cursor];
      rewrite ?Hsb, ?Hsf, ?Hsc, ?Hfin; try done; [split; [etrans; [apply Hc|apply Hcur]|apply Hcur]| |].
    + unfold session_running. cbn [session_at xs_handle eh_state]. intros Hov Hnr'.
      apply negb_false_iff in Hnr'. unfold over, call_over in Hov. rewrite Hnr' in Hov. cbn in Hov.
      rewrite orb_false_r in Hov. split; [done|]. rewrite Hex. by apply (pages_exit (ReadsPages := ReadsPages0) w).
    + unfold session_running. cbn [session_at xs_handle eh_state]. intros _ Hrun. rewrite Hst in Hrun.
      destruct (oc_closed c') eqn:Hx; [|done]. by rewrite (Hend eq_refl) in Hrun.
  - cbn. done.
  - intros Hclosed. rewrite Hfin. cbn [session_at xs_cursor].
    destruct (rx_events reply) as [|e evs] eqn:He.
    + left. pose proof (Hsome eq_refl) as Hnil. cbn in Hn.
      assert (Hall : closed_units (part v from (rx_next_sequence reply)) = true).
      { apply (f_equal length) in Hnil. rewrite length_drop in Hnil. simpl in Hnil.
        assert (Hw : part v 0 (rx_next_sequence reply) = sv_units v) by (unfold part; rewrite drop_0; apply take_ge; clear -Hnil Hn; lia).
        rewrite (part_join v 0 from (rx_next_sequence reply)) in Hw; [|apply N.le_0_l|etrans; [apply Hc|apply Hcur]].
        rewrite <-Hw, closed_units_app, Ho in Hclosed. exact Hclosed. }
      rewrite <-Hcl' in Hall. unfold over, call_over. rewrite Hall, Hst, (Hend Hall). done.
    + right. apply N.le_neq. split; [apply Hcur|]. intros Heq. rewrite <-Heq in Hu.
      apply (f_equal length) in Hu. rewrite length_app, payload_cons, length_app, length_fmap in Hu.
      pose proof (units_of_nonempty e) as Hne. destruct (units_of e); [done|]. simpl in Hu. clear -Hu. lia.
Qed.

(** *** Polls *)

Abbreviation request c s w :=
  (session_read self (po_session s) (poll_wait self (now_ms (checkpointM c w).2).1 (po_session s) (po_collection s))).
Lemma exec_poll_unfold c s (w : W) :
  poll self c s w =
    if oc_ready (po_collection s) then (Ok (s, {| up_events := []; up_ready := true |}), w)
    else
      match (checkpointM c w).1 with
      | Ok _ =>
        match pr_read c (request c s w) (now_ms (checkpointM c w).2).2 with
        | (Ok reply, w') => take_reply (po_session s) (po_collection s) reply w'
        | (Err e, w') => (Err e, w')
        | (Panic, w') => (Panic, w')
        end
      | Err e => (Err e, (checkpointM c w).2)
      | Panic => (Panic, (checkpointM c w).2)
      end.
Proof.
  unfold poll. destruct (oc_ready _); [done|]. unfold nowM, mbind, M_bind. destruct (checkpointM c w) as [[u|e|] w1]; [|done..].
  cbn [fst snd]. destruct (now_ms w1) as [now w2]. cbn [fst snd]. by destruct (pr_read _ _ _) as [[]].
Qed.
Lemma take_reply_world session collection reply (w : W) :
  (take_reply session collection reply w).2 = w ∨ (take_reply session collection reply w).2 = (now_ms w).2.
Proof.
  unfold take_reply, mbind, M_bind, lift, throw, lift. destruct (advance_events _ _ _); [|by left..]. destruct (negb _); [by left|].
  destruct (collect _ _); [|by left..]. right. unfold nowM. by destruct (now_ms w).
Qed.
Lemma exec_poll_stream c v from budget s (w : W) :
  shows w v → collects v from budget s → (0 < read_limit self ≤ u64_max)%N → within (poll self c s w).2 →
  ∃ v', shows (poll self c s w).2 v' ∧ grows v v' ∧ collects v' from budget s ∧
    ∀ s' page, (poll self c s w).1 = Ok (s', page) → collects v' from budget s'.
Proof.
  intros Hs Hc Hb. rewrite exec_poll_unfold. destruct (oc_ready (po_collection s)) eqn:Hr.
  { intros _. exists v. split_and!; [done|done|done|]. by intros s' page [= <- _]. }
  pose proof (pages_observe (ReadsPages := ReadsPages0) c w v Hs) as Hs1.
  destruct (checkpointM c w) as [[u|e|] w1]; cbn [fst snd] in *;
    [|intros _; exists v; split_and!; [done|done|done|by intros]..].
  pose proof (now_keeps (ClockKeeps := ClockKeeps0) w1 v Hs1) as Hs2.
  match goal with |- context [pr_read c ?r _] => set (req := r) end. intros Hin.
  assert (Hin' : within (pr_read c req (now_ms w1).2).2).
  { destruct (pr_read c req _) as [[reply|e|] w3]; [|done..]. cbn [snd].
    destruct (take_reply_world (po_session s) (po_collection s) reply w3) as [H|H]; rewrite H in Hin; [done|by apply now_within]. }
  destruct (pages_read (ReadsPages := ReadsPages0) c req _ v Hs2 Hin') as (v' & Hs3 & Hg & Hpage); [apply Hc|].
  destruct (pr_read c req _) as [[reply|e|] w3]; cbn [fst snd] in *;
    pose proof (collects_grows w3 v v' from budget s Hg Hs3 Hc) as Hc';
    [|exists v'; split_and!; [done|done|done|by intros]..].
  destruct (take_reply_ok w3 v' from budget s reply Hs3 Hc' Hr (Hpage reply Hb eq_refl)) as (s' & -> & Hc'' & _).
  exists v'. cbn [fst snd]. split_and!; [by apply now_keeps|done|done|]. by intros ? ? [= <- _].
Qed.

Lemma poll_wait_positive now session collection : poll_wait self now session collection ≠ Some 0%N.
Proof. unfold poll_wait. repeat case_match; try done. intros [= Hz]. lia. Qed.
Lemma grows_closed (w' : W) v v' :
  grows v v' → shows w' v' → closed_units (sv_units v) = true → sv_units v' = sv_units v.
Proof.
  intros Hg Hs Hc. rewrite <-part_all in Hc. rewrite <-(part_grows v v' 0 _ Hg) in Hc by lia.
  pose proof (closed_reaches w' v' _ _ Hs Hc) as Hl. destruct Hg as [more Hm]. rewrite Hm, length_app in Hl.
  destruct more; [by rewrite Hm, app_nil_r|]. simpl in Hl. lia.
Qed.
(** A poll of a closed stream. *)
Lemma poll_calm c v from budget s (w : W) :
  calm c w → shows w v → closed_units (sv_units v) = true → collects v from budget s →
  oc_ready (po_collection s) = false → (0 < read_limit self ≤ N.min max u64_max)%N →
  ∃ s' page w' v', poll self c s w = (Ok (s', page), w') ∧ calm c w' ∧ shows w' v' ∧
    sv_units v' = sv_units v ∧ collects v' from budget s' ∧ session_running (po_session s') = false ∧
    (oc_ready (po_collection s') = true ∨ (xs_cursor (po_session s) < xs_cursor (po_session s'))%N).
Proof.
  intros Hcalm Hs Hclosed Hc Hr Hb. rewrite exec_poll_unfold, Hr.
  pose proof (pages_observe (ReadsPages := ReadsPages0) c w v Hs) as Hs1.
  destruct (pages_calm_observe (ReadsPages := ReadsPages0) c w Hcalm) as [Hok Hcalm1]. rewrite Hok.
  pose proof (now_keeps (ClockKeeps := ClockKeeps0) _ v Hs1) as Hs2.
  pose proof (now_calm (ClockKeeps := ClockKeeps0) c _ Hcalm1) as Hcalm2.
  match goal with |- context [pr_read c ?r _] => set (req := r) end.
  destruct (pages_calm_read (ReadsPages := ReadsPages0) c req _ v Hcalm2 Hs2 Hclosed) as (Hin & (reply & Hrep) & Hcalm3);
    [apply Hc|apply Hc|exact Hb|apply poll_wait_positive|apply Hc|].
  destruct (pages_read (ReadsPages := ReadsPages0) c req _ v Hs2 Hin) as (v' & Hs3 & Hg & Hpage); [apply Hc|].
  destruct (pr_read c req _) as [out w3]. cbn [fst snd] in *. subst out.
  pose proof (collects_grows w3 v v' from budget s Hg Hs3 Hc) as Hc'. pose proof (grows_closed w3 v v' Hg Hs3 Hclosed) as Hsame.
  destruct (take_reply_ok w3 v' from budget s reply Hs3 Hc' Hr (Hpage reply ltac:(cbn; lia) eq_refl))
    as (s' & -> & Hc'' & Hst & Hmove).
  eexists s', _, _, v'. split; [reflexivity|]. split_and!; [by apply now_calm|by apply now_keeps|done|done| |].
  - unfold session_running. rewrite Hst, exec_terminal_spec, (pages_closed (ReadsPages := ReadsPages0) w3 v' Hs3); [done|].
    by rewrite Hsame.
  - apply Hmove. by rewrite Hsame.
Qed.

(** *** Calls

    What a result tells of the part of the stream it collected. *)
Definition told (budget : nat) (collected : bytes) (result : UnifiedExecCallResult) : Prop :=
  ∃ buffer failure, HeadTail.describes budget collected buffer ∧
    uo_output (ur_output result) = with_failure (HeadTail.text buffer) failure ∧
    uo_omitted_bytes (ur_output result) = HeadTail.omitted_bytes buffer.

Lemma exec_finish_ok (w : W) s res w' :
  finish s w = (Ok res, w') →
  oc_ready (po_collection s) = true ∧
  uo_output (ur_output res) = with_failure (HeadTail.text (oc_buffer (po_collection s))) (oc_failure (po_collection s)) ∧
  uo_omitted_bytes (ur_output res) = HeadTail.omitted_bytes (oc_buffer (po_collection s)) ∧
  ur_session res = (if session_running (po_session s) then Some (po_session s) else None) ∧
  uo_exit_code (ur_output res) = (if session_running (po_session s) then None else po_exit s) ∧
  (w' = w ∨ w' = (now_ms w).2).
Proof.
  unfold finish. destruct (oc_ready _); [|done]. cbn [negb]. intros H.
  apply M_bind_ok_inv in H as (output & w1 & Ho & H). injection H as <- <-.
  unfold collection_output in Ho. cbv zeta in Ho. apply M_bind_ok_inv in Ho as (at_ms & w2 & Hat & Ho). injection Ho as <- <-.
  assert (w2 = w ∨ w2 = (now_ms w).2) as Hw.
  { destruct (oc_finished_at_ms _); [injection Hat as _ <-; by left|]. unfold nowM in Hat.
    destruct (now_ms w). injection Hat as _ <-. by right. }
  cbn [ur_output ur_session]. by destruct (session_running (po_session s)).
Qed.
Lemma finish_ready s (w : W) : oc_ready (po_collection s) = true → ∃ result w', finish s w = (Ok result, w').
Proof.
  intros Hr. unfold finish, collection_output. rewrite Hr. cbn [negb]. cbv zeta. unfold nowM, mbind, M_bind.
  destruct (oc_finished_at_ms _); [by eexists _, _|]. destruct (now_ms w). by eexists _, _.
Qed.
Lemma generate_chunk_world count (w : W) :
  (∀ v, shows w v → shows (chunk_digits count w).2 v) ∧ ∃ id_, (chunk_digits count w).1 = Ok id_.
Proof.
  revert w. induction count as [|count IH]; intros w; [by eauto|]. cbn [chunk_digits].
  unfold digitM, mbind, M_bind. pose proof (λ v, digit_keeps (ClockKeeps := ClockKeeps0) w v) as Hd.
  destruct (random_digit w) as [d w1]. cbn [snd] in Hd. destruct (IH w1) as [Hk [id_ Hid]].
  destruct (chunk_digits count w1) as [out w2]. cbn [fst snd] in *. subst out. cbn. split; [|by eauto]. auto.
Qed.
Lemma prepared_input input session ids (w : W) prepared w' :
  prepare_write_stdin self input session ids w = (Ok prepared, w') →
  wsp_session prepared = session ∧ oc_buffer (wsp_collection prepared) = HeadTail.new (uc_max_output_bytes (ux_config self)) ∧
  oc_failure (wsp_collection prepared) = None ∧ oc_closed (wsp_collection prepared) = false ∧
  oc_ready (wsp_collection prepared) = false.
Proof.
  unfold prepare_write_stdin. intros H. apply M_bind_ok_inv in H as (? & w1 & _ & H).
  destruct (negb _); [done|]. destruct (negb _); [done|].
  apply M_bind_ok_inv in H as (action & w2 & _ & H). apply M_bind_ok_inv in H as (y & w3 & _ & H).
  apply M_bind_ok_inv in H as (id_ & w4 & _ & H). by injection H as <- _.
Qed.
Lemma start_input_shows c prepared (w : W) r w' v :
  start_write_stdin c prepared w = (Ok r, w') → within w' → shows w v →
  wsr_session r = wsp_session prepared ∧
  (∃ t, wsr_collection r = restart_clock t (effective_yield_time_ms prepared) (wsp_collection prepared)) ∧
  ∃ v', shows w' v' ∧ grows v v'.
Proof.
  unfold start_write_stdin. intros H Hin Hs. apply M_bind_ok_inv in H as (? & w1 & Hc & H).
  pose proof (pages_observe (ReadsPages := ReadsPages0) c w v Hs) as Hs1. rewrite Hc in Hs1. cbn [snd] in Hs1.
  apply M_bind_ok_inv in H as (? & w2 & Hv & H). injection Hv as _ <-.
  apply M_bind_ok_inv in H as (status & w2 & Hd & H). apply M_bind_ok_inv in H as (u & w3 & Hp & H).
  apply M_bind_ok_inv in H as (now & w4 & Hn & H). injection H as <- <-. cbn [wsr_session wsr_collection].
  split; [done|]. split; [by eexists|].
  unfold nowM in Hn. assert (w4 = (now_ms w3).2) as -> by (destruct (now_ms w3); by injection Hn as _ <-).
  apply now_within in Hin.
  assert (Hw3 : (within w3 → within w2) ∧ ∀ v', shows w2 v' → shows w3 v').
  { destruct (input_taken _ _); [|by injection Hp as _ <-]. unfold pauseM, mbind, M_bind in Hp.
    pose proof (λ v', pages_observe (ReadsPages := ReadsPages0) c (pause_ms 100 w2) v') as Ho.
    pose proof (observe_within c (pause_ms 100 w2)) as Hw.
    destruct (checkpointM c (pause_ms 100 w2)) as [out wp]. injection Hp as _ <-. cbn [snd] in *.
    split; [intros; by eapply pause_within, Hw|]. intros v' Hs'. by apply Ho, pause_keeps. }
  destruct Hw3 as [Hin2 Hk]. specialize (Hin2 Hin).
  assert (∃ v', shows w2 v' ∧ grows v v') as (v' & Hs2 & Hg).
  { unfold dispatch_action in Hd. destruct (wsp_action prepared) as [|request|request].
    - injection Hd as _ <-. by exists v.
    - apply M_bind_ok_inv in Hd as (reply & wd & Hd & Hr). injection Hr as _ <-.
      destruct (pages_write (ReadsPages := ReadsPages0) c request w1 v Hs1) as (v' & Hs' & Hg); rewrite Hd in *; [done|by exists v'].
    - apply M_bind_ok_inv in Hd as (sent & wd & Hd & Hr).
      assert (wd = w2) as -> by (destruct sent; [destruct (decide _); [|done]|]; by injection Hr as _ <-).
      unfold attempt in Hd.
      destruct (pages_signal (ReadsPages := ReadsPages0) c request w1 v Hs1) as (v' & Hs' & Hg);
        destruct (pr_signal c request w1) as [[]]; try done; injection Hd as _ <-; [done|done|by exists v'|by exists v']. }
  exists v'. split; [by apply now_keeps, Hk|done].
Qed.

(** The history of a session: polls, whatever their outcome; the end of a call,
    followed by an interaction prepared for the session it returned and started at
    some later time; and anything else that happens to the world, of which the
    stream only grows.  The results of the calls that ended are kept. *)
Definition after_poll (s : Polled) (out : ExecutionResult (Polled * UnifiedExecPoll)) : Polled :=
  match out with Ok (s', _) => s' | _ => s end.
Inductive converses : list UnifiedExecCallResult * Polled * W → list UnifiedExecCallResult * Polled * W → Prop :=
  | conv_poll c done s w : within (poll self c s w).2 →
      converses (done, s, w) (done, after_poll s (poll self c s w).1, (poll self c s w).2)
  | conv_input input ids c done s w w1 result session prepared wp wp' w2 r w' :
      finish s w = (Ok result, w1) → ur_session result = Some session →
      prepare_write_stdin self input session ids wp = (Ok prepared, wp') →
      start_write_stdin c prepared w2 = (Ok r, w') → within w' →
      (∀ v, shows w1 v → ∃ v', shows w2 v' ∧ grows v v') →
      converses (done, s, w) (done ++ [result], stdin_polled r, w')
  | conv_world done s w w' :
      (∀ v, shows w v → ∃ v', shows w' v' ∧ grows v v') → converses (done, s, w) (done, s, w').

(** The stream has been handed out in parts, one for each call that ended, and the
    current call is collecting from where they end. *)
Definition handed_out (v : StreamView) (budget : nat) (done : list UnifiedExecCallResult) (s : Polled) : Prop :=
  ∃ from parts, collects v from budget s ∧ concat parts = output_of (part v 0 from) ∧ Forall2 (told budget) parts done.
Lemma handed_grows (w' : W) v v' budget done s :
  grows v v' → shows w' v' → handed_out v budget done s → handed_out v' budget done s.
Proof.
  intros Hg Hs (from & parts & Hc & Hcat & Htold). exists from, parts. split; [by eapply collects_grows|].
  split; [|done]. rewrite Hcat, (part_grows v v' 0 from Hg); [done|]. destruct (cl_cursor _ _ _ _ Hc). lia.
Qed.
Abbreviation budget := (uc_max_output_bytes (ux_config self)).
(** The part of a call that ended, and what it told of it. *)
Lemma call_told (w : W) v done s result w1 :
  handed_out v budget done s → finish s w = (Ok result, w1) →
  ∃ parts, concat parts = output_of (part v 0 (xs_cursor (po_session s))) ∧ Forall2 (told budget) parts (done ++ [result]).
Proof.
  intros (from & parts & Hc & Hcat & Htold) Hf. apply exec_finish_ok in Hf as (_ & Hout & Hom & _).
  pose proof (cl_cursor _ _ _ _ Hc) as Hcur.
  exists (parts ++ [output_of (part v from (xs_cursor (po_session s)))]). split.
  - rewrite concat_app. cbn [concat]. rewrite app_nil_r, Hcat, <-output_of_app, <-(part_join v 0 from) by lia. done.
  - apply Forall2_app; [done|]. constructor; [|by constructor].
    exists (oc_buffer (po_collection s)), (oc_failure (po_collection s)). by split; [apply Hc|].
Qed.
Lemma converses_hands (st st' : list UnifiedExecCallResult * Polled * W) v :
  (0 < read_limit self ≤ u64_max)%N → converses st st' →
  shows st.2 v → handed_out v budget st.1.1 st.1.2 →
  ∃ v', shows st'.2 v' ∧ grows v v' ∧ handed_out v' budget st'.1.1 st'.1.2.
Proof.
  intros Hb Hst. destruct Hst as [c done s w Hin|input ids c done s w w1 result session prepared wp wp' w2 r w'
    Hf Hses Hprep Hstart Hin Hw|done s w w' Hw]; cbn [fst snd]; intros Hs Hh.
  - destruct Hh as (from & parts & Hc & Hcat & Htold).
    destruct (exec_poll_stream c v from budget s w Hs Hc Hb Hin) as (v' & Hs' & Hg & Hc' & Hok).
    exists v'. split; [done|]. split; [done|]. exists from, parts. split.
    + destruct (poll self c s w) as [[[s' page]|e|] w'']; cbn [fst snd after_poll] in *; [by eapply Hok|done..].
    + split; [|done]. rewrite Hcat, (part_grows v v' 0 from Hg); [done|]. destruct (cl_cursor _ _ _ _ Hc). lia.
  - destruct (call_told w v done s result w1 Hh Hf) as (parts & Hcat & Htold).
    destruct Hh as (from & _ & Hc & _). apply exec_finish_ok in Hf as (Hr & _ & _ & Hsess & _ & Hw1).
    rewrite Hses in Hsess. destruct (session_running (po_session s)) eqn:Hrun; [|done]. injection Hsess as ->.
    assert (Hs1 : shows w1 v) by (destruct Hw1 as [->| ->]; [done|by apply now_keeps]).
    destruct (Hw v Hs1) as (v2 & Hs2 & Hg2).
    destruct (start_input_shows c prepared w2 r w' v2 Hstart Hin Hs2) as (Hses' & [t Hcol] & v3 & Hs3 & Hg3).
    apply prepared_input in Hprep as (Hps & Hpb & Hpf & Hpc & Hpr). assert (Hg : grows v v3) by (by etrans).
    pose proof (collects_grows w' v v3 from budget s Hg Hs3 Hc) as Hc'. pose proof (cl_cursor _ _ _ _ Hc) as Hcur.
    exists v3. split; [done|]. split; [done|]. exists (xs_cursor (po_session s)), parts. split; [|split; [|done]].
    + pose proof (cl_cursor _ _ _ _ Hc') as Hcur'.
      assert (Hnil : part v3 (xs_cursor (po_session s)) (xs_cursor (po_session s)) = [])
        by (unfold part; apply drop_ge; rewrite length_take; lia).
      unfold stdin_polled. split; cbn [po_session po_collection po_exit]; rewrite ?Hses', ?Hps, ?Hcol, ?Hnil;
        cbn [restart_clock oc_buffer oc_failure oc_closed oc_ready]; rewrite ?Hpb, ?Hpf, ?Hpc, ?Hpr; try done.
      * apply Hc.
      * apply Hc.
      * lia.
      * rewrite (part_join v3 0 from) by lia. rewrite closed_units_app, (cl_open _ _ _ _ Hc'), <-(cl_closed _ _ _ _ Hc').
        by apply Hc'.
      * apply HeadTail.new_describes.
    + rewrite Hcat, (part_grows v v3 0 _ Hg); [done|lia].
  - destruct (Hw v Hs) as (v' & Hs' & Hg). exists v'. split; [done|]. split; [done|]. by eapply handed_grows.
Qed.
Lemma history_hands (st st' : list UnifiedExecCallResult * Polled * W) v :
  (0 < read_limit self ≤ u64_max)%N → rtc converses st st' →
  shows st.2 v → handed_out v budget st.1.1 st.1.2 →
  ∃ v', shows st'.2 v' ∧ grows v v' ∧ handed_out v' budget st'.1.1 st'.1.2.
Proof.
  intros Hb Hr. revert v. induction Hr as [st|st1 st2 st3 H12 _ IH]; intros v Hs Hh; [by exists v|].
  destruct (converses_hands _ _ v Hb H12 Hs Hh) as (v2 & Hs2 & Hg2 & Hh2).
  destruct (IH v2 Hs2 Hh2) as (v3 & Hs3 & Hg3 & Hh3). exists v3. split; [done|]. split; [by etrans|done].
Qed.

(** The polled state of a started command. *)
Definition exec_polled (r : RunningExecCommand) (session : ExecSession) : Polled :=
  {| po_session := session; po_collection := xr_collection r; po_exit := xr_exit r |}.
Lemma started_session c prepared (w0 : W) r0 w1 session v :
  start_exec_command c prepared w0 = (Ok r0, w1) → xr_session r0 = Some session →
  se_execution_id (px_request prepared) = id → px_generation prepared = generation →
  px_max_output_bytes prepared = budget →
  handed_out v budget [] (exec_polled r0 session) ∧
  xr_prepared r0 = prepared ∧ xr_patch r0 = None ∧
  px_host_id prepared = host_id host ∧ px_generation prepared = supervisor_generation_id host.
Proof.
  unfold start_exec_command. intros H Hses Hid Hgen Hmax. apply M_bind_ok_inv in H as (? & w2 & _ & H).
  apply M_bind_ok_inv in H as (? & w3 & Hv & H). injection Hv as Hv _.
  apply M_bind_ok_inv in H as (? & w4 & _ & H). apply M_bind_ok_inv in H as (now & w5 & _ & H).
  unfold validate_prepared in Hv. destruct (bool_decide_reflect (px_host_id prepared = host_id host)); [|done].
  destruct (bool_decide_reflect (px_generation prepared = supervisor_generation_id host)); [|done].
  destruct (px_patch prepared) as [invocation|].
  { apply M_bind_ok_inv in H as (? & ? & _ & H). apply M_bind_ok_inv in H as (? & ? & _ & H).
    apply M_bind_ok_inv in H as (? & ? & _ & H). injection H as <- _. done. }
  apply M_bind_ok_inv in H as (handle & w6 & _ & H). destruct (_ || _) eqn:Hother; [done|]. injection H as <- _.
  apply orb_false_iff in Hother as [Hi Hg]. apply negb_false_iff, bool_decide_eq_true in Hi, Hg.
  injection Hses as <-. split; [|done]. exists 0%N, []. split; [|split; [|constructor]].
  - unfold exec_polled. assert (Hnil : part v 0 0 = []) by (unfold part; by rewrite drop_0).
    split; cbn [po_session po_collection po_exit opened_session xs_handle xs_cursor xr_collection command_collection
      new_collection oc_buffer oc_failure oc_closed oc_ready]; rewrite ?Hnil; try done; [congruence|congruence|lia|].
    rewrite Hmax. apply HeadTail.new_describes.
  - unfold part. by rewrite drop_0.
Qed.
(** A call that ended without a session has handed out the whole stream. *)
Lemma call_whole (w : W) v done s result w1 :
  shows w v → handed_out v budget done s → finish s w = (Ok result, w1) → ur_session result = None →
  part v 0 (xs_cursor (po_session s)) = sv_units v ∧ closed_units (sv_units v) = true ∧
  uo_exit_code (ur_output result) = last (exits_of (sv_units v)).
Proof.
  intros Hs (from & _ & Hc & _) Hf Hnone. apply exec_finish_ok in Hf as (Hready & _ & _ & Hsess & Hexit & _).
  rewrite Hnone in Hsess. destruct (session_running (po_session s)) eqn:Hrun; [done|].
  destruct (cl_over _ _ _ _ Hc Hready Hrun) as [Hcl Hx]. rewrite (cl_closed _ _ _ _ Hc) in Hcl.
  pose proof (closed_reaches w v _ _ Hs Hcl) as Hlen. pose proof (cl_cursor _ _ _ _ Hc) as Hcur.
  assert (Hall : part v 0 (xs_cursor (po_session s)) = sv_units v).
  { replace (xs_cursor (po_session s)) with (N.of_nat (length (sv_units v))) by lia. apply part_all. }
  split; [exact Hall|]. split; [|by rewrite Hexit].
  rewrite <-Hall, (part_join v 0 from), closed_units_app, Hcl by lia. apply orb_true_r.
Qed.

(** *** Waiting

    Both waits poll until the call is ready, and finish it. *)
Fixpoint settle (fuel : nat) (c : OperationContext) (s : Polled) : M W Polled :=
  if oc_ready (po_collection s) then mret s
  else
    match fuel with
    | 0 => lift Panic
    | S fuel => '(s, _) ← poll self c s; settle fuel c s
    end.
Lemma settle_ready fuel c s (w : W) : oc_ready (po_collection s) = true → settle fuel c s w = (Ok s, w).
Proof. intros Hr. destruct fuel; cbn [settle]; by rewrite Hr. Qed.
Lemma settle_poll fuel c s (w : W) s2 w2 :
  oc_ready (po_collection s) = false → settle fuel c s w = (Ok s2, w2) →
  ∃ fuel' s1 page w1, fuel = S fuel' ∧ poll self c s w = (Ok (s1, page), w1) ∧ settle fuel' c s1 w1 = (Ok s2, w2).
Proof.
  intros Hr. destruct fuel as [|fuel]; cbn [settle]; rewrite Hr; [done|]. intros H.
  apply M_bind_ok_inv in H as ([s1 page] & w1 & Hp & H). by exists fuel, s1, page, w1.
Qed.
Lemma poll_session c s (w : W) s' page w' :
  poll self c s w = (Ok (s', page), w') → validate_session (po_session s') = validate_session (po_session s).
Proof.
  unfold poll. destruct (oc_ready _); [by intros [= <- _ _]|]. intros H.
  apply M_bind_ok_inv in H as (? & w1 & _ & H). apply M_bind_ok_inv in H as (now & w2 & _ & H).
  apply M_bind_ok_inv in H as (reply & w3 & _ & H). unfold take_reply in H.
  apply M_bind_ok_inv in H as (cursor & w4 & _ & H). destruct (negb _); [done|].
  apply M_bind_ok_inv in H as (collection & w5 & _ & H). apply M_bind_ok_inv in H as (now' & w6 & _ & H).
  by injection H as <- _ _.
Qed.
(** Once the output of an ended command is closed, settling takes no more polls than
    there are units left, plus one. *)
Lemma settles c v from fuel s (w : W) :
  (0 < read_limit self ≤ N.min max u64_max)%N → calm c w → shows w v → closed_units (sv_units v) = true →
  collects v from budget s →
  oc_ready (po_collection s) = true ∨ length (sv_units v) + 1 ≤ fuel + N.to_nat (xs_cursor (po_session s)) →
  ∃ s' w' v', settle fuel c s w = (Ok s', w') ∧ shows w' v' ∧ sv_units v' = sv_units v ∧ collects v' from budget s' ∧
    oc_ready (po_collection s') = true ∧
    (oc_ready (po_collection s) = false ∨ session_running (po_session s) = false →
       session_running (po_session s') = false).
Proof.
  intros Hb. revert v s w. induction fuel as [|fuel IH]; intros v s w Hcalm Hs Hclosed Hc Hf;
    pose proof (cl_cursor _ _ _ _ Hc) as Hcur;
    (destruct (oc_ready (po_collection s)) eqn:Hr;
      [rewrite settle_ready by done; exists s, w, v; split_and!; [done..|by intros [?|?]]|]);
    (destruct Hf as [?|Hf]; [done|]); [lia|].
  destruct (poll_calm c v from budget s w Hcalm Hs Hclosed Hc Hr Hb)
    as (s1 & page & w1 & v1 & Hp & Hcalm' & Hs' & Hsame & Hc' & Hrun & Hmove).
  cbn [settle]. rewrite Hr, (M_bind_ok _ _ _ _ _ Hp).
  destruct (IH v1 s1 w1) as (s2 & w2 & v2 & Hset & Hs2 & Hu & Hc2 & Hr2 & Hrun2); [done|done|by rewrite Hsame|done| |].
  - destruct Hmove as [Hready|Hlt]; [by left|right]. rewrite Hsame. lia.
  - exists s2, w2, v2. split_and!; [done|done|by rewrite Hu|done|done|]. intros _. apply Hrun2. by right.
Qed.
(** What is told of a stream that has ended, once the call has settled. *)
Lemma settled_tells c v done fuel s (w : W) :
  (0 < read_limit self ≤ N.min max u64_max)%N → calm c w → shows w v → closed_units (sv_units v) = true →
  handed_out v budget done s → oc_ready (po_collection s) = false →
  length (sv_units v) + 1 ≤ fuel + N.to_nat (xs_cursor (po_session s)) →
  ∃ s' w' result w2 parts, settle fuel c s w = (Ok s', w') ∧ finish s' w' = (Ok result, w2) ∧
    oc_ready (po_collection s') = true ∧ session_running (po_session s') = false ∧ ur_session result = None ∧
    uo_exit_code (ur_output result) = last (exits_of (sv_units v)) ∧
    concat parts = output_of (sv_units v) ∧ Forall2 (told budget) parts (done ++ [result]).
Proof.
  intros Hb Hcalm Hs Hclosed (from & parts & Hc & Hcat & Htold) Hr Hf.
  destruct (settles c v from fuel s w Hb Hcalm Hs Hclosed Hc) as (s' & w' & v' & Hset & Hs' & Hu & Hc' & Hr' & Hrun);
    [by right|]. specialize (Hrun (or_introl Hr)). destruct (finish_ready s' w' Hr') as (result & w2 & Hfin).
  assert (Hh : handed_out v' budget done s').
  { exists from, parts. split; [done|]. split; [|done]. rewrite Hcat. unfold part. by rewrite Hu. }
  destruct (call_told w' v' done s' result w2 Hh Hfin) as (parts' & Hcat' & Htold').
  apply exec_finish_ok in Hfin as Hok. destruct Hok as (_ & _ & _ & Hses & _). rewrite Hrun in Hses.
  destruct (call_whole w' v' done s' result w2 Hs' Hh Hfin Hses) as (Hall & _ & Hexit).
  exists s', w', result, w2, parts'. split_and!; [done..|by rewrite Hexit, Hu|by rewrite Hcat', Hall, Hu|done].
Qed.

Lemma wait_unfold fuel c (r : RunningExecCommand) (w : W) :
  wait_exec_command self fuel c (r, w) =
    if exec_ready r then let '(x, w') := finish_exec_command r w in (x, (r, w'))
    else
      match fuel with
      | 0 => (Panic, (r, w))
      | S fuel =>
        match poll_exec_command self c r w with
        | (Ok (r', _), w') => wait_exec_command self fuel c (r', w')
        | (Err e, w') => (Err e, (r, w'))
        | (Panic, w') => (Panic, (r, w'))
        end
      end.
Proof.
  destruct fuel; cbn [wait_exec_command]; unfold mbind at 1, M_bind, running_now; (destruct (exec_ready r); [done|]); [done|].
  unfold mbind at 1, M_bind, outer. destruct (poll_exec_command self c r w) as [[[r' page]|e|] w']; done.
Qed.
Lemma poll_exec_session c r session (w : W) :
  xr_patch r = None → xr_session r = Some session → px_host_id (xr_prepared r) = host_id host →
  px_generation (xr_prepared r) = supervisor_generation_id host →
  poll_exec_command self c r w =
    match poll self c (exec_polled r session) w with
    | (Ok (s, page), w') =>
      (Ok ({| xr_prepared := xr_prepared r; xr_session := Some (po_session s); xr_patch := None;
              xr_collection := po_collection s; xr_exit := po_exit s |}, page), w')
    | (Err e, w') => (Err e, w')
    | (Panic, w') => (Panic, w')
    end.
Proof.
  intros Hp Hs Hh Hg. unfold poll_exec_command, validate_prepared. rewrite !bool_decide_true by done. cbn [negb].
  rewrite Hp, Hs. unfold expect, or_panic. rewrite !lift_bind.
  unfold mbind at 1, M_bind, exec_polled. by destruct (poll self c _ w) as [[[s page]|e|] w'].
Qed.
(** A running command in the state of its polls. *)
Definition exec_running (prepared : PreparedExecCommand) (s : Polled) : RunningExecCommand :=
  {| xr_prepared := prepared; xr_session := Some (po_session s); xr_patch := None;
     xr_collection := po_collection s; xr_exit := po_exit s |}.
Lemma wait_exec_settles fuel c prepared s (w : W) s' w' :
  px_host_id prepared = host_id host → px_generation prepared = supervisor_generation_id host →
  settle fuel c s w = (Ok s', w') → oc_ready (po_collection s') = true →
  wait_exec_command self fuel c (exec_running prepared s, w)
  = ((finish s' w').1, (exec_running prepared s', (finish s' w').2)).
Proof.
  intros Hh Hg. revert s w. induction fuel as [|fuel IH]; intros s w Hset Hr'; rewrite wait_unfold;
    unfold exec_ready; cbn [exec_running xr_collection];
    (destruct (oc_ready (po_collection s)) eqn:Hr;
      [rewrite settle_ready in Hset by done; injection Hset as <- <-; unfold finish_exec_command, expect;
       cbn [exec_running xr_patch xr_session or_panic]; rewrite lift_bind; by destruct s; destruct (finish _ _)|]);
    destruct (settle_poll _ _ _ _ _ _ Hr Hset) as (fuel' & s1 & page & w1 & Hfuel & Hp & Hset'); [done|].
  injection Hfuel as <-. rewrite (poll_exec_session c _ (po_session s)) by done.
  assert (Hself : exec_polled (exec_running prepared s) (po_session s) = s) by (by destruct s).
  rewrite Hself, Hp. by apply IH.
Qed.
Definition stdin_running (r : RunningWriteStdin) (s : Polled) : RunningWriteStdin :=
  {| wsr_prepared := wsr_prepared r; wsr_session := po_session s; wsr_collection := po_collection s;
     wsr_input_status := wsr_input_status r; wsr_exit := po_exit s |}.
Lemma wait_stdin_settles fuel c r (w : W) s' w' :
  validate_session (wsr_session r) = Ok tt → settle fuel c (stdin_polled r) w = (Ok s', w') →
  oc_ready (po_collection s') = true → session_running (po_session s') = false →
  wait_write_stdin self fuel c (r, w) = ((finish s' w').1, (stdin_running r s', (finish s' w').2)).
Proof.
  revert r w. induction fuel as [|fuel IH]; intros r w Hv Hset Hr' Hrun; cbn [wait_write_stdin];
    unfold mbind at 1, M_bind, running_now, stdin_ready;
    (destruct (oc_ready (wsr_collection r)) eqn:Hr;
      [rewrite settle_ready in Hset by done; injection Hset as <- <-; unfold outer, finish_write_stdin;
       cbn [stdin_polled po_session] in Hrun; rewrite Hrun, andb_false_r; destruct r; by destruct (finish _ _)|]);
    destruct (settle_poll _ _ (stdin_polled r) _ _ _ Hr Hset) as (fuel' & s1 & page & w1 & Hfuel & Hp & Hset'); [done|].
  injection Hfuel as <-. unfold mbind at 1, M_bind, outer, poll_write_stdin. rewrite Hv, lift_bind, (M_bind_ok _ _ _ _ _ Hp).
  unfold mbind at 1, M_bind, assign, mret, M_ret.
  match goal with |- wait_write_stdin _ _ _ (?r1, _) = _ => set (r1' := r1) end.
  rewrite (IH r1' w1); [done| |by destruct s1|done|done].
  unfold r1'. cbn [wsr_session]. rewrite (poll_session _ _ _ _ _ _ Hp). exact Hv.
Qed.
End sessions.

(** ** Intercepted patches *)

Section patches.
Context {W : Type} `{!World W, !ExecutionRuntime W, !ProcessRuntime W, !ExecClock W}.
Context {dbg : DebugPath} {grammar : BashGrammar} (self : UnifiedExecTool).

Definition with_patch (patch : RunningPatch) (collection : OutputCollection) (r : RunningExecCommand) : RunningExecCommand :=
  {| xr_prepared := xr_prepared r; xr_session := xr_session r; xr_patch := Some patch;
     xr_collection := collection; xr_exit := xr_exit r |}.
(** The collection of a patch that was applied. *)
Definition applied_collection (buffer : HeadTail.HeadTailBuffer) (now : N) (c : OutputCollection) : OutputCollection :=
  finish_collection now (set_collected buffer (oc_failure c) (oc_closed c) c).
Definition patch_result (r : RunningExecCommand) (o : ExecutionResult ApplyPatchOutput * (RunningPatch * W))
  : ExecutionResult UnifiedExecCallResult * (RunningExecCommand * W) :=
  match o with
  | (Ok output, (patch, w)) =>
    match HeadTail.push (oc_buffer (xr_collection r)) (utf8_encode (PatchApply.to_text output)) with
    | Ok buffer =>
      let collection := applied_collection buffer (now_ms w).1 (xr_collection r) in
      (Ok {| ur_output := patch_output collection; ur_session := None |},
       (with_patch patch collection r, (now_ms w).2))
    | Err e => (Err e, (with_patch patch (xr_collection r) r, w))
    | Panic => (Panic, (with_patch patch (xr_collection r) r, w))
    end
  | (Err e, (patch, w)) => (Err e, (with_patch patch (xr_collection r) r, w))
  | (Panic, (patch, w)) => (Panic, (with_patch patch (xr_collection r) r, w))
  end.

Lemma poll_patch c r patch invocation tool (w : W) budget all :
  validate_prepared (px_host_id (xr_prepared r)) (px_generation (xr_prepared r)) = Ok tt →
  xr_patch r = Some patch → px_patch (xr_prepared r) = Some invocation →
  ApplyPatchTool_new (in_cwd invocation) (px_patch_config (xr_prepared r)) = Ok tool →
  exec_ready r = false → HeadTail.describes budget all (oc_buffer (xr_collection r)) →
  (∀ output, ∃ buffer, HeadTail.push (E:=ExecutionError) (oc_buffer (xr_collection r)) (utf8_encode (PatchApply.to_text output)) = Ok buffer) ∧
  match PatchApply.step tool c patch w with
  | (Ok (Complete output, patch'), w') =>
    ∃ buffer, HeadTail.push (E:=ExecutionError) (oc_buffer (xr_collection r)) (utf8_encode (PatchApply.to_text output)) = Ok buffer ∧
      poll_exec_command self c r w =
        (Ok (with_patch patch' (applied_collection buffer (now_ms w').1 (xr_collection r)) r,
             {| up_events := []; up_ready := true |}), (now_ms w').2)
  | (Ok (CheckpointRequired, patch'), w') =>
    poll_exec_command self c r w =
      (Ok (with_patch patch' (xr_collection r) r, {| up_events := []; up_ready := false |}), w')
  | (Err e, w') => poll_exec_command self c r w = (Err e, w')
  | (Panic, w') => poll_exec_command self c r w = (Panic, w')
  end.
Proof.
  intros Hv Hp Hi Ht Hr Hb. unfold exec_ready in Hr.
  assert (Hpush : ∀ output, ∃ buffer, HeadTail.push (E:=ExecutionError) (oc_buffer (xr_collection r)) (utf8_encode (PatchApply.to_text output)) = Ok buffer).
  { intros output. destruct (HeadTail.push_describes (E:=ExecutionError) budget all _ (utf8_encode (PatchApply.to_text output)) Hb)
      as (b & Hpb & _). by exists b. }
  split; [done|]. unfold poll_exec_command. rewrite Hv, Hp, Hi. unfold expect, or_panic. rewrite !lift_bind, Ht, lift_bind.
  destruct (PatchApply.step tool c patch w) as [[[[|output] patch']|e|] w'] eqn:Hs.
  - rewrite (M_bind_ok _ _ _ _ _ Hs). unfold mbind, M_bind, mret, M_ret. by rewrite Hr.
  - destruct (Hpush output) as [b Hb']. exists b. split; [done|]. rewrite (M_bind_ok _ _ _ _ _ Hs), Hr, Hb'.
    unfold lift, nowM, mbind, M_bind. by destruct (now_ms w').
  - by rewrite (M_bind_err _ _ _ _ _ Hs).
  - unfold mbind at 1, M_bind. by rewrite Hs.
Qed.
(** Waiting for an intercepted patch is applying it. *)
Lemma wait_patch c fuel r patch invocation tool (w : W) budget all :
  validate_prepared (px_host_id (xr_prepared r)) (px_generation (xr_prepared r)) = Ok tt →
  xr_patch r = Some patch → px_patch (xr_prepared r) = Some invocation →
  ApplyPatchTool_new (in_cwd invocation) (px_patch_config (xr_prepared r)) = Ok tool →
  exec_ready r = false → HeadTail.describes budget all (oc_buffer (xr_collection r)) →
  wait_exec_command self fuel c (r, w) = patch_result r (apply_loop fuel tool c patch w).
Proof.
  revert r patch w. induction fuel as [|fuel IH]; intros r patch w Hv Hp Hi Ht Hr Hb; rewrite wait_unfold, Hr; cbn [apply_loop].
  { cbn [patch_result]. unfold with_patch. destruct r; cbn in *. by subst. }
  destruct (poll_patch c r patch invocation tool w budget all Hv Hp Hi Ht Hr Hb) as [_ Hpoll].
  assert (Hself : with_patch patch (xr_collection r) r = r) by (destruct r; cbn in *; by subst).
  destruct (PatchApply.step tool c patch w) as [[[[|output] patch']|e|] w']; [..|rewrite Hpoll; cbn [patch_result]; by rewrite Hself|
    rewrite Hpoll; cbn [patch_result]; by rewrite Hself].
  - rewrite Hpoll. rewrite (IH (with_patch patch' (xr_collection r) r) patch'); try done.
  - destruct Hpoll as (buffer & Hpush & ->). rewrite wait_unfold. cbn [patch_result]. by rewrite Hpush.
Qed.

(** C8. A patch that is intercepted is applied exactly as the patch tool applies it.
    Waiting for a command that was started as a patch runs the apply loop of the
    patch tool over the same steps, ends within the steps the patch has left, with
    the same effects on the host and the same error, if any; and its output is the
    window of the patch tool's own report, without a session. *)
Theorem intercepted_patch_is_applied (context context' : OperationContext) (prepared : PreparedExecCommand)
    (r : RunningExecCommand) (patch : RunningPatch) (w0 w1 : W) :
  start_exec_command context prepared w0 = (Ok r, w1) → xr_patch r = Some patch →
  ∃ invocation tool, px_patch prepared = Some invocation ∧
    ApplyPatchTool_new (in_cwd invocation) (px_patch_config prepared) = Ok tool ∧
    wait_exec_command self (steps_left patch) context' (r, w1) = patch_result r (PatchApply.apply tool context' patch w1) ∧
    ∀ output patch' w2, PatchApply.apply tool context' patch w1 = (Ok output, (patch', w2)) →
      ∃ buffer result, HeadTail.describes (px_max_output_bytes prepared) (utf8_encode (PatchApply.to_text output)) buffer ∧
        (wait_exec_command self (steps_left patch) context' (r, w1)).1 = Ok result ∧
        uo_output (ur_output result) = HeadTail.text buffer ∧ ur_session result = None.
Proof.
  unfold start_exec_command. intros H Hpatch. apply M_bind_ok_inv in H as (? & w2 & _ & H).
  apply M_bind_ok_inv in H as ([] & w3 & Hv & H). injection Hv as Hv _.
  apply M_bind_ok_inv in H as (? & w4 & _ & H). apply M_bind_ok_inv in H as (now & w5 & _ & H).
  destruct (px_patch prepared) as [invocation|] eqn:Hi.
  2: { apply M_bind_ok_inv in H as (handle & ? & _ & H). destruct (_ || _); [done|]. by injection H as <- _. }
  apply M_bind_ok_inv in H as (tool & w6 & Ht & H). injection Ht as Ht _.
  apply M_bind_ok_inv in H as (verified & w7 & _ & H). apply M_bind_ok_inv in H as (patch0 & w8 & _ & H).
  injection H as <- <-. injection Hpatch as ->. exists invocation, tool. split; [done|]. split; [done|].
  pose proof (HeadTail.new_describes (px_max_output_bytes prepared)) as Hnew.
  match goal with |- wait_exec_command _ _ _ (?r0, _) = _ ∧ _ => set (r := r0) end.
  assert (Hw : wait_exec_command self (steps_left patch) context' (r, w8)
    = patch_result r (PatchApply.apply tool context' patch w8)).
  { apply (wait_patch context' _ r patch invocation tool w8 (px_max_output_bytes prepared) []); done. }
  split; [done|]. intros output patch' w' Ha. rewrite Hw, Ha. cbn [patch_result].
  destruct (HeadTail.push_describes (E:=ExecutionError) _ [] (oc_buffer (xr_collection r)) (utf8_encode (PatchApply.to_text output)) Hnew)
    as (b & Hpush & Hdesc). rewrite Hpush. exists b. eexists. split; [exact Hdesc|]. split; [reflexivity|]. done.
Qed.
End patches.
