(* ===== verification/ExecOnManager.v ===== *)
(** The exec tools running on the supervisor's process manager: over a whole session
    of calls the model is told of everything the supervisor recorded, each part once, and
    waiting for an ended command ends. *)
From Stdlib Require Import ZifyBool.
From stdpp Require Import prelude gmap strings pretty list relations.
From S2P Require Import Prelude.
From S2P Require Import Text.
From S2P Require Import Core.
From S2P Require Import Host.
From S2P Require Import PathTool.
From S2P Require Import PatchApply.
From S2P Require Import ProcessCore.
From S2P Require Import ProcessLaunch.
From S2P Require Import Journal.
From S2P Require Import JournalGrowth.
From S2P Require Import ProcessStream.
From S2P Require Import Resolver.
From S2P Require Import NativeMemory.
From S2P Require Import SupervisorFs.
From S2P Require Import Supervisor.
From S2P Require Import ProcessManager.
From S2P Require Import ManagerTable.
From S2P Require Import ManagerClients.
From S2P Require Import ManagerStreams.
From S2P Require Import OutputBuffers.
From S2P Require Import ExecOutput.
From S2P Require Import ExecInvocation.
From S2P Require Import UnifiedExec.
From S2P Require Import ExecSessions.

(** The caller's clock beside the manager. *)
#[export] Instance manager_clock `{jcodec : JournalCodec} {V} `{!ExecClock V} : ExecClock (ProcessWorld V) := {
  now_ms := λ w, let '(t, v) := now_ms (pw_native w) in (t, with_native v w);
  pause_ms := λ ms w, with_native (pause_ms ms (pw_native w)) w;
  random_digit := λ w, let '(d, v) := random_digit (pw_native w) in (d, with_native v w);
}.

Section exec.
Context {V : Type} `{!World V, !NativeFs V, !ProcessHost V, !ExecClock V}.
Context {dbg : DebugStr} {dig : Digest} {shells : ShellHost} {dbgp : DebugPath} {grammar : BashGrammar}.
Context {jcodec : JournalCodec} {laws : JournalCodecLaws} {codec : ProcessCodec}.
(** The supervisor: one configuration, its descriptor and its process manager; and a
    filesystem, which a process command does not use. *)
Context (config : SupervisorConfig) (resolver : PathResolver) (generation : SupervisorGenerationId).
Context (os arch : str) (executions : npath) (files : FileSystem (ProcessWorld V)).
Definition exec_host : ExecutionHostDescriptor := supervisor_descriptor config resolver generation os arch.
Definition exec_manager : ProcessManager :=
  {| pm_resolver := resolver; pm_generation := generation; pm_executions_directory := executions;
     pm_limits := sc_limits config |}.
Abbreviation manager := exec_manager.
#[local] Instance exec_runtime : ExecutionRuntime (ProcessWorld V) :=
  {| rt_descriptor := exec_host; rt_filesystem := files |}.
#[local] Instance exec_processes : ProcessRuntime (ProcessWorld V) := manager_processes manager.

(** A session of the tool and the world around it. *)
Abbreviation session_state := (list UnifiedExecCallResult * Polled * ProcessWorld V)%type.
Inductive exec_used (tool : UnifiedExecTool) : session_state → session_state → Prop :=
  | exec_used_poll c done s w :
      exec_used tool (done, s, w) (done, after_poll s (poll tool c s w).1, (poll tool c s w).2)
  | exec_used_input input ids c done s w w1 result session prepared wp wp' w2 r w' :
      finish s w = (Ok result, w1) → ur_session result = Some session →
      prepare_write_stdin tool input session ids wp = (Ok prepared, wp') →
      rtc (mstep manager) w1 w2 → start_write_stdin c prepared w2 = (Ok r, w') →
      exec_used tool (done, s, w) (done ++ [result], stdin_polled r, w')
  | exec_used_step done s w w' : mstep manager w w' → exec_used tool (done, s, w) (done, s, w').

(** *** What the tool does to the world

    Its computations move the runtime only through calls of the manager and through
    the host. *)
Abbreviation msteps := (rtc (mstep manager)).
Definition moves {A} (m : M (ProcessWorld V) A) : Prop := ∀ w, msteps w (m w).2.
Lemma native_step n (w : ProcessWorld V) : mstep manager w (with_native n w).
Proof. exact (step_host _ w (pw_schedule w) n). Qed.
Lemma moves_ret {A} (a : A) : moves (mret a).
Proof. by intros w. Qed.
Lemma moves_lift {A} (r : ExecutionResult A) : moves (lift r).
Proof. by intros w. Qed.
Lemma moves_throw {A} e : moves (throw (A:=A) e).
Proof. by intros w. Qed.
Lemma moves_bind {A B} (m : M (ProcessWorld V) A) (f : A → M (ProcessWorld V) B) :
  moves m → (∀ a, moves (f a)) → moves (m ≫= f).
Proof.
  intros Hm Hf w. unfold mbind, M_bind. pose proof (Hm w) as H.
  destruct (m w) as [[a|e|] w1]; [|exact H..]. etrans; [exact H|apply Hf].
Qed.
Lemma moves_observe c : moves (checkpointM c).
Proof. intros w. unfold checkpointM. cbn. destruct (observe _ _) as [[b t] n]. apply rtc_once, native_step. Qed.
Lemma moves_now : moves nowM.
Proof. intros w. unfold nowM. cbn. destruct (now_ms (pw_native w)). apply rtc_once, native_step. Qed.
Lemma moves_pause ms : moves (pauseM ms).
Proof. intros w. apply rtc_once, native_step. Qed.
Lemma moves_read c q : moves (pr_read c q).
Proof. intros w. apply rtc_once, step_read. Qed.
Lemma moves_write c q : moves (pr_write c q).
Proof. intros w. apply rtc_once, step_write. Qed.
Lemma moves_signal c q : moves (pr_signal c q).
Proof. intros w. apply rtc_once, step_signal. Qed.
Lemma moves_start c q : moves (pr_start c q).
Proof. intros w. apply rtc_once, step_start. Qed.
Lemma moves_attempt {A} (m : M (ProcessWorld V) A) : moves m → moves (attempt m).
Proof. intros Hm w. unfold attempt. pose proof (Hm w) as H. by destruct (m w) as [[]]. Qed.
#[local] Hint Resolve moves_ret moves_lift moves_throw moves_observe moves_now moves_pause moves_read
  moves_write moves_signal moves_start moves_attempt : moves.
Ltac moves := repeat first [solve [auto with moves] | simple apply moves_bind; [|intros ?] | case_match].

Lemma moves_take_reply session collection reply : moves (take_reply session collection reply).
Proof. unfold take_reply. moves. Qed.
#[local] Hint Resolve moves_take_reply : moves.
Lemma moves_poll tool c s : moves (poll tool c s).
Proof. unfold poll. moves. Qed.
Lemma moves_start_input c prepared : moves (start_write_stdin c prepared).
Proof. unfold start_write_stdin, dispatch_action. moves. Qed.
Lemma moves_finish s : moves (finish s).
Proof. unfold finish, collection_output. moves. Qed.

(** *** The promises of the manager *)

Section runs.
Context (Hlimit : (sl_max_concurrent_processes (sc_limits config) ≤ u32_max)%N).
Context (Hencodes : encodes) (Happends : appends_succeed V).
Abbreviation recorded := (manager_records manager).

Lemma records_native id n (w : ProcessWorld V) v : recorded id w v → recorded id (with_native n w) v.
Proof. intros [Hinv Hs]. split; [|exact Hs]. by apply (mstep_inv manager Hlimit _ _ (native_step n w)). Qed.
#[local] Instance manager_clock_keeps (quiet : OperationContext → V → Prop) id
    (Hclock : ∀ c v, quiet c v → quiet c (now_ms v).2) :
  ClockKeeps (recorded id) (manager_calm id quiet).
Proof.
  split.
  - intros w v Hv. cbn. destruct (now_ms (pw_native w)). by apply records_native.
  - intros ms w v Hv. by apply records_native.
  - intros w v Hv. cbn. destruct (random_digit (pw_native w)). by apply records_native.
  - intros c w [Hq Hr]. pose proof (Hclock _ _ Hq) as Hq'. cbn. by destruct (now_ms (pw_native w)).
Qed.
#[local] Instance manager_clock_within : ClockWithin (W := ProcessWorld V) journals_fit.
Proof.
  split.
  - intros w H. cbn in H. by destruct (now_ms (pw_native w)).
  - by intros ms w.
  - intros c w H loc s Hs. apply (H loc). by destruct (same_observe c w) as [-> _].
Qed.

Lemma moved_inv w w' : msteps w w' → manager_inv manager w → manager_inv manager w'.
Proof. intros Hs Hinv. by apply (later_inv manager Hlimit _ _ Hs). Qed.
Lemma moved_fit w w' : msteps w w' → manager_inv manager w → journals_fit w' → journals_fit w.
Proof.
  intros Hs Hinv. destruct (later_inv manager Hlimit _ _ Hs Hinv) as [_ Hg].
  by apply (fit_before manager Hencodes Happends).
Qed.
Lemma moved_records id w w' v :
  msteps w w' → journals_fit w' → recorded id w v → ∃ v', recorded id w' v' ∧ grows v v'.
Proof.
  intros Hs Hfit Hv. destruct (later_inv manager Hlimit _ _ Hs (proj1 Hv)) as [Hinv' Hg].
  apply (records_step manager id Hencodes Happends w w'); [done|apply Hg|done|done].
Qed.

(** The history as the interface of the tool's theorems sees it. *)
Lemma exec_used_steps tool s s' : exec_used tool s s' → msteps s.2 s'.2.
Proof.
  intros [c done s0 w|input ids c done s0 w w1 result session prepared wp wp' w2 r w' Hf _ _ Hw Hst|done s0 w w' Hw];
    cbn [snd]; [apply moves_poll| |by apply rtc_once].
  pose proof (moves_finish s0 w) as H1. rewrite Hf in H1. pose proof (moves_start_input c prepared w2) as H2.
  rewrite Hst in H2. etrans; [exact H1|]. etrans; [exact Hw|exact H2].
Qed.
Lemma exec_used_converses tool id s s' :
  rtc (exec_used tool) s s' → manager_inv manager s.2 → journals_fit s'.2 →
  journals_fit s.2 ∧ rtc (converses tool journals_fit (recorded id)) s s'.
Proof.
  intros Hr. induction Hr as [s|s1 s2 s3 H12 _ IH]; intros Hinv Hfit; [by split|].
  pose proof (exec_used_steps _ _ _ H12) as Hsteps.
  destruct (IH (moved_inv _ _ Hsteps Hinv) Hfit) as [Hfit2 Hp].
  split; [by eapply moved_fit|]. eapply rtc_l; [|exact Hp].
  destruct H12 as [c done s w|input ids c done s w w1 result session prepared wp wp' w2 r w' Hf Hses Hprep Hw Hst
    |done s w w' Hstep]; cbn [fst snd] in *.
  - by constructor.
  - pose proof (moves_finish s w) as H1. rewrite Hf in H1. pose proof (moves_start_input c prepared w2) as H2.
    rewrite Hst in H2. cbn [snd] in H1, H2.
    pose proof (moved_inv _ _ H1 Hinv) as Hinv1. pose proof (moved_inv _ _ Hw Hinv1) as Hinv2.
    pose proof (moved_fit _ _ H2 Hinv2 Hfit2) as Hfit'.
    eapply conv_input; [done..|]. intros v Hv. by apply (moved_records id w1 w2).
  - apply conv_world. intros v Hv. by apply (moved_records id w w'); [apply rtc_once|..].
Qed.

(** A start by the tool. *)
Lemma exec_tool_pages cwd cfg tool :
  new_exec_tool cwd cfg = Ok tool → in_u64 (uc_read_bytes cfg) →
  ux_config tool = cfg ∧ (0 < read_limit tool ≤ N.min (sl_max_process_read_bytes (sc_limits config)) u64_max)%N.
Proof.
  unfold new_exec_tool. intros H Hu. destruct (validate_cwd _ _) as [u|e|]; [|done..]. cbn in H.
  destruct (validated _) as [u'|e|]; [|done..]. cbn in H. destruct (N.eqb_spec (uc_read_bytes cfg) 0).
  { rewrite !orb_true_r in H. done. }
  case_bool_decide as Hm; [by rewrite !orb_true_r in H|]. case_bool_decide as Hn; [by rewrite !orb_true_r in H|].
  destruct (_ || _ || _); [done|]. injection H as <-. split; [done|].
  unfold read_limit, in_u64 in *. cbn in *.
  assert (sl_max_process_read_bytes (sc_limits config) ≠ 0%N) by congruence. lia.
Qed.
Lemma exec_prepared tool input ids (wp : ProcessWorld V) prepared wp' :
  prepare_exec_command tool input ids wp = (Ok prepared, wp') →
  se_execution_id (px_request prepared) = xd_execution_id ids ∧ px_generation prepared = generation ∧
  px_host_id prepared = host_id exec_host ∧ px_max_output_bytes prepared = uc_max_output_bytes (ux_config tool) ∧
  (0 < px_session_id prepared)%Z.
Proof.
  unfold prepare_exec_command. intros H. apply M_bind_ok_inv in H as ([] & w1 & Hok & H). injection Hok as Hok _.
  apply M_bind_ok_inv in H as (? & w2 & _ & H). apply M_bind_ok_inv in H as (? & w3 & _ & H). cbv zeta in H.
  apply M_bind_ok_inv in H as (? & w4 & _ & H). apply M_bind_ok_inv in H as (? & w5 & _ & H).
  apply M_bind_ok_inv in H as (? & w6 & _ & H). injection H as <- _. split_and!; try done.
  unfold check_exec in Hok. destruct (Z.leb_spec (xd_session_id ids) 0); [done|]. done.
Qed.
Lemma exec_start_records c prepared w0 r0 w1 session :
  manager_inv manager w0 → start_exec_command c prepared w0 = (Ok r0, w1) → xr_session r0 = Some session →
  manager_inv manager w1 ∧ (journals_fit w1 → ∃ v, recorded (se_execution_id (px_request prepared)) w1 v).
Proof.
  intros Hinv H Hses. unfold start_exec_command in H. apply M_bind_ok_inv in H as ([] & wa & Hc & H).
  apply M_bind_ok_inv in H as (u & wb & Hu & H). injection Hu as _ <-.
  apply M_bind_ok_inv in H as (u' & wb & Hu & H). injection Hu as _ <-.
  apply M_bind_ok_inv in H as (now & wb & Hn & H). destruct (px_patch prepared) as [invocation|].
  { apply M_bind_ok_inv in H as (? & ? & _ & H). apply M_bind_ok_inv in H as (? & ? & _ & H).
    apply M_bind_ok_inv in H as (? & ? & _ & H). by injection H as <- _. }
  apply M_bind_ok_inv in H as (handle & wc & Hst & H). destruct (_ || _); [done|]. injection H as _ <-.
  pose proof (moves_observe c w0) as H1. rewrite Hc in H1. pose proof (moves_now wa) as H2. rewrite Hn in H2.
  cbn [snd] in H1, H2. pose proof (moved_inv _ _ H2 (moved_inv _ _ H1 Hinv)) as Hinvb.
  pose proof (moves_start c (px_request prepared) wb) as H3. rewrite Hst in H3. cbn [snd] in H3.
  split; [by eapply moved_inv|]. intros Hfit. cbn [pr_start exec_processes manager_processes] in Hst.
  by apply (start_records manager _ Hlimit Hencodes Happends c _ wb handle wc Hinvb Hst eq_refl).
Qed.

(** Sessions of the tool stay valid. *)
Lemma exec_used_valid tool s s' :
  rtc (exec_used tool) s s' → validate_session (W := ProcessWorld V) (po_session s.1.2) = Ok tt →
  validate_session (W := ProcessWorld V) (po_session s'.1.2) = Ok tt.
Proof.
  induction 1 as [s|s1 s2 s3 H12 _ IH]; [done|]. intros Hv. apply IH.
  destruct H12 as [c ended s w|input ids c ended s w w1 result session prepared wp wp' w2 r w' Hf Hses Hprep _ Hst|];
    cbn [fst snd] in *; [| |done].
  - destruct (poll tool c s w) as [[[s' page]|e|] w'] eqn:Hp; cbn [after_poll fst]; [|done..].
    by rewrite (poll_session _ _ _ _ _ _ _ Hp).
  - unfold start_write_stdin in Hst. apply M_bind_ok_inv in Hst as (? & ? & _ & Hst).
    apply M_bind_ok_inv in Hst as ([] & ? & Hok & Hst). injection Hok as Hok _.
    apply M_bind_ok_inv in Hst as (? & ? & _ & Hst). apply M_bind_ok_inv in Hst as (? & ? & _ & Hst).
    apply M_bind_ok_inv in Hst as (? & ? & _ & Hst). by injection Hst as <- _.
Qed.
(** A started command along its history. *)
Lemma exec_history cwd cfg tool input ids prepared c r0 s0 ended s wp wp' w0 w1 (w : ProcessWorld V) :
  in_u64 (uc_read_bytes cfg) → new_exec_tool cwd cfg = Ok tool →
  prepare_exec_command tool input ids wp = (Ok prepared, wp') → reachable manager w0 →
  start_exec_command c prepared w0 = (Ok r0, w1) → xr_session r0 = Some s0 →
  rtc (exec_used tool) ([], exec_polled r0 s0, w1) (ended, s, w) → journals_fit w →
  ∃ v, recorded (xd_execution_id ids) w v ∧
    handed_out generation (xd_execution_id ids) v (uc_max_output_bytes (ux_config tool)) ended s.
Proof.
  intros Hu Htool Hprep Hreach Hstart Hses Hused Hfit.
  destruct (exec_tool_pages _ _ _ Htool Hu) as [_ Hpage].
  destruct (exec_prepared _ _ _ _ _ _ Hprep) as (Hid & Hgen & _ & Hmax & _).
  pose proof (reachable_inv manager Hlimit _ Hreach) as Hinv0.
  destruct (exec_start_records c prepared w0 r0 w1 s0 Hinv0 Hstart Hses) as [Hinv1 Hrec]. rewrite Hid in Hrec.
  destruct (exec_used_converses tool (xd_execution_id ids) _ _ Hused Hinv1 Hfit) as [Hfit1 Hconv].
  destruct (Hrec Hfit1) as [v0 Hv0].
  destruct (started_session tool generation (xd_execution_id ids) c prepared w0 r0 w1 s0 v0 Hstart Hses Hid Hgen Hmax)
    as [Hh0 _].
  assert (Hquiet : QuietHost (V:=V) (λ _ _, False)) by (by split).
  pose proof (manager_pages manager (xd_execution_id ids) Hlimit Hencodes Happends (λ _ _, False)) as Hpages.
  pose proof (manager_clock_keeps (λ _ _, False) (xd_execution_id ids) ltac:(done)) as Hkeeps.
  destruct (history_hands tool generation (xd_execution_id ids) _ journals_fit (recorded (xd_execution_id ids)) _
    _ _ v0 ltac:(lia) Hconv Hv0 Hh0) as (v & Hv & _ & Hh). by exists v.
Qed.

(** C6. Nothing is lost between the calls of a session.  A command prepared by the
    tool and started on a reachable supervisor is polled, its calls end, input is
    sent to it by later calls, and other clients and the supervisor's tasks do
    anything in between: the results of the calls tell, one after the other, of
    consecutive parts of exactly the output the supervisor recorded up to the
    session's cursor, each part the window of the budget.  When a result has no
    session any more, the parts are all the output of the execution, its output is
    closed, and the result has its exit code. *)
Theorem exec_session_complete (cwd : ExecutionPath) (cfg : UnifiedExecConfig) (tool : UnifiedExecTool)
    (input : ExecCommandInput) (ids : ExecCommandIds) (prepared : PreparedExecCommand) (c : OperationContext)
    (r0 : RunningExecCommand) (s0 : ExecSession) (ended : list UnifiedExecCallResult) (s : Polled)
    (result : UnifiedExecCallResult) (wp wp' w0 w1 w w' : ProcessWorld V) :
  in_u64 (uc_read_bytes cfg) → new_exec_tool cwd cfg = Ok tool →
  prepare_exec_command tool input ids wp = (Ok prepared, wp') → reachable manager w0 →
  start_exec_command c prepared w0 = (Ok r0, w1) → xr_session r0 = Some s0 →
  rtc (exec_used tool) ([], exec_polled r0 s0, w1) (ended, s, w) → journals_fit w →
  finish s w = (Ok result, w') →
  ∃ loc process l parts, pw_arena w !! loc = Some process ∧ id_of process = xd_execution_id ids ∧
    journal_repr (ps_journal process) l ∧
    let recorded := (log_units l).*2 in
    concat parts = output_of (take (N.to_nat (xs_cursor (po_session s))) recorded) ∧
    Forall2 (told (uc_max_output_bytes cfg)) parts (ended ++ [result]) ∧
    (ur_session result = None →
      concat parts = output_of recorded ∧ closed_units recorded = true ∧
      uo_exit_code (ur_output result) = exit_code (js (ps_journal process))).
Proof.
  intros Hu Htool Hprep Hreach Hstart Hses Hused Hfit Hfin.
  destruct (exec_history cwd cfg tool input ids prepared c r0 s0 ended s wp wp' w0 w1 w
    Hu Htool Hprep Hreach Hstart Hses Hused Hfit) as (v & Hv & Hh).
  destruct (exec_tool_pages _ _ _ Htool Hu) as [Hcfg _].
  destruct (call_told tool generation _ w v ended s result w' Hh Hfin) as (parts & Hcat & Htold). rewrite Hcfg in Htold.
  assert (Hquiet : QuietHost (V:=V) (λ _ _, False)) by (by split).
  pose proof (manager_pages manager (xd_execution_id ids) Hlimit Hencodes Happends (λ _ _, False)) as Hpages.
  pose proof (call_whole tool generation _ _ journals_fit _ _ w v ended s result w' Hv Hh Hfin) as Hend.
  destruct Hv as [_ (loc & process & Hs & [Hids _ (l & Hrep & Hlc & ->)])].
  exists loc, process, l, parts. cbv zeta. split_and!; [done|done|done|exact Hcat|exact Htold|].
  intros Hnone. destruct (Hend Hnone) as (Hall & Hcl & Hx). rewrite <-view_exit in Hx by done.
  split; [|by split]. by rewrite Hcat, Hall.
Qed.
Lemma exec_started_valid c prepared (w0 : ProcessWorld V) r0 w1 s0 :
  start_exec_command c prepared w0 = (Ok r0, w1) → xr_session r0 = Some s0 → (0 < px_session_id prepared)%Z →
  validate_session (W := ProcessWorld V) s0 = Ok tt.
Proof.
  unfold start_exec_command. intros H Hses Hpos. apply M_bind_ok_inv in H as (? & ? & _ & H).
  apply M_bind_ok_inv in H as ([] & ? & Hv & H). injection Hv as Hv _.
  apply M_bind_ok_inv in H as (? & ? & _ & H). apply M_bind_ok_inv in H as (now & ? & _ & H).
  destruct (px_patch prepared) as [invocation|].
  { apply M_bind_ok_inv in H as (? & ? & _ & H). apply M_bind_ok_inv in H as (? & ? & _ & H).
    apply M_bind_ok_inv in H as (? & ? & _ & H). by injection H as <- _. }
  apply M_bind_ok_inv in H as (handle & ? & _ & H). destruct (_ || _) eqn:Ho; [done|]. injection H as <- _.
  injection Hses as <-. apply orb_false_iff in Ho as [_ Hg]. apply negb_false_iff, bool_decide_eq_true in Hg.
  unfold validate_session. cbn [opened_session xs_schema_version xs_session_id xs_host_id xs_handle].
  rewrite N.eqb_refl, (proj2 (Z.leb_gt _ _)) by done. cbn [negb orb]. by rewrite Hg.
Qed.

(** C7. Waiting for a session's call ends.  After any such history, once the
    execution's journal is closed, if its session is still in the manager's table, and
    while the host is quiet (the caller neither cancels nor runs out of time, and the
    log can be opened), a call that has not ended is waited for with at most one more
    poll than the journal has units, whether it is the one that started the command or
    one that sent it input; the result ends the session, has the recorded exit code,
    and with the results before it tells all that the journal recorded. *)
Theorem exec_wait_completes (quiet : OperationContext → V → Prop) `{!QuietHost quiet}
    (cwd : ExecutionPath) (cfg : UnifiedExecConfig) (tool : UnifiedExecTool)
    (input : ExecCommandInput) (ids : ExecCommandIds) (prepared : PreparedExecCommand) (c c' : OperationContext)
    (r0 : RunningExecCommand) (s0 : ExecSession) (ended : list UnifiedExecCallResult) (s : Polled)
    (wp wp' w0 w1 w : ProcessWorld V) (loc : nat) (process : ProcessSession) :
  (∀ c v, quiet c v → quiet c (now_ms v).2) →
  in_u64 (uc_read_bytes cfg) → new_exec_tool cwd cfg = Ok tool →
  prepare_exec_command tool input ids wp = (Ok prepared, wp') → reachable manager w0 →
  start_exec_command c prepared w0 = (Ok r0, w1) → xr_session r0 = Some s0 →
  rtc (exec_used tool) ([], exec_polled r0 s0, w1) (ended, s, w) → journals_fit w →
  pw_sessions w !! xd_execution_id ids = Some loc → pw_arena w !! loc = Some process →
  closed (js (ps_journal process)) = true → quiet c' (pw_native w) → oc_ready (po_collection s) = false →
  let fuel := N.to_nat (next_sequence (js (ps_journal process))) in
  ∃ l parts result, journal_repr (ps_journal process) l ∧ fuel = S (length (log_units l)) ∧
    concat parts = output_of (log_units l).*2 ∧
    Forall2 (told (uc_max_output_bytes cfg)) parts (ended ++ [result]) ∧
    ur_session result = None ∧ uo_exit_code (ur_output result) = exit_code (js (ps_journal process)) ∧
    (wait_exec_command tool fuel c' (exec_running prepared s, w)).1 = Ok result ∧
    (∀ r, stdin_polled r = s → (wait_write_stdin tool fuel c' (r, w)).1 = Ok result).
Proof.
  intros Hclock Hu Htool Hprep Hreach Hstart Hses Hused Hfit Hin Hs Hclosed Hq Hopen fuel.
  destruct (exec_history cwd cfg tool input ids prepared c r0 s0 ended s wp wp' w0 w1 w
    Hu Htool Hprep Hreach Hstart Hses Hused Hfit) as (v & Hv & Hh).
  destruct (exec_tool_pages _ _ _ Htool Hu) as [Hcfg Hpage].
  destruct (exec_prepared _ _ _ _ _ _ Hprep) as (Hid & Hgen & Hhost & _ & Hpos).
  pose proof (exec_started_valid _ _ _ _ _ _ Hstart Hses Hpos) as Hvalid.
  apply (exec_used_valid tool _ _ Hused) in Hvalid. cbn [fst snd] in Hvalid.
  pose proof (manager_pages manager (xd_execution_id ids) Hlimit Hencodes Happends quiet) as Hpages.
  pose proof (manager_clock_keeps quiet (xd_execution_id ids) Hclock) as Hkeeps.
  pose proof Hv as [Hinv (loc' & process' & Hs' & [Hids Hsp (l & Hrep & Hlc & Hview)])].
  assert (loc = loc') as <-.
  { destruct (to_sessions _ _ _ (proj1 Hinv) _ _ Hin) as (x & Hx & Hidx). assert (x = process) as -> by congruence.
    pose proof (proj2 Hinv _ _ _ Hin Hs) as Hspw. eapply (to_distinct _ _ _ (proj1 Hinv)); [done..|congruence]. }
  assert (process = process') as <- by congruence. subst v.
  assert (Hcalm : manager_calm (xd_execution_id ids) quiet c' w).
  { split; [done|]. split; [done|]. by exists loc, process. }
  assert (Hfuel : length (sv_units (view_of (ps_journal process) l)) + 1 ≤ fuel + N.to_nat (xs_cursor (po_session s))).
  { pose proof (fuel_units (ps_journal process) l Hrep) as Hlen. cbn [view_of sv_units]. rewrite length_fmap. unfold fuel. lia. }
  destruct (settled_tells tool generation (xd_execution_id ids) _ journals_fit (recorded (xd_execution_id ids)) _
    c' _ ended fuel s w Hpage Hcalm Hv (view_end _ _ Hlc Hclosed) Hh Hopen Hfuel)
    as (s' & w' & result & w2 & parts & Hset & Hfin & Hready & Hrun & Hnone & Hexit & Hcat & Htold).
  rewrite Hcfg in Htold. rewrite <-view_exit in Hexit by done. exists l, parts, result.
  split_and!; try done; [by apply fuel_units| |].
  - rewrite (wait_exec_settles tool fuel c' prepared s w s' w') by done. by rewrite Hfin.
  - intros r <-. rewrite (wait_stdin_settles tool fuel c' r w s' w') by done. by rewrite Hfin.
Qed.
End runs.
End exec.
