(* ===== verification/BashTool.v ===== *)
(** The shell tool [platform/packages/tools/bash-minimal] ([lib.rs], [shell.rs],
    [output.rs]): preparing a command, starting or recovering it, polling its
    events into a bounded tail, waiting, and terminating.

    The tool needs the host's descriptor and its process runtime.  A function
    that takes [&mut RunningBash] is a computation over the running command and
    the world.  Whoever keeps the promises of [ProcessStream.ReadsStream] can be
    polled without losing output, to the end. *)
From Stdlib Require Import ZifyBool.
From stdpp Require Import prelude gmap strings pretty list.
From S2P Require Import Prelude.
From S2P Require Import Text.
From S2P Require Import Core.
From S2P Require Import Host.
From S2P Require Import PathTool.
From S2P Require Import ProcessCore.
From S2P Require Import Journal.
From S2P Require Import ProcessStream.
From S2P Require Import OutputBuffers.

(** ** Data *)

Definition DEFAULT_TIMEOUT_MS : N := 120000.
Definition MAX_TIMEOUT_MS : N := 1800000.

Record BashInput := { bi_command : str; bi_timeout : option N; bi_workdir : option str }.
Record BashConfig := {
  bc_shell : option str;
  bc_login : bool;
  bc_environment : EnvironmentVariables;
  bc_max_output_bytes : nat;
  bc_max_output_lines : nat;
  bc_read_bytes : N;
}.
Definition BashConfig_default : BashConfig :=
  {| bc_shell := None; bc_login := false;
     bc_environment := {| env_mode := EnvInherit; env_set := ∅; env_remove := ∅ |};
     bc_max_output_bytes := N.to_nat (50 * 1024); bc_max_output_lines := N.to_nat 2000;
     bc_read_bytes := 64 * 1024 |}.
Record BashIds := {
  bid_operation : OperationId;
  bid_execution : ExecutionId;
  bid_terminate : OperationId;
}.
Record PreparedBash := {
  pb_host_id : ExecutionHostId;
  pb_generation : SupervisorGenerationId;
  pb_request : StartExecutionRequest;
  pb_terminate_operation_id : OperationId;
  pb_max_output_bytes : nat;
  pb_max_output_lines : nat;
}.
Record RunningBash := {
  rb_prepared : PreparedBash;
  rb_handle : ExecutionHandle;
  rb_cursor : N;
  rb_tail : TailBuffer.Tail;
  rb_exit_code : option Z;
  rb_failure : option str;
  rb_complete : bool;
}.
Record BashOutput := {
  bo_host_id : ExecutionHostId;
  bo_handle : ExecutionHandle;
  bo_cwd : ExecutionPath;
  bo_output : str;
  bo_truncated : bool;
  bo_output_bytes : N;
  bo_exit_code : option Z;
  bo_failure : option str;
  bo_complete : bool;
}.
Record BashPoll := { bp_events : list ProcessEvent; bp_complete : bool }.

Definition error (c : ExecutionErrorCode) (m : str) : ExecutionError :=
  with_detail (str! "source") (VString (str! "tool-bash-minimal")) (ExecutionError_new c m).
Definition terminal (state : ExecutionState) : bool :=
  match state with Starting | Running => false | _ => true end.

(** [shell::command]. *)
Definition command (os : OperatingSystem) (config : BashConfig) (text : str) : CommandSpec :=
  if decide (os = Windows ∧ bc_shell config = None) then
    Argv (str! "powershell.exe")
      [str! "-NoLogo"; str! "-NoProfile"; str! "-NonInteractive"; str! "-Command"; text]
  else Shell text (bc_shell config) (bc_login config).

(** *** What the model is shown *)

Definition output (running : RunningBash) : BashOutput :=
  {| bo_host_id := pb_host_id (rb_prepared running); bo_handle := rb_handle running;
     bo_cwd := se_cwd (pb_request (rb_prepared running));
     bo_output := TailBuffer.text (rb_tail running);
     bo_truncated := TailBuffer.truncated (rb_tail running);
     bo_output_bytes := TailBuffer.total_bytes (rb_tail running);
     bo_exit_code := rb_exit_code running; bo_failure := rb_failure running;
     bo_complete := rb_complete running |}.
Definition is_error (o : BashOutput) : bool :=
  bo_complete o && (negb (bool_decide (eh_state (bo_handle o) = Exited))
                    || negb (bool_decide (bo_exit_code o = Some 0%Z))).
(** The [Debug] output of the state. *)
Definition show_state (s : ExecutionState) : str :=
  match s with
  | Starting => str! "Starting" | Running => str! "Running" | Exited => str! "Exited"
  | Failed => str! "Failed" | StateCancelled => str! "Cancelled" | Lost => str! "Lost"
  end.
Definition show_bool (b : bool) : str := if b then str! "true" else str! "false".
Definition to_text (o : BashOutput) : str :=
  let text := bo_output o in
  let text := if negb (str_is_empty text) && negb (ends_with [NL] text) then text ++ [NL] else text in
  let text :=
    if bo_truncated o
    then text ++ str! "[Output truncated to the retained tail; earlier output is not included.]" ++ [NL]
    else text in
  let text := text ++ format! [str! "[State: "; show_state (eh_state (bo_handle o)); str! "; exit code: ";
    match bo_exit_code o with Some code => show_i32 code | None => str! "unavailable" end;
    str! "; complete: "; show_bool (bo_complete o); str! "]"] in
  match bo_failure o with
  | Some failure => text ++ format! [[NL]; str! "[Execution failed: "; failure; str! "]"]
  | None => text
  end.

(** ** The tool *)

(** A fresh token and the instant, for [OperationContext::with_timeout]; the JSON of
    an error, [serde_json::to_value]. *)
Class Tokens (W : Type) := fresh_token : W → (N * N) * W.
Class ErrorJson := error_json : ExecutionError → Value.

Record BashTool := { bt_cwd : ExecutionPath; bt_config : BashConfig }.

Section tool.
Context {W : Type} `{!World W, !ProcessRuntime W, !Tokens W} {json : ErrorJson}.
Context (host : ExecutionHostDescriptor).

(** [BashTool::new]. *)
Definition new_tool (cwd : ExecutionPath) (config : BashConfig) : ExecutionResult BashTool :=
  _ ← validate_cwd host cwd;
  _ ← validated (validate (bc_environment config));
  if (bc_max_output_bytes config =? 0) || (bc_max_output_lines config =? 0)
     || (bc_read_bytes config =? 0)%N
     || bool_decide (max_process_read_bytes (limits host) = Some 0%N)
  then Err (error InvalidRequest (str! "output and read limits must be positive"))
  else Ok {| bt_cwd := cwd; bt_config := config |}.

Context (self : BashTool).

Definition prepare (input : BashInput) (ids : BashIds) : ExecutionResult PreparedBash :=
  if str_is_empty (trim (bi_command input)) then
    Err (error InvalidRequest (str! "command must be nonempty"))
  else
    let timeout := default DEFAULT_TIMEOUT_MS (bi_timeout input) in
    if (timeout =? 0)%N || (MAX_TIMEOUT_MS <? timeout)%N then
      Err (error InvalidRequest (str! "timeout must be between 1 and 1800000 milliseconds"))
    else if decide (bid_operation ids = bid_terminate ids) then
      Err (error InvalidRequest (str! "start and terminate require different operation IDs"))
    else
      cwd ← match bi_workdir input with
            | Some path => resolve_path host (bt_cwd self) path
            | None => Ok (bt_cwd self)
            end;
      let request :=
        {| se_expected_generation := Some (supervisor_generation_id host);
           se_output_drain_timeout_ms := None;
           se_operation_id := bid_operation ids; se_execution_id := bid_execution ids;
           se_command := command (operating_system host) (bt_config self) (bi_command input);
           se_cwd := cwd; se_environment := bc_environment (bt_config self);
           se_stdin := StdinClosedMode; se_timeout_ms := Some timeout |} in
      _ ← validated (validate request);
      Ok {| pb_host_id := host_id host; pb_generation := supervisor_generation_id host;
            pb_request := request; pb_terminate_operation_id := bid_terminate ids;
            pb_max_output_bytes := bc_max_output_bytes (bt_config self);
            pb_max_output_lines := bc_max_output_lines (bt_config self) |}.

Definition validate_host (prepared : PreparedBash) : ExecutionResult unit :=
  if decide (pb_host_id prepared = host_id host) then Ok tt
  else Err (error InvalidRequest (str! "execution belongs to another host")).
Definition other_execution (prepared : PreparedBash) (handle : ExecutionHandle) : bool :=
  negb (bool_decide (eh_execution_id handle = se_execution_id (pb_request prepared)))
  || negb (bool_decide (eh_generation handle = pb_generation prepared)).

Definition recover (prepared : PreparedBash) (handle : ExecutionHandle) : ExecutionResult RunningBash :=
  _ ← validate_host prepared;
  if other_execution prepared handle then
    Err (error InvalidRequest (str! "execution identity does not match prepared command"))
  else
    Ok {| rb_prepared := prepared; rb_handle := handle; rb_cursor := 0;
          rb_tail := TailBuffer.new (pb_max_output_bytes prepared) (pb_max_output_lines prepared);
          rb_exit_code := None; rb_failure := None; rb_complete := false |}.

Definition start (context : OperationContext) (prepared : PreparedBash) : M W RunningBash :=
  _ ← checkpointM context;
  _ ← lift (validate_host prepared);
  if negb (bool_decide (pb_generation prepared = supervisor_generation_id host)) then
    throw (error ExecutionLost
      (str! "supervisor generation changed; reconcile the old execution before starting again"))
  else
    _ ← lift (validated (validate (pb_request prepared)));
    handle ← pr_start context (pb_request prepared);
    if other_execution prepared handle then
      throw (error Internal (str! "start returned another execution ID; command outcome is uncertain"))
    else lift (recover prepared handle).

(** *** Polling *)

(** A computation over the running command. *)
Abbreviation MR := (M (RunningBash * W)).

(** The validation of a page: sequences increase; the cursor they reach. *)
Definition advance (cursor : N) (events : list ProcessEvent) : ExecutionResult N :=
  advance_events (error Internal (str! "process events did not advance in sequence")) cursor events.
Fixpoint consume (tail : TailBuffer.Tail) (failure : option str) (events : list ProcessEvent)
  : ExecutionResult (TailBuffer.Tail * option str) :=
  match events with
  | [] => Ok (tail, failure)
  | e :: events =>
    match event e with
    | EvOutput _ data => tail ← TailBuffer.push tail data; consume tail failure events
    | EvFailed message => consume tail (Some message) events
    | _ => consume tail failure events
    end
  end.
Definition page_bytes : N :=
  N.min (bc_read_bytes (bt_config self)) (default u64_max (max_process_read_bytes (limits host))).

(** [poll] from the reply on: the page is validated before anything is changed. *)
Definition take_page (running : RunningBash) (reply : ReadExecutionResult) : MR BashPoll :=
  cursor ← lift (advance (rb_cursor running) (rx_events reply));
  if negb (rx_next_sequence reply =? cursor)%N then
    throw (error Internal (str! "process cursor does not match returned events"))
  else
    '(tail, failure) ← lift (consume (rb_tail running) (rb_failure running) (rx_events reply));
    let handle := rb_handle running in
    let complete := terminal (rx_state reply)
      && (bool_decide (rx_events reply = []) || existsb is_closed_event (rx_events reply)) in
    _ ← assign {| rb_prepared := rb_prepared running;
                  rb_handle := {| eh_execution_id := eh_execution_id handle;
                                  eh_generation := eh_generation handle;
                                  eh_state := rx_state reply; eh_started_at := eh_started_at handle |};
                  rb_cursor := cursor; rb_tail := tail; rb_exit_code := rx_exit_code reply;
                  rb_failure := failure; rb_complete := complete |};
    mret {| bp_events := rx_events reply; bp_complete := complete |}.
Definition poll (context : OperationContext) : MR BashPoll :=
  running ← running_now;
  _ ← lift (validate_host (rb_prepared running));
  if rb_complete running then mret {| bp_events := []; bp_complete := true |}
  else
    _ ← outer (checkpointM context);
    reply ← outer (pr_read context
      {| re_execution_id := eh_execution_id (rb_handle running);
         re_generation := eh_generation (rb_handle running);
         re_after_sequence := rb_cursor running; re_max_bytes := page_bytes;
         re_wait_ms := Some 1000%N |});
    take_page running reply.

(** *** Terminating and waiting *)

Definition terminate (context : OperationContext) (running : RunningBash) : M W TerminateExecutionResult :=
  _ ← lift (validate_host (rb_prepared running));
  pr_terminate context
    {| te_operation_id := pb_terminate_operation_id (rb_prepared running);
       te_execution_id := eh_execution_id (rb_handle running);
       te_generation := eh_generation (rb_handle running) |}.
(** [OperationContext::with_timeout]. *)
Definition context_with_timeout (timeout : N) : M W OperationContext := λ w,
  let '((token, now), w) := fresh_token w in (Ok (with_timeout token now timeout), w).

(** The error of a poll, after the clean-up a dead context asks for. *)
Definition abandon (context : OperationContext) (failure : ExecutionError) : MR BashOutput :=
  alive ← outer (attempt (checkpointM context));
  match alive with
  | inr _ => throw failure
  | inl _ =>
    cleanup ← outer (context_with_timeout 5000000000);
    running ← running_now;
    stopped ← outer (attempt (terminate cleanup running));
    match stopped with
    | inr _ => throw failure
    | inl stop_error => throw (with_detail (str! "termination_error") (error_json stop_error) failure)
    end
  end.
(** The loop has no bound of its own; [fuel] counts the polls. *)
Fixpoint wait (fuel : nat) (context : OperationContext) : MR BashOutput :=
  match fuel with
  | 0 => λ s, (Panic, s)
  | S fuel =>
    page ← attempt (poll context);
    match page with
    | inl failure => abandon context failure
    | inr page =>
      if bp_complete page then running ← running_now; mret (output running)
      else wait fuel context
    end
  end.
End tool.

(** ** Polling a stream *)

Lemma consume_ok mb ml all t fs evs :
  TailBuffer.holds mb ml all t →
  ∃ t', consume t (last fs) evs = Ok (t', last (fs ++ failures_of (payload evs))) ∧
    TailBuffer.holds mb ml (all ++ output_of (payload evs)) t'.
Proof.
  revert all t fs. induction evs as [|e evs IH]; intros all t fs Ht; cbn [consume].
  { exists t. by rewrite !app_nil_r. }
  rewrite payload_cons, output_of_app, failures_of_app, output_of_event, failures_of_event.
  destruct (event e) as [|s data|code|m|]; rewrite ?app_nil_l; [by apply IH| |by apply IH| |by apply IH].
  - destruct (TailBuffer.push_holds (E:=ExecutionError) mb ml all t data Ht) as (t1 & -> & Ht1).
    step_result. rewrite (assoc_L (++)). by apply IH.
  - replace (Some m) with (last (fs ++ [m])) by by rewrite last_snoc.
    rewrite (assoc_L (++)). by apply IH.
Qed.

Section polled.
Context {W : Type} `{!World W, !ProcessRuntime W, !Tokens W} {json : ErrorJson}.
Context (host : ExecutionHostDescriptor) (self : BashTool).
Context (generation : SupervisorGenerationId) (id : ExecutionId) (max : N).
Context (within : W → Prop) (shows : W → StreamView → Prop) (calm : OperationContext → W → Prop).
Context `{!ReadsStream generation id max within shows calm}.

(** A running command follows a stream: it has taken the units up to its cursor,
    each once, and it is complete only at the end of a stream that has ended. *)
Record follows (v : StreamView) (r : RunningBash) : Prop := {
  fo_host : pb_host_id (rb_prepared r) = host_id host;
  fo_id : eh_execution_id (rb_handle r) = id;
  fo_generation : eh_generation (rb_handle r) = generation;
  fo_cursor : (rb_cursor r ≤ N.of_nat (length (sv_units v)))%N;
  fo_tail : TailBuffer.holds (pb_max_output_bytes (rb_prepared r)) (pb_max_output_lines (rb_prepared r))
              (output_of (take (N.to_nat (rb_cursor r)) (sv_units v))) (rb_tail r);
  fo_failure : rb_failure r = last (failures_of (take (N.to_nat (rb_cursor r)) (sv_units v)));
  fo_complete : rb_complete r = true →
    is_terminal (sv_state v) = true ∧ rb_cursor r = N.of_nat (length (sv_units v)) ∧
    eh_state (rb_handle r) = sv_state v ∧ rb_exit_code r = sv_exit v;
}.
Lemma follows_later v v' r : later v v' → follows v r → follows v' r.
Proof.
  intros [[more Hm] Ht] [Hh Hi Hg Hc Hta Hf Hco].
  assert (Htake : take (N.to_nat (rb_cursor r)) (sv_units v') = take (N.to_nat (rb_cursor r)) (sv_units v))
    by (rewrite Hm; apply take_app_le; lia).
  split; rewrite ?Htake; try done.
  - rewrite Hm, length_app. lia.
  - intros H. destruct (Hco H) as (Hterm & Hrest). by rewrite (Ht Hterm).
Qed.
Lemma terminal_spec st : terminal st = is_terminal st.
Proof. by destruct st. Qed.

Lemma take_page_ok v r reply (w : W) :
  follows v r → stream_page v (rb_cursor r) reply →
  (∀ us u more, sv_units v = us ++ u :: more → is_close_unit u = true → more = []) →
  ∃ r', take_page r reply (r, w)
        = (Ok {| bp_events := rx_events reply; bp_complete := rb_complete r' |}, (r', w)) ∧
    follows v r' ∧ rb_prepared r' = rb_prepared r ∧
    (is_terminal (sv_state v) = true → rb_complete r' = true ∨ (rb_cursor r < rb_cursor r')%N).
Proof.
  intros [Hh Hi Hg Hc Hta Hf Hco] Hpage Hlast. pose proof (page_take _ _ _ Hpage) as Htake.
  destruct Hpage as [Hu Hn Hcur Has Hsome Hst Hex]. unfold take_page.
  unfold advance; rewrite (advance_ascending _ _ _ Has), <-Hn, lift_bind, N.eqb_refl. cbn [negb].
  rewrite Hf. destruct (consume_ok _ _ _ _ (failures_of (take (N.to_nat (rb_cursor r)) (sv_units v)))
    (rx_events reply) Hta) as (t' & -> & Ht'). rewrite lift_bind.
  rewrite <-output_of_app, <-Htake in Ht'. rewrite <-failures_of_app, <-Htake.
  match goal with |- context [assign ?x] => exists x end. split; [done|].
  cbn [rb_complete rb_prepared rb_cursor]. split; [|split; [done|]].
  - split; cbn [rb_prepared rb_handle rb_cursor rb_tail rb_failure rb_complete rb_exit_code
                eh_execution_id eh_generation eh_state]; try done; [lia|].
    rewrite andb_true_iff, orb_true_iff, terminal_spec, Hst. intros [Hterm Hend]. split_and!; [done| |done|done].
    destruct Hend as [Hnil|Hclosed].
    + apply bool_decide_eq_true in Hnil. pose proof (Hsome Hnil) as Hd. apply (f_equal length) in Hd.
      rewrite length_drop in Hd. simpl in Hd. lia.
    + destruct (close_in_payload _ Hclosed) as (a & u & b & Hp & Hu').
      assert (Hsplit : sv_units v = (take (N.to_nat (rb_cursor r)) (sv_units v) ++ a)
        ++ u :: (b ++ drop (N.to_nat (rx_next_sequence reply)) (sv_units v))).
      { rewrite <-(take_drop (N.to_nat (rb_cursor r)) (sv_units v)) at 1. rewrite Hu, Hp.
        by rewrite <-!(assoc_L (++)). }
      pose proof (Hlast _ _ _ Hsplit Hu') as Hnil. apply app_nil in Hnil as [_ Hd].
      apply (f_equal length) in Hd. rewrite length_drop in Hd. simpl in Hd. lia.
  - intros Hterm. rewrite terminal_spec, Hst, Hterm. cbn [andb].
    destruct (rx_events reply) as [|e evs] eqn:He; [by left|]. right.
    assert (rx_next_sequence reply ≠ rb_cursor r); [|lia]. intros Heq. rewrite Heq in Hu.
    apply (f_equal length) in Hu. rewrite length_app, payload_cons, length_app, length_fmap in Hu.
    pose proof (units_of_nonempty e) as Hne. destruct (units_of e); [done|]. simpl in Hu. lia.
Qed.

(** The request of a poll. *)
Definition poll_request (r : RunningBash) : ReadExecutionRequest :=
  {| re_execution_id := eh_execution_id (rb_handle r); re_generation := eh_generation (rb_handle r);
     re_after_sequence := rb_cursor r; re_max_bytes := page_bytes host self; re_wait_ms := Some 1000%N |}.
Lemma poll_unfold c r (w : W) :
  pb_host_id (rb_prepared r) = host_id host →
  poll host self c (r, w) =
    if rb_complete r then (Ok {| bp_events := []; bp_complete := true |}, (r, w))
    else
      match checkpointM c w with
      | (Ok _, w1) =>
        match pr_read c (poll_request r) w1 with
        | (Ok reply, w2) => take_page r reply (r, w2)
        | (Err e, w2) => (Err e, (r, w2))
        | (Panic, w2) => (Panic, (r, w2))
        end
      | (Err e, w1) => (Err e, (r, w1))
      | (Panic, w1) => (Panic, (r, w1))
      end.
Proof.
  intros Hh. unfold poll, mbind, M_bind, running_now, outer, lift, validate_host.
  rewrite decide_True by done. destruct (rb_complete r); [done|].
  destruct (checkpointM c w) as [[]]; try done. fold (poll_request r). by destruct (pr_read c (poll_request r) _) as [[]].
Qed.
Lemma poll_stream c r (w : W) v :
  shows w v → follows v r → (0 < page_bytes host self ≤ u64_max)%N →
  within (poll host self c (r, w)).2.2 →
  ∃ v', shows (poll host self c (r, w)).2.2 v' ∧ later v v' ∧ follows v' (poll host self c (r, w)).2.1 ∧
    rb_prepared (poll host self c (r, w)).2.1 = rb_prepared r ∧
    (is_ok (poll host self c (r, w)).1 = false → (poll host self c (r, w)).2.1 = r).
Proof.
  intros Hs Hf Hb Hin. rewrite poll_unfold in * by apply Hf.
  destruct (rb_complete r) eqn:Hc; [by exists v|].
  pose proof (observe_shows (ReadsStream := ReadsStream0) c w v Hs) as Hs1.
  destruct (checkpointM c w) as [[u|e|] w1]; cbn [snd] in Hs1; [|by exists v..].
  destruct (read_shows (ReadsStream := ReadsStream0) c (poll_request r) w1 v Hs1) as (v' & Hs2 & Hl & Hpage).
  { by destruct (pr_read c (poll_request r) w1) as [[reply|e|] w2];
      [unfold take_page, mbind, M_bind, lift in Hin; repeat case_match; simplify_eq/=|..]. }
  { apply Hf. }
  pose proof (follows_later _ _ _ Hl Hf) as Hf'.
  destruct (pr_read c (poll_request r) w1) as [[reply|e|] w2]; cbn [fst snd] in *; [|by exists v'..].
  destruct (take_page_ok v' r reply w2 Hf' (Hpage reply Hb eq_refl)) as (r' & -> & Hr' & Hp & _).
  { intros us u' more. by apply (close_last (ReadsStream := ReadsStream0) w2). }
  by exists v'.
Qed.

(** The history of a running command: polls, whatever their outcome, and anything
    else that happens to the world, of which the stream only grows. *)
Inductive polled : RunningBash * W → RunningBash * W → Prop :=
  | polled_poll c r w : within (poll host self c (r, w)).2.2 → polled (r, w) (poll host self c (r, w)).2
  | polled_world r w w' :
      (∀ v, shows w v → ∃ v', shows w' v' ∧ later v v') → polled (r, w) (r, w').
Lemma polled_follows v s s' :
  (0 < page_bytes host self ≤ u64_max)%N → rtc polled s s' → shows s.2 v → follows v s.1 →
  ∃ v', shows s'.2 v' ∧ later v v' ∧ follows v' s'.1 ∧ rb_prepared s'.1 = rb_prepared s.1.
Proof.
  intros Hb Hr. revert v. induction Hr as [s|s1 s2 s3 H12 _ IH]; intros v Hs Hf; [by exists v|].
  assert (∃ v2, shows s2.2 v2 ∧ later v v2 ∧ follows v2 s2.1 ∧ rb_prepared s2.1 = rb_prepared s1.1)
    as (v2 & Hs2 & Hl2 & Hf2 & Hp2).
  { destruct H12 as [c r w Hin|r w w' Hw].
    - destruct (poll_stream c r w v Hs Hf Hb Hin) as (v2 & ? & ? & ? & ? & _). by exists v2.
    - destruct (Hw v Hs) as (v2 & ? & Hl). exists v2. split; [done|]. split; [done|].
      split; [|done]. by eapply follows_later. }
  destruct (IH v2 Hs2 Hf2) as (v3 & ? & ? & ? & ?). exists v3. split; [done|].
  split; [by etrans|]. split; [done|congruence].
Qed.
Lemma recover_follows v prepared handle r :
  eh_execution_id handle = id → eh_generation handle = generation →
  recover host prepared handle = Ok r → follows v r ∧ rb_prepared r = prepared.
Proof.
  intros Hi Hg. unfold recover, validate_host. case_decide; [|done]. step_result.
  destruct (other_execution prepared handle); [done|]. intros [= <-].
  split; [|done]. split; cbn [rb_prepared rb_handle rb_cursor rb_tail rb_failure rb_complete]; try done.
  - apply N.le_0_l.
  - change (N.to_nat 0) with 0. rewrite take_0. apply TailBuffer.new_holds.
Qed.

(** No output is lost, repeated or reordered on its way to the model.  A command
    recovered from a handle, after any history of polls - failed, cancelled or
    successful - and whatever else the world does meanwhile, holds the last
    lines of exactly the output its cursor has passed; and once it is marked
    complete the stream has ended, and what it holds, its failure, its state and
    its exit code are those of the whole stream. *)
Lemma output_never_lost (prepared : PreparedBash) (handle : ExecutionHandle) (r0 r : RunningBash)
    (w0 w : W) (v0 : StreamView) :
  (0 < page_bytes host self ≤ u64_max)%N →
  eh_execution_id handle = id → eh_generation handle = generation →
  recover host prepared handle = Ok r0 → shows w0 v0 → rtc polled (r0, w0) (r, w) →
  ∃ v, shows w v ∧ later v0 v ∧
    TailBuffer.bytes_ (rb_tail r) = TailBuffer.window (pb_max_output_bytes prepared)
      (pb_max_output_lines prepared) (output_of (take (N.to_nat (rb_cursor r)) (sv_units v))) ∧
    (rb_complete r = true →
      is_terminal (sv_state v) = true ∧
      bo_exit_code (output r) = sv_exit v ∧ eh_state (bo_handle (output r)) = sv_state v ∧
      bo_failure (output r) = last (failures_of (sv_units v)) ∧
      bo_output_bytes (output r) = N.min (N.of_nat (length (output_of (sv_units v)))) u64_max ∧
      TailBuffer.bytes_ (rb_tail r) = TailBuffer.window (pb_max_output_bytes prepared)
        (pb_max_output_lines prepared) (output_of (sv_units v)) ∧
      rb_cursor r = N.of_nat (length (sv_units v))).
Proof.
  intros Hb Hi Hg Hr Hs Hp. destruct (recover_follows v0 _ _ _ Hi Hg Hr) as [Hf0 Hp0].
  destruct (polled_follows v0 _ _ Hb Hp Hs Hf0) as (v & Hsv & Hl & Hf & Hpr). cbn [fst snd] in *.
  exists v. split; [done|]. split; [done|]. rewrite <-Hp0, <-Hpr.
  pose proof (fo_tail _ _ Hf) as (_ & _ & Hw & _ & Ht & _). split; [done|].
  intros Hc. destruct (fo_complete _ _ Hf Hc) as (Hterm & Hcur & Hst & Hex).
  pose proof (fo_failure _ _ Hf) as Hfail. rewrite Hcur, Nat2N.id, firstn_all in Hw, Ht, Hfail.
  done.
Qed.

(** The polls of [wait] on a stream that has ended. *)
Lemma wait_settled c v :
  (0 < page_bytes host self ≤ N.min max u64_max)%N → is_terminal (sv_state v) = true →
  ∀ fuel r (w : W), calm c w → shows w v → follows v r →
    length (sv_units v) + 1 ≤ fuel + N.to_nat (rb_cursor r) →
    ∃ r' w', wait host self fuel c (r, w) = (Ok (output r'), (r', w')) ∧ follows v r' ∧
      rb_complete r' = true ∧ rb_prepared r' = rb_prepared r.
Proof.
  intros Hb Hterm. induction fuel as [|fuel IH]; intros r w Hcalm Hs Hf Hfuel.
  { pose proof (fo_cursor _ _ Hf). lia. }
  cbn [wait]. unfold mbind at 1, M_bind, attempt. rewrite poll_unfold by apply Hf.
  destruct (rb_complete r) eqn:Hcomp; [by exists r, w|].
  destruct (calm_observes (ReadsStream := ReadsStream0) c w Hcalm) as [Hok Hcalm1].
  pose proof (observe_shows (ReadsStream := ReadsStream0) c w v Hs) as Hs1.
  destruct (checkpointM c w) as [out w1]. cbn [fst snd] in *. subst out.
  destruct (calm_reads (ReadsStream := ReadsStream0) c (poll_request r) w1 v) as (Hin & (reply & Hreply) & Hcalm2);
    [done|done|done|apply Hf|apply Hf|cbn; lia|done|apply Hf|].
  destruct (read_shows (ReadsStream := ReadsStream0) c (poll_request r) w1 v Hs1 Hin) as (v' & Hs2 & [_ Hsame] & Hpage);
    [apply Hf|]. rewrite (Hsame Hterm) in *.
  destruct (pr_read c (poll_request r) w1) as [out w2]. cbn [fst snd] in *. subst out.
  destruct (take_page_ok v r reply w2 Hf (Hpage reply ltac:(cbn; lia) eq_refl)) as (r1 & Htake & Hf1 & Hp1 & Hmove).
  { intros us u' more. by apply (close_last (ReadsStream := ReadsStream0) w2). }
  rewrite Htake. cbn [bp_complete]. destruct (rb_complete r1) eqn:Hc1; [by exists r1, w2|].
  destruct (Hmove Hterm) as [|Hlt]; [done|].
  destruct (IH r1 w2 Hcalm2 Hs2 Hf1 ltac:(lia)) as (r' & w' & -> & Hf' & Hc' & Hp').
  exists r', w'. by rewrite Hp'.
Qed.

(** Waiting ends.  Once the execution has ended, and while its host answers and the
    caller neither cancels nor runs out of time, waiting from any point of the
    stream makes no more polls than there are units left, plus one, and returns
    the output of the whole stream: its window as the text, its byte count, and
    the final state and exit code. *)
Lemma wait_completes (c : OperationContext) (v : StreamView) (fuel : nat) (r : RunningBash) (w : W) :
  (0 < page_bytes host self ≤ N.min max u64_max)%N → is_terminal (sv_state v) = true →
  calm c w → shows w v → follows v r →
  length (drop (N.to_nat (rb_cursor r)) (sv_units v)) + 1 ≤ fuel →
  ∃ o r' w', wait host self fuel c (r, w) = (Ok o, (r', w')) ∧
    TailBuffer.bytes_ (rb_tail r') = TailBuffer.window (pb_max_output_bytes (rb_prepared r))
      (pb_max_output_lines (rb_prepared r)) (output_of (sv_units v)) ∧
    bo_output o = TailBuffer.text (rb_tail r') ∧ bo_complete o = true ∧
    eh_state (bo_handle o) = sv_state v ∧ bo_exit_code o = sv_exit v ∧
    bo_failure o = last (failures_of (sv_units v)) ∧
    (is_error o = false ↔ sv_state v = Exited ∧ sv_exit v = Some 0%Z).
Proof.
  intros Hb Hterm Hcalm Hs Hf Hfuel. pose proof (fo_cursor _ _ Hf) as Hcur. rewrite length_drop in Hfuel.
  destruct (wait_settled c v Hb Hterm fuel r w Hcalm Hs Hf ltac:(lia)) as (r' & w' & Hw & Hf' & Hc' & Hp').
  exists (output r'), r', w'. split; [done|]. destruct (fo_complete _ _ Hf' Hc') as (_ & Hend & Hst & Hex).
  pose proof (fo_tail _ _ Hf') as (_ & _ & Hwin & _). pose proof (fo_failure _ _ Hf') as Hfail.
  rewrite Hend, Nat2N.id, firstn_all in Hwin, Hfail. rewrite <-Hp'. split_and!; try done.
  unfold is_error. cbn [output bo_complete bo_handle bo_exit_code]. rewrite Hc', Hst, Hex. cbn [andb].
  rewrite orb_false_iff, !negb_false_iff, !bool_decide_eq_true. done.
Qed.
End polled.
