(* ===== verification/ShellOnManager.v ===== *)
(** The shell tool running on the supervisor's process manager: what the model is
    shown of a command is the window of everything the supervisor recorded of it,
    through any interleaving with other clients and the manager's tasks, and
    waiting for a command that has ended ends. *)
From Stdlib Require Import ZifyBool.
From stdpp Require Import prelude gmap strings pretty list relations.
From S2P Require Import Prelude.
From S2P Require Import Text.
From S2P Require Import Core.
From S2P Require Import Host.
From S2P Require Import PathTool.
From S2P Require Import ProcessCore.
From S2P Require Import ProcessLaunch.
From S2P Require Import Journal.
From S2P Require Import JournalGrowth.
From S2P Require Import ProcessStream.
From S2P Require Import Resolver.
From S2P Require Import NativeMemory.
From S2P Require Import SupervisorFs.
From S2P Require Import Supervisor.
From S2P Require Import ProcessManager.
From S2P Require Import ManagerTable.
From S2P Require Import ManagerClients.
From S2P Require Import ManagerStreams.
From S2P Require Import OutputBuffers.
From S2P Require Import BashTool.

Section shell.
Context {V : Type} `{!World V, !NativeFs V, !ProcessHost V, !Tokens (ProcessWorld V)}.
Context {dbg : DebugStr} {dig : Digest} {shells : ShellHost} {json : ErrorJson}.
Context {jcodec : JournalCodec} {laws : JournalCodecLaws} {codec : ProcessCodec}.
(** The supervisor: one configuration, its descriptor and its process manager. *)
Context (config : SupervisorConfig) (resolver : PathResolver) (generation : SupervisorGenerationId).
Context (os arch : str) (executions : npath).
Definition shell_host : ExecutionHostDescriptor := supervisor_descriptor config resolver generation os arch.
Definition shell_manager : ProcessManager :=
  {| pm_resolver := resolver; pm_generation := generation; pm_executions_directory := executions;
     pm_limits := sc_limits config |}.
Abbreviation host := shell_host.
Abbreviation manager := shell_manager.
#[local] Instance manager_runtime : ProcessRuntime (ProcessWorld V) := manager_processes manager.

(** A running command and the world around it: the tool polls it, and the runtime
    goes on. *)
Inductive used (tool : BashTool) : RunningBash * ProcessWorld V → RunningBash * ProcessWorld V → Prop :=
  | used_poll c r w : used tool (r, w) (poll host tool c (r, w)).2
  | used_step r w w' : mstep manager w w' → used tool (r, w) (r, w').

(** What a poll does to the world. *)
Lemma take_page_world (r : RunningBash) reply (s : RunningBash * ProcessWorld V) :
  (take_page r reply s).2.2 = s.2.
Proof.
  destruct s as [r0 w]. unfold take_page, mbind, M_bind, lift, assign, mret, M_ret, throw, lift.
  destruct (advance _ _); [|done..]. destruct (negb _); [done|].
  by destruct (consume _ _ _) as [[]| |].
Qed.
Lemma poll_world (tool : BashTool) c r (w : ProcessWorld V) :
  (poll host tool c (r, w)).2.2 = w ∨
  (poll host tool c (r, w)).2.2 = (checkpointM c w).2 ∨
  ∃ q, (poll host tool c (r, w)).2.2 = (read manager c q (checkpointM c w).2).2.
Proof.
  destruct (decide (pb_host_id (rb_prepared r) = host_id host)) as [Hh|Hh].
  - rewrite poll_unfold by done. destruct (rb_complete r); [by left|].
    destruct (checkpointM c w) as [[u|e|] w1]; [|by right; left..]. right; right.
    exists (poll_request host tool r). cbn [snd]. cbn [pr_read manager_runtime manager_processes].
    destruct (read manager c _ w1) as [[reply|e|] w2]; [apply take_page_world|done..].
  - left. unfold poll, mbind, M_bind, running_now, lift, validate_host. by rewrite decide_False.
Qed.

Section runs.
Context (Hlimit : (sl_max_concurrent_processes (sc_limits config) ≤ u32_max)%N).

Lemma observe_grown c (w : ProcessWorld V) : grown w (checkpointM c w).2.
Proof.
  destruct (same_observe c w) as [Ha _]. split; rewrite ?Ha; [done| |].
  - intros loc s Hs. by exists s.
  - unfold checkpointM. cbn. by destruct (observe _ _) as [[b t] n].
Qed.
Lemma used_grown tool s s' :
  used tool s s' → manager_inv manager s.2 → manager_inv manager s'.2 ∧ grown s.2 s'.2.
Proof.
  intros Hs Hinv. destruct Hs as [c r w|r w w' Hstep]; cbn [snd fst] in *.
  - pose proof (observe_inv manager c w Hinv) as Hinv1. pose proof (observe_grown c w) as Hg1.
    destruct (poll_world tool c r w) as [->|[->|[q ->]]]; [done..|].
    destruct (mstep_inv manager Hlimit _ _ (step_read manager _ c q) Hinv1) as [? ?]. split; [done|by etrans].
  - by apply (mstep_inv manager Hlimit).
Qed.

Context (Hencodes : encodes) (Happends : appends_succeed V).
Abbreviation shown := (manager_shows manager).
(** The history as the tool's interface sees it. *)
Lemma used_polled tool id s s' :
  rtc (used tool) s s' → manager_inv manager s.2 → journals_fit s'.2 →
  journals_fit s.2 ∧ rtc (polled host tool journals_fit (shown id)) s s'.
Proof.
  intros Hr. induction Hr as [s|s1 s2 s3 H12 _ IH]; intros Hinv Hfit; [by split|].
  destruct (used_grown _ _ _ H12 Hinv) as [Hinv2 Hg]. destruct (IH Hinv2 Hfit) as [Hfit2 Hp].
  split; [by eapply (fit_before manager Hencodes Happends)|]. eapply rtc_l; [|exact Hp].
  destruct H12 as [c r w|r w w' Hstep]; [by constructor|]. apply polled_world. intros v Hv.
  by apply (shows_step manager id Hencodes Happends w w' v Hinv2 (gr_session _ _ Hg)).
Qed.

(** A start by the tool. *)
Lemma bash_start_world c prepared (w0 : ProcessWorld V) :
  (BashTool.start host c prepared w0).2 = w0 ∨
  (BashTool.start host c prepared w0).2 = (checkpointM c w0).2 ∨
  ∃ q, (BashTool.start host c prepared w0).2 = (ProcessManager.start manager c q (checkpointM c w0).2).2.
Proof.
  unfold BashTool.start, mbind, M_bind, lift, throw, lift.
  destruct (checkpointM c w0) as [[u|e|] w1]; [|by right; left..]. cbn [snd].
  destruct (validate_host _ _); [|by right; left..]. destruct (negb _); [by right; left|].
  destruct (validated _); [|by right; left..]. right; right. exists (pb_request prepared).
  cbn [pr_start manager_runtime manager_processes].
  destruct (ProcessManager.start manager c (pb_request prepared) w1) as [[h|e|] w2]; [|done..]. by destruct (other_execution _ _).
Qed.
Lemma bash_start_shows c prepared w0 r0 w1 :
  manager_inv manager w0 → BashTool.start host c prepared w0 = (Ok r0, w1) →
  se_output_drain_timeout_ms (pb_request prepared) = None → journals_fit w1 →
  ∃ handle v, eh_execution_id handle = se_execution_id (pb_request prepared) ∧
    eh_generation handle = generation ∧ recover host prepared handle = Ok r0 ∧
    manager_inv manager w1 ∧ shown (se_execution_id (pb_request prepared)) w1 v.
Proof.
  intros Hinv H Hd Hfit. unfold BashTool.start in H. apply M_bind_ok_inv in H as ([] & wa & Hc & H).
  apply M_bind_ok_inv in H as (u & wb & Hu & H). injection Hu as _ <-.
  destruct (negb _) eqn:Hgen; [done|]. apply negb_false_iff, bool_decide_eq_true in Hgen.
  apply M_bind_ok_inv in H as (u' & wb & Hu' & H). injection Hu' as _ <-.
  apply M_bind_ok_inv in H as (handle & wb & Hst & H).
  destruct (other_execution prepared handle) eqn:Ho; [done|]. injection H as Hrec <-.
  unfold other_execution in Ho. apply orb_false_iff in Ho as [Hid Hge].
  apply negb_false_iff, bool_decide_eq_true in Hid, Hge.
  pose proof (observe_inv manager c w0 Hinv) as Hinva. rewrite Hc in Hinva. cbn [snd] in Hinva.
  cbn [pr_start manager_runtime manager_processes] in Hst.
  destruct (start_shows manager (se_execution_id (pb_request prepared)) Hlimit Hencodes Happends c _ wa handle wb
    Hinva Hst eq_refl Hd Hfit) as [v Hv].
  exists handle, v. split_and!; [done| |done|apply Hv|done]. rewrite Hge, Hgen. done.
Qed.

Lemma tool_pages cwd bash tool :
  new_tool host cwd bash = Ok tool → in_u64 (bc_read_bytes bash) →
  bt_config tool = bash ∧
  (0 < page_bytes host tool ≤ N.min (sl_max_process_read_bytes (sc_limits config)) u64_max)%N.
Proof.
  unfold new_tool. intros H Hu. destruct (validate_cwd _ _) as [u|e|]; [|done..]. cbn in H.
  destruct (validated _) as [u'|e|]; [|done..]. cbn in H.
  destruct (bc_max_output_bytes bash =? 0), (bc_max_output_lines bash =? 0), (N.eqb_spec (bc_read_bytes bash) 0);
    try done. cbn in H. case_bool_decide as Hm; [done|]. injection H as <-. split; [done|].
  unfold page_bytes, in_u64 in *. cbn in *.
  assert (sl_max_process_read_bytes (sc_limits config) ≠ 0%N) by congruence. lia.
Qed.
Lemma prepare_request tool input ids prepared :
  prepare host tool input ids = Ok prepared →
  se_output_drain_timeout_ms (pb_request prepared) = None ∧
  se_execution_id (pb_request prepared) = bid_execution ids ∧
  pb_max_output_bytes prepared = bc_max_output_bytes (bt_config tool) ∧
  pb_max_output_lines prepared = bc_max_output_lines (bt_config tool).
Proof.
  unfold prepare. intros H. destruct (str_is_empty _); [done|]. cbv zeta in H. destruct (_ || _); [done|].
  destruct (decide _); [done|]. destruct (bi_workdir input) as [p|].
  - destruct (resolve_path _ _ _) as [cwd|e|]; [|done..]. cbn in H.
    destruct (validated _) as [u|e|]; [|done..]. by injection H as <-.
  - cbn in H. destruct (validated _) as [u|e|]; [|done..]. by injection H as <-.
Qed.

(** A started command along its history: it follows the stream of its execution. *)
Lemma started_history tool c prepared r0 w0 w1 (s : RunningBash * ProcessWorld V) :
  reachable manager w0 → BashTool.start host c prepared w0 = (Ok r0, w1) →
  se_output_drain_timeout_ms (pb_request prepared) = None → rtc (used tool) (r0, w1) s → journals_fit s.2 →
  (0 < page_bytes host tool ≤ u64_max)%N →
  let id := se_execution_id (pb_request prepared) in
  ∃ handle v0 v, eh_execution_id handle = id ∧ eh_generation handle = generation ∧
    recover host prepared handle = Ok r0 ∧ shown id w1 v0 ∧
    rtc (polled host tool journals_fit (shown id)) (r0, w1) s ∧
    rb_prepared s.1 = prepared ∧ shown id s.2 v ∧ follows host generation id v s.1.
Proof.
  intros Hreach Hstart Hd Hused Hfit Hpage id.
  pose proof (reachable_inv manager Hlimit _ Hreach) as Hinv0.
  assert (Hinv1 : manager_inv manager w1).
  { pose proof (bash_start_world c prepared w0) as Hw. rewrite Hstart in Hw. cbn [snd] in Hw.
    destruct Hw as [->|[->|[q ->]]]; [done|by apply observe_inv|].
    by apply (mstep_inv manager Hlimit _ _ (step_start manager (checkpointM c w0).2 c q)), observe_inv. }
  destruct (used_polled tool id _ _ Hused Hinv1 Hfit) as [Hfit1 Hpolled].
  destruct (bash_start_shows c prepared w0 r0 w1 Hinv0 Hstart Hd Hfit1) as (handle & v0 & Hh & Hg & Hrec & _ & Hv0).
  assert (Hquiet : QuietHost (V:=V) (λ _ _, False)) by (by split).
  pose proof (manager_streams manager id Hlimit Hencodes Happends (λ _ _, False)) as Hstreams.
  destruct (recover_follows host generation id v0 _ _ _ Hh Hg Hrec) as [Hf0 Hp0].
  destruct (polled_follows host tool generation id (sl_max_process_read_bytes (sc_limits config)) journals_fit
    (shown id) (manager_calm id (λ _ _, False)) v0 _ _ Hpage Hpolled Hv0 Hf0) as (v & Hv & _ & Hf & Hpr).
  exists handle, v0, v. split_and!; try done. by rewrite Hpr.
Qed.

(** C4. What the model is shown is what the supervisor recorded.  A command prepared by the
    tool and started on a reachable supervisor, after any history of polls, of
    calls by other clients and of background tasks, holds the last lines of
    exactly the output recorded up to its cursor; once it is marked complete, the
    execution's readers and its process have ended, and it holds the last lines
    of all that was recorded, its exit code and its state. *)
Theorem shell_output_complete (cwd : ExecutionPath) (bash : BashConfig) (tool : BashTool) (input : BashInput)
    (ids : BashIds) (prepared : PreparedBash) (c : OperationContext) (r0 r : RunningBash)
    (w0 w1 w : ProcessWorld V) :
  in_u64 (bc_read_bytes bash) → new_tool host cwd bash = Ok tool →
  prepare host tool input ids = Ok prepared → reachable manager w0 →
  BashTool.start host c prepared w0 = (Ok r0, w1) → rtc (used tool) (r0, w1) (r, w) → journals_fit w →
  ∃ loc s l, pw_arena w !! loc = Some s ∧ id_of s = bid_execution ids ∧ journal_repr (ps_journal s) l ∧
    let recorded := (log_units l).*2 in
    TailBuffer.bytes_ (rb_tail r) = TailBuffer.window (bc_max_output_bytes bash) (bc_max_output_lines bash)
      (output_of (take (N.to_nat (rb_cursor r)) recorded)) ∧
    (rb_complete r = true →
      session_done s ∧ rb_cursor r = N.of_nat (length recorded) ∧
      TailBuffer.bytes_ (rb_tail r) = TailBuffer.window (bc_max_output_bytes bash) (bc_max_output_lines bash)
        (output_of recorded) ∧
      bo_exit_code (output r) = exit_code (js (ps_journal s)) ∧
      eh_state (bo_handle (output r)) = state (js (ps_journal s)) ∧
      bo_failure (output r) = last (failures_of recorded)).
Proof.
  intros Hu Htool Hprep Hreach Hstart Hused Hfit.
  destruct (tool_pages _ _ _ Htool Hu) as [Hbash Hpage].
  destruct (prepare_request _ _ _ _ Hprep) as (Hd & Hid & Hmb & Hml). rewrite Hbash in Hmb, Hml.
  destruct (started_history tool c prepared r0 w0 w1 (r, w) Hreach Hstart Hd Hused Hfit)
    as (handle & v0 & v & _ & _ & _ & _ & _ & Hpr & Hv & Hf); [lia|]. rewrite Hid in *. cbn [fst snd] in *.
  destruct Hv as [Hinv (loc & s & Hs & [Hids Hsp Hdr (l & Hrep & Hlc & ->)])].
  exists loc, s, l. split; [done|]. split; [done|]. split; [done|]. cbv zeta.
  pose proof (fo_tail _ _ _ _ _ Hf) as (_ & _ & Hwin & _). rewrite Hpr, Hmb, Hml in Hwin. split; [exact Hwin|].
  intros Hc. destruct (fo_complete _ _ _ _ _ Hf Hc) as (Hterm & Hcur & Hst & Hex).
  pose proof (fo_failure _ _ _ _ _ Hf) as Hfail. rewrite Hcur, Nat2N.id, firstn_all in Hwin, Hfail.
  split_and!; try done. apply (proj1 (to_stream _ _ _ (proj1 Hinv) _ _ Hs)); [done|exact Hterm].
Qed.

(** C5. Waiting for a command ends.  After any such history, once the execution's
    journal is closed, if its session is still in the manager's table, and while the
    host is quiet (the caller neither cancels nor runs out of time, and the log can be
    opened), the wait makes at most one more poll than the journal has units, and
    returns the window of everything the journal recorded, with the recorded state and
    exit code; the result is an error exactly when these are not an exit with
    code 0. *)
Theorem shell_wait_completes (quiet : OperationContext → V → Prop) `{!QuietHost quiet}
    (cwd : ExecutionPath) (bash : BashConfig) (tool : BashTool) (input : BashInput)
    (ids : BashIds) (prepared : PreparedBash) (c c' : OperationContext) (r0 r : RunningBash)
    (w0 w1 w : ProcessWorld V) (loc : nat) (s : ProcessSession) :
  in_u64 (bc_read_bytes bash) → new_tool host cwd bash = Ok tool →
  prepare host tool input ids = Ok prepared → reachable manager w0 →
  BashTool.start host c prepared w0 = (Ok r0, w1) → rtc (used tool) (r0, w1) (r, w) → journals_fit w →
  pw_sessions w !! bid_execution ids = Some loc → pw_arena w !! loc = Some s →
  closed (js (ps_journal s)) = true → quiet c' (pw_native w) →
  let fuel := N.to_nat (next_sequence (js (ps_journal s))) in
  ∃ l o r' w', journal_repr (ps_journal s) l ∧ fuel = S (length (log_units l)) ∧ wait host tool fuel c' (r, w) = (Ok o, (r', w')) ∧
    TailBuffer.bytes_ (rb_tail r') = TailBuffer.window (bc_max_output_bytes bash) (bc_max_output_lines bash)
      (output_of (log_units l).*2) ∧
    bo_output o = TailBuffer.text (rb_tail r') ∧ bo_complete o = true ∧
    eh_state (bo_handle o) = state (js (ps_journal s)) ∧ bo_exit_code o = exit_code (js (ps_journal s)) ∧
    (is_error o = false ↔ state (js (ps_journal s)) = Exited ∧ exit_code (js (ps_journal s)) = Some 0%Z).
Proof.
  intros Hu Htool Hprep Hreach Hstart Hused Hfit Hin Hs Hclosed Hq fuel.
  destruct (tool_pages _ _ _ Htool Hu) as [Hbash Hpage].
  destruct (prepare_request _ _ _ _ Hprep) as (Hd & Hid & Hmb & Hml). rewrite Hbash in Hmb, Hml.
  destruct (started_history tool c prepared r0 w0 w1 (r, w) Hreach Hstart Hd Hused Hfit)
    as (handle & v0 & v & Hh & Hg & Hrec & Hv0 & Hpolled & Hpr & Hv & Hf); [lia|].
  rewrite Hid in *. cbn [fst snd] in *.
  pose proof (manager_streams manager (bid_execution ids) Hlimit Hencodes Happends quiet) as Hstreams.
  destruct Hv as [Hinv (loc' & s' & Hs' & [Hids Hsp Hdr (l & Hrep & Hlc & ->)])].
  assert (loc = loc') as <-.
  { destruct (to_sessions _ _ _ (proj1 Hinv) _ _ Hin) as (x & Hx & Hidx). assert (x = s) as -> by congruence.
    pose proof (proj2 Hinv _ _ _ Hin Hs) as Hspw. eapply (to_distinct _ _ _ (proj1 Hinv)); [done..|congruence]. }
  assert (s = s') as <- by congruence.
  destruct (wait_settled host tool generation (bid_execution ids) (sl_max_process_read_bytes (sc_limits config))
    journals_fit (shown (bid_execution ids)) (manager_calm (bid_execution ids) quiet) c'
    (view_of (ps_journal s) l) Hpage (lc_closed_terminal _ _ Hlc Hclosed) fuel r w) as (r' & w' & Hw & Hf' & Hc' & Hp').
  { split; [done|]. split; [done|]. by exists loc, s. }
  { split; [done|]. exists loc, s. split; [done|]. split; [done..|]. by exists l. }
  { done. }
  { pose proof (fuel_units (ps_journal s) l Hrep) as Hlen. cbn [view_of sv_units]. rewrite length_fmap. unfold fuel. lia. }
  exists l, (output r'), r', w'. split; [done|]. split; [by apply fuel_units|]. split; [done|].
  destruct (fo_complete _ _ _ _ _ Hf' Hc') as (_ & Hend & Hst & Hex).
  pose proof (fo_tail _ _ _ _ _ Hf') as (_ & _ & Hwin & _).
  rewrite Hend, Nat2N.id, firstn_all, Hp', Hpr, Hmb, Hml in Hwin.
  split; [exact Hwin|]. split; [done|]. split; [exact Hc'|]. split; [exact Hst|]. split; [exact Hex|].
  unfold is_error. cbn [output bo_complete bo_handle bo_exit_code]. rewrite Hc', Hst, Hex. cbn [andb].
  by rewrite orb_false_iff, !negb_false_iff, !bool_decide_eq_true.
Qed.
End runs.
End shell.
