(* ===== verification/ShellSamples.v ===== *)
(** The shell tool on the sample manager of [ManagerSamples]: a command is prepared
    and started, writes more lines than the tool keeps, is polled between its
    writes, exits, and is waited for; and the tool's theorems at that run. *)
From Stdlib Require Import ZifyBool.
From stdpp Require Import prelude gmap strings pretty list relations.
From S2P Require Import Prelude.
From S2P Require Import Text.
From S2P Require Import Core.
From S2P Require Import Host.
From S2P Require Import ProcessCore.
From S2P Require Import ProcessLaunch.
From S2P Require Import Journal.
From S2P Require Import JournalGrowth.
From S2P Require Import ProcessStream.
From S2P Require Import Resolver.
From S2P Require Import NativeMemory.
From S2P Require Import SupervisorFs.
From S2P Require Import Supervisor.
From S2P Require Import ProcessManager.
From S2P Require Import ManagerTable.
From S2P Require Import ManagerClients.
From S2P Require Import ManagerStreams.
From S2P Require Import ManagerSamples.
From S2P Require Import OutputBuffers.
From S2P Require Import BashTool.
From S2P Require Import ShellOnManager.

#[local] Existing Instances memory_native memory_debug native_clock plain_digest sample_codec.
#[local] Existing Instances memory_host memory_shells memory_process_codec.

#[local] Instance memory_tokens : Tokens sample_world := λ w, ((9%N, 0%N), w).
#[local] Instance memory_errors : ErrorJson := λ e, VString (message e).

(** ** The hypotheses of the theorems *)

Lemma sample_encodes : encodes.
Proof. intros e. by eexists. Qed.
Lemma sample_appends : appends_succeed NativeWorld.
Proof.
  intros p v outs v'. unfold ph_create_log, memory_host. destruct (n_write p [] v) as [[e|u] v1]; [done|].
  by intros [= <- _].
Qed.
Definition fits_now (j : Journal) : bool :=
  (next_sequence (js j) <? u64_max)%N && (N.of_nat (length (file j)) <=? u64_max)%N.
Lemma fits_by (w : sample_world) : forallb fits_now (ps_journal <$> pw_arena w) = true → journals_fit w.
Proof.
  intros H loc s Hs. assert (Hj : fits_now (ps_journal s) = true).
  { apply (proj1 (forallb_forall _ _) H), list_elem_of_In, list_elem_of_fmap.
    exists s. split; [done|]. by eapply list_elem_of_lookup_2. }
  unfold fits_now in Hj. unfold fits, in_u64. lia.
Qed.
(** The sample host is always quiet. *)
Definition no_deadline (c : OperationContext) (v : NativeWorld) : Prop := deadline c = None.
#[local] Instance no_deadline_quiet : QuietHost no_deadline.
Proof.
  split.
  - intros c v Hc. exists 0%N, v. rewrite Hc. done.
  - intros c p v Hc. by exists v.
Qed.

(** ** A command *)

(** Eight bytes and two lines are kept; a page is of at most six bytes. *)
Definition small_bash : BashConfig :=
  {| bc_shell := None; bc_login := false;
     bc_environment := {| env_mode := EnvEmpty; env_set := ∅; env_remove := ∅ |};
     bc_max_output_bytes := 8; bc_max_output_lines := 2; bc_read_bytes := 6 |}.
Definition sample_shell_host : ExecutionHostDescriptor :=
  shell_host sample_config sample_resolver generation_one (str! "linux") (str! "x86_64").
Definition sample_shell_manager : ProcessManager :=
  shell_manager sample_config sample_resolver generation_one [str! "state"; str! "executions"].
#[local] Instance sample_runtime : ProcessRuntime sample_world := manager_processes sample_shell_manager.
Definition sample_tool : BashTool := {| bt_cwd := at_work (str! "src"); bt_config := small_bash |}.
Definition sample_bash_input : BashInput :=
  {| bi_command := str! "seq 3; exit 3"; bi_timeout := None; bi_workdir := None |}.
Definition sample_ids : BashIds :=
  {| bid_operation := StringId (str! "start-1"); bid_execution := StringId (str! "bash-1");
     bid_terminate := StringId (str! "kill-1") |}.
Definition sample_prepared : PreparedBash :=
  {| pb_host_id := StringId (str! "host"); pb_generation := generation_one;
     pb_request :=
       {| se_expected_generation := Some generation_one; se_output_drain_timeout_ms := None;
          se_operation_id := StringId (str! "start-1"); se_execution_id := StringId (str! "bash-1");
          se_command := Shell (str! "seq 3; exit 3") None false; se_cwd := at_work (str! "src");
          se_environment := bc_environment small_bash; se_stdin := StdinClosedMode;
          se_timeout_ms := Some 120000%N |};
     pb_terminate_operation_id := StringId (str! "kill-1");
     pb_max_output_bytes := 8; pb_max_output_lines := 2 |}.
Definition sample_running : RunningBash :=
  {| rb_prepared := sample_prepared;
     rb_handle := {| eh_execution_id := StringId (str! "bash-1"); eh_generation := generation_one;
                     eh_state := Running; eh_started_at := Some 1700%N |};
     rb_cursor := 0; rb_tail := TailBuffer.new 8 2; rb_exit_code := None; rb_failure := None;
     rb_complete := false |}.
Definition shell_world0 : sample_world := initial_world [] sample_native.
Abbreviation shell_started :=
  ((BashTool.start sample_shell_host quiet sample_prepared shell_world0).2).
Definition first_output : list Task := [ReadOutput 0 Stdout (lit "1" ++ [NL])].
Abbreviation shell_writing := (run_tasks sample_shell_manager first_output shell_started).
Abbreviation first_poll := ((poll sample_shell_host sample_tool quiet (sample_running, shell_writing)).2).
Definition last_output : list Task :=
  [ReadOutput 0 Stdout (lit "2" ++ [NL] ++ lit "3" ++ [NL]); ReadEnds 0 Stdout; ReadEnds 0 Stderr;
   ChildExits 0 (inr 3%Z); Complete 0].
Abbreviation shell_ended := (run_tasks sample_shell_manager last_output first_poll.2).
Abbreviation second_poll := ((poll sample_shell_host sample_tool quiet (first_poll.1, shell_ended)).2).
Abbreviation third_poll := ((poll sample_shell_host sample_tool quiet second_poll).2).

Abbreviation shell_mstep := (mstep sample_shell_manager).
Abbreviation shell_used := (used sample_config sample_resolver generation_one (str! "linux") (str! "x86_64")
  [str! "state"; str! "executions"] sample_tool).
Lemma shell_initial : reachable sample_shell_manager shell_world0.
Proof. exists [], sample_native. unfold shell_world0. apply rtc_refl. Qed.
Lemma used_polls c (s : RunningBash * sample_world) : shell_used s (poll sample_shell_host sample_tool c s).2.
Proof. destruct s as [r w]. apply used_poll. Qed.
Lemma used_tasks r w ts : shell_used (r, w) (r, run_tasks sample_shell_manager ts w).
Proof. apply used_step, step_tasks. Qed.
Lemma outcome_pair {A B} (p : A * B) a : p.1 = a → p = (a, p.2).
Proof. intros <-. by destruct p. Qed.
Lemma sample_started :
  BashTool.start sample_shell_host quiet sample_prepared shell_world0 = (Ok sample_running, shell_started).
Proof. apply outcome_pair. vm_compute. reflexivity. Qed.
(** Tasks, a poll and tasks again; and a poll after them. *)
Lemma used_once c r w ts ts' (s := (poll sample_shell_host sample_tool c (r, run_tasks sample_shell_manager ts w)).2) :
  rtc shell_used (r, w) (s.1, run_tasks sample_shell_manager ts' s.2).
Proof.
  eapply rtc_l; [apply (used_tasks _ _ ts)|]. eapply rtc_l; [apply (used_polls c)|]. fold s.
  destruct s as [r' w']. apply rtc_once, used_tasks.
Qed.
Lemma used_twice c c' r w ts ts' (s := (poll sample_shell_host sample_tool c (r, run_tasks sample_shell_manager ts w)).2)
    (s' := (poll sample_shell_host sample_tool c' (s.1, run_tasks sample_shell_manager ts' s.2)).2) :
  rtc shell_used (r, w) (s'.1, s'.2).
Proof.
  eapply rtc_r; [apply (used_once c r w ts ts')|]. fold s. rewrite <-surjective_pairing. apply (used_polls c').
Qed.
Lemma sample_ended_used : rtc shell_used (sample_running, shell_started) (first_poll.1, shell_ended).
Proof. exact (used_once quiet sample_running shell_started first_output last_output). Qed.
Lemma sample_polled_used : rtc shell_used (sample_running, shell_started) (second_poll.1, second_poll.2).
Proof. exact (used_twice quiet quiet sample_running shell_started first_output last_output). Qed.
Lemma sample_tool_made : new_tool sample_shell_host (at_work (str! "src")) small_bash = Ok sample_tool.
Proof. reflexivity. Qed.
Lemma sample_command_prepared :
  prepare sample_shell_host sample_tool sample_bash_input sample_ids = Ok sample_prepared.
Proof. vm_compute. reflexivity. Qed.
Lemma sample_bytes : in_u64 (bc_read_bytes small_bash).
Proof. by vm_compute. Qed.

(** ** The theorems at the run *)

(** The first of the three lines has left the tail; the exit code is the process's. *)
Definition kept_lines : bytes := lit "2" ++ [NL] ++ lit "3" ++ [NL].
Lemma shell_output_complete_witness :
  rb_complete second_poll.1 = true ∧ bo_exit_code (output second_poll.1) = Some 3%Z ∧
  TailBuffer.bytes_ (rb_tail second_poll.1) = kept_lines ∧
  ∃ loc s l, pw_arena second_poll.2 !! loc = Some s ∧ id_of s = bid_execution sample_ids ∧
    journal_repr (ps_journal s) l ∧ session_done s ∧
    TailBuffer.window 8 2 (output_of (log_units l).*2) = kept_lines.
Proof.
  assert (Hc : rb_complete second_poll.1 = true) by (vm_compute; reflexivity).
  assert (Hk : TailBuffer.bytes_ (rb_tail second_poll.1) = kept_lines) by (vm_compute; reflexivity).
  split; [exact Hc|]. split; [vm_compute; reflexivity|]. split; [exact Hk|].
  pose proof (shell_output_complete (laws := sample_codec_laws) sample_config sample_resolver generation_one
    (str! "linux") (str! "x86_64") [str! "state"; str! "executions"] sample_limit sample_encodes sample_appends
    (at_work (str! "src")) small_bash sample_tool sample_bash_input sample_ids sample_prepared quiet
    sample_running second_poll.1 shell_world0 shell_started second_poll.2
    sample_bytes sample_tool_made sample_command_prepared shell_initial sample_started sample_polled_used
    ltac:(apply fits_by; vm_compute; reflexivity)) as (loc & s & l & Hs & Hid & Hrep & _ & Hdone).
  exists loc, s, l. destruct (Hdone Hc) as (Hd & _ & Hw & _). rewrite Hk in Hw.
  split; [exact Hs|]. split; [exact Hid|]. split; [exact Hrep|]. split; [exact Hd|]. symmetry. exact Hw.
Defined.

Definition ending (s : ProcessSession) : bool * N * ExecutionState * option Z :=
  (closed (js (ps_journal s)), next_sequence (js (ps_journal s)), state (js (ps_journal s)),
   exit_code (js (ps_journal s))).
(** Waiting after the exit: two polls are enough here, ten are granted. *)
Lemma shell_wait_completes_witness :
  ∃ o r' w' l, wait sample_shell_host sample_tool 10 quiet (first_poll.1, shell_ended) = (Ok o, (r', w')) ∧
    TailBuffer.bytes_ (rb_tail r') = TailBuffer.window 8 2 (output_of (log_units l).*2) ∧
    bo_complete o = true ∧ eh_state (bo_handle o) = Exited ∧ bo_exit_code o = Some 3%Z ∧
    ¬ (is_error o = false).
Proof.
  assert (He : ending <$> pw_arena shell_ended !! 0 = Some (true, 10%N, Exited, Some 3%Z))
    by (vm_compute; reflexivity).
  destruct (pw_arena shell_ended !! 0) as [s|] eqn:Hs; [|discriminate He].
  injection He as Hclosed Hnext Hstate Hcode.
  pose proof (shell_wait_completes (laws := sample_codec_laws) sample_config sample_resolver generation_one
    (str! "linux") (str! "x86_64") [str! "state"; str! "executions"] sample_limit sample_encodes sample_appends
    no_deadline
    (at_work (str! "src")) small_bash sample_tool sample_bash_input sample_ids sample_prepared quiet quiet
    sample_running first_poll.1 shell_world0 shell_started shell_ended 0 s
    sample_bytes sample_tool_made sample_command_prepared shell_initial sample_started sample_ended_used
    ltac:(apply fits_by; vm_compute; reflexivity) ltac:(vm_compute; reflexivity) Hs Hclosed eq_refl) as H.
  rewrite Hnext, Hstate, Hcode in H.
  destruct H as (l & o & r' & w' & _ & _ & Hw & Hwin & _ & Hc & Hst & Hex & Herr).
  exists o, r', w', l. split; [exact Hw|]. split; [exact Hwin|]. split; [exact Hc|]. split; [exact Hst|].
  split; [exact Hex|]. rewrite Herr. intros [_ H]. discriminate H.
Defined.
