(* ===== verification/ExecSamples.v ===== *)
(** The exec tools on the sample manager of [ManagerSamples]: a terminal session is
    started, writes, is given input by a second call, ends and is waited for; a
    command that carries a patch is intercepted on the in-memory host; and the
    tools' theorems at those runs. *)
From Stdlib Require Import ZifyBool.
From stdpp Require Import prelude gmap strings pretty list relations.
From S2P Require Import Prelude.
From S2P Require Import Text.
From S2P Require Import Core.
From S2P Require Import Host.
From S2P Require Import MemoryHost.
From S2P Require Import PatchUpdate.
From S2P Require Import PatchApply.
From S2P Require Import ProcessCore.
From S2P Require Import ProcessLaunch.
From S2P Require Import Journal.
From S2P Require Import JournalGrowth.
From S2P Require Import ProcessStream.
From S2P Require Import Resolver.
From S2P Require Import NativeMemory.
From S2P Require Import SupervisorFs.
From S2P Require Import Supervisor.
From S2P Require Import ProcessManager.
From S2P Require Import ManagerTable.
From S2P Require Import ManagerClients.
From S2P Require Import ManagerStreams.
From S2P Require Import ManagerSamples.
From S2P Require Import OutputBuffers.
From S2P Require Import ExecOutput.
From S2P Require Import ExecInvocation.
From S2P Require Import UnifiedExec.
From S2P Require Import ExecSessions.
From S2P Require Import ExecOnManager.
From S2P Require Import ShellSamples.

#[local] Existing Instances memory_native memory_debug native_clock plain_digest sample_codec.
#[local] Existing Instances memory_host memory_shells memory_process_codec.

#[local] Existing Instance no_deadline_quiet.
#[local] Instance display_path : DebugPath := path.
(** Scripts that start with [apply_patch] carry their patch after the line. *)
#[local] Instance line_grammar : BashGrammar := λ src,
  match strip_prefix (str! "apply_patch <<'EOF'" ++ [NL]) src ≫= strip_suffix ([NL] ++ str! "EOF") with
  | Some body => BashMatches [[(str! "heredoc", inl body)]]
  | None => BashMatches []
  end.
(** Each look at the clock takes a tenth of a second. *)
#[local] Instance ticking_clock : ExecClock NativeWorld := {
  now_ms := λ v, ((100 * N.of_nat (nw_fresh v))%N, {| nw_nodes := nw_nodes v; nw_fresh := S (nw_fresh v) |});
  pause_ms := λ ms v, v;
  random_digit := λ v, (11%N, v);
}.
(** A process command uses no file. *)
Definition no_file {A} : M sample_world A := throw memory_not_found.
Definition no_files : FileSystem sample_world := {|
  fs_stat := λ _ _, no_file; fs_read := λ _ _, no_file; fs_write := λ _ _, no_file;
  fs_create_directory := λ _ _, no_file; fs_remove := λ _ _, no_file; fs_list := λ _ _, no_file;
|}.

(** ** A session *)

(** Six bytes are kept of a call; a page is of at most eight bytes. *)
Definition small_exec : UnifiedExecConfig :=
  {| uc_intercept_apply_patch := true;
     uc_patch_config := {| max_patch_bytes := 1000; max_file_bytes := 1000; chunk_bytes := 4; max_operations := 4;
                           update_file_mode := NormalizeToLf |};
     uc_shell := None; uc_default_login := false; uc_allow_shell_override := false; uc_allow_login_shell := false;
     uc_environment := {| env_mode := EnvEmpty; env_set := ∅; env_remove := ∅ |};
     uc_pty_columns := 80; uc_pty_rows := 24; uc_process_timeout_ms := None; uc_max_output_bytes := 6;
     uc_default_max_output_tokens := 10; uc_max_output_tokens := 20; uc_read_bytes := 8;
     uc_max_poll_wait_ms := 1000; uc_max_empty_yield_time_ms := 300000 |}.
Definition exec_executions : npath := [str! "state"; str! "executions"].
Definition sample_exec_manager : ProcessManager := exec_manager sample_config sample_resolver generation_one exec_executions.
#[local] Instance sample_exec_runtime : ExecutionRuntime sample_world :=
  exec_runtime sample_config sample_resolver generation_one (str! "linux") (str! "x86_64") no_files.
#[local] Instance sample_exec_processes : ProcessRuntime sample_world := manager_processes sample_exec_manager.
Definition sample_exec_tool : UnifiedExecTool := {| ux_cwd := at_work (str! "src"); ux_config := small_exec |}.
Definition sample_exec_input : ExecCommandInput :=
  {| xi_cmd := str! "cat"; xi_workdir := None; xi_shell := None; xi_login := None; xi_tty := true;
     xi_yield_time_ms := 1; xi_max_output_tokens := None |}.
Definition sample_exec_ids : ExecCommandIds :=
  {| xd_session_id := 7; xd_operation_id := StringId (str! "start-1"); xd_execution_id := StringId (str! "exec-1");
     xd_terminate_operation_id := StringId (str! "kill-1") |}.
Definition exec_world0 : sample_world := initial_world [] sample_native.

Definition result_of {A} (r : ExecutionResult A) : match r with Ok _ => A | _ => unit end :=
  match r with Ok a => a | _ => tt end.
Definition value_of {A} (o : option A) : match o with Some _ => A | None => unit end :=
  match o with Some a => a | None => tt end.
Definition exec_output : list Task := [ReadOutput 0 Pty (lit "one" ++ [NL])].
Definition exec_ends : list Task :=
  [ReadOutput 0 Pty (lit "two three" ++ [NL]); ReadEnds 0 Pty; ChildExits 0 (inr 3%Z); Complete 0].
Definition sample_stdin : WriteStdinInput :=
  {| si_session_id := 7; si_chars := str! "go"; si_yield_time_ms := 250; si_max_output_tokens := None |}.
Definition sample_stdin_ids : WriteStdinIds :=
  {| sd_write_id := StringId (str! "write-1"); sd_interrupt_operation_id := StringId (str! "interrupt-1") |}.
Definition sample_exec_prepared : PreparedExecCommand := Eval vm_compute in
  result_of (prepare_exec_command sample_exec_tool sample_exec_input sample_exec_ids exec_world0).1.
Abbreviation exec_started := ((start_exec_command quiet sample_exec_prepared exec_world0).2).
Definition exec_run0 : RunningExecCommand := Eval vm_compute in
  result_of (start_exec_command quiet sample_exec_prepared exec_world0).1.
Definition exec_session0 : ExecSession := Eval vm_compute in value_of (xr_session exec_run0).
Abbreviation exec_polls s w := (after_poll s (poll sample_exec_tool quiet s w).1).
Abbreviation exec_world s w := ((poll sample_exec_tool quiet s w).2).
Abbreviation exec_run_tasks := (run_tasks sample_exec_manager).
(** The first call: its output is read, and its time is up. *)
Definition exec_state0 : Polled := exec_polled exec_run0 exec_session0.
Abbreviation exec_writing := (exec_run_tasks exec_output exec_started).
Definition exec_state1 : Polled := Eval vm_compute in exec_polls exec_state0 exec_writing.
Definition exec_state2 : Polled := Eval vm_compute in exec_polls exec_state1 (exec_world exec_state0 exec_writing).
Abbreviation exec_first := (exec_world exec_state1 (exec_world exec_state0 exec_writing)).
Definition exec_result1 : UnifiedExecCallResult := Eval vm_compute in result_of (finish exec_state2 exec_first).1.
Definition exec_session1 : ExecSession := Eval vm_compute in value_of (ur_session exec_result1).
Abbreviation exec_between := ((finish exec_state2 exec_first).2).
(** The second call sends input; the command writes more than is kept, and ends. *)
Definition sample_stdin_prepared : PreparedWriteStdin := Eval vm_compute in
  result_of (prepare_write_stdin sample_exec_tool sample_stdin exec_session1 sample_stdin_ids exec_between).1.
Definition exec_run1 : RunningWriteStdin := Eval vm_compute in
  result_of (start_write_stdin quiet sample_stdin_prepared exec_between).1.
Abbreviation exec_told := ((start_write_stdin quiet sample_stdin_prepared exec_between).2).
Abbreviation exec_ended := (exec_run_tasks exec_ends exec_told).
Definition exec_state3 : Polled := Eval vm_compute in exec_polls (stdin_polled exec_run1) exec_ended.
Abbreviation exec_third := (exec_world (stdin_polled exec_run1) exec_ended).
Definition exec_state4 : Polled := Eval vm_compute in exec_polls exec_state3 exec_third.
Abbreviation exec_last := (exec_world exec_state3 exec_third).
Definition exec_result2 : UnifiedExecCallResult := Eval vm_compute in result_of (finish exec_state4 exec_last).1.

Abbreviation sample_used := (exec_used sample_config sample_resolver generation_one (str! "linux") (str! "x86_64")
  exec_executions no_files sample_exec_tool).
Lemma then_tasks st ended s w ts : rtc sample_used st (ended, s, w) → rtc sample_used st (ended, s, exec_run_tasks ts w).
Proof. intros Hr. eapply rtc_r; [exact Hr|]. apply exec_used_step, step_tasks. Qed.
Lemma then_polls st ended s w s' :
  rtc sample_used st (ended, s, w) → exec_polls s w = s' → rtc sample_used st (ended, s', exec_world s w).
Proof. intros Hr <-. eapply rtc_r; [exact Hr|]. apply exec_used_poll. Qed.
Lemma then_input st ended s w result session prepared r :
  rtc sample_used st (ended, s, w) → (finish s w).1 = Ok result → ur_session result = Some session →
  (prepare_write_stdin sample_exec_tool sample_stdin session sample_stdin_ids (finish s w).2).1 = Ok prepared →
  (start_write_stdin quiet prepared (finish s w).2).1 = Ok r →
  rtc sample_used st (ended ++ [result], stdin_polled r, (start_write_stdin quiet prepared (finish s w).2).2).
Proof.
  intros Hr Hf Hs Hp Hst. eapply rtc_r; [exact Hr|].
  eapply exec_used_input; [exact (outcome_pair _ _ Hf)|exact Hs|exact (outcome_pair _ _ Hp)|apply rtc_refl|].
  exact (outcome_pair _ _ Hst).
Qed.
Lemma sample_first_call : rtc sample_used ([], exec_state0, exec_started) ([], exec_state2, exec_first).
Proof.
  apply (then_polls _ [] exec_state1 (exec_world exec_state0 exec_writing) exec_state2); [|vm_compute; reflexivity].
  apply (then_polls _ [] exec_state0 exec_writing exec_state1); [|vm_compute; reflexivity].
  exact (then_tasks _ [] exec_state0 exec_started exec_output (rtc_refl _ _)).
Qed.
Lemma sample_second_call :
  rtc sample_used ([], exec_state0, exec_started) ([exec_result1], stdin_polled exec_run1, exec_ended).
Proof.
  apply (then_tasks _ [exec_result1] (stdin_polled exec_run1) exec_told exec_ends).
  apply (then_input _ [] exec_state2 exec_first exec_result1 exec_session1 sample_stdin_prepared exec_run1 sample_first_call);
    vm_compute; reflexivity.
Qed.
Lemma sample_both_calls :
  rtc sample_used ([], exec_state0, exec_started) ([exec_result1], exec_state4, exec_last).
Proof.
  apply (then_polls _ [exec_result1] exec_state3 exec_third exec_state4); [|vm_compute; reflexivity].
  apply (then_polls _ [exec_result1] (stdin_polled exec_run1) exec_ended exec_state3); [|vm_compute; reflexivity].
  exact sample_second_call.
Qed.
Lemma sample_exec_made : new_exec_tool (W := sample_world) (at_work (str! "src")) small_exec = Ok sample_exec_tool.
Proof. reflexivity. Qed.
Lemma sample_exec_was_prepared :
  prepare_exec_command sample_exec_tool sample_exec_input sample_exec_ids exec_world0
  = (Ok sample_exec_prepared, (prepare_exec_command sample_exec_tool sample_exec_input sample_exec_ids exec_world0).2).
Proof. apply outcome_pair. vm_compute. reflexivity. Qed.
Lemma sample_exec_started :
  start_exec_command quiet sample_exec_prepared exec_world0 = (Ok exec_run0, exec_started).
Proof. apply outcome_pair. vm_compute. reflexivity. Qed.
Lemma exec_initial : reachable sample_exec_manager exec_world0.
Proof. exists [], sample_native. unfold exec_world0. apply rtc_refl. Qed.
Lemma exec_bytes : in_u64 (uc_read_bytes small_exec).
Proof. by vm_compute. Qed.

(** ** The theorems at the session *)

(** The second call tells of ten bytes, of which it keeps six. *)
Lemma exec_session_complete_witness :
  (finish exec_state4 exec_last).1 = Ok exec_result2 ∧ ur_session exec_result1 = Some exec_session1 ∧
  uo_exit_code (ur_output exec_result2) = Some 3%Z ∧ uo_omitted_bytes (ur_output exec_result2) = 4%N ∧
  ∃ loc process l parts, pw_arena exec_last !! loc = Some process ∧ journal_repr (ps_journal process) l ∧
    concat parts = output_of (log_units l).*2 ∧ Forall2 (told 6) parts [exec_result1; exec_result2].
Proof.
  assert (Hf : (finish exec_state4 exec_last).1 = Ok exec_result2) by (vm_compute; reflexivity).
  split; [exact Hf|]. split; [reflexivity|]. split; [reflexivity|]. split; [reflexivity|].
  pose proof (exec_session_complete (laws := sample_codec_laws) sample_config sample_resolver generation_one
    (str! "linux") (str! "x86_64") exec_executions no_files sample_limit sample_encodes sample_appends
    (at_work (str! "src")) small_exec sample_exec_tool sample_exec_input sample_exec_ids sample_exec_prepared quiet
    exec_run0 exec_session0 [exec_result1] exec_state4 exec_result2 exec_world0 _ exec_world0 exec_started exec_last
    (finish exec_state4 exec_last).2 exec_bytes sample_exec_made sample_exec_was_prepared exec_initial
    sample_exec_started eq_refl sample_both_calls ltac:(apply fits_by; vm_compute; reflexivity) (outcome_pair _ _ Hf))
    as (loc & process & l & parts & Hs & _ & Hrep & _ & Htold & Hend).
  destruct (Hend eq_refl) as (Hall & _ & _).
  exists loc, process, l, parts. split; [exact Hs|]. split; [exact Hrep|]. split; [exact Hall|]. exact Htold.
Defined.

(** Waiting for the second call: two polls are enough here, eighteen are granted. *)
Lemma exec_wait_completes_witness :
  ∃ result l parts,
    (wait_write_stdin sample_exec_tool 18 quiet (exec_run1, exec_ended)).1 = Ok result ∧
    uo_exit_code (ur_output result) = Some 3%Z ∧ ur_session result = None ∧
    concat parts = output_of (log_units l).*2 ∧ Forall2 (told 6) parts [exec_result1; result].
Proof.
  assert (He : ending <$> pw_arena exec_ended !! 0 = Some (true, 18%N, Exited, Some 3%Z))
    by (vm_compute; reflexivity).
  destruct (pw_arena exec_ended !! 0) as [process|] eqn:Hs; [|discriminate He].
  injection He as Hclosed Hnext Hstate Hcode.
  pose proof (exec_wait_completes (laws := sample_codec_laws) sample_config sample_resolver generation_one
    (str! "linux") (str! "x86_64") exec_executions no_files sample_limit sample_encodes sample_appends no_deadline
    (at_work (str! "src")) small_exec sample_exec_tool sample_exec_input sample_exec_ids sample_exec_prepared quiet quiet
    exec_run0 exec_session0 [exec_result1] (stdin_polled exec_run1) exec_world0 _ exec_world0 exec_started exec_ended
    0 process (λ c v H, H) exec_bytes sample_exec_made sample_exec_was_prepared exec_initial
    sample_exec_started eq_refl sample_second_call ltac:(apply fits_by; vm_compute; reflexivity)
    ltac:(vm_compute; reflexivity) Hs Hclosed eq_refl eq_refl) as H.
  rewrite Hnext, Hcode in H.
  destruct H as (l & parts & result & _ & _ & Hall & Htold & Hnone & Hx & _ & Hw).
  exists result, l, parts. split; [exact (Hw exec_run1 eq_refl)|]. split; [exact Hx|]. split; [exact Hnone|].
  split; [exact Hall|]. exact Htold.
Defined.

(** ** An intercepted patch *)

#[local] Existing Instances memory_world memory_filesystem memory_runtime.
Definition no_process {A} : M MemoryWorld A := throw memory_not_found.
#[local] Instance no_processes : ProcessRuntime MemoryWorld := {
  pr_start := λ _ _, no_process; pr_read := λ _ _, no_process; pr_write := λ _ _, no_process;
  pr_resize := λ _ _, no_process; pr_signal := λ _ _, no_process; pr_terminate := λ _ _, no_process;
}.
#[local] Instance stopped_clock : ExecClock MemoryWorld := {
  now_ms := λ w, (5%N, w); pause_ms := λ ms w, w; random_digit := λ w, (0%N, w);
}.
Definition memory_dir (p : str) : ExecutionPath := {| root_id := memory_root; path := p |}.
Definition empty_memory : MemoryWorld := {| mw_files := ∅; mw_writes := ∅; mw_removes := ∅ |}.
Definition patch_tool : UnifiedExecTool := {| ux_cwd := memory_dir (str! "src"); ux_config := small_exec |}.
Definition patch_script : str :=
  str! "apply_patch <<'EOF'" ++ [NL] ++ str! "*** Begin Patch" ++ [NL] ++ str! "*** Add File: a.txt" ++ [NL]
  ++ str! "+hi" ++ [NL] ++ str! "*** End Patch" ++ [NL] ++ str! "EOF".
Definition patch_input : ExecCommandInput :=
  {| xi_cmd := patch_script; xi_workdir := None; xi_shell := None; xi_login := None; xi_tty := false;
     xi_yield_time_ms := 1000; xi_max_output_tokens := None |}.
Definition patch_prepared : PreparedExecCommand := Eval vm_compute in
  result_of (prepare_exec_command patch_tool patch_input sample_exec_ids empty_memory).1.
Definition patch_run : RunningExecCommand := Eval vm_compute in
  result_of (start_exec_command quiet patch_prepared empty_memory).1.
Definition patch_running : RunningPatch := Eval vm_compute in value_of (xr_patch patch_run).
Abbreviation patch_world := ((start_exec_command quiet patch_prepared empty_memory).2).
Abbreviation patch_waited := (wait_exec_command patch_tool (steps_left patch_running) quiet (patch_run, patch_world)).
Lemma intercepted_patch_is_applied_witness :
  mw_files patch_waited.2.2 !! memory_dir (str! "src/a.txt") = Some (lit "hi" ++ [NL]) ∧
  ∃ tool output patch w buffer result,
    PatchApply.apply tool quiet patch_running patch_world = (Ok output, (patch, w)) ∧
    patch_waited.1 = Ok result ∧ HeadTail.describes 6 (utf8_encode (PatchApply.to_text output)) buffer ∧
    uo_output (ur_output result) = HeadTail.text buffer.
Proof.
  split; [vm_compute; reflexivity|].
  assert (Hst : start_exec_command quiet patch_prepared empty_memory = (Ok patch_run, patch_world))
    by (apply outcome_pair; vm_compute; reflexivity).
  destruct (intercepted_patch_is_applied patch_tool quiet quiet patch_prepared patch_run patch_running empty_memory
    patch_world Hst eq_refl) as (invocation & tool & Hi & Ht & Hw & Htold).
  destruct (PatchApply.apply tool quiet patch_running patch_world) as [[output|e|] [patch w]] eqn:Ha.
  - destruct (Htold output patch w eq_refl) as (buffer & result & Hd & Hr & Ho & _).
    exists tool, output, patch, w, buffer, result.
    split; [exact Ha|]. split; [exact Hr|]. split; [exact Hd|]. exact Ho.
  - exfalso. assert (Hok : is_ok patch_waited.1 = true) by (vm_compute; reflexivity).
    rewrite Hw in Hok. discriminate Hok.
  - exfalso. assert (Hok : is_ok patch_waited.1 = true) by (vm_compute; reflexivity).
    rewrite Hw in Hok. discriminate Hok.
Defined.
