(* ===== verification/Wire.v ===== *)
(** [execution-wire]: the operations of a runtime as data, the versioned envelopes that
    carry them ([protocol.rs]), and their dispatch to a runtime ([dispatch.rs]). *)
From Stdlib Require Import ZifyBool.
From stdpp Require Import prelude gmap strings pretty list.
From S2P Require Import Prelude.
From S2P Require Import Text.
From S2P Require Import Core.
From S2P Require Import Host.
From S2P Require Import ProcessCore.

(** ** The protocol *)

Definition PROTOCOL_NAME : str := str! "agent-pane.execution".
Definition PROTOCOL_VERSION : N := 1.

Record RequestId := { request_id_str : str }.
#[export] Instance RequestId_eq_dec : EqDecision RequestId.
Proof. solve_decision. Defined.
#[export] Instance RequestId_countable : Countable RequestId.
Proof. by apply (inj_countable' request_id_str (λ s, {| request_id_str := s |})); intros []. Defined.
Definition RequestId_new (value : str) : RequestId + ValidationError :=
  if str_is_empty (trim value) then inr (validation_single (str! "request_id") (str! "must not be empty"))
  else if contains_char NUL value then inr (validation_single (str! "request_id") null_byte)
  else inl {| request_id_str := value |}.

Inductive Operation :=
  | Describe
  | FilesystemStat (request : StatRequest)
  | FilesystemRead (request : ReadFileRequest)
  | FilesystemWrite (request : WriteFileRequest)
  | FilesystemCreateDirectory (request : CreateDirectoryRequest)
  | FilesystemRemove (request : RemovePathRequest)
  | FilesystemList (request : ListDirectoryRequest)
  | ProcessStart (request : StartExecutionRequest)
  | ProcessRead (request : ReadExecutionRequest)
  | ProcessWrite (request : WriteProcessInputRequest)
  | ProcessResize (request : ResizePtyRequest)
  | ProcessSignal (request : SignalExecutionRequest)
  | ProcessTerminate (request : TerminateExecutionRequest).
#[export] Instance Operation_validate : Validate Operation := λ o,
  match o with
  | Describe | ProcessWrite _ | ProcessSignal _ | ProcessTerminate _ => inl tt
  | FilesystemStat request => validate request
  | FilesystemRead request => validate request
  | FilesystemWrite request => validate request
  | FilesystemCreateDirectory request => validate request
  | FilesystemRemove request => validate request
  | FilesystemList request => validate request
  | ProcessStart request => validate request
  | ProcessRead request => validate request
  | ProcessResize request => validate request
  end.

Inductive OperationResult :=
  | ResHostDescriptor (value : ExecutionHostDescriptor)
  | ResFileMetadata (value : FileMetadata)
  | ResReadFile (value : ReadFileResult)
  | ResWriteFile (value : WriteFileResult)
  | ResRemovePath (value : RemovePathResult)
  | ResListDirectory (value : ListDirectoryResult)
  | ResExecutionHandle (value : ExecutionHandle)
  | ResReadExecution (value : ReadExecutionResult)
  | ResProcessInput (value : WriteProcessInputResult)
  | ResTerminateExecution (value : TerminateExecutionResult)
  | ResUnit.

Record RequestEnvelope := { rq_version : N; rq_request_id : RequestId; rq_operation : Operation }.
Definition RequestEnvelope_new (id : RequestId) (operation : Operation) : RequestEnvelope :=
  {| rq_version := PROTOCOL_VERSION; rq_request_id := id; rq_operation := operation |}.
Inductive ResponseEnvelope :=
  | ResponseSuccess (version : N) (request_id : RequestId) (result : OperationResult)
  | ResponseError (version : N) (request_id : RequestId) (error : ExecutionError).
Definition response_success (id : RequestId) (r : OperationResult) : ResponseEnvelope :=
  ResponseSuccess PROTOCOL_VERSION id r.
Definition response_error (id : RequestId) (e : ExecutionError) : ResponseEnvelope :=
  ResponseError PROTOCOL_VERSION id e.
Definition response_version (r : ResponseEnvelope) : N :=
  match r with ResponseSuccess v _ _ | ResponseError v _ _ => v end.
Definition response_id (r : ResponseEnvelope) : RequestId :=
  match r with ResponseSuccess _ id _ | ResponseError _ id _ => id end.

(** ** Dispatch *)

(** [.await.map(f)]. *)
Definition M_map {W A B} (f : A → B) (m : M W A) : M W B := a ← m; mret (f a).

Section dispatch.
Context {W : Type} `{!World W, !ExecutionRuntime W, !ProcessRuntime W}.

Definition dispatch_operation (c : OperationContext) (operation : Operation) : M W OperationResult :=
  _ ← lift (validated (validate operation));
  _ ← checkpointM c;
  match operation with
  | Describe => mret (ResHostDescriptor rt_descriptor)
  | FilesystemStat request => M_map ResFileMetadata (fs_stat c request)
  | FilesystemRead request => M_map ResReadFile (fs_read c request)
  | FilesystemWrite request => M_map ResWriteFile (fs_write c request)
  | FilesystemCreateDirectory request => M_map (λ _, ResUnit) (fs_create_directory c request)
  | FilesystemRemove request => M_map ResRemovePath (fs_remove c request)
  | FilesystemList request => M_map ResListDirectory (fs_list c request)
  | ProcessStart request => M_map ResExecutionHandle (pr_start c request)
  | ProcessRead request => M_map ResReadExecution (pr_read c request)
  | ProcessWrite request => M_map ResProcessInput (pr_write c request)
  | ProcessResize request => M_map (λ _, ResUnit) (pr_resize c request)
  | ProcessSignal request => M_map (λ _, ResUnit) (pr_signal c request)
  | ProcessTerminate request => M_map ResTerminateExecution (pr_terminate c request)
  end.

Definition unsupported_version (version : N) : ExecutionError :=
  with_detail (str! "supported_version") (VNumber PROTOCOL_VERSION)
    (with_detail (str! "received_version") (VNumber version)
      (ExecutionError_new Unsupported
        (format! [str! "unsupported execution protocol version "; show_N version;
                  str! "; expected "; show_N PROTOCOL_VERSION]))).
(** A panic of the runtime is one of the task that dispatches. *)
Definition dispatch_request (c : OperationContext) (request : RequestEnvelope) : M W ResponseEnvelope :=
  if negb (rq_version request =? PROTOCOL_VERSION)%N
  then mret (response_error (rq_request_id request) (unsupported_version (rq_version request)))
  else
    outcome ← attempt (dispatch_operation c (rq_operation request));
    mret match outcome with
         | inr result => response_success (rq_request_id request) result
         | inl error => response_error (rq_request_id request) error
         end.

(** Every response is in this protocol's version and carries the id of its request. *)
Lemma dispatch_correlated c request (w : W) response w' :
  dispatch_request c request w = (Ok response, w') →
  response_version response = PROTOCOL_VERSION ∧ response_id response = rq_request_id request.
Proof.
  unfold dispatch_request. destruct (negb _); [by intros [= <- _]|]. intros H.
  apply M_bind_ok_inv in H as (outcome & w1 & _ & H). injection H as <- _. by destruct outcome.
Qed.
(** An operation that is not valid touches nothing. *)
Lemma dispatch_refuses c request (w : W) e :
  rq_version request = PROTOCOL_VERSION → validate (rq_operation request) = inr e →
  dispatch_request c request w = (Ok (response_error (rq_request_id request) (from_validation_error e)), w).
Proof.
  intros Hv He. unfold dispatch_request, dispatch_operation. rewrite Hv, He. done.
Qed.
End dispatch.
