(* ===== verification/WireCodec.v ===== *)
(** [execution-wire/src/codec.rs]: bounded newline-delimited JSON framing, read from a
    buffered reader that delivers the stream in pieces of any size. *)
From Stdlib Require Import ZifyBool.
From stdpp Require Import prelude gmap strings pretty list.
From S2P Require Import Prelude.
From S2P Require Import Text.
From S2P Require Import Core.

Definition DEFAULT_MAX_FRAME_BYTES : N := 16 * 1024 * 1024.

(** The errors of input and output and of JSON are given by how they display. *)
Inductive WireCodecError :=
  | WireIo (source : str)
  | WireJson (source : str)
  | EmptyFrame
  | FrameTooLarge (max_bytes : N)
  | InvalidFrameLimit.
Record NdjsonCodec := { max_frame_bytes : N }.
Definition NdjsonCodec_new (max_frame_bytes : N) : result WireCodecError NdjsonCodec :=
  if (max_frame_bytes =? 0)%N then Err InvalidFrameLimit else Ok {| max_frame_bytes := max_frame_bytes |}.
Definition NdjsonCodec_default : NdjsonCodec := {| max_frame_bytes := DEFAULT_MAX_FRAME_BYTES |}.

(** ** The streams and the JSON of a value *)

(** [AsyncBufRead]: the bytes that are buffered, filled when there are none, and how
    many of them were used. *)
Class BufRead (R : Type) := {
  fill_buf : R → (str + bytes) * R;
  consume : nat → R → R;
}.
(** [rest] is the stream still to come: a fill shows a first piece of it, none only at
    its end, and using bytes removes them. *)
Class BufReadLaws {R : Type} `{!BufRead R} (rest : R → bytes) : Prop := {
  fill_shows : ∀ r b r', fill_buf r = (inr b, r') →
    ∃ more, rest r = b ++ more ∧ (b = [] → more = []) ∧
    ∀ n, n ≤ length b → rest (consume n r') = drop n (rest r);
}.
(** [AsyncWrite]. *)
Class Writer (X : Type) := {
  write_all : bytes → X → option str * X;
  flush : X → option str * X;
}.
(** [written] is the stream written so far. *)
Class WriterLaws {X : Type} `{!Writer X} (written : X → bytes) : Prop := {
  write_appends : ∀ b x x', write_all b x = (None, x') → written x' = written x ++ b;
  flush_keeps : ∀ x x', flush x = (None, x') → written x' = written x;
}.
Class Json (A : Type) := {
  to_json : A → str + bytes;
  from_json : bytes → str + A;
}.
(** What was encoded can be decoded; the compact encoding of an object is one line. *)
Class JsonLaws (A : Type) `{!Json A} : Prop := {
  from_to_json : ∀ a b, to_json a = inr b → from_json b = inr a;
  json_line : ∀ (a : A) b, to_json a = inr b → b ≠ [] ∧ NL ∉ b ∧ last b ≠ Some CR;
}.

(** ** The codec *)

Section codec.
Context (self : NdjsonCodec).
Abbreviation max := (max_frame_bytes self).
Definition frame_too_large : WireCodecError := FrameTooLarge max.

(** [iter().position(|byte| byte == b)]. *)
Fixpoint position (b : N) (l : bytes) : option nat :=
  match l with
  | [] => None
  | x :: l => if (x =? b)%N then Some 0 else S <$> position b l
  end.
Definition over_limit (frame payload : bytes) : bool :=
  (max <? u64_sat_add (N.of_nat (length frame)) (N.of_nat (length payload)))%N.
(** The end of a frame. *)
Definition finish_frame (reached_eof : bool) (frame : bytes) : result WireCodecError (option bytes) :=
  if reached_eof && bool_decide (frame = []) then Ok None
  else
    let frame := if bool_decide (last frame = Some CR) then take (length frame - 1) frame else frame in
    if bool_decide (frame = []) then Err EmptyFrame else Ok (Some frame).

Section streams.
Context {R X : Type} `{!BufRead R, !Writer X}.

(** The loop has no bound of its own; [fuel] counts the fills. *)
Fixpoint read_frame (fuel : nat) (frame : bytes) (r : R) : result WireCodecError (option bytes) * R :=
  match fuel with
  | 0 => (Panic, r)
  | S fuel =>
    match fill_buf r with
    | (inl e, r) => (Err (WireIo e), r)
    | (inr available, r) =>
      if bool_decide (available = []) then (finish_frame true frame, consume 0 r)
      else
        match position NL available with
        | Some index =>
          if over_limit frame (take index available) then (Err frame_too_large, r)
          else (finish_frame false (frame ++ take index available), consume (index + 1) r)
        | None =>
          if over_limit frame available then (Err frame_too_large, r)
          else read_frame fuel (frame ++ available) (consume (length available) r)
        end
    end
  end.
Definition read_json {A} `{!Json A} (fuel : nat) (r : R) : result WireCodecError (option A) * R :=
  match read_frame fuel [] r with
  | (Ok None, r) => (Ok None, r)
  | (Ok (Some frame), r) =>
    (match from_json frame with inl e => Err (WireJson e) | inr value => Ok (Some value) end, r)
  | (Err e, r) => (Err e, r)
  | (Panic, r) => (Panic, r)
  end.
Definition io_result {A} (a : A) (failed : option str) : result WireCodecError A :=
  match failed with Some e => Err (WireIo e) | None => Ok a end.
Definition write_json {A} `{!Json A} (value : A) (x : X) : result WireCodecError unit * X :=
  match to_json value with
  | inl e => (Err (WireJson e), x)
  | inr frame =>
    if (max <? N.of_nat (length frame))%N then (Err frame_too_large, x)
    else
      match write_all frame x with
      | (Some e, x) => (Err (WireIo e), x)
      | (None, x) =>
        match write_all [NL] x with
        | (Some e, x) => (Err (WireIo e), x)
        | (None, x) => let '(failed, x) := flush x in (io_result tt failed, x)
        end
      end
  end.

Lemma write_json_returns {A} `{!Json A} (value : A) x : (write_json value x).1 ≠ Panic.
Proof.
  unfold write_json, io_result. destruct (to_json value) as [|frame]; [done|]. destruct (max <? _)%N; [done|].
  destruct (write_all frame x) as [[] x1]; [done|]. destruct (write_all [NL] x1) as [[] x2]; [done|].
  by destruct (flush x2) as [[] x3].
Qed.

(** ** What a frame is *)

(** The first line of a stream, and what follows its newline, if it has one. *)
Fixpoint split_line (s : bytes) : bytes * option bytes :=
  match s with
  | [] => ([], None)
  | b :: s => if (b =? NL)%N then ([], Some s) else let '(line, more) := split_line s in (b :: line, more)
  end.
(** The frame a stream starts with: none at its end; otherwise its first line, within
    the limit (lengths saturate at [u64::MAX]), without the carriage return it may
    end in, and not empty. *)
Definition frame_of (s : bytes) : result WireCodecError (option bytes) :=
  let '(line, more) := split_line s in
  if (max <? N.min (N.of_nat (length line)) u64_max)%N then Err (FrameTooLarge max)
  else
    match line, more with
    | [], None => Ok None
    | _, _ =>
      match default line (strip_suffix [CR] line) with
      | [] => Err EmptyFrame
      | frame => Ok (Some frame)
      end
    end.

Lemma position_split b l i : position b l = Some i → l = take i l ++ b :: drop (S i) l ∧ b ∉ take i l ∧ i < length l.
Proof.
  revert i. induction l as [|x l IH]; intros i; [done|]. cbn [position]. destruct (N.eqb_spec x b) as [->|Hne].
  - intros [= <-]. cbn. split; [done|]. split; [by apply not_elem_of_nil|lia].
  - destruct (position b l) as [j|]; [|done]. intros [= <-]. destruct (IH j eq_refl) as (Hl & Hn & Hlt). cbn.
    split; [by rewrite <-Hl|]. split; [|lia]. by apply not_elem_of_cons.
Qed.
Lemma position_none b l : position b l = None → b ∉ l.
Proof.
  induction l as [|x l IH]; intros H; [by apply not_elem_of_nil|]. cbn in H. destruct (N.eqb_spec x b); [done|].
  destruct (position b l); [done|]. apply not_elem_of_cons. split; [done|by apply IH].
Qed.
Lemma split_line_app a s : NL ∉ a → split_line (a ++ s) = (a ++ (split_line s).1, (split_line s).2).
Proof.
  induction a as [|x a IH]; intros Hn; cbn [app split_line]; [by destruct (split_line s)|].
  apply not_elem_of_cons in Hn as [Hx Hn]. rewrite (proj2 (N.eqb_neq x NL)) by done. by rewrite IH.
Qed.
Lemma over_limit_spec a b : over_limit a b = (max <? N.min (N.of_nat (length (a ++ b))) u64_max)%N.
Proof. unfold over_limit, u64_sat_add. by rewrite length_app, Nat2N.inj_add. Qed.
(** The same in the terms of the loop. *)
Lemma strip_cr (line : bytes) :
  default line (strip_suffix [CR] line) = if bool_decide (last line = Some CR) then take (length line - 1) line else line.
Proof.
  case_bool_decide as H.
  - apply last_Some in H as [l ->]. rewrite (proj2 (strip_suffix_Some [CR] _ l)) by done. cbn [default].
    rewrite length_app. cbn. by rewrite Nat.add_sub, take_app_length.
  - by rewrite strip_suffix_char_None.
Qed.
Lemma frame_of_steps s :
  frame_of s = let '(line, more) := split_line s in
    if over_limit [] line then Err frame_too_large else finish_frame (bool_decide (more = None)) line.
Proof.
  unfold frame_of. destruct (split_line s) as [line more]. rewrite over_limit_spec. cbn [app].
  destruct (_ <? _)%N; [done|]. unfold finish_frame. rewrite <-strip_cr. destruct line as [|b line], more as [more|]; try done.
  all: rewrite (bool_decide_false (_ :: _ = [])), andb_false_r by done; by destruct (default _ _).
Qed.
Lemma over_limit_more a b c : over_limit a b = true → over_limit [] (a ++ b ++ c) = true.
Proof. rewrite !over_limit_spec, app_nil_l, !length_app. lia. Qed.
Lemma over_limit_cat a b : over_limit a b = over_limit [] (a ++ b).
Proof. by rewrite !over_limit_spec. Qed.

Context (rest : R → bytes) `{!BufReadLaws rest}.
(** The frame does not depend on the pieces the stream came in. *)
Lemma read_frame_spec fuel frame r :
  length (rest r) < fuel → NL ∉ frame → over_limit [] frame = false →
  (∃ e r', read_frame fuel frame r = (Err (WireIo e), r')) ∨
  ∃ r', read_frame fuel frame r = (frame_of (frame ++ rest r), r') ∧
    ∀ f, frame_of (frame ++ rest r) = Ok f → rest r' = default [] (split_line (frame ++ rest r)).2.
Proof.
  revert frame r. induction fuel as [|fuel IH]; intros frame r Hfuel Hn Hlim; [lia|]. cbn [read_frame].
  destruct (fill_buf r) as [[e|available] r1] eqn:Hfill; [left; by eexists _, _|].
  destruct (fill_shows (BufReadLaws := BufReadLaws0) r available r1 Hfill) as (more & Hrest & Hend & Huse).
  destruct (bool_decide_reflect (available = [])) as [->|Hne].
  { right. rewrite (Hend eq_refl) in Hrest. specialize (Huse 0 (Nat.le_0_l _)). rewrite Hrest in *.
    exists (consume 0 r1). rewrite !frame_of_steps. rewrite (split_line_app frame) by done.
    cbn [app split_line fst snd]. rewrite app_nil_r, Hlim, bool_decide_true by done. done. }
  destruct (position NL available) as [i|] eqn:Hpos.
  - destruct (position_split _ _ _ Hpos) as (Hsplit & Hnot & Hi).
    assert (Hline : split_line (frame ++ rest r) = (frame ++ take i available, Some (drop (S i) available ++ more))).
    { rewrite Hrest, Hsplit at 1. rewrite <-(assoc_L (++)), (assoc_L (++) frame), split_line_app.
      - cbn [app split_line]. rewrite N.eqb_refl. cbn [fst snd]. by rewrite app_nil_r.
      - rewrite not_elem_of_app. done. }
    rewrite !frame_of_steps. rewrite Hline. cbn [fst snd default]. rewrite <-over_limit_cat, (bool_decide_false (Some _ = None)) by done.
    destruct (over_limit frame _); right; eexists; (split; [reflexivity|]); [done|]. intros f _.
    rewrite (Huse (i + 1)) by lia. rewrite Hrest, drop_app_le by lia. by replace (i + 1) with (S i) by lia.
  - apply position_none in Hpos. destruct (over_limit frame available) eqn:Hover.
    + right. exists r1. rewrite !frame_of_steps. rewrite Hrest, (assoc_L (++)), (split_line_app (frame ++ available))
        by (rewrite not_elem_of_app; done).
      assert (Ho : over_limit [] ((frame ++ available) ++ (split_line more).1) = true)
        by (rewrite <-(assoc_L (++)); by apply over_limit_more). by rewrite Ho.
    + assert (Hr2 : rest (consume (length available) r1) = more)
        by (rewrite (Huse (length available)) by done; rewrite Hrest; apply drop_app_length).
      rewrite Hrest, (assoc_L (++)). rewrite <-Hr2. apply IH.
      * rewrite Hr2. rewrite Hrest, length_app in Hfuel. destruct available; [done|]. simpl in Hfuel. lia.
      * rewrite not_elem_of_app. done.
      * by rewrite <-over_limit_cat.
Qed.

(** *** Messages *)

Context (written : X → bytes) `{!WriterLaws written}.

Lemma frame_of_line line more :
  NL ∉ line → over_limit [] line = false →
  frame_of (line ++ NL :: more) = finish_frame false line ∧ (split_line (line ++ NL :: more)).2 = Some more.
Proof.
  intros Hn Hl. rewrite !frame_of_steps. rewrite split_line_app by done. cbn [split_line fst snd]. rewrite N.eqb_refl. cbn [fst snd].
  rewrite app_nil_r, Hl. by rewrite bool_decide_false.
Qed.
Lemma finish_line line : line ≠ [] → last line ≠ Some CR → finish_frame false line = Ok (Some line).
Proof.
  intros Hne Hcr. unfold finish_frame. cbn [andb]. rewrite (bool_decide_false (last line = Some CR)) by done.
  by rewrite bool_decide_false.
Qed.
Lemma frame_bounds s f :
  frame_of s = Ok (Some f) → f ≠ [] ∧ NL ∉ f ∧ ((max < u64_max)%N → (N.of_nat (length f) ≤ max)%N).
Proof.
  rewrite !frame_of_steps. destruct (split_line s) as [line more] eqn:Hs. destruct (over_limit [] line) eqn:Hl; [done|].
  assert (Hn : NL ∉ line).
  { clear Hl. revert line more Hs. induction s as [|b s IH]; intros line more; cbn [split_line].
    - intros [= <- _]. by apply not_elem_of_nil.
    - destruct (N.eqb_spec b NL); [intros [= <- _]; by apply not_elem_of_nil|].
      destruct (split_line s) as [l m]. intros [= <- _]. apply not_elem_of_cons. split; [done|by eapply IH]. }
  unfold finish_frame. destruct (_ && _); [done|]. rewrite over_limit_spec in Hl. cbn [app] in Hl.
  case_bool_decide as Hcr; case_bool_decide as Hne; try done; intros [= <-].
  - split; [done|]. split; [intros Hin; by apply elem_of_take in Hin as (i & Hi & _); apply Hn, (list_elem_of_lookup_2 _ i)|].
    rewrite length_take. lia.
  - split; [done|]. split; [done|]. lia.
Qed.

Section values.
Context {A : Type} `{!Json A, !JsonLaws A}.
(** Reading what was written: one message after the other, and then the end. *)
Fixpoint write_values (values : list A) (x : X) : result WireCodecError unit * X :=
  match values with
  | [] => (Ok tt, x)
  | value :: values =>
    match write_json value x with
    | (Ok _, x) => write_values values x
    | other => other
    end
  end.
Fixpoint read_values (fuel count : nat) (r : R) : result WireCodecError (list A) * R :=
  match count with
  | 0 => (Panic, r)
  | S count =>
    match read_json fuel r with
    | (Ok None, r) => (Ok [], r)
    | (Ok (Some value), r) => let '(values, r) := read_values fuel count r in (cons value <$> values, r)
    | (Err e, r) => (Err e, r)
    | (Panic, r) => (Panic, r)
    end
  end.

(** A message that was written is one line of the stream. *)
Lemma write_json_ok value x x' :
  write_json value x = (Ok tt, x') →
  ∃ line, to_json value = inr line ∧ over_limit [] line = false ∧ written x' = written x ++ line ++ [NL].
Proof.
  unfold write_json. destruct (to_json value) as [|line]; [done|]. destruct (N.ltb_spec max (N.of_nat (length line))); [done|].
  destruct (write_all line x) as [[|] x1] eqn:H1; [done|]. destruct (write_all [NL] x1) as [[|] x2] eqn:H2; [done|].
  destruct (flush x2) as [[|] x3] eqn:H3; [done|]. intros [= <-]. exists line. split; [done|]. split.
  - rewrite over_limit_spec. cbn [app]. lia.
  - rewrite (flush_keeps (WriterLaws := WriterLaws0) _ _ H3), (write_appends (WriterLaws := WriterLaws0) _ _ _ H2),
      (write_appends (WriterLaws := WriterLaws0) _ _ _ H1). by rewrite (assoc_L (++)).
Qed.
Lemma write_values_ok values x x' :
  write_values values x = (Ok tt, x') →
  ∃ lines, Forall2 (λ value line, to_json value = inr line ∧ over_limit [] line = false) values lines ∧
    written x' = written x ++ concat ((.++ [NL]) <$> lines).
Proof.
  revert x. induction values as [|value values IH]; intros x; cbn [write_values].
  { intros [= <-]. exists []. split; [constructor|]. by rewrite app_nil_r. }
  destruct (write_json value x) as [[[]|e|] x1] eqn:Hw; [|done..]. intros H.
  destruct (write_json_ok _ _ _ Hw) as (line & Hj & Hl & Hx1). destruct (IH _ H) as (lines & Hlines & Hx').
  exists (line :: lines). split; [by constructor|]. rewrite Hx', Hx1. cbn. by rewrite <-!(assoc_L (++)).
Qed.
(** A stream that starts with the line of a message is read up to its end. *)
Lemma read_json_line fuel r value line more :
  length (rest r) < fuel → to_json value = inr line → over_limit [] line = false → rest r = line ++ NL :: more →
  (∃ e r', read_json (A:=A) fuel r = (Err (WireIo e), r')) ∨
  ∃ r', read_json fuel r = (Ok (Some value), r') ∧ rest r' = more.
Proof.
  intros Hfuel Hj Hl Hr. destruct (json_line value line Hj) as (Hne & Hn & Hcr). unfold read_json.
  destruct (read_frame_spec fuel [] r Hfuel (not_elem_of_nil _)) as [(e & r' & ->)|(r' & -> & Hrest)].
  { rewrite over_limit_spec. cbn. lia. }
  { left. by exists e, r'. }
  cbn [app] in *. rewrite Hr in *. destruct (frame_of_line line more Hn Hl) as [Hf Hs]. rewrite Hf, finish_line in * by done.
  right. exists r'. rewrite (from_to_json _ _ Hj). split; [done|]. by rewrite (Hrest _ eq_refl), Hs.
Qed.
Lemma read_json_end fuel r :
  length (rest r) < fuel → rest r = [] →
  (∃ e r', read_json (A:=A) fuel r = (Err (WireIo e), r')) ∨ ∃ r', read_json (A:=A) fuel r = (Ok None, r').
Proof.
  intros Hfuel Hr. unfold read_json.
  destruct (read_frame_spec fuel [] r Hfuel (not_elem_of_nil _)) as [(e & r' & ->)|(r' & -> & _)].
  { rewrite over_limit_spec. cbn. lia. }
  { left. by exists e, r'. }
  right. exists r'. rewrite Hr. rewrite !frame_of_steps. cbn [app split_line]. by rewrite over_limit_spec, (proj2 (N.ltb_ge _ _)) by (cbn; lia).
Qed.
Lemma read_values_lines fuel values lines r :
  length (rest r) < fuel → Forall2 (λ value line, to_json value = inr line ∧ over_limit [] line = false) values lines →
  rest r = concat ((.++ [NL]) <$> lines) →
  (∃ e r', read_values fuel (S (length values)) r = (Err (WireIo e), r')) ∨
  ∃ r', read_values fuel (S (length values)) r = (Ok values, r').
Proof.
  intros Hfuel Hall. revert r Hfuel. induction Hall as [|value line values lines [Hj Hl] _ IH]; intros r Hfuel Hr.
  { cbn in Hr. cbn [length read_values]. destruct (read_json_end fuel r Hfuel Hr) as [(e & r' & ->)|(r' & ->)];
      [left; by exists e, r'|right; by exists r']. }
  cbn in Hr. rewrite <-(assoc_L (++)) in Hr. cbn [app] in Hr.
  cbn [length]. change (read_values fuel (S (S (length values))) r)
    with (match read_json fuel r with
          | (Ok None, r) => (Ok [], r)
          | (Ok (Some value), r) => let '(values, r) := read_values fuel (S (length values)) r in (cons value <$> values, r)
          | (Err e, r) => (Err e, r)
          | (Panic, r) => (Panic, r)
          end).
  destruct (read_json_line fuel r value line _ Hfuel Hj Hl Hr) as [(e & r' & ->)|(r' & -> & Hr')];
    [left; by exists e, r'|].
  destruct (IH r') as [(e & r2 & ->)|(r2 & ->)]; [|done|left; by exists e, r2|right; by exists r2].
  rewrite Hr'. rewrite Hr, length_app in Hfuel. cbn in Hfuel. lia.
Qed.
End values.
End streams.
End codec.

(** C24. Framing does not depend on how the stream is cut.  However the bytes of a
    stream arrive, reading a frame fails in the input or yields the first line of the
    stream without its line ending, within the limit, and leaves exactly what follows
    it; at the end of the stream there is no frame; an empty line and a line over the
    limit are errors. *)
Theorem read_frame_any_chunks {R : Type} `{!BufRead R} (rest : R → bytes) `{!BufReadLaws rest}
    (self : NdjsonCodec) (fuel : nat) (r : R) :
  length (rest r) < fuel →
  (∃ e r', read_frame self fuel [] r = (Err (WireIo e), r')) ∨
  ∃ r', read_frame self fuel [] r = (frame_of self (rest r), r') ∧
    ∀ f, frame_of self (rest r) = Ok f →
      rest r' = default [] (split_line (rest r)).2 ∧
      ∀ frame, f = Some frame → frame ≠ [] ∧ NL ∉ frame ∧
        ((max_frame_bytes self < u64_max)%N → (N.of_nat (length frame) ≤ max_frame_bytes self)%N).
Proof.
  intros Hfuel. destruct (read_frame_spec self rest fuel [] r Hfuel (not_elem_of_nil _)) as [?|(r' & Hr & Hrest)].
  - rewrite over_limit_spec. cbn. lia.
  - by left.
  - right. exists r'. split; [done|]. intros f Hf. split; [by apply (Hrest f)|]. intros frame ->. by apply (frame_bounds self (rest r)).
Qed.
(** C23. Messages survive the wire.  Values that were all written to a stream are read
    back from it in order and unchanged, and then its end is seen, in whatever pieces
    the stream arrives, unless the input fails. *)
Theorem messages_round_trip {A R X : Type} `{!Json A, !JsonLaws A, !BufRead R, !Writer X}
    (rest : R → bytes) `{!BufReadLaws rest} (written : X → bytes) `{!WriterLaws written}
    (self : NdjsonCodec) (values : list A) (x x' : X) (r : R) (fuel : nat) :
  written x = [] → write_values self values x = (Ok tt, x') → rest r = written x' → length (rest r) < fuel →
  (∃ e r', read_values (A:=A) self fuel (S (length values)) r = (Err (WireIo e), r')) ∨
  ∃ r', read_values self fuel (S (length values)) r = (Ok values, r').
Proof.
  intros Hx Hw Hr Hfuel. destruct (write_values_ok self written values x x' Hw) as (lines & Hlines & Hx').
  apply (read_values_lines self rest fuel values lines); [done|done|]. by rewrite Hr, Hx', Hx.
Qed.
