(* ===== verification/RemoteRuntime.v ===== *)
(** [execution-client]: a runtime at the other end of an HTTP gateway.  A call is
    sent in an envelope, its answer must be correlated with it, and whatever goes
    wrong on the way is an error. *)
From Stdlib Require Import ZifyBool.
From stdpp Require Import prelude gmap strings pretty list.
From S2P Require Import Prelude.
From S2P Require Import Text.
From S2P Require Import Core.
From S2P Require Import Host.
From S2P Require Import ProcessCore.
From S2P Require Import ProcessStream.
From S2P Require Import Wire.
From S2P Require Import WireCodec.

(** ** Errors ([error.rs]) *)

(** [ExecutionError::retryable]. *)
Definition with_retryable (retryable_ : bool) (e : ExecutionError) : ExecutionError :=
  {| code := code e; message := message e; retryable := retryable_; details := details e |}.
Definition from_source (source : str) : ExecutionError → ExecutionError :=
  with_detail (str! "source") (VString source).
Definition protocol_error (m : str) : ExecutionError := from_source (str! "protocol") (ExecutionError_new Internal m).
(** What [reqwest] says of its error. *)
Record TransportError := { te_timeout : bool; te_connect : bool }.
Definition transport_error (e : TransportError) : ExecutionError :=
  from_source (str! "transport") (with_retryable (te_connect e)
    (ExecutionError_new (if te_timeout e then DeadlineExceeded else Unavailable)
      (str! "execution gateway transport failed"))).
(** The body of an error ([execution-api]). *)
Record ApiError := { ae_code : str; ae_message : str; ae_retryable : bool; ae_details : list (str * Value) }.
Record ApiErrorBody := { ae_error : ApiError }.
Definition one_of (s : str) (l : list str) : bool := existsb (str_eqb s) l.
Definition status_code (status : N) : ExecutionErrorCode :=
  if existsb (N.eqb status) [401; 403]%N then PermissionDenied
  else if (status =? 404)%N then NotFound
  else if existsb (N.eqb status) [400; 422]%N then InvalidRequest
  else if (status =? 409)%N then OperationConflict
  else if existsb (N.eqb status) [413; 429]%N then ResourceExhausted
  else if existsb (N.eqb status) [408; 504]%N then DeadlineExceeded
  else if existsb (N.eqb status) [410; 502; 503]%N then Unavailable
  else Internal.
Definition gateway_code (body_code : option str) (status : N) : ExecutionErrorCode :=
  match body_code with
  | Some c =>
    if str_eqb c (str! "HOST_OPERATION_UNSUPPORTED") then Unsupported
    else if one_of c [str! "HOST_NOT_READY"; str! "HOST_DISCONNECTED"; str! "E2B_ACCOUNT_UNAVAILABLE"] then Unavailable
    else status_code status
  | None => status_code status
  end.
Definition gateway_error `{!Json ApiErrorBody} (status : N) (body : bytes) (request_id : option str) : ExecutionError :=
  let parsed := match from_json body with inr b => Some (ae_error b) | inl _ => None end in
  let code := gateway_code (ae_code <$> parsed) status in
  let error :=
    match parsed with
    | Some e =>
      with_detail (str! "gateway_details") (VObject (ae_details e))
        (with_detail (str! "gateway_code") (VString (ae_code e))
          (with_retryable (ae_retryable e) (ExecutionError_new code (ae_message e))))
    | None => ExecutionError_new code (format! [str! "execution gateway returned HTTP "; show_N status])
    end in
  let error := with_detail (str! "http_status") (VNumber status) (from_source (str! "gateway") error) in
  match request_id with
  | Some id => with_detail (str! "gateway_request_id") (VString id) error
  | None => error
  end.

(** ** The client ([client.rs]) *)

(** A response as [reqwest] delivers it: its head, then the chunks of its body, which
    may break off. *)
Record HttpResponse := {
  hr_status : N;
  hr_request_id : option str;
  hr_content_length : option N;
  hr_chunks : list bytes;
  hr_failure : option TransportError;
}.
(** What happens outside the client: a random id, an exchange over HTTP, and the race
    of the exchange with the cancellation (true) and the deadline of the caller,
    which leaves the world as far as the exchange had come. *)
Class HttpGateway (W : Type) := {
  generate_request_id : W → RequestId;
  http_post : str → bytes → W → (TransportError + HttpResponse) * W;
  race : OperationContext → RequestEnvelope → W → option (bool * W);
}.
(** The gateway's URL with path segments added, and the canonical form of a UUID. *)
Class Urls := {
  extend_path : str → list str → option str;
  parse_uuid : str → option str;
}.

Record ExecutionClient := { ec_base_url : str; ec_max_response_bytes : N }.
Definition response_too_large : ExecutionError :=
  from_source (str! "client")
    (ExecutionError_new ResourceExhausted (str! "gateway response exceeded the configured byte limit")).
Definition is_success (status : N) : bool := ((200 <=? status) && (status <? 300))%N.

(** The chunks of the body, up to the limit. *)
Fixpoint read_body (limit : N) (bytes_ : bytes) (chunks : list bytes) (failure : option TransportError)
  : ExecutionResult bytes :=
  match chunks with
  | [] => match failure with Some e => Err (transport_error e) | None => Ok bytes_ end
  | chunk :: chunks =>
    if (u64_sat_sub limit (N.of_nat (length bytes_)) <? N.of_nat (length chunk))%N then Err response_too_large
    else read_body limit (bytes_ ++ chunk) chunks failure
  end.

Section client.
Context {W : Type} `{!World W, !HttpGateway W} {urls : Urls}.
Context `{!Json RequestEnvelope, !Json ResponseEnvelope, !Json ApiErrorBody}.
Context (self : ExecutionClient).

(** What the client makes of a response. *)
Definition accept (request : RequestEnvelope) (response : HttpResponse) : ExecutionResult OperationResult :=
  if match hr_content_length response with Some length => (ec_max_response_bytes self <? length)%N | None => false end
  then Err response_too_large
  else
    body ← read_body (ec_max_response_bytes self) [] (hr_chunks response) (hr_failure response);
    if negb (is_success (hr_status response))
    then Err (gateway_error (hr_status response) body (hr_request_id response))
    else
      match from_json body with
      | inl _ => Err (protocol_error (str! "gateway returned invalid execution JSON"))
      | inr envelope =>
        if negb (response_version envelope =? PROTOCOL_VERSION)%N
           || negb (bool_decide (response_id envelope = rq_request_id request))
        then Err (protocol_error (str! "gateway returned an uncorrelated execution response"))
        else
          match envelope with
          | ResponseSuccess _ _ result => Ok result
          | ResponseError _ _ error => Err error
          end
      end.
Definition send (url : str) (request : RequestEnvelope) : M W OperationResult := λ w,
  match to_json request with
  | inl _ => (Err (transport_error {| te_timeout := false; te_connect := false |}), w)
  | inr body =>
    match http_post url body w with
    | (inl e, w) => (Err (transport_error e), w)
    | (inr response, w) => (accept request response, w)
    end
  end.
Definition within_context (c : OperationContext) (request : RequestEnvelope) (m : M W OperationResult)
  : M W OperationResult := λ w,
  match race c request w with
  | Some (true, w) => (Err error_cancelled, w)
  | Some (false, w) => (Err error_deadline_exceeded, w)
  | None => m w
  end.
Definition exchange (c : OperationContext) (url : str) (operation : Operation) : M W OperationResult := λ w,
  let request := RequestEnvelope_new (generate_request_id w) operation in
  within_context c request (send url request) w.
Definition call (c : OperationContext) (url : str) (operation : Operation) : M W OperationResult :=
  _ ← checkpointM c;
  _ ← lift (validated (validate operation));
  exchange c url operation.

Record GatewayHostRuntime := { gh_url : str; gh_descriptor : ExecutionHostDescriptor }.
Definition connect_host (c : OperationContext) (host : ExecutionHostId) : M W GatewayHostRuntime :=
  _ ← checkpointM c;
  id ← lift (ok_or (ExecutionError_new InvalidRequest (str! "gateway host ID must be a UUID")) (parse_uuid (as_str host)));
  host ← lift (match string_id_new KExecutionHostId id with
               | inl v => Ok v
               | inr e => Err (from_validation_error e)
               end);
  url ← lift (ok_or (protocol_error (str! "gateway URL cannot contain path segments"))
                (extend_path (ec_base_url self) [str! "v1"; str! "hosts"; as_str host; str! "operations"]));
  result ← call c url Describe;
  match result with
  | ResHostDescriptor descriptor =>
    match validate descriptor with
    | inr _ => throw (protocol_error (str! "gateway returned an invalid host descriptor"))
    | inl _ =>
      if negb (bool_decide (host_id descriptor = host))
      then throw (protocol_error (str! "gateway descriptor does not match the requested host"))
      else mret {| gh_url := url; gh_descriptor := descriptor |}
    end
  | _ => throw (protocol_error (str! "gateway describe returned an unexpected result"))
  end.

(** ** The runtime ([runtime.rs]) *)

Definition unexpected_result (operation : str) : ExecutionError :=
  protocol_error (format! [str! "gateway returned an unexpected result for "; operation]).
Definition expect_result {A} (operation : str) (extract : OperationResult → option A) (r : OperationResult)
  : ExecutionResult A := ok_or (unexpected_result operation) (extract r).
Definition expect_unit (operation : str) (r : OperationResult) : ExecutionResult unit :=
  match r with ResUnit => Ok tt | _ => Err (unexpected_result operation) end.

Context (host : GatewayHostRuntime).
Definition host_call (c : OperationContext) (operation : Operation) : M W OperationResult := call c (gh_url host) operation.
Definition remote_filesystem : FileSystem W := {|
  fs_stat := λ c request, result ← host_call c (FilesystemStat request);
    lift (expect_result (str! "filesystem.stat") (λ r, match r with ResFileMetadata v => Some v | _ => None end) result);
  fs_read := λ c request, result ← host_call c (FilesystemRead request);
    lift (expect_result (str! "filesystem.read") (λ r, match r with ResReadFile v => Some v | _ => None end) result);
  fs_write := λ c request, result ← host_call c (FilesystemWrite request);
    lift (expect_result (str! "filesystem.write") (λ r, match r with ResWriteFile v => Some v | _ => None end) result);
  fs_create_directory := λ c request, result ← host_call c (FilesystemCreateDirectory request);
    lift (expect_unit (str! "filesystem.create_directory") result);
  fs_remove := λ c request, result ← host_call c (FilesystemRemove request);
    lift (expect_result (str! "filesystem.remove") (λ r, match r with ResRemovePath v => Some v | _ => None end) result);
  fs_list := λ c request, result ← host_call c (FilesystemList request);
    lift (expect_result (str! "filesystem.list") (λ r, match r with ResListDirectory v => Some v | _ => None end) result);
|}.
Definition remote_processes : ProcessRuntime W := {|
  pr_start := λ c request, result ← host_call c (ProcessStart request);
    lift (expect_result (str! "process.start") (λ r, match r with ResExecutionHandle v => Some v | _ => None end) result);
  pr_read := λ c request, result ← host_call c (ProcessRead request);
    lift (expect_result (str! "process.read") (λ r, match r with ResReadExecution v => Some v | _ => None end) result);
  pr_write := λ c request, result ← host_call c (ProcessWrite request);
    lift (expect_result (str! "process.write") (λ r, match r with ResProcessInput v => Some v | _ => None end) result);
  pr_resize := λ c request, result ← host_call c (ProcessResize request);
    lift (expect_unit (str! "process.resize") result);
  pr_signal := λ c request, result ← host_call c (ProcessSignal request);
    lift (expect_unit (str! "process.signal") result);
  pr_terminate := λ c request, result ← host_call c (ProcessTerminate request);
    lift (expect_result (str! "process.terminate") (λ r, match r with ResTerminateExecution v => Some v | _ => None end) result);
|}.
Definition remote_runtime : ExecutionRuntime W :=
  {| rt_descriptor := gh_descriptor host; rt_filesystem := remote_filesystem |}.
End client.
