(* ===== verification/RemoteLaws.v ===== *)
(** A runtime behind a gateway does what the runtime it stands for does: every call
    that answers is one call of the runtime with its answer, every other is an error
    after at most one call; and so it keeps every promise the runtime keeps. *)
From Stdlib Require Import ZifyBool.
From stdpp Require Import prelude gmap strings pretty list.
From S2P Require Import Prelude.
From S2P Require Import Text.
From S2P Require Import Core.
From S2P Require Import Host.
From S2P Require Import ProcessCore.
From S2P Require Import ProcessStream.
From S2P Require Import Wire.
From S2P Require Import WireCodec.
From S2P Require Import RemoteRuntime.

(** ** Responses *)

Lemma read_body_ok limit acc chunks failure b :
  (limit ≤ u64_max)%N → (N.of_nat (length acc) ≤ limit)%N → read_body limit acc chunks failure = Ok b →
  b = acc ++ concat chunks ∧ failure = None ∧ (N.of_nat (length b) ≤ limit)%N.
Proof.
  intros Hl. revert acc. induction chunks as [|chunk chunks IH]; intros acc Hacc; cbn [read_body].
  { destruct failure; [done|]. intros [= <-]. by rewrite app_nil_r. }
  unfold u64_sat_sub. destruct (N.ltb_spec (limit - N.of_nat (length acc)) (N.of_nat (length chunk))) as [|Hfits]; [done|].
  intros Hok. apply IH in Hok as (-> & Hf & Hb); [|rewrite length_app; lia]. cbn. by rewrite (assoc_L (++)).
Qed.
Lemma read_body_outcome limit acc chunks failure :
  (∃ e, read_body limit acc chunks failure = Err e) ∨ read_body limit acc chunks failure = Ok (acc ++ concat chunks).
Proof.
  revert acc. induction chunks as [|chunk chunks IH]; intros acc; cbn [read_body].
  { destruct failure; [left; by eexists|right; by rewrite app_nil_r]. }
  destruct (_ <? _)%N; [left; by eexists|]. destruct (IH (acc ++ chunk)) as [?|H]; [by left|right].
  rewrite H. cbn. by rewrite (assoc_L (++)).
Qed.

Lemma read_body_fits limit acc chunks :
  (N.of_nat (length (acc ++ concat chunks)) ≤ limit)%N → read_body limit acc chunks None = Ok (acc ++ concat chunks).
Proof.
  revert acc. induction chunks as [|chunk chunks IH]; intros acc Hlim; cbn [read_body concat]; [by rewrite app_nil_r|].
  cbn [concat] in Hlim. rewrite (assoc_L (++)) in Hlim. unfold u64_sat_sub.
  rewrite (proj2 (N.ltb_ge _ _)); [by rewrite IH, (assoc_L (++))|]. rewrite !length_app in Hlim. lia.
Qed.

Section remote.
Context {W : Type} `{!World W, !HttpGateway W}.
Context `{!Json RequestEnvelope, !Json ResponseEnvelope, !Json ApiErrorBody}.
Context (self : ExecutionClient).

(** An error, or the result in the envelope the body holds. *)
Lemma accept_outcome request response :
  (∃ e, accept self request response = Err e) ∨
  ∃ envelope, from_json (concat (hr_chunks response)) = inr envelope ∧
    response_version envelope = PROTOCOL_VERSION ∧ response_id envelope = rq_request_id request ∧
    is_success (hr_status response) = true ∧
    accept self request response
    = match envelope with ResponseSuccess _ _ result => Ok result | ResponseError _ _ error => Err error end.
Proof.
  unfold accept. destruct (match hr_content_length response with Some length => _ | None => _ end); [left; by eexists|].
  destruct (read_body_outcome (ec_max_response_bytes self) [] (hr_chunks response) (hr_failure response)) as [[e ->]| ->];
    [left; by eexists|]. step_result. cbn [app]. destruct (is_success _); [|left; by eexists]. cbn [negb].
  destruct (from_json (concat (hr_chunks response))) as [|envelope]; [left; by eexists|].
  destruct (N.eqb_spec (response_version envelope) PROTOCOL_VERSION) as [Hv|]; [|left; by eexists].
  case_bool_decide as Hid; [|left; by eexists]. right. by exists envelope.
Qed.

(** C16. Only the answer to the very request counts.  Whatever the gateway and the
    network do, a call succeeds only if its operation was valid and the caller was
    not cancelled, with the result of an envelope in this protocol's version that
    carries the id the call generated, from the body of a successful response which
    is no longer than the limit; in every other case it is an error, never a panic. *)
Theorem remote_call_correlated (c : OperationContext) (url : str) (operation : Operation) (w : W) :
  (ec_max_response_bytes self ≤ u64_max)%N →
  let w1 := (checkpointM c w).2 in
  let request := RequestEnvelope_new (generate_request_id w1) operation in
  (∃ e, (call self c url operation w).1 = Err e) ∨
  ∃ body response answer result, validate operation = inl tt ∧ (checkpointM c w).1 = Ok tt ∧
    to_json request = inr body ∧ http_post url body w1 = (inr response, (call self c url operation w).2) ∧
    (call self c url operation w).1 = Ok result ∧
    is_success (hr_status response) = true ∧ hr_failure response = None ∧
    answer = concat (hr_chunks response) ∧ (N.of_nat (length answer) ≤ ec_max_response_bytes self)%N ∧
    from_json answer = inr (response_success (generate_request_id w1) result).
Proof.
  intros Hlim w1 request. unfold call. destruct (checkpointM c w) as [[[]|e|] w1'] eqn:Hc; cbn [snd] in w1.
  3: { exfalso. pose proof (m_safe_checkpoint c w) as H. by rewrite Hc in H. }
  2: { left. exists e. by rewrite (M_bind_err _ _ _ _ _ Hc). }
  rewrite (M_bind_ok _ _ _ _ _ Hc). subst w1. unfold validated. destruct (validate operation) as [[]|err] eqn:Hv; [|left; by eexists].
  rewrite lift_bind. unfold exchange. fold request. unfold within_context. destruct (race c request w1') as [[[] w2]|];
    [left; by eexists..|]. unfold send. destruct (to_json request) as [|body] eqn:Hj; [left; by eexists|].
  destruct (http_post url body w1') as [[e|response] w2] eqn:Hp; [left; by eexists|]. cbn [fst snd].
  destruct (accept_outcome request response) as [?|(envelope & Hfrom & Hver & Hid & Hsucc & Hacc)]; [by left|].
  rewrite Hacc. destruct envelope as [v id result|v id error]; [|left; by eexists]. right.
  exists body, response, (concat (hr_chunks response)), result. cbn in Hver, Hid. subst v id.
  unfold accept in Hacc. destruct (match hr_content_length response with Some _ => _ | None => _ end); [done|].
  destruct (read_body _ _ _ _) as [b|e|] eqn:Hb; [|done..].
  destruct (read_body_ok _ [] _ _ _ Hlim (N.le_0_l _) Hb) as (-> & Hf & Hlen). split_and!; done.
Qed.

(** ** A faithful gateway

    It stands for a runtime of this world: a request it passes on is dispatched to the
    runtime once, under some context of its own, and the body of its answer is the
    response; when the exchange fails, on whichever way, or the caller stops waiting,
    the request was dispatched at most once. *)
Context `{!ExecutionRuntime W, !ProcessRuntime W}.
Definition serves (request : RequestEnvelope) (w w' : W) : Prop :=
  w' = w ∨ ∃ c', w' = (dispatch_request c' request w).2.
Definition unanswered (answer : TransportError + HttpResponse) : Prop :=
  match answer with
  | inl _ => True
  | inr response => is_success (hr_status response) = false ∨ is_Some (hr_failure response)
  end.
Class FaithfulGateway (url : str) : Prop := {
  post_answers : ∀ request body w, to_json request = inr body →
    (unanswered (http_post url body w).1 ∧ serves request w (http_post url body w).2) ∨
    ∃ c' response answer, dispatch_request c' request w = (Ok response, (http_post url body w).2) ∧
      (http_post url body w).1 = inr answer ∧ from_json (concat (hr_chunks answer)) = inr response;
  race_serves : ∀ c request w b w', race c request w = Some (b, w') → serves request w w';
}.

Lemma dispatch_request_world c request (w : W) :
  rq_version request = PROTOCOL_VERSION →
  (dispatch_request c request w).2 = (dispatch_operation c (rq_operation request) w).2.
Proof.
  intros Hv. unfold dispatch_request. rewrite Hv. cbn. unfold attempt, mbind, M_bind.
  by destruct (dispatch_operation _ _ _) as [[]].
Qed.
Lemma dispatch_request_success c request (w : W) v id result w' :
  rq_version request = PROTOCOL_VERSION → dispatch_request c request w = (Ok (ResponseSuccess v id result), w') →
  dispatch_operation c (rq_operation request) w = (Ok result, w').
Proof.
  intros Hv. unfold dispatch_request. rewrite Hv. cbn. unfold attempt, mbind, M_bind.
  destruct (dispatch_operation _ _ _) as [[r|e|] w1]; try done. cbn. by intros [= _ _ -> ->].
Qed.
Lemma dispatch_request_ok c id operation (w : W) result w' :
  dispatch_operation c operation w = (Ok result, w') →
  dispatch_request c (RequestEnvelope_new id operation) w = (Ok (response_success id result), w').
Proof. intros H. unfold dispatch_request. cbn. unfold attempt, mbind, M_bind. by rewrite H. Qed.
Lemma unanswered_accept request response :
  unanswered (inr response) → ∃ e, accept self request response = Err e.
Proof.
  intros Hu. unfold accept. destruct (match hr_content_length response with Some _ => _ | None => _ end); [by eexists|].
  destruct Hu as [Hu|Hu].
  - destruct (read_body_outcome (ec_max_response_bytes self) [] (hr_chunks response) (hr_failure response)) as [[e ->]| ->];
      [by eexists|]. step_result. rewrite Hu. by eexists.
  - destruct Hu as [e He]. rewrite He. generalize (@nil N). induction (hr_chunks response) as [|chunk chunks IH]; intros acc;
      cbn [read_body]; [by eexists|]. destruct (_ <? _)%N; [by eexists|apply IH].
Qed.

Context (url : str) `{!FaithfulGateway url}.
(** An exchange: an error after at most one dispatch, or the result of one. *)
Lemma exchange_outcome c operation (w : W) :
  ((∃ e, (exchange self c url operation w).1 = Err e) ∧
   ((exchange self c url operation w).2 = w ∨
    ∃ c', (exchange self c url operation w).2 = (dispatch_operation c' operation w).2)) ∨
  ∃ c' result, dispatch_operation c' operation w = (Ok result, (exchange self c url operation w).2) ∧
    (exchange self c url operation w).1 = Ok result.
Proof.
  unfold exchange. set (request := RequestEnvelope_new _ _).
  assert (Hserves : ∀ w', serves request w w' → w' = w ∨ ∃ c', w' = (dispatch_operation c' operation w).2).
  { intros w' [->|[c' ->]]; [by left|right]. exists c'. by apply (dispatch_request_world c' request). }
  unfold within_context. destruct (race c request w) as [[[] w1]|] eqn:Hr.
  1, 2: left; split; [by eexists|]; apply Hserves; by eapply race_serves.
  unfold send. destruct (to_json request) as [|body] eqn:Hj; [left; split; [by eexists|by left]|].
  destruct (post_answers request body w Hj) as [[Hu Hs]|(c' & response & answer & Hd & Ha & Hbody)].
  { left. destruct (http_post url body w) as [[e|response] w1]; cbn [fst snd] in *; (split; [|by apply Hserves]);
      [by eexists|by apply unanswered_accept]. }
  pose proof (dispatch_request_world c' request w eq_refl) as Hw. rewrite Hd in Hw. cbn [snd rq_operation] in Hw.
  destruct (http_post url body w) as [out w1]; cbn [fst snd] in *. subst out. cbn [fst snd].
  assert (Hmoved : w1 = w ∨ ∃ c', w1 = (dispatch_operation c' operation w).2) by (right; by exists c').
  destruct (accept_outcome request answer) as [He|(envelope & Hfrom & _ & _ & _ & Hacc)]; [by left|].
  rewrite Hbody in Hfrom. injection Hfrom as <-. rewrite Hacc. destruct response as [v id result|v id error].
  - right. exists c', result. split; [|done]. by apply (dispatch_request_success c' request w v id).
  - left. split; [by eexists|done].
Qed.

(** A call: the same, of an operation that is valid. *)
Lemma call_outcome c operation (w : W) :
  let w1 := (checkpointM c w).2 in
  ((∃ e, (call self c url operation w).1 = Err e) ∧
   ((call self c url operation w).2 = w1 ∨
    validate operation = inl tt ∧ ∃ c', (call self c url operation w).2 = (dispatch_operation c' operation w1).2)) ∨
  validate operation = inl tt ∧ ∃ c' result,
    dispatch_operation c' operation w1 = (Ok result, (call self c url operation w).2) ∧
    (call self c url operation w).1 = Ok result.
Proof.
  cbv zeta. pose proof (m_safe_checkpoint c w) as Hsafe. unfold call.
  destruct (checkpointM c w) as [[[]|e|] w1] eqn:Hc; [| |done]; cbn [snd].
  2: { left. rewrite (M_bind_err _ _ _ _ _ Hc). split; [by eexists|by left]. }
  rewrite (M_bind_ok _ _ _ _ _ Hc). unfold validated. destruct (validate operation) as [[]|err] eqn:Hv.
  2: { left. split; [by eexists|by left]. }
  rewrite lift_bind. destruct (exchange_outcome c operation w1) as [[He [Hw|Hw]]|H]; [left..|by right].
  - split; [done|by left].
  - split; [done|by right].
Qed.

(** What a call of the remote runtime comes to, beside the call [local] of the runtime. *)
Definition delivers {A} (c : OperationContext) (remote : M W A) (local : OperationContext → M W A) : Prop :=
  ∀ w, let w1 := (checkpointM c w).2 in
  (∃ c' a, (checkpointM c' w1).1 = Ok tt ∧ local c' (checkpointM c' w1).2 = (Ok a, (remote w).2) ∧ (remote w).1 = Ok a) ∨
  ((∃ e, (remote w).1 = Err e) ∧
   ((remote w).2 = w1 ∨ ∃ c', (remote w).2 = (checkpointM c' w1).2 ∨ (remote w).2 = (local c' (checkpointM c' w1).2).2)).

Lemma dispatched_world {A} (local : M W A) (make : A → OperationResult) c' (w : W) :
  ((_ ← checkpointM c'; M_map make local) w).2 = (checkpointM c' w).2 ∨
  ((_ ← checkpointM c'; M_map make local) w).2 = (local (checkpointM c' w).2).2.
Proof.
  pose proof (m_safe_checkpoint c' w) as Hsafe. destruct (checkpointM c' w) as [[[]|e|] w1] eqn:Hc; [| |done].
  - rewrite (M_bind_ok _ _ _ _ _ Hc). right. cbn [snd]. unfold M_map, mbind, M_bind. by destruct (local w1) as [[]].
  - rewrite (M_bind_err _ _ _ _ _ Hc). by left.
Qed.
Lemma host_delivers {A} c d operation (make : A → OperationResult) (extract : OperationResult → ExecutionResult A)
    (local : OperationContext → M W A) :
  (∀ c', dispatch_operation c' operation
         = (_ ← lift (validated (validate operation)); _ ← checkpointM c'; M_map make (local c'))) →
  (∀ a, extract (make a) = Ok a) →
  delivers c (result ← host_call self {| gh_url := url; gh_descriptor := d |} c operation; lift (extract result)) local.
Proof.
  intros Hdisp Hext w w1. unfold host_call. cbn [gh_url].
  assert (Hlocal : validate operation = inl tt → ∀ c', dispatch_operation c' operation w1 =
    (_ ← checkpointM c'; M_map make (local c')) w1).
  { intros Hv c'. rewrite Hdisp. unfold validated. by rewrite Hv, lift_bind. }
  pose proof (call_outcome c operation w) as Hcall. cbv zeta in Hcall. fold w1 in Hcall.
  destruct (call self c url operation w) as [out w2] eqn:Hrun. cbn [fst snd] in Hcall.
  destruct Hcall as [[[e ->] Hw]|(Hv & c' & result & Hd & ->)].
  - right. rewrite (M_bind_err _ _ _ _ _ Hrun). cbn [fst snd]. split; [by eexists|].
    destruct Hw as [->|(Hv & c' & ->)]; [by left|right]. exists c'. rewrite (Hlocal Hv).
    exact (dispatched_world (local c') make c' w1).
  - left. rewrite (M_bind_ok _ _ _ _ _ Hrun).
    rewrite (Hlocal Hv) in Hd. apply M_bind_ok_inv in Hd as ([] & w3 & Hc' & Hd). unfold M_map in Hd.
    apply M_bind_ok_inv in Hd as (a & w4 & Ha & Hd). injection Hd as <- <-.
    exists c', a. rewrite Hc'. cbn [fst snd]. split; [done|]. unfold lift. by rewrite Hext.
Qed.

Context (d : ExecutionHostDescriptor).
Abbreviation host := {| gh_url := url; gh_descriptor := d |}.
Abbreviation remote_files := (remote_filesystem self host).
Abbreviation remote_executions := (remote_processes self host).
Lemma remote_write_delivers c request : delivers c (fs_write (FileSystem := remote_files) c request) (λ c', fs_write c' request).
Proof. by apply (host_delivers c d (FilesystemWrite request) ResWriteFile). Qed.
Lemma remote_remove_delivers c request :
  delivers c (fs_remove (FileSystem := remote_files) c request) (λ c', fs_remove c' request).
Proof. by apply (host_delivers c d (FilesystemRemove request) ResRemovePath). Qed.
Lemma remote_stat_delivers c request : delivers c (fs_stat (FileSystem := remote_files) c request) (λ c', fs_stat c' request).
Proof. by apply (host_delivers c d (FilesystemStat request) ResFileMetadata). Qed.
Lemma remote_read_delivers c request : delivers c (fs_read (FileSystem := remote_files) c request) (λ c', fs_read c' request).
Proof. by apply (host_delivers c d (FilesystemRead request) ResReadFile). Qed.
Lemma remote_poll_delivers c request :
  delivers c (pr_read (ProcessRuntime := remote_executions) c request) (λ c', pr_read c' request).
Proof. by apply (host_delivers c d (ProcessRead request) ResReadExecution). Qed.
Lemma remote_input_delivers c request :
  delivers c (pr_write (ProcessRuntime := remote_executions) c request) (λ c', pr_write c' request).
Proof. by apply (host_delivers c d (ProcessWrite request) ResProcessInput). Qed.
Lemma remote_signal_delivers c request :
  delivers c (pr_signal (ProcessRuntime := remote_executions) c request) (λ c', pr_signal c' request).
Proof. by apply (host_delivers c d (ProcessSignal request) (λ _, ResUnit)); [|intros []]. Qed.

(** C14. The gateway is transparent.  Every call of the remote runtime is one call of
    the runtime behind the gateway, with its result, made once and after the checks of
    the caller's context and of the server's; or it is an error, and that call was made
    at most once. *)
Theorem remote_delivers (c : OperationContext) :
  (∀ r, delivers c (fs_stat (FileSystem := remote_files) c r) (λ c', fs_stat c' r)) ∧
  (∀ r, delivers c (fs_read (FileSystem := remote_files) c r) (λ c', fs_read c' r)) ∧
  (∀ r, delivers c (fs_write (FileSystem := remote_files) c r) (λ c', fs_write c' r)) ∧
  (∀ r, delivers c (fs_create_directory (FileSystem := remote_files) c r) (λ c', fs_create_directory c' r)) ∧
  (∀ r, delivers c (fs_remove (FileSystem := remote_files) c r) (λ c', fs_remove c' r)) ∧
  (∀ r, delivers c (fs_list (FileSystem := remote_files) c r) (λ c', fs_list c' r)) ∧
  (∀ r, delivers c (pr_start (ProcessRuntime := remote_executions) c r) (λ c', pr_start c' r)) ∧
  (∀ r, delivers c (pr_read (ProcessRuntime := remote_executions) c r) (λ c', pr_read c' r)) ∧
  (∀ r, delivers c (pr_write (ProcessRuntime := remote_executions) c r) (λ c', pr_write c' r)) ∧
  (∀ r, delivers c (pr_resize (ProcessRuntime := remote_executions) c r) (λ c', pr_resize c' r)) ∧
  (∀ r, delivers c (pr_signal (ProcessRuntime := remote_executions) c r) (λ c', pr_signal c' r)) ∧
  (∀ r, delivers c (pr_terminate (ProcessRuntime := remote_executions) c r) (λ c', pr_terminate c' r)).
Proof.
  split_and!; intros r.
  - apply remote_stat_delivers.
  - apply remote_read_delivers.
  - apply remote_write_delivers.
  - by apply (host_delivers c d (FilesystemCreateDirectory r) (λ _, ResUnit)); [|intros []].
  - apply remote_remove_delivers.
  - by apply (host_delivers c d (FilesystemList r) ResListDirectory).
  - by apply (host_delivers c d (ProcessStart r) ResExecutionHandle).
  - apply remote_poll_delivers.
  - apply remote_input_delivers.
  - by apply (host_delivers c d (ProcessResize r) (λ _, ResUnit)); [|intros []].
  - apply remote_signal_delivers.
  - by apply (host_delivers c d (ProcessTerminate r) ResTerminateExecution).
Qed.

(** ** Promises kept *)

Lemma delivers_safe {A} c (remote : M W A) local : delivers c remote local → m_safe remote.
Proof. intros H w. by destruct (H w) as [(c' & a & _ & _ & ->)|[[e ->] _]]. Qed.
(** A relation that the checks and the local call move along, the remote call does. *)
Lemma delivers_within {A} c (remote : M W A) local R `{!PreOrder R} :
  (∀ c', m_within R (checkpointM c')) → (∀ c', m_within R (local c')) → delivers c remote local → m_within R remote.
Proof.
  intros Ho Hl H w. specialize (H w). cbv zeta in H. pose proof (Ho c w) as H1. set (w1 := (checkpointM c w).2) in *.
  destruct H as [(c' & a & _ & Ha & _)|[_ [->|[c' [->| ->]]]]]; [|done|by trans w1; [done|apply Ho]|].
  - trans w1; [done|]. trans (checkpointM c' w1).2; [apply Ho|]. pose proof (Hl c' (checkpointM c' w1).2) as H2. by rewrite Ha in H2.
  - trans w1; [done|]. trans (checkpointM c' w1).2; [apply Ho|]. apply Hl.
Qed.

Section replay.
Context {S A : Type} (store : W → S).
Context (Hobserve : ∀ c w, store (checkpointM c w).2 = store w).
Context (remote local : OperationContext → M W A) (Hd : ∀ c, delivers c (remote c) local).
Context (Hreplay : ∀ c c' w1 w2 r w3, local c w1 = (Ok r, w2) → store w3 = store w2 →
  store (local c' w3).2 = store w2 ∧ ∀ r', (local c' w3).1 = Ok r' → r' = r).
Lemma delivers_replay c c' w1 w2 r w3 :
  remote c w1 = (Ok r, w2) → store w3 = store w2 →
  store (remote c' w3).2 = store w2 ∧ ∀ r', (remote c' w3).1 = Ok r' → r' = r.
Proof using Hobserve Hd Hreplay.
  intros H1 H3. specialize (Hd c w1) as Hfirst. cbv zeta in Hfirst. rewrite H1 in Hfirst. cbn [fst snd] in Hfirst.
  destruct Hfirst as [(c1 & a & _ & Ha & [= <-])|[[e He] _]]; [|done].
  assert (Hagain : ∀ c2, store (checkpointM c2 (checkpointM c' w3).2).2 = store w2) by (intros; by rewrite !Hobserve).
  pose proof (λ c2, Hreplay _ c2 _ _ _ _ Ha (Hagain c2)) as Hr.
  specialize (Hd c' w3) as Hsecond. cbv zeta in Hsecond.
  destruct Hsecond as [(c2 & a & _ & Ha2 & Hok)|[[e He] Hw]].
  - destruct (Hr c2) as [Hs Hres]. rewrite Ha2 in Hs, Hres. split; [done|]. intros r'. rewrite Hok. intros [= ->]. by apply Hres.
  - rewrite He. split; [|done]. destruct Hw as [->|[c2 [->| ->]]]; [by rewrite Hobserve|done|apply Hr].
Qed.
End replay.

(** A gateway on which, in a calm world, a read of a page no larger than [max] is
    answered: the caller is not cancelled, the request and a response of that size can
    be encoded within the limit, and the runtime is called in a calm world as well. *)
Class ReliableGateway (max : N) (calm : OperationContext → W → Prop) : Prop := {
  calm_answers : ∀ c request page w, calm c w → rq_operation request = ProcessRead page → (re_max_bytes page ≤ max)%N →
    race c request w = None ∧ ∃ body c' result answer w',
      to_json request = inr body ∧ http_post url body w = (inr answer, w') ∧
      calm c' w ∧ (calm c' w' → calm c w') ∧ dispatch_request c' request w = (Ok result, w') ∧
      from_json (concat (hr_chunks answer)) = inr result ∧ is_success (hr_status answer) = true ∧
      hr_content_length answer = None ∧ hr_failure answer = None ∧
      (N.of_nat (length (concat (hr_chunks answer))) ≤ N.min (ec_max_response_bytes self) u64_max)%N;
}.

Section pages.
Context (generation : SupervisorGenerationId) (id : ExecutionId) (max : N) (within : W → Prop)
  (shows : W → StreamView → Prop) (calm : OperationContext → W → Prop)
  `{!ReadsPages generation id max within shows calm}.

(** What a local call shows, the remote call does. *)
Lemma delivers_shows {A} c (remote : M W A) local (Q : StreamView → A → Prop) w v :
  (∀ c' w v, shows w v → within (local c' w).2 →
    ∃ v', shows (local c' w).2 v' ∧ grows v v' ∧ ∀ a, (local c' w).1 = Ok a → Q v' a) →
  delivers c remote local → shows w v → within (remote w).2 →
  ∃ v', shows (remote w).2 v' ∧ grows v v' ∧ ∀ a, (remote w).1 = Ok a → Q v' a.
Proof using ReadsPages0.
  intros Hl H Hs Hin. specialize (H w). cbv zeta in H. pose proof (pages_observe (ReadsPages := ReadsPages0)) as Ho.
  pose proof (Ho c w v Hs) as H1. set (w1 := (checkpointM c w).2) in *.
  destruct H as [(c' & a & _ & Ha & Hok)|[[e He] Hw]].
  - destruct (Hl c' _ v (Ho c' _ _ H1)) as (v' & H2 & Hg & HQ); rewrite Ha in *; [done|].
    exists v'. split; [done|]. split; [done|]. intros a'. rewrite Hok. intros [= <-]. by apply HQ.
  - rewrite He. destruct Hw as [->|[c' [->|Hw]]]; [exists v; split_and!; [done|done|done]| |].
    + exists v. split_and!; [by apply Ho|done|done].
    + destruct (Hl c' _ v (Ho c' _ _ H1)) as (v' & H2 & Hg & HQ); [by rewrite Hw in Hin|].
      rewrite Hw. by exists v'.
Qed.
Lemma validate_page (page : ReadExecutionRequest) :
  (0 < re_max_bytes page)%N → re_wait_ms page ≠ Some 0%N → validate (ProcessRead page) = inl tt.
Proof.
  intros Hmax Hwait. cbn. unfold validate, ReadExecutionRequest_validate.
  rewrite (proj2 (N.eqb_neq _ _)) by lia. by rewrite bool_decide_false.
Qed.
Lemma remote_calm_read `{!ReliableGateway max calm} c page w v :
  calm c w → shows w v → closed_units (sv_units v) = true → re_execution_id page = id → re_generation page = generation →
  (0 < re_max_bytes page ≤ N.min max u64_max)%N → re_wait_ms page ≠ Some 0%N →
  (re_after_sequence page ≤ N.of_nat (length (sv_units v)))%N →
  let run := pr_read (ProcessRuntime := remote_executions) c page w in
  within run.2 ∧ (∃ res, run.1 = Ok res) ∧ calm c run.2.
Proof using ReadsPages0.
  intros Hcalm Hs Hclosed Hid Hgen Hmax Hwait Hafter run.
  pose proof (pages_calm_observe (ReadsPages := ReadsPages0)) as Ho. pose proof (pages_observe (ReadsPages := ReadsPages0)) as Hv.
  destruct (Ho c w Hcalm) as [Hok Hcalm1]. specialize (Hv c w v Hs) as Hs1. subst run.
  destruct (checkpointM c w) as [out w1] eqn:Hc. cbn [fst snd] in *. subst out.
  set (request := RequestEnvelope_new (generate_request_id w1) (ProcessRead page)).
  destruct (calm_answers (ReliableGateway := ReliableGateway0) c request page w1 Hcalm1 eq_refl ltac:(lia))
    as (Hrace & body & c' & result & answer & w' & Hj & Hp & Hcalm' & Hback & Hd & Hf & Hsucc & Hlen & Hfail & Hfit).
  destruct (dispatch_correlated _ _ _ _ _ Hd) as [Hver Hrid].
  destruct (Ho c' w1 Hcalm') as [Hok2 Hcalm2]. specialize (Hv c' w1 v Hs1) as Hs2.
  destruct (checkpointM c' w1) as [out w2] eqn:Hc2. cbn [fst snd] in *. subst out.
  destruct (pages_calm_read (ReadsPages := ReadsPages0) c' page w2 v Hcalm2 Hs2 Hclosed Hid Hgen Hmax Hwait Hafter)
    as (Hin & (res & Hres) & Hcalm3).
  assert (Hop : dispatch_operation c' (ProcessRead page) w1 = (Ok (ResReadExecution res), (pr_read c' page w2).2)).
  { unfold dispatch_operation, validated. rewrite validate_page, lift_bind, (M_bind_ok _ _ _ _ _ Hc2) by (done || lia).
    unfold M_map, mbind, M_bind. destruct (pr_read c' page w2) as [out w3]. cbn in Hres |- *. by subst out. }
  assert (Hrun : dispatch_request c' request w1
    = (Ok (response_success (generate_request_id w1) (ResReadExecution res)), (pr_read c' page w2).2)).
  { by apply dispatch_request_ok. }
  rewrite Hrun in Hd. injection Hd as <- <-.
  assert (Hcall : call self c url (ProcessRead page) w = (Ok (ResReadExecution res), (pr_read c' page w2).2)).
  { unfold call. rewrite (M_bind_ok _ _ _ _ _ Hc), validate_page by (done || lia). cbn [validated]. rewrite lift_bind.
    unfold exchange, within_context. fold request. rewrite Hrace. unfold send. rewrite Hj, Hp. f_equal.
    unfold accept. rewrite Hlen, Hfail, read_body_fits by (cbn [app]; lia). step_result. cbn [app]. rewrite Hsucc, Hf.
    cbn. by rewrite bool_decide_true. }
  unfold pr_read, remote_processes, host_call. cbn [gh_url]. rewrite (M_bind_ok _ _ _ _ _ Hcall).
  cbn. split_and!; [done|by eexists|by apply Hback].
Qed.
Lemma remote_pages (calm' : OperationContext → W → Prop) :
  (∀ c w, calm' c w → (checkpointM c w).1 = Ok () ∧ calm' c (checkpointM c w).2) →
  (∀ c page w v, calm' c w → shows w v → closed_units (sv_units v) = true → re_execution_id page = id →
    re_generation page = generation → (0 < re_max_bytes page ≤ N.min max u64_max)%N → re_wait_ms page ≠ Some 0%N →
    (re_after_sequence page ≤ N.of_nat (length (sv_units v)))%N →
    let run := pr_read (ProcessRuntime := remote_executions) c page w in
    within run.2 ∧ (∃ res, run.1 = Ok res) ∧ calm' c run.2) →
  ReadsPages (ProcessRuntime0 := remote_executions) generation id max within shows calm'.
Proof using FaithfulGateway0 ReadsPages0.
  intros Hobserve Hread. split.
  - intros c r w v Hs Hin Hr.
    destruct (delivers_shows c _ _ (λ v' res, (0 < re_max_bytes r ≤ u64_max)%N → stream_page v' (re_after_sequence r) res) w v
      (λ c' w v Hs Hin, let '(ex_intro _ v' (conj H1 (conj H2 H3))) := pages_read c' r w v Hs Hin Hr in
         ex_intro _ v' (conj H1 (conj H2 (λ res Hok Hb, H3 res Hb Hok)))) (remote_poll_delivers c r) Hs Hin) as (v' & H1 & H2 & H3).
    exists v'. split_and!; [done|done|]. intros res Hb Hok. by apply H3.
  - intros c r w v Hs Hin. destruct (delivers_shows c _ _ (λ _ _, True) w v
      (λ c' w v Hs Hin, let '(ex_intro _ v' (conj H1 H2)) := pages_write c' r w v Hs Hin in
         ex_intro _ v' (conj H1 (conj H2 (λ _ _, I)))) (remote_input_delivers c r) Hs Hin) as (v' & H1 & H2 & _). by exists v'.
  - intros c r w v Hs Hin. destruct (delivers_shows c _ _ (λ _ _, True) w v
      (λ c' w v Hs Hin, let '(ex_intro _ v' (conj H1 H2)) := pages_signal c' r w v Hs Hin in
         ex_intro _ v' (conj H1 (conj H2 (λ _ _, I)))) (remote_signal_delivers c r) Hs Hin) as (v' & H1 & H2 & _). by exists v'.
  - apply (pages_observe (ReadsPages := ReadsPages0)).
  - apply (pages_last (ReadsPages := ReadsPages0)).
  - apply (pages_exit (ReadsPages := ReadsPages0)).
  - apply (pages_closed (ReadsPages := ReadsPages0)).
  - done.
  - done.
Qed.
(** What a read shows never depends on the gateway; that it succeeds, does. *)
#[export] Instance remote_reads_pages : ReadsPages (ProcessRuntime0 := remote_executions) generation id max within shows (λ _ _, False).
Proof using FaithfulGateway0 ReadsPages0. by apply remote_pages. Qed.
#[export] Instance reliable_reads_pages `{!ReliableGateway max calm} :
  ReadsPages (ProcessRuntime0 := remote_executions) generation id max within shows calm.
Proof using FaithfulGateway0 ReadsPages0.
  apply remote_pages; [apply (pages_calm_observe (ReadsPages := ReadsPages0))|apply remote_calm_read].
Qed.
End pages.

#[export] Instance remote_safe : RuntimeSafe W (ExecutionRuntime0 := remote_runtime self host).
Proof.
  split; intros c r; cbn; eapply delivers_safe;
    [apply remote_stat_delivers|apply remote_read_delivers|apply remote_write_delivers|apply remote_remove_delivers].
Qed.
#[export] Instance remote_reads_within R : ReadsWithin R → ReadsWithin (ExecutionRuntime0 := remote_runtime self host) R.
Proof.
  intros H. pose proof (reads_preorder (ReadsWithin := H)) as HR. split; [done|apply H| |]; intros c r.
  - exact (delivers_within c _ _ R observe_within (λ c', stat_within (ReadsWithin := H) c' r) (remote_stat_delivers c r)).
  - exact (delivers_within c _ _ R observe_within (λ c', read_within (ReadsWithin := H) c' r) (remote_read_delivers c r)).
Qed.
#[export] Instance remote_replay_safe {S} (store : W → S) :
  ReplaySafe store → ReplaySafe (ExecutionRuntime0 := remote_runtime self host) store.
Proof.
  intros H. split; [apply H| |]; intros c c' req w1 w2 r w3 Hgen.
  - apply (delivers_replay store (observe_store (ReplaySafe := H)) (λ c, fs_write (FileSystem := remote_files) c req)
      (λ c, fs_write c req) (λ c, remote_write_delivers c req)). intros. by eapply (write_replay (ReplaySafe := H)).
  - apply (delivers_replay store (observe_store (ReplaySafe := H)) (λ c, fs_remove (FileSystem := remote_files) c req)
      (λ c, fs_remove c req) (λ c, remote_remove_delivers c req)). intros. by eapply (remove_replay (ReplaySafe := H)).
Qed.

(** C15. A remote runtime can be relied on like a local one.  Behind any faithful
    gateway the calls return, observing moves the world only as the runtime's does, a
    mutation repeated after a lost reply changes nothing and repeats its result, and
    every page of an execution's output is a page of its stream, with growth only. *)
Theorem remote_keeps_promises :
  RuntimeSafe W (ExecutionRuntime0 := remote_runtime self host) ∧
  (∀ R, ReadsWithin R → ReadsWithin (ExecutionRuntime0 := remote_runtime self host) R) ∧
  (∀ (S : Type) (store : W → S), ReplaySafe store → ReplaySafe (ExecutionRuntime0 := remote_runtime self host) store) ∧
  (∀ generation id max within shows calm, ReadsPages generation id max within shows calm →
    ReadsPages (ProcessRuntime0 := remote_executions) generation id max within shows (λ _ _, False)).
Proof.
  split_and!.
  - apply remote_safe.
  - apply remote_reads_within.
  - intros S store. apply remote_replay_safe.
  - intros generation id max within shows calm H. by apply (remote_reads_pages _ _ _ _ _ calm).
Qed.
End remote.
