(* ===== verification/SupervisorServer.v ===== *)
(** The socket of a supervisor: the server answers the requests of a connection one
    after the other ([execution-supervisor/src/server.rs]), and a client sends it one
    request and takes the response ([execution-supervisor/src/client.rs]). *)
From Stdlib Require Import ZifyBool.
From stdpp Require Import prelude gmap strings pretty list.
From S2P Require Import Prelude.
From S2P Require Import Text.
From S2P Require Import Core.
From S2P Require Import Host.
From S2P Require Import ProcessCore.
From S2P Require Import Wire.
From S2P Require Import WireCodec.

(** An error with the contexts it was given, the outermost first. *)
Inductive SocketError :=
  | SocketContext (context : str) (source : WireCodecError)
  | SocketMessage (message : str).

Section socket.
Context {W R X : Type} `{!World W, !ExecutionRuntime W, !ProcessRuntime W, !BufRead R, !Writer X}.
Context `{!Json RequestEnvelope, !Json ResponseEnvelope}.

(** ** The server *)

(** Where the shutdown may cut a connection: in the middle of a request, of its
    execution, or of a response. *)
Class Shutdown := {
  cut_read : R → option R;
  cut_dispatch : OperationContext → RequestEnvelope → W → option W;
  cut_write : ResponseEnvelope → X → option X;
}.
Context `{!Shutdown}.
(** [fuel] counts the requests and [read_fuel] the pieces of one; [tokens] are those of
    the operations, children of the connection's. *)
Fixpoint handle_connection (fuel read_fuel : nat) (tokens : nat → N) (shutdown : OperationContext) (i : nat)
    (w : W) (r : R) (x : X) : result SocketError unit * (W * R * X) :=
  match fuel with
  | 0 => (Panic, (w, r, x))
  | S fuel =>
    match cut_read r with
    | Some r => (Ok tt, (w, r, x))
    | None =>
      match read_json NdjsonCodec_default read_fuel r with
      | (Err e, r) => (Err (SocketContext (str! "read supervisor request") e), (w, r, x))
      | (Panic, r) => (Panic, (w, r, x))
      | (Ok None, r) => (Ok tt, (w, r, x))
      | (Ok (Some request), r) =>
        let operation := child shutdown (tokens i) in
        match cut_dispatch operation request w with
        | Some w => (Ok tt, (w, r, x))
        | None =>
          match dispatch_request operation request w with
          | (Ok response, w) =>
            match cut_write response x with
            | Some x => (Ok tt, (w, r, x))
            | None =>
              match write_json NdjsonCodec_default response x with
              | (Ok _, x) => handle_connection fuel read_fuel tokens shutdown (S i) w r x
              | (Err e, x) => (Err (SocketContext (str! "write supervisor response") e), (w, r, x))
              | (Panic, x) => (Panic, (w, r, x))
              end
            end
          | (_, w) => (Panic, (w, r, x))
          end
        end
      end
    end
  end.

(** ** The client *)

(** What becomes of the response that was read. *)
Definition check_response (request : RequestEnvelope) (response : option ResponseEnvelope)
  : result SocketError ResponseEnvelope :=
  match response with
  | None => Err (SocketMessage (str! "supervisor closed the connection before sending a response"))
  | Some response =>
    if negb (bool_decide (response_id response = rq_request_id request))
    then Err (SocketMessage (format! [str! "supervisor response request ID "; request_id_str (response_id response);
                                      str! " did not match "; request_id_str (rq_request_id request)]))
    else if negb (response_version response =? PROTOCOL_VERSION)%N
    then Err (SocketMessage (format! [str! "supervisor response used protocol version "; show_N (response_version response);
                                      str! "; expected "; show_N PROTOCOL_VERSION]))
    else Ok response
  end.
Definition send_request (request : RequestEnvelope) (x : X) : result SocketError unit * X :=
  match write_json NdjsonCodec_default request x with
  | (Err e, x) => (Err (SocketContext (str! "write supervisor request") e), x)
  | (Panic, x) => (Panic, x)
  | (Ok _, x) => (Ok tt, x)
  end.
Definition receive_response (read_fuel : nat) (request : RequestEnvelope) (r : R) : result SocketError ResponseEnvelope * R :=
  match read_json NdjsonCodec_default read_fuel r with
  | (Err e, r) => (Err (SocketContext (str! "read supervisor response") e), r)
  | (Panic, r) => (Panic, r)
  | (Ok response, r) => (check_response request response, r)
  end.
(** A call over a connection of its own: [pipe] carries what one side has written to
    the reader of the other.  The server sees the end of the stream after the request. *)
Definition socket_call (pipe : X → R) (fuel read_fuel : nat) (tokens : nat → N) (shutdown : OperationContext)
    (request : RequestEnvelope) (x : X) (w : W) : result SocketError ResponseEnvelope * W :=
  match send_request request x with
  | (Err e, _) => (Err e, w)
  | (Panic, _) => (Panic, w)
  | (Ok _, sent) =>
    let '(_, (w, _, answered)) := handle_connection fuel read_fuel tokens shutdown 0 w (pipe sent) x in
    ((receive_response read_fuel request (pipe answered)).1, w)
  end.

(** ** Answers *)

(** The responses to some requests, executed in order. *)
Fixpoint answers (tokens : nat → N) (shutdown : OperationContext) (i : nat) (requests : list RequestEnvelope) (w : W)
  : option (list ResponseEnvelope * W) :=
  match requests with
  | [] => Some ([], w)
  | request :: requests =>
    match dispatch_request (child shutdown (tokens i)) request w with
    | (Ok response, w) => '(responses, w) ← answers tokens shutdown (S i) requests w; Some (response :: responses, w)
    | _ => None
    end
  end.
Context (rest : R → bytes) `{!BufReadLaws rest} (written : X → bytes) `{!WriterLaws written}.
Context `{!JsonLaws RequestEnvelope, !JsonLaws ResponseEnvelope}.
Abbreviation codec := NdjsonCodec_default.
Abbreviation line_of := (λ value line, to_json value = inr line ∧ over_limit codec [] line = false).

Lemma handle_lines fuel read_fuel tokens shutdown i requests lines responses w w' r x :
  (∀ r, cut_read r = None) → (∀ c q w, cut_dispatch c q w = None) → (∀ q x, cut_write q x = None) →
  length requests < fuel → length (rest r) < read_fuel →
  Forall2 line_of requests lines → rest r = concat ((.++ [NL]) <$> lines) →
  answers tokens shutdown i requests w = Some (responses, w') →
  let run := handle_connection fuel read_fuel tokens shutdown i w r x in
  (∃ e, run.1 = Err e) ∨
  run.1 = Ok tt ∧ run.2.1.1 = w' ∧ ∃ lines', Forall2 line_of responses lines' ∧
    written run.2.2 = written x ++ concat ((.++ [NL]) <$> lines').
Proof using BufReadLaws0 WriterLaws0 JsonLaws0 JsonLaws1.
  intros Hr Hd Hw Hfuel. revert i requests lines responses w r x Hfuel.
  induction fuel as [|fuel IH]; intros i requests lines responses w r x Hfuel Hread Hlines Hrest Hans; [lia|].
  cbn [handle_connection]. rewrite Hr. destruct Hlines as [|request line requests lines [Hj Hl] Hlines].
  - destruct (read_json_end codec rest (A:=RequestEnvelope) read_fuel r Hread Hrest) as [(e & r' & ->)|(r' & ->)]; [left; by eexists|].
    cbn in Hans. injection Hans as <- <-. right. split_and!; [done|done|]. exists []. split; [constructor|]. cbn. by rewrite app_nil_r.
  - cbn [fmap list_fmap concat] in Hrest. rewrite <-(assoc_L (++)) in Hrest. cbn [app] in Hrest.
    destruct (read_json_line codec rest read_fuel r request line _ Hread Hj Hl Hrest) as [(e & r' & ->)|(r' & -> & Hr')];
      [left; by eexists|].
    cbv zeta. rewrite Hd. cbn [answers] in Hans. destruct (dispatch_request _ request w) as [[response|e|] w1]; [|done|done].
    rewrite Hw. destruct (answers tokens shutdown (S i) requests w1) as [[responses1 w2]|] eqn:Hrec; [|done].
    cbn in Hans. injection Hans as <- <-.
    destruct (write_json codec response x) as [[[]|e|] x1] eqn:Hwrite; [|left; by eexists|].
    2: { pose proof (write_json_returns codec response x) as Hret. by rewrite Hwrite in Hret. }
    destruct (write_json_ok codec written response x x1 Hwrite) as (out & Hout & Hlim & Hx1).
    destruct (IH (S i) requests lines responses1 w1 r' x1) as [[e He]|(Hok & Hworld & lines' & Hlines' & Hwritten)];
      [cbn in Hfuel; lia| |done|by rewrite Hr'|done|left; by exists e|].
    { rewrite Hr'. rewrite Hrest, length_app in Hread. cbn in Hread. lia. }
    right. split_and!; [done|done|]. exists (out :: lines'). split; [by constructor|]. rewrite Hwritten, Hx1. cbn. by rewrite <-!(assoc_L (++)).
Qed.

(** C18. Requests of a connection are answered in order.  When the stream holds some
    requests and no shutdown cuts in, the server executes them one after the other, each
    in the world the last one left, writes exactly their responses in their order, and
    returns at the end of the stream, unless the input or the output fails. *)
Theorem requests_answered_in_order (fuel read_fuel : nat) (tokens : nat → N) (shutdown : OperationContext)
    (requests : list RequestEnvelope) (responses : list ResponseEnvelope) (w w' : W) (sent0 sent x : X) (r : R) :
  (∀ r, cut_read r = None) → (∀ c q w, cut_dispatch c q w = None) → (∀ q x, cut_write q x = None) →
  written sent0 = [] → write_values codec requests sent0 = (Ok tt, sent) → rest r = written sent →
  length requests < fuel → length (rest r) < read_fuel →
  answers tokens shutdown 0 requests w = Some (responses, w') →
  let run := handle_connection fuel read_fuel tokens shutdown 0 w r x in
  (∃ e, run.1 = Err e) ∨
  run.1 = Ok tt ∧ run.2.1.1 = w' ∧ ∃ lines, Forall2 (λ response line, to_json response = inr line) responses lines ∧
    written run.2.2 = written x ++ concat ((.++ [NL]) <$> lines).
Proof using BufReadLaws0 WriterLaws0 JsonLaws0 JsonLaws1.
  intros Hr Hd Hw Hsent0 Hsent Hrest Hfuel Hread Hans.
  destruct (write_values_ok codec written requests sent0 sent Hsent) as (lines & Hlines & Hwritten).
  rewrite Hsent0 in Hwritten. cbn [app] in Hwritten.
  destruct (handle_lines fuel read_fuel tokens shutdown 0 requests lines responses w w' r x Hr Hd Hw Hfuel Hread Hlines
    ltac:(by rewrite Hrest) Hans) as [?|(Hok & Hworld & lines' & Hlines' & Hout)]; [by left|right].
  split_and!; [done|done|]. exists lines'. split; [|done]. eapply Forall2_impl; [exact Hlines'|]. by intros ? ? [? _].
Qed.

Lemma receive_line read_fuel request r response line :
  length (rest r) < read_fuel → line_of response line → rest r = line ++ [NL] →
  response_version response = PROTOCOL_VERSION → response_id response = rq_request_id request →
  (∃ e, (receive_response read_fuel request r).1 = Err e) ∨ (receive_response read_fuel request r).1 = Ok response.
Proof using BufReadLaws0 JsonLaws1.
  intros Hread [Hj Hl] Hrest Hver Hid. unfold receive_response.
  destruct (read_json_line codec rest read_fuel r response line [] Hread Hj Hl Hrest) as [(e & r' & ->)|(r' & -> & _)];
    [left; by eexists|right]. cbn. by rewrite Hid, bool_decide_true, Hver, N.eqb_refl.
Qed.
Lemma receive_nothing read_fuel request r :
  length (rest r) < read_fuel → rest r = [] → ∃ e, (receive_response read_fuel request r).1 = Err e.
Proof using BufReadLaws0.
  intros Hread Hrest. unfold receive_response.
  destruct (read_json_end codec rest (A:=ResponseEnvelope) read_fuel r Hread Hrest) as [(e & r' & ->)|(r' & ->)]; by eexists.
Qed.
(** C17. A call over the socket is a call of the runtime.  The client gets the very
    response the server's runtime gave to its request, which was executed once, or an
    error, unless the server itself failed to write. *)
Theorem socket_call_dispatches (pipe : X → R) (fuel read_fuel : nat) (tokens : nat → N) (shutdown : OperationContext)
    (request : RequestEnvelope) (x : X) (w : W) :
  (∀ r, cut_read r = None) → (∀ c q w, cut_dispatch c q w = None) → (∀ q x, cut_write q x = None) →
  (∀ y, rest (pipe y) = written y) → written x = [] → 1 < fuel →
  let sent := (send_request request x).2 in
  let served := handle_connection fuel read_fuel tokens shutdown 0 w (pipe sent) x in
  length (written sent) < read_fuel → length (written served.2.2) < read_fuel →
  let run := socket_call pipe fuel read_fuel tokens shutdown request x w in
  (∃ e, served.1 = Err e) ∨ (∃ e, run.1 = Err e) ∨
  ∃ response, dispatch_request (child shutdown (tokens 0)) request w = (Ok response, run.2) ∧ run.1 = Ok response.
Proof using BufReadLaws0 WriterLaws0 JsonLaws0 JsonLaws1.
  intros Hr Hd Hw Hpipe Hx Hfuel. cbv zeta. unfold socket_call, send_request.
  pose proof (write_json_returns codec request x) as Hret.
  destruct (write_json codec request x) as [[[]|e|] sent] eqn:Hsent; [|by right; left; exists (SocketContext (str! "write supervisor request") e)|done].
  cbn [snd]. destruct (write_json_ok codec written request x sent Hsent) as (line & Hj & Hl & Hwritten).
  rewrite Hx in Hwritten. cbn [app] in Hwritten. intros Hread Hread2.
  set (served := handle_connection fuel read_fuel tokens shutdown 0 w (pipe sent) x) in *.
  destruct (dispatch_request (child shutdown (tokens 0)) request w) as [[response|e|] w1] eqn:Hdisp.
  - destruct (handle_lines fuel read_fuel tokens shutdown 0 [request] [line] [response] w w1 (pipe sent) x Hr Hd Hw) as
      [[e He]|(Hok & Hworld & lines & Hlines & Hout)]; [cbn; lia|by rewrite Hpipe|by repeat constructor
      |cbn; by rewrite app_nil_r, Hpipe|cbn; by rewrite Hdisp|by left; exists e|].
    fold served in Hok, Hworld, Hout. apply Forall2_cons_inv_l in Hlines as (out & rest' & Hline & Hnil & ->).
    apply Forall2_nil_inv_l in Hnil as ->. rewrite Hx in Hout. cbn in Hout. rewrite app_nil_r in Hout.
    destruct (dispatch_correlated _ _ _ _ _ Hdisp) as [Hver Hid].
    destruct (receive_line read_fuel request (pipe served.2.2) response out) as [[e He]|Hrec];
      [by rewrite Hpipe|done|by rewrite Hpipe|done|done| |].
    + right. left. exists e. destruct served as [o [[w2 r2] x2]]. cbn in *. done.
    + right. right. exists response. destruct served as [o [[w2 r2] x2]]. cbn in *. by subst w2.
  - exfalso. unfold dispatch_request in Hdisp. destruct (negb _); [done|]. unfold attempt, mbind, M_bind in Hdisp.
    by destruct (dispatch_operation _ _ w) as [[] ?].
  - assert (Hserved : ∃ r', served = (Panic, (w1, r', x)) ∨ ∃ e, served.1 = Err e).
    { unfold served. destruct fuel as [|fuel]; [lia|]. cbn [handle_connection]. rewrite Hr.
      destruct (read_json_line codec rest read_fuel (pipe sent) request line []) as [(e & r' & ->)|(r' & -> & _)];
        [by rewrite Hpipe|done|done|by rewrite Hpipe| |].
      - exists r'. right. by eexists.
      - exists r'. left. cbv zeta. by rewrite Hd, Hdisp. }
    destruct Hserved as (r' & [Hserved|?]); [|by left]. right. left. rewrite Hserved in *. cbn [fst snd] in *.
    apply receive_nothing; [by rewrite Hpipe|by rewrite Hpipe].
Qed.
End socket.
