(* ===== verification/HostConnections.v ===== *)
(** [execution-gateway/src/host_connections.rs]: the connected hosts of a gateway.  A
    call puts a request in the outgoing queue of its host's connection and waits for
    the response with its id; connections are replaced, dropped and completed from
    other tasks.  Every section that holds a lock is one step, so all interleavings of
    the tasks are runs of this model. *)
From Stdlib Require Import ZifyBool.
From stdpp Require Import prelude gmap strings pretty list.
From S2P Require Import Prelude.
From S2P Require Import Text.
From S2P Require Import Core.
From S2P Require Import Host.
From S2P Require Import ProcessCore.
From S2P Require Import Wire.

(** ** Data *)

Definition Uuid := N.
#[export] Instance Uuid_eq_dec : EqDecision Uuid := N.eq_dec.
#[export] Instance Uuid_countable : Countable Uuid := N_countable.
(** The messages to a connected host ([execution-api]). *)
Inductive GatewayHostMessage :=
  | Welcome (heartbeat_interval_ms : N)
  | HostRequest (request : RequestEnvelope)
  | Disconnect (code message : str).
Inductive ConnectionOutput := OutputMessage (m : GatewayHostMessage).
Inductive HostConnectionError := Offline | DuplicateRequest | Busy | Disconnected | Timeout.

(** A bounded channel: what is queued, and whether its receiver was dropped. *)
Record Channel := { ch_queue : list ConnectionOutput; ch_capacity : nat; ch_closed : bool }.
Inductive TrySendError := SendFull | SendClosed.
Definition try_send (o : ConnectionOutput) (ch : Channel) : option TrySendError * Channel :=
  if ch_closed ch then (Some SendClosed, ch)
  else if ch_capacity ch <=? length (ch_queue ch) then (Some SendFull, ch)
  else (None, {| ch_queue := ch_queue ch ++ [o]; ch_capacity := ch_capacity ch; ch_closed := ch_closed ch |}).

(** A connection; a pending request's sender is named by the call that waits at it. *)
Record ActiveConnection := {
  ac_connection_id : Uuid;
  ac_outgoing : Channel;
  ac_pending : gmap str nat;
  ac_permits : nat;
}.
(** The receiving end of a call: nothing yet, its response, or a sender that is gone. *)
Inductive Slot := SlotOpen | SlotSent (response : ResponseEnvelope) | SlotDropped.
(** How far a call of [execute] has come. *)
Inductive Phase :=
  | Found       (* it holds the connection *)
  | Permitted   (* and one of its permits *)
  | Inserted    (* its sender was put among the pending *)
  | Waiting     (* its request was put in the queue *)
  | Finished (r : result HostConnectionError ResponseEnvelope)
  | Abandoned.  (* dropped by its caller while it waited *)
Record Call := {
  cl_host : Uuid;
  cl_request : RequestEnvelope;
  cl_active : option nat;
  cl_slot : Slot;
  cl_phase : Phase;
}.
Definition call_id (c : Call) : str := request_id_str (rq_request_id (cl_request c)).
(** What is left to do of an operation that has left the registry's lock. *)
Inductive Task :=
  | FailPending (active : nat) (notice : option (str * str))
  | Notify (active : nat) (code message : str)
  | Deliver (active : nat) (response : ResponseEnvelope).

(** The map from hosts to connections; all connections, which the clones share; all
    calls; and the tasks under way. *)
Record HostConnections := {
  hc_inner : gmap Uuid nat;
  hc_connections : list ActiveConnection;
  hc_calls : list Call;
  hc_tasks : list Task;
}.
Definition HostConnections_new : HostConnections :=
  {| hc_inner := ∅; hc_connections := []; hc_calls := []; hc_tasks := [] |}.

(** ** The locked sections *)

Definition with_inner (inner : gmap Uuid nat) (s : HostConnections) : HostConnections :=
  {| hc_inner := inner; hc_connections := hc_connections s; hc_calls := hc_calls s; hc_tasks := hc_tasks s |}.
Definition on_connection (f : ActiveConnection → ActiveConnection) (a : nat) (s : HostConnections) : HostConnections :=
  {| hc_inner := hc_inner s; hc_connections := alter f a (hc_connections s); hc_calls := hc_calls s; hc_tasks := hc_tasks s |}.
Definition on_calls (f : list Call → list Call) (s : HostConnections) : HostConnections :=
  {| hc_inner := hc_inner s; hc_connections := hc_connections s; hc_calls := f (hc_calls s); hc_tasks := hc_tasks s |}.
Definition on_tasks (f : list Task → list Task) (s : HostConnections) : HostConnections :=
  {| hc_inner := hc_inner s; hc_connections := hc_connections s; hc_calls := hc_calls s; hc_tasks := f (hc_tasks s) |}.
Definition set_outgoing (ch : Channel) (c : ActiveConnection) : ActiveConnection :=
  {| ac_connection_id := ac_connection_id c; ac_outgoing := ch; ac_pending := ac_pending c; ac_permits := ac_permits c |}.
Definition set_pending (p : gmap str nat) (c : ActiveConnection) : ActiveConnection :=
  {| ac_connection_id := ac_connection_id c; ac_outgoing := ac_outgoing c; ac_pending := p; ac_permits := ac_permits c |}.
Definition set_permits (n : nat) (c : ActiveConnection) : ActiveConnection :=
  {| ac_connection_id := ac_connection_id c; ac_outgoing := ac_outgoing c; ac_pending := ac_pending c; ac_permits := n |}.
Definition set_slot (slot : Slot) (c : Call) : Call :=
  {| cl_host := cl_host c; cl_request := cl_request c; cl_active := cl_active c; cl_slot := slot; cl_phase := cl_phase c |}.
Definition set_phase (phase : Phase) (c : Call) : Call :=
  {| cl_host := cl_host c; cl_request := cl_request c; cl_active := cl_active c; cl_slot := cl_slot c; cl_phase := phase |}.

(** [ActiveConnection::fail_pending]: every sender is dropped. *)
Definition fail_pending (a : nat) (s : HostConnections) : HostConnections :=
  match hc_connections s !! a with
  | Some conn =>
    let senders := (map_to_list (ac_pending conn)).*2 in
    on_calls (imap (λ k call, if bool_decide (k ∈ senders) then set_slot SlotDropped call else call))
      (on_connection (set_pending ∅) a s)
  | None => s
  end.
(** Taking a sender from the pending; what becomes of it is [slot]. *)
Definition take_pending (slot : Slot) (a : nat) (id : str) (s : HostConnections) : HostConnections :=
  match hc_connections s !! a with
  | Some conn =>
    match ac_pending conn !! id with
    | Some k => on_calls (alter (set_slot slot) k) (on_connection (set_pending (delete id (ac_pending conn))) a s)
    | None => s
    end
  | None => s
  end.
Definition remove_pending : nat → str → HostConnections → HostConnections := take_pending SlotDropped.
(** A call that returns drops its permit, if it has one. *)
Definition finish_call (permit : bool) (k a : nat) (phase : Phase) (s : HostConnections) : HostConnections :=
  on_calls (alter (set_phase phase) k)
    (if permit then on_connection (λ c, set_permits (S (ac_permits c)) c) a s else s).
Definition notify (a : nat) (code message : str) (s : HostConnections) : HostConnections :=
  on_connection (λ c, set_outgoing (try_send (OutputMessage (Disconnect code message)) (ac_outgoing c)).2 c) a s.

(** ** Operations *)

Section operations.
Context (max_in_flight : nat).

Definition register (host connection : Uuid) (outgoing : Channel) (s : HostConnections) : HostConnections :=
  let a := length (hc_connections s) in
  let active := {| ac_connection_id := connection; ac_outgoing := outgoing; ac_pending := ∅; ac_permits := max_in_flight |} in
  let previous := hc_inner s !! host in
  let s := {| hc_inner := <[host := a]> (hc_inner s); hc_connections := hc_connections s ++ [active];
              hc_calls := hc_calls s; hc_tasks := hc_tasks s |} in
  match previous with
  | Some previous =>
    on_tasks (.++ [FailPending previous (Some (str! "CONNECTION_REPLACED",
                     str! "a newer authenticated connection replaced this one"))]) s
  | None => s
  end.
(** The connection registered for the host, if it has that id. *)
Definition active_connection (host connection : Uuid) (s : HostConnections) : option nat :=
  a ← hc_inner s !! host;
  conn ← hc_connections s !! a;
  if (ac_connection_id conn =? connection)%N then Some a else None.
Definition unregister (host connection : Uuid) (s : HostConnections) : bool * HostConnections :=
  match active_connection host connection s with
  | Some a => (true, on_tasks (.++ [FailPending a None]) (with_inner (delete host (hc_inner s)) s))
  | None => (false, s)
  end.
Definition is_connected (host : Uuid) (s : HostConnections) : bool := bool_decide (is_Some (hc_inner s !! host)).
Definition disconnect (host : Uuid) (code message : str) (s : HostConnections) : HostConnections :=
  match hc_inner s !! host with
  | Some a => on_tasks (.++ [FailPending a (Some (code, message))]) (with_inner (delete host (hc_inner s)) s)
  | None => s
  end.
Definition complete (host connection : Uuid) (response : ResponseEnvelope) (s : HostConnections) : HostConnections :=
  match active_connection host connection s with
  | Some a => on_tasks (.++ [Deliver a response]) s
  | None => s
  end.
Definition run_task (i : nat) (s : HostConnections) : option HostConnections :=
  task ← hc_tasks s !! i;
  let s := on_tasks (delete i) s in
  Some match task with
       | FailPending a notice =>
         let s := fail_pending a s in
         match notice with
         | Some (code, message) => on_tasks (.++ [Notify a code message]) s
         | None => s
         end
       | Notify a code message => notify a code message s
       | Deliver a response => take_pending (SlotSent response) a (request_id_str (response_id response)) s
       end.

(** [execute], section by section. *)
Definition execute (host : Uuid) (request : RequestEnvelope) (s : HostConnections) : HostConnections :=
  let call active phase :=
    {| cl_host := host; cl_request := request; cl_active := active; cl_slot := SlotOpen; cl_phase := phase |} in
  on_calls (.++ [match hc_inner s !! host with
                 | Some a => call (Some a) Found
                 | None => call None (Finished (Err Offline))
                 end]) s.
Definition execute_acquire (k a : nat) (conn : ActiveConnection) (s : HostConnections) : HostConnections :=
  match ac_permits conn with
  | 0 => finish_call false k a (Finished (Err Busy)) s
  | S n => on_calls (alter (set_phase Permitted) k) (on_connection (set_permits n) a s)
  end.
Definition execute_insert (k a : nat) (conn : ActiveConnection) (call : Call) (s : HostConnections) : HostConnections :=
  if bool_decide (is_Some (ac_pending conn !! call_id call))
  then finish_call true k a (Finished (Err DuplicateRequest)) s
  else on_calls (alter (set_phase Inserted) k) (on_connection (set_pending (<[call_id call := k]> (ac_pending conn))) a s).
Definition execute_send (k a : nat) (conn : ActiveConnection) (call : Call) (s : HostConnections) : HostConnections :=
  match try_send (OutputMessage (HostRequest (cl_request call))) (ac_outgoing conn) with
  | (None, ch) => on_calls (alter (set_phase Waiting) k) (on_connection (set_outgoing ch) a s)
  | (Some error, _) =>
    finish_call true k a (Finished (Err match error with SendFull => Busy | SendClosed => Disconnected end))
      (remove_pending a (call_id call) s)
  end.
(** The awaited outcome: the sender's, or the end of the timeout. *)
Definition execute_receive (k a : nat) (call : Call) (s : HostConnections) : option HostConnections :=
  match cl_slot call with
  | SlotSent response => Some (finish_call true k a (Finished (Ok response)) s)
  | SlotDropped => Some (finish_call true k a (Finished (Err Disconnected)) s)
  | SlotOpen => None
  end.
Definition execute_elapse (k a : nat) (call : Call) (s : HostConnections) : HostConnections :=
  finish_call true k a (Finished (Err Timeout)) (remove_pending a (call_id call) s).
(** A future that is dropped while it waits drops its permit and its receiver. *)
Definition execute_abandon (k a : nat) (s : HostConnections) : HostConnections := finish_call true k a Abandoned s.

(** ** Steps *)

Inductive Event :=
  | Register (host connection : Uuid) (outgoing : Channel)
  | Unregister (host connection : Uuid)
  | DisconnectHost (host : Uuid) (code message : str)
  | Complete (host connection : Uuid) (response : ResponseEnvelope)
  | RunTask (i : nat)
  | Execute (host : Uuid) (request : RequestEnvelope)
  | Advance (k : nat)    (* the next section of a call *)
  | Elapse (k : nat)
  | Abandon (k : nat)
  | Outgoing (a : nat)   (* the connection's task takes a message from its queue *)
  | Close (a : nat).     (* or ends *)
Definition advance (k : nat) (s : HostConnections) : option HostConnections :=
  call ← hc_calls s !! k;
  a ← cl_active call;
  conn ← hc_connections s !! a;
  match cl_phase call with
  | Found => Some (execute_acquire k a conn s)
  | Permitted => Some (execute_insert k a conn call s)
  | Inserted => Some (execute_send k a conn call s)
  | Waiting => execute_receive k a call s
  | Finished _ | Abandoned => None
  end.
Definition waiting_at (k : nat) (s : HostConnections) : option (nat * Call) :=
  call ← hc_calls s !! k;
  a ← cl_active call;
  match cl_phase call with Waiting => Some (a, call) | _ => None end.
Definition step (e : Event) (s : HostConnections) : option HostConnections :=
  match e with
  | Register host connection outgoing => Some (register host connection outgoing s)
  | Unregister host connection => Some (unregister host connection s).2
  | DisconnectHost host code message => Some (disconnect host code message s)
  | Complete host connection response => Some (complete host connection response s)
  | RunTask i => run_task i s
  | Execute host request => Some (execute host request s)
  | Advance k => advance k s
  | Elapse k => '(a, call) ← waiting_at k s; Some (execute_elapse k a call s)
  | Abandon k => '(a, _) ← waiting_at k s; Some (execute_abandon k a s)
  | Outgoing a =>
    conn ← hc_connections s !! a;
    match ch_queue (ac_outgoing conn) with
    | [] => None
    | _ :: queue => Some (on_connection (set_outgoing {| ch_queue := queue; ch_capacity := ch_capacity (ac_outgoing conn);
                            ch_closed := ch_closed (ac_outgoing conn) |}) a s)
    end
  | Close a =>
    Some (on_connection (λ c, set_outgoing {| ch_queue := []; ch_capacity := ch_capacity (ac_outgoing c); ch_closed := true |} c) a s)
  end.
(** The states of a gateway, with the events that led there, the last first. *)
Inductive reachable : list Event → HostConnections → Prop :=
  | reachable_new : reachable [] HostConnections_new
  | reachable_step trace s e s' : reachable trace s → step e s = Some s' → reachable (e :: trace) s'.
End operations.

(** ** Invariants *)

Lemma alter_lookup_Some {A} (f : A → A) i (l : list A) j y :
  alter f i l !! j = Some y ↔ ∃ x, l !! j = Some x ∧ y = if decide (i = j) then f x else x.
Proof.
  rewrite list_lookup_alter. destruct (decide (i = j)) as [->|]; [|naive_solver].
  destruct (l !! j); cbn; naive_solver.
Qed.
Definition count {A} (p : A → bool) (l : list A) : nat := length (filter p l).
#[local] Arguments count : simpl never.
Lemma count_alter {A} (p : A → bool) f (l : list A) k x :
  l !! k = Some x → count p (alter f k l) + (if p x then 1 else 0) = count p l + (if p (f x) then 1 else 0).
Proof.
  unfold count. revert k. induction l as [|y l IH]; intros [|k]; [done..| |]; cbn [lookup list_lookup].
  - intros [= ->]. change (alter f 0 (x :: l)) with (f x :: l). rewrite !filter_cons.
    destruct (decide (p x)), (decide (p (f x))), (p x), (p (f x)); cbn; try done; lia.
  - intros Hk. specialize (IH _ Hk). change (alter f (S k) (y :: l)) with (y :: alter f k l). rewrite !filter_cons.
    destruct (decide (p y)); cbn; lia.
Qed.
Lemma count_snoc {A} (p : A → bool) (l : list A) x : count p (l ++ [x]) = count p l + (if p x then 1 else 0).
Proof.
  unfold count. rewrite filter_app, length_app, filter_cons, filter_nil. destruct (decide (p x)), (p x); cbn; done || lia.
Qed.
Lemma count_mono {A} (p q : A → bool) (l : list A) : (∀ x, p x → q x) → count p l ≤ count q l.
Proof.
  intros Hpq. unfold count. apply submseteq_length, sublist_submseteq. induction l as [|x l IH]; [done|]. rewrite !filter_cons.
  destruct (decide (p x)) as [Hp|], (decide (q x)) as [|Hq]; [by constructor|by destruct Hq; apply Hpq|by constructor|done].
Qed.
Lemma count_alter_same {A} (p : A → bool) f (l : list A) k :
  (∀ x, l !! k = Some x → p (f x) = p x) → count p (alter f k l) = count p l.
Proof.
  intros Hp. destruct (l !! k) as [x|] eqn:Hx.
  - pose proof (count_alter p f l k x Hx) as H. rewrite (Hp x eq_refl) in H. lia.
  - f_equal. apply list_eq. intros i. rewrite list_lookup_alter. destruct (decide (k = i)) as [<-|]; [by rewrite Hx|done].
Qed.

(** The calls that hold a permit of a connection, and those that wait for a sender. *)
Definition holds (a : nat) (c : Call) : bool :=
  bool_decide (cl_active c = Some a) && match cl_phase c with Permitted | Inserted | Waiting => true | _ => false end.
Definition awaiting (c : Call) : bool := match cl_phase c with Inserted | Waiting => true | _ => false end.
(** The connection [a] of [keys], which lists their hosts and ids, was told [response]. *)
Definition heard (trace : list Event) (keys : list (Uuid * Uuid)) (a : nat) (response : ResponseEnvelope) : Prop :=
  ∃ host connection, keys !! a = Some (host, connection) ∧ Complete host connection response ∈ trace.
(** A sender waits at its own id, of a call that has not returned. *)
Definition entry_ok (a : nat) (id : str) (call : Call) : Prop :=
  call_id call = id ∧ cl_active call = Some a ∧ cl_slot call = SlotOpen ∧ (awaiting call = true ∨ cl_phase call = Abandoned).
Record call_ok (trace : list Event) (keys : list (Uuid * Uuid)) (s : HostConnections) (k : nat) (call : Call) : Prop := {
  call_active : ∀ a, cl_active call = Some a → ∃ connection, keys !! a = Some (cl_host call, connection);
  call_open : ∀ a, cl_active call = Some a → awaiting call = true → cl_slot call = SlotOpen →
    ∃ conn, hc_connections s !! a = Some conn ∧ ac_pending conn !! call_id call = Some k;
  call_heard : ∀ response, cl_slot call = SlotSent response ∨ cl_phase call = Finished (Ok response) →
    request_id_str (response_id response) = call_id call ∧ ∃ a, cl_active call = Some a ∧ heard trace keys a response;
  call_new : match cl_phase call with Found | Permitted => cl_slot call = SlotOpen | _ => True end;
}.
Record consistent (trace : list Event) (keys : list (Uuid * Uuid)) (s : HostConnections) : Prop := {
  cons_keys : keys.*2 = ac_connection_id <$> hc_connections s;
  cons_inner : ∀ host a, hc_inner s !! host = Some a → ∃ connection, keys !! a = Some (host, connection);
  cons_deliver : ∀ a response, Deliver a response ∈ hc_tasks s → heard trace keys a response;
  cons_pending : ∀ a conn id k, hc_connections s !! a = Some conn → ac_pending conn !! id = Some k →
    ∃ call, hc_calls s !! k = Some call ∧ entry_ok a id call;
  cons_call : ∀ k call, hc_calls s !! k = Some call → call_ok trace keys s k call;
}.
Definition permits_ok (max_in_flight : nat) (s : HostConnections) : Prop :=
  ∀ a conn, hc_connections s !! a = Some conn → ac_permits conn + count (holds a) (hc_calls s) = max_in_flight.

Lemma heard_more trace keys keys' e a response :
  heard trace keys a response → heard (e :: trace) (keys ++ keys') a response.
Proof.
  intros (h & c & Hk & Hin). exists h, c. split; [by apply lookup_app_l_Some|by apply list_elem_of_further].
Qed.

Lemma entry_phase (call : Call) (P : Prop) :
  awaiting call = true ∨ cl_phase call = Abandoned → match cl_phase call with Found | Permitted => P | _ => True end.
Proof. unfold awaiting. by destruct (cl_phase call); intros [?|?]. Qed.

Section preservation.
Context (trace : list Event) (keys : list (Uuid * Uuid)).
Abbreviation consistent := (consistent trace keys).

(** Connections that keep their ids and their pending senders. *)
Lemma consistent_connection f a s :
  (∀ c, ac_connection_id (f c) = ac_connection_id c ∧ ac_pending (f c) = ac_pending c) →
  consistent s → consistent (on_connection f a s).
Proof.
  intros Hf [H1 H2 H3 H4 H5]. split; cbn.
  - rewrite H1. apply list_eq. intros i. rewrite !list_lookup_fmap, list_lookup_alter. destruct (decide (a = i)) as [<-|]; [|done].
    destruct (hc_connections s !! a) as [c|]; [|done]. cbn. by rewrite (proj1 (Hf c)).
  - done.
  - done.
  - intros b conn id k Hb Hk. apply alter_lookup_Some in Hb as (c & Hc & ->). apply (H4 b c); [done|].
    destruct (decide (a = b)); [by rewrite (proj2 (Hf c)) in Hk|done].
  - intros k call Hk. destruct (H5 k call Hk) as [C1 C2 C3 C4]. split; [done| |done|done].
    intros b Hb Hw Ho. destruct (C2 b Hb Hw Ho) as (conn & Hconn & Hp). cbn. eexists. split.
    + apply alter_lookup_Some. by exists conn.
    + destruct (decide (a = b)); [by rewrite (proj2 (Hf conn))|done].
Qed.
Lemma consistent_tasks f s :
  (∀ a response, Deliver a response ∈ f (hc_tasks s) → heard trace keys a response) →
  consistent s → consistent (on_tasks f s).
Proof.
  intros Hf [H1 H2 H3 H4 H5]. split; [done|done|done|done|].
  intros k call Hk. by destruct (H5 k call Hk) as [C1 C2 C3 C4].
Qed.
Lemma consistent_inner host s : consistent s → consistent (with_inner (delete host (hc_inner s)) s).
Proof.
  intros [H1 H2 H3 H4 H5]. split; [done| |done|done|].
  - intros h a Ha. cbn in Ha. apply lookup_delete_Some in Ha as [_ Ha]. by apply H2.
  - intros k call Hk. by destruct (H5 k call Hk) as [C1 C2 C3 C4].
Qed.
(** A call that moves to a phase that its slot and its entry allow. *)
Lemma consistent_phase p k s :
  (∀ call, hc_calls s !! k = Some call →
    (awaiting (set_phase p call) = true → cl_slot call = SlotOpen → awaiting call = true) ∧
    (∀ a, entry_ok a (call_id call) call → awaiting (set_phase p call) = true ∨ p = Abandoned ∨
      ∀ conn, hc_connections s !! a = Some conn → ac_pending conn !! call_id call ≠ Some k) ∧
    (∀ response, p = Finished (Ok response) → cl_slot call = SlotSent response) ∧
    match p with Found | Permitted => cl_slot call = SlotOpen | _ => True end) →
  consistent s → consistent (on_calls (alter (set_phase p) k) s).
Proof.
  intros Hp [H1 H2 H3 H4 H5]. split; [done|done|done| |]; cbn.
  - intros a conn id j Ha Hj. destruct (H4 a conn id j Ha Hj) as (call & Hc & He).
    destruct (decide (k = j)) as [->|].
    + exists (set_phase p call). split; [apply alter_lookup_Some; exists call; by rewrite decide_True|].
      destruct (Hp call Hc) as (_ & Hq & _ & _). destruct He as (Hid & Hact & Hslot & Hw). subst id.
      split_and!; [done|done|done|]. destruct (Hq a) as [?|[?|Hno]]; [done|by left|by right|]. by destruct (Hno conn Ha).
    + exists call. split; [|done]. apply alter_lookup_Some. exists call. by rewrite decide_False.
  - intros j call Hj. apply alter_lookup_Some in Hj as (c & Hc & ->). destruct (H5 j c Hc) as [C1 C2 C3 C4].
    destruct (decide (k = j)) as [->|]; [|by split]. destruct (Hp c Hc) as (Hq1 & _ & Hq2 & Hq3). split; cbn.
    + done.
    + intros a Ha Hw Ho. by apply (C2 a); [|apply Hq1|].
    + intros response [Hs|Hf]; apply C3; left; [done|by apply Hq2].
    + done.
Qed.
(** A sender that is taken, dropped or used for a response to its id. *)
Lemma consistent_take slot a id s :
  slot ≠ SlotOpen → (∀ response, slot = SlotSent response → request_id_str (response_id response) = id ∧ heard trace keys a response) →
  consistent s → consistent (take_pending slot a id s).
Proof.
  intros Hslot Hsent Hs. unfold take_pending. destruct (hc_connections s !! a) as [conn|] eqn:Ha; [|done].
  destruct (ac_pending conn !! id) as [k|] eqn:Hk; [|done].
  destruct Hs as [H1 H2 H3 H4 H5]. destruct (H4 a conn id k Ha Hk) as (call & Hcall & Hid & Hact & Hopen & Hw).
  split; cbn; [|done|done| |].
  - rewrite H1. apply list_eq. intros i. rewrite !list_lookup_fmap, list_lookup_alter. destruct (decide (a = i)) as [<-|]; [|done].
    by rewrite Ha.
  - intros b c id' j Hb Hj. apply alter_lookup_Some in Hb as (c0 & Hc0 & ->).
    assert (Hold : ac_pending c0 !! id' = Some j ∧ (a = b → id' ≠ id)).
    { destruct (decide (a = b)) as [->|]; [|split; [exact Hj|intros ->; congruence]]. cbn in Hj. assert (c0 = conn) as -> by congruence.
      by apply lookup_delete_Some in Hj as [? ?]. }
    destruct Hold as [Hold Hne]. destruct (H4 b c0 id' j Hc0 Hold) as (cj & Hcj & He). exists cj. split; [|done].
    apply alter_lookup_Some. exists cj. split; [done|]. rewrite decide_False; [done|]. intros ->.
    destruct He as (He1 & He2 & _). assert (cj = call) as -> by congruence. apply Hne; congruence.
  - intros j c Hj. apply alter_lookup_Some in Hj as (c0 & Hc0 & ->). destruct (H5 j c0 Hc0) as [C1 C2 C3 C4].
    destruct (decide (k = j)) as [->|Hne].
    + assert (c0 = call) as -> by congruence. split; cbn; [done|done| |].
      * intros response [->|Hf]; [|by apply C3; right]. destruct (Hsent response eq_refl) as [<- Hh]. split; [done|by exists a].
      * by apply entry_phase.
    + split; [done| |done|done]. intros b Hb Haw Ho. destruct (C2 b Hb Haw Ho) as (cb & Hcb & Hpb). cbn.
      eexists. split; [by apply alter_lookup_Some; exists cb|]. destruct (decide (a = b)) as [->|]; [|done].
      assert (cb = conn) as -> by congruence. cbn. rewrite lookup_delete_ne; [done|]. intros ->. congruence.
Qed.
Lemma taken_no_entry slot a id s : (∀ conn, hc_connections (take_pending slot a id s) !! a = Some conn → ac_pending conn !! id = None).
Proof.
  intros conn. unfold take_pending. destruct (hc_connections s !! a) as [c|] eqn:Ha; [|by rewrite Ha].
  destruct (ac_pending c !! id) as [k|] eqn:Hk; [|rewrite Ha; by intros [= <-]].
  cbn. rewrite list_lookup_alter_eq, Ha. intros [= <-]. cbn. apply lookup_delete_eq.
Qed.
Lemma consistent_fail a s : consistent s → consistent (fail_pending a s).
Proof.
  intros Hs. unfold fail_pending. destruct (hc_connections s !! a) as [conn|] eqn:Ha; [|done].
  destruct Hs as [H1 H2 H3 H4 H5]. set (senders := (map_to_list (ac_pending conn)).*2).
  assert (Hsender : ∀ k, k ∈ senders → ∃ call, hc_calls s !! k = Some call ∧ entry_ok a (call_id call) call).
  { intros k Hk. apply list_elem_of_fmap in Hk as ([id k'] & -> & Hin). apply elem_of_map_to_list in Hin. cbn.
    destruct (H4 a conn id k' Ha Hin) as (call & Hc & He). exists call. split; [done|]. destruct He as (_ & He). by split. }
  split; cbn; [|done|done| |].
  - rewrite H1. apply list_eq. intros i. rewrite !list_lookup_fmap, list_lookup_alter. destruct (decide (a = i)) as [<-|]; [|done].
    by rewrite Ha.
  - intros b c id j Hb Hj. apply alter_lookup_Some in Hb as (c0 & Hc0 & ->). destruct (decide (a = b)) as [->|Hne]; [done|].
    destruct (H4 b c0 id j Hc0 Hj) as (cj & Hcj & He). exists cj. split; [|done]. rewrite list_lookup_imap, Hcj. cbn.
    rewrite bool_decide_false; [done|]. intros (c1 & Hc1 & _ & Hact & _)%Hsender.
    destruct He as (_ & He & _). congruence.
  - intros j c Hj. rewrite list_lookup_imap in Hj. destruct (hc_calls s !! j) as [c0|] eqn:Hc0; [|done]. cbn in Hj. injection Hj as <-.
    destruct (H5 j c0 Hc0) as [C1 C2 C3 C4]. case_bool_decide as Hin.
    + destruct (Hsender j Hin) as (c1 & Hc1 & _ & _ & _ & Hw). assert (c1 = c0) as -> by congruence. split; cbn; [done|done| |].
      * intros response [?|Hf]; [done|]. by apply C3; right.
      * by apply entry_phase.
    + split; [done| |done|done]. intros b Hb Haw Ho. destruct (C2 b Hb Haw Ho) as (cb & Hcb & Hpb). cbn.
      eexists. split; [by apply alter_lookup_Some; exists cb|]. destruct (decide (a = b)) as [->|]; [|done].
      assert (cb = conn) as -> by congruence. destruct Hin. apply list_elem_of_fmap. exists (call_id c0, j). split; [done|].
      by apply elem_of_map_to_list.
Qed.
End preservation.

Lemma consistent_event trace keys e s : consistent trace keys s → consistent (e :: trace) keys s.
Proof.
  assert (Hh : ∀ a r, heard trace keys a r → heard (e :: trace) keys a r).
  { intros a r H. rewrite <-(app_nil_r keys). by apply heard_more. }
  intros [H1 H2 H3 H4 H5]. split; [done|done| |done|].
  - intros a r Hin. by apply Hh, H3.
  - intros k call Hk. destruct (H5 k call Hk) as [C1 C2 C3 C4]. split; [done|done| |done].
    intros r Hr. destruct (C3 r Hr) as (Hid & a & Ha & Hd). split; [done|]. exists a. split; [done|by apply Hh].
Qed.
Lemma keys_length trace keys s : consistent trace keys s → length keys = length (hc_connections s).
Proof. intros Hs. pose proof (f_equal length (cons_keys _ _ _ Hs)) as H. by rewrite !length_fmap in H. Qed.
Lemma take_call slot a id s k c' :
  hc_calls (take_pending slot a id s) !! k = Some c' →
  ∃ c, hc_calls s !! k = Some c ∧ cl_active c' = cl_active c ∧ call_id c' = call_id c ∧ cl_phase c' = cl_phase c.
Proof.
  unfold take_pending. destruct (hc_connections s !! a) as [conn|]; [|by exists c'].
  destruct (ac_pending conn !! id) as [j|]; [|by exists c']. cbn. intros (c & Hc & ->)%alter_lookup_Some. exists c.
  by destruct (decide (j = k)).
Qed.
Lemma fail_call a s k c' :
  hc_calls (fail_pending a s) !! k = Some c' →
  ∃ c, hc_calls s !! k = Some c ∧ cl_active c' = cl_active c ∧ call_id c' = call_id c ∧ cl_phase c' = cl_phase c.
Proof.
  unfold fail_pending. destruct (hc_connections s !! a) as [conn|]; [|by exists c']. cbn. rewrite list_lookup_imap.
  destruct (hc_calls s !! k) as [c|]; [|done]. cbn. intros [= <-]. exists c. by case_bool_decide.
Qed.

Section steps.
Context (max_in_flight : nat) (trace : list Event) (keys : list (Uuid * Uuid)).

Lemma consistent_register host connection outgoing s :
  consistent trace keys s →
  consistent trace (keys ++ [(host, connection)]) (register max_in_flight host connection outgoing s).
Proof.
  intros Hs. pose proof (keys_length _ _ _ Hs) as Hlen. destruct Hs as [H1 H2 H3 H4 H5].
  assert (Hh : ∀ a r, heard trace keys a r → heard trace (keys ++ [(host, connection)]) a r).
  { intros a r (h & c & Hk & Hin). exists h, c. split; [by apply lookup_app_l_Some|done]. }
  unfold register. set (a := length (hc_connections s)).
  assert (Hbase : consistent trace (keys ++ [(host, connection)])
    {| hc_inner := <[host := a]> (hc_inner s);
       hc_connections := hc_connections s ++ [{| ac_connection_id := connection; ac_outgoing := outgoing; ac_pending := ∅;
                                                ac_permits := max_in_flight |}];
       hc_calls := hc_calls s; hc_tasks := hc_tasks s |}).
  { split; cbn.
    - by rewrite !fmap_app, H1.
    - intros h b Hb. apply lookup_insert_Some in Hb as [[<- <-]|[_ Hb]].
      + exists connection. rewrite lookup_app_r by lia. by rewrite Hlen, Nat.sub_diag.
      + destruct (H2 h b Hb) as [c Hc]. exists c. by apply lookup_app_l_Some.
    - intros b r Hin. by apply Hh, H3.
    - intros b conn id k Hb Hk. apply lookup_app_Some in Hb as [Hb|[_ Hb]]; [by apply (H4 b conn)|].
      destruct (b - length (hc_connections s)); [|done]. injection Hb as <-. done.
    - intros k call Hk. destruct (H5 k call Hk) as [C1 C2 C3 C4]. split; [| | |done].
      + intros b Hb. destruct (C1 b Hb) as [c Hc]. exists c. by apply lookup_app_l_Some.
      + intros b Hb Haw Ho. destruct (C2 b Hb Haw Ho) as (conn & Hconn & Hp). exists conn. split; [|done]. by apply lookup_app_l_Some.
      + intros r Hr. destruct (C3 r Hr) as (Hid & b & Hb & Hd). split; [done|]. exists b. split; [done|by apply Hh]. }
  destruct (hc_inner s !! host); [|done]. apply consistent_tasks; [|done].
  intros b r Hin. apply (cons_deliver _ _ _ Hbase). cbn in *. apply elem_of_app in Hin as [?|Hin]; [done|].
  by apply list_elem_of_singleton in Hin.
Qed.
Lemma consistent_execute host request s :
  consistent trace keys s → consistent trace keys (execute host request s).
Proof.
  intros [H1 H2 H3 H4 H5]. split; [done|done|done| |]; cbn.
  - intros a conn id k Ha Hk. destruct (H4 a conn id k Ha Hk) as (call & Hc & He). exists call. split; [|done].
    by apply lookup_app_l_Some.
  - intros k call Hk. apply lookup_app_Some in Hk as [Hk|[_ Hk]].
    { by destruct (H5 k call Hk) as [C1 C2 C3 C4]. }
    destruct (k - length (hc_calls s)); [|done]. injection Hk as <-. destruct (hc_inner s !! host) as [a|] eqn:Ha; cbn.
    + split; cbn; [|done|naive_solver|done]. intros b [= <-]. by apply H2.
    + split; cbn; [done|done|naive_solver|done].
Qed.
Lemma consistent_insert k a conn call s :
  hc_calls s !! k = Some call → cl_active call = Some a → hc_connections s !! a = Some conn → cl_phase call = Permitted →
  consistent trace keys s → consistent trace keys (execute_insert k a conn call s).
Proof.
  intros Hk Hact Ha Hph Hs. unfold execute_insert, finish_call. case_bool_decide as Hdup.
  { apply consistent_phase; [|by apply consistent_connection]. cbn. intros c Hc. assert (c = call) as -> by congruence.
    split_and!; [done| |done|done]. intros b (_ & _ & _ & [Hw|Hw]); [|congruence]. unfold awaiting in Hw. by rewrite Hph in Hw. }
  destruct Hs as [H1 H2 H3 H4 H5]. destruct (H5 k call Hk) as [C1 C2 C3 C4]. rewrite Hph in C4.
  split; cbn; [|done|done| |].
  - rewrite H1. apply list_eq. intros i. rewrite !list_lookup_fmap, list_lookup_alter. destruct (decide (a = i)) as [<-|]; [|done].
    by rewrite Ha.
  - intros b c id j Hb Hj. apply alter_lookup_Some in Hb as (c0 & Hc0 & ->).
    assert (Hcase : (a = b ∧ id = call_id call ∧ j = k) ∨ ac_pending c0 !! id = Some j).
    { destruct (decide (a = b)) as [<-|]; [|by right]. cbn in Hj. assert (c0 = conn) as -> by congruence.
      apply lookup_insert_Some in Hj as [[<- <-]|[_ Hj]]; [by left|by right]. }
    destruct Hcase as [(-> & -> & ->)|Hold].
    + exists (set_phase Inserted call). split; [|by split_and!; [| | |left]].
      apply alter_lookup_Some. exists call. by rewrite decide_True.
    + destruct (H4 b c0 id j Hc0 Hold) as (cj & Hcj & He). exists cj. split; [|done].
      apply alter_lookup_Some. exists cj. split; [done|]. rewrite decide_False; [done|]. intros ->.
      destruct He as (_ & _ & _ & Hw). assert (cj = call) as -> by congruence. unfold awaiting in Hw. rewrite Hph in Hw. by destruct Hw.
  - intros j c Hj. apply alter_lookup_Some in Hj as (c0 & Hc0 & ->). destruct (H5 j c0 Hc0) as [D1 D2 D3 D4].
    destruct (decide (k = j)) as [<-|Hne].
    + assert (c0 = call) as -> by congruence. split; cbn; [done| | |done].
      * intros b Hb _ _. assert (b = a) as -> by congruence. eexists. split; [apply alter_lookup_Some; by exists conn|].
        rewrite decide_True by done. apply lookup_insert_eq.
      * intros r [Hr|Hr]; [|done]. by apply C3; left.
    + split; [done| |done|done]. intros b Hb Haw Ho. destruct (D2 b Hb Haw Ho) as (cb & Hcb & Hpb). cbn.
      eexists. split; [by apply alter_lookup_Some; exists cb|]. destruct (decide (a = b)) as [->|]; [|done].
      assert (cb = conn) as -> by congruence. cbn. rewrite lookup_insert_ne; [done|]. intros Heq. rewrite Heq in Hdup.
      destruct Hdup. by eexists.
Qed.
(** A call that returns or is dropped, once it has no sender among the pending. *)
Lemma consistent_finish permit k a phase s :
  (∀ call, hc_calls s !! k = Some call →
    (∀ b conn, cl_active call = Some b → cl_slot call = SlotOpen → phase = Abandoned ∨
      (awaiting call = true ∨ cl_phase call = Abandoned → hc_connections s !! b = Some conn → ac_pending conn !! call_id call ≠ Some k)) ∧
    (∀ response, phase = Finished (Ok response) → cl_slot call = SlotSent response)) →
  match phase with Finished _ | Abandoned => True | _ => False end →
  consistent trace keys s → consistent trace keys (finish_call permit k a phase s).
Proof.
  intros Hc Hp Hs. unfold finish_call.
  assert (Hbase : consistent trace keys (if permit then on_connection (λ c, set_permits (S (ac_permits c)) c) a s else s))
    by (destruct permit; [by apply consistent_connection|done]).
  apply consistent_phase; [|done]. intros call Hk. assert (Hk' : hc_calls s !! k = Some call) by by destruct permit.
  destruct (Hc call Hk') as [Hb Hr]. split_and!; [by destruct phase| |done|by destruct phase].
  intros b (_ & Hact & Hopen & Hw). right.
  assert (phase = Abandoned ∨ phase ≠ Abandoned) as [->|Hna] by (destruct phase; (by left) || (by right)); [by left|right].
  intros conn Hconn. destruct permit.
  - cbn in Hconn. apply alter_lookup_Some in Hconn as (c0 & Hc0 & ->). destruct (Hb b c0 Hact Hopen) as [?|Hno]; [done|].
    specialize (Hno Hw Hc0). by destruct (decide (a = b)).
  - destruct (Hb b conn Hact Hopen) as [?|Hno]; [done|by apply Hno].
Qed.
(** Giving up removes the sender first. *)
Lemma consistent_give_up k a call error s :
  hc_calls s !! k = Some call → cl_active call = Some a →
  consistent trace keys s → consistent trace keys (finish_call true k a (Finished (Err error)) (remove_pending a (call_id call) s)).
Proof.
  intros Hk Hact Hs. apply consistent_finish; [|done|by apply consistent_take].
  intros c' Hc'. split; [|done]. intros b conn Hb _. right. intros _ Hconn.
  destruct (take_call _ _ _ _ _ _ Hc') as (c & Hc & Hca & Hcid & _). assert (c = call) as -> by congruence.
  assert (b = a) as -> by congruence. rewrite Hcid, (taken_no_entry _ _ _ _ _ Hconn). done.
Qed.
Lemma consistent_quiet permit k a error call s :
  hc_calls s !! k = Some call → (awaiting call = false ∧ cl_phase call ≠ Abandoned) ∨ cl_slot call ≠ SlotOpen →
  consistent trace keys s → consistent trace keys (finish_call permit k a (Finished (Err error)) s).
Proof.
  intros Hk Hq Hs. apply consistent_finish; [|done|done]. intros c Hc. assert (c = call) as -> by congruence. split; [|done].
  intros b conn _ Ho. right. intros Hw _. destruct Hq as [[? ?]|?]; [|done]. destruct Hw; congruence.
Qed.
End steps.

Definition registered (e : Event) : list (Uuid * Uuid) :=
  match e with Register host connection _ => [(host, connection)] | _ => [] end.
Lemma active_connection_key trace keys host connection s a :
  consistent trace keys s → active_connection host connection s = Some a → keys !! a = Some (host, connection).
Proof.
  intros [H1 H2 _ _ _]. unfold active_connection. destruct (hc_inner s !! host) as [b|] eqn:Hb; [|done]. cbn.
  destruct (hc_connections s !! b) as [conn|] eqn:Hc; [|done]. cbn. destruct (N.eqb_spec (ac_connection_id conn) connection) as [<-|]; [|done].
  intros [= <-]. destruct (H2 host b Hb) as [c Hk]. rewrite Hk. f_equal. f_equal.
  pose proof (f_equal (.!! b) H1) as H. rewrite !list_lookup_fmap, Hk, Hc in H. by injection H as ->.
Qed.
Lemma run_task_consistent trace keys i s s' :
  consistent trace keys s → run_task i s = Some s' → consistent trace keys s'.
Proof.
  intros Hs. unfold run_task. destruct (hc_tasks s !! i) as [task|] eqn:Ht; [|done]. cbn. intros [= <-].
  assert (Hs1 : consistent trace keys (on_tasks (delete i) s)).
  { apply consistent_tasks; [|done]. intros a r Hin. apply (cons_deliver _ _ _ Hs). by eapply list_elem_of_delete_inv. }
  destruct task as [a [[code message]|]|a code message|a response].
  - apply consistent_tasks; [|by apply consistent_fail]. intros b r Hin. apply elem_of_app in Hin as [Hin|Hin].
    + by apply (cons_deliver _ _ _ (consistent_fail _ _ a _ Hs1)).
    + by apply list_elem_of_singleton in Hin.
  - by apply consistent_fail.
  - by apply consistent_connection.
  - apply consistent_take; [done| |done]. intros r [= <-]. split; [done|].
    apply (cons_deliver _ _ _ Hs). by eapply list_elem_of_lookup_2.
Qed.
Lemma advance_consistent trace keys k s s' :
  consistent trace keys s → advance k s = Some s' → consistent trace keys s'.
Proof.
  intros Hs. unfold advance. destruct (hc_calls s !! k) as [call|] eqn:Hk; [|done]. cbn.
  destruct (cl_active call) as [a|] eqn:Hact; [|done]. cbn. destruct (hc_connections s !! a) as [conn|] eqn:Ha; [|done]. cbn.
  destruct (cl_phase call) eqn:Hp; intros H; try done.
  - injection H as <-. unfold execute_acquire. destruct (ac_permits conn) as [|n].
    + apply (consistent_quiet _ _ _ _ _ _ call); [done| |done]. left. unfold awaiting. by rewrite Hp.
    + apply consistent_phase; [|by apply consistent_connection]. cbn. intros c Hc. assert (c = call) as -> by congruence.
      split_and!; [done| |done|].
      * intros b (_ & _ & _ & Hw). unfold awaiting in Hw. rewrite Hp in Hw. by destruct Hw.
      * pose proof (call_new _ _ _ _ _ (cons_call _ _ _ Hs _ _ Hk)) as H. by rewrite Hp in H.
  - injection H as <-. by apply consistent_insert.
  - injection H as <-. unfold execute_send. destruct (try_send _ _) as [[error|] ch]; [by apply consistent_give_up|].
    apply consistent_phase; [|by apply consistent_connection]. cbn. intros c Hc. assert (c = call) as -> by congruence.
    split_and!; [|by left|done|done]. intros _ _. unfold awaiting. by rewrite Hp.
  - unfold execute_receive in H. destruct (cl_slot call) as [|response|] eqn:Hslot; [done| |]; injection H as <-.
    + apply consistent_finish; [|done|done]. intros c Hc. assert (c = call) as -> by congruence.
      split; [intros b conn' _ Ho; congruence|]. intros r [= ->]. done.
    + apply (consistent_quiet _ _ _ _ _ _ call); [done| |done]. right. by rewrite Hslot.
Qed.
Lemma waiting_at_spec k s a call :
  waiting_at k s = Some (a, call) → hc_calls s !! k = Some call ∧ cl_active call = Some a ∧ cl_phase call = Waiting.
Proof.
  unfold waiting_at. destruct (hc_calls s !! k) as [c|]; [|done]. cbn. destruct (cl_active c) as [b|] eqn:Hb; [|done]. cbn.
  destruct (cl_phase c) eqn:Hp; try done. by intros [= <- <-].
Qed.
Lemma step_consistent max trace keys e s s' :
  consistent trace keys s → step max e s = Some s' → consistent (e :: trace) (keys ++ registered e) s'.
Proof.
  intros Hs0. pose proof (consistent_event trace keys e s Hs0) as Hs.
  destruct e as [host connection outgoing|host connection|host code message|host connection response|i|host request|k|k|k|a|a];
    cbn [step registered]; rewrite ?app_nil_r.
  - intros [= <-]. by apply consistent_register.
  - intros [= <-]. unfold unregister. destruct (active_connection _ _ _) as [a|]; [|done]. cbn [snd].
    apply consistent_tasks; [|by apply consistent_inner]. cbn. intros b r Hin.
    apply elem_of_app in Hin as [Hin|Hin%list_elem_of_singleton]; [by apply (cons_deliver _ _ _ Hs)|done].
  - intros [= <-]. unfold disconnect. destruct (hc_inner s !! host) as [a|]; [|done].
    apply consistent_tasks; [|by apply consistent_inner]. cbn. intros b r Hin.
    apply elem_of_app in Hin as [Hin|Hin%list_elem_of_singleton]; [by apply (cons_deliver _ _ _ Hs)|done].
  - intros [= <-]. unfold complete. destruct (active_connection _ _ _) as [a|] eqn:Ha; [|done].
    apply consistent_tasks; [|done]. intros b r Hin.
    apply elem_of_app in Hin as [Hin|Hin%list_elem_of_singleton]; [by apply (cons_deliver _ _ _ Hs)|].
    injection Hin as -> ->. exists host, connection. split; [by eapply active_connection_key|by left].
  - by apply run_task_consistent.
  - intros [= <-]. by apply consistent_execute.
  - by apply advance_consistent.
  - destruct (waiting_at k s) as [[a call]|] eqn:Hw; [|done]. cbn. intros [= <-].
    apply waiting_at_spec in Hw as (Hk & Hact & _). by apply consistent_give_up.
  - destruct (waiting_at k s) as [[a call]|] eqn:Hw; [|done]. cbn. intros [= <-].
    apply consistent_finish; [|done|done]. intros c Hc. split; [|done]. intros; by left.
  - destruct (hc_connections s !! a) as [conn|] eqn:Ha; [|done]. cbn. destruct (ch_queue _); [done|]. intros [= <-].
    by apply consistent_connection.
  - intros [= <-]. by apply consistent_connection.
Qed.
Lemma reachable_consistent max trace s : reachable max trace s → ∃ keys, consistent trace keys s.
Proof.
  induction 1 as [|trace s e s' _ [keys IH] Hstep]; [|eexists; by eapply step_consistent].
  exists []. split; [done|done|intros a r Hin; by apply not_elem_of_nil in Hin|done|done].
Qed.

(** ** Permits *)

Lemma permits_same max f a s :
  (∀ c, ac_permits (f c) = ac_permits c) → permits_ok max s → permits_ok max (on_connection f a s).
Proof.
  intros Hf H b conn Hb. cbn in *. apply alter_lookup_Some in Hb as (c & Hc & ->). rewrite <-(H b c Hc).
  by destruct (decide (a = b)); rewrite ?Hf.
Qed.
Lemma permits_calls max f s :
  (∀ a, count (holds a) (f (hc_calls s)) = count (holds a) (hc_calls s)) → permits_ok max s → permits_ok max (on_calls f s).
Proof. intros Hf H b conn Hb. change (hc_calls (on_calls f s)) with (f (hc_calls s)). rewrite Hf. by apply H. Qed.
Lemma permits_take max slot a id s : permits_ok max s → permits_ok max (take_pending slot a id s).
Proof.
  intros H. unfold take_pending. destruct (hc_connections s !! a) as [conn|]; [|done]. destruct (ac_pending conn !! id); [|done].
  apply permits_calls; [|by apply permits_same]. intros b. by apply count_alter_same.
Qed.
Lemma count_imap {A} (p : A → bool) (f : nat → A → A) l : (∀ i x, p (f i x) = p x) → count p (imap f l) = count p l.
Proof.
  unfold count. revert f. induction l as [|x l IH]; intros f Hf; [done|]. rewrite imap_cons, !filter_cons, Hf.
  specialize (IH (f ∘ S) (λ i, Hf (S i))). destruct (decide (p x)); cbn; lia.
Qed.
Lemma permits_fail max a s : permits_ok max s → permits_ok max (fail_pending a s).
Proof.
  intros H. unfold fail_pending. destruct (hc_connections s !! a) as [conn|]; [|done].
  apply permits_calls; [|by apply permits_same]. intros b. apply count_imap. intros i x. by case_bool_decide.
Qed.
(** A call that returns gives back what it holds. *)
Lemma permits_finish max k a call phase s :
  hc_calls s !! k = Some call → cl_active call = Some a → holds a call = true →
  match phase with Finished _ | Abandoned => True | _ => False end →
  permits_ok max s → permits_ok max (finish_call true k a phase s).
Proof.
  intros Hk Hact Hh Hp H b conn Hb. cbn [finish_call on_calls on_connection hc_calls hc_connections] in *.
  apply alter_lookup_Some in Hb as (c & Hc & ->). specialize (H b c Hc). pose proof (count_alter (holds b) (set_phase phase) _ _ _ Hk) as Hcount.
  assert (Hout : holds b (set_phase phase call) = false) by (unfold holds; destruct phase; cbn; by rewrite ?andb_false_r).
  rewrite Hout in Hcount. destruct (decide (a = b)) as [<-|Hne].
  - rewrite Hh in Hcount. cbn [set_permits ac_permits]. lia.
  - assert (holds b call = false) as Hno by (unfold holds; rewrite bool_decide_false; [done|congruence]).
    rewrite Hno in Hcount. lia.
Qed.
Lemma permits_phase max k call phase s :
  hc_calls s !! k = Some call → (∀ a, holds a (set_phase phase call) = holds a call) →
  permits_ok max s → permits_ok max (on_calls (alter (set_phase phase) k) s).
Proof.
  intros Hk Hh. apply permits_calls. intros a. apply count_alter_same. intros c Hc. assert (c = call) as -> by congruence. apply Hh.
Qed.
Lemma take_call_kept slot a id s k c :
  hc_calls s !! k = Some c →
  ∃ c', hc_calls (take_pending slot a id s) !! k = Some c' ∧ cl_active c' = cl_active c ∧ cl_phase c' = cl_phase c.
Proof.
  intros Hk. unfold take_pending. destruct (hc_connections s !! a) as [conn|]; [|by exists c].
  destruct (ac_pending conn !! id) as [j|]; [|by exists c]. cbn.
  exists (if decide (j = k) then set_slot slot c else c). split; [apply alter_lookup_Some; by exists c|]. by destruct (decide _).
Qed.
Lemma permits_give_up max k a call error s :
  hc_calls s !! k = Some call → cl_active call = Some a → holds a call = true → permits_ok max s →
  permits_ok max (finish_call true k a (Finished (Err error)) (remove_pending a (call_id call) s)).
Proof.
  intros Hk Hact Hh H. destruct (take_call_kept SlotDropped a (call_id call) s k call Hk) as (c' & Hk' & Ha & Hp).
  apply (permits_finish _ _ _ c'); [done|congruence| |done|by apply permits_take].
  unfold holds in *. by rewrite Ha, Hp.
Qed.
Lemma holds_waiting a call : cl_active call = Some a → awaiting call = true → holds a call = true.
Proof. intros Ha Hw. unfold holds, awaiting in *. rewrite bool_decide_true by done. by destruct (cl_phase call). Qed.
Lemma step_permits max trace keys e s s' :
  consistent trace keys s → permits_ok max s → step max e s = Some s' → permits_ok max s'.
Proof.
  intros Hs H.
  destruct e as [host connection outgoing|host connection|host code message|host connection response|i|host request|k|k|k|a|a];
    cbn [step].
  - intros [= <-]. assert (Hnew : permits_ok max
      {| hc_inner := <[host := length (hc_connections s)]> (hc_inner s);
         hc_connections := hc_connections s ++ [{| ac_connection_id := connection; ac_outgoing := outgoing; ac_pending := ∅;
                                                  ac_permits := max |}];
         hc_calls := hc_calls s; hc_tasks := hc_tasks s |}).
    { intros b conn Hb. cbn in *. apply lookup_app_Some in Hb as [Hb|[Hlen Hb]]; [by apply (H b)|].
      destruct (b - length (hc_connections s)) eqn:Hzero; [|done]. injection Hb as <-. cbn [ac_permits].
      assert (Hnone : count (holds b) (hc_calls s) = 0); [|lia].
      unfold count. apply length_zero_iff_nil, elem_of_nil_inv. intros call [Hcall [k Hk]%list_elem_of_lookup]%list_elem_of_filter.
      revert Hcall. cut (holds b call = false); [by intros ->|].
      unfold holds. rewrite bool_decide_false; [by destruct (cl_phase call)|]. intros Hact.
      destruct (call_active _ _ _ _ _ (cons_call _ _ _ Hs k call Hk) b Hact) as [c Hkey].
      apply lookup_lt_Some in Hkey. pose proof (keys_length _ _ _ Hs). lia. }
    unfold register. by destruct (hc_inner s !! host).
  - intros [= <-]. unfold unregister. by destruct (active_connection _ _ _).
  - intros [= <-]. unfold disconnect. by destruct (hc_inner s !! host).
  - intros [= <-]. unfold complete. by destruct (active_connection _ _ _).
  - unfold run_task. destruct (hc_tasks s !! i) as [task|]; [|done]. cbn. intros [= <-].
    destruct task as [a [[code message]|]|a code message|a response].
    + by apply (permits_fail max a (on_tasks (delete i) s)).
    + by apply (permits_fail max a (on_tasks (delete i) s)).
    + by apply permits_same.
    + by apply permits_take.
  - intros [= <-]. intros b conn Hb. rewrite <-(H b conn Hb). cbn [execute on_calls hc_calls]. rewrite count_snoc.
    unfold holds at 2. destruct (hc_inner s !! host); cbn; by rewrite ?andb_false_r, Nat.add_0_r.
  - unfold advance. destruct (hc_calls s !! k) as [call|] eqn:Hk; [|done]. cbn.
    destruct (cl_active call) as [a|] eqn:Hact; [|done]. cbn. destruct (hc_connections s !! a) as [conn|] eqn:Ha; [|done]. cbn.
    assert (Hholds : ∀ b, holds b call = bool_decide (a = b) && match cl_phase call with Permitted | Inserted | Waiting => true | _ => false end).
    { intros b. unfold holds. rewrite Hact. f_equal. by apply bool_decide_ext; split; [intros [= ->]|intros ->]. }
    assert (Hheld : ∀ p b, holds b (set_phase p call) = bool_decide (a = b) && match p with Permitted | Inserted | Waiting => true | _ => false end).
    { intros p b. unfold holds. cbn. rewrite Hact. f_equal. by apply bool_decide_ext; split; [intros [= ->]|intros ->]. }
    destruct (cl_phase call) eqn:Hp; intros Hstep; try done.
    + injection Hstep as <-. unfold execute_acquire. destruct (ac_permits conn) as [|n] eqn:Hn.
      * apply (permits_phase _ _ call); [done| |done]. intros b. by rewrite Hheld, Hholds.
      * intros b c Hb. cbn in *. apply alter_lookup_Some in Hb as (c0 & Hc0 & ->). specialize (H b c0 Hc0).
        pose proof (count_alter (holds b) (set_phase Permitted) _ _ _ Hk) as Hcount. rewrite Hheld, Hholds, andb_true_r, andb_false_r in Hcount.
        destruct (decide (a = b)) as [<-|Hne].
        -- rewrite bool_decide_true in Hcount by done. assert (c0 = conn) as -> by congruence. cbn. lia.
        -- rewrite bool_decide_false in Hcount by done. lia.
    + injection Hstep as <-. unfold execute_insert. case_bool_decide.
      * apply (permits_finish _ _ _ call); [done|done| |done|done]. rewrite Hholds. by rewrite bool_decide_true.
      * apply (permits_phase _ _ call); [done| |by apply permits_same]. intros b. by rewrite Hheld, Hholds.
    + injection Hstep as <-. unfold execute_send. destruct (try_send _ _) as [[error|] ch].
      * apply permits_give_up; [done|done| |done]. apply holds_waiting; [done|]. unfold awaiting. by rewrite Hp.
      * apply (permits_phase _ _ call); [done| |by apply permits_same]. intros b. by rewrite Hheld, Hholds.
    + unfold execute_receive in Hstep. destruct (cl_slot call); [done| |]; injection Hstep as <-;
        (apply (permits_finish _ _ _ call); [done|done| |done|done]; rewrite Hholds; by rewrite bool_decide_true).
  - destruct (waiting_at k s) as [[a call]|] eqn:Hw; [|done]. cbn. intros [= <-].
    apply waiting_at_spec in Hw as (Hk & Hact & Hp). apply permits_give_up; [done|done| |done].
    apply holds_waiting; [done|]. unfold awaiting. by rewrite Hp.
  - destruct (waiting_at k s) as [[a call]|] eqn:Hw; [|done]. cbn. intros [= <-].
    apply waiting_at_spec in Hw as (Hk & Hact & Hp). apply (permits_finish _ _ _ call); [done|done| |done|done].
    apply holds_waiting; [done|]. unfold awaiting. by rewrite Hp.
  - destruct (hc_connections s !! a) as [conn|]; [|done]. cbn. destruct (ch_queue _); [done|]. intros [= <-].
    by apply permits_same.
  - intros [= <-]. by apply permits_same.
Qed.

Lemma reachable_permits max trace s : reachable max trace s → permits_ok max s.
Proof.
  induction 1 as [|trace s e s' Hr IH Hstep]; [done|]. destruct (reachable_consistent _ _ _ Hr) as [keys Hs].
  by eapply step_permits.
Qed.

(** ** What the gateway promises *)

(** C13. Answers are not mixed up.  Whatever hosts connect, answer and disconnect, and
    however the tasks interleave, a call returns a response only if the connection
    that its host had when the call began delivered it, and the response carries the
    id of the request. *)
Theorem answers_correlated (max : nat) (trace : list Event) (s : HostConnections) (k : nat) (call : Call)
    (response : ResponseEnvelope) :
  reachable max trace s → hc_calls s !! k = Some call → cl_phase call = Finished (Ok response) →
  response_id response = rq_request_id (cl_request call) ∧
  ∃ a conn, cl_active call = Some a ∧ hc_connections s !! a = Some conn ∧
    Complete (cl_host call) (ac_connection_id conn) response ∈ trace.
Proof.
  intros Hr Hk Hp. destruct (reachable_consistent _ _ _ Hr) as [keys Hs].
  destruct (cons_call _ _ _ Hs k call Hk) as [Hact _ Hheard _].
  destruct (Hheard response) as (Hid & a & Ha & host & connection & Hkey & Hin); [by right|].
  split. { unfold call_id in Hid. destruct (response_id response), (rq_request_id (cl_request call)). cbn in Hid. by subst. }
  destruct (Hact a Ha) as [c Hc]. rewrite Hc in Hkey. injection Hkey as <- <-.
  assert (Hconn : ∃ conn, hc_connections s !! a = Some conn ∧ ac_connection_id conn = c).
  { pose proof (f_equal (.!! a) (cons_keys _ _ _ Hs)) as H. rewrite !list_lookup_fmap, Hc in H.
    destruct (hc_connections s !! a) as [conn|]; [|done]. exists conn. split; [done|]. by injection H. }
  destruct Hconn as (conn & Hconn & <-). by exists a, conn.
Qed.

(** C32. No host is flooded.  In every reachable state the permits of a connection and
    the calls that hold one make up the configured maximum, so at most that many
    requests wait at a connection. *)
Theorem in_flight_bounded (max : nat) (trace : list Event) (s : HostConnections) (a : nat) (conn : ActiveConnection) :
  reachable max trace s → hc_connections s !! a = Some conn →
  ac_permits conn + count (holds a) (hc_calls s) = max ∧
  count (λ call, bool_decide (cl_active call = Some a) && awaiting call) (hc_calls s) ≤ max.
Proof.
  intros Hr Ha. pose proof (reachable_permits _ _ _ Hr a conn Ha) as H. split; [done|].
  trans (count (holds a) (hc_calls s)); [|lia]. apply count_mono. intros call. unfold holds, awaiting.
  by destruct (cl_phase call), (bool_decide _).
Qed.

(** C33. A lost connection fails its calls at once.  When the pending requests of a
    connection that was replaced, unregistered or disconnected have been failed, no
    call waits for its timeout there: each returns in its next step, with a response
    that had already arrived or the error that the connection ended. *)
Theorem failed_calls_settle (max : nat) (trace : list Event) (s s' : HostConnections) (i a : nat)
    (notice : option (str * str)) (k : nat) (call : Call) :
  reachable max trace s → hc_tasks s !! i = Some (FailPending a notice) → run_task i s = Some s' →
  waiting_at k s' = Some (a, call) →
  ∃ s2 outcome, advance k s' = Some s2 ∧ hc_calls s2 !! k = Some (set_phase (Finished outcome) call) ∧
    (outcome = Err Disconnected ∨ ∃ response, outcome = Ok response ∧ cl_slot call = SlotSent response).
Proof.
  intros Hr Htask Hrun Hw. destruct (reachable_consistent _ _ _ Hr) as [keys Hs].
  pose proof (run_task_consistent _ _ _ _ _ Hs Hrun) as Hs'. destruct (waiting_at_spec _ _ _ _ Hw) as (Hk & Hact & Hp).
  assert (Hempty : ∀ conn, hc_connections s' !! a = Some conn → ac_pending conn = ∅).
  { unfold run_task in Hrun. rewrite Htask in Hrun. cbn in Hrun. injection Hrun as <-. intros conn.
    destruct notice as [[? ?]|]; cbn; unfold fail_pending; cbn;
      (destruct (hc_connections s !! a) as [c|] eqn:Hc; cbn; [|by rewrite Hc]);
      rewrite list_lookup_alter_eq, Hc; by intros [= <-]. }
  assert (Hconn : ∃ conn, hc_connections s' !! a = Some conn).
  { destruct (call_active _ _ _ _ _ (cons_call _ _ _ Hs' k call Hk) a Hact) as [c Hc]. apply lookup_lt_Some in Hc.
    rewrite (keys_length _ _ _ Hs') in Hc. by apply lookup_lt_is_Some in Hc as [conn ?]; exists conn. }
  destruct Hconn as [conn Hconn]. unfold advance. rewrite Hk. cbn. rewrite Hact. cbn. rewrite Hconn. cbn. rewrite Hp.
  assert (Hdone : ∀ phase, hc_calls (finish_call true k a phase s') !! k = Some (set_phase phase call))
    by (intros phase; cbn; by rewrite list_lookup_alter_eq, Hk).
  unfold execute_receive. destruct (cl_slot call) as [|response|] eqn:Hslot.
  - destruct (call_open _ _ _ _ _ (cons_call _ _ _ Hs' k call Hk) a Hact) as (c & Hc & Hin); [|done|].
    { unfold awaiting. by rewrite Hp. }
    rewrite (Hempty c Hc) in Hin. done.
  - eexists _, _. split; [done|]. split; [apply Hdone|]. right. by exists response.
  - eexists _, _. split; [done|]. split; [apply Hdone|]. by left.
Qed.

(** After a replacement the older connection's task changes nothing any more. *)
Lemma replaced_is_harmless max host connection outgoing stale response s :
  stale ≠ connection → let s' := register max host connection outgoing s in
  complete host stale response s' = s' ∧ unregister host stale s' = (false, s') ∧ is_connected host s' = true.
Proof.
  intros Hne s'. assert (Hinner : hc_inner s' !! host = Some (length (hc_connections s))).
  { unfold s', register. destruct (hc_inner s !! host); cbn; apply lookup_insert_eq. }
  assert (Hconn : ∃ conn, hc_connections s' !! length (hc_connections s) = Some conn ∧ ac_connection_id conn = connection).
  { exists {| ac_connection_id := connection; ac_outgoing := outgoing; ac_pending := ∅; ac_permits := max |}.
    split; [|done]. unfold s', register.
    destruct (hc_inner s !! host); cbn; by rewrite lookup_app_r, Nat.sub_diag. }
  destruct Hconn as (conn & Hconn & Hid).
  assert (Hnone : active_connection host stale s' = None).
  { unfold active_connection. rewrite Hinner. cbn. rewrite Hconn. cbn. rewrite Hid. by rewrite (proj2 (N.eqb_neq _ _)) by congruence. }
  unfold complete, unregister, is_connected. rewrite Hnone, Hinner. split_and!; [done|done|]. by apply bool_decide_true.
Qed.
(** A call whose caller went away leaves its sender behind: its id is refused although
    nothing is in flight any more, and such senders are not counted by the permits. *)
Definition run_events (max : nat) (events : list Event) (s : HostConnections) : option HostConnections :=
  foldl (λ s e, s ← s; step max e s) (Some s) events.
Lemma run_reachable max events s s' trace :
  reachable max trace s → run_events max events s = Some s' → reachable max (reverse events ++ trace) s'.
Proof.
  unfold run_events. revert s trace. induction events as [|e events IH]; intros s trace Hr; cbn [foldl].
  - by intros [= <-].
  - cbn [mbind option_bind]. destruct (step max e s) as [s1|] eqn:Hs.
    + intros Hrun. rewrite reverse_cons, <-(assoc_L (++)). apply (IH s1); [by econstructor|done].
    + intros Hrun. exfalso. revert Hrun. clear. induction events as [|e events IH]; [done|exact IH].
Qed.
Lemma abandoned_id_is_refused :
  let request := RequestEnvelope_new {| request_id_str := str! "request" |} Describe in
  let channel := {| ch_queue := []; ch_capacity := 128; ch_closed := false |} in
  ∃ s, run_events 1 [Register 7%N 8%N channel; Execute 7%N request; Advance 0; Advance 0; Advance 0; Abandon 0;
                     Execute 7%N request; Advance 1; Advance 1] HostConnections_new = Some s ∧
    cl_phase <$> hc_calls s = [Abandoned; Finished (Err DuplicateRequest)] ∧ ac_permits <$> hc_connections s = [1].
Proof. eexists. split; [vm_compute; reflexivity|done]. Qed.
