(* ===== verification/GatewayHosts.v ===== *)
(** [execution-gateway]: the errors of the gateway and how they answer a request
    ([error.rs], [database.rs]), the handler that runs an operation on a host and the
    sessions of connected hosts ([http.rs]), and the daemon at the other end of such a
    session ([execution-host-daemon/src/connection.rs]). *)
From Stdlib Require Import ZifyBool.
From stdpp Require Import prelude gmap strings pretty list.
From S2P Require Import Prelude.
From S2P Require Import Text.
From S2P Require Import Core.
From S2P Require Import Host.
From S2P Require Import ProcessCore.
From S2P Require Import ProcessStream.
From S2P Require Import Wire.
From S2P Require Import WireCodec.
From S2P Require Import RemoteRuntime.
From S2P Require Import HostConnections.

(** ** Errors *)

Record GatewayError := {
  ge_status : N; ge_code : str; ge_message : str; ge_retryable : bool; ge_details : list (str * Value);
}.
Definition GatewayError_new (status : N) (code message : str) : GatewayError :=
  {| ge_status := status; ge_code := code; ge_message := message; ge_retryable := false; ge_details := [] |}.
Definition bad_request : str → str → GatewayError := GatewayError_new 400.
Definition not_found (resource : str) : GatewayError :=
  GatewayError_new 404 (str! "NOT_FOUND") (format! [resource; str! " was not found"]).
Definition conflict : str → str → GatewayError := GatewayError_new 409.
Definition internal : str → GatewayError := GatewayError_new 500 (str! "INTERNAL").
Definition retrying (value : bool) (e : GatewayError) : GatewayError :=
  {| ge_status := ge_status e; ge_code := ge_code e; ge_message := ge_message e; ge_retryable := value;
     ge_details := ge_details e |}.
Definition error_body (e : GatewayError) : ApiErrorBody :=
  {| ae_error := {| ae_code := ge_code e; ae_message := ge_message e; ae_retryable := ge_retryable e;
                    ae_details := ge_details e |} |}.

(** An error of SQL is given by how it displays and whether a value was not unique. *)
Inductive DatabaseError :=
  | Sql (source : str) (unique_violation : bool)
  | InvalidData (detail : str)
  | IdempotencyConflict
  | InvalidIdempotencyRecord
  | SnapshotHostNotReady
  | SnapshotUnsupported
  | HostNotFound.
Definition from_database_error (e : DatabaseError) : GatewayError :=
  match e with
  | HostNotFound => not_found (str! "execution host")
  | SnapshotUnsupported =>
    conflict (str! "HOST_OPERATION_UNSUPPORTED") (str! "Registered Hosts do not support snapshots")
  | SnapshotHostNotReady => conflict (str! "HOST_NOT_READY") (str! "only a ready host can be snapshotted")
  | IdempotencyConflict =>
    conflict (str! "IDEMPOTENCY_KEY_REUSED") (str! "the idempotency key was already used with a different request")
  | Sql _ true => conflict (str! "CONFLICT") (str! "resource already exists")
  | _ => internal (str! "database operation failed")
  end.
Inductive E2bErrorKind :=
  | Configuration | Authentication | E2bNotFound | RateLimited | E2bUnavailable | E2bCancelled | E2bDeadlineExceeded
  | Protocol | Remote | Io.
#[export] Instance E2bErrorKind_eq_dec : EqDecision E2bErrorKind.
Proof. solve_decision. Defined.
Record E2bError := {
  e2b_kind : E2bErrorKind;
  e2b_message : str;
  e2b_retryable : bool;
  e2b_outcome_ambiguous : bool;
  e2b_status : option N;
}.
Definition provider_http_error (e : E2bError) : GatewayError :=
  let status :=
    match e2b_kind e with
    | Authentication => 422
    | E2bNotFound => 410
    | RateLimited => 429
    | E2bDeadlineExceeded => 504
    | E2bUnavailable => 502
    | Configuration | Protocol => 502
    | E2bCancelled => 408
    | Remote | Io => 502
    end%N in
  retrying (e2b_retryable e) (GatewayError_new status (str! "E2B_ERROR") (e2b_message e)).
Definition host_connection_message (e : HostConnectionError) : str :=
  match e with
  | Offline => str! "the Host Daemon is not connected"
  | DuplicateRequest => str! "the request ID is already in flight for this host"
  | Busy => str! "the Host Daemon has too many operations in flight"
  | Disconnected => str! "the Host Daemon connection ended before the operation completed"
  | Timeout => str! "the Host Daemon operation timed out"
  end.
Definition host_connection_http_error (e : HostConnectionError) : GatewayError :=
  match e with
  | Offline | Disconnected => retrying true (GatewayError_new 503 (str! "HOST_DISCONNECTED") (host_connection_message e))
  | Busy => retrying true (GatewayError_new 429 (str! "HOST_BUSY") (host_connection_message e))
  | Timeout => retrying true (GatewayError_new 504 (str! "HOST_OPERATION_TIMEOUT") (host_connection_message e))
  | DuplicateRequest => conflict (str! "REQUEST_ALREADY_IN_FLIGHT") (host_connection_message e)
  end.

(** ** The execution of an operation *)

Inductive ExecutionHostKind := E2b | Registered.
Inductive DesiredHostState := DesiredReady | DesiredPaused | DesiredDeleted.
Inductive ExecutionHostState :=
  | Provisioning | Ready | Pausing | Paused | Resuming | Unavailable_ | Deleting | Deleted | Failed | Lost.
#[export] Instance ExecutionHostKind_eq_dec : EqDecision ExecutionHostKind.
Proof. solve_decision. Defined.
#[export] Instance DesiredHostState_eq_dec : EqDecision DesiredHostState.
Proof. solve_decision. Defined.
#[export] Instance ExecutionHostState_eq_dec : EqDecision ExecutionHostState.
Proof. solve_decision. Defined.
(** Of a stored host, what the handler reads. *)
Record ExecutionHost := { eh_kind : ExecutionHostKind; eh_desired_state : DesiredHostState; eh_state : ExecutionHostState }.
Inductive E2bAccountStatus := AccountActive | AccountInvalid | AccountDisabled.
#[export] Instance E2bAccountStatus_eq_dec : EqDecision E2bAccountStatus.
Proof. solve_decision. Defined.
Record StoredCredential := { sc_account_id : Uuid; sc_ciphertext : bytes; sc_nonce : bytes; sc_key_version : Z }.
Record HostWork := {
  hw_host_id : Uuid;
  hw_desired_state : DesiredHostState;
  hw_observed_state : ExecutionHostState;
  hw_e2b_account_id : Uuid;
  hw_account_status : E2bAccountStatus;
  hw_e2b_sandbox_id : option str;
  hw_source_type : str;
  hw_source_snapshot_provider_id : option str;
  hw_timeout_seconds : N;
  hw_network_access : bool;
  hw_ram_mb : option N;
  hw_credential : StoredCredential;
}.
Record HostFailure := {
  hf_observed_state : str; hf_code : str; hf_message : str; hf_retryable : bool; hf_ambiguous : bool;
}.
Record ProviderExecutionResponse := { pe_descriptor : ExecutionHostDescriptor; pe_response : ResponseEnvelope }.
(** [{:?}] of a state, in lower case. *)
Definition state_name (s : ExecutionHostState) : str :=
  match s with
  | Provisioning => str! "provisioning" | Ready => str! "ready" | Pausing => str! "pausing" | Paused => str! "paused"
  | Resuming => str! "resuming" | Unavailable_ => str! "unavailable" | Deleting => str! "deleting"
  | Deleted => str! "deleted" | Failed => str! "failed" | Lost => str! "lost"
  end.

(** What the handler calls: the permits of the gateway, the database, the clock, the
    credentials, the registry of connected hosts and the provider of sandboxes. *)
Class GatewayServices (W : Type) := {
  try_operation : W → bool * W;
  release_operation : W → W;
  db_host : Uuid → bool → W → (DatabaseError + option ExecutionHost) * W;
  db_resume_host_on_use : Uuid → W → (DatabaseError + unit) * W;
  db_e2b_host_work : Uuid → W → (DatabaseError + option HostWork) * W;
  db_complete_host_ready : Uuid → ExecutionHostDescriptor → W → (DatabaseError + unit) * W;
  db_fail_host : Uuid → option DesiredHostState → HostFailure → W → (DatabaseError + unit) * W;
  kick : W → W;
  gateway_now : W → N;
  gateway_sleep : N → W → W;
  vault_decrypt : str → StoredCredential → option bytes;
  uuid_string : Uuid → str;
  issues_debug : list ValidationIssue → str;
  connections_execute : Uuid → RequestEnvelope → W → (HostConnectionError + ResponseEnvelope) * W;
  provider_execute : str → str → ExecutionHostId → N → RequestEnvelope → W → (E2bError + ProviderExecutionResponse) * W;
}.
(** Time passes while a task sleeps, and never goes back. *)
Class GatewayClock (W : Type) `{!GatewayServices W} : Prop := {
  sleep_passes : ∀ ms w, (gateway_now w + ms ≤ gateway_now (gateway_sleep ms w))%N;
  host_keeps_time : ∀ id deleted w, (gateway_now w ≤ gateway_now (db_host id deleted w).2)%N;
}.

(** An [async] function of the gateway. *)
Definition GM (W A : Type) : Type := W → result GatewayError A * W.
#[export] Instance GM_ret {W} : MRet (GM W) := λ A a w, (Ok a, w).
#[export] Instance GM_bind {W} : MBind (GM W) := λ A B f m w,
  match m w with
  | (Ok a, w') => f a w'
  | (Err e, w') => (Err e, w')
  | (Panic, w') => (Panic, w')
  end.
Definition gfail {W A} (e : GatewayError) : GM W A := λ w, (Err e, w).
(** [.await.map_err(f)?]. *)
Definition gcall {W E A} (f : E → GatewayError) (m : W → (E + A) * W) : GM W A := λ w,
  match m w with (inl e, w') => (Err (f e), w') | (inr a, w') => (Ok a, w') end.
Definition gdo {W} (f : W → W) : GM W unit := λ w, (Ok tt, f w).
(** [.ok_or_else(|| e)?]. *)
Definition gsome {W A} (e : GatewayError) (o : option A) : GM W A :=
  match o with Some a => mret a | None => gfail e end.

(** How a validation error displays. *)
Definition validation_message {W} `{!GatewayServices W} (e : ValidationError) : str :=
  format! [str! "validation failed: "; issues_debug (issues e)].

Section handler.
Context {W : Type} `{!GatewayServices W}.

Definition find_host (id : Uuid) : GM W ExecutionHost :=
  host ← gcall from_database_error (db_host id false);
  gsome (not_found (str! "execution host")) host.
Definition error_resuming : GatewayError :=
  retrying true (GatewayError_new 503 (str! "HOST_RESUMING") (str! "host is still resuming; retry the same operation")).
Definition after (deadline : N) : GM W bool := λ w, (Ok (deadline <=? gateway_now w)%N, w).
(** The wait for a host that resumes; [fuel] counts the polls. *)
Fixpoint await_resumed (fuel : nat) (id : Uuid) (deadline : N) : GM W ExecutionHost :=
  match fuel with
  | 0 => λ w, (Panic, w)
  | S fuel =>
    host ← find_host id;
    if bool_decide (eh_state host = Resuming)
    then
      over ← after deadline;
      if (over : bool) then gfail error_resuming
      else _ ← gdo (gateway_sleep 100); await_resumed fuel id deadline
    else mret host
  end.
(** Twenty seconds in steps of a tenth, and the last poll. *)
Definition resume_fuel : nat := 201.
Definition now_plus (ms : N) : GM W N := λ w, (Ok (gateway_now w + ms)%N, w).
Definition resume_on_use (id : Uuid) : GM W ExecutionHost :=
  _ ← gcall from_database_error (db_resume_host_on_use id);
  _ ← gdo kick;
  deadline ← now_plus 20000;
  await_resumed resume_fuel id deadline.
Definition needs_resume (host : ExecutionHost) : bool :=
  bool_decide (eh_kind host = E2b)
  && (bool_decide (eh_state host = Paused) || bool_decide (eh_state host = Resuming))
  && negb (bool_decide (eh_desired_state host = DesiredDeleted)).
Definition account_unavailable : str → GatewayError := conflict (str! "E2B_ACCOUNT_UNAVAILABLE").
Definition credential_context (account : Uuid) : str :=
  format! [str! "execution-gateway:e2b-account:"; uuid_string account].
Definition transport_failure (e : E2bError) : HostFailure :=
  {| hf_observed_state := if bool_decide (e2b_kind e = E2bNotFound) then str! "lost" else str! "unavailable";
     hf_code := str! "EXECUTION_TRANSPORT_FAILED"; hf_message := e2b_message e; hf_retryable := e2b_retryable e;
     hf_ambiguous := false |}.
(** [match m.await]. *)
Definition gattempt {E A} (m : W → (E + A) * W) : GM W (E + A) := λ w, let '(r, w') := m w in (Ok r, w').
Definition execute_e2b (id : Uuid) (request : RequestEnvelope) : GM W ResponseEnvelope :=
  work ← gcall from_database_error (db_e2b_host_work id);
  work ← gsome (account_unavailable (str! "host account is unavailable")) work;
  if negb (bool_decide (hw_account_status work = AccountActive))
  then gfail (account_unavailable (str! "host account is disabled or invalid"))
  else
    sandbox ← gsome (conflict (str! "HOST_NOT_READY") (str! "host has no E2B resource")) (hw_e2b_sandbox_id work);
    decrypted ← gsome (internal (str! "credential vault operation failed"))
                  (vault_decrypt (credential_context (hw_e2b_account_id work)) (hw_credential work));
    api_key ← gsome (internal (str! "stored E2B credential is invalid")) (utf8_decode decrypted);
    match string_id_new KExecutionHostId (uuid_string id) with
    | inr e => gfail (internal (validation_message e))
    | inl host =>
      outcome ← gattempt (provider_execute api_key sandbox host (hw_timeout_seconds work) request);
      match outcome with
      | inr result =>
        _ ← gcall from_database_error (db_complete_host_ready id (pe_descriptor result));
        mret (pe_response result)
      | inl error =>
        _ ← gcall from_database_error (db_fail_host id (Some DesiredReady) (transport_failure error));
        gfail (provider_http_error error)
      end
    end.
Definition gateway_busy : GatewayError :=
  retrying true (GatewayError_new 429 (str! "GATEWAY_BUSY") (str! "the gateway has too many execution operations in flight")).
(** A permit of the gateway is held until the handler returns. *)
Definition with_operation_permit {A} (m : GM W A) : GM W A := λ w,
  match try_operation w with
  | (false, w) => (Err gateway_busy, w)
  | (true, w) => let '(r, w) := m w in (r, release_operation w)
  end.
Definition run_on_host (id : Uuid) (request : RequestEnvelope) (host : ExecutionHost) : GM W ResponseEnvelope :=
  if negb (bool_decide (eh_state host = Ready)) || negb (bool_decide (eh_desired_state host = DesiredReady))
  then gfail (conflict (str! "HOST_NOT_READY") (format! [str! "host is currently "; state_name (eh_state host)]))
  else if bool_decide (eh_kind host = Registered)
  then gcall host_connection_http_error (connections_execute id request)
  else execute_e2b id request.
Definition execute_operation (id : Uuid) (request : RequestEnvelope) : GM W ResponseEnvelope :=
  with_operation_permit (
    host ← find_host id;
    host ← (if needs_resume host then resume_on_use id else mret host);
    run_on_host id request host).
End handler.

(** The response of the handler on the wire, complete. *)
Definition http_response `{!Json ResponseEnvelope, !Json ApiErrorBody} (request_id : option str)
    (outcome : result GatewayError ResponseEnvelope) : option HttpResponse :=
  let reply status (body : str + bytes) :=
    match body with
    | inr body => Some {| hr_status := status; hr_request_id := request_id; hr_content_length := Some (N.of_nat (length body));
                          hr_chunks := [body]; hr_failure := None |}
    | inl _ => None
    end in
  match outcome with
  | Ok response => reply 200%N (to_json response)
  | Err e => reply (ge_status e) (to_json (error_body e))
  | Panic => None
  end.

(** ** Properties of the handler *)

(** A response of the gateway that is not the result of an operation is a failure. *)
Definition failure (e : GatewayError) : Prop := (400 ≤ ge_status e < 600)%N.
Lemma database_failure e : failure (from_database_error e).
Proof. by destruct e as [? []| | | | | |]. Qed.
Lemma connection_failure e : failure (host_connection_http_error e).
Proof. by destruct e. Qed.
Lemma provider_failure e : failure (provider_http_error e).
Proof. by destruct e as [[]]. Qed.
Lemma failure_not_success e : failure e → is_success (ge_status e) = false.
Proof. unfold failure, is_success. lia. Qed.

Section laws.
Context {W : Type} `{!GatewayServices W}.

(** A computation of the gateway: its result and world satisfy [Q], its errors are
    failures, and it does not panic. *)
Definition g_post {A} (m : GM W A) (w : W) (Q : A → W → Prop) : Prop :=
  match m w with (Ok a, w') => Q a w' | (Err e, _) => failure e | (Panic, _) => False end.
Lemma g_post_ret {A} (a : A) w (Q : A → W → Prop) : Q a w → g_post (mret a) w Q.
Proof. done. Qed.
Lemma g_post_fail {A} e w (Q : A → W → Prop) : failure e → g_post (gfail e) w Q.
Proof. done. Qed.
Lemma g_post_call {E A} (f : E → GatewayError) m w (Q : A → W → Prop) :
  (∀ e, failure (f e)) → (∀ a w', m w = (inr a, w') → Q a w') → g_post (gcall f m) w Q.
Proof. intros Hf Hq. unfold g_post, gcall. destruct (m w) as [[e|a] w'] eqn:Hm; [apply Hf|by apply Hq]. Qed.
Lemma g_post_bind {A B} (m : GM W A) (f : A → GM W B) w (P : A → W → Prop) (Q : B → W → Prop) :
  g_post m w P → (∀ a w', P a w' → g_post (f a) w' Q) → g_post (m ≫= f) w Q.
Proof.
  unfold g_post, mbind, GM_bind. intros Hm Hf. destruct (m w) as [[a|e|] w']; [by apply Hf|done|done].
Qed.
Lemma g_post_some {A} e (o : option A) w (Q : A → W → Prop) :
  failure e → (∀ a, o = Some a → Q a w) → g_post (gsome e o) w Q.
Proof. intros He Hq. destruct o as [a|]; [by apply Hq|done]. Qed.
Lemma g_post_attempt {E A} (m : W → (E + A) * W) w (Q : E + A → W → Prop) :
  (∀ r w', m w = (r, w') → Q r w') → g_post (gattempt m) w Q.
Proof. intros Hq. unfold g_post, gattempt. destruct (m w) as [r w'] eqn:Hm. by apply Hq. Qed.
Lemma g_post_mono {A} (m : GM W A) w (P Q : A → W → Prop) : (∀ a w', P a w' → Q a w') → g_post m w P → g_post m w Q.
Proof. unfold g_post. destruct (m w) as [[a|e|] w']; auto. Qed.

(** A host as it was just found in the database. *)
Definition found_now (id : Uuid) (host : ExecutionHost) (w' : W) : Prop :=
  ∃ w, db_host id false w = (inr (Some host), w').
Lemma find_host_post id w : g_post (find_host id) w (λ host w', db_host id false w = (inr (Some host), w')).
Proof.
  unfold find_host. eapply g_post_bind.
  - apply (g_post_call _ _ _ (λ o w', db_host id false w = (inr o, w'))); [apply database_failure|done].
  - cbn. intros [host|] w' Hw; [by apply g_post_ret|by apply g_post_fail].
Qed.
(** A host that resumes is polled at most [fuel] times, a tenth of a second apart. *)
Lemma await_resumed_post `{!GatewayClock W} fuel id deadline w :
  (deadline ≤ gateway_now w + 100 * N.of_nat fuel)%N → g_post (await_resumed (S fuel) id deadline) w (found_now id).
Proof.
  revert w. induction fuel as [|fuel IH]; intros w Hfuel; cbn [await_resumed]; (eapply g_post_bind; [apply find_host_post|]);
    intros host w1 Hw1; cbn beta in Hw1; (case_bool_decide; [|by apply g_post_ret; exists w]);
    pose proof (host_keeps_time id false w) as Htime; rewrite Hw1 in Htime; cbn [snd] in Htime.
  - unfold g_post, mbind, GM_bind, after. rewrite (proj2 (N.leb_le _ _)) by lia. done.
  - eapply (g_post_bind _ _ _ (λ _ w2, w2 = w1)); [done|]. intros over w2 ->. destruct over; [by apply g_post_fail|].
    eapply (g_post_bind _ _ _ (λ _ w2, w2 = gateway_sleep 100 w1)); [done|]. intros [] w2 ->.
    apply IH. pose proof (sleep_passes 100 w1). lia.
Qed.
Lemma resume_on_use_post `{!GatewayClock W} id w : g_post (resume_on_use id) w (found_now id).
Proof.
  unfold resume_on_use. eapply (g_post_bind _ _ _ (λ _ _, True)); [by apply g_post_call; [apply database_failure|]|]. intros [] w1 _.
  eapply (g_post_bind _ _ _ (λ _ _, True)); [done|]. intros [] w2 _.
  eapply (g_post_bind _ _ _ (λ d w3, w3 = w2 ∧ d = (gateway_now w2 + 20000)%N)); [done|]. intros d w3 [-> ->].
  apply (await_resumed_post 200). lia.
Qed.
(** The last reading of the host by a run that got its permit in [w], and the world right
    after it: the first, or the one that ends the wait for a host that resumes. *)
Definition last_reading (id : Uuid) (w : W) (host : ExecutionHost) (w1 : W) : Prop :=
  found_now id host w1 ∧ ∃ first w', db_host id false w = (inr (Some first), w') ∧
    if needs_resume first then resume_on_use id w' = (Ok host, w1) else host = first ∧ w1 = w'.
(** The provider answered: asked from [w] for the sandbox, the account and the timeout that
    the database has for this host, under the name of the host; the descriptor it
    reported was stored. *)
Definition provider_answered (id : Uuid) (request : RequestEnvelope) (w : W) (response : ResponseEnvelope) (w' : W) : Prop :=
  ∃ work w1 sandbox decrypted key name result w2,
    db_e2b_host_work id w = (inr (Some work), w1) ∧ hw_account_status work = AccountActive ∧
    hw_e2b_sandbox_id work = Some sandbox ∧
    vault_decrypt (credential_context (hw_e2b_account_id work)) (hw_credential work) = Some decrypted ∧
    utf8_decode decrypted = Some key ∧ string_id_new KExecutionHostId (uuid_string id) = inl name ∧
    provider_execute key sandbox name (hw_timeout_seconds work) request w1 = (inr result, w2) ∧
    pe_response result = response ∧ db_complete_host_ready id (pe_descriptor result) w2 = (inr tt, w').
(** Which call from [w] answered, and the world after it. *)
Definition answered (id : Uuid) (request : RequestEnvelope) (host : ExecutionHost) (w : W) (response : ResponseEnvelope)
    (w' : W) : Prop :=
  match eh_kind host with
  | Registered => connections_execute id request w = (inr response, w')
  | E2b => provider_answered id request w response w'
  end.
Lemma g_post_call_result {E A} (f : E → GatewayError) (m : W → (E + A) * W) w :
  (∀ e, failure (f e)) → g_post (gcall f m) w (λ a w', m w = (inr a, w')).
Proof. intros Hf. by apply g_post_call. Qed.
Lemma g_post_some_at {A} e (o : option A) w : failure e → g_post (gsome e o) w (λ a w', o = Some a ∧ w' = w).
Proof. intros He. by apply g_post_some. Qed.
Lemma execute_e2b_post id request w : g_post (execute_e2b id request) w (provider_answered id request w).
Proof.
  unfold execute_e2b. eapply g_post_bind; [apply g_post_call_result, database_failure|]. cbn. intros work w1 Hw1.
  eapply g_post_bind; [by apply g_post_some_at|]. cbn. intros work' ? [-> ->].
  case_bool_decide as Hactive; cbn [negb]; [|by apply g_post_fail].
  eapply g_post_bind; [by apply g_post_some_at|]. cbn. intros sandbox ? [Hsandbox ->].
  eapply g_post_bind; [by apply g_post_some_at|]. cbn. intros decrypted ? [Hdec ->].
  eapply g_post_bind; [by apply g_post_some_at|]. cbn. intros key ? [Hkey ->].
  destruct (string_id_new _ _) as [name|e] eqn:Hname; [|by apply g_post_fail].
  eapply (g_post_bind _ _ _ (λ r w', provider_execute key sandbox name (hw_timeout_seconds work') request w1 = (r, w')));
    [by apply g_post_attempt|]. intros [error|result] w2 Hw2; cbn beta in Hw2.
  - eapply (g_post_bind _ _ _ (λ _ _, True)); [by apply g_post_call; [apply database_failure|]|]. intros [] w3 _.
    apply g_post_fail, provider_failure.
  - eapply g_post_bind; [apply g_post_call_result, database_failure|]. cbn. intros [] w3 Hw3.
    apply g_post_ret. by exists work', w1, sandbox, decrypted, key, name, result, w2.
Qed.
Lemma run_on_host_post id request host w : g_post (run_on_host id request host) w (λ response w',
  eh_state host = Ready ∧ eh_desired_state host = DesiredReady ∧ answered id request host w response w').
Proof.
  unfold run_on_host. case_bool_decide as Hs; [|by apply g_post_fail]. case_bool_decide as Hd; [|by apply g_post_fail]. cbn [negb orb].
  unfold answered. destruct (eh_kind host) eqn:Hk.
  - rewrite bool_decide_false by done. eapply g_post_mono; [|apply execute_e2b_post]. done.
  - rewrite bool_decide_true by done. apply g_post_call; [apply connection_failure|]. by intros response w' Hw.
Qed.
Lemma resumed_post `{!GatewayClock W} id first w :
  found_now id first w →
  g_post (if needs_resume first then resume_on_use id else mret first) w (λ host w1, found_now id host w1 ∧
    if needs_resume first then resume_on_use id w = (Ok host, w1) else host = first ∧ w1 = w).
Proof.
  intros Hfound. destruct (needs_resume first); [|by apply g_post_ret].
  pose proof (resume_on_use_post id w) as H. unfold g_post in *. by destruct (resume_on_use id w) as [[]].
Qed.
Lemma execute_post `{!GatewayClock W} id request w :
  g_post (execute_operation id request) w (λ response w', ∃ host w1 w2, last_reading id (try_operation w).2 host w1 ∧
    eh_state host = Ready ∧ eh_desired_state host = DesiredReady ∧ answered id request host w1 response w2 ∧
    w' = release_operation w2).
Proof.
  unfold execute_operation, with_operation_permit, g_post. destruct (try_operation w) as [[] w0]; [|done]. cbn [snd].
  match goal with |- context [let '(_, _) := ?m w0 in _] => set (body := m) end.
  enough (H : g_post body w0 (λ response w2, ∃ host w1, last_reading id w0 host w1 ∧ eh_state host = Ready ∧
    eh_desired_state host = DesiredReady ∧ answered id request host w1 response w2)).
  { unfold g_post in H. destruct (body w0) as [[] w']; [|done..]. destruct H as (host & w1 & H & Hs & Hd & Ha). by exists host, w1, w'. }
  subst body. eapply g_post_bind; [apply find_host_post|]. cbn. intros first w1 Hw1.
  eapply g_post_bind; [by apply resumed_post; exists w0|]. cbn. intros host w2 [Hfound Hlast].
  eapply g_post_mono; [|apply run_on_host_post]. intros response w3 (Hs & Hd & Ha). exists host, w2.
  split; [|done]. split; [done|]. by exists first, w1.
Qed.
End laws.

(** C25. Operations run on hosts that are ready.  The handler always returns: the wait
    for a host that resumes ends within its twenty seconds.  A response is the answer
    to this very request of the registry under this host's id, or of the provider for
    the sandbox, the account and the timeout the database has for this host, and it is
    asked for from the world in which the handler's last reading of the database has
    just shown the host ready and wanted ready; after it nothing happens but that the
    permit is given back.  Everything else is an error with a status of failure. *)
Theorem operations_run_on_ready_hosts {W : Type} `{!GatewayServices W, !GatewayClock W}
    (id : Uuid) (request : RequestEnvelope) (w : W) :
  match execute_operation id request w with
  | (Ok response, w') => ∃ host w1 w2, last_reading id (try_operation w).2 host w1 ∧
      eh_state host = Ready ∧ eh_desired_state host = DesiredReady ∧
      answered id request host w1 response w2 ∧ w' = release_operation w2
  | (Err e, _) => (400 ≤ ge_status e < 600)%N
  | (Panic, _) => False
  end.
Proof. exact (execute_post id request w). Qed.

(** ** What the client makes of it *)

Section client.
Context `{!Json RequestEnvelope, !Json ResponseEnvelope, !Json ApiErrorBody, !JsonLaws ResponseEnvelope, !JsonLaws ApiErrorBody}.
Context (self : ExecutionClient) (request : RequestEnvelope) (request_id : option str).
Definition fits_limit (response : HttpResponse) : Prop :=
  (N.of_nat (length (concat (hr_chunks response))) ≤ ec_max_response_bytes self)%N.

Lemma single_body status body :
  (N.of_nat (length body) ≤ ec_max_response_bytes self)%N →
  accept self request {| hr_status := status; hr_request_id := request_id; hr_content_length := Some (N.of_nat (length body));
                         hr_chunks := [body]; hr_failure := None |}
  = if negb (is_success status) then Err (gateway_error status body request_id)
    else match from_json body with
         | inl _ => Err (protocol_error (str! "gateway returned invalid execution JSON"))
         | inr envelope =>
           if negb (response_version envelope =? PROTOCOL_VERSION)%N
              || negb (bool_decide (response_id envelope = rq_request_id request))
           then Err (protocol_error (str! "gateway returned an uncorrelated execution response"))
           else match envelope with ResponseSuccess _ _ result => Ok result | ResponseError _ _ error => Err error end
         end.
Proof.
  intros Hlim. unfold accept. cbn [hr_content_length hr_chunks hr_failure hr_status hr_request_id].
  rewrite (proj2 (N.ltb_ge _ _)) by done. cbn [read_body length app]. unfold u64_sat_sub.
  rewrite (proj2 (N.ltb_ge _ _)) by (cbn; lia). by step_result.
Qed.
Lemma error_reaches_client e response :
  http_response request_id (Err e) = Some response → fits_limit response → failure e →
  ∃ error, accept self request response = Err error ∧ code error = gateway_code (Some (ge_code e)) (ge_status e) ∧
    message error = ge_message e ∧ retryable error = ge_retryable e.
Proof.
  unfold http_response, fits_limit. destruct (to_json (error_body e)) as [|body] eqn:Hj; [done|]. intros [= <-].
  cbn [hr_chunks concat]. rewrite app_nil_r. intros Hlim Hf.
  rewrite single_body, failure_not_success by done. cbn [negb]. eexists. split; [done|].
  unfold gateway_error. rewrite (from_to_json _ _ Hj). by destruct request_id.
Qed.
Lemma response_reaches_client envelope response :
  http_response request_id (Ok envelope) = Some response → fits_limit response →
  response_version envelope = PROTOCOL_VERSION → response_id envelope = rq_request_id request →
  accept self request response
  = match envelope with ResponseSuccess _ _ result => Ok result | ResponseError _ _ error => Err error end.
Proof.
  unfold http_response, fits_limit. destruct (to_json envelope) as [|body] eqn:Hj; [done|]. intros [= <-].
  cbn [hr_chunks concat]. rewrite app_nil_r. intros Hlim Hv Hid.
  rewrite single_body by done. change (is_success 200) with true. cbn [negb]. by rewrite (from_to_json _ _ Hj), Hv, Hid, N.eqb_refl, bool_decide_true.
Qed.
End client.

(** What a caller is told of an error of the registry. *)
Definition connection_error_code (e : HostConnectionError) : ExecutionErrorCode :=
  match e with
  | Offline | Disconnected => Unavailable
  | Busy => ResourceExhausted
  | Timeout => DeadlineExceeded
  | DuplicateRequest => OperationConflict
  end.
(** C26. The outcome of the gateway is the outcome of the call.  The client, reading the
    response of the handler within its limit, returns the result or the error that a
    correlated answer holds; an error of the gateway with its message, whether it may
    be retried, and a code; and each error of the registry of hosts with the code that
    tells a lost host, a busy one, a slow one and a repeated request apart. *)
Theorem gateway_outcome_reaches_caller `{!Json RequestEnvelope, !Json ResponseEnvelope, !Json ApiErrorBody}
    `{!JsonLaws ResponseEnvelope, !JsonLaws ApiErrorBody}
    (self : ExecutionClient) (request : RequestEnvelope) (request_id : option str)
    (outcome : result GatewayError ResponseEnvelope) (response : HttpResponse) :
  http_response request_id outcome = Some response → fits_limit self response →
  (∀ envelope, outcome = Ok envelope → response_version envelope = PROTOCOL_VERSION →
    response_id envelope = rq_request_id request →
    accept self request response
    = match envelope with ResponseSuccess _ _ result => Ok result | ResponseError _ _ error => Err error end) ∧
  (∀ e, outcome = Err e → (400 ≤ ge_status e < 600)%N →
    ∃ error, accept self request response = Err error ∧ message error = ge_message e ∧ retryable error = ge_retryable e) ∧
  (∀ e, outcome = Err (host_connection_http_error e) →
    ∃ error, accept self request response = Err error ∧ code error = connection_error_code e ∧
      message error = host_connection_message e ∧ retryable error = negb (match e with DuplicateRequest => true | _ => false end)).
Proof.
  intros Hr Hfit. split_and!.
  - intros envelope -> Hv Hid. by apply (response_reaches_client self request request_id).
  - intros e -> Hf. destruct (error_reaches_client self request request_id e response Hr Hfit Hf) as (error & ? & _ & ? & ?).
    by exists error.
  - intros e ->. destruct (error_reaches_client self request request_id _ response Hr Hfit (connection_failure e))
      as (error & Ha & Hc & Hm & Hre). exists error. split_and!; [done| | |].
    + rewrite Hc. by destruct e.
    + rewrite Hm. by destruct e.
    + rewrite Hre. by destruct e.
Qed.

(** ** Sessions of connected hosts *)

(** The messages of a host. *)
Inductive HostDaemonMessage :=
  | Hello (protocol_name : str) (protocol_version : N) (daemon_version : str) (daemon_instance_id : Uuid)
      (descriptor : ExecutionHostDescriptor)
  | HostResponse (response : ResponseEnvelope).
(** A message of the socket; a text is given decoded, or by the decoder's error. *)
Inductive SocketMessage (T : Type) :=
  | SocketText (text : str + T)
  | SocketBinary
  | SocketPing
  | SocketPong
  | SocketClose.
Arguments SocketText {T} text.
Arguments SocketBinary {T}.
Arguments SocketPing {T}.
Arguments SocketPong {T}.
Arguments SocketClose {T}.
Inductive FirstMessage :=
  | FirstTimeout
  | FirstEnded
  | FirstFailed (source : str)
  | FirstMessageIs (m : SocketMessage HostDaemonMessage).
Definition invalid_handshake : str → GatewayError := bad_request (str! "INVALID_HANDSHAKE").
Definition validate_daemon_version (value : str) : result GatewayError unit :=
  if str_is_empty (trim value) || negb (str_eqb (trim value) value) || (100 <? utf8_len value)
  then Err (bad_request (str! "INVALID_DAEMON_VERSION")
              (str! "daemon_version must be 1 to 100 characters without surrounding whitespace"))
  else Ok tt.

Section sessions.
Context {W : Type} `{!GatewayServices W}.

Definition read_hello (host : Uuid) (first : FirstMessage) : result GatewayError (str * Uuid * ExecutionHostDescriptor) :=
  match first with
  | FirstTimeout => Err (bad_request (str! "HANDSHAKE_TIMEOUT") (str! "Host Daemon did not send hello"))
  | FirstEnded => Err (bad_request (str! "HANDSHAKE_ENDED") (str! "Host Daemon disconnected before hello"))
  | FirstFailed source => Err (invalid_handshake source)
  | FirstMessageIs (SocketText (inl source)) => Err (invalid_handshake source)
  | FirstMessageIs (SocketText (inr (Hello name version daemon instance d))) =>
    if negb (str_eqb name PROTOCOL_NAME) || negb (version =? PROTOCOL_VERSION)%N
    then Err (bad_request (str! "UNSUPPORTED_PROTOCOL")
                (format! [str! "Host Daemon protocol "; name; str! "/"; show_N version; str! " is incompatible with ";
                          PROTOCOL_NAME; str! "/"; show_N PROTOCOL_VERSION]))
    else
      _ ← validate_daemon_version daemon;
      match validate d with
      | inr e => Err (bad_request (str! "INVALID_HOST_DESCRIPTOR") (validation_message e))
      | inl _ =>
        if negb (str_eqb (as_str (host_id d)) (uuid_string host))
        then Err (bad_request (str! "HOST_ID_MISMATCH")
                    (str! "the Host Daemon descriptor belongs to a different execution host"))
        else Ok (daemon, instance, d)
      end
  | FirstMessageIs (SocketText (inr (HostResponse _))) =>
    Err (invalid_handshake (str! "the first Host Daemon message must be hello"))
  | FirstMessageIs _ => Err (invalid_handshake (str! "the first WebSocket message must be a JSON hello message"))
  end.

(** The session is entered in the registry; then the database says whether the host is
    still registered; when the session ends its receiver is dropped. *)
Definition session_channel : Channel := {| ch_queue := []; ch_capacity := 128; ch_closed := false |}.
Definition enter_session (max : nat) (host connection : Uuid) : HostConnections → HostConnections :=
  register max host connection session_channel.
Definition close_channel (a : nat) : HostConnections → HostConnections :=
  on_connection (λ c, set_outgoing {| ch_queue := []; ch_capacity := ch_capacity (ac_outgoing c); ch_closed := true |} c) a.
Definition registration_revoked : GatewayError :=
  GatewayError_new 401 (str! "HOST_REGISTRATION_REVOKED") (str! "the registered host is no longer active").
(** The connection [a] of the session, once the database has answered. *)
Definition admit_session (heartbeat_ms : N) (host connection : Uuid) (a : nat) (marked : DatabaseError + bool)
    (s : HostConnections) : result GatewayError unit * HostConnections :=
  match marked with
  | inl e => (Err (from_database_error e), close_channel a s)
  | inr false => (Err registration_revoked, close_channel a (unregister host connection s).2)
  | inr true => (Ok tt, on_connection (λ c, set_outgoing (try_send (OutputMessage (Welcome heartbeat_ms)) (ac_outgoing c)).2 c) a s)
  end.
Inductive SessionStep :=
  | SessionContinues
  | SessionEnds (notice : option GatewayHostMessage)
  | SessionFails (e : GatewayError).
Definition touch (touched : DatabaseError + unit) : SessionStep :=
  match touched with inr _ => SessionContinues | inl e => SessionFails (from_database_error e) end.
(** What an incoming message does; [None] is an error of the socket. *)
Definition session_incoming (host connection : Uuid) (incoming : option (SocketMessage HostDaemonMessage))
    (touched : DatabaseError + unit) (s : HostConnections) : SessionStep * HostConnections :=
  match incoming with
  | Some (SocketText (inr (HostResponse response))) => (touch touched, complete host connection response s)
  | Some (SocketText (inr (Hello _ _ _ _ _))) =>
    (SessionEnds (Some (Disconnect (str! "DUPLICATE_HELLO") (str! "hello may only be sent once"))), s)
  | Some (SocketText (inl source)) => (SessionEnds (Some (Disconnect (str! "INVALID_MESSAGE") source)), s)
  | Some SocketPong => (touch touched, s)
  | Some SocketClose | None => (SessionEnds None, s)
  | Some (SocketBinary | SocketPing) => (SessionContinues, s)
  end.
(** A tick of the heartbeat: silence of three intervals ends the session. *)
Definition duration_max_ms : N := u64_max * 1000 + 999.
Definition heartbeat_timeout (heartbeat_ms : N) : N := N.min (heartbeat_ms * 3) duration_max_ms.
Definition session_tick (heartbeat_ms silent_ms : N) (ping_sent : bool) : SessionStep :=
  if (heartbeat_timeout heartbeat_ms <=? silent_ms)%N then SessionEnds None
  else if ping_sent then SessionContinues else SessionEnds None.
(** The end: the session leaves the registry, and the database if it was still there. *)
Definition close_session (host connection : Uuid) (a : nat) (outcome : result GatewayError unit)
    (marked : DatabaseError + unit) (s : HostConnections) : result GatewayError unit * HostConnections :=
  let '(active, s) := unregister host connection s in
  let outcome :=
    match active, marked, outcome with
    | true, inl e, Ok _ => Err (from_database_error e)
    | _, _, _ => outcome
    end in
  (outcome, close_channel a s).
End sessions.

(** A session that is not admitted leaves the registry, unless the database failed:
    then its entry stays, at a channel that nobody reads. *)
Lemma revoked_session_leaves `{!GatewayServices unit} max heartbeat host connection s :
  let s1 := enter_session max host connection s in
  is_connected host (admit_session heartbeat host connection (length (hc_connections s)) (inr false) s1).2 = false.
Proof.
  cbv zeta. unfold admit_session, enter_session, unregister. cbn [snd].
  assert (Hactive : active_connection host connection (register max host connection session_channel s)
    = Some (length (hc_connections s))).
  { unfold active_connection, register. destruct (hc_inner s !! host); cbn; rewrite lookup_insert_eq; cbn;
      rewrite lookup_app_r, Nat.sub_diag by lia; cbn; by rewrite N.eqb_refl. }
  rewrite Hactive. cbn. unfold is_connected. apply bool_decide_false. cbn. rewrite lookup_delete_eq. by intros [].
Qed.
Lemma failed_session_stays max heartbeat host connection e s :
  let s1 := enter_session max host connection s in
  is_connected host (admit_session heartbeat host connection (length (hc_connections s)) (inl e) s1).2 = true.
Proof.
  cbv zeta. unfold is_connected. apply bool_decide_true. unfold admit_session, enter_session, register. cbn.
  destruct (hc_inner s !! host); cbn; rewrite lookup_insert_eq; by eexists.
Qed.

(** ** The daemon *)

Inductive ConnectionEnd := Reconnect | Stop.
(** The first message from the gateway: the interval of the heartbeat, or the error. *)
Definition daemon_welcome (m : option (SocketMessage GatewayHostMessage)) : result str N :=
  match m with
  | None => Err (str! "gateway disconnected during handshake")
  | Some (SocketText (inl _)) => Err (str! "decode gateway welcome")
  | Some (SocketText (inr (Welcome interval))) =>
    if (interval =? 0)%N then Err (str! "gateway returned an invalid zero heartbeat interval") else Ok interval
  | Some (SocketText (inr (Disconnect code message))) =>
    Err (format! [str! "gateway rejected connection ("; code; str! "): "; message])
  | Some (SocketText (inr (HostRequest _))) => Err (str! "gateway sent an execution request before welcome")
  | Some _ => Err (str! "gateway did not return a JSON welcome message")
  end.
Inductive DaemonStep :=
  | DaemonContinues
  | DaemonServes (request : RequestEnvelope)
  | DaemonPongs
  | DaemonEnds (e : ConnectionEnd)
  | DaemonFails (e : str).
Definition final_code (code : str) : bool :=
  one_of code [str! "HOST_REGISTRATION_DELETED"; str! "HOST_CREDENTIAL_ROTATED"; str! "CONNECTION_REPLACED"].
Definition daemon_incoming (m : option (SocketMessage GatewayHostMessage)) : DaemonStep :=
  match m with
  | None => DaemonEnds Reconnect
  | Some (SocketText (inl _)) => DaemonFails (str! "decode gateway message")
  | Some (SocketText (inr (HostRequest request))) => DaemonServes request
  | Some (SocketText (inr (Disconnect code _))) => DaemonEnds (if final_code code then Stop else Reconnect)
  | Some (SocketText (inr (Welcome _))) => DaemonFails (str! "gateway sent a duplicate welcome message")
  | Some SocketPing => DaemonPongs
  | Some SocketClose => DaemonEnds Reconnect
  | Some (SocketBinary | SocketPong) => DaemonContinues
  end.
(** A request is served by a task of its own, which sends the response back. *)
Definition daemon_serve {W : Type} `{!World W, !ExecutionRuntime W, !ProcessRuntime W} (c : OperationContext)
    (request : RequestEnvelope) : M W HostDaemonMessage :=
  M_map HostResponse (dispatch_request c request).
(** The pause, in seconds, before the next attempt: its length now, and then. *)
Definition reconnect_delay (delay : N) (ended : option ConnectionEnd) : option (N * N) :=
  match ended with
  | Some Stop => None
  | Some Reconnect => Some (1, N.min 2 30)%N
  | None => Some (delay, N.min (delay * 2) 30)%N
  end.
(** The pauses of attempts that end in these ways, until one stops the daemon. *)
Fixpoint reconnect_delays (delay : N) (ended : list (option ConnectionEnd)) : list N :=
  match ended with
  | [] => []
  | e :: ended =>
    match reconnect_delay delay e with
    | None => []
    | Some (pause, delay) => pause :: reconnect_delays delay ended
    end
  end.
Lemma reconnect_delays_bounded delay ended :
  (1 ≤ delay ≤ 30)%N → Forall (λ pause, (1 ≤ pause ≤ 30)%N) (reconnect_delays delay ended).
Proof.
  revert delay. induction ended as [|e ended IH]; intros delay Hd; [constructor|].
  cbn [reconnect_delays]. unfold reconnect_delay. destruct e as [[]|]; [| |].
  - constructor; [lia|apply IH; lia].
  - constructor.
  - constructor; [done|apply IH; lia].
Qed.

(** A call that finds a session before the database has answered puts its request
    before the welcome, which the daemon takes for an error of the protocol. *)
Definition overtaken (max : nat) (heartbeat_ms : N) (host connection : Uuid) (request : RequestEnvelope) : HostConnections :=
  let s := enter_session max host connection HostConnections_new in
  let s := default s (s ← step max (Execute host request) s; s ← step max (Advance 0) s; s ← step max (Advance 0) s;
                      step max (Advance 0) s) in
  (admit_session heartbeat_ms host connection 0 (inr true) s).2.
Lemma request_overtakes_welcome heartbeat_ms request :
  ch_queue ∘ ac_outgoing <$> hc_connections (overtaken 1 heartbeat_ms 7%N 8%N request)
  = [[OutputMessage (HostRequest request); OutputMessage (Welcome heartbeat_ms)]] ∧
  daemon_welcome (Some (SocketText (inr (HostRequest request)))) = Err (str! "gateway sent an execution request before welcome").
Proof.
  done.
Qed.
