(* ===== verification/WireSamples.v ===== *)
(** Runs of the wire protocol and of the gateway: a reader of chunks, an encoding of
    the envelopes, a gateway in front of the in-memory host, the registry of hosts and
    the handler with one host; and the theorems at those runs. *)
From Stdlib Require Import ZifyBool.
From stdpp Require Import prelude gmap strings pretty countable list.
From S2P Require Import Prelude.
From S2P Require Import Text.
From S2P Require Import Core.
From S2P Require Import Host.
From S2P Require Import MemoryHost.
From S2P Require Import ProcessCore.
From S2P Require Import ProcessStream.
From S2P Require Import Wire.
From S2P Require Import WireCodec.
From S2P Require Import RemoteRuntime.
From S2P Require Import RemoteLaws.
From S2P Require Import SupervisorServer.
From S2P Require Import HostConnections.
From S2P Require Import GatewayHosts.

(** ** An encoding

    A value is encoded by the bits of its number, least first, ended by a letter. *)
Fixpoint bits (p : positive) : bytes :=
  match p with
  | xH => [65]
  | xO p => 48 :: bits p
  | xI p => 49 :: bits p
  end%N.
Fixpoint unbits (l : bytes) : option positive :=
  match l with
  | [] => None
  | b :: l =>
    if (b =? 65)%N then match l with [] => Some xH | _ => None end
    else if (b =? 48)%N then xO <$> unbits l
    else xI <$> unbits l
  end.
Lemma unbits_bits p : unbits (bits p) = Some p.
Proof. induction p as [p IH|p IH|]; cbn; by rewrite ?IH. Qed.
Lemma bits_line p : bits p ≠ [] ∧ NL ∉ bits p ∧ last (bits p) ≠ Some CR.
Proof.
  assert (Hlast : last (bits p) = Some 65%N).
  { induction p as [p IH|p IH|]; cbn [bits]; [rewrite last_cons, IH..|]; done. }
  split; [by destruct p|]. split; [|by rewrite Hlast].
  induction p as [p IH|p IH|]; cbn [bits]; rewrite not_elem_of_cons; split; try done.
  1, 2: apply IH; cbn [bits] in Hlast; rewrite last_cons in Hlast; by destruct (last (bits p)) as [x|]; [|by destruct p].
  by apply not_elem_of_nil.
Qed.

Section shapes.
Context {A T : Type} `{Countable T} (shape : A → option T) (unshape : T → A).
Definition shape_json : Json A := {|
  to_json := λ a, match shape a with Some t => inr (bits (encode t)) | None => inl (str! "not encoded") end;
  from_json := λ b, match unbits b ≫= decode with Some t => inr (unshape t) | None => inl (str! "not decoded") end;
|}.
Lemma shape_laws : (∀ a t, shape a = Some t → unshape t = a) → JsonLaws A (Json0 := shape_json).
Proof.
  intros Hshape. split; intros a b; cbn; destruct (shape a) as [t|] eqn:Ht; try done; intros [= <-].
  - rewrite unbits_bits. cbn. rewrite decode_encode. f_equal. by apply Hshape.
  - apply bits_line.
Qed.
End shapes.

(** Requests to describe a host and to remove a path, their results, and the errors of
    the gateway without details. *)
Definition remove_shape : Type :=
  bool * option SupervisorGenerationId * OperationId * ExecutionPath * bool * bool * option FileRevision.
Definition request_shape (r : RequestEnvelope) : option (N * RequestId * (unit + remove_shape)) :=
  match rq_operation r with
  | Describe => Some (rq_version r, rq_request_id r, inl tt)
  | FilesystemRemove q =>
    Some (rq_version r, rq_request_id r,
          inr (bool_decide (rm_target_kind q = TargetFile), rm_expected_generation q, rm_operation_id q, rm_path q,
               rm_recursive q, rm_ignore_missing q, rm_expected_revision q))
  | _ => None
  end.
Definition request_unshape (t : N * RequestId * (unit + remove_shape)) : RequestEnvelope :=
  {| rq_version := t.1.1; rq_request_id := t.1.2;
     rq_operation :=
       match t.2 with
       | inl _ => Describe
       | inr (file, generation, id, p, recursive, ignore, revision) =>
         FilesystemRemove {| rm_target_kind := if file : bool then TargetFile else TargetAny;
                             rm_expected_generation := generation; rm_operation_id := id; rm_path := p;
                             rm_recursive := recursive; rm_ignore_missing := ignore; rm_expected_revision := revision |}
       end |}.
#[local] Instance request_json : Json RequestEnvelope := shape_json request_shape request_unshape.
#[local] Instance request_laws : JsonLaws RequestEnvelope.
Proof.
  apply shape_laws. intros [v id [| | | | |q| | | | | | |]] t; try done; intros [= <-]; [done|].
  destruct q as [[] ? ? ? ? ? ?]; done.
Qed.
Definition response_shape (r : ResponseEnvelope) : option (N * RequestId * option bool) :=
  match r with
  | ResponseSuccess v id ResUnit => Some (v, id, None)
  | ResponseSuccess v id (ResRemovePath result) => Some (v, id, Some (removed result))
  | _ => None
  end.
Definition response_unshape (t : N * RequestId * option bool) : ResponseEnvelope :=
  ResponseSuccess t.1.1 t.1.2 match t.2 with Some b => ResRemovePath {| removed := b |} | None => ResUnit end.
#[local] Instance response_json : Json ResponseEnvelope := shape_json response_shape response_unshape.
#[local] Instance response_laws : JsonLaws ResponseEnvelope.
Proof. apply shape_laws. intros [v id [| | | |[]| | | | | |]|] t; try done; by intros [= <-]. Qed.
Definition body_shape (b : ApiErrorBody) : option (str * str * bool) :=
  match ae_details (ae_error b) with
  | [] => Some (ae_code (ae_error b), ae_message (ae_error b), ae_retryable (ae_error b))
  | _ => None
  end.
Definition body_unshape (t : str * str * bool) : ApiErrorBody :=
  {| ae_error := {| ae_code := t.1.1; ae_message := t.1.2; ae_retryable := t.2; ae_details := [] |} |}.
#[local] Instance body_json : Json ApiErrorBody := shape_json body_shape body_unshape.
#[local] Instance body_laws : JsonLaws ApiErrorBody.
Proof. apply shape_laws. intros [[c m r [|]]] t; [|done]. by intros [= <-]. Qed.

(** ** Streams *)

(** A stream that arrives in chunks. *)
Fixpoint next_chunk (r : list bytes) : bytes * list bytes :=
  match r with
  | [] => ([], [])
  | [] :: r => next_chunk r
  | chunk :: _ => (chunk, r)
  end.
#[local] Instance chunk_reader : BufRead (list bytes) := {
  fill_buf := λ r, let '(b, r) := next_chunk r in (inr b, r);
  consume := λ n r, match r with [] => [] | chunk :: r => drop n chunk :: r end;
}.
#[local] Instance chunk_reader_laws : BufReadLaws (@concat N).
Proof.
  split. intros r b r'. cbn. destruct (next_chunk r) as [b0 r0] eqn:Hr. intros [= <- <-].
  revert Hr. induction r as [|[|x chunk] r IH]; cbn [next_chunk].
  - intros [= <- <-]. exists []. split_and!; [done|done|]. intros n _. by destruct n.
  - exact IH.
  - intros [= <- <-]. exists (concat r). split_and!; [done|done|]. intros n Hn. cbn [concat].
    by rewrite drop_app_le.
Qed.
(** One that is written to a list. *)
#[local] Instance list_writer : Writer bytes := { write_all := λ b x, (None, x ++ b); flush := λ x, (None, x) }.
#[local] Instance list_writer_laws : WriterLaws (@id bytes).
Proof. split; [by intros b x x' [= <-]|by intros x x' [= <-]]. Qed.

Definition sample_codec_100 : NdjsonCodec := {| max_frame_bytes := 100 |}.
Definition sample_chunks : list bytes := [utf8_encode (str! "one"); []; CR :: NL :: utf8_encode (str! "two"); [NL]].
Lemma read_frame_any_chunks_witness :
  ∃ r, read_frame sample_codec_100 14 [] sample_chunks = (Ok (Some (utf8_encode (str! "one"))), r) ∧
    concat r = utf8_encode (str! "two") ++ [NL].
Proof.
  destruct (read_frame_any_chunks (@concat N) sample_codec_100 14 sample_chunks ltac:(vm_compute; lia))
    as [(e & r & He)|(r & Hr & Hrest)].
  - vm_compute in He. discriminate.
  - exists r. split; [rewrite Hr; vm_compute; reflexivity|].
    destruct (Hrest (Some (utf8_encode (str! "one"))) ltac:(vm_compute; reflexivity)) as [Hr' _].
    rewrite Hr'. vm_compute. reflexivity.
Defined.
Definition sample_id : RequestId := {| request_id_str := str! "a" |}.
Definition sample_messages : list RequestEnvelope :=
  [RequestEnvelope_new sample_id Describe; RequestEnvelope_new {| request_id_str := str! "b" |} Describe].
Definition sample_written : bytes := Eval vm_compute in
  (write_values sample_codec_100 sample_messages ([] : bytes)).2.
Lemma messages_round_trip_witness :
  sample_written ≠ [] ∧
  ∃ r, read_values (A:=RequestEnvelope) sample_codec_100 200 3 [take 7 sample_written; drop 7 sample_written]
       = (Ok sample_messages, r).
Proof.
  assert (Hw : write_values sample_codec_100 sample_messages ([] : bytes) = (Ok tt, sample_written)) by (vm_compute; reflexivity).
  assert (Hlen : length (concat [take 7 sample_written; drop 7 sample_written]) < 200) by (vm_compute; lia).
  split; [done|].
  destruct (messages_round_trip (@concat N) (@id bytes) sample_codec_100 sample_messages [] sample_written
    [take 7 sample_written; drop 7 sample_written] 200 eq_refl Hw eq_refl Hlen) as [(e & r & He)|(r & Hr)].
  - vm_compute in He. discriminate.
  - exists r. exact Hr.
Defined.

(** ** A gateway in front of the in-memory host *)

#[local] Existing Instances memory_world memory_filesystem memory_runtime memory_safe memory_reads memory_replay.
Definition not_a_process {A} : M MemoryWorld A := throw memory_not_found.
#[local] Instance memory_processes : ProcessRuntime MemoryWorld := {
  pr_start := λ _ _, not_a_process; pr_read := λ _ _, not_a_process; pr_write := λ _ _, not_a_process;
  pr_resize := λ _ _, not_a_process; pr_signal := λ _ _, not_a_process; pr_terminate := λ _ _, not_a_process;
}.
Definition gateway_context : OperationContext := {| cancellation := 0; deadline := None |}.

Definition http_reply (status : N) (body : bytes) : HttpResponse :=
  {| hr_status := status; hr_request_id := None; hr_content_length := None; hr_chunks := [body]; hr_failure := None |}.
Definition sample_url : str := str! "https://gateway/v1/hosts/host/operations".
#[local] Instance memory_gateway : HttpGateway MemoryWorld := {
  generate_request_id := λ _, sample_id;
  race := λ _ _ _, None;
  http_post := λ url body w,
    match from_json body with
    | inl _ => (inr (http_reply 400 []), w)
    | inr request =>
      match dispatch_request gateway_context request w with
      | (Ok response, w') =>
        match to_json response with
        | inr answer => (inr (http_reply 200 answer), w')
        | inl _ => (inr (http_reply 500 []), w')
        end
      | (_, w') => (inl {| te_timeout := true; te_connect := false |}, w')
      end
    end;
}.
#[local] Instance memory_gateway_faithful : FaithfulGateway sample_url.
Proof.
  split; [|done]. intros request body w Hj. cbn [http_post memory_gateway]. rewrite (from_to_json _ _ Hj).
  destruct (dispatch_request gateway_context request w) as [[response|e|] w'] eqn:Hd.
  - destruct (to_json response) as [err|answer] eqn:Hr.
    + left. split; [by left|]. right. exists gateway_context. by rewrite Hd.
    + right. exists gateway_context, response, (http_reply 200 answer). split; [done|]. split; [done|].
      cbn [hr_chunks http_reply concat]. rewrite app_nil_r. by apply from_to_json.
  - left. split; [done|]. right. exists gateway_context. by rewrite Hd.
  - left. split; [done|]. right. exists gateway_context. by rewrite Hd.
Qed.
Definition sample_client : ExecutionClient := {| ec_base_url := str! "https://gateway"; ec_max_response_bytes := 10000 |}.
Definition sample_host : GatewayHostRuntime := {| gh_url := sample_url; gh_descriptor := memory_descriptor |}.
Definition sample_file : ExecutionPath := {| root_id := memory_root; path := str! "a.txt" |}.
Definition sample_remove : RemovePathRequest :=
  {| rm_target_kind := TargetFile; rm_expected_generation := None; rm_operation_id := StringId (str! "op-1"); rm_path := sample_file;
     rm_recursive := false; rm_ignore_missing := false; rm_expected_revision := None |}.
Definition one_file : MemoryWorld := {| mw_files := {[sample_file := [1%N]]}; mw_writes := ∅; mw_removes := ∅ |}.
Definition removed_file : MemoryWorld := Eval vm_compute in (memory_remove sample_remove one_file).2.
Lemma remote_call_correlated_witness :
  call sample_client gateway_context sample_url (FilesystemRemove sample_remove) one_file
  = (Ok (ResRemovePath {| removed := true |}), removed_file) ∧
  ∃ response, from_json (concat (hr_chunks response)) = inr (response_success sample_id (ResRemovePath {| removed := true |})).
Proof.
  assert (Hrun : call sample_client gateway_context sample_url (FilesystemRemove sample_remove) one_file
    = (Ok (ResRemovePath {| removed := true |}), removed_file)) by (vm_compute; reflexivity).
  split; [exact Hrun|].
  destruct (remote_call_correlated sample_client gateway_context sample_url (FilesystemRemove sample_remove) one_file
    ltac:(vm_compute; done)) as [[e He]|(body & response & answer & result & _ & _ & _ & _ & Hr & _ & _ & -> & _ & Hj)].
  - rewrite Hrun in He. discriminate.
  - exists response. rewrite Hrun in Hr. cbn [fst] in Hr. injection Hr as <-. exact Hj.
Defined.
Lemma remote_delivers_witness :
  let remote := fs_remove (FileSystem := remote_filesystem sample_client sample_host) gateway_context sample_remove in
  remote one_file = (Ok {| removed := true |}, removed_file) ∧
  delivers gateway_context remote (λ c, fs_remove c sample_remove).
Proof.
  cbv zeta. split; [vm_compute; reflexivity|].
  destruct (remote_delivers sample_client sample_url memory_descriptor gateway_context) as (_ & _ & _ & _ & H & _).
  exact (H sample_remove).
Defined.
Lemma remote_keeps_promises_witness :
  ReplaySafe (ExecutionRuntime0 := remote_runtime sample_client sample_host) (@id MemoryWorld) ∧
  ReadsWithin (ExecutionRuntime0 := remote_runtime sample_client sample_host) (@eq MemoryWorld).
Proof.
  destruct (remote_keeps_promises sample_client sample_url memory_descriptor) as (_ & Hreads & Hreplay & _).
  split; [exact (Hreplay _ _ memory_replay)|exact (Hreads _ memory_reads)].
Defined.

(** ** A socket of the in-memory host *)

#[local] Instance no_shutdown : Shutdown (W := MemoryWorld) (R := list bytes) (X := bytes) := {
  cut_read := λ _, None; cut_dispatch := λ _ _ _, None; cut_write := λ _ _, None;
}.
Definition remove_request (id : str) : RequestEnvelope :=
  RequestEnvelope_new {| request_id_str := id |} (FilesystemRemove sample_remove).
Definition removed_answer (id : str) : ResponseEnvelope :=
  response_success {| request_id_str := id |} (ResRemovePath {| removed := true |}).
Definition two_requests : list RequestEnvelope := [remove_request (str! "a"); remove_request (str! "b")].
Definition two_answers : list ResponseEnvelope := [removed_answer (str! "a"); removed_answer (str! "b")].
Definition two_lines : bytes := Eval vm_compute in (write_values NdjsonCodec_default two_requests ([] : bytes)).2.
Abbreviation serve_two :=
  (handle_connection 3 10000 (λ i, N.of_nat i) gateway_context 0 one_file [take 9 two_lines; drop 9 two_lines] ([] : bytes)).
Lemma requests_answered_in_order_witness :
  serve_two.1 = Ok tt ∧ serve_two.2.1.1 = removed_file ∧
  ∃ lines, Forall2 (λ response line, to_json response = inr line) two_answers lines ∧
    serve_two.2.2 = concat ((.++ [NL]) <$> lines).
Proof.
  assert (Hw : write_values NdjsonCodec_default two_requests ([] : bytes) = (Ok tt, two_lines)) by (vm_compute; reflexivity).
  assert (Hrest : concat [take 9 two_lines; drop 9 two_lines] = id two_lines) by (vm_compute; reflexivity).
  assert (Hlen : length (concat [take 9 two_lines; drop 9 two_lines]) < 10000) by (apply Nat.ltb_lt; vm_compute; reflexivity).
  assert (Hans : answers (λ i, N.of_nat i) gateway_context 0 two_requests one_file = Some (two_answers, removed_file))
    by (vm_compute; reflexivity).
  assert (Hok : serve_two.1 = Ok tt) by (vm_compute; reflexivity).
  destruct (requests_answered_in_order (@concat N) (@id bytes) 3 10000 (λ i, N.of_nat i) gateway_context two_requests two_answers
    one_file removed_file [] two_lines [] [take 9 two_lines; drop 9 two_lines] ltac:(done) ltac:(done) ltac:(done) eq_refl Hw Hrest
    ltac:(cbn; lia) Hlen Hans) as [[e He]|H].
  - rewrite Hok in He. discriminate.
  - exact H.
Defined.
Abbreviation sample_socket_call :=
  (socket_call (λ y : bytes, [y]) 2 10000 (λ i, N.of_nat i) gateway_context (remove_request (str! "a")) [] one_file).
Lemma socket_call_dispatches_witness :
  sample_socket_call = (Ok (removed_answer (str! "a")), removed_file) ∧
  ∃ response, dispatch_request (child gateway_context 0) (remove_request (str! "a")) one_file = (Ok response, removed_file) ∧
    sample_socket_call.1 = Ok response.
Proof.
  assert (Hrun : sample_socket_call = (Ok (removed_answer (str! "a")), removed_file)) by (vm_compute; reflexivity).
  split; [exact Hrun|].
  destruct (socket_call_dispatches (@concat N) (@id bytes) (λ y : bytes, [y]) 2 10000 (λ i, N.of_nat i) gateway_context
    (remove_request (str! "a")) [] one_file ltac:(done) ltac:(done) ltac:(done) (λ y, app_nil_r y) eq_refl ltac:(lia)
    ltac:(apply Nat.ltb_lt; vm_compute; reflexivity) ltac:(apply Nat.ltb_lt; vm_compute; reflexivity))
    as [[e He]|[[e He]|(response & Hd & Hr)]].
  - vm_compute in He. discriminate.
  - rewrite Hrun in He. discriminate.
  - exists response. rewrite Hrun in Hd. split; [exact Hd|exact Hr].
Defined.

(** ** The registry with one host *)

Definition describe_request : RequestEnvelope := RequestEnvelope_new sample_id Describe.
Definition describe_answer : ResponseEnvelope := response_success sample_id ResUnit.
Definition sample_calls : list Event :=
  [Register 7%N 8%N session_channel; Execute 7%N describe_request; Advance 0; Advance 0; Advance 0].
Definition sample_answered : list Event := sample_calls ++ [Complete 7%N 8%N describe_answer; RunTask 0; Advance 0].
Definition state_after (events : list Event) : HostConnections := default HostConnections_new (run_events 1 events HostConnections_new).
Definition answered_state : HostConnections := Eval vm_compute in state_after sample_answered.
Definition waiting_state : HostConnections := Eval vm_compute in state_after sample_calls.
Lemma answered_reachable : reachable 1 (reverse sample_answered) answered_state.
Proof.
  rewrite <-(app_nil_r (reverse sample_answered)). apply (run_reachable 1 sample_answered HostConnections_new).
  - constructor.
  - vm_compute. reflexivity.
Qed.
Definition first_call (s : HostConnections) : Call :=
  default {| cl_host := 0%N; cl_request := describe_request; cl_active := None; cl_slot := SlotOpen; cl_phase := Found |}
    (hc_calls s !! 0).
Lemma answers_correlated_witness :
  cl_phase (first_call answered_state) = Finished (Ok describe_answer) ∧
  Complete 7%N 8%N describe_answer ∈ reverse sample_answered.
Proof.
  split; [vm_compute; reflexivity|].
  destruct (answers_correlated 1 (reverse sample_answered) answered_state 0 (first_call answered_state) describe_answer
    answered_reachable ltac:(vm_compute; reflexivity) ltac:(vm_compute; reflexivity)) as (_ & a & conn & Ha & Hc & Hin).
  vm_compute in Ha. injection Ha as <-. vm_compute in Hc. injection Hc as <-. exact Hin.
Defined.
Lemma waiting_reachable : reachable 1 (reverse sample_calls) waiting_state.
Proof.
  rewrite <-(app_nil_r (reverse sample_calls)). apply (run_reachable 1 sample_calls HostConnections_new).
  - constructor.
  - vm_compute. reflexivity.
Qed.
Definition first_connection (s : HostConnections) : ActiveConnection :=
  default {| ac_connection_id := 0%N; ac_outgoing := session_channel; ac_pending := ∅; ac_permits := 0 |} (hc_connections s !! 0).
Lemma in_flight_bounded_witness :
  ac_permits (first_connection waiting_state) = 0 ∧
  count (λ call, bool_decide (cl_active call = Some 0) && awaiting call) (hc_calls waiting_state) ≤ 1.
Proof.
  split; [vm_compute; reflexivity|].
  apply (in_flight_bounded 1 (reverse sample_calls) waiting_state 0 (first_connection waiting_state) waiting_reachable).
  vm_compute. reflexivity.
Defined.
(** The host connects again while a call waits. *)
Definition sample_replaced : list Event := sample_calls ++ [Register 7%N 9%N session_channel].
Definition replaced_state : HostConnections := Eval vm_compute in state_after sample_replaced.
Definition failed_state : HostConnections := Eval vm_compute in default HostConnections_new (run_task 0 replaced_state).
Definition replaced_notice : option (str * str) := Eval vm_compute in
  match hc_tasks replaced_state with [FailPending _ notice] => notice | _ => None end.
Lemma replaced_reachable : reachable 1 (reverse sample_replaced) replaced_state.
Proof.
  rewrite <-(app_nil_r (reverse sample_replaced)). apply (run_reachable 1 sample_replaced HostConnections_new).
  - constructor.
  - vm_compute. reflexivity.
Qed.
Lemma failed_calls_settle_witness :
  cl_phase (first_call failed_state) = Waiting ∧
  ∃ s outcome, advance 0 failed_state = Some s ∧ cl_phase (first_call s) = Finished outcome ∧ outcome = Err Disconnected.
Proof.
  split; [vm_compute; reflexivity|].
  assert (Hw : waiting_at 0 failed_state = Some (0, first_call failed_state)) by (vm_compute; reflexivity).
  destruct (failed_calls_settle 1 (reverse sample_replaced) replaced_state failed_state 0 0 replaced_notice 0
    (first_call failed_state) replaced_reachable ltac:(vm_compute; reflexivity) ltac:(vm_compute; reflexivity) Hw)
    as (s & outcome & Hs & Hcall & Hout).
  exists s, outcome. split; [exact Hs|]. split.
  - unfold first_call. rewrite Hcall. reflexivity.
  - destruct Hout as [Hout|(response & _ & Hslot)]; [exact Hout|]. vm_compute in Hslot. discriminate.
Defined.

(** ** The handler with one sandbox that resumes *)

#[local] Instance sample_services : GatewayServices N := {
  try_operation := λ w, (true, w);
  release_operation := λ w, w;
  db_host := λ _ _ w, (inr (Some {| eh_kind := E2b; eh_desired_state := DesiredReady;
                                    eh_state := if (w <? 250)%N then Resuming else Ready |}), w);
  db_resume_host_on_use := λ _ w, (inr tt, w);
  db_e2b_host_work := λ _ w, (inr (Some {| hw_host_id := 5%N; hw_desired_state := DesiredReady; hw_observed_state := Ready;
    hw_e2b_account_id := 1%N; hw_account_status := AccountActive; hw_e2b_sandbox_id := Some (str! "sandbox");
    hw_source_type := str! "base"; hw_source_snapshot_provider_id := None; hw_timeout_seconds := 300;
    hw_network_access := true; hw_ram_mb := None;
    hw_credential := {| sc_account_id := 1%N; sc_ciphertext := [1%N]; sc_nonce := []; sc_key_version := 1 |} |}), w);
  db_complete_host_ready := λ _ _ w, (inr tt, w);
  db_fail_host := λ _ _ _ w, (inr tt, w);
  kick := λ w, w;
  gateway_now := λ w, w;
  gateway_sleep := λ ms w, (w + ms)%N;
  vault_decrypt := λ _ credential, Some (sc_ciphertext credential);
  uuid_string := λ id, show_N id;
  issues_debug := λ _, [];
  connections_execute := λ _ _ w, (inl Offline, w);
  provider_execute := λ _ _ _ _ request w,
    (inr {| pe_descriptor := memory_descriptor; pe_response := response_success (rq_request_id request) ResUnit |}, w);
}.
#[local] Instance sample_gateway_clock : GatewayClock N.
Proof. split; [intros ms w; cbn; lia|intros id d w; cbn; lia]. Qed.
Lemma operations_run_on_ready_hosts_witness :
  execute_operation 5%N describe_request 0%N = (Ok describe_answer, 300%N) ∧
  ∃ host w1 w2, last_reading 5%N 0%N host w1 ∧ eh_state host = Ready ∧
    answered 5%N describe_request host w1 describe_answer w2.
Proof.
  assert (Hrun : execute_operation 5%N describe_request 0%N = (Ok describe_answer, 300%N)) by (vm_compute; reflexivity).
  split; [exact Hrun|]. pose proof (operations_run_on_ready_hosts 5%N describe_request 0%N) as H. rewrite Hrun in H.
  destruct H as (host & w1 & w2 & Hl & Hs & _ & Ha & _). exists host, w1, w2. split; [exact Hl|]. split; [exact Hs|exact Ha].
Defined.
Definition busy_response : HttpResponse := Eval vm_compute in
  default (http_reply 0 []) (http_response None (Err (host_connection_http_error Busy))).
Lemma gateway_outcome_reaches_caller_witness :
  ∃ error, accept sample_client describe_request busy_response = Err error ∧ code error = ResourceExhausted ∧ retryable error = true.
Proof.
  assert (Hr : http_response None (Err (host_connection_http_error Busy)) = Some busy_response) by (vm_compute; reflexivity).
  assert (Hfit : fits_limit sample_client busy_response) by (unfold fits_limit; apply N.leb_le; vm_compute; reflexivity).
  destruct (gateway_outcome_reaches_caller sample_client describe_request None _ busy_response Hr Hfit) as (_ & _ & H).
  destruct (H Busy eq_refl) as (error & Ha & Hc & _ & Hre). exists error. split; [exact Ha|]. split; [exact Hc|exact Hre].
Defined.
